(* ===== verification/_CoqProject ===== *)
-Q . S2P
Prelude.v
Words.v
Pow2.v
Memory.v
Layout.v
BasicsCorrect.v
Macros.v
Fifo.v
Queue.v
Ring.v
InternalImpl.v
Sample.v
Trace.v
QueueCorrect.v
Posix.v
Lifecycle.v
MultiConsumer.v
GroupsCorrect.v
GroupThreads.v
GroupThreadsCorrect.v
GroupFifo.v
LifecycleCorrect.v
OpenRace.v
Spsc.v
SpscInv.v
SpscCorrect.v
SpscRefine.v
Backpressure.v
BackpressureCorrect.v
Persistence.v
PersistenceCorrect.v
Crash.v
Format.v
Metrics.v
MetricsCorrect.v
Observe.v
ObserveInv.v
ObserveCorrect.v
GroupWeak.v
GroupWeakInv.v
GroupWeakCorrect.v
ManyGroups.v
Api.v
GroupApi.v
LifecycleApi.v
CompanionApi.v
Examples.v
ExamplesCorrect.v
Tests.v
TestsCorrect.v
Transfer.v
Stress.v
Bench.v
