(* ===== verification/Prelude.v ===== *)
(** * NABD: verification of a shared-memory message queue

    NABD is a bounded queue of messages in POSIX shared memory for one producer
    process and one consumer process, written in C11, with consumer groups, blocking
    producers, crash recovery, consumer checkpoints and metrics around it.  This
    development models every function of src/*.c, the inline helpers and data types of
    include/nabd/, the example and test programs and the transfers of the benchmark, and
    proves what each of them does.

    ** The program

    A queue is one shared memory object: a control block of 256 bytes
    ([nabd_control_t]: magic number, version, geometry, and on cache lines of their own
    the 64-bit positions [head] and [tail]) followed by [capacity] slots of [slot_size]
    bytes, each an eight-byte header ([nabd_slot_header_t]) and a payload.  The
    producer writes the slot of [head], then [head]; the consumer reads the slot of
    [tail], then writes [tail]; the positions are never reduced, a slot is found by
    masking.  A process works through a private handle ([struct nabd]) that caches the
    geometry and holds the state of a zero-copy reservation.  The consumer groups are a
    second block of sixteen positions; backpressure and metrics use only the public
    operations and the positions; diagnosis and recovery open the object by name; a
    checkpoint is a forty-byte file.

    ** The files

    - Prelude.v (this file): tactics, slices of lists addressed by integers, the hint
      database [nabd].  Words.v: the unsigned words with their wrap-around, the ranges
      of the signed types.  Memory.v: byte memory, the state-and-failure monad [ST],
      loads, stores and copies, frames.  Posix.v: the operating system as a class, the
      rules for running a computation on it, and what every computation keeps ([keeps],
      hint database [keeps]).
      Sample.v: the concrete queue the witnesses run on.
    - Pow2.v: the inline arithmetic of include/nabd/internal.h.  Macros.v: its macros
      that have a value and its spin loop.
    - Layout.v: constants, error codes, [nabd_strerror] and the structures of
      include/nabd/types.h under the C layout rule.
    - Fifo.v: the abstract specification, a bounded FIFO of messages, and the interface
      [PushContract] of a non-blocking push.
    - Queue.v: the handle and the single-producer single-consumer operations of
      src/nabd.c (lines 22-485).  Ring.v: the representation invariant [ring] and the
      correctness of each operation.  Trace.v: sequences of API calls.
    - InternalImpl.v: the second declaration of the handles, in internal_impl.h.
    - Spsc.v: a producer ([nabd_push], [nabd_reserve], [nabd_commit]) and a consumer
      ([nabd_pop], [nabd_peek], [nabd_release]) running concurrently, one step per
      memory access, under release/acquire memory; SpscInv.v: the invariant of every
      reachable state; SpscRefine.v: the abstract channel the two threads refine.
    - Observe.v: the functions that ask about a running queue ([nabd_empty], [nabd_full],
      [nabd_stats], [nabd_fill_level], [nabd_get_metrics], [nabd_diagnose]) as two loads
      each, asked by the producer, the consumer or a third process; ObserveInv.v: the
      invariant of the three.
    - Lifecycle.v: [nabd_open], [nabd_close], [nabd_unlink].  OpenRace.v: an attach
      between the stores of a create.
    - MultiConsumer.v: the consumer groups of src/nabd.c (lines 521-760).
      GroupThreads.v: create, join and pop of any number of threads, interleaved;
      GroupFifo.v: a group with one member among them; GroupWeak.v: the only member of a
      group, with the two threads of Spsc.v, under release/acquire memory,
      GroupWeakInv.v: the invariant of the three, and ManyGroups.v: a member on each of
      several groups.
    - Backpressure.v: src/backpressure.c.  Persistence.v: src/persistence.c.
      Metrics.v: src/metrics.c, over Format.v, the formatted output of the C library.
    - Crash.v: the two threads of Spsc.v stopped anywhere, then [nabd_recover] and
      [nabd_open]; a group consumer that resumes from a checkpoint.
    - Api.v, LifecycleApi.v, GroupApi.v, CompanionApi.v: any call of nabd.h on a queue,
      of its lifecycle, on a group, of the three companion headers, as one value, with
      its documented results.
    - Examples.v: src/examples/simple_producer.c and simple_consumer.c.  Tests.v:
      src/tests/test_api.c, and the tests of one process of test_concurrent.c.
      Transfer.v: a parent pushing over the threads of Spsc.v to a child that closes the
      handle it inherited, opens the queue by name, pops, closes and exits, with the
      interface [ChildLaws] of a child that takes every message; its two instances are
      Stress.v, the two-process test of test_concurrent.c, and Bench.v, the transfers of
      src/benchmarks/latency_bench.c.

    A component's file has its data, its operations and the lemmas about them; the
    properties and their witnesses are in the file of the same name ending in
    [Correct] (BasicsCorrect.v for Pow2.v and Layout.v, QueueCorrect.v for Queue.v,
    Ring.v and Trace.v, GroupsCorrect.v for MultiConsumer.v, and in the file itself for
    InternalImpl.v, Macros.v, OpenRace.v, SpscRefine.v, GroupFifo.v, ManyGroups.v, Crash.v,
    Stress.v, Bench.v and the four Api files).

    ** How the C code is translated

    An operation keeps its C name.  A computation on the queue is [C A := mem -> option
    (A * mem)] over the bytes of the mapping; [None] is undefined behaviour (an access
    outside the mapping, a null dereference, a signed overflow), so a theorem that says
    [f ... m = Some ...] also says that [f] is defined.  Pointers into the mapping are
    offsets from its start.  A pointer the code compares with NULL is an [option]; an
    out-parameter is an [option] of its target's value and comes back updated; a
    handle that is written to comes back updated.  Words are integers with the modulus
    written out ([add64], [sub64], [u16]); [int] and [int64_t] arithmetic has range
    checks.  Error returns are the codes of [nabd_error_t].

    Code outside the repository is a parameter: the system calls and the allocator are
    the class [Posix] with the laws [PosixLaws] ([SimplePosix] is an instance in which
    each call can be made to fail, and the witnesses run on it).  A call that fails for
    a reason in its arguments says so with [errno]; a valid request can always be
    refused, and the laws then count it in a ghost field ([s_refused]).  So theorems
    about programs that can fail say that they fail only between two states where
    something was refused ([refusal]), and on a system that refuses nothing ([calm],
    for [SimplePosix] without faults) they do not fail at all.  [munmap] is only
    promised to remove a mapping when it is given the length that was mapped.
    Clock readings, which
    weak compare-and-swaps fail spuriously, whether an allocation or a file operation
    succeeds, and what other processes do between two attempts of a blocking push or
    two calls of an example program are arguments, so the theorems hold for all of them.

    ** What is proved

    - Queue: any sequence of API calls within the documented protocol returns what the
      bounded FIFO returns ([api_implements_fifo]); every operation on every branch
      ([push_behaviour], [pop_behaviour], [reserve_then_commit],
      [peek_release_is_pop]); slots stay in bounds and apart
      ([slots_in_bounds_and_disjoint]); whatever the memory contains, results are
      documented and well typed ([api_results_well_typed]).  The invariant speaks of
      unbounded counters whose residues are the words, so all of this holds across the
      wrap of the indices.  Outside the protocol: a push during a reservation
      ([push_during_reservation]), a commit longer than the slot
      ([commit_exceeds_slot]), a release of nothing ([release_on_empty_breaks_queue]).
    - Concurrency: no data race, FIFO order with bounded occupancy, the representation
      invariant in the middle of any call, the refinement of a bounded channel in which
      each side acts on its own, possibly outdated, knowledge of the other, stable
      peeked pointers, wait-freedom, and the agreement of the two threads, run alone,
      with the functions of Queue.v
      ([spsc_race_free], [spsc_fifo], [spsc_memory_invariant], [spsc_refines_channel],
      [spsc_peek_stable], [spsc_wait_free], [spsc_threads_are_the_functions],
      [spsc_zero_copy_threads_are_the_functions]).
    - Questions: what the producer and the consumer may conclude from the answers they
      get while the other side works ([full_and_empty_conclusive],
      [answers_to_the_two_sides]), that a live queue is not diagnosed as corrupted before
      2^64 messages have been pushed ([live_queue_not_corrupted]) but can be at the wrap
      ([wrapped_queue_corrupted]), that a third process can count backwards
      ([observer_counts_backwards]), and that undisturbed the two loads are the functions
      and their answer is right ([questions_are_the_functions]).
    - Lifecycle: what a created or attached queue contains and that an open fails only
      on a refusal, absence of leaks on every path, which includes that the handle
      carries the mapped length, the wrap of the size computation, and what an attach
      gets while the queue is being created ([open_during_creation]).
    - Groups: claiming, joining, the FIFO each group reads, the minimum position; that
      the producer does not wait for groups, and that no handle gets a group block.
      Concurrently: claims are exclusive, the only member of a group receives the
      group's messages in order, and two members of one group can receive the same
      message ([group_claims_exclusive], [sole_member_fifo],
      [shared_group_delivers_twice]); and what a join gets in the middle of a creation
      ([join_during_creation]).  Under release/acquire memory, with one member on each of
      any number of groups, the member of every group that keeps up receives the messages
      whole and in order, even when the other groups are overtaken
      ([group_member_weak_fifo], [groups_weak_fifo]), but the
      producer never synchronises with them: from the first reuse of a slot on, every
      write races ([producer_races_with_group], [producer_races_with_groups]).  No
      sequence of group calls makes room for the producer ([groups_never_make_room]).
    - Backpressure: exactly-once pushes under any consuming environment, timeouts (full
      is reported by the first clock reading at the deadline and not before it),
      termination, the sleeps made.
    - Persistence: diagnosis and recovery of a missing, an empty and a whole segment, the
      checkpoint round trip, what the checksum detects, resumption.  After a crash at any point of a call, recovery changes
      nothing and an attach finds the messages published and not removed
      ([crash_restart]); a consumer restarted from its checkpoint reads exactly what
      follows it ([consumer_restarts_from_checkpoint]).
    - Metrics: the reported numbers, throughput across wraps, the formatted text read
      back, absence of overruns.
    - Interfaces: what each call of the four headers returns for any contents of the
      segment and any behaviour of the system ([api_results_well_typed],
      [lifecycle_results], [group_results_well_typed], [pressure_results],
      [metrics_results], [persistence_results]).
    - Basics: the power-of-two helpers on 64 bits, the macros and the spin loop
      ([pad_completes_line], [spin_wait_pauses]), the layout against the static
      assertions, the error texts, the agreement of the two handle declarations.
    - Examples: the producer sends its hundred messages among any consumers, the
      consumer receives what is there, and the session of both, down to the printed
      text, unless the system refuses an open ([producer_sends_every_message], [consumer_receives_every_message],
      [example_session]): the composition of opening, pushing, popping, statistics,
      formatting and closing.
    - Tests and benchmark: on every system that behaves as documented the test programs
      pass, or stop at an assertion after the system refused them a request
      ([api_tests_pass], [concurrent_tests_pass]); the two-process test receives its
      integers in order under every interleaving and can be completed from every moment
      ([stress_test_passes]) unless its child is refused the queue, and then it hangs
      ([stress_test_hangs_without_child]); so can the transfers of the benchmark for
      messages of at most 4096 bytes ([benchmark_transfers]), but not for larger ones
      ([benchmark_hangs_on_large_messages]).

    ** Fuel and bounds

    A thread of Spsc.v run alone gets six steps, one more than the largest rank; the
    theorem says that six suffice.  The loops of [nabd_push_wait] and
    [nabd_push_backoff] have fuel and return [Running] when it ends, never a result;
    the theorems say for which fuel the outcome is [Done].  The scans over the groups
    are structural over the sixteen groups; a group thread run alone gets 22 steps for
    create, 34 for join and 5 for pop, which [group_threads_are_the_functions] shows
    to be enough.  The loops of the example programs return [None] when their fuel
    ends; a hundred and one rounds are enough for the producer, the number of messages
    plus 1001 for the consumer.  Printing a 64-bit number has fuel for
    twenty digits, and 2^64 < 10^20.  Strings and payloads are unbounded lists.

    ** What is left out

    - Alignment, prefetch, inlining, debug, pause and barrier macros of internal.h:
      they have no value and no effect on results.
    - In Spsc.v a slot read returns the latest write, which the release/acquire memory
      model guarantees only for race-free accesses; that every access is race-free is
      the theorem [spsc_race_free].  A slot access is one step for its whole range.
      The many threads of GroupThreads.v run under sequential consistency; under weak
      memory a group has one member (GroupWeak.v, ManyGroups.v), whose claim of the group
      is over when it starts.  Two producers are not run concurrently.
    - In Observe.v what a relaxed load has seen is forgotten, so the model has every run
      of the code and some that C11 excludes; the third process only asks.
    - The example programs are interleaved with other processes at calls and sleeps, not
      at memory accesses; output always succeeds, and the text of [strerror] is an
      argument.
    - [errno] is modelled only where the code sets or reads it.  The mapping's page
      rounding is not modelled: a mapping is as long as was asked for.
    - [fork] itself: the child of a transfer starts with its parent's view of the system.
      Its calls of [nabd_open] and [nabd_close] are one step each: they read fields of
      the control block that do not change and write nothing there.  Sleeps, and output
      that [fork] finds in a buffer, have no effect in the model.  The parent of the
      benchmark ends with its last [wait]; its results are computed in floating point.
    - The Go, Python and Rust bindings, the build files and the documents under docs/
      (which are used as statements of intent). *)

From stdpp Require Export base numbers list option.
From Stdlib Require Export ZArith Lia.
Global Open Scope Z_scope.

(** ** Tactics *)

(** Turn boolean comparisons on [Z] in hypotheses and goal into propositions. *)
Ltac zbool :=
  repeat match goal with
  | H : (_ && _) = true |- _ => apply andb_true_iff in H as [? ?]
  | H : (_ || _) = false |- _ => apply orb_false_iff in H as [? ?]
  | H : negb _ = true |- _ => apply negb_true_iff in H
  | H : negb _ = false |- _ => apply negb_false_iff in H
  | H : (_ <? _) = true |- _ => apply Z.ltb_lt in H
  | H : (_ <? _) = false |- _ => apply Z.ltb_ge in H
  | H : (_ <=? _) = true |- _ => apply Z.leb_le in H
  | H : (_ <=? _) = false |- _ => apply Z.leb_gt in H
  | H : (_ =? _) = true |- _ => apply Z.eqb_eq in H
  | H : (_ =? _) = false |- _ => apply Z.eqb_neq in H
  end.

(** Case analysis on the first boolean comparison that blocks an [if]. *)
Ltac case_zb :=
  match goal with
  | |- context [if ?b then _ else _] =>
      match type of b with bool => let E := fresh "E" in destruct b eqn:E; zbool end
  end.

(** Decide a boolean comparison by linear arithmetic and rewrite with it. *)
Ltac zb_true b := replace b with true by (symmetry; first [apply Z.ltb_lt | apply Z.leb_le | apply Z.eqb_eq]; lia).
Ltac zb_false b := replace b with false by (symmetry; first [apply Z.ltb_ge | apply Z.leb_gt | apply Z.eqb_neq]; lia).

(** Split a decidable comparison of natural numbers or integers in the goal. *)
Ltac dec := repeat case_decide; try lia; try done.

(** ** Slices of lists addressed by integers *)

(** [slice l off n]: the [n] elements of [l] from offset [off]. *)
Definition slice {A} (l : list A) (off n : Z) : list A :=
  take (Z.to_nat n) (drop (Z.to_nat off) l).

(** [splice l off s]: [l] with the elements from [off] on overwritten by [s]. *)
Definition splice {A} (l : list A) (off : Z) (s : list A) : list A :=
  take (Z.to_nat off) l ++ s ++ drop (Z.to_nat off + length s) l.

(** Length of a list as an integer. *)
Definition zlen {A} (l : list A) : Z := Z.of_nat (length l).

Section Slices.
Context {A : Type}.
Implicit Types (l s : list A) (off n : Z).

Lemma zlen_nonneg l : 0 <= zlen l.
Proof. unfold zlen. lia. Qed.

Lemma zlen_app l s : zlen (l ++ s) = zlen l + zlen s.
Proof. unfold zlen. rewrite length_app. lia. Qed.

Lemma zlen_splice l off s :
  0 <= off -> off + zlen s <= zlen l -> zlen (splice l off s) = zlen l.
Proof.
  unfold zlen, splice. intros.
  rewrite !length_app, length_take, length_drop. lia.
Qed.

Lemma zlen_slice l off n :
  0 <= off -> 0 <= n -> off + n <= zlen l -> zlen (slice l off n) = n.
Proof.
  unfold zlen, slice. intros. rewrite length_take, length_drop. lia.
Qed.

Lemma lookup_slice l off n (i : nat) :
  slice l off n !! i
  = if decide (i < Z.to_nat n)%nat then l !! (Z.to_nat off + i)%nat else None.
Proof.
  unfold slice. case_decide.
  - rewrite lookup_take_lt by done. apply lookup_drop.
  - apply lookup_take_ge. lia.
Qed.

Lemma lookup_splice l off s (i : nat) :
  0 <= off -> off + zlen s <= zlen l ->
  splice l off s !! i
  = if decide (Z.to_nat off <= i < Z.to_nat off + length s)%nat
    then s !! (i - Z.to_nat off)%nat else l !! i.
Proof.
  unfold zlen, splice. intros Ho Hl.
  assert (length (take (Z.to_nat off) l) = Z.to_nat off) as Ht
    by (rewrite length_take; lia).
  destruct (decide (i < Z.to_nat off)%nat).
  - rewrite lookup_app_l by lia. rewrite lookup_take_lt by lia. by dec.
  - rewrite lookup_app_r by lia. rewrite Ht.
    case_decide; [by rewrite lookup_app_l by lia|].
    rewrite lookup_app_r by lia. rewrite lookup_drop. f_equal. lia.
Qed.

(** Reading back exactly what was written. *)
Lemma slice_splice_same l off s :
  0 <= off -> off + zlen s <= zlen l -> slice (splice l off s) off (zlen s) = s.
Proof.
  intros Ho Hl. apply list_eq. intros i.
  rewrite lookup_slice, lookup_splice by done. unfold zlen in *.
  rewrite Nat2Z.id. repeat case_decide; try lia.
  - f_equal. lia.
  - symmetry. apply lookup_ge_None. lia.
Qed.

(** Reading a range that the write does not touch. *)
Lemma slice_splice_disjoint l off s off' n :
  0 <= off -> off + zlen s <= zlen l -> 0 <= off' -> 0 <= n ->
  (off' + n <= off \/ off + zlen s <= off') ->
  slice (splice l off s) off' n = slice l off' n.
Proof.
  intros Ho Hl Ho' Hn Hd. apply list_eq. intros i.
  rewrite !lookup_slice, lookup_splice by done. unfold zlen in *.
  repeat case_decide; done || lia.
Qed.

(** Two slices of one range that follow each other. *)
Lemma slice_app l off n1 n2 :
  0 <= off -> 0 <= n1 -> 0 <= n2 -> off + n1 + n2 <= zlen l ->
  slice l off (n1 + n2) = slice l off n1 ++ slice l (off + n1) n2.
Proof.
  unfold slice, zlen. intros.
  replace (Z.to_nat (n1 + n2)) with (Z.to_nat n1 + Z.to_nat n2)%nat by lia.
  replace (Z.to_nat (off + n1)) with (Z.to_nat off + Z.to_nat n1)%nat by lia.
  rewrite <- drop_drop. symmetry. apply take_take_drop.
Qed.

(** Writing the same bytes again changes nothing. *)
Lemma splice_splice_same l off s :
  0 <= off -> off + zlen s <= zlen l -> splice (splice l off s) off s = splice l off s.
Proof.
  intros. apply list_eq. intros i. rewrite !lookup_splice by (rewrite ?zlen_splice; done).
  by repeat case_decide.
Qed.

(** A slice within a prefix. *)
Lemma slice_take l off n k :
  0 <= off -> 0 <= n -> off + n <= k -> slice (take (Z.to_nat k) l) off n = slice l off n.
Proof.
  intros. apply list_eq. intros i. rewrite !lookup_slice. case_decide; [|done].
  apply lookup_take_lt. lia.
Qed.

(** A slice of a slice. *)
Lemma slice_slice l off n off' n' :
  0 <= off -> 0 <= off' -> 0 <= n' -> off' + n' <= n ->
  slice (slice l off n) off' n' = slice l (off + off') n'.
Proof.
  intros. apply list_eq. intros i. rewrite !lookup_slice. repeat case_decide; try lia; [|done].
  f_equal. lia.
Qed.

Lemma slice_all l : slice l 0 (zlen l) = l.
Proof. unfold slice, zlen. rewrite Nat2Z.id. by rewrite drop_0, firstn_all. Qed.

Lemma slice_nil l off : slice l off 0 = [].
Proof. done. Qed.

(** Writing everything leaves nothing of what was there. *)
Lemma splice_all l s : zlen s = zlen l -> splice l 0 s = s.
Proof.
  unfold splice, zlen. intros Hl. simpl. rewrite drop_ge by lia. apply app_nil_r.
Qed.

(** Writing nothing changes nothing. *)
Lemma splice_nil l off : splice l off [] = l.
Proof. unfold splice. simpl. rewrite Nat.add_0_r. apply take_drop. Qed.

End Slices.

(** The hints that discharge the common side conditions on slices. *)
Create HintDb nabd.
#[export] Hint Resolve zlen_nonneg : nabd.
