(* ===== verification/Words.v ===== *)
(** * Machine integers

    The fixed-width integers of the C code: [uint64_t]/[size_t] (64 bits),
    [uint32_t], [uint16_t] as integers with their wrap-around written out, the
    signed [int]/[int64_t] with an explicit range (signed overflow is undefined
    behaviour). *)

From S2P Require Import Prelude.
Local Open Scope Z_scope.

(** ** Unsigned arithmetic *)

Definition u16 (z : Z) : Z := z mod 2 ^ 16.
Definition u32 (z : Z) : Z := z mod 2 ^ 32.
Definition u64 (z : Z) : Z := z mod 2 ^ 64.

Definition add64 (a b : Z) : Z := u64 (a + b).
Definition sub64 (a b : Z) : Z := u64 (a - b).
Definition mul64 (a b : Z) : Z := u64 (a * b).
Definition shl64 (a n : Z) : Z := u64 (Z.shiftl a n).

(** [UINT64_MAX] *)
Definition UINT64_MAX : Z := 2 ^ 64 - 1.

(** ** Signed arithmetic *)

(** Conversion of an unsigned value to [int] (two's complement). *)
Definition to_int (z : Z) : Z := (z + 2 ^ 31) mod 2 ^ 32 - 2 ^ 31.

(** A value an [int] (an [int64_t]) can hold; outside, an addition or a
    multiplication is undefined behaviour. *)
Definition int_ok (z : Z) : bool := (- 2 ^ 31 <=? z) && (z <? 2 ^ 31).
Definition int64_ok (z : Z) : bool := (- 2 ^ 63 <=? z) && (z <? 2 ^ 63).

Arguments u16 : simpl never.
Arguments u32 : simpl never.
Arguments u64 : simpl never.
Arguments add64 : simpl never.
Arguments sub64 : simpl never.
Arguments mul64 : simpl never.
Arguments shl64 : simpl never.

(** ** Lemmas on wrap-around *)

Lemma int_ok_spec z : int_ok z = true <-> - 2 ^ 31 <= z < 2 ^ 31.
Proof. unfold int_ok. rewrite andb_true_iff, Z.leb_le, Z.ltb_lt. done. Qed.

Lemma u64_range z : 0 <= u64 z < 2 ^ 64.
Proof. apply Z.mod_pos_bound. lia. Qed.

Lemma u64_small z : 0 <= z < 2 ^ 64 -> u64 z = z.
Proof. apply Z.mod_small. Qed.

Lemma u64_idem z : u64 (u64 z) = u64 z.
Proof. apply u64_small, u64_range. Qed.

Lemma u32_small z : 0 <= z < 2 ^ 32 -> u32 z = z.
Proof. apply Z.mod_small. Qed.

Lemma u32_u64 z : u32 (u64 z) = u32 z.
Proof.
  unfold u32, u64. apply Z.mod_mod_divide. by exists (2 ^ 32).
Qed.

Lemma u16_small z : 0 <= z < 2 ^ 16 -> u16 z = z.
Proof. apply Z.mod_small. Qed.

Lemma u16_range z : 0 <= u16 z < 2 ^ 16.
Proof. apply Z.mod_pos_bound. lia. Qed.

Lemma sub64_u64 a b : sub64 (u64 a) (u64 b) = u64 (a - b).
Proof. unfold sub64, u64. symmetry. apply Zminus_mod. Qed.

Lemma add64_u64_l a b : add64 (u64 a) b = u64 (a + b).
Proof. unfold add64, u64. apply Zplus_mod_idemp_l. Qed.

(** Two counters less than 2^64 apart agree modulo 2^64 only if they are equal:
    the comparison [tail == head] is exact across the wrap of the indices. *)
Lemma u64_eq_close a b : a <= b < a + 2 ^ 64 -> (u64 a =? u64 b) = (a =? b).
Proof.
  intros H. destruct (Z.eqb_spec a b) as [->|Hne]; [apply Z.eqb_refl|].
  apply Z.eqb_neq. intros He. apply Hne.
  assert (u64 (b - a) = b - a) as Hd by (apply u64_small; lia).
  rewrite <- sub64_u64 in Hd. rewrite He in Hd.
  unfold sub64, u64 in Hd. rewrite Z.sub_diag in Hd. change (0 mod 2 ^ 64) with 0 in Hd. lia.
Qed.

(** [a - b] on 64 bits is the distance of the unbounded counters. *)
Lemma sub64_distance a b : b <= a < b + 2 ^ 64 -> sub64 (u64 a) (u64 b) = a - b.
Proof. intros. rewrite sub64_u64. apply u64_small. lia. Qed.

(** A value that is in range already is unchanged; the tactic below closes the
    side conditions. *)
Ltac u64s := repeat rewrite u64_small by lia.

(** Two positions less than [c] apart have different remainders. *)
Lemma mod_distinct i j c : 0 < c -> i < j < i + c -> i mod c <> j mod c.
Proof.
  intros Hc Hij He.
  assert ((j - i) mod c = 0) as H0.
  { rewrite Zminus_mod, He, Z.sub_diag. apply Z.mod_0_l. lia. }
  rewrite Z.mod_small in H0; lia.
Qed.

(** A percentage of 64-bit numbers, converted to an [int] as the code does. *)
Lemma percentage u c :
  0 <= u <= c -> 0 < c -> c * 100 < 2 ^ 64 ->
  to_int (mul64 u 100 / c) = u * 100 / c /\ 0 <= u * 100 / c <= 100.
Proof.
  intros Hu Hc Hb. assert (0 <= u * 100 / c <= 100) as Hp.
  { split; [apply Z.div_pos; lia|]. apply Z.div_le_upper_bound; lia. }
  split; [|done]. unfold mul64, to_int. rewrite u64_small by lia. rewrite Z.mod_small by lia. lia.
Qed.
