(* ===== verification/Pow2.v ===== *)
(** * Power-of-two utilities

    The inline helpers of include/nabd/internal.h on a 64-bit [size_t]:
    [nabd_is_power_of_2], [nabd_next_power_of_2] (the shift-or smear) and
    [nabd_mod_pow2], with the theorems that the test is exact, that the smear
    rounds up to the least power of two (and wraps to 0 above 2^63), and that
    the mask is the remainder. *)

From S2P Require Import Prelude Words.
Local Open Scope Z_scope.

(** ** Definitions *)

(** [return n && !(n & (n - 1));] *)
Definition nabd_is_power_of_2 (n : Z) : bool :=
  negb (n =? 0) && (Z.land n (sub64 n 1) =? 0).

(** [n--; n |= n >> 1; ... n |= n >> 32; n++;] on a 64-bit [size_t] *)
Definition nabd_next_power_of_2 (n : Z) : Z :=
  let n := sub64 n 1 in
  let n := Z.lor n (Z.shiftr n 1) in
  let n := Z.lor n (Z.shiftr n 2) in
  let n := Z.lor n (Z.shiftr n 4) in
  let n := Z.lor n (Z.shiftr n 8) in
  let n := Z.lor n (Z.shiftr n 16) in
  let n := Z.lor n (Z.shiftr n 32) in
  add64 n 1.

(** [return n & mask;] *)
Definition nabd_mod_pow2 (n mask : Z) : Z := Z.land n mask.

(** ** Masks *)

(** Masking with [2^k - 1] is reduction modulo [2^k], also after a reduction
    modulo 2^64: the ring position of an index survives the wrap. *)
Lemma mod_pow2_spec a k :
  0 <= k <= 64 -> nabd_mod_pow2 (u64 a) (2 ^ k - 1) = a mod 2 ^ k.
Proof.
  intros Hk. unfold nabd_mod_pow2, u64.
  replace (2 ^ k - 1) with (Z.ones k) by (rewrite Z.ones_equiv; lia).
  rewrite Z.land_ones by lia. apply Z.mod_mod_divide.
  exists (2 ^ (64 - k)). rewrite <- Z.pow_add_r by lia. f_equal. lia.
Qed.

Lemma mod_pow2_range a k :
  0 <= k <= 64 -> 0 <= nabd_mod_pow2 (u64 a) (2 ^ k - 1) < 2 ^ k.
Proof. intros. rewrite mod_pow2_spec by done. apply Z.mod_pos_bound. lia. Qed.


(** ** The smear

    [smeared w m x]: bit [i] of [x] is set exactly when one of the [w] bits of
    [m] from [i] upwards is. *)
Definition smeared (w m x : Z) : Prop :=
  0 <= x /\ forall i, 0 <= i ->
  Z.testbit x i = true <-> exists d, 0 <= d < w /\ Z.testbit m (i + d) = true.

Lemma smeared_1 m : 0 <= m -> smeared 1 m m.
Proof.
  intros Hm. split; [done|]. intros i Hi. split.
  - intros Hb. exists 0. by rewrite Z.add_0_r.
  - intros (d & Hd & Hb). replace d with 0 in Hb by lia. by rewrite Z.add_0_r in Hb.
Qed.

(** One line [n |= n >> w] doubles the width of the smear. *)
Lemma smeared_step w m x :
  0 < w -> smeared w m x -> smeared (w + w) m (Z.lor x (Z.shiftr x w)).
Proof.
  intros Hw [Hx Hs]. split.
  { apply Z.lor_nonneg. split; [done|]. by apply Z.shiftr_nonneg. }
  intros i Hi. rewrite Z.lor_spec, Z.shiftr_spec, orb_true_iff by done.
  rewrite (Hs i), (Hs (i + w)) by lia. split.
  - intros [(d & Hd & Hb)|(d & Hd & Hb)].
    + exists d. split; [lia|done].
    + exists (w + d). split; [lia|]. by rewrite Z.add_assoc.
  - intros (d & Hd & Hb). destruct (decide (d < w)).
    + left. exists d. split; [lia|done].
    + right. exists (d - w). split; [lia|]. by replace (i + w + (d - w)) with (i + d) by lia.
Qed.

(** A smear over all 64 bits is the block of ones up to the leading bit. *)
Lemma smeared_64 m x : 0 < m < 2 ^ 64 -> smeared 64 m x -> x = Z.ones (Z.log2 m + 1).
Proof.
  intros Hm [Hx Hs].
  pose proof (Z.log2_nonneg m). assert (Z.log2 m < 64) by (apply Z.log2_lt_pow2; lia).
  apply Z.bits_inj'. intros i Hi. apply eq_bool_prop_intro.
  rewrite !Is_true_true, Hs by done.
  destruct (decide (i <= Z.log2 m)).
  - rewrite Z.ones_spec_low by lia. split; [done|]. intros _.
    exists (Z.log2 m - i). split; [lia|].
    replace (i + (Z.log2 m - i)) with (Z.log2 m) by lia. apply Z.bit_log2. lia.
  - rewrite Z.ones_spec_high by lia. split; [|done].
    intros (d & Hd & Hb). rewrite Z.bits_above_log2 in Hb by lia. done.
Qed.

(** ** Results *)

Lemma next_power_of_2_smear n :
  2 <= n <= 2 ^ 64 - 1 ->
  nabd_next_power_of_2 n = u64 (2 ^ (Z.log2 (n - 1) + 1)).
Proof.
  intros Hn. unfold nabd_next_power_of_2. cbv zeta.
  assert (sub64 n 1 = n - 1) as -> by (unfold sub64; apply u64_small; lia).
  match goal with |- add64 ?x 1 = _ => assert (x = Z.ones (Z.log2 (n - 1) + 1)) as -> end.
  - apply smeared_64; [lia|].
    apply (smeared_step 32); [lia|]. apply (smeared_step 16); [lia|].
    apply (smeared_step 8); [lia|]. apply (smeared_step 4); [lia|].
    apply (smeared_step 2); [lia|]. apply (smeared_step 1); [lia|].
    apply smeared_1. lia.
  - unfold add64. f_equal. rewrite Z.ones_equiv. lia.
Qed.

Lemma next_power_of_2_log2_up n :
  1 <= n <= 2 ^ 63 -> nabd_next_power_of_2 n = 2 ^ Z.log2_up n.
Proof.
  intros Hn. destruct (decide (n = 1)) as [->|]; [reflexivity|].
  rewrite next_power_of_2_smear by lia.
  rewrite Z.log2_up_eqn by lia. unfold Z.pred. rewrite <- Z.add_1_r.
  replace (n + -1) with (n - 1) by lia.
  apply u64_small. split; [apply Z.pow_nonneg; lia|].
  apply Z.pow_lt_mono_r; try lia.
  assert (Z.log2 (n - 1) < 63) by (apply Z.log2_lt_pow2; lia). lia.
Qed.

(** Above 2^63 there is no 64-bit power of two left: the sum wraps to 0. *)
Lemma next_power_of_2_wraps n :
  2 ^ 63 < n < 2 ^ 64 -> nabd_next_power_of_2 n = 0.
Proof.
  intros Hn. rewrite next_power_of_2_smear by lia.
  assert (Z.log2 (n - 1) = 63) as -> by (apply Z.log2_unique; lia). reflexivity.
Qed.

Lemma is_power_of_2_pow k : 0 <= k < 64 -> nabd_is_power_of_2 (2 ^ k) = true.
Proof.
  intros Hk. unfold nabd_is_power_of_2.
  assert (2 ^ k < 2 ^ 64) by (apply Z.pow_lt_mono_r; lia).
  assert (0 < 2 ^ k) by (apply Z.pow_pos_nonneg; lia).
  unfold sub64. rewrite u64_small by lia.
  replace (2 ^ k - 1) with (Z.ones k) by (rewrite Z.ones_equiv; lia).
  rewrite Z.land_ones, Z.mod_same by lia.
  zb_false (2 ^ k =? 0). done.
Qed.

(** A number with a bit below its leading one shares the leading bit with its
    predecessor. *)
Lemma land_pred_leading n :
  0 < n -> n <> 2 ^ Z.log2 n -> Z.testbit (Z.land n (n - 1)) (Z.log2 n) = true.
Proof.
  intros Hn Hne. pose proof (Z.log2_spec n Hn) as [Hlo Hhi].
  rewrite Z.land_spec, Z.bit_log2 by done. simpl.
  assert (Z.log2 (n - 1) = Z.log2 n) as <- by (apply Z.log2_unique; [apply Z.log2_nonneg|lia]).
  apply Z.bit_log2. pose proof (Z.pow_pos_nonneg 2 (Z.log2 n)) as ?.
  pose proof (Z.log2_nonneg n). lia.
Qed.

Lemma is_power_of_2_inv n :
  0 <= n < 2 ^ 64 -> nabd_is_power_of_2 n = true -> n = 2 ^ Z.log2 n /\ 0 <= Z.log2 n < 64.
Proof.
  unfold nabd_is_power_of_2. intros Hn Hp. zbool.
  unfold sub64 in *. rewrite u64_small in * by lia.
  split; [|split; [apply Z.log2_nonneg | apply Z.log2_lt_pow2; lia]].
  destruct (decide (n = 2 ^ Z.log2 n)) as [|Hne]; [done|].
  pose proof (land_pred_leading n ltac:(lia) Hne) as Hb.
  rewrite H0, Z.testbit_0_l in Hb. done.
Qed.
