(* ===== verification/Memory.v ===== *)
(** * Byte memory and the C computations over it

    A shared memory object is the list of its bytes.  A C computation is a
    state transformer over one such object that can be undefined ([None]): an
    access outside the object is undefined behaviour (in practice a SIGBUS or
    a wild read), so every access is checked and a theorem that a computation
    equals [Some _] also says that it stays inside the memory.  Multi-byte
    values are little-endian, as on the x86-64 and AArch64 machines the code
    targets. *)

From S2P Require Import Prelude Words.
From coqutil Require Export Byte.
From coqutil Require Export Word.LittleEndianList.
Local Open Scope Z_scope.

(** ** Definitions *)

Abbreviation mem := (list byte).

(** Computations over a state of type [S]; [None] is undefined behaviour. *)
Definition ST (S A : Type) : Type := S -> option (A * S).

#[export] Instance ST_ret {S} : MRet (ST S) := fun A a s => Some (a, s).
#[export] Instance ST_bind {S} : MBind (ST S) := fun A B k c s =>
  match c s with Some (a, s') => k a s' | None => None end.

Definition undef {S A} : ST S A := fun _ => None.

(** Computations over a shared memory object. *)
Abbreviation C := (ST mem).

(** [memcpy]'s view of a range: [n] bytes from [off]. *)
Definition load (off n : Z) : C (list byte) := fun m =>
  if (0 <=? off) && (0 <=? n) && (off + n <=? zlen m) then Some (slice m off n, m) else None.

Definition store (off : Z) (bs : list byte) : C unit := fun m =>
  if (0 <=? off) && (off + zlen bs <=? zlen m) then Some (tt, splice m off bs) else None.

(** Loads and stores of [w]-byte unsigned integers. *)
Definition ld (w : nat) (off : Z) : C Z :=
  bs ← load off (Z.of_nat w); mret (le_combine bs).

Definition st (w : nat) (off v : Z) : C unit := store off (le_split w v).

(** [memcpy(dst, src, n)] from a C object [src] of the caller into the memory;
    reading past the end of [src] is undefined. *)
Definition memcpy_in (off : Z) (src : list byte) (n : Z) : C unit :=
  if (0 <=? n) && (n <=? zlen src) then store off (take (Z.to_nat n) src) else undef.

(** [memcpy(dst, src, n)] from the memory into a C object [dst] of the caller;
    writing past the end of [dst] is undefined. *)
Definition memcpy_out (dst : list byte) (off n : Z) : C (list byte) :=
  if n <=? zlen dst then bs ← load off n; mret (splice dst 0 bs) else undef.

(** The pure readings and writings the computations perform. *)
Definition rd (w : nat) (m : mem) (off : Z) : Z := le_combine (slice m off (Z.of_nat w)).
Definition wr (w : nat) (m : mem) (off v : Z) : mem := splice m off (le_split w v).

(** The range [off, off + n) lies in the memory. *)
Definition in_mem (m : mem) (off n : Z) : Prop := 0 <= off /\ 0 <= n /\ off + n <= zlen m.

#[export] Instance byte_eq_decision : EqDecision byte := Strings.Byte.byte_eq_dec.

#[export] Instance in_mem_dec m off n : Decision (in_mem m off n).
Proof. unfold in_mem. apply _. Defined.

Arguments ST : simpl never.
Arguments load : simpl never.
Arguments store : simpl never.
Arguments ld : simpl never.
Arguments st : simpl never.
Arguments rd : simpl never.
Arguments wr : simpl never.

(** ** The monad *)

Section Monad.
Context {S A B : Type}.
Implicit Types (c : ST S A) (k : A -> ST S B).

Lemma bind_ret c k s a s' : c s = Some (a, s') -> (c ≫= k) s = k a s'.
Proof. unfold mbind, ST_bind. by intros ->. Qed.

Lemma bind_undef c k s : c s = None -> (c ≫= k) s = None.
Proof. unfold mbind, ST_bind. by intros ->. Qed.

Lemma bind_inv c k s r :
  (c ≫= k) s = Some r -> exists a s', c s = Some (a, s') /\ k a s' = Some r.
Proof. unfold mbind, ST_bind. destruct (c s) as [[a s']|]; [eauto|done]. Qed.

End Monad.

(** ** Accesses in range *)

Lemma zlen_le_split w v : zlen (le_split w v) = Z.of_nat w.
Proof. unfold zlen. by rewrite length_le_split. Qed.

Lemma load_in m off n : in_mem m off n -> load off n m = Some (slice m off n, m).
Proof.
  intros (? & ? & ?). unfold load.
  zb_true (0 <=? off). zb_true (0 <=? n). zb_true (off + n <=? zlen m). done.
Qed.

Lemma store_in m off bs : in_mem m off (zlen bs) -> store off bs m = Some (tt, splice m off bs).
Proof.
  intros (? & ? & ?). unfold store. zb_true (0 <=? off).
  zb_true (off + zlen bs <=? zlen m). done.
Qed.

Lemma ld_in m w off : in_mem m off (Z.of_nat w) -> ld w off m = Some (rd w m off, m).
Proof. intros H. unfold ld. by erewrite bind_ret by (by apply load_in). Qed.

Lemma st_in m w off v : in_mem m off (Z.of_nat w) -> st w off v m = Some (tt, wr w m off v).
Proof. intros H. apply store_in. by rewrite zlen_le_split. Qed.

Lemma ld_out m w off : zlen m < off + Z.of_nat w -> ld w off m = None.
Proof.
  intros H. unfold ld. apply bind_undef. unfold load.
  zb_false (off + Z.of_nat w <=? zlen m). by rewrite andb_false_r.
Qed.

Lemma memcpy_in_in m off src n :
  0 <= n <= zlen src -> in_mem m off n ->
  memcpy_in off src n m = Some (tt, splice m off (take (Z.to_nat n) src)).
Proof.
  intros Hn Hm. unfold memcpy_in. zb_true (0 <=? n). zb_true (n <=? zlen src). simpl.
  apply store_in. unfold zlen in *. rewrite length_take, Nat.min_l by lia.
  by rewrite Z2Nat.id by lia.
Qed.

(** Copying a whole object. *)
Lemma memcpy_in_all m off src : memcpy_in off src (zlen src) m = store off src m.
Proof.
  pose proof (zlen_nonneg src). unfold memcpy_in.
  zb_true (0 <=? zlen src). zb_true (zlen src <=? zlen src). simpl.
  rewrite take_ge; [done|unfold zlen; lia].
Qed.

Lemma memcpy_out_in m dst off n :
  n <= zlen dst -> in_mem m off n ->
  memcpy_out dst off n m = Some (splice dst 0 (slice m off n), m).
Proof.
  intros Hn Hm. unfold memcpy_out. zb_true (n <=? zlen dst).
  by erewrite bind_ret by (by apply load_in).
Qed.

(** ** Accesses that succeeded *)

Lemma st_inv w off v m r : st w off v m = Some r -> in_mem m off (Z.of_nat w) /\ r = (tt, wr w m off v).
Proof.
  unfold st, store. case_match eqn:E; [|done]. intros [= <-]. zbool.
  rewrite zlen_le_split in *. split; [unfold in_mem; lia|done].
Qed.

Lemma load_inv off n m bs m' : load off n m = Some (bs, m') -> m' = m.
Proof. unfold load. case_match; [|done]. by intros [= _ <-]. Qed.

Lemma ld_inv w off m x m' : ld w off m = Some (x, m') -> m' = m /\ x = rd w m off.
Proof.
  unfold ld. intros (bs & m1 & Hl & Hr)%bind_inv. injection Hr as <- <-.
  pose proof (load_inv _ _ _ _ _ Hl) as ->. revert Hl. unfold load. case_match; [|done].
  by intros [= <-].
Qed.

(** ** What a store changes *)

Lemma zlen_wr w m off v : in_mem m off (Z.of_nat w) -> zlen (wr w m off v) = zlen m.
Proof. intros (? & ? & ?). apply zlen_splice; [done|]. by rewrite zlen_le_split. Qed.

Lemma rd_wr_same w m off v :
  in_mem m off (Z.of_nat w) -> rd w (wr w m off v) off = v mod 2 ^ (Z.of_nat w * 8).
Proof.
  intros (? & ? & ?). unfold rd, wr. rewrite <- (zlen_le_split w v) at 1.
  rewrite slice_splice_same by (rewrite ?zlen_le_split; lia). apply le_combine_split.
Qed.

Lemma slice_wr w m off v off' n :
  in_mem m off (Z.of_nat w) -> 0 <= off' -> 0 <= n ->
  off' + n <= off \/ off + Z.of_nat w <= off' ->
  slice (wr w m off v) off' n = slice m off' n.
Proof.
  intros (? & ? & ?) ? ? ?. unfold wr.
  apply slice_splice_disjoint; rewrite ?zlen_le_split; lia.
Qed.

Lemma rd_splice w m off bs off' :
  in_mem m off (zlen bs) -> 0 <= off' ->
  off' + Z.of_nat w <= off \/ off + zlen bs <= off' ->
  rd w (splice m off bs) off' = rd w m off'.
Proof.
  intros (? & ? & ?) ? ?. unfold rd. rewrite slice_splice_disjoint; done || lia.
Qed.

Lemma rd_wr w m off v w' off' :
  in_mem m off (Z.of_nat w) -> 0 <= off' ->
  off' + Z.of_nat w' <= off \/ off + Z.of_nat w <= off' ->
  rd w' (wr w m off v) off' = rd w' m off'.
Proof. intros. unfold rd. rewrite slice_wr; done || lia. Qed.

Lemma rd_range w m off : 0 <= off -> off + Z.of_nat w <= zlen m ->
  0 <= rd w m off < 2 ^ (8 * Z.of_nat w).
Proof.
  intros ? ?. unfold rd. pose proof (le_combine_bound (slice m off (Z.of_nat w))) as Hb.
  pose proof (zlen_slice m off (Z.of_nat w)) as Hl. unfold zlen in *.
  rewrite Hl in Hb by lia. done.
Qed.

(** ** Automation *)

(** Side conditions: ranges and lengths. *)
Ltac zl :=
  unfold in_mem in *;
  repeat first [rewrite zlen_le_split | rewrite zlen_wr by zl | rewrite zlen_splice by zl];
  lia.

(** Run one access of a computation. *)
Ltac c_ld := erewrite bind_ret by (apply ld_in; solve [zl]).
Ltac c_st := erewrite bind_ret by (apply st_in; solve [zl]).

(** ** Frames

    [frame off n m m']: [m'] differs from [m] at most in [off, off + n). *)

Definition frame (off n : Z) (m m' : mem) : Prop :=
  zlen m' = zlen m /\
  forall off' n', 0 <= off' -> 0 <= n' -> off' + n' <= off \/ off + n <= off' ->
  slice m' off' n' = slice m off' n'.

Lemma frame_refl off n m : frame off n m m.
Proof. split; done. Qed.

Lemma frame_trans off n m1 m2 m3 : frame off n m1 m2 -> frame off n m2 m3 -> frame off n m1 m3.
Proof.
  intros [Hl1 H1] [Hl2 H2]. split; [congruence|].
  intros. rewrite H2, H1; done.
Qed.

Lemma frame_mono off n off' n' m m' :
  off <= off' -> off' + n' <= off + n -> frame off' n' m m' -> frame off n m m'.
Proof. intros ? ? [Hl Hf]. split; [done|]. intros. apply Hf; lia. Qed.

Lemma frame_splice m off bs : in_mem m off (zlen bs) -> frame off (zlen bs) m (splice m off bs).
Proof.
  intros (? & ? & ?). split; [apply zlen_splice; lia|].
  intros. apply slice_splice_disjoint; done || lia.
Qed.

Lemma frame_wr w m off v : in_mem m off (Z.of_nat w) -> frame off (Z.of_nat w) m (wr w m off v).
Proof.
  intros. unfold wr. rewrite <- (zlen_le_split w v) at 1. apply frame_splice.
  by rewrite zlen_le_split.
Qed.

(** One more store inside the frame. *)
Lemma frame_wr_in off n m m1 w o v :
  frame off n m m1 -> in_mem m1 o (Z.of_nat w) -> off <= o -> o + Z.of_nat w <= off + n ->
  frame off n m (wr w m1 o v).
Proof.
  intros Hf Hin ? ?. eapply frame_trans; [exact Hf|].
  eapply frame_mono; cycle 2; [by apply frame_wr|lia|lia].
Qed.

Lemma frame_rd off n m m' w off' :
  frame off n m m' -> 0 <= off' -> off' + Z.of_nat w <= off \/ off + n <= off' ->
  rd w m' off' = rd w m off'.
Proof. intros [_ Hf] ? ?. unfold rd. rewrite Hf; done || lia. Qed.

Lemma frame_len off n m m' : frame off n m m' -> zlen m' = zlen m.
Proof. by intros [? _]. Qed.

#[export] Hint Resolve frame_refl frame_wr frame_splice : nabd.

(** ** Computations do not resize the memory *)

Definition keeps_len {A} (c : C A) : Prop := forall m x m', c m = Some (x, m') -> zlen m' = zlen m.

Lemma keeps_len_ret {A} (x : A) : keeps_len (mret x).
Proof. by intros m ? ? [= _ <-]. Qed.

Lemma keeps_len_bind {A B} (c : C A) (k : A -> C B) :
  keeps_len c -> (forall x, keeps_len (k x)) -> keeps_len (c ≫= k).
Proof.
  intros Hc Hk m y m2 (x & m1 & E1 & E2)%bind_inv. apply Hk in E2. apply Hc in E1. congruence.
Qed.

Lemma keeps_len_undef {A} : keeps_len (undef : C A).
Proof. by intros ? ? ?. Qed.

Lemma keeps_len_load off n : keeps_len (load off n).
Proof. intros m x m'. unfold load. case_match; [|done]. by intros [= _ <-]. Qed.

Lemma keeps_len_store off bs : keeps_len (store off bs).
Proof.
  intros m x m'. unfold store. case_match eqn:E; [|done]. zbool. intros [= _ <-].
  by apply zlen_splice.
Qed.

#[export] Hint Resolve keeps_len_ret keeps_len_undef keeps_len_load keeps_len_store : nabd.

(** Decompose a computation into its accesses. *)
Ltac keeps_len :=
  repeat first [ solve [auto with nabd]
               | apply keeps_len_bind; intros
               | case_match ].

Lemma keeps_len_ld w off : keeps_len (ld w off).
Proof. unfold ld. keeps_len. Qed.

Lemma keeps_len_st w off v : keeps_len (st w off v).
Proof. unfold st. keeps_len. Qed.

Lemma keeps_len_memcpy_in off src n : keeps_len (memcpy_in off src n).
Proof. unfold memcpy_in. keeps_len. Qed.

Lemma keeps_len_memcpy_out dst off n : keeps_len (memcpy_out dst off n).
Proof. unfold memcpy_out. keeps_len. Qed.

#[export] Hint Resolve keeps_len_ld keeps_len_st keeps_len_memcpy_in keeps_len_memcpy_out : nabd.
