(* ===== verification/Layout.v ===== *)
(** * Data types and memory layout (include/nabd/types.h)

    The constants, the error enumeration with [nabd_strerror], and the C
    structures as field lists laid out by the rule of the LP64 ABI (each field
    at the next multiple of its alignment, the structure padded to its largest
    alignment).  The offsets the other files use are proved to be the ones the
    rule gives, so the static assertions of types.h are theorems here. *)

From S2P Require Import Prelude Words Memory.
From stdpp Require Export strings.
Local Open Scope string_scope.
Local Open Scope Z_scope.

(** ** Constants *)

Definition NABD_CACHE_LINE_SIZE : Z := 64.
Definition NABD_MAGIC : Z := 0x4442414E00010000.
Definition NABD_VERSION_MAJOR : Z := 0.
Definition NABD_VERSION_MINOR : Z := 1.
Definition NABD_DEFAULT_SLOT_SIZE : Z := 4096.
Definition NABD_DEFAULT_CAPACITY : Z := 1024.
Definition NABD_CREATE : Z := 0x01.
Definition NABD_PRODUCER : Z := 0x02.
Definition NABD_CONSUMER : Z := 0x04.
Definition NABD_MAX_CONSUMERS : Z := 16.

(** [(NABD_VERSION_MAJOR << 16) | NABD_VERSION_MINOR] *)
Definition nabd_version_word : Z :=
  Z.lor (Z.shiftl NABD_VERSION_MAJOR 16) NABD_VERSION_MINOR.

(** ** Error codes *)

Inductive nabd_error_t : Set :=
  | NABD_OK | NABD_EMPTY | NABD_FULL | NABD_NOMEM | NABD_INVALID | NABD_EXISTS
  | NABD_NOTFOUND | NABD_TOOBIG | NABD_CORRUPTED | NABD_VERSION
  | NABD_PERMISSION | NABD_SYSERR.

(** The value of the enumerator, as the [int] the functions return. *)
Definition err (e : nabd_error_t) : Z :=
  match e with
  | NABD_OK => 0 | NABD_EMPTY => -1 | NABD_FULL => -2 | NABD_NOMEM => -3
  | NABD_INVALID => -4 | NABD_EXISTS => -5 | NABD_NOTFOUND => -6 | NABD_TOOBIG => -7
  | NABD_CORRUPTED => -8 | NABD_VERSION => -9 | NABD_PERMISSION => -10
  | NABD_SYSERR => -11
  end.
Coercion err : nabd_error_t >-> Z.

#[export] Instance nabd_error_eq_dec : EqDecision nabd_error_t.
Proof. solve_decision. Defined.

(** [switch (err)]: the first [case] whose value is the argument. *)
Definition nabd_strerror (e : Z) : string :=
  if e =? NABD_OK then "Success"
  else if e =? NABD_EMPTY then "Buffer empty"
  else if e =? NABD_FULL then "Buffer full"
  else if e =? NABD_NOMEM then "Out of memory"
  else if e =? NABD_INVALID then "Invalid argument"
  else if e =? NABD_EXISTS then "Already exists"
  else if e =? NABD_NOTFOUND then "Not found"
  else if e =? NABD_TOOBIG then "Message too large"
  else if e =? NABD_CORRUPTED then "Data corrupted"
  else if e =? NABD_VERSION then "Version mismatch"
  else if e =? NABD_PERMISSION then "Permission denied"
  else if e =? NABD_SYSERR then "System error"
  else "Unknown error".

(** ** Structures *)

(** A field: name, size and alignment in bytes. *)
Record field := Field { f_name : string; f_size : Z; f_align : Z }.

Definition round_up (n a : Z) : Z := (n + a - 1) / a * a.

(** The offsets of the fields of a structure, from the running offset [off]. *)
Fixpoint layout (off : Z) (fs : list field) : list (string * Z) :=
  match fs with
  | [] => []
  | f :: fs =>
      let o := round_up off (f_align f) in (f_name f, o) :: layout (o + f_size f) fs
  end.

Fixpoint layout_end (off : Z) (fs : list field) : Z :=
  match fs with
  | [] => off
  | f :: fs => layout_end (round_up off (f_align f) + f_size f) fs
  end.

Definition struct_align (fs : list field) : Z := fold_right Z.max 1 (map f_align fs).
Definition sizeof (fs : list field) : Z := round_up (layout_end 0 fs) (struct_align fs).

Definition offsetof (fs : list field) (name : string) : option Z :=
  snd <$> find (fun p => String.eqb (fst p) name) (layout 0 fs).

Definition uint16 n := Field n 2 2.
Definition uint32 n := Field n 4 4.
Definition uint64 n := Field n 8 8.
Definition uint64s n k := Field n (8 * k) 8.
(** [alignas(NABD_CACHE_LINE_SIZE)] *)
Definition aligned (f : field) := Field (f_name f) (f_size f) NABD_CACHE_LINE_SIZE.

Definition nabd_slot_header_t : list field :=
  [uint16 "length"; uint16 "flags"; uint32 "sequence"].

Definition nabd_control_t : list field :=
  [uint64 "magic"; uint64 "version"; uint64 "capacity"; uint64 "slot_size";
   uint64 "buffer_offset"; uint64 "reserved_0"; uint64 "reserved_1"; uint64 "reserved_2";
   aligned (uint64 "head"); uint64s "head_pad" 7;
   aligned (uint64 "tail"); uint64s "tail_pad" 7;
   aligned (uint64s "reserved_ext" 8)].

Definition nabd_consumer_group_t : list field :=
  [aligned (uint64 "tail"); uint32 "active"; uint32 "group_id"; uint64s "pad" 6].

Definition nabd_multi_consumer_t : list field :=
  [uint64 "magic"; uint64 "num_groups"; uint64s "pad" 6;
   Field "groups" (NABD_MAX_CONSUMERS * sizeof nabd_consumer_group_t)
         (struct_align nabd_consumer_group_t)].

(** ** The offsets the model uses *)

Definition SIZEOF_CONTROL : Z := 256.
Definition OFF_MAGIC : Z := 0.
Definition OFF_VERSION : Z := 8.
Definition OFF_CAPACITY : Z := 16.
Definition OFF_SLOT_SIZE : Z := 24.
Definition OFF_BUFFER_OFFSET : Z := 32.
Definition OFF_HEAD : Z := 64.
Definition OFF_TAIL : Z := 128.

Definition SIZEOF_HEADER : Z := 8.
Definition HDR_LENGTH : Z := 0.
Definition HDR_FLAGS : Z := 2.
Definition HDR_SEQUENCE : Z := 4.

Definition SIZEOF_GROUP : Z := 64.
Definition GRP_TAIL : Z := 0.
Definition GRP_ACTIVE : Z := 8.
Definition GRP_ID : Z := 12.
Definition MULTI_GROUPS : Z := 64.
Definition SIZEOF_MULTI : Z := 1088.

(** ** Theorems *)

(** The offsets above are the ones of the structures. *)
Lemma control_offsets :
  map (offsetof nabd_control_t)
    ["magic"; "version"; "capacity"; "slot_size"; "buffer_offset"; "head"; "tail"]
  = map Some [OFF_MAGIC; OFF_VERSION; OFF_CAPACITY; OFF_SLOT_SIZE; OFF_BUFFER_OFFSET;
              OFF_HEAD; OFF_TAIL].
Proof. reflexivity. Qed.

Lemma header_offsets :
  map (offsetof nabd_slot_header_t) ["length"; "flags"; "sequence"]
  = map Some [HDR_LENGTH; HDR_FLAGS; HDR_SEQUENCE].
Proof. reflexivity. Qed.

Lemma group_offsets :
  map (offsetof nabd_consumer_group_t) ["tail"; "active"; "group_id"]
  = map Some [GRP_TAIL; GRP_ACTIVE; GRP_ID].
Proof. reflexivity. Qed.

(** ** The static assertions of types.h *)

(** The sizes the [_Static_assert]s and the comments fix: 256 bytes of control
    block, 8 of slot header, one cache line per consumer group. *)
Lemma static_sizes :
  sizeof nabd_control_t = SIZEOF_CONTROL /\ sizeof nabd_slot_header_t = SIZEOF_HEADER /\
  sizeof nabd_consumer_group_t = NABD_CACHE_LINE_SIZE /\
  sizeof nabd_consumer_group_t = SIZEOF_GROUP /\
  sizeof nabd_multi_consumer_t = SIZEOF_MULTI /\
  offsetof nabd_multi_consumer_t "groups" = Some MULTI_GROUPS.
Proof. repeat split; reflexivity. Qed.

(** The error values are pairwise different. *)
#[export] Instance err_inj : Inj (=) (=) err.
Proof. intros [] []; simpl; done. Qed.
