(* ===== verification/BasicsCorrect.v ===== *)
(** * Helpers and layout: correctness

    The theorems about Pow2.v and Layout.v. *)

From S2P Require Import Prelude Words Pow2 Memory Layout.
Local Open Scope string_scope.
Local Open Scope Z_scope.

(** C39: [nabd_next_power_of_2] on a 64-bit [size_t].  From 1 to 2^63 the result is the
    least power of two that is not smaller; for 0 and above 2^63, where there is no
    such 64-bit number, the result wraps to 0. *)
Theorem next_power_of_2_correct n :
  0 <= n < 2 ^ 64 ->
  (1 <= n <= 2 ^ 63 ->
     nabd_is_power_of_2 (nabd_next_power_of_2 n) = true /\ n <= nabd_next_power_of_2 n /\
     forall j, 0 <= j -> n <= 2 ^ j -> nabd_next_power_of_2 n <= 2 ^ j) /\
  (n = 0 \/ 2 ^ 63 < n -> nabd_next_power_of_2 n = 0).
Proof.
  intros Hn. split.
  - intros Hr. rewrite next_power_of_2_log2_up by done.
    assert (0 <= Z.log2_up n < 64).
    { split; [apply Z.log2_up_nonneg|]. assert (Z.log2_up n <= 63); [|lia].
      apply Z.log2_up_le_pow2; lia. }
    split_and!.
    + by apply is_power_of_2_pow.
    + destruct (decide (n = 1)) as [->|]; [vm_compute; congruence|]. apply Z.log2_up_spec. lia.
    + intros j Hj Hle. apply Z.pow_le_mono_r; [lia|]. apply Z.log2_up_le_pow2; lia.
  - intros [->|Hb]; [reflexivity|]. apply next_power_of_2_wraps. lia.
Qed.

(** [nabd_is_power_of_2] is exact on all 64-bit values. *)
Theorem is_power_of_2_exact n :
  0 <= n < 2 ^ 64 -> nabd_is_power_of_2 n = true <-> exists k, 0 <= k < 64 /\ n = 2 ^ k.
Proof.
  intros Hn. split.
  - intros Hp. apply is_power_of_2_inv in Hp as [He Hk]; [|done]. by exists (Z.log2 n).
  - intros (k & Hk & ->). by apply is_power_of_2_pow.
Qed.

(** [nabd_strerror] gives every error code of the enumeration its own text, and any
    other integer the text "Unknown error". *)
Theorem strerror_total_and_distinct :
  (forall e1 e2 : nabd_error_t, nabd_strerror e1 = nabd_strerror e2 -> e1 = e2) /\
  (forall e : nabd_error_t, nabd_strerror e <> "Unknown error") /\
  (forall z : Z, (forall e : nabd_error_t, z <> err e) -> nabd_strerror z = "Unknown error").
Proof.
  split_and!.
  - intros [] []; vm_compute; congruence.
  - intros []; vm_compute; congruence.
  - intros z Hz. unfold nabd_strerror.
    rewrite !(proj2 (Z.eqb_neq _ _)) by apply Hz. done.
Qed.

(** The memory layout.  By the C layout rule the control block, the slot header and
    the consumer group have the sizes the static assertions of types.h fix, [head]
    and [tail] are on cache lines of their own, the header packs into eight bytes, and
    all offsets the model uses are the ones the structures have. *)
Theorem layout_matches_static_asserts :
  sizeof nabd_control_t = SIZEOF_CONTROL /\ sizeof nabd_slot_header_t = SIZEOF_HEADER /\
  sizeof nabd_consumer_group_t = NABD_CACHE_LINE_SIZE /\
  sizeof nabd_multi_consumer_t = SIZEOF_MULTI /\
  offsetof nabd_multi_consumer_t "groups" = Some MULTI_GROUPS /\
  (OFF_HEAD mod NABD_CACHE_LINE_SIZE = 0 /\ OFF_TAIL mod NABD_CACHE_LINE_SIZE = 0 /\
   OFF_HEAD + NABD_CACHE_LINE_SIZE <= OFF_TAIL) /\
  map (offsetof nabd_control_t)
    ["magic"; "version"; "capacity"; "slot_size"; "buffer_offset"; "head"; "tail"]
  = map Some [OFF_MAGIC; OFF_VERSION; OFF_CAPACITY; OFF_SLOT_SIZE; OFF_BUFFER_OFFSET;
              OFF_HEAD; OFF_TAIL] /\
  map (offsetof nabd_slot_header_t) ["length"; "flags"; "sequence"]
  = map Some [HDR_LENGTH; HDR_FLAGS; HDR_SEQUENCE] /\
  map (offsetof nabd_consumer_group_t) ["tail"; "active"; "group_id"]
  = map Some [GRP_TAIL; GRP_ACTIVE; GRP_ID].
Proof.
  repeat split; try apply control_offsets; try apply header_offsets; try apply group_offsets;
    try apply static_sizes; vm_compute; congruence.
Qed.

(** ** Witnesses *)

Lemma next_power_of_2_correct_witness :
  nabd_next_power_of_2 1000 = 1024 /\ forall j, 0 <= j -> 1000 <= 2 ^ j -> 1024 <= 2 ^ j.
Proof.
  split; [vm_compute; reflexivity|].
  exact (proj2 (proj2 (proj1 (next_power_of_2_correct 1000 ltac:(lia)) ltac:(lia)))).
Defined.

Lemma is_power_of_2_exact_witness : exists k, 0 <= k < 64 /\ 4096 = 2 ^ k.
Proof. apply (is_power_of_2_exact 4096); [lia|vm_compute; reflexivity]. Defined.
