(* ===== verification/Macros.v ===== *)
(** * Macros and inline helpers of include/nabd/internal.h

    The macros that have a value and the spin loop.  The prefetches, the fences, the
    pause instruction and the attributes have none; the atomic accesses are in Spsc.v. *)

From S2P Require Import Prelude Words Layout.
Local Open Scope Z_scope.

(** [__builtin_expect(!!(x), _)] has the value of its first argument. *)
Definition NABD_LIKELY (x : Z) : Z := if x =? 0 then 0 else 1.
Definition NABD_UNLIKELY (x : Z) : Z := if x =? 0 then 0 else 1.

(** The size of the array [_pad]. *)
Definition NABD_PAD_TO_CACHE_LINE (size : Z) : Z := NABD_CACHE_LINE_SIZE - size mod NABD_CACHE_LINE_SIZE.

(** [for (int i = 0; i < iterations; i++) NABD_CPU_PAUSE();], the pauses counted; [None]
    when the fuel is not enough, or when [i++] overflows. *)
Fixpoint spin_loop (fuel : nat) (i iterations : Z) (pauses : nat) : option nat :=
  match fuel with
  | O => None
  | S fuel =>
      if i <? iterations then
        if int_ok (i + 1) then spin_loop fuel (i + 1) iterations (S pauses) else None
      else Some pauses
  end.

Definition nabd_spin_wait (fuel : nat) (iterations : Z) : option nat := spin_loop fuel 0 iterations 0.

(** A hint does not change a test, whatever non-zero value it has. *)
Lemma hints_keep_tests x : NABD_LIKELY x = NABD_UNLIKELY x /\ (NABD_LIKELY x = 0 <-> x = 0).
Proof. unfold NABD_LIKELY, NABD_UNLIKELY. destruct (Z.eqb_spec x 0); split; done. Qed.

(** The padding completes the last cache line; a structure that fills its lines exactly
    gets a whole line more. *)
Lemma pad_completes_line size :
  0 <= size ->
  (size + NABD_PAD_TO_CACHE_LINE size) mod NABD_CACHE_LINE_SIZE = 0 /\
  1 <= NABD_PAD_TO_CACHE_LINE size <= NABD_CACHE_LINE_SIZE /\
  (size mod NABD_CACHE_LINE_SIZE = 0 -> NABD_PAD_TO_CACHE_LINE size = NABD_CACHE_LINE_SIZE).
Proof.
  intros Hs. unfold NABD_PAD_TO_CACHE_LINE, NABD_CACHE_LINE_SIZE.
  pose proof (Z.mod_pos_bound size 64 ltac:(lia)). pose proof (Z.div_mod size 64 ltac:(lia)).
  split; [|lia]. replace (size + (64 - size mod 64)) with ((size / 64 + 1) * 64) by lia. apply Z_mod_mult.
Qed.

(** One turn of the loop, for any fuel that is left. *)
Lemma spin_loop_turn fuel i iterations pauses :
  i < iterations < 2 ^ 31 -> 0 <= i ->
  spin_loop (S fuel) i iterations pauses = spin_loop fuel (i + 1) iterations (S pauses).
Proof.
  intros Hi H0. cbn [spin_loop]. zb_true (i <? iterations).
  by rewrite (proj2 (int_ok_spec (i + 1))) by lia.
Qed.

Lemma spin_loop_counts n i iterations pauses :
  0 <= i -> iterations < 2 ^ 31 -> Z.of_nat n = Z.max 0 (iterations - i) ->
  spin_loop (S n) i iterations pauses = Some (pauses + n)%nat.
Proof.
  revert i pauses. induction n as [|n IH]; intros i pauses Hi Hb Hn.
  - cbn [spin_loop]. zb_false (i <? iterations). f_equal. lia.
  - rewrite spin_loop_turn by lia. rewrite IH by lia. f_equal. lia.
Qed.

(** The loop ends without overflow for every [int], after that many pauses, none for a
    negative number; one more round than pauses is fuel enough. *)
Theorem spin_wait_pauses iterations :
  - 2 ^ 31 <= iterations < 2 ^ 31 ->
  nabd_spin_wait (S (Z.to_nat iterations)) iterations = Some (Z.to_nat iterations).
Proof. intros Hi. unfold nabd_spin_wait. by rewrite spin_loop_counts by lia. Qed.

Lemma spin_wait_pauses_witness : nabd_spin_wait 4 3 = Some 3%nat.
Proof. exact (spin_wait_pauses 3 ltac:(lia)). Defined.
