(* ===== verification/Fifo.v ===== *)
(** * Abstract specification: a bounded FIFO of messages

    What the queue promises to its users, independent of memory: a list of
    messages, oldest first, with a bound on their number and on their length.
    [PushContract] is the interface the blocking producers of Backpressure.v
    are proved against; Ring.v discharges it for [nabd_push]. *)

From S2P Require Import Prelude Words Memory Layout.
Local Open Scope Z_scope.

Abbreviation msg := (list byte).

Record fifo := Fifo {
  ff_bound : Z;             (* number of slots *)
  ff_maxlen : Z;            (* longest payload *)
  ff_msgs : list msg        (* pending messages, oldest first *)
}.

Definition with_msgs (f : fifo) (ms : list msg) : fifo := Fifo (ff_bound f) (ff_maxlen f) ms.

Definition spec_push (f : fifo) (d : msg) : nabd_error_t * fifo :=
  if ff_maxlen f <? zlen d then (NABD_TOOBIG, f)
  else if ff_bound f <=? zlen (ff_msgs f) then (NABD_FULL, f)
  else (NABD_OK, with_msgs f (ff_msgs f ++ [d])).

(** Popping into a buffer of [cap] bytes: the message is consumed only if it fits;
    the length is reported in both cases. *)
Definition spec_pop (f : fifo) (cap : Z) : nabd_error_t * option msg * fifo :=
  match ff_msgs f with
  | [] => (NABD_EMPTY, None, f)
  | d :: ms => if cap <? zlen d then (NABD_TOOBIG, Some d, f)
               else (NABD_OK, Some d, with_msgs f ms)
  end.

(** Dropping the oldest message. *)
Definition spec_release (f : fifo) : fifo := with_msgs f (tail (ff_msgs f)).

(** A state type [S] whose states represent FIFOs, and a non-blocking push on it. *)
Class PushContract {S : Type} (repr : fifo -> S -> Prop) (push : msg -> S -> option (Z * S)) :=
  push_contract f s d :
    repr f s -> zlen d < 2 ^ 16 ->
    exists s', push d s = Some (err (fst (spec_push f d)), s') /\ repr (snd (spec_push f d)) s'.

(** ** Facts about the specification *)

Lemma spec_push_ok f d :
  zlen d <= ff_maxlen f -> zlen (ff_msgs f) < ff_bound f ->
  spec_push f d = (NABD_OK, with_msgs f (ff_msgs f ++ [d])).
Proof.
  intros. unfold spec_push. zb_false (ff_maxlen f <? zlen d).
  by zb_false (ff_bound f <=? zlen (ff_msgs f)).
Qed.

Lemma spec_push_full f d :
  zlen d <= ff_maxlen f -> ff_bound f <= zlen (ff_msgs f) -> spec_push f d = (NABD_FULL, f).
Proof.
  intros. unfold spec_push. zb_false (ff_maxlen f <? zlen d).
  by zb_true (ff_bound f <=? zlen (ff_msgs f)).
Qed.

Lemma spec_push_toobig f d : ff_maxlen f < zlen d -> spec_push f d = (NABD_TOOBIG, f).
Proof. intros. unfold spec_push. by zb_true (ff_maxlen f <? zlen d). Qed.

Lemma spec_push_bound f d :
  zlen (ff_msgs f) <= ff_bound f ->
  zlen (ff_msgs (snd (spec_push f d))) <= ff_bound (snd (spec_push f d)).
Proof.
  intros. unfold spec_push. repeat case_zb; simpl; try done.
  rewrite zlen_app. unfold zlen in *. simpl. lia.
Qed.
