(* ===== verification/Queue.v ===== *)
(** * The queue (src/nabd.c): handle, slots and the single-consumer operations

    Every operation of lines 22-485 of src/nabd.c except the lifecycle
    functions: [nabd_push], [nabd_pop], [nabd_reserve], [nabd_commit],
    [nabd_peek], [nabd_release], [nabd_stats], [nabd_empty], [nabd_full].

    Conventions.  A computation of type [C A] runs over the bytes of the mapping
    [q->ctrl] points to.  A pointer argument that the code compares with [NULL]
    is an [option]; an out-parameter is an [option] of the current value of its
    target and is returned updated; a handle the function writes to is returned
    updated.  Pointers into the mapping are byte offsets from its start, so
    [q_buffer] is an offset.  The memory orders of the atomic accesses and the
    prefetches have no effect on a single thread and are left out here; Spsc.v
    models them. *)

From S2P Require Import Prelude Words Pow2 Memory Layout.
Local Open Scope Z_scope.

(** ** The handle ([struct nabd]) *)

Record nabd := Nabd {
  q_name : Z;               (* pointer to the copy of the name *)
  q_fd : Z;                 (* file descriptor *)
  q_flags : Z;              (* open flags *)
  q_size : Z;               (* total mapped size *)
  q_ctrl : option Z;        (* address of the mapping, or NULL *)
  q_buffer : Z;             (* offset of the ring buffer *)
  q_capacity : Z;
  q_slot_size : Z;
  q_mask : Z;
  q_reserved : Z;           (* zero-copy state *)
  q_reserve_pos : Z;
  q_multi : option Z        (* offset of the multi-consumer block, or NULL *)
}.

Definition set_reserved (q : nabd) (r pos : Z) : nabd :=
  Nabd (q_name q) (q_fd q) (q_flags q) (q_size q) (q_ctrl q) (q_buffer q) (q_capacity q)
       (q_slot_size q) (q_mask q) r pos (q_multi q).

(** [nabd_stats_t] *)
Record nabd_stats_t := NabdStats {
  s_head : Z; s_tail : Z; s_capacity : Z; s_used : Z; s_slot_size : Z
}.

(** ** Slots *)

(** [q->buffer + nabd_mod_pow2(index, q->mask) * q->slot_size] *)
Definition get_slot (q : nabd) (index : Z) : Z :=
  q_buffer q + mul64 (nabd_mod_pow2 index (q_mask q)) (q_slot_size q).

Definition get_slot_header (q : nabd) (index : Z) : Z := get_slot q index.

Definition get_slot_payload (q : nabd) (index : Z) : Z := get_slot q index + SIZEOF_HEADER.

(** [hdr->length = (uint16_t)len; hdr->flags = 0; hdr->sequence = (uint32_t)pos;] *)
Definition fill_header (hdr len pos : Z) : C unit :=
  st 2 (hdr + HDR_LENGTH) (u16 len);;
  st 2 (hdr + HDR_FLAGS) 0;;
  st 4 (hdr + HDR_SEQUENCE) (u32 pos).

(** ** Producer *)

Definition nabd_push (q : option nabd) (data : option (list byte)) (len : Z) : C Z :=
  match q, data with
  | Some q, Some data =>
      let max_payload := sub64 (q_slot_size q) SIZEOF_HEADER in
      if max_payload <? len then mret (NABD_TOOBIG : Z) else
      head ← ld 8 OFF_HEAD;
      tail ← ld 8 OFF_TAIL;
      if q_capacity q <=? sub64 head tail then mret (NABD_FULL : Z) else
      let slot := get_slot q head in
      memcpy_in (slot + SIZEOF_HEADER) data len;;
      fill_header slot len head;;
      st 8 OFF_HEAD (add64 head 1);;
      mret (NABD_OK : Z)
  | _, _ => mret (NABD_INVALID : Z)
  end.

Definition nabd_reserve (q : option nabd) (len : Z) (slot : option Z)
    : C (Z * option nabd * option Z) :=
  match q, slot with
  | Some h, Some _ =>
      if negb (q_reserved h =? 0) then mret (NABD_INVALID : Z, q, slot) else
      let max_payload := sub64 (q_slot_size h) SIZEOF_HEADER in
      if max_payload <? len then mret (NABD_TOOBIG : Z, q, slot) else
      head ← ld 8 OFF_HEAD;
      tail ← ld 8 OFF_TAIL;
      if q_capacity h <=? sub64 head tail then mret (NABD_FULL : Z, q, slot) else
      mret (NABD_OK : Z, Some (set_reserved h 1 head), Some (get_slot_payload h head))
  | _, _ => mret (NABD_INVALID : Z, q, slot)
  end.

Definition nabd_commit (q : option nabd) (len : Z) : C (Z * option nabd) :=
  match q with
  | Some h =>
      if q_reserved h =? 0 then mret (NABD_INVALID : Z, q) else
      let hdr := get_slot_header h (q_reserve_pos h) in
      fill_header hdr len (q_reserve_pos h);;
      st 8 OFF_HEAD (add64 (q_reserve_pos h) 1);;
      mret (NABD_OK : Z, Some (set_reserved h 0 (q_reserve_pos h)))
  | None => mret (NABD_INVALID : Z, q)
  end.

(** ** Consumer *)

Definition nabd_pop (q : option nabd) (buf : option (list byte)) (len : option Z)
    : C (Z * option (list byte) * option Z) :=
  match q, buf, len with
  | Some h, Some dst, Some cap =>
      tail ← ld 8 OFF_TAIL;
      head ← ld 8 OFF_HEAD;
      if tail =? head then mret (NABD_EMPTY : Z, buf, len) else
      let slot := get_slot h tail in
      msg_len ← ld 2 (slot + HDR_LENGTH);
      if cap <? msg_len then mret (NABD_TOOBIG : Z, buf, Some msg_len) else
      dst' ← memcpy_out dst (slot + SIZEOF_HEADER) msg_len;
      st 8 OFF_TAIL (add64 tail 1);;
      mret (NABD_OK : Z, Some dst', Some msg_len)
  | _, _, _ => mret (NABD_INVALID : Z, buf, len)
  end.

Definition nabd_peek (q : option nabd) (data len : option Z)
    : C (Z * option Z * option Z) :=
  match q, data, len with
  | Some h, Some _, Some _ =>
      tail ← ld 8 OFF_TAIL;
      head ← ld 8 OFF_HEAD;
      if tail =? head then mret (NABD_EMPTY : Z, data, len) else
      let hdr := get_slot_header h tail in
      length ← ld 2 (hdr + HDR_LENGTH);
      mret (NABD_OK : Z, Some (get_slot_payload h tail), Some length)
  | _, _, _ => mret (NABD_INVALID : Z, data, len)
  end.

Definition nabd_release (q : option nabd) : C Z :=
  match q with
  | Some _ =>
      tail ← ld 8 OFF_TAIL;
      st 8 OFF_TAIL (add64 tail 1);;
      mret (NABD_OK : Z)
  | None => mret (NABD_INVALID : Z)
  end.

(** ** Observers *)

Definition nabd_stats (q : option nabd) (stats : option nabd_stats_t)
    : C (Z * option nabd_stats_t) :=
  match q, stats with
  | Some h, Some _ =>
      head ← ld 8 OFF_HEAD;
      tail ← ld 8 OFF_TAIL;
      mret (NABD_OK : Z,
            Some (NabdStats head tail (q_capacity h) (sub64 head tail) (q_slot_size h)))
  | _, _ => mret (NABD_INVALID : Z, stats)
  end.

Definition nabd_empty (q : option nabd) : C Z :=
  match q with
  | Some _ =>
      tail ← ld 8 OFF_TAIL;
      head ← ld 8 OFF_HEAD;
      mret (if tail =? head then 1 else 0)
  | None => mret (NABD_INVALID : Z)
  end.

Definition nabd_full (q : option nabd) : C Z :=
  match q with
  | Some h =>
      head ← ld 8 OFF_HEAD;
      tail ← ld 8 OFF_TAIL;
      mret (if q_capacity h <=? sub64 head tail then 1 else 0)
  | None => mret (NABD_INVALID : Z)
  end.

Arguments get_slot : simpl never.
Arguments fill_header : simpl never.
Arguments nabd_push : simpl never.
Arguments nabd_reserve : simpl never.
Arguments nabd_commit : simpl never.
Arguments nabd_pop : simpl never.
Arguments nabd_peek : simpl never.
Arguments nabd_release : simpl never.
Arguments nabd_stats : simpl never.
Arguments nabd_empty : simpl never.
Arguments nabd_full : simpl never.

(** ** No operation resizes the segment *)

Lemma keeps_len_fill_header hdr len pos : keeps_len (fill_header hdr len pos).
Proof. unfold fill_header. keeps_len. Qed.
#[export] Hint Resolve keeps_len_fill_header : nabd.

Lemma keeps_len_push q d len : keeps_len (nabd_push q d len).
Proof. unfold nabd_push. keeps_len. Qed.

Lemma keeps_len_pop q buf len : keeps_len (nabd_pop q buf len).
Proof. unfold nabd_pop. keeps_len. Qed.

Lemma keeps_len_stats q stats : keeps_len (nabd_stats q stats).
Proof. unfold nabd_stats. keeps_len. Qed.
#[export] Hint Resolve keeps_len_push keeps_len_pop keeps_len_stats : nabd.
