(* ===== verification/Ring.v ===== *)
(** * Ring.v: the queue operations implement the bounded FIFO

    The representation invariant of the shared memory ([ring]) in terms of two
    unbounded counters [H] and [T] of which the 64-bit words [head] and [tail]
    are the residues, and the correctness of each operation of Queue.v with
    respect to Fifo.v, on every branch.  Because the capacity is a power of two
    it divides 2^64, so the results hold across the wrap of the indices. *)

From S2P Require Import Prelude Words Pow2 Memory Layout Fifo Queue.
Local Open Scope Z_scope.

(** ** Well-formed handles *)

Record wf_handle (q : nabd) (k : Z) : Prop := {
  wf_k : 0 <= k < 64;
  wf_cap : q_capacity q = 2 ^ k;
  wf_mask : q_mask q = 2 ^ k - 1;
  wf_slot : SIZEOF_HEADER <= q_slot_size q;
  wf_buf : q_buffer q = SIZEOF_CONTROL;
  wf_size : SIZEOF_CONTROL + 2 ^ k * q_slot_size q < 2 ^ 64
}.

(** The offset of the slot of position [i]. *)
Definition slot_off (q : nabd) (k i : Z) : Z := SIZEOF_CONTROL + (i mod 2 ^ k) * q_slot_size q.

(** Slot [i] holds message [d], with its header. *)
Record holds (q : nabd) (k : Z) (m : mem) (i : Z) (d : msg) : Prop := {
  h_len : rd 2 m (slot_off q k i + HDR_LENGTH) = zlen d;
  h_flags : rd 2 m (slot_off q k i + HDR_FLAGS) = 0;
  h_seq : rd 4 m (slot_off q k i + HDR_SEQUENCE) = u32 i;
  h_data : slice m (slot_off q k i + SIZEOF_HEADER) (zlen d) = d;
  h_fits : zlen d <= q_slot_size q - SIZEOF_HEADER;
  h_16 : zlen d < 2 ^ 16
}.

(** The identification fields of the control block. *)
Record control_ok (q : nabd) (m : mem) : Prop := {
  c_magic : rd 8 m OFF_MAGIC = NABD_MAGIC;
  c_version : rd 8 m OFF_VERSION = nabd_version_word;
  c_capacity : rd 8 m OFF_CAPACITY = q_capacity q;
  c_slot_size : rd 8 m OFF_SLOT_SIZE = q_slot_size q
}.

(** The memory is a ring holding the messages [ms] at positions [T..H-1]. *)
Record ring (q : nabd) (k H T : Z) (ms : list msg) (m : mem) : Prop := {
  r_wf : wf_handle q k;
  r_len : SIZEOF_CONTROL + 2 ^ k * q_slot_size q <= zlen m;
  r_control : control_ok q m;
  r_head : rd 8 m OFF_HEAD = u64 H;
  r_tail : rd 8 m OFF_TAIL = u64 T;
  r_count : zlen ms = H - T;
  r_bound : H - T <= 2 ^ k;
  r_msgs : forall i d, ms !! i = Some d -> holds q k m (T + Z.of_nat i) d
}.

(** The memory represents the abstract FIFO [f] to the holder of [q]. *)
Definition is_fifo (q : nabd) (f : fifo) (m : mem) : Prop :=
  exists k H T, ring q k H T (ff_msgs f) m /\
  ff_bound f = q_capacity q /\ ff_maxlen f = q_slot_size q - SIZEOF_HEADER.

(** The two handles have the same geometry. *)
Definition same_ring (p c : nabd) : Prop :=
  q_capacity p = q_capacity c /\ q_mask p = q_mask c /\
  q_slot_size p = q_slot_size c /\ q_buffer p = q_buffer c.

(** ** Slots *)

Section Handle.
Context (q : nabd) (k : Z) (WF : wf_handle q k).

Lemma pow_k : 0 < 2 ^ k /\ 2 ^ k < 2 ^ 64.
Proof. destruct (wf_k _ _ WF). split; [apply Z.pow_pos_nonneg|apply Z.pow_lt_mono_r]; lia. Qed.

Lemma slot_range i :
  SIZEOF_CONTROL <= slot_off q k i /\
  slot_off q k i + q_slot_size q <= SIZEOF_CONTROL + 2 ^ k * q_slot_size q.
Proof.
  unfold slot_off. pose proof pow_k as [? ?]. pose proof (wf_slot _ _ WF).
  pose proof (Z.mod_pos_bound i (2 ^ k)) as ?. unfold SIZEOF_HEADER in *. nia.
Qed.

Lemma get_slot_off i : get_slot q (u64 i) = slot_off q k i.
Proof.
  unfold get_slot, slot_off. pose proof pow_k. destruct (wf_k _ _ WF).
  rewrite (wf_buf _ _ WF), (wf_mask _ _ WF), mod_pow2_spec by lia.
  unfold mul64. rewrite u64_small; [done|].
  pose proof (slot_range i) as Hr. pose proof (wf_size _ _ WF). pose proof (wf_slot _ _ WF).
  unfold slot_off, SIZEOF_CONTROL, SIZEOF_HEADER in *. lia.
Qed.

(** Slots of different positions do not overlap. *)
Lemma slot_disjoint i j :
  i mod 2 ^ k <> j mod 2 ^ k ->
  slot_off q k i + q_slot_size q <= slot_off q k j \/
  slot_off q k j + q_slot_size q <= slot_off q k i.
Proof.
  intros Hne. unfold slot_off. pose proof (wf_slot _ _ WF). unfold SIZEOF_HEADER in *.
  destruct (Z.lt_trichotomy (i mod 2 ^ k) (j mod 2 ^ k)) as [|[|]]; [left|done|right]; nia.
Qed.

Lemma max_payload_eq : sub64 (q_slot_size q) SIZEOF_HEADER = q_slot_size q - SIZEOF_HEADER.
Proof.
  pose proof (wf_slot _ _ WF). pose proof (wf_size _ _ WF). pose proof pow_k.
  unfold sub64, SIZEOF_HEADER, SIZEOF_CONTROL in *. apply u64_small. nia.
Qed.

(** A change outside the first 64 bytes keeps the identification. *)
Lemma control_frame m m' off n :
  frame off n m m' -> OFF_HEAD <= off -> control_ok q m -> control_ok q m'.
Proof.
  unfold OFF_HEAD. intros Hf Ho [? ? ? ?].
  split; unfold OFF_MAGIC, OFF_VERSION, OFF_CAPACITY, OFF_SLOT_SIZE in *;
    by rewrite (frame_rd _ _ _ _ _ _ Hf) by lia.
Qed.

(** A change outside the slot keeps the message. *)
Lemma holds_frame m m' off n i d :
  frame off n m m' -> holds q k m i d ->
  slot_off q k i + q_slot_size q <= off \/ off + n <= slot_off q k i ->
  holds q k m' i d.
Proof.
  intros Hf [H1 H2 H3 H4 H5 H6] Hd. pose proof (slot_range i). pose proof (zlen_nonneg d).
  unfold SIZEOF_CONTROL, SIZEOF_HEADER, HDR_LENGTH, HDR_FLAGS, HDR_SEQUENCE in *.
  pose proof (wf_slot _ _ WF) as Hs. unfold SIZEOF_HEADER in Hs.
  split; unfold SIZEOF_HEADER, HDR_LENGTH, HDR_FLAGS, HDR_SEQUENCE;
    try rewrite (frame_rd _ _ _ _ _ _ Hf) by lia; try done.
  destruct Hf as [_ Hf]. rewrite Hf; done || lia.
Qed.

End Handle.

(** ** Reading the ring *)

Section Reading.
Context (q : nabd) (k H T : Z) (ms : list msg) (m : mem) (R : ring q k H T ms m).

Lemma ring_in_control off n :
  0 <= off -> 0 <= n -> off + n <= SIZEOF_CONTROL -> in_mem m off n.
Proof.
  intros. pose proof (r_len _ _ _ _ _ _ R) as Hl. pose proof (r_wf _ _ _ _ _ _ R) as W.
  pose proof (pow_k _ _ W). pose proof (wf_slot _ _ W).
  unfold in_mem, SIZEOF_CONTROL, SIZEOF_HEADER in *. nia.
Qed.

Lemma ring_in_slot i off n :
  slot_off q k i <= off -> 0 <= n -> off + n <= slot_off q k i + q_slot_size q ->
  in_mem m off n.
Proof.
  intros. pose proof (r_len _ _ _ _ _ _ R) as Hl. pose proof (r_wf _ _ _ _ _ _ R) as W.
  pose proof (slot_range _ _ W i). unfold in_mem, SIZEOF_CONTROL in *. lia.
Qed.

Lemma ring_ld_head : ld 8 OFF_HEAD m = Some (u64 H, m).
Proof.
  rewrite ld_in; [by rewrite (r_head _ _ _ _ _ _ R)|].
  apply ring_in_control; unfold OFF_HEAD, SIZEOF_CONTROL; lia.
Qed.

Lemma ring_ld_tail : ld 8 OFF_TAIL m = Some (u64 T, m).
Proof.
  rewrite ld_in; [by rewrite (r_tail _ _ _ _ _ _ R)|].
  apply ring_in_control; unfold OFF_TAIL, SIZEOF_CONTROL; lia.
Qed.

Lemma ring_used : sub64 (u64 H) (u64 T) = zlen ms.
Proof.
  pose proof (r_count _ _ _ _ _ _ R). pose proof (r_bound _ _ _ _ _ _ R).
  pose proof (pow_k _ _ (r_wf _ _ _ _ _ _ R)). pose proof (zlen_nonneg ms).
  rewrite sub64_distance; lia.
Qed.

Lemma ring_is_empty : (u64 T =? u64 H) = bool_decide (ms = []).
Proof.
  pose proof (r_count _ _ _ _ _ _ R). pose proof (r_bound _ _ _ _ _ _ R).
  pose proof (pow_k _ _ (r_wf _ _ _ _ _ _ R)). pose proof (zlen_nonneg ms).
  rewrite u64_eq_close by lia. destruct ms; unfold zlen in *; simpl in *.
  - apply Z.eqb_eq. lia.
  - apply Z.eqb_neq. lia.
Qed.

Lemma ring_first d ms' : ms = d :: ms' -> holds q k m T d.
Proof.
  intros ->. pose proof (r_msgs _ _ _ _ _ _ R 0%nat d eq_refl) as Hh.
  by rewrite Z.add_0_r in Hh.
Qed.

End Reading.

(** ** Changing the ring *)

(** The header writes, as one change of the eight header bytes. *)
Lemma fill_header_spec m hdr len pos :
  in_mem m hdr SIZEOF_HEADER ->
  exists m', fill_header hdr len pos m = Some (tt, m') /\ frame hdr SIZEOF_HEADER m m' /\
    rd 2 m' (hdr + HDR_LENGTH) = u16 len /\ rd 2 m' (hdr + HDR_FLAGS) = 0 /\
    rd 4 m' (hdr + HDR_SEQUENCE) = u32 pos.
Proof.
  unfold SIZEOF_HEADER, HDR_LENGTH, HDR_FLAGS, HDR_SEQUENCE. intros Hin.
  unfold fill_header, HDR_LENGTH, HDR_FLAGS, HDR_SEQUENCE.
  eexists. split; [|split].
  - c_st. c_st. apply st_in. zl.
  - repeat (apply frame_wr_in; [|zl|lia|lia]). apply frame_refl.
  - split; [|split]; repeat rewrite rd_wr by zl; rewrite rd_wr_same by zl;
      [apply Zmod_mod|done|apply Zmod_mod].
Qed.

(** A message written into the slot of position [H], then published. *)
Lemma ring_publish q k H T ms m m1 d :
  ring q k H T ms m -> zlen ms < 2 ^ k ->
  frame (slot_off q k H) (q_slot_size q) m m1 -> holds q k m1 H d ->
  ring q k (H + 1) T (ms ++ [d]) (wr 8 m1 OFF_HEAD (add64 (u64 H) 1)).
Proof.
  intros R Hroom Hf Hh. pose proof (r_wf _ _ _ _ _ _ R) as W.
  pose proof (r_count _ _ _ _ _ _ R) as Hc. pose proof (slot_range q k W H) as HsH.
  pose proof (pow_k _ _ W) as Hp. pose proof (zlen_nonneg ms).
  assert (in_mem m1 OFF_HEAD 8) as Hin.
  { destruct (ring_in_control _ _ _ _ _ _ R OFF_HEAD 8) as (? & ? & ?);
      unfold in_mem, OFF_HEAD, SIZEOF_CONTROL in *; rewrite ?(frame_len _ _ _ _ Hf); lia. }
  assert (frame OFF_HEAD 8 m1 (wr 8 m1 OFF_HEAD (add64 (u64 H) 1))) as Hf'
    by (apply frame_wr; done).
  unfold SIZEOF_CONTROL, OFF_HEAD, OFF_TAIL in *.
  split; try done.
  - rewrite (frame_len _ _ _ _ Hf'), (frame_len _ _ _ _ Hf). apply (r_len _ _ _ _ _ _ R).
  - eapply control_frame; [exact Hf'|unfold OFF_HEAD; lia|].
    eapply control_frame; [exact Hf|unfold OFF_HEAD; lia|]. apply (r_control _ _ _ _ _ _ R).
  - unfold OFF_HEAD. rewrite rd_wr_same by done. rewrite add64_u64_l. apply Zmod_mod.
  - unfold OFF_TAIL. rewrite (frame_rd _ _ _ _ _ _ Hf') by lia.
    rewrite (frame_rd _ _ _ _ _ _ Hf) by lia. apply (r_tail _ _ _ _ _ _ R).
  - rewrite zlen_app. unfold zlen in *. simpl. lia.
  - pose proof (r_bound _ _ _ _ _ _ R). lia.
  - intros i e Hi. eapply holds_frame; [done|exact Hf'| |].
    2: { pose proof (slot_range q k W (T + Z.of_nat i)). unfold SIZEOF_CONTROL in *. lia. }
    apply lookup_app_Some in Hi as [Hi|[Hge Hi]].
    + eapply holds_frame; [done|exact Hf|by apply (r_msgs _ _ _ _ _ _ R)|].
      apply lookup_lt_Some in Hi. unfold zlen in *.
      apply slot_disjoint; [done|]. apply mod_distinct; lia.
    + apply list_lookup_singleton_Some in Hi as [Hi <-].
      replace (T + Z.of_nat i) with H by (unfold zlen in *; lia). done.
Qed.

(** Writing into the free slot of the head position changes no message. *)
Lemma ring_frame_slot q k H T ms m m1 :
  ring q k H T ms m -> zlen ms < 2 ^ k ->
  frame (slot_off q k H) (q_slot_size q) m m1 -> ring q k H T ms m1.
Proof.
  intros R Hroom Hf. pose proof (r_wf _ _ _ _ _ _ R) as W.
  pose proof (r_count _ _ _ _ _ _ R) as Hc. pose proof (slot_range q k W H) as HsH.
  split; try done; try apply R; unfold SIZEOF_CONTROL, OFF_HEAD, OFF_TAIL in *.
  - rewrite (frame_len _ _ _ _ Hf). apply (r_len _ _ _ _ _ _ R).
  - eapply control_frame; [exact Hf|unfold OFF_HEAD; lia|]. apply (r_control _ _ _ _ _ _ R).
  - rewrite (frame_rd _ _ _ _ _ _ Hf) by lia. apply (r_head _ _ _ _ _ _ R).
  - rewrite (frame_rd _ _ _ _ _ _ Hf) by lia. apply (r_tail _ _ _ _ _ _ R).
  - intros i e Hi. eapply holds_frame; [done|exact Hf|by apply (r_msgs _ _ _ _ _ _ R)|].
    apply lookup_lt_Some in Hi. unfold zlen in *.
    apply slot_disjoint; [done|]. apply mod_distinct; lia.
Qed.

(** The oldest message consumed. *)
Lemma ring_consume q k H T d ms m :
  ring q k H T (d :: ms) m -> ring q k H (T + 1) ms (wr 8 m OFF_TAIL (add64 (u64 T) 1)).
Proof.
  intros R. pose proof (r_wf _ _ _ _ _ _ R) as W. pose proof (r_count _ _ _ _ _ _ R) as Hc.
  assert (in_mem m OFF_TAIL 8) as Hin
    by (eapply ring_in_control; eauto; unfold OFF_TAIL, SIZEOF_CONTROL; lia).
  assert (frame OFF_TAIL 8 m (wr 8 m OFF_TAIL (add64 (u64 T) 1))) as Hf by (apply frame_wr; done).
  unfold zlen in Hc; simpl in Hc. split; try done.
  - rewrite (frame_len _ _ _ _ Hf). apply (r_len _ _ _ _ _ _ R).
  - eapply control_frame; [exact Hf|unfold OFF_HEAD, OFF_TAIL; lia|].
    apply (r_control _ _ _ _ _ _ R).
  - unfold OFF_HEAD, OFF_TAIL in *. rewrite (frame_rd _ _ _ _ _ _ Hf) by lia.
    apply (r_head _ _ _ _ _ _ R).
  - rewrite rd_wr_same by done. rewrite add64_u64_l. apply Zmod_mod.
  - unfold zlen. lia.
  - pose proof (r_bound _ _ _ _ _ _ R). lia.
  - intros i e Hi. eapply holds_frame; [done|exact Hf| |].
    + pose proof (r_msgs _ _ _ _ _ _ R (S i) e Hi) as Hh.
      by replace (T + 1 + Z.of_nat i) with (T + Z.of_nat (S i)) by lia.
    + pose proof (slot_range q k W (T + 1 + Z.of_nat i)).
      unfold SIZEOF_CONTROL, OFF_TAIL in *. lia.
Qed.

(** A slot whose header says [len] and whose payload starts with [d] holds the
    first [len mod 2^16] bytes of [d]: the header stores 16 bits. *)
Lemma holds_written q k m0 m i len d :
  wf_handle q k -> 0 <= len <= zlen d -> len <= q_slot_size q - SIZEOF_HEADER ->
  slice m0 (slot_off q k i + SIZEOF_HEADER) len = take (Z.to_nat len) d ->
  in_mem m0 (slot_off q k i) (q_slot_size q) ->
  frame (slot_off q k i) SIZEOF_HEADER m0 m ->
  rd 2 m (slot_off q k i + HDR_LENGTH) = u16 len ->
  rd 2 m (slot_off q k i + HDR_FLAGS) = 0 ->
  rd 4 m (slot_off q k i + HDR_SEQUENCE) = u32 i ->
  holds q k m i (take (Z.to_nat (u16 len)) d).
Proof.
  intros W Hlen Hfit Hdata Hin [_ Hf] H1 H2 H3.
  pose proof (u16_range len) as Hu.
  assert (u16 len <= len) as Hle by (apply Z.mod_le; lia).
  assert (zlen (take (Z.to_nat (u16 len)) d) = u16 len) as Hz.
  { unfold zlen in *. rewrite length_take. lia. }
  split; rewrite ?Hz; try done; try lia.
  destruct Hin as (? & ? & ?). unfold SIZEOF_HEADER in *. rewrite Hf by lia.
  apply (f_equal (take (Z.to_nat (u16 len)))) in Hdata. revert Hdata.
  unfold slice. rewrite !take_take, !Nat.min_l by lia. done.
Qed.

(** ** The operations *)

Section Operations.
Context (q : nabd) (k H T : Z) (ms : list msg) (m : mem) (R : ring q k H T ms m).

Let W := r_wf _ _ _ _ _ _ R.

Lemma push_toobig d len :
  q_slot_size q - SIZEOF_HEADER < len -> nabd_push (Some q) (Some d) len m = Some (NABD_TOOBIG : Z, m).
Proof.
  intros. unfold nabd_push. rewrite (max_payload_eq q k W).
  by zb_true (q_slot_size q - SIZEOF_HEADER <? len).
Qed.

Lemma push_full d len :
  len <= q_slot_size q - SIZEOF_HEADER -> zlen ms = q_capacity q ->
  nabd_push (Some q) (Some d) len m = Some (NABD_FULL : Z, m).
Proof.
  intros. unfold nabd_push. rewrite (max_payload_eq q k W).
  zb_false (q_slot_size q - SIZEOF_HEADER <? len).
  erewrite bind_ret by (by eapply ring_ld_head). erewrite bind_ret by (by eapply ring_ld_tail).
  rewrite (ring_used _ _ _ _ _ _ R). by zb_true (q_capacity q <=? zlen ms).
Qed.

(** A push with room writes the slot of the head position, then [head]. *)
Lemma push_run d len :
  0 <= len <= zlen d -> len <= q_slot_size q - SIZEOF_HEADER -> zlen ms < q_capacity q ->
  exists m1, frame (slot_off q k H) (q_slot_size q) m m1 /\
    holds q k m1 H (take (Z.to_nat (u16 len)) d) /\
    nabd_push (Some q) (Some d) len m
    = Some (NABD_OK : Z, wr 8 m1 OFF_HEAD (add64 (u64 H) 1)).
Proof.
  intros Hlen Hfit Hroom. unfold nabd_push. rewrite (max_payload_eq q k W).
  zb_false (q_slot_size q - SIZEOF_HEADER <? len).
  erewrite bind_ret by (by eapply ring_ld_head). erewrite bind_ret by (by eapply ring_ld_tail).
  rewrite (ring_used _ _ _ _ _ _ R). zb_false (q_capacity q <=? zlen ms).
  cbv zeta. rewrite (get_slot_off q k W). set (so := slot_off q k H).
  pose proof (slot_range q k W H) as HsH. pose proof (wf_slot _ _ W) as Hss.
  assert (in_mem m so (q_slot_size q)) as Hin
    by (apply (ring_in_slot q k H T ms m R H); unfold so, SIZEOF_HEADER in *; lia).
  unfold SIZEOF_HEADER, SIZEOF_CONTROL in *. fold so in HsH.
  assert (zlen (take (Z.to_nat len) d) = len) as Hz
    by (unfold zlen in *; rewrite length_take; lia).
  erewrite bind_ret by (apply memcpy_in_in; [lia|zl]).
  set (m1 := splice m (so + 8) (take (Z.to_nat len) d)).
  assert (frame (so + 8) len m m1) as Hf1
    by (rewrite <- Hz at 1; apply frame_splice; rewrite Hz; zl).
  destruct (fill_header_spec m1 so len (u64 H)) as (m2 & E2 & Hf2 & H1 & H2 & H3).
  { unfold in_mem, SIZEOF_HEADER. rewrite (frame_len _ _ _ _ Hf1). zl. }
  rewrite (bind_ret _ _ _ _ _ E2). rewrite u32_u64 in H3. unfold SIZEOF_HEADER in Hf2.
  assert (frame so (q_slot_size q) m m2) as Hf
    by (eapply frame_trans; (eapply frame_mono; cycle 2; [eassumption|lia|lia])).
  exists m2. split; [done|]. split.
  - apply (holds_written q k m1); try done; fold so; unfold SIZEOF_HEADER; try lia.
    + pose proof (slice_splice_same m (so + 8) (take (Z.to_nat len) d)) as Hs.
      rewrite Hz in Hs. apply Hs; zl.
    + unfold in_mem. rewrite (frame_len _ _ _ _ Hf1). zl.
  - erewrite bind_ret; [reflexivity|]. apply st_in.
    unfold in_mem, OFF_HEAD. rewrite (frame_len _ _ _ _ Hf). zl.
Qed.

Lemma push_ok d len :
  0 <= len <= zlen d -> len <= q_slot_size q - SIZEOF_HEADER -> zlen ms < q_capacity q ->
  exists m', nabd_push (Some q) (Some d) len m = Some (NABD_OK : Z, m') /\
    ring q k (H + 1) T (ms ++ [take (Z.to_nat (u16 len)) d]) m'.
Proof.
  intros Hlen Hfit Hroom. destruct (push_run d len Hlen Hfit Hroom) as (m1 & Hf & Hh & E).
  eexists. split; [exact E|].
  apply (ring_publish q k H T ms m); [exact R|by rewrite <- (wf_cap _ _ W)|done|done].
Qed.

(** Reading the header and the payload of a message in the ring. *)
Lemma holds_ld_length i d :
  holds q k m i d -> ld 2 (slot_off q k i + HDR_LENGTH) m = Some (zlen d, m).
Proof.
  intros Hh. pose proof (wf_slot _ _ W). rewrite ld_in; [by rewrite (h_len _ _ _ _ _ Hh)|].
  apply (ring_in_slot q k H T ms m R i); unfold HDR_LENGTH, SIZEOF_HEADER in *; lia.
Qed.

Lemma holds_memcpy i d dst :
  holds q k m i d -> zlen d <= zlen dst ->
  memcpy_out dst (slot_off q k i + SIZEOF_HEADER) (zlen d) m = Some (splice dst 0 d, m).
Proof.
  intros Hh Hd. pose proof (h_fits _ _ _ _ _ Hh) as Hf. pose proof (zlen_nonneg d).
  rewrite memcpy_out_in; [by rewrite (h_data _ _ _ _ _ Hh)|done|].
  apply (ring_in_slot q k H T ms m R i); unfold SIZEOF_HEADER in *; lia.
Qed.

Lemma pop_empty buf len :
  ms = [] -> nabd_pop (Some q) (Some buf) (Some len) m = Some (NABD_EMPTY : Z, Some buf, Some len, m).
Proof.
  intros Hm. unfold nabd_pop. erewrite bind_ret by (by eapply ring_ld_tail).
  erewrite bind_ret by (by eapply ring_ld_head).
  rewrite (ring_is_empty _ _ _ _ _ _ R), bool_decide_eq_true_2 by done. done.
Qed.

Lemma pop_toobig d ms' buf len :
  ms = d :: ms' -> len < zlen d ->
  nabd_pop (Some q) (Some buf) (Some len) m = Some (NABD_TOOBIG : Z, Some buf, Some (zlen d), m).
Proof.
  intros Hm Hlen. unfold nabd_pop. erewrite bind_ret by (by eapply ring_ld_tail).
  erewrite bind_ret by (by eapply ring_ld_head).
  rewrite (ring_is_empty _ _ _ _ _ _ R), bool_decide_eq_false_2 by (by rewrite Hm).
  cbv zeta. rewrite (get_slot_off q k W).
  assert (holds q k m T d) as Hh by (by eapply ring_first).
  erewrite bind_ret by (eapply holds_ld_length; exact Hh). by zb_true (len <? zlen d).
Qed.

Lemma pop_ok d ms' buf len :
  ms = d :: ms' -> zlen d <= len -> zlen d <= zlen buf ->
  nabd_pop (Some q) (Some buf) (Some len) m
  = Some (NABD_OK : Z, Some (splice buf 0 d), Some (zlen d),
          wr 8 m OFF_TAIL (add64 (u64 T) 1)).
Proof.
  intros Hm Hlen Hbuf. unfold nabd_pop. erewrite bind_ret by (by eapply ring_ld_tail).
  erewrite bind_ret by (by eapply ring_ld_head).
  rewrite (ring_is_empty _ _ _ _ _ _ R), bool_decide_eq_false_2 by (by rewrite Hm).
  cbv zeta. rewrite (get_slot_off q k W).
  assert (holds q k m T d) as Hh by (by eapply ring_first).
  erewrite bind_ret by (eapply holds_ld_length; exact Hh). zb_false (len <? zlen d).
  erewrite bind_ret by (eapply holds_memcpy; [exact Hh|done]).
  erewrite bind_ret; [reflexivity|]. apply st_in.
  eapply ring_in_control; [exact R|..]; unfold OFF_TAIL, SIZEOF_CONTROL; lia.
Qed.

Lemma peek_empty data len :
  ms = [] -> nabd_peek (Some q) (Some data) (Some len) m
             = Some (NABD_EMPTY : Z, Some data, Some len, m).
Proof.
  intros Hm. unfold nabd_peek. erewrite bind_ret by (by eapply ring_ld_tail).
  erewrite bind_ret by (by eapply ring_ld_head).
  rewrite (ring_is_empty _ _ _ _ _ _ R), bool_decide_eq_true_2 by done. done.
Qed.

Lemma peek_ok d ms' data len :
  ms = d :: ms' ->
  nabd_peek (Some q) (Some data) (Some len) m
  = Some (NABD_OK : Z, Some (slot_off q k T + SIZEOF_HEADER), Some (zlen d), m) /\
  load (slot_off q k T + SIZEOF_HEADER) (zlen d) m = Some (d, m).
Proof.
  intros Hm. assert (holds q k m T d) as Hh by (by eapply ring_first). split.
  - unfold nabd_peek. erewrite bind_ret by (by eapply ring_ld_tail).
    erewrite bind_ret by (by eapply ring_ld_head).
    rewrite (ring_is_empty _ _ _ _ _ _ R), bool_decide_eq_false_2 by (by rewrite Hm).
    cbv zeta. unfold get_slot_header, get_slot_payload. rewrite (get_slot_off q k W).
    by erewrite bind_ret by (eapply holds_ld_length; exact Hh).
  - pose proof (h_fits _ _ _ _ _ Hh) as Hf. pose proof (zlen_nonneg d).
    rewrite load_in; [by rewrite (h_data _ _ _ _ _ Hh)|].
    apply (ring_in_slot q k H T ms m R T); unfold SIZEOF_HEADER in *; lia.
Qed.

(** [nabd_release] advances [tail] whatever the ring holds. *)
Lemma release_run :
  nabd_release (Some q) m = Some (NABD_OK : Z, wr 8 m OFF_TAIL (add64 (u64 T) 1)).
Proof.
  unfold nabd_release. erewrite bind_ret by (by eapply ring_ld_tail).
  erewrite bind_ret; [reflexivity|]. apply st_in.
  eapply ring_in_control; [exact R|..]; unfold OFF_TAIL, SIZEOF_CONTROL; lia.
Qed.

Lemma stats_run s0 :
  nabd_stats (Some q) (Some s0) m
  = Some (NABD_OK : Z,
          Some (NabdStats (u64 H) (u64 T) (q_capacity q) (zlen ms) (q_slot_size q)), m).
Proof.
  unfold nabd_stats. erewrite bind_ret by (by eapply ring_ld_head).
  erewrite bind_ret by (by eapply ring_ld_tail). by rewrite (ring_used _ _ _ _ _ _ R).
Qed.

Lemma empty_run : nabd_empty (Some q) m = Some (if bool_decide (ms = []) then 1 else 0, m).
Proof.
  unfold nabd_empty. erewrite bind_ret by (by eapply ring_ld_tail).
  erewrite bind_ret by (by eapply ring_ld_head). by rewrite (ring_is_empty _ _ _ _ _ _ R).
Qed.

Lemma full_run :
  nabd_full (Some q) m = Some (if q_capacity q <=? zlen ms then 1 else 0, m).
Proof.
  unfold nabd_full. erewrite bind_ret by (by eapply ring_ld_head).
  erewrite bind_ret by (by eapply ring_ld_tail). by rewrite (ring_used _ _ _ _ _ _ R).
Qed.

Lemma reserve_toobig len slot :
  q_reserved q = 0 -> q_slot_size q - SIZEOF_HEADER < len ->
  nabd_reserve (Some q) len (Some slot) m = Some (NABD_TOOBIG : Z, Some q, Some slot, m).
Proof.
  intros Hr Hlen. unfold nabd_reserve. rewrite Hr. simpl. rewrite (max_payload_eq q k W).
  by zb_true (q_slot_size q - SIZEOF_HEADER <? len).
Qed.

Lemma reserve_full len slot :
  q_reserved q = 0 -> len <= q_slot_size q - SIZEOF_HEADER -> zlen ms = q_capacity q ->
  nabd_reserve (Some q) len (Some slot) m = Some (NABD_FULL : Z, Some q, Some slot, m).
Proof.
  intros Hr Hlen Hfull. unfold nabd_reserve. rewrite Hr. simpl. rewrite (max_payload_eq q k W).
  zb_false (q_slot_size q - SIZEOF_HEADER <? len).
  erewrite bind_ret by (by eapply ring_ld_head). erewrite bind_ret by (by eapply ring_ld_tail).
  rewrite (ring_used _ _ _ _ _ _ R). by zb_true (q_capacity q <=? zlen ms).
Qed.

Lemma reserve_ok len slot :
  q_reserved q = 0 -> len <= q_slot_size q - SIZEOF_HEADER -> zlen ms < q_capacity q ->
  nabd_reserve (Some q) len (Some slot) m
  = Some (NABD_OK : Z, Some (set_reserved q 1 (u64 H)),
          Some (slot_off q k H + SIZEOF_HEADER), m).
Proof.
  intros Hr Hlen Hroom. unfold nabd_reserve. rewrite Hr. simpl. rewrite (max_payload_eq q k W).
  zb_false (q_slot_size q - SIZEOF_HEADER <? len).
  erewrite bind_ret by (by eapply ring_ld_head). erewrite bind_ret by (by eapply ring_ld_tail).
  rewrite (ring_used _ _ _ _ _ _ R). zb_false (q_capacity q <=? zlen ms).
  unfold get_slot_payload. by rewrite (get_slot_off q k W).
Qed.

End Operations.

(** The reserved state does not matter to the ring. *)
Lemma wf_set_reserved q k r pos : wf_handle q k -> wf_handle (set_reserved q r pos) k.
Proof. intros [? ? ? ? ? ?]. by split. Qed.

Lemma ring_set_reserved q k H T ms m r pos :
  ring q k H T ms m -> ring (set_reserved q r pos) k H T ms m.
Proof.
  intros [? ? [? ? ? ?] ? ? ? ? Hm]. split; try done; [by apply wf_set_reserved|].
  intros i d Hi. destruct (Hm i d Hi). by split.
Qed.

(** Committing a reserved slot: the caller has written [m1] through the slot
    pointer, the reservation is at position [H]. *)
Lemma commit_ok q k H T ms m m1 len :
  ring q k H T ms m -> zlen ms < q_capacity q ->
  q_reserved q <> 0 -> q_reserve_pos q = u64 H ->
  frame (slot_off q k H + SIZEOF_HEADER) (q_slot_size q - SIZEOF_HEADER) m m1 ->
  0 <= len <= q_slot_size q - SIZEOF_HEADER ->
  exists m', nabd_commit (Some q) len m1
    = Some (NABD_OK : Z, Some (set_reserved q 0 (u64 H)), m') /\
    ring q k (H + 1) T
      (ms ++ [slice m1 (slot_off q k H + SIZEOF_HEADER) (u16 len)]) m'.
Proof.
  intros R Hroom Hres Hpos Hf1 Hlen. pose proof (r_wf _ _ _ _ _ _ R) as W.
  unfold nabd_commit. zb_false (q_reserved q =? 0). unfold get_slot_header.
  rewrite Hpos, (get_slot_off q k W). set (so := slot_off q k H) in *.
  pose proof (slot_range q k W H) as HsH. pose proof (wf_slot _ _ W) as Hss.
  assert (in_mem m so (q_slot_size q)) as Hin
    by (apply (ring_in_slot q k H T ms m R H); unfold so, SIZEOF_HEADER in *; lia).
  assert (in_mem m1 so (q_slot_size q)) as Hin1
    by (unfold in_mem; rewrite (frame_len _ _ _ _ Hf1); done).
  unfold SIZEOF_HEADER, SIZEOF_CONTROL in *. fold so in HsH.
  destruct (fill_header_spec m1 so len (u64 H)) as (m2 & E2 & Hf2 & H1 & H2 & H3).
  { unfold SIZEOF_HEADER. zl. }
  rewrite (bind_ret _ _ _ _ _ E2). rewrite u32_u64 in H3. unfold SIZEOF_HEADER in Hf2.
  assert (frame so (q_slot_size q) m m2) as Hf
    by (eapply frame_trans; (eapply frame_mono; cycle 2; [eassumption|lia|lia])).
  eexists. split.
  - erewrite bind_ret; [reflexivity|]. apply st_in.
    unfold in_mem, OFF_HEAD. rewrite (frame_len _ _ _ _ Hf). zl.
  - apply (ring_publish q k H T ms m); [done|by rewrite <- (wf_cap _ _ W)|done|].
    pose proof (u16_range len). assert (u16 len <= len) by (apply Z.mod_le; lia).
    assert (zlen (slice m1 (so + 8) len) = len) as Hz by (apply zlen_slice; zl).
    replace (slice m1 (so + 8) (u16 len))
      with (take (Z.to_nat (u16 len)) (slice m1 (so + 8) len))
      by (unfold slice; rewrite take_take, Nat.min_l by lia; done).
    apply (holds_written q k m1); try done; fold so; unfold SIZEOF_HEADER; try lia.
    unfold zlen in Hz. rewrite take_ge by lia. done.
Qed.

(** Two handles of the same geometry see the same ring. *)
Lemma ring_same p c k H T ms m : same_ring p c -> ring p k H T ms m -> ring c k H T ms m.
Proof.
  intros (E1 & E2 & E3 & E4) [[? ? ? ? ? ?] ? [? ? ? ?] ? ? ? ? Hm].
  split; try done; rewrite <- ?E3; try done.
  - split; rewrite <- ?E1, <- ?E2, <- ?E3, <- ?E4; done.
  - split; rewrite <- ?E1, <- ?E3; done.
  - intros i d Hi. destruct (Hm i d Hi) as [? ? ? ? ? ?].
    unfold slot_off in *. split; unfold slot_off; rewrite <- ?E3; done.
Qed.

(** The ring depends on the bytes of the control block and of the slots only. *)
Lemma ring_agree q k H T ms m m' :
  ring q k H T ms m -> SIZEOF_CONTROL + 2 ^ k * q_slot_size q <= zlen m' ->
  (forall off n, 0 <= off -> 0 <= n -> off + n <= SIZEOF_CONTROL + 2 ^ k * q_slot_size q ->
     slice m' off n = slice m off n) ->
  ring q k H T ms m'.
Proof.
  intros [W Hl [Cm Cv Cc Cs] Hh Ht Hc Hb Hm] Hlen Ha. pose proof (pow_k _ _ W) as Hp.
  pose proof (wf_slot _ _ W) as Hs.
  assert (forall w off, 0 <= off -> off + Z.of_nat w <= SIZEOF_CONTROL + 2 ^ k * q_slot_size q ->
    rd w m' off = rd w m off) as Hrd by (intros; unfold rd; rewrite Ha by lia; done).
  unfold SIZEOF_CONTROL, SIZEOF_HEADER in *.
  split; try done; unfold SIZEOF_CONTROL; try (rewrite Hrd by (unfold OFF_HEAD, OFF_TAIL; nia); done).
  - split; rewrite Hrd by (unfold OFF_MAGIC, OFF_VERSION, OFF_CAPACITY, OFF_SLOT_SIZE; nia); done.
  - intros i d Hi. pose proof (slot_range q k W (T + Z.of_nat i)) as Hr.
    pose proof (zlen_nonneg d). destruct (Hm i d Hi) as [? ? ? Hd ? ?].
    unfold SIZEOF_CONTROL, SIZEOF_HEADER, HDR_LENGTH, HDR_FLAGS, HDR_SEQUENCE in *.
    split; unfold SIZEOF_HEADER, HDR_LENGTH, HDR_FLAGS, HDR_SEQUENCE; try done;
      try (rewrite Hrd by lia; done). rewrite Ha by lia. done.
Qed.

(** In particular not on the bytes after it. *)
Lemma ring_take q k H T ms m n :
  ring q k H T ms m -> SIZEOF_CONTROL + 2 ^ k * q_slot_size q <= n ->
  ring q k H T ms (take (Z.to_nat n) m).
Proof.
  intros R Hn. pose proof (r_len _ _ _ _ _ _ R). eapply ring_agree; [exact R|..].
  - unfold zlen in *. rewrite length_take. lia.
  - intros. apply slice_take; lia.
Qed.

Lemma ring_untake q k H T ms m n : ring q k H T ms (take n m) -> ring q k H T ms m.
Proof.
  intros R. pose proof (r_len _ _ _ _ _ _ R) as Hl. eapply ring_agree; [exact R|..].
  - unfold zlen in *. rewrite length_take in Hl. lia.
  - intros. rewrite <- (Nat2Z.id n), slice_take; [done..|].
    unfold zlen in Hl. rewrite length_take in Hl. lia.
Qed.

(** ** Refinement of the abstract FIFO *)

(** The push of a message is the push of the specification. *)
Lemma push_refines q f m d :
  is_fifo q f m -> zlen d < 2 ^ 16 ->
  exists m', nabd_push (Some q) (Some d) (zlen d) m = Some (err (fst (spec_push f d)), m') /\
    is_fifo q (snd (spec_push f d)) m'.
Proof.
  intros (k & H & T & R & Hb & Hx) Hd. unfold spec_push. rewrite Hb, Hx.
  pose proof (r_wf _ _ _ _ _ _ R) as W. pose proof (zlen_nonneg d).
  destruct (q_slot_size q - SIZEOF_HEADER <? zlen d) eqn:E1; zbool.
  { exists m. split; [by apply (push_toobig q k H T _ m R)|]. by exists k, H, T. }
  pose proof (r_count _ _ _ _ _ _ R). pose proof (r_bound _ _ _ _ _ _ R).
  pose proof (wf_cap _ _ W).
  destruct (q_capacity q <=? zlen (ff_msgs f)) eqn:E2; zbool.
  { exists m. split; [apply (push_full q k H T _ m R); lia|]. by exists k, H, T. }
  destruct (push_ok q k H T _ m R d (zlen d)) as (m' & Hp & R'); [lia..|].
  exists m'. split; [done|]. exists k, (H + 1), T. split; [|done].
  rewrite u16_small in R' by lia. unfold zlen in R'. by rewrite Nat2Z.id, firstn_all in R'.
Qed.

#[export] Instance nabd_push_contract q :
  PushContract (is_fifo q) (fun d => nabd_push (Some q) (Some d) (zlen d)).
Proof. intros f m d. apply push_refines. Qed.

Lemma pop_refines q f m dst :
  is_fifo q f m ->
  exists m', is_fifo q (snd (spec_pop f (zlen dst))) m' /\
    nabd_pop (Some q) (Some dst) (Some (zlen dst)) m =
    Some (match spec_pop f (zlen dst) with
          | (NABD_OK, Some d, _) => (NABD_OK : Z, Some (splice dst 0 d), Some (zlen d))
          | (e, Some d, _) => (e : Z, Some dst, Some (zlen d))
          | (e, None, _) => (e : Z, Some dst, Some (zlen dst))
          end, m').
Proof.
  intros (k & H & T & R & Hb & Hx). unfold spec_pop. destruct (ff_msgs f) as [|d ms] eqn:Em.
  - exists m. split; [exists k, H, T; simpl; by rewrite Em|]. by apply (pop_empty q k H T _ m R).
  - destruct (zlen dst <? zlen d) eqn:E; zbool.
    + exists m. split; [exists k, H, T; simpl; by rewrite Em|].
      by apply (pop_toobig q k H T _ m R d ms).
    + rewrite (pop_ok q k H T _ m R d ms dst (zlen dst)) by (done || lia).
      eexists. split; [|reflexivity]. exists k, H, (T + 1).
      split; [|done]. by apply (ring_consume q k H T d).
Qed.
