(* ===== verification/InternalImpl.v ===== *)
(** * The handle across translation units (include/nabd/internal_impl.h)

    nabd.c declares [struct nabd] and [struct nabd_consumer] for itself; metrics.c and
    persistence.c read the same objects through the declarations of internal_impl.h,
    which also repeats the slot helpers.  Both declarations are laid out here by the C
    rule, so that the agreement the program relies on is a theorem. *)

From S2P Require Import Prelude Words Pow2 Memory Layout Queue.
Local Open Scope string_scope.
Local Open Scope Z_scope.

(** ** Declarations *)

Definition pointer n := Field n 8 8.
Definition int n := Field n 4 4.
Definition size_t n := Field n 8 8.

(** src/nabd.c *)
Definition struct_nabd : list field :=
  [pointer "name"; int "fd"; int "flags"; size_t "size"; pointer "ctrl"; pointer "buffer";
   size_t "capacity"; size_t "slot_size"; size_t "mask";
   int "reserved"; uint64 "reserve_pos"; pointer "multi"].

Definition struct_nabd_consumer : list field :=
  [pointer "queue"; pointer "group"; uint32 "group_id"].

Module Impl.

(** include/nabd/internal_impl.h *)
Definition struct_nabd_impl : list field :=
  [pointer "name"; int "fd"; int "flags"; size_t "size"; pointer "ctrl"; pointer "buffer";
   size_t "capacity"; size_t "slot_size"; size_t "mask";
   int "reserved"; uint64 "reserve_pos"; pointer "multi"].

Definition struct_nabd_consumer_impl : list field :=
  [pointer "queue"; pointer "group"; uint32 "group_id"].

Definition nabd_get_slot (q : nabd) (index : Z) : Z :=
  q_buffer q + mul64 (nabd_mod_pow2 index (q_mask q)) (q_slot_size q).

Definition nabd_get_slot_header (q : nabd) (index : Z) : Z := nabd_get_slot q index.

Definition nabd_get_slot_payload (q : nabd) (index : Z) : Z := nabd_get_slot q index + SIZEOF_HEADER.

End Impl.

(** ** Objects of a structure type *)

(** Assigning every field of an object of [sizeof fs] bytes. *)
Definition write_struct (fs : list field) (value : string -> Z) (m : mem) : mem :=
  foldl (fun m '(f, (_, off)) => wr (Z.to_nat (f_size f)) m off (value (f_name f)))
        m (zip fs (layout 0 fs)).

Definition read_field (fs : list field) (name : string) (m : mem) : option Z :=
  f ← find (fun f => String.eqb (f_name f) name) fs;
  off ← offsetof fs name;
  Some (rd (Z.to_nat (f_size f)) m off).

(** A value of the field's type. *)
Definition fits (f : field) (z : Z) : Prop := 0 <= z < 2 ^ (8 * f_size f).

(** ** Theorems *)

(** Fields with a size and an alignment. *)
Definition proper (fs : list field) : Prop := Forall (fun f => 0 < f_size f /\ 0 < f_align f) fs.

Lemma round_up_ge n a : 0 < a -> n <= round_up n a.
Proof. intros Ha. unfold round_up. pose proof (Z.div_mod (n + a - 1) a). pose proof (Z.mod_pos_bound (n + a - 1) a). nia. Qed.

Lemma layout_end_ge o fs : proper fs -> o <= layout_end o fs.
Proof.
  intros Hp. revert o. induction Hp as [|f fs [Hs Ha] _ IH]; intros o; simpl; [lia|].
  pose proof (round_up_ge o (f_align f) Ha). specialize (IH (round_up o (f_align f) + f_size f)). lia.
Qed.

Definition write_fields (value : string -> Z) (l : list (field * (string * Z))) (m : mem) : mem :=
  foldl (fun m '(f, (_, off)) => wr (Z.to_nat (f_size f)) m off (value (f_name f))) m l.

(** The fields from offset [o] on: the bytes before are kept, each field has its value. *)
Lemma write_fields_spec value fs : proper fs -> forall o m, 0 <= o -> layout_end o fs <= zlen m ->
  let m' := write_fields value (zip fs (layout o fs)) m in
  zlen m' = zlen m /\
  (forall w off, 0 <= off -> off + Z.of_nat w <= o -> rd w m' off = rd w m off) /\
  forall f name off, (f, (name, off)) ∈ zip fs (layout o fs) ->
    rd (Z.to_nat (f_size f)) m' off = value (f_name f) mod 2 ^ (8 * f_size f).
Proof.
  induction 1 as [|f fs [Hs Ha] Hp IH]; intros o m Ho Hl; simpl in *.
  { split_and!; [done..|]. intros ? ? ? Hin. by apply elem_of_nil in Hin. }
  set (off := round_up o (f_align f)) in *. pose proof (round_up_ge o (f_align f) Ha) as Hoff.
  fold off in Hoff. pose proof (layout_end_ge (off + f_size f) fs Hp) as Hle.
  assert (in_mem m off (Z.of_nat (Z.to_nat (f_size f)))) as Hin by (unfold in_mem; lia).
  destruct (IH (off + f_size f) (wr (Z.to_nat (f_size f)) m off (value (f_name f)))) as (H1 & H2 & H3);
    [lia|by rewrite zlen_wr|]. rewrite zlen_wr in H1 by done. split_and!.
  - exact H1.
  - intros w off' ? ?. rewrite H2 by lia. apply rd_wr; [done|lia|lia].
  - intros f0 name off0 [Heq|Hf0]%elem_of_cons; [|by eapply H3].
    injection Heq as -> -> ->. fold off. rewrite H2 by lia. rewrite rd_wr_same by done.
    do 2 f_equal. lia.
Qed.

(** Reading through the declaration [gs] a field of an object written through [fs]. *)
Lemma read_write_field gs fs value m f off : proper fs -> layout_end 0 fs <= zlen m ->
  find (fun g => String.eqb (f_name g) (f_name f)) gs = Some f -> offsetof gs (f_name f) = Some off ->
  (f, (f_name f, off)) ∈ zip fs (layout 0 fs) -> fits f (value (f_name f)) ->
  read_field gs (f_name f) (write_struct fs value m) = Some (value (f_name f)).
Proof.
  intros Hp Hl Hf Ho Hin Hfit. unfold read_field. rewrite Hf, Ho. cbn. f_equal.
  destruct (write_fields_spec value fs Hp 0 m) as (_ & _ & H); [lia|done|].
  unfold write_struct. fold (write_fields value (zip fs (layout 0 fs)) m).
  rewrite (H f _ off Hin). by apply Z.mod_small.
Qed.

(** Decide the facts about the concrete declarations. *)
Ltac field_case Hm Hv :=
  eapply read_write_field;
    [repeat constructor|rewrite Hm; vm_compute; congruence|reflexivity|vm_compute; reflexivity
    |vm_compute; repeat constructor|apply Hv; repeat constructor].

(** Handles cross translation units.  Whatever nabd.c writes into the fields of a
    handle or of a consumer handle, metrics.c and persistence.c read back field by
    field through the declarations of internal_impl.h, and the slot helpers of
    internal_impl.h find the slots nabd.c uses. *)
Theorem handle_declarations_agree :
  (forall value m f, zlen m = sizeof struct_nabd ->
     (forall f, f ∈ struct_nabd -> fits f (value (f_name f))) -> f ∈ Impl.struct_nabd_impl ->
     read_field Impl.struct_nabd_impl (f_name f) (write_struct struct_nabd value m)
     = Some (value (f_name f))) /\
  (forall value m f, zlen m = sizeof struct_nabd_consumer ->
     (forall f, f ∈ struct_nabd_consumer -> fits f (value (f_name f))) ->
     f ∈ Impl.struct_nabd_consumer_impl ->
     read_field Impl.struct_nabd_consumer_impl (f_name f) (write_struct struct_nabd_consumer value m)
     = Some (value (f_name f))) /\
  forall q i, Impl.nabd_get_slot q i = get_slot q i /\
    Impl.nabd_get_slot_header q i = get_slot_header q i /\
    Impl.nabd_get_slot_payload q i = get_slot_payload q i.
Proof.
  split_and!; [intros value m f Hm Hv Hf..|done].
  - unfold Impl.struct_nabd_impl in Hf.
    repeat (apply elem_of_cons in Hf as [->|Hf]; [field_case Hm Hv|]). by apply elem_of_nil in Hf.
  - unfold Impl.struct_nabd_consumer_impl in Hf.
    repeat (apply elem_of_cons in Hf as [->|Hf]; [field_case Hm Hv|]). by apply elem_of_nil in Hf.
Qed.

(** ** Witness *)

Lemma handle_declarations_agree_witness :
  read_field Impl.struct_nabd_impl "mask" (write_struct struct_nabd (fun _ => 7) (replicate 88 Byte.x00))
  = Some 7.
Proof.
  apply (proj1 handle_declarations_agree (fun _ => 7) (replicate 88 Byte.x00) (size_t "mask"));
    [reflexivity| |repeat constructor].
  intros f Hf. unfold struct_nabd in Hf.
  repeat (apply elem_of_cons in Hf as [->|Hf]; [unfold fits; simpl; lia|]). by apply elem_of_nil in Hf.
Defined.
