(* ===== verification/Sample.v ===== *)
(** * A small queue

    Two slots of sixteen bytes (eight of payload), empty, with two messages, and
    with the indices about to wrap: the concrete inputs of the witnesses. *)

From S2P Require Import Prelude Words Pow2 Memory Layout Fifo Queue Ring.
Local Open Scope Z_scope.

(** ** Definitions *)

Definition sample_q : nabd := Nabd 1 3 7 288 (Some 4096) 256 2 16 1 0 0 None.

(** The segment [nabd_open] initialises, with [head] and [tail] at [pos], in [n] bytes. *)
Definition sample_sized (n : nat) (pos : Z) : mem :=
  let m := replicate n Byte.x00 in
  let m := wr 8 m OFF_MAGIC NABD_MAGIC in
  let m := wr 8 m OFF_VERSION nabd_version_word in
  let m := wr 8 m OFF_CAPACITY 2 in
  let m := wr 8 m OFF_SLOT_SIZE 16 in
  let m := wr 8 m OFF_BUFFER_OFFSET SIZEOF_CONTROL in
  let m := wr 8 m OFF_HEAD pos in
  wr 8 m OFF_TAIL pos.

Definition sample_at (pos : Z) : mem := sample_sized 288 pos.
Definition sample_mem : mem := sample_at 0.

Definition msg_a : msg := [Byte.x61].
Definition msg_b : msg := [Byte.x62; Byte.x63].

(** The memory after a computation. *)
Definition after {A} (c : C A) (m : mem) : mem :=
  match c m with Some (_, m') => m' | None => [] end.

Definition push_msg (d : msg) : C Z := nabd_push (Some sample_q) (Some d) (zlen d).

Definition sample_two : mem := after (push_msg msg_b) (after (push_msg msg_a) sample_mem).

(** Boolean checks of [holds] and [ring], for concrete memories. *)
Definition holdsb (q : nabd) (k : Z) (m : mem) (i : Z) (d : msg) : bool :=
  (rd 2 m (slot_off q k i + HDR_LENGTH) =? zlen d) &&
  (rd 2 m (slot_off q k i + HDR_FLAGS) =? 0) &&
  (rd 4 m (slot_off q k i + HDR_SEQUENCE) =? u32 i) &&
  bool_decide (slice m (slot_off q k i + SIZEOF_HEADER) (zlen d) = d) &&
  (zlen d <=? q_slot_size q - SIZEOF_HEADER) && (zlen d <? 2 ^ 16).

Fixpoint slotsb (q : nabd) (k : Z) (m : mem) (T : Z) (ms : list msg) : bool :=
  match ms with
  | [] => true
  | d :: ms => holdsb q k m T d && slotsb q k m (T + 1) ms
  end.

Definition ringb (q : nabd) (k H T : Z) (ms : list msg) (m : mem) : bool :=
  (SIZEOF_CONTROL + 2 ^ k * q_slot_size q <=? zlen m) &&
  (rd 8 m OFF_MAGIC =? NABD_MAGIC) && (rd 8 m OFF_VERSION =? nabd_version_word) &&
  (rd 8 m OFF_CAPACITY =? q_capacity q) && (rd 8 m OFF_SLOT_SIZE =? q_slot_size q) &&
  (rd 8 m OFF_HEAD =? u64 H) && (rd 8 m OFF_TAIL =? u64 T) &&
  (zlen ms =? H - T) && (H - T <=? 2 ^ k) && slotsb q k m T ms.

Definition sample_fifo (ms : list msg) : fifo := Fifo 2 8 ms.

(** ** Facts *)

Lemma holdsb_spec q k m i d : holdsb q k m i d = true -> holds q k m i d.
Proof. unfold holdsb. intros Hc. zbool. split; try done. by eapply bool_decide_eq_true_1. Qed.

Lemma slotsb_spec q k m T ms :
  slotsb q k m T ms = true -> forall i d, ms !! i = Some d -> holds q k m (T + Z.of_nat i) d.
Proof.
  revert T. induction ms as [|d0 ms IH]; simpl; intros T Hc i d Hi; [done|]. zbool.
  destruct i as [|i]; simpl in Hi.
  - injection Hi as <-. rewrite Z.add_0_r. by apply holdsb_spec.
  - replace (T + Z.of_nat (S i)) with (T + 1 + Z.of_nat i) by lia. by apply IH.
Qed.

Lemma ringb_spec q k H T ms m : wf_handle q k -> ringb q k H T ms m = true -> ring q k H T ms m.
Proof. unfold ringb. intros W Hc. zbool. split; try done. by apply slotsb_spec. Qed.

Lemma sample_wf : wf_handle sample_q 1.
Proof. split; simpl; done || lia. Qed.

Lemma zlen_sample_sized n pos : (288 <= n)%nat -> zlen (sample_sized n pos) = Z.of_nat n.
Proof.
  intros Hn. assert (zlen (replicate n Byte.x00) = Z.of_nat n) as Hz
    by (unfold zlen; by rewrite length_replicate).
  unfold sample_sized, OFF_MAGIC, OFF_VERSION, OFF_CAPACITY, OFF_SLOT_SIZE, OFF_BUFFER_OFFSET,
    OFF_HEAD, OFF_TAIL. cbv zeta. zl.
Qed.

Lemma sample_ring_sized n pos :
  (288 <= n)%nat -> ring sample_q 1 pos pos [] (sample_sized n pos).
Proof.
  intros Hn. assert (288 <= zlen (replicate n Byte.x00)) as Hz
    by (unfold zlen; rewrite length_replicate; lia).
  unfold sample_sized, OFF_MAGIC, OFF_VERSION, OFF_CAPACITY, OFF_SLOT_SIZE, OFF_BUFFER_OFFSET,
    OFF_HEAD, OFF_TAIL, SIZEOF_CONTROL. cbv zeta.
  set (z0 := replicate n Byte.x00) in *. clearbody z0.
  split; [apply sample_wf|..]; unfold OFF_HEAD, OFF_TAIL, SIZEOF_CONTROL; simpl q_slot_size.
  - zl.
  - split; unfold OFF_MAGIC, OFF_VERSION, OFF_CAPACITY, OFF_SLOT_SIZE;
      repeat rewrite rd_wr by zl; rewrite rd_wr_same by zl; done.
  - repeat rewrite rd_wr by zl. by rewrite rd_wr_same by zl.
  - by rewrite rd_wr_same by zl.
  - unfold zlen. simpl. lia.
  - lia.
  - intros i d Hi. by rewrite lookup_nil in Hi.
Qed.

Lemma sample_ring_at pos : ring sample_q 1 pos pos [] (sample_at pos).
Proof. by apply sample_ring_sized. Qed.

Lemma sample_ring : ring sample_q 1 0 0 [] sample_mem.
Proof. apply sample_ring_at. Qed.

Lemma sample_is_fifo : is_fifo sample_q (sample_fifo []) sample_mem.
Proof. exists 1, 0, 0. split; [apply sample_ring|done]. Qed.

Lemma sample_ring_two : ring sample_q 1 2 0 [msg_a; msg_b] sample_two.
Proof. apply ringb_spec; [apply sample_wf|vm_compute; reflexivity]. Qed.

Lemma sample_is_fifo_two : is_fifo sample_q (sample_fifo [msg_a; msg_b]) sample_two.
Proof. exists 1, 2, 0. split; [apply sample_ring_two|done]. Qed.
