(* ===== verification/Trace.v ===== *)
(** * Whole-API refinement

    Sequences of API calls of one producer handle and one consumer handle on the
    same memory, interleaved in any order, against the bounded FIFO with a
    reservation: every sequence that respects the documented protocol returns,
    call by call, what the specification returns.  The protocol obligations are
    exactly the calls on which [spec_step] is undefined: no push while a slot is
    reserved, commit at most what was written, release only after data was there,
    payloads shorter than 2^16 bytes. *)

From S2P Require Import Prelude Words Pow2 Memory Layout Fifo Queue Ring.
Local Open Scope Z_scope.

(** ** Calls and results *)

Inductive call :=
  | Push (d : msg)              (* nabd_push(p, d, |d|) *)
  | Reserve (len : Z)           (* nabd_reserve(p, len, &slot) *)
  | Fill (bs : msg)             (* memcpy(slot, bs, |bs|) by the caller *)
  | Commit (len : Z)            (* nabd_commit(p, len) *)
  | Pop (cap : nat)             (* nabd_pop(c, buf, &len), buf and len of cap bytes *)
  | Peek                        (* nabd_peek(c, &data, &len), then read data *)
  | Release                     (* nabd_release(c) *)
  | Used                        (* nabd_stats(c, &stats), used *)
  | IsEmpty                     (* nabd_empty(c) *)
  | IsFull.                     (* nabd_full(p) *)

Record result := Result { res_code : Z; res_data : msg; res_len : Z }.

Definition code (z : Z) : result := Result z [] 0.

(** ** The program: the two handles, the slot pointer of the last reserve, memory *)

Record world := World { w_p : nabd; w_c : nabd; w_slot : Z; w_mem : mem }.

Definition zeros (n : nat) : list byte := replicate n Byte.x00.

Definition run_call (c : call) (w : world) : option (result * world) :=
  let p := Some (w_p w) in
  let q := Some (w_c w) in
  let upd m := World (w_p w) (w_c w) (w_slot w) m in
  match c with
  | Push d =>
      '(r, m) ← nabd_push p (Some d) (zlen d) (w_mem w); Some (code r, upd m)
  | Reserve len =>
      '(r, p', s, m) ← nabd_reserve p len (Some (w_slot w)) (w_mem w);
      Some (code r, World (default (w_p w) p') (w_c w) (default (w_slot w) s) m)
  | Fill bs =>
      '(_, m) ← store (w_slot w) bs (w_mem w); Some (code 0, upd m)
  | Commit len =>
      '(r, p', m) ← nabd_commit p len (w_mem w);
      Some (code r, World (default (w_p w) p') (w_c w) (w_slot w) m)
  | Pop cap =>
      '(r, buf, len, m) ← nabd_pop q (Some (zeros cap)) (Some (Z.of_nat cap)) (w_mem w);
      let n := default 0 len in
      Some (Result r (if r =? NABD_OK then slice (default [] buf) 0 n else []) n, upd m)
  | Peek =>
      '(r, data, len, m) ← nabd_peek q (Some 0) (Some 0) (w_mem w);
      if r =? NABD_OK then
        '(d, m') ← load (default 0 data) (default 0 len) m;
        Some (Result r d (default 0 len), upd m')
      else Some (code r, upd m)
  | Release => '(r, m) ← nabd_release q (w_mem w); Some (code r, upd m)
  | Used =>
      '(r, s, m) ← nabd_stats q (Some (NabdStats 0 0 0 0 0)) (w_mem w);
      Some (Result r [] (default 0 (s_used <$> s)), upd m)
  | IsEmpty => '(r, m) ← nabd_empty q (w_mem w); Some (code r, upd m)
  | IsFull => '(r, m) ← nabd_full p (w_mem w); Some (code r, upd m)
  end.

(** ** The specification: a FIFO and the pending reservation, if any (its size and
    what was written) *)

Record spec := Spec { sp_fifo : fifo; sp_res : option (Z * msg) }.

Definition spec_step (c : call) (s : spec) : option (result * spec) :=
  let f := sp_fifo s in
  let ms := ff_msgs f in
  match c, sp_res s with
  | Push d, None =>
      if zlen d <? 2 ^ 16 then
        let (e, f') := spec_push f d in Some (code (err e), Spec f' None)
      else None
  | Push _, Some _ => None
  | Reserve len, None =>
      if len <? 0 then None
      else if ff_maxlen f <? len then Some (code NABD_TOOBIG, s)
      else if ff_bound f <=? zlen ms then Some (code NABD_FULL, s)
      else Some (code NABD_OK, Spec f (Some (len, [])))
  | Reserve _, Some _ => Some (code NABD_INVALID, s)
  | Fill bs, Some (len, _) =>
      if zlen bs <=? len then Some (code 0, Spec f (Some (len, bs))) else None
  | Fill _, None => None
  | Commit _, None => Some (code NABD_INVALID, s)
  | Commit len, Some (_, bs) =>
      if (0 <=? len) && (len <=? zlen bs) && (len <? 2 ^ 16) then
        Some (code NABD_OK, Spec (with_msgs f (ms ++ [take (Z.to_nat len) bs])) None)
      else None
  | Pop cap, r =>
      Some (match spec_pop f (Z.of_nat cap) with
            | (NABD_OK, Some d, f') => (Result NABD_OK d (zlen d), Spec f' r)
            | (e, Some d, f') => (Result e [] (zlen d), Spec f' r)
            | (e, None, f') => (Result e [] (Z.of_nat cap), Spec f' r)
            end)
  | Peek, _ =>
      Some (match ms with
            | [] => (code NABD_EMPTY, s)
            | d :: _ => (Result NABD_OK d (zlen d), s)
            end)
  | Release, r => if bool_decide (ms = []) then None
                  else Some (code NABD_OK, Spec (spec_release f) r)
  | Used, _ => Some (Result NABD_OK [] (zlen ms), s)
  | IsEmpty, _ => Some (code (if bool_decide (ms = []) then 1 else 0), s)
  | IsFull, _ => Some (code (if ff_bound f <=? zlen ms then 1 else 0), s)
  end.

(** Runs of a list of calls; the results in order. *)
Fixpoint run_calls (cs : list call) (w : world) : option (list result * world) :=
  match cs with
  | [] => Some ([], w)
  | c :: cs => '(r, w1) ← run_call c w; '(rs, w2) ← run_calls cs w1; Some (r :: rs, w2)
  end.

Fixpoint spec_steps (cs : list call) (s : spec) : option (list result * spec) :=
  match cs with
  | [] => Some ([], s)
  | c :: cs => '(r, s1) ← spec_step c s; '(rs, s2) ← spec_steps cs s1; Some (r :: rs, s2)
  end.

(** ** The simulation relation *)

(** The pending reservation is at the head position and its slot starts with what
    was written. *)
Definition reservation (q : nabd) (k H slot : Z) (ms : list msg) (m : mem)
    (r : option (Z * msg)) : Prop :=
  match r with
  | None => q_reserved q = 0
  | Some (len, bs) =>
      q_reserved q <> 0 /\ q_reserve_pos q = u64 H /\ zlen ms < q_capacity q /\
      slot = slot_off q k H + SIZEOF_HEADER /\
      zlen bs <= len <= q_slot_size q - SIZEOF_HEADER /\
      slice m slot (zlen bs) = bs
  end.

Record sim (s : spec) (w : world) : Prop := {
  sim_ring : exists k H T,
    ring (w_p w) k H T (ff_msgs (sp_fifo s)) (w_mem w) /\
    reservation (w_p w) k H (w_slot w) (ff_msgs (sp_fifo s)) (w_mem w) (sp_res s);
  sim_same : same_ring (w_p w) (w_c w);
  sim_bound : ff_bound (sp_fifo s) = q_capacity (w_p w);
  sim_maxlen : ff_maxlen (sp_fifo s) = q_slot_size (w_p w) - SIZEOF_HEADER
}.

(** ** Facts about the relation *)

Lemma same_ring_set_reserved p c r pos : same_ring p c -> same_ring (set_reserved p r pos) c.
Proof. done. Qed.

Lemma slice_splice_0 (bs l : list byte) :
  zlen bs <= zlen l -> slice (splice l 0 bs) 0 (zlen bs) = bs.
Proof. intros. apply slice_splice_same; lia. Qed.

Lemma zlen_zeros n : zlen (zeros n) = Z.of_nat n.
Proof. unfold zlen, zeros. by rewrite length_replicate. Qed.

(** Reading an unreserved or reserved slot is not affected by the move of [tail]. *)
Lemma reservation_tail q k H T slot ms ms' m r :
  ring q k H T ms m -> reservation q k H slot ms m r -> zlen ms' <= zlen ms ->
  reservation q k H slot ms' (wr 8 m OFF_TAIL (add64 (u64 T) 1)) r.
Proof.
  intros R. destruct r as [[len bs]|]; [|done]. simpl.
  intros (? & ? & ? & -> & ? & Hs) ?. repeat split; try done; try lia.
  pose proof (slot_range q k (r_wf _ _ _ _ _ _ R) H). pose proof (zlen_nonneg bs).
  unfold SIZEOF_HEADER, SIZEOF_CONTROL, OFF_TAIL in *. rewrite slice_wr; try lia; [done|].
  eapply ring_in_control; [exact R|..]; unfold SIZEOF_CONTROL; lia.
Qed.

(** ** One call *)

(** Open the relation and name its parts. *)
Ltac open_sim :=
  lazymatch goal with
  | Sim : sim ?s ?w |- _ =>
      destruct Sim as [(k & H & T & R & Res) Same Hb Hx]; destruct s as [f rv]; destruct w as [p c sl m];
      simpl in *; pose proof (r_wf _ _ _ _ _ _ R) as W; pose proof (wf_cap _ _ W) as Hcap;
      pose proof (r_count _ _ _ _ _ _ R) as Hcnt; pose proof (r_bound _ _ _ _ _ _ R) as Hbnd;
      rewrite ?Hb, ?Hx in *
  end.

Lemma push_sim d s w r s' :
  sim s w -> spec_step (Push d) s = Some (r, s') ->
  exists w', run_call (Push d) w = Some (r, w') /\ sim s' w'.
Proof.
  intros Sim. open_sim. destruct rv; [done|]. case_zb; [|done].
  destruct (push_refines p f m d) as (m' & Hp & (k' & H' & T' & R' & Hb' & Hx')); [|done|].
  { exists k, H, T. by rewrite Hb, Hx. }
  destruct (spec_push f d) as [e f']. intros [= <- <-]. simpl in *. rewrite Hp. simpl.
  eexists. split; [reflexivity|]. split; simpl; try done. by exists k', H', T'.
Qed.

Lemma reserve_sim len s w r s' :
  sim s w -> spec_step (Reserve len) s = Some (r, s') ->
  exists w', run_call (Reserve len) w = Some (r, w') /\ sim s' w'.
Proof.
  intros Sim. open_sim. destruct rv as [[rl bs]|].
  - intros [= <- <-]. simpl in Res. destruct Res as (Hr & Hrest). unfold nabd_reserve.
    zb_false (q_reserved p =? 0). simpl. eexists. split; [reflexivity|].
    split; simpl; try done. by exists k, H, T.
  - simpl in Res. repeat case_zb; [done|..]; intros [= <- <-].
    + rewrite (reserve_toobig p k H T _ m R) by done. eexists. split; [reflexivity|].
      split; simpl; try done. by exists k, H, T.
    + rewrite (reserve_full p k H T _ m R) by (done || lia). eexists. split; [reflexivity|].
      split; simpl; try done. by exists k, H, T.
    + rewrite (reserve_ok p k H T _ m R) by (done || lia). eexists. split; [reflexivity|].
      split; simpl; try done. exists k, H, T. split; [by apply ring_set_reserved|].
      unfold zlen. simpl. repeat split; done || lia.
Qed.

Lemma fill_sim bs s w r s' :
  sim s w -> spec_step (Fill bs) s = Some (r, s') ->
  exists w', run_call (Fill bs) w = Some (r, w') /\ sim s' w'.
Proof.
  intros Sim. open_sim. destruct rv as [[rl b0]|]; [|done]. case_zb; [|done].
  intros [= <- <-]. destruct Res as (Hr & Hp & Hroom & -> & Hrl & _).
  pose proof (slot_range p k W H) as HsH. pose proof (zlen_nonneg bs).
  assert (in_mem m (slot_off p k H) (q_slot_size p)) as Hin.
  { pose proof (wf_slot _ _ W). apply (ring_in_slot p k H T _ m R H); unfold SIZEOF_HEADER in *; lia. }
  unfold SIZEOF_HEADER in *. rewrite store_in by zl. simpl. eexists. split; [reflexivity|].
  split; simpl; try done. exists k, H, T. split.
  - apply (ring_frame_slot p k H T _ m); [done|lia|].
    eapply frame_mono; cycle 2; [apply frame_splice; zl|lia|lia].
  - unfold SIZEOF_HEADER. repeat split; try done; try lia. apply slice_splice_same; zl.
Qed.

Lemma commit_sim len s w r s' :
  sim s w -> spec_step (Commit len) s = Some (r, s') ->
  exists w', run_call (Commit len) w = Some (r, w') /\ sim s' w'.
Proof.
  intros Sim. open_sim. destruct rv as [[rl bs]|].
  - repeat case_zb; try done. intros [= <- <-].
    destruct Res as (Hr & Hp & Hroom & -> & Hrl & Hs).
    destruct (commit_ok p k H T (ff_msgs f) m m len) as (m' & Hc & R');
      [exact R|done|done|done|apply frame_refl|lia|].
    rewrite Hc. simpl. eexists. split; [reflexivity|]. split; simpl; try done.
    exists k, (H + 1), T. split; [|done]. apply ring_set_reserved. revert R'.
    rewrite u16_small by lia. rewrite <- Hs at 1.
    unfold slice. by rewrite take_take, Nat.min_l by (unfold zlen in *; lia).
  - intros [= <- <-]. simpl in Res. unfold nabd_commit. rewrite Res. simpl.
    eexists. split; [reflexivity|]. split; simpl; try done. by exists k, H, T.
Qed.

(** Consuming the oldest message keeps the relation. *)
Lemma consume_sim p c k H T d ms sl m f rv :
  ring p k H T (d :: ms) m -> same_ring p c -> ff_msgs f = d :: ms ->
  ff_bound f = q_capacity p -> ff_maxlen f = q_slot_size p - SIZEOF_HEADER ->
  reservation p k H sl (d :: ms) m rv ->
  sim (Spec (with_msgs f ms) rv) (World p c sl (wr 8 m OFF_TAIL (add64 (u64 T) 1))).
Proof.
  intros R Same Hf Hb Hx Res. split; simpl; try done.
  exists k, H, (T + 1). split; [by eapply ring_consume|].
  eapply reservation_tail; [exact R|exact Res|unfold zlen; simpl; lia].
Qed.

Lemma pop_sim cap s w r s' :
  sim s w -> spec_step (Pop cap) s = Some (r, s') ->
  exists w', run_call (Pop cap) w = Some (r, w') /\ sim s' w'.
Proof.
  intros Sim. open_sim. unfold spec_pop.
  pose proof (ring_same _ _ _ _ _ _ _ Same R) as Rc. pose proof (zlen_zeros cap) as Hz.
  destruct (ff_msgs f) as [|d ms] eqn:Em.
  - intros [= <- <-]. rewrite (pop_empty c k H T _ m Rc) by done. simpl.
    eexists. split; [reflexivity|]. split; simpl; try done. exists k, H, T. by rewrite Em.
  - case_zb; intros [= <- <-].
    + rewrite (pop_toobig c k H T _ m Rc d ms) by done. simpl.
      eexists. split; [reflexivity|]. split; simpl; try done. exists k, H, T. by rewrite Em.
    + rewrite (pop_ok c k H T _ m Rc d ms) by (done || lia). simpl.
      rewrite slice_splice_0 by lia. eexists. split; [reflexivity|].
      by eapply consume_sim.
Qed.

Lemma peek_sim s w r s' :
  sim s w -> spec_step Peek s = Some (r, s') ->
  exists w', run_call Peek w = Some (r, w') /\ sim s' w'.
Proof.
  intros Sim. open_sim. pose proof (ring_same _ _ _ _ _ _ _ Same R) as Rc.
  destruct (ff_msgs f) as [|d ms] eqn:Em; intros [= <- <-].
  - rewrite (peek_empty c k H T _ m Rc) by done. simpl.
    eexists. split; [reflexivity|]. split; simpl; try done. exists k, H, T. by rewrite Em.
  - destruct (peek_ok c k H T _ m Rc d ms 0 0 eq_refl) as [-> Hl]. simpl. rewrite Hl. simpl.
    eexists. split; [reflexivity|]. split; simpl; try done. exists k, H, T. by rewrite Em.
Qed.

Lemma release_sim s w r s' :
  sim s w -> spec_step Release s = Some (r, s') ->
  exists w', run_call Release w = Some (r, w') /\ sim s' w'.
Proof.
  intros Sim. open_sim. pose proof (ring_same _ _ _ _ _ _ _ Same R) as Rc.
  case_bool_decide as Hne; [done|]. intros [= <- <-].
  rewrite (release_run c k H T _ m Rc). simpl. eexists. split; [reflexivity|].
  unfold spec_release. destruct (ff_msgs f) as [|d ms] eqn:Em; [done|].
  by eapply consume_sim.
Qed.

Lemma observe_sim cl s w r s' :
  cl ∈ [Used; IsEmpty; IsFull] -> sim s w -> spec_step cl s = Some (r, s') ->
  exists w', run_call cl w = Some (r, w') /\ sim s' w'.
Proof.
  intros Hcl Sim. open_sim. pose proof (ring_same _ _ _ _ _ _ _ Same R) as Rc.
  assert (sim (Spec f rv) (World p c sl m)) as Sim'
    by (split; simpl; try done; by exists k, H, T).
  rewrite !elem_of_cons, elem_of_nil in Hcl.
  destruct Hcl as [->|[->|[->|[]]]]; simpl; intros [= <- <-].
  - rewrite (stats_run c k H T _ m Rc). eauto.
  - rewrite (empty_run c k H T _ m Rc). eauto.
  - rewrite Hb, (full_run p k H T _ m R). eauto.
Qed.

(** Every call the protocol allows returns what the specification says. *)
Lemma call_sim c s w r s' :
  sim s w -> spec_step c s = Some (r, s') ->
  exists w', run_call c w = Some (r, w') /\ sim s' w'.
Proof.
  destruct c; eauto using push_sim, reserve_sim, fill_sim, commit_sim, pop_sim, peek_sim,
    release_sim; apply observe_sim; rewrite !elem_of_cons; tauto.
Qed.

Lemma calls_sim cs s w rs s' :
  sim s w -> spec_steps cs s = Some (rs, s') ->
  exists w', run_calls cs w = Some (rs, w') /\ sim s' w'.
Proof.
  revert s w rs. induction cs as [|c cs IH]; simpl; intros s w rs Sim.
  { intros [= <- <-]. eauto. }
  destruct (spec_step c s) as [[r s1]|] eqn:E1; [|done]. simpl.
  destruct (spec_steps cs s1) as [[rs1 s2]|] eqn:E2; [|done]. intros [= <- <-].
  destruct (call_sim c s w r s1 Sim E1) as (w1 & -> & Sim1).
  destruct (IH s1 w1 rs1 Sim1 E2) as (w2 & Hw & Sim2). simpl. rewrite Hw. simpl. eauto.
Qed.
