(* ===== verification/QueueCorrect.v ===== *)
(** * The queue operations: correctness

    The theorems about Queue.v: the refinement of the whole single-producer
    single-consumer API by the bounded FIFO, the behaviour of each operation on every
    branch, memory safety of the slot addressing, and what happens outside the
    documented protocol. *)

From S2P Require Import Prelude Words Pow2 Memory Layout Fifo Queue Ring Sample Trace.
Local Open Scope Z_scope.

(** ** Definitions: a sample world *)

Definition sample_world : world := World sample_q sample_q 0 sample_two.
Definition sample_spec : spec := Spec (sample_fifo [msg_a; msg_b]) None.

(** A session: full queue, reservation, fill, commit, release, peek, pop. *)
Definition sample_calls : list call :=
  [Push msg_a; Pop 8; Reserve 4; Fill [Byte.x01; Byte.x02]; Commit 2; Peek; Release; Pop 1; Used].

(** What the specification says about it. *)
Definition sample_outcome : list result * spec :=
  default ([], sample_spec) (spec_steps sample_calls sample_spec).

(** ** The whole API *)

Lemma sample_sim : sim sample_spec sample_world.
Proof.
  split; try done. exists 1, 2, 0. split; [apply sample_ring_two|done].
Qed.

(** C5: the queue implements the bounded FIFO.  Take any sequence of calls of a
    producer handle and a consumer handle on one queue, interleaved in any order and
    respecting the documented protocol (the calls on which the specification is
    defined): every call returns the code, data and length the specification gives,
    no call does anything undefined, and the final memory represents the final FIFO.
    The positions are unbounded, so this covers the wrap of the 64-bit indices. *)
Theorem api_implements_fifo cs s w rs s' :
  sim s w -> spec_steps cs s = Some (rs, s') ->
  exists w', run_calls cs w = Some (rs, w') /\ sim s' w'.
Proof. apply calls_sim. Qed.

(** ** Each operation *)

(** C16: [nabd_push] of [len] bytes on every branch.  Too long for a slot: [NABD_TOOBIG];
    full: [NABD_FULL], both without effect; otherwise the message is appended.  The
    header has 16 bits for the length, so what is appended is the first [len mod 2^16]
    bytes: the message itself when [len < 65536], a truncation reported as [NABD_OK]
    otherwise. *)
Theorem push_behaviour q f m d len :
  is_fifo q f m -> 0 <= len <= zlen d ->
  exists r m', nabd_push (Some q) (Some d) len m = Some (err r, m') /\
  if ff_maxlen f <? len then r = NABD_TOOBIG /\ m' = m
  else if ff_bound f <=? zlen (ff_msgs f) then r = NABD_FULL /\ m' = m
  else r = NABD_OK /\ is_fifo q (with_msgs f (ff_msgs f ++ [take (Z.to_nat (u16 len)) d])) m'.
Proof.
  intros (k & H & T & R & Hb & Hx) Hlen. rewrite Hb, Hx. pose proof (r_wf _ _ _ _ _ _ R) as W.
  pose proof (r_count _ _ _ _ _ _ R). pose proof (r_bound _ _ _ _ _ _ R). pose proof (wf_cap _ _ W).
  case_zb.
  { exists NABD_TOOBIG, m. split; [by apply (push_toobig q k H T _ m R)|done]. }
  case_zb.
  { exists NABD_FULL, m. split; [apply (push_full q k H T _ m R); lia|done]. }
  destruct (push_ok q k H T _ m R d len) as (m' & Hp & R'); [done|done|lia|].
  exists NABD_OK, m'. split; [done|]. split; [done|]. by exists k, (H + 1), T.
Qed.

(** C17: [nabd_pop] into a buffer of [cap] bytes on every branch: empty, message longer
    than the buffer (its length is reported and it stays in the queue), and success,
    where exactly the bytes of the oldest message are copied to the front of the
    buffer and it is removed. *)
Theorem pop_behaviour q f m dst :
  is_fifo q f m ->
  exists m', is_fifo q (snd (spec_pop f (zlen dst))) m' /\
    nabd_pop (Some q) (Some dst) (Some (zlen dst)) m =
    Some (match spec_pop f (zlen dst) with
          | (NABD_OK, Some d, _) => (NABD_OK : Z, Some (splice dst 0 d), Some (zlen d))
          | (e, Some d, _) => (e : Z, Some dst, Some (zlen d))
          | (e, None, _) => (e : Z, Some dst, Some (zlen dst))
          end, m').
Proof. apply pop_refines. Qed.

(** C18: zero-copy publication.  With no slot reserved and room, [nabd_reserve] returns a
    pointer to the payload of a free slot and keeps the queue as it was; whatever the
    caller then writes through the pointer inside the payload, [nabd_commit] appends
    exactly the first [len] bytes of it as one message, and the handle has no slot
    reserved again.  [len] need not be the length reserved, and its low 16 bits are
    used. *)
Theorem reserve_then_commit q f m len p0 :
  is_fifo q f m -> q_reserved q = 0 -> len <= ff_maxlen f -> zlen (ff_msgs f) < ff_bound f ->
  exists h p, nabd_reserve (Some q) len (Some p0) m = Some (NABD_OK : Z, Some h, Some p, m) /\
  is_fifo h f m /\ in_mem m p (ff_maxlen f) /\
  forall m1 len2, frame p (ff_maxlen f) m m1 -> 0 <= len2 <= ff_maxlen f ->
  exists h' m', nabd_commit (Some h) len2 m1 = Some (NABD_OK : Z, Some h', m') /\
  q_reserved h' = 0 /\ is_fifo h' (with_msgs f (ff_msgs f ++ [slice m1 p (u16 len2)])) m'.
Proof.
  intros (k & H & T & R & Hb & Hx) Hres Hlen Hroom. rewrite Hb, Hx in *.
  pose proof (r_wf _ _ _ _ _ _ R) as W. pose proof (slot_range q k W H) as Hr.
  pose proof (wf_slot _ _ W) as Hs. pose proof (r_len _ _ _ _ _ _ R) as Hl.
  eexists _, _. split; [by apply (reserve_ok q k H T _ m R)|]. split.
  { exists k, H, T. split; [by apply ring_set_reserved|done]. }
  split; [unfold in_mem, SIZEOF_CONTROL, SIZEOF_HEADER in *; lia|].
  intros m1 len2 Hf Hlen2.
  destruct (commit_ok (set_reserved q 1 (u64 H)) k H T (ff_msgs f) m m1 len2)
    as (m' & Hc & R'); [by apply ring_set_reserved|done|done|done|done|done|].
  eexists _, m'. split; [exact Hc|]. split; [done|]. exists k, (H + 1), T.
  split; [by apply ring_set_reserved|done].
Qed.

(** The errors of the zero-copy calls: a second reservation, and a commit without
    one, are refused with [NABD_INVALID]; a reservation longer than a slot with
    [NABD_TOOBIG], one in a full queue with [NABD_FULL]; none changes the memory or
    the handle. *)
Theorem reserve_commit_errors q f m len p0 :
  is_fifo q f m ->
  (q_reserved q <> 0 ->
     nabd_reserve (Some q) len (Some p0) m = Some (NABD_INVALID : Z, Some q, Some p0, m)) /\
  (q_reserved q = 0 -> nabd_commit (Some q) len m = Some (NABD_INVALID : Z, Some q, m)) /\
  (q_reserved q = 0 -> ff_maxlen f < len ->
     nabd_reserve (Some q) len (Some p0) m = Some (NABD_TOOBIG : Z, Some q, Some p0, m)) /\
  (q_reserved q = 0 -> len <= ff_maxlen f -> zlen (ff_msgs f) = ff_bound f ->
     nabd_reserve (Some q) len (Some p0) m = Some (NABD_FULL : Z, Some q, Some p0, m)).
Proof.
  intros (k & H & T & R & Hb & Hx). rewrite Hb, Hx. split_and!.
  - intros Hr. unfold nabd_reserve. by zb_false (q_reserved q =? 0).
  - intros Hr. unfold nabd_commit. by zb_true (q_reserved q =? 0).
  - intros Hr Hl. by apply (reserve_toobig q k H T _ m R).
  - intros Hr Hl Hfull. by apply (reserve_full q k H T _ m R).
Qed.

(** The slot of the last message rewritten, and [head] stored as it was. *)
Lemma ring_rewrite_last q k H T ms d d' m m1 :
  ring q k (H + 1) T (ms ++ [d]) m ->
  frame (slot_off q k H) (q_slot_size q) m m1 -> holds q k m1 H d' ->
  ring q k (H + 1) T (ms ++ [d']) (wr 8 m1 OFF_HEAD (u64 (H + 1))).
Proof.
  intros R Hf Hh. pose proof (r_wf _ _ _ _ _ _ R) as W.
  pose proof (r_count _ _ _ _ _ _ R) as Hc. pose proof (slot_range q k W H) as HsH.
  pose proof (r_bound _ _ _ _ _ _ R) as Hbd. pose proof (pow_k _ _ W) as Hp.
  rewrite zlen_app in Hc. change (zlen [d]) with 1 in Hc.
  assert (in_mem m1 OFF_HEAD 8) as Hin.
  { destruct (ring_in_control _ _ _ _ _ _ R OFF_HEAD 8) as (? & ? & ?);
      unfold in_mem, OFF_HEAD, SIZEOF_CONTROL in *; rewrite ?(frame_len _ _ _ _ Hf); lia. }
  assert (frame OFF_HEAD 8 m1 (wr 8 m1 OFF_HEAD (u64 (H + 1)))) as Hf' by (apply frame_wr; done).
  unfold SIZEOF_CONTROL, OFF_HEAD, OFF_TAIL in *. split; try done.
  - rewrite (frame_len _ _ _ _ Hf'), (frame_len _ _ _ _ Hf). apply (r_len _ _ _ _ _ _ R).
  - eapply control_frame; [exact Hf'|unfold OFF_HEAD; lia|].
    eapply control_frame; [exact Hf|unfold OFF_HEAD; lia|]. apply (r_control _ _ _ _ _ _ R).
  - unfold OFF_HEAD. rewrite rd_wr_same by done. apply Zmod_mod.
  - unfold OFF_TAIL. rewrite (frame_rd _ _ _ _ _ _ Hf') by lia.
    rewrite (frame_rd _ _ _ _ _ _ Hf) by lia. apply (r_tail _ _ _ _ _ _ R).
  - rewrite zlen_app. change (zlen [d']) with 1. lia.
  - intros i e Hi. eapply holds_frame; [done|exact Hf'| |].
    2: { pose proof (slot_range q k W (T + Z.of_nat i)). unfold SIZEOF_CONTROL in *. lia. }
    apply lookup_app_Some in Hi as [Hi|[Hge Hi]].
    + eapply holds_frame; [done|exact Hf|apply (r_msgs _ _ _ _ _ _ R); by apply lookup_app_l_Some|].
      apply lookup_lt_Some in Hi. unfold zlen in *.
      apply slot_disjoint; [done|]. apply mod_distinct; lia.
    + apply list_lookup_singleton_Some in Hi as [Hi <-].
      replace (T + Z.of_nat i) with H by (unfold zlen in *; lia). done.
Qed.

(** A push between a reserve and its commit uses the reserved slot: both calls report
    [NABD_OK], but one message is in the queue, the first [len] bytes of the pushed one. *)
Theorem push_during_reservation q f m len d p0 :
  is_fifo q f m -> q_reserved q = 0 -> zlen (ff_msgs f) < ff_bound f ->
  0 <= len <= zlen d -> zlen d <= ff_maxlen f -> zlen d < 2 ^ 16 ->
  exists h p m1 h' m2, nabd_reserve (Some q) len (Some p0) m = Some (NABD_OK : Z, Some h, Some p, m) /\
    nabd_push (Some h) (Some d) (zlen d) m = Some (NABD_OK : Z, m1) /\
    nabd_commit (Some h) len m1 = Some (NABD_OK : Z, Some h', m2) /\
    is_fifo h' (with_msgs f (ff_msgs f ++ [take (Z.to_nat len) d])) m2.
Proof.
  intros (k & H & T & R & Hb & Hx) Hres Hroom Hlen Hfit H16. rewrite Hb, Hx in *.
  pose proof (r_wf _ _ _ _ _ _ R) as W. pose proof (wf_slot _ _ W) as Hss.
  pose proof (ring_set_reserved _ _ _ _ _ _ 1 (u64 H) R) as Rh.
  set (h := set_reserved q 1 (u64 H)) in *. pose proof (r_wf _ _ _ _ _ _ Rh) as Wh.
  change (q_slot_size q) with (q_slot_size h) in *. change (q_capacity q) with (q_capacity h) in *.
  destruct (push_ok h k H T _ m Rh d (zlen d)) as (m1 & Ep & R1); [lia|done|done|].
  rewrite u16_small in R1 by lia. rewrite (take_ge d) in R1 by (unfold zlen; lia).
  pose proof (r_count _ _ _ _ _ _ R1) as Hc.
  assert (holds h k m1 H d) as Hh.
  { pose proof (r_msgs _ _ _ _ _ _ R1 (length (ff_msgs f)) d) as Hm.
    rewrite zlen_app in Hc. change (zlen [d]) with 1 in Hc.
    replace H with (T + Z.of_nat (length (ff_msgs f))) by (unfold zlen in *; lia).
    apply Hm. by apply list_lookup_middle. }
  assert (in_mem m1 (slot_off h k H) (q_slot_size h)) as Hin
    by (apply (ring_in_slot h k _ T _ m1 R1 H); unfold SIZEOF_HEADER in *; lia).
  destruct (fill_header_spec m1 (slot_off h k H) len (u64 H)) as (m2 & E2 & Hf2 & H1 & H2 & H3).
  { unfold in_mem, SIZEOF_HEADER in *. lia. }
  rewrite u32_u64 in H3.
  assert (frame (slot_off h k H) (q_slot_size h) m1 m2) as Hf
    by (eapply frame_mono; [| |exact Hf2]; unfold SIZEOF_HEADER in *; lia).
  assert (holds h k m2 H (take (Z.to_nat (u16 len)) (take (Z.to_nat len) d))) as Hh2.
  { assert (zlen (take (Z.to_nat len) d) = len) as Hz by (unfold zlen in *; rewrite length_take; lia).
    apply (holds_written h k m1); try done; rewrite ?Hz; try (unfold SIZEOF_HEADER in *; lia).
    rewrite take_take, Nat.min_id. pose proof (h_data _ _ _ _ _ Hh) as Hd.
    apply (f_equal (take (Z.to_nat len))) in Hd. revert Hd. unfold slice, zlen in *.
    rewrite take_take, Nat.min_l by lia. done. }
  rewrite u16_small, take_take, Nat.min_id in Hh2 by lia.
  exists h, (slot_off q k H + SIZEOF_HEADER), m1, (set_reserved h 0 (u64 H)). eexists.
  split; [apply (reserve_ok q k H T _ m R); [done|change (q_slot_size q) with (q_slot_size h); lia|done]|].
  split; [exact Ep|]. split.
  - unfold nabd_commit, get_slot_header. cbn [h q_reserved q_reserve_pos set_reserved].
    change (1 =? 0) with false. cbv iota. change (get_slot _ (u64 H)) with (get_slot h (u64 H)).
    rewrite (get_slot_off h k Wh), (bind_ret _ _ _ _ _ E2).
    erewrite bind_ret; [reflexivity|]. apply st_in.
    destruct (ring_in_control _ _ _ _ _ _ R1 OFF_HEAD 8) as (? & ? & ?);
      unfold in_mem, OFF_HEAD, SIZEOF_CONTROL in *; rewrite ?(frame_len _ _ _ _ Hf2); lia.
  - exists k, (H + 1), T. split; [|done]. rewrite add64_u64_l. apply ring_set_reserved.
    by apply (ring_rewrite_last h k H T _ d _ m1).
Qed.

(** [nabd_commit] does not compare the length with the slot: a longer one is published
    with [NABD_OK], and the pop of that message returns the bytes of the following slots
    as its end. *)
Theorem commit_exceeds_slot q k H m len dst :
  ring q k H H [] m -> q_reserved q <> 0 -> q_reserve_pos q = u64 H ->
  q_slot_size q - SIZEOF_HEADER < len < 2 ^ 16 ->
  slot_off q k H + SIZEOF_HEADER + len <= zlen m -> len <= zlen dst ->
  exists h' m1 m2, nabd_commit (Some q) len m = Some (NABD_OK : Z, Some h', m1) /\
    nabd_pop (Some h') (Some dst) (Some (zlen dst)) m1
    = Some (NABD_OK : Z, Some (splice dst 0 (slice m (slot_off q k H + SIZEOF_HEADER) len)), Some len, m2).
Proof.
  intros R Hres Hpos Hlen Hin Hdst. pose proof (r_wf _ _ _ _ _ _ R) as W.
  pose proof (slot_range q k W H) as Hr. pose proof (wf_slot _ _ W) as Hss. pose proof (pow_k _ _ W).
  unfold SIZEOF_CONTROL, SIZEOF_HEADER in *. set (so := slot_off q k H) in *.
  destruct (fill_header_spec m so len (u64 H)) as (m1 & E1 & Hf1 & H1 & _).
  { unfold in_mem, SIZEOF_HEADER. lia. }
  unfold SIZEOF_HEADER in Hf1.
  set (m2 := wr 8 m1 OFF_HEAD (add64 (u64 H) 1)).
  assert (in_mem m1 OFF_HEAD 8) as Hin1 by (unfold in_mem, OFF_HEAD; rewrite (frame_len _ _ _ _ Hf1); lia).
  assert (frame OFF_HEAD 8 m1 m2) as Hf2 by (by apply frame_wr).
  assert (zlen m2 = zlen m) as Hz by (by rewrite (frame_len _ _ _ _ Hf2), (frame_len _ _ _ _ Hf1)).
  assert (ld 8 OFF_TAIL m2 = Some (u64 H, m2)) as Et.
  { pose proof (r_tail _ _ _ _ _ _ R) as Ht. unfold OFF_TAIL, OFF_HEAD in *.
    rewrite ld_in by (unfold in_mem; lia).
    by rewrite (frame_rd _ _ _ _ _ _ Hf2), (frame_rd _ _ _ _ _ _ Hf1), Ht by lia. }
  assert (ld 8 OFF_HEAD m2 = Some (u64 (H + 1), m2)) as Eh.
  { rewrite ld_in by (unfold in_mem, OFF_HEAD; lia). unfold m2. rewrite rd_wr_same by done.
    rewrite add64_u64_l. do 2 f_equal. apply Zmod_mod. }
  exists (set_reserved q 0 (u64 H)), m2. eexists. split.
  - unfold nabd_commit, get_slot_header. zb_false (q_reserved q =? 0).
    rewrite Hpos, (get_slot_off q k W). fold so. rewrite (bind_ret _ _ _ _ _ E1).
    erewrite bind_ret; [reflexivity|by apply st_in].
  - unfold nabd_pop. rewrite (bind_ret _ _ _ _ _ Et), (bind_ret _ _ _ _ _ Eh).
    rewrite u64_eq_close by lia. zb_false (H =? H + 1). cbv zeta.
    change (get_slot _ (u64 H)) with (get_slot q (u64 H)). rewrite (get_slot_off q k W). fold so.
    erewrite bind_ret.
    2: { apply ld_in. unfold in_mem, HDR_LENGTH. lia. }
    unfold OFF_HEAD, HDR_LENGTH in *.
    rewrite (frame_rd _ _ _ _ _ _ Hf2), H1, u16_small by lia. zb_false (zlen dst <? len).
    erewrite bind_ret.
    2: { apply memcpy_out_in; [done|]. unfold in_mem, SIZEOF_HEADER. lia. }
    unfold SIZEOF_HEADER. rewrite (proj2 Hf2), (proj2 Hf1) by lia.
    erewrite bind_ret; [reflexivity|]. apply st_in. unfold in_mem, OFF_TAIL. lia.
Qed.

(** [nabd_peek] and [nabd_release] together are [nabd_pop]: the pointer returned
    reads the oldest message, peeking changes nothing, and releasing then leaves the
    same memory as popping it. *)
Theorem peek_release_is_pop q f m d ms dst p0 l0 :
  is_fifo q f m -> ff_msgs f = d :: ms -> zlen d <= zlen dst ->
  exists p m', nabd_peek (Some q) (Some p0) (Some l0) m = Some (NABD_OK : Z, Some p, Some (zlen d), m) /\
  load p (zlen d) m = Some (d, m) /\
  nabd_release (Some q) m = Some (NABD_OK : Z, m') /\
  nabd_pop (Some q) (Some dst) (Some (zlen dst)) m
  = Some (NABD_OK : Z, Some (splice dst 0 d), Some (zlen d), m') /\
  is_fifo q (with_msgs f ms) m'.
Proof.
  intros (k & H & T & R & Hb & Hx) Hm Hd. rewrite Hm in R.
  destruct (peek_ok q k H T _ m R d ms p0 l0 eq_refl) as [Hp Hl].
  eexists _, _. split; [exact Hp|]. split; [exact Hl|].
  split; [by eapply release_run|]. split; [by eapply pop_ok|].
  exists k, H, (T + 1). split; [by apply (ring_consume q k H T d)|done].
Qed.

(** The observers report the FIFO: [nabd_stats] the number of messages and the
    geometry, [nabd_empty] and [nabd_full] the two extreme fillings. *)
Theorem observers_report_fifo q f m s0 :
  is_fifo q f m ->
  (exists h t, nabd_stats (Some q) (Some s0) m
   = Some (NABD_OK : Z, Some (NabdStats h t (ff_bound f) (zlen (ff_msgs f)) (q_slot_size q)), m)) /\
  nabd_empty (Some q) m = Some (if decide (ff_msgs f = []) then 1 else 0, m) /\
  nabd_full (Some q) m = Some (if decide (zlen (ff_msgs f) = ff_bound f) then 1 else 0, m).
Proof.
  intros (k & H & T & R & Hb & Hx). rewrite Hb. split_and!.
  - eexists _, _. by apply (stats_run q k H T _ m R).
  - rewrite (empty_run q k H T _ m R). by case_bool_decide; case_decide.
  - rewrite (full_run q k H T _ m R). pose proof (r_bound _ _ _ _ _ _ R).
    pose proof (r_count _ _ _ _ _ _ R). rewrite <- (wf_cap _ _ (r_wf _ _ _ _ _ _ R)) in *.
    case_decide; [by zb_true (q_capacity q <=? zlen (ff_msgs f))|].
    by zb_false (q_capacity q <=? zlen (ff_msgs f)).
Qed.

(** ** Memory safety *)

(** Slot addressing.  For any 64-bit index the slot computed by [get_slot] lies
    entirely in the ring area after the control block, and two positions less than a
    capacity apart have disjoint slots, also across the wrap of the index. *)
Theorem slots_in_bounds_and_disjoint q k i j :
  wf_handle q k -> i < j < i + q_capacity q ->
  SIZEOF_CONTROL <= get_slot q (u64 i) /\
  get_slot q (u64 i) + q_slot_size q <= SIZEOF_CONTROL + q_capacity q * q_slot_size q /\
  (get_slot q (u64 i) + q_slot_size q <= get_slot q (u64 j) \/
   get_slot q (u64 j) + q_slot_size q <= get_slot q (u64 i)).
Proof.
  intros W Hij. rewrite !(get_slot_off q k W). rewrite (wf_cap _ _ W) in *.
  destruct (slot_range q k W i). split_and!; [done|done|].
  apply slot_disjoint; [done|]. apply mod_distinct; [apply (pow_k _ _ W)|done].
Qed.

(** Null arguments.  Every operation called with a null handle, or with a null
    buffer, length or output pointer, returns [NABD_INVALID] and touches nothing. *)
Theorem null_arguments_rejected m q d len buf l p s :
  nabd_push None d len m = Some (NABD_INVALID : Z, m) /\
  nabd_push q None len m = Some (NABD_INVALID : Z, m) /\
  nabd_reserve None len p m = Some (NABD_INVALID : Z, None, p, m) /\
  nabd_reserve q len None m = Some (NABD_INVALID : Z, q, None, m) /\
  nabd_commit None len m = Some (NABD_INVALID : Z, None, m) /\
  nabd_pop None buf l m = Some (NABD_INVALID : Z, buf, l, m) /\
  nabd_pop q None l m = Some (NABD_INVALID : Z, None, l, m) /\
  nabd_pop q buf None m = Some (NABD_INVALID : Z, buf, None, m) /\
  nabd_peek None p l m = Some (NABD_INVALID : Z, p, l, m) /\
  nabd_peek q None l m = Some (NABD_INVALID : Z, None, l, m) /\
  nabd_peek q p None m = Some (NABD_INVALID : Z, p, None, m) /\
  nabd_release None m = Some (NABD_INVALID : Z, m) /\
  nabd_stats None s m = Some (NABD_INVALID : Z, s, m) /\
  nabd_stats q None m = Some (NABD_INVALID : Z, None, m) /\
  nabd_empty None m = Some (NABD_INVALID : Z, m) /\
  nabd_full None m = Some (NABD_INVALID : Z, m).
Proof.
  split_and!; try done; destruct q; try done; by destruct buf, p.
Qed.

(** ** Outside the protocol *)

(** [nabd_release] does not check that there is a message.  On an empty queue it
    moves [tail] past [head]: from then on the queue looks non-empty to the consumer
    and full to the producer, whose pushes all fail. *)
Theorem release_on_empty_breaks_queue q f m d :
  is_fifo q f m -> ff_msgs f = [] -> zlen d <= ff_maxlen f ->
  exists m', nabd_release (Some q) m = Some (NABD_OK : Z, m') /\
  nabd_empty (Some q) m' = Some (0, m') /\
  nabd_push (Some q) (Some d) (zlen d) m' = Some (NABD_FULL : Z, m').
Proof.
  intros (k & H & T & R & Hb & Hx) Hm Hd. rewrite Hx in Hd. rewrite Hm in R.
  pose proof (r_wf _ _ _ _ _ _ R) as W. pose proof (pow_k _ _ W) as Hpk.
  assert (H = T) as -> by (pose proof (r_count _ _ _ _ _ _ R) as Hc; unfold zlen in Hc; simpl in Hc; lia).
  assert (forall off, 0 <= off -> off + 8 <= SIZEOF_CONTROL -> in_mem m off 8) as Hin
    by (intros; eapply ring_in_control; [exact R|lia..]).
  unfold SIZEOF_CONTROL in Hin. set (m' := wr 8 m OFF_TAIL (add64 (u64 T) 1)).
  assert (zlen m' = zlen m) as Hl by (apply zlen_wr, Hin; unfold OFF_TAIL; lia).
  assert (ld 8 OFF_TAIL m' = Some (u64 (T + 1), m')) as Et.
  { unfold OFF_TAIL. rewrite ld_in by (unfold in_mem; rewrite Hl; apply Hin; lia).
    unfold m', OFF_TAIL. rewrite rd_wr_same by (apply Hin; lia). rewrite add64_u64_l.
    do 2 f_equal. apply Z.mod_small, u64_range. }
  assert (ld 8 OFF_HEAD m' = Some (u64 T, m')) as Eh.
  { unfold OFF_HEAD. rewrite ld_in by (unfold in_mem; rewrite Hl; apply Hin; lia).
    unfold m', OFF_TAIL. rewrite rd_wr by (lia || apply Hin; lia).
    do 2 f_equal. apply (r_head _ _ _ _ _ _ R). }
  exists m'. split; [by eapply release_run|]. split.
  - unfold nabd_empty. rewrite (bind_ret _ _ _ _ _ Et), (bind_ret _ _ _ _ _ Eh).
    rewrite Z.eqb_sym, u64_eq_close by lia. by zb_false (T =? T + 1).
  - unfold nabd_push. rewrite (max_payload_eq q k W).
    zb_false (q_slot_size q - SIZEOF_HEADER <? zlen d).
    rewrite (bind_ret _ _ _ _ _ Eh), (bind_ret _ _ _ _ _ Et), sub64_u64.
    replace (T - (T + 1)) with (-1) by lia. change (u64 (-1)) with (2 ^ 64 - 1).
    rewrite (wf_cap _ _ W). by zb_true (2 ^ k <=? 2 ^ 64 - 1).
Qed.

(** ** Witnesses *)

Lemma api_implements_fifo_witness :
  (exists w', run_calls sample_calls sample_world = Some (fst sample_outcome, w') /\
              sim (snd sample_outcome) w') /\
  map res_code (fst sample_outcome) = [-2; 0; 0; 0; 0; 0; 0; -7; 0].
Proof.
  split; [|vm_compute; reflexivity].
  apply (api_implements_fifo sample_calls sample_spec sample_world (fst sample_outcome)
           (snd sample_outcome) sample_sim).
  vm_compute. reflexivity.
Defined.

Lemma push_behaviour_witness :
  exists r m', nabd_push (Some sample_q) (Some msg_b) 1 sample_mem = Some (err r, m') /\
  r = NABD_OK /\ is_fifo sample_q (sample_fifo [[Byte.x62]]) m'.
Proof. apply (push_behaviour sample_q (sample_fifo []) sample_mem msg_b 1 sample_is_fifo). vm_compute. split; congruence. Defined.

Lemma pop_behaviour_witness :
  exists m', is_fifo sample_q (sample_fifo [msg_b]) m' /\
  nabd_pop (Some sample_q) (Some [Byte.x00; Byte.x01]) (Some 2) sample_two
  = Some (0, Some [Byte.x61; Byte.x01], Some 1, m').
Proof. apply (pop_behaviour sample_q (sample_fifo [msg_a; msg_b]) sample_two [Byte.x00; Byte.x01] sample_is_fifo_two). Defined.

Lemma reserve_then_commit_witness :
  exists h p, nabd_reserve (Some sample_q) 4 (Some 0) sample_mem = Some (0, Some h, Some p, sample_mem).
Proof.
  destruct (reserve_then_commit sample_q (sample_fifo []) sample_mem 4 0 sample_is_fifo) as (h & p & E & _);
    [reflexivity|vm_compute; congruence|reflexivity|]. by exists h, p.
Defined.

Lemma reserve_commit_errors_witness :
  nabd_commit (Some sample_q) 4 sample_two = Some (-4, Some sample_q, sample_two) /\
  nabd_reserve (Some sample_q) 4 (Some 0) sample_two = Some (-2, Some sample_q, Some 0, sample_two).
Proof.
  destruct (reserve_commit_errors sample_q (sample_fifo [msg_a; msg_b]) sample_two 4 0 sample_is_fifo_two)
    as (_ & H1 & _ & H2).
  split; [by apply H1|]. apply H2; [reflexivity|vm_compute; congruence|reflexivity].
Defined.

Lemma peek_release_is_pop_witness :
  exists p m', nabd_peek (Some sample_q) (Some 0) (Some 0) sample_two = Some (0, Some p, Some 1, sample_two) /\
  load p 1 sample_two = Some (msg_a, sample_two) /\ nabd_release (Some sample_q) sample_two = Some (0, m').
Proof.
  destruct (peek_release_is_pop sample_q (sample_fifo [msg_a; msg_b]) sample_two msg_a [msg_b]
              [Byte.x00] 0 0 sample_is_fifo_two eq_refl) as (p & m' & H1 & H2 & H3 & _);
    [vm_compute; congruence|].
  exists p, m'. change (zlen msg_a) with 1 in *. split_and!; assumption.
Defined.

Lemma observers_report_fifo_witness :
  nabd_empty (Some sample_q) sample_two = Some (0, sample_two) /\
  nabd_full (Some sample_q) sample_two = Some (1, sample_two).
Proof.
  apply (observers_report_fifo sample_q (sample_fifo [msg_a; msg_b]) sample_two
           (NabdStats 0 0 0 0 0) sample_is_fifo_two).
Defined.

Lemma slots_in_bounds_and_disjoint_witness :
  get_slot sample_q (u64 (2 ^ 64 - 1)) + 16 <= get_slot sample_q (u64 (2 ^ 64)) \/
  get_slot sample_q (u64 (2 ^ 64)) + 16 <= get_slot sample_q (u64 (2 ^ 64 - 1)).
Proof.
  apply (slots_in_bounds_and_disjoint sample_q 1 (2 ^ 64 - 1) (2 ^ 64) sample_wf).
  vm_compute. split; congruence.
Defined.

Lemma release_on_empty_breaks_queue_witness :
  exists m', nabd_release (Some sample_q) sample_mem = Some (0, m') /\
  nabd_empty (Some sample_q) m' = Some (0, m') /\
  nabd_push (Some sample_q) (Some msg_a) 1 m' = Some (-2, m').
Proof.
  apply (release_on_empty_breaks_queue sample_q (sample_fifo []) sample_mem msg_a sample_is_fifo);
    [reflexivity|vm_compute; congruence].
Defined.

Lemma push_during_reservation_witness :
  exists h p m1 h' m2, nabd_reserve (Some sample_q) 1 (Some 0) sample_mem = Some (0, Some h, Some p, sample_mem) /\
    nabd_push (Some h) (Some msg_b) 2 sample_mem = Some (0, m1) /\
    nabd_commit (Some h) 1 m1 = Some (0, Some h', m2).
Proof.
  destruct (push_during_reservation sample_q (sample_fifo []) sample_mem 1 msg_b 0 sample_is_fifo)
    as (h & p & m1 & h' & m2 & H1 & H2 & H3 & _); [done|done|vm_compute; split; discriminate|vm_compute; discriminate|done|].
  exists h, p, m1, h', m2. split; [exact H1|]. split; [exact H2|exact H3].
Defined.

(** Ten bytes committed in a slot with room for eight. *)
Lemma commit_exceeds_slot_witness :
  exists h' m1 m2, nabd_commit (Some (set_reserved sample_q 1 0)) 10 sample_mem = Some (0, Some h', m1) /\
    nabd_pop (Some h') (Some (replicate 10 Byte.x00)) (Some 10) m1
    = Some (0, Some (splice (replicate 10 Byte.x00) 0 (slice sample_mem 264 10)), Some 10, m2).
Proof.
  destruct (commit_exceeds_slot (set_reserved sample_q 1 0) 1 0 sample_mem 10 (replicate 10 Byte.x00))
    as (h' & m1 & m2 & H1 & H2).
  - apply ring_set_reserved, sample_ring.
  - done.
  - done.
  - vm_compute. split; reflexivity.
  - vm_compute. discriminate.
  - vm_compute. discriminate.
  - exists h', m1, m2. split; [exact H1|exact H2].
Defined.
