(* ===== verification/Posix.v ===== *)
(** * The operating system interface

    The library keeps its queues in POSIX shared memory.  [shm_open],
    [shm_unlink], [ftruncate], [mmap], [munmap], [close], [clock_gettime] and the
    allocator are not part of the repository, so they are a parameter: the class
    [Posix] has one operation per function, on the part of the system's state the
    library can observe, and [PosixLaws] states the documented behaviour the code
    relies on.  A call may fail for a reason its arguments give it (a name that is
    taken or missing, a length out of range), or because the system refuses a valid
    request (no memory, no permission, a limit reached); the second kind is counted
    in a ghost field, so that a theorem can say that a program fails only where the
    system refused it something.  A failed call changes nothing else but [errno].
    [SimplePosix] is a concrete system with a switch for each refusal; it shows
    that the laws can hold and is what the witnesses run on. *)

From S2P Require Import Prelude Words Memory.
From stdpp Require Export gmap strings.
Local Open Scope Z_scope.

(** ** Observable state *)

Record sys := Sys {
  s_shm : gmap string nat;        (* the names in /dev/shm *)
  s_obj : gmap nat mem;           (* the shared memory objects *)
  s_fd : gmap Z nat;              (* open descriptors of the process *)
  s_map : gmap Z (nat * Z);       (* mappings: address -> object, length *)
  s_heap : gmap Z (option string);(* live heap blocks (strings for strdup) *)
  s_errno : Z;
  s_refused : nat                 (* ghost: valid requests refused so far *)
}.

Definition set_errno (e : Z) (s : sys) : sys :=
  Sys (s_shm s) (s_obj s) (s_fd s) (s_map s) (s_heap s) e (s_refused s).
Definition set_shm (x : gmap string nat) (s : sys) : sys :=
  Sys x (s_obj s) (s_fd s) (s_map s) (s_heap s) (s_errno s) (s_refused s).
Definition set_obj (o : nat) (b : mem) (s : sys) : sys :=
  Sys (s_shm s) (<[o := b]> (s_obj s)) (s_fd s) (s_map s) (s_heap s) (s_errno s) (s_refused s).
Definition set_fd (x : gmap Z nat) (s : sys) : sys :=
  Sys (s_shm s) (s_obj s) x (s_map s) (s_heap s) (s_errno s) (s_refused s).
Definition set_map (x : gmap Z (nat * Z)) (s : sys) : sys :=
  Sys (s_shm s) (s_obj s) (s_fd s) x (s_heap s) (s_errno s) (s_refused s).
Definition set_heap (x : gmap Z (option string)) (s : sys) : sys :=
  Sys (s_shm s) (s_obj s) (s_fd s) (s_map s) x (s_errno s) (s_refused s).

(** A request that was valid and is refused with error [e]. *)
Definition refuse (e : Z) (s : sys) : sys :=
  Sys (s_shm s) (s_obj s) (s_fd s) (s_map s) (s_heap s) e (S (s_refused s)).

(** Between [s] and [s'], the system refused at least one valid request; none. *)
Definition refusal (s s' : sys) : Prop := (s_refused s < s_refused s')%nat.
Definition no_refusal (s s' : sys) : Prop := s_refused s' = s_refused s.

(** ** Constants (Linux) *)

Definition EPERM : Z := 1.
Definition ENOENT : Z := 2.
Definition EBADF : Z := 9.
Definition ENOMEM : Z := 12.
Definition EEXIST : Z := 17.
Definition EINVAL : Z := 22.
Definition O_RDONLY : Z := 0.
Definition O_RDWR : Z := 2.
Definition O_CREAT : Z := 64.
Definition O_EXCL : Z := 128.

Definition has_flag (flags f : Z) : bool := negb (Z.land flags f =? 0).

(** ** The operations *)

Class Posix := {
  shm_open : string -> Z -> sys -> Z * sys;       (* descriptor, or -1 *)
  shm_unlink : string -> sys -> Z * sys;          (* 0 or -1 *)
  ftruncate : Z -> Z -> sys -> Z * sys;           (* 0 or -1 *)
  mmap : Z -> Z -> sys -> option Z * sys;         (* length, fd; None is MAP_FAILED *)
  munmap : Z -> Z -> sys -> sys;
  close : Z -> sys -> sys;
  calloc : sys -> option Z * sys;                 (* None is NULL *)
  strdup : string -> sys -> option Z * sys;
  free : Z -> sys -> sys
}.

(** ** Documented behaviour *)

Inductive shm_open_ok (name : string) (flags : Z) (s : sys) : Z -> sys -> Prop :=
  | shm_open_refuses e :
      e <> EEXIST -> shm_open_ok name flags s (-1) (refuse e s)
  | shm_open_excludes o :
      s_shm s !! name = Some o -> has_flag flags O_CREAT = true -> has_flag flags O_EXCL = true ->
      shm_open_ok name flags s (-1) (set_errno EEXIST s)
  | shm_open_missing :
      s_shm s !! name = None -> has_flag flags O_CREAT = false ->
      shm_open_ok name flags s (-1) (set_errno ENOENT s)
  | shm_open_existing fd o :
      s_shm s !! name = Some o -> has_flag flags O_EXCL = false ->
      0 <= fd -> s_fd s !! fd = None ->
      shm_open_ok name flags s fd (set_fd (<[fd := o]> (s_fd s)) s)
  | shm_open_creates fd o :
      s_shm s !! name = None -> has_flag flags O_CREAT = true -> s_obj s !! o = None ->
      0 <= fd -> s_fd s !! fd = None ->
      shm_open_ok name flags s fd
        (set_fd (<[fd := o]> (s_fd s)) (set_obj o [] (set_shm (<[name := o]> (s_shm s)) s))).

Inductive shm_unlink_ok (name : string) (s : sys) : Z -> sys -> Prop :=
  | shm_unlink_refuses e : shm_unlink_ok name s (-1) (refuse e s)
  | shm_unlink_missing :
      s_shm s !! name = None -> shm_unlink_ok name s (-1) (set_errno ENOENT s)
  | shm_unlink_removes o :
      s_shm s !! name = Some o ->
      shm_unlink_ok name s 0 (set_shm (delete name (s_shm s)) s).

(** A descriptor that is open, with a length [ftruncate] or [mmap] accepts. *)
Definition truncatable (fd len : Z) (s : sys) : Prop :=
  is_Some (s_fd s !! fd) /\ 0 <= len < 2 ^ 63.
Definition mappable (len fd : Z) (s : sys) : Prop := is_Some (s_fd s !! fd) /\ 0 < len.

Inductive ftruncate_ok (fd len : Z) (s : sys) : Z -> sys -> Prop :=
  | ftruncate_refuses e : ftruncate_ok fd len s (-1) (refuse e s)
  | ftruncate_invalid e :
      ~ truncatable fd len s -> ftruncate_ok fd len s (-1) (set_errno e s)
  | ftruncate_resizes o b :
      s_fd s !! fd = Some o -> s_obj s !! o = Some b -> 0 <= len < 2 ^ 63 ->
      ftruncate_ok fd len s 0 (set_obj o (resize (Z.to_nat len) Byte.x00 b) s).

Inductive mmap_ok (len fd : Z) (s : sys) : option Z -> sys -> Prop :=
  | mmap_refuses e : mmap_ok len fd s None (refuse e s)
  | mmap_invalid e : ~ mappable len fd s -> mmap_ok len fd s None (set_errno e s)
  | mmap_maps a o :
      s_fd s !! fd = Some o -> 0 < len -> a <> 0 -> s_map s !! a = None ->
      mmap_ok len fd s (Some a) (set_map (<[a := (o, len)]> (s_map s)) s).

(** [munmap] of a whole mapping removes it.  Nothing is promised for another length:
    a part of the mapping may stay, and only mappings and [errno] change. *)
Inductive munmap_ok (a len : Z) (s : sys) : sys -> Prop :=
  | munmap_whole o :
      s_map s !! a = Some (o, len) -> munmap_ok a len s (set_map (delete a (s_map s)) s)
  | munmap_other mp e :
      (forall o, s_map s !! a <> Some (o, len)) -> munmap_ok a len s (set_map mp (set_errno e s)).

Inductive alloc_ok (contents : option string) (s : sys) : option Z -> sys -> Prop :=
  | alloc_refuses e : alloc_ok contents s None (refuse e s)
  | alloc_block p :
      p <> 0 -> s_heap s !! p = None ->
      alloc_ok contents s (Some p) (set_heap (<[p := contents]> (s_heap s)) s).

Class PosixLaws (P : Posix) : Prop := {
  shm_open_law name flags s :
    shm_open_ok name flags s (fst (shm_open name flags s)) (snd (shm_open name flags s));
  shm_unlink_law name s :
    shm_unlink_ok name s (fst (shm_unlink name s)) (snd (shm_unlink name s));
  ftruncate_law fd len s :
    ftruncate_ok fd len s (fst (ftruncate fd len s)) (snd (ftruncate fd len s));
  mmap_law len fd s : mmap_ok len fd s (fst (mmap len fd s)) (snd (mmap len fd s));
  munmap_law a len s : munmap_ok a len s (munmap a len s);
  close_law fd s : close fd s = set_fd (delete fd (s_fd s)) s;
  calloc_law s : alloc_ok None s (fst (calloc s)) (snd (calloc s));
  strdup_law str s : alloc_ok (Some str) s (fst (strdup str s)) (snd (strdup str s));
  free_law p s : free p s = set_heap (delete p (s_heap s)) s
}.

(** Unmapping what was mapped, with the length it was mapped with. *)
Lemma munmap_mapped {P : Posix} {L : PosixLaws P} a len s o :
  s_map s !! a = Some (o, len) -> munmap a len s = set_map (delete a (s_map s)) s.
Proof. intros Hm. destruct (munmap_law a len s) as [|mp e Hno]; [done|]. by destruct (Hno o). Qed.

(** ** Memory through a mapping *)

Abbreviation IO := (ST sys).

(** Lift a call that cannot be undefined. *)
Definition sys_call {A} (f : sys -> A * sys) : IO A := fun s => Some (f s).
Definition sys_do (f : sys -> sys) : IO unit := fun s => Some (tt, f s).
Definition get_errno : IO Z := fun s => Some (s_errno s, s).

(** Run a computation on the bytes mapped at [a]: an access past the end of the
    mapping, or past the end of the object, is undefined ([SIGBUS]). *)
Definition on_map {A} (a : Z) (c : C A) : IO A := fun s =>
  match s_map s !! a with
  | Some (o, len) =>
      match s_obj s !! o with
      | Some b =>
          match c (take (Z.to_nat len) b) with
          | Some (x, w) => Some (x, set_obj o (w ++ drop (Z.to_nat len) b) s)
          | None => None
          end
      | None => None
      end
  | None => None
  end.

(** The bytes visible through the mapping at [a]. *)
Definition window (s : sys) (a : Z) : option mem :=
  match s_map s !! a with
  | Some (o, len) => take (Z.to_nat len) <$> (s_obj s !! o)
  | None => None
  end.

(** What a process can leak: descriptors, mappings, heap blocks. *)
Definition same_resources (s s' : sys) : Prop :=
  s_fd s' = s_fd s /\ s_map s' = s_map s /\ s_heap s' = s_heap s.

(** ** A concrete system *)

(** Which calls are refused, and with which [errno] ([0]: the call succeeds). *)
Record faults := Faults {
  f_shm_open : Z; f_ftruncate : Z; f_mmap : Z; f_calloc : Z; f_strdup : Z
}.

Definition no_faults : faults := Faults 0 0 0 0 0.

(** A positive integer that is not a key. *)
Definition fresh_key {A} (m : gmap Z A) : Z :=
  1 + foldr Z.max 0 (map fst (map_to_list m)).

Definition fresh_obj {A} (m : gmap nat A) : nat :=
  S (foldr Nat.max 0%nat (map fst (map_to_list m))).

Definition simple_alloc (fault : Z) (x : option string) (s : sys) : option Z * sys :=
  if fault =? 0 then
    let p := fresh_key (s_heap s) in (Some p, set_heap (<[p := x]> (s_heap s)) s)
  else (None, refuse fault s).

Definition SimplePosix (f : faults) : Posix := {|
  shm_open name flags s :=
    if negb ((f_shm_open f =? 0) || (f_shm_open f =? EEXIST)) then (-1, refuse (f_shm_open f) s) else
    let fd := fresh_key (s_fd s) in
    match s_shm s !! name with
    | Some o =>
        if has_flag flags O_EXCL then
          (-1, if has_flag flags O_CREAT then set_errno EEXIST s else refuse EINVAL s)
        else (fd, set_fd (<[fd := o]> (s_fd s)) s)
    | None =>
        if has_flag flags O_CREAT then
          let o := fresh_obj (s_obj s) in
          (fd, set_fd (<[fd := o]> (s_fd s))
                 (set_obj o [] (set_shm (<[name := o]> (s_shm s)) s)))
        else (-1, set_errno ENOENT s)
    end;
  shm_unlink name s :=
    match s_shm s !! name with
    | Some _ => (0, set_shm (delete name (s_shm s)) s)
    | None => (-1, set_errno ENOENT s)
    end;
  ftruncate fd len s :=
    match s_fd s !! fd with
    | Some o =>
        if (0 <=? len) && (len <? 2 ^ 63) then
          match s_obj s !! o with
          | Some b =>
              if f_ftruncate f =? 0 then (0, set_obj o (resize (Z.to_nat len) Byte.x00 b) s)
              else (-1, refuse (f_ftruncate f) s)
          | None => (-1, refuse EINVAL s)
          end
        else (-1, set_errno EINVAL s)
    | None => (-1, set_errno EBADF s)
    end;
  mmap len fd s :=
    match s_fd s !! fd with
    | Some o =>
        if 0 <? len then
          if f_mmap f =? 0 then
            let a := fresh_key (s_map s) in
            (Some a, set_map (<[a := (o, len)]> (s_map s)) s)
          else (None, refuse (f_mmap f) s)
        else (None, set_errno EINVAL s)
    | None => (None, set_errno EBADF s)
    end;
  munmap a len s :=          (* whole mappings only *)
    match s_map s !! a with
    | Some (_, n) => if n =? len then set_map (delete a (s_map s)) s else set_errno EINVAL s
    | None => set_errno EINVAL s
    end;
  close fd s := set_fd (delete fd (s_fd s)) s;
  calloc s := simple_alloc (f_calloc f) None s;
  strdup str s := simple_alloc (f_strdup f) (Some str) s;
  free p s := set_heap (delete p (s_heap s)) s
|}.

(** The empty system. *)
Definition boot : sys := Sys ∅ ∅ ∅ ∅ ∅ 0 0.

(** ** Facts *)

Lemma foldr_max_le (l : list Z) x : x ∈ l -> x <= foldr Z.max 0 l.
Proof. induction 1; simpl; lia. Qed.

Lemma foldr_max_nonneg (l : list Z) : 0 <= foldr Z.max 0 l.
Proof. induction l; simpl; lia. Qed.

Lemma foldr_natmax_le (l : list nat) x : x ∈ l -> (x <= foldr Nat.max 0 l)%nat.
Proof. induction 1; simpl; lia. Qed.

Lemma fresh_key_pos {A} (m : gmap Z A) : 0 < fresh_key m.
Proof. unfold fresh_key. pose proof (foldr_max_nonneg (map fst (map_to_list m))). lia. Qed.

Lemma fresh_key_fresh {A} (m : gmap Z A) : m !! fresh_key m = None.
Proof.
  destruct (m !! fresh_key m) as [x|] eqn:E; [|done]. exfalso.
  apply elem_of_map_to_list in E. apply (list_elem_of_fmap_2 fst) in E.
  apply foldr_max_le in E. simpl in E. unfold fresh_key in E at 1. simpl in E.
  change (map fst (map_to_list m)) with (fst <$> map_to_list m) in E. lia.
Qed.

Lemma fresh_obj_fresh {A} (m : gmap nat A) : m !! fresh_obj m = None.
Proof.
  destruct (m !! fresh_obj m) as [x|] eqn:E; [|done]. exfalso.
  apply elem_of_map_to_list in E. apply (list_elem_of_fmap_2 fst) in E.
  apply foldr_natmax_le in E. simpl in E. unfold fresh_obj in E at 1. simpl in E.
  change (map fst (map_to_list m)) with (fst <$> map_to_list m) in E. lia.
Qed.

Lemma simple_alloc_ok fault x s :
  alloc_ok x s (fst (simple_alloc fault x s)) (snd (simple_alloc fault x s)).
Proof.
  unfold simple_alloc. case_zb; simpl; constructor.
  - pose proof (fresh_key_pos (s_heap s)). lia.
  - apply fresh_key_fresh.
Qed.

#[export] Instance SimplePosix_laws f : PosixLaws (SimplePosix f).
Proof.
  split; simpl; intros; try done; try apply simple_alloc_ok.
  - destruct (f_shm_open f =? 0) eqn:E0, (f_shm_open f =? EEXIST) eqn:E1; simpl; zbool.
    4: { by apply shm_open_refuses. }
    all: destruct (s_shm s !! name) as [o|] eqn:En; [|destruct (has_flag flags O_CREAT) eqn:Ec];
      simpl; try (destruct (has_flag flags O_EXCL) eqn:Ee; simpl);
      try (destruct (has_flag flags O_CREAT) eqn:Ec; simpl;
           [by eapply shm_open_excludes|by apply shm_open_refuses]);
      try (by apply shm_open_missing);
      try (apply shm_open_existing; eauto using fresh_key_fresh;
           pose proof (fresh_key_pos (s_fd s)); lia);
      try (apply shm_open_creates; eauto using fresh_key_fresh, fresh_obj_fresh;
           pose proof (fresh_key_pos (s_fd s)); lia).
  - destruct (s_shm s !! name) as [o|] eqn:En; simpl; econstructor; eauto.
  - destruct (s_fd s !! fd) as [o|] eqn:Ef; simpl.
    2: { apply ftruncate_invalid. intros [[? ?] _]. congruence. }
    case_zb; simpl; [|apply ftruncate_invalid; intros [_ ?]; lia].
    destruct (s_obj s !! o) as [b|] eqn:Eb; simpl; [|constructor].
    case_zb; simpl; [eapply ftruncate_resizes; eauto|constructor].
  - destruct (s_fd s !! fd) as [o|] eqn:Ef; simpl.
    2: { apply mmap_invalid. intros [[? ?] _]. congruence. }
    destruct (Z.ltb_spec 0 len); simpl; [|apply mmap_invalid; intros [_ ?]; lia].
    case_zb; simpl; [|constructor]. pose proof (fresh_key_pos (s_map s)).
    apply mmap_maps; eauto using fresh_key_fresh; lia.
  - destruct (s_map s !! a) as [[o n]|] eqn:Em.
    + destruct (Z.eqb_spec n len) as [->|]; [by eapply munmap_whole|].
      replace (set_errno EINVAL s) with (set_map (s_map s) (set_errno EINVAL s)) by done.
      apply munmap_other. intros o'. congruence.
    + replace (set_errno EINVAL s) with (set_map (s_map s) (set_errno EINVAL s)) by done.
      apply munmap_other. intros o'. congruence.
Qed.

(** ** Reasoning about runs

    [wlp c s Q]: every result of [c] from [s] satisfies [Q].
    [wp c s Q]: moreover [c] is defined. *)

Definition wlp {S A} (c : ST S A) (s : S) (Q : A -> S -> Prop) : Prop :=
  forall a s', c s = Some (a, s') -> Q a s'.

Definition wp {S A} (c : ST S A) (s : S) (Q : A -> S -> Prop) : Prop :=
  exists a s', c s = Some (a, s') /\ Q a s'.

Lemma wlp_ret {S A} (a : A) (s : S) (Q : A -> S -> Prop) : Q a s -> wlp (mret a) s Q.
Proof. by intros HQ ? ? [= <- <-]. Qed.

Lemma wlp_bind {S A B} (c : ST S A) (k : A -> ST S B) (s : S) Q :
  wlp c s (fun a s' => wlp (k a) s' Q) -> wlp (c ≫= k) s Q.
Proof. intros Hc b s2 Hb. apply bind_inv in Hb as (a & s1 & H1 & H2). by eapply Hc. Qed.

Lemma wlp_call {A} (f : sys -> A * sys) s (Q : A -> sys -> Prop) :
  Q (fst (f s)) (snd (f s)) -> wlp (sys_call f) s Q.
Proof. intros HQ a s' [= E]. by rewrite E in HQ. Qed.

Lemma wlp_do f s (Q : unit -> sys -> Prop) : Q tt (f s) -> wlp (sys_do f) s Q.
Proof. by intros HQ ? ? [= <- <-]. Qed.

Lemma wlp_errno s (Q : Z -> sys -> Prop) : Q (s_errno s) s -> wlp get_errno s Q.
Proof. by intros HQ ? ? [= <- <-]. Qed.

Lemma wlp_mono {S A} (c : ST S A) (s : S) (Q Q' : A -> S -> Prop) :
  wlp c s Q -> (forall a s', Q a s' -> Q' a s') -> wlp c s Q'.
Proof. intros Hc HQ a s' Ha. eauto. Qed.

(** A computation on a mapping changes object contents only. *)
Lemma wlp_on_map {A} a (c : C A) s (Q : A -> sys -> Prop) :
  (forall x o b, Q x (set_obj o b s)) -> wlp (on_map a c) s Q.
Proof.
  intros HQ x s'. unfold on_map. repeat case_match; try done. intros [= <- <-]. apply HQ.
Qed.

(** An access outside what is mapped is undefined: nothing comes after it. *)
Lemma wlp_on_map_undef {A B} a (c : C A) (k : A -> IO B) s o len b (Q : B -> sys -> Prop) :
  s_map s !! a = Some (o, len) -> s_obj s !! o = Some b ->
  c (take (Z.to_nat len) b) = None -> wlp (on_map a c ≫= k) s Q.
Proof.
  intros Hm Ho Hc. apply wlp_bind. intros x s'. unfold on_map. by rewrite Hm, Ho, Hc.
Qed.

Lemma wp_wlp {S A} (c : ST S A) (s : S) (Q Q' : A -> S -> Prop) :
  wp c s Q -> wlp c s Q' -> wp c s (fun a s' => Q a s' /\ Q' a s').
Proof. intros (a & s' & Hc & HQ) Hw. exists a, s'. auto. Qed.

(** Run a computation on the system, one call and one branch at a time. *)
Ltac run_io_step :=
  first
    [ apply wlp_call | apply wlp_do | apply wlp_errno
    | (apply wlp_on_map; intros ? ? ?)
    | match goal with |- wlp (match ?x with _ => _ end) _ _ => destruct x eqn:? end
    | match goal with |- wlp (let _ := _ in _) _ _ => cbv zeta end
    | apply wlp_ret
    | apply wlp_bind ].

Ltac run_io := repeat run_io_step.

Lemma wp_ret {S A} (a : A) (s : S) (Q : A -> S -> Prop) : Q a s -> wp (mret a) s Q.
Proof. intros HQ. by exists a, s. Qed.

Lemma wp_bind {S A B} (c : ST S A) (k : A -> ST S B) (s : S) Q :
  wp c s (fun a s' => wp (k a) s' Q) -> wp (c ≫= k) s Q.
Proof.
  intros (a & s1 & H1 & b & s2 & H2 & HQ). exists b, s2. split; [|done].
  by rewrite (bind_ret _ _ _ _ _ H1).
Qed.

Lemma wp_call {A} (f : sys -> A * sys) s (Q : A -> sys -> Prop) :
  Q (fst (f s)) (snd (f s)) -> wp (sys_call f) s Q.
Proof. intros HQ. exists (fst (f s)), (snd (f s)). split; [|done]. unfold sys_call. by destruct (f s). Qed.

Lemma wp_do f s (Q : unit -> sys -> Prop) : Q tt (f s) -> wp (sys_do f) s Q.
Proof. intros HQ. by exists tt, (f s). Qed.

Lemma wp_errno s (Q : Z -> sys -> Prop) : Q (s_errno s) s -> wp get_errno s Q.
Proof. intros HQ. by exists (s_errno s), s. Qed.

Lemma wp_mono {S A} (c : ST S A) (s : S) (Q Q' : A -> S -> Prop) :
  wp c s Q -> (forall a s', Q a s' -> Q' a s') -> wp c s Q'.
Proof. intros (a & s' & Hc & Ha) HQ. exists a, s'. eauto. Qed.

(** Running a computation that is defined on the mapped bytes. *)
Lemma wp_on_map {A} a (c : C A) s o len b x w (Q : A -> sys -> Prop) :
  s_map s !! a = Some (o, len) -> s_obj s !! o = Some b ->
  c (take (Z.to_nat len) b) = Some (x, w) ->
  Q x (set_obj o (w ++ drop (Z.to_nat len) b) s) -> wp (on_map a c) s Q.
Proof.
  intros Hm Ho Hc HQ. unfold wp, on_map. rewrite Hm, Ho, Hc. eauto.
Qed.

(** A computation that only reads leaves the system as it was. *)
Lemma wp_on_map_read {A} a (c : C A) s o len b x (Q : A -> sys -> Prop) :
  s_map s !! a = Some (o, len) -> s_obj s !! o = Some b ->
  c (take (Z.to_nat len) b) = Some (x, take (Z.to_nat len) b) ->
  Q x s -> wp (on_map a c) s Q.
Proof.
  intros Hm Ho Hc HQ. eapply wp_on_map; eauto.
  rewrite take_drop. unfold set_obj. rewrite insert_id by done. by destruct s.
Qed.

(** ** What a computation keeps *)

Section Keeps.
Context {S : Type} (I : S -> S -> Prop) `{!PreOrder I}.

(** Every result of [c] is related by [I] to where it started. *)
Definition keeps {A} (c : ST S A) : Prop := forall s, wlp c s (fun _ s' => I s s').

Lemma keeps_ret {A} (a : A) : keeps (mret a).
Proof. intros s. by apply wlp_ret. Qed.

Lemma keeps_bind {A B} (c : ST S A) (k : A -> ST S B) :
  keeps c -> (forall a, keeps (k a)) -> keeps (c ≫= k).
Proof.
  intros Hc Hk s. apply wlp_bind. eapply wlp_mono; [apply Hc|]. intros a s1 H1.
  eapply wlp_mono; [apply Hk|]. intros b s2 H2. by transitivity s1.
Qed.

Lemma keeps_undef {A} : keeps (@undef S A).
Proof. by intros s a s'. Qed.

Lemma wp_keeps {A} (c : ST S A) s (Q : A -> S -> Prop) :
  wp c s Q -> keeps c -> wp c s (fun a s' => Q a s' /\ I s s').
Proof. intros Hc Hk. by apply wp_wlp. Qed.
End Keeps.

Section KeepsIO.
Context (I : sys -> sys -> Prop) `{!PreOrder I}.

Lemma keeps_call {A} (f : sys -> A * sys) : (forall s, I s (snd (f s))) -> keeps I (sys_call f).
Proof. intros Hf s. apply wlp_call, Hf. Qed.

Lemma keeps_do f : (forall s, I s (f s)) -> keeps I (sys_do f).
Proof. intros Hf s. apply wlp_do, Hf. Qed.

Lemma keeps_errno : keeps I get_errno.
Proof. intros s. by apply wlp_errno. Qed.

Lemma keeps_on_map {A} a (c : C A) :
  (forall s o b b', s_obj s !! o = Some b -> I s (set_obj o b' s)) -> keeps I (on_map a c).
Proof. intros HI s x s'. unfold on_map. repeat case_match; try done. intros [= <- <-]. by eapply HI. Qed.
End KeepsIO.

Create HintDb keeps.
#[export] Hint Resolve keeps_call keeps_do keeps_on_map : keeps.

(** Walk through a computation, call by call. *)
Ltac prove_keeps :=
  repeat first
    [ progress cbv zeta
    | match goal with |- keeps _ (match ?x with _ => _ end) => destruct x end
    | match goal with |- keeps _ (_ ≫= _) => apply keeps_bind; [apply _| |intros] end
    | solve [apply keeps_ret; apply _ | apply keeps_errno; apply _ | apply keeps_undef]
    | solve [eauto 6 with keeps] ].

(** Refusals are counted, never forgotten. *)
Definition more_refused (s s' : sys) : Prop := (s_refused s <= s_refused s')%nat.
Abbreviation grows := (keeps more_refused).

#[export] Instance more_refused_preorder : PreOrder more_refused.
Proof. split; unfold more_refused; repeat intro; lia. Qed.

Section Grows.
Context {P : Posix} {L : PosixLaws P}.

Lemma shm_open_grows name flags s : more_refused s (snd (shm_open name flags s)).
Proof. unfold more_refused. destruct (shm_open_law name flags s); simpl; lia. Qed.
Lemma shm_unlink_grows name s : more_refused s (snd (shm_unlink name s)).
Proof. unfold more_refused. destruct (shm_unlink_law name s); simpl; lia. Qed.
Lemma ftruncate_grows fd len s : more_refused s (snd (ftruncate fd len s)).
Proof. unfold more_refused. destruct (ftruncate_law fd len s); simpl; lia. Qed.
Lemma mmap_grows len fd s : more_refused s (snd (mmap len fd s)).
Proof. unfold more_refused. destruct (mmap_law len fd s); simpl; lia. Qed.
Lemma calloc_grows s : more_refused s (snd (calloc s)).
Proof. unfold more_refused. destruct (calloc_law s); simpl; lia. Qed.
Lemma strdup_grows str s : more_refused s (snd (strdup str s)).
Proof. unfold more_refused. destruct (strdup_law str s); simpl; lia. Qed.
Lemma munmap_refused a len s : s_refused (munmap a len s) = s_refused s.
Proof. by destruct (munmap_law a len s). Qed.
Lemma munmap_grows a len s : more_refused s (munmap a len s).
Proof. unfold more_refused. by rewrite munmap_refused. Qed.
Lemma close_grows fd s : more_refused s (close fd s).
Proof. unfold more_refused. by rewrite close_law. Qed.
Lemma free_grows p s : more_refused s (free p s).
Proof. unfold more_refused. by rewrite free_law. Qed.
Lemma set_errno_grows e s : more_refused s (set_errno e s).
Proof. by unfold more_refused. Qed.
Lemma set_obj_grows s o b b' : s_obj s !! o = Some b -> more_refused s (set_obj o b' s).
Proof. by unfold more_refused. Qed.
End Grows.

#[export] Hint Resolve shm_open_grows shm_unlink_grows ftruncate_grows mmap_grows calloc_grows
  strdup_grows munmap_grows close_grows free_grows set_errno_grows set_obj_grows : keeps.

(** ** The system without faults refuses nothing *)

Definition simple : Posix := SimplePosix no_faults.

(** Names and descriptors are of objects that exist. *)
Definition sound (s : sys) : Prop :=
  (forall name o, s_shm s !! name = Some o -> is_Some (s_obj s !! o)) /\
  (forall fd o, s_fd s !! fd = Some o -> is_Some (s_obj s !! o)).

(** From a sound state: the state stays sound, and nothing is refused. *)
Definition calm (s s' : sys) : Prop :=
  (forall o, is_Some (s_obj s !! o) -> is_Some (s_obj s' !! o)) /\
  (sound s -> sound s' /\ no_refusal s s').

#[export] Instance calm_preorder : PreOrder calm.
Proof.
  split; [done|]. unfold calm, no_refusal. intros s1 s2 s3 [H1 H2] [H3 H4]. split; [auto|].
  intros H. destruct (H2 H) as [? E2]. destruct H4 as [? E4]; [done|]. split; [done|congruence].
Qed.

(** A change that keeps the objects, and whose names and descriptors exist. *)
Lemma calm_intro s s' :
  s_refused s' = s_refused s -> (forall o, is_Some (s_obj s !! o) -> is_Some (s_obj s' !! o)) ->
  (forall name o, s_shm s' !! name = Some o -> s_shm s !! name = Some o \/ is_Some (s_obj s' !! o)) ->
  (forall fd o, s_fd s' !! fd = Some o ->
     s_fd s !! fd = Some o \/ (exists name, s_shm s !! name = Some o) \/ is_Some (s_obj s' !! o)) ->
  calm s s'.
Proof.
  intros Hr Ho Hn Hf. split; [done|]. intros [Sn Sf]. split; [|done]. split.
  - intros name o [H|H]%Hn; eauto.
  - intros fd o [H|[[name H]|H]]%Hf; eauto.
Qed.

Lemma set_obj_is_Some s o b o' : is_Some (s_obj s !! o') -> is_Some (s_obj (set_obj o b s) !! o').
Proof. simpl. destruct (decide (o' = o)) as [->|]; [by rewrite lookup_insert_eq|by rewrite lookup_insert_ne]. Qed.

Ltac calm_same := apply calm_intro; simpl; eauto using set_obj_is_Some.

Lemma set_obj_calm s o b b' : s_obj s !! o = Some b -> calm s (set_obj o b' s).
Proof. intros _. apply calm_intro; eauto using set_obj_is_Some. Qed.

Lemma simple_shm_open_calm name flags s :
  (has_flag flags O_EXCL = true -> has_flag flags O_CREAT = true) ->
  calm s (snd (shm_open (Posix := simple) name flags s)).
Proof.
  intros Hx. simpl. destruct (s_shm s !! name) as [o|] eqn:En.
  - destruct (has_flag flags O_EXCL); [rewrite Hx by done; calm_same|]. apply calm_intro; simpl; eauto.
    intros fd o'. rewrite lookup_insert_Some. naive_solver.
  - destruct (has_flag flags O_CREAT); [|calm_same]. apply calm_intro; simpl; [done| | |].
    + intros o. apply (set_obj_is_Some s).
    + intros name' o. rewrite lookup_insert_Some. intros [[_ <-]|[_ ?]]; [|by left].
      right. by rewrite lookup_insert_eq.
    + intros fd o. rewrite lookup_insert_Some. intros [[_ <-]|[_ ?]]; [|by left].
      right. right. by rewrite lookup_insert_eq.
Qed.

Lemma simple_shm_unlink_calm name s : calm s (snd (shm_unlink (Posix := simple) name s)).
Proof.
  simpl. destruct (s_shm s !! name); [|calm_same]. apply calm_intro; simpl; eauto.
  intros name' o. rewrite lookup_delete_Some. naive_solver.
Qed.

Lemma simple_ftruncate_calm fd len s : calm s (snd (ftruncate (Posix := simple) fd len s)).
Proof.
  simpl. destruct (s_fd s !! fd) as [o|] eqn:Ef; [|calm_same]. destruct (_ && _); [|calm_same].
  destruct (s_obj s !! o) as [b|] eqn:Eb; [by eapply set_obj_calm|].
  split; [done|]. intros [_ Sf]. apply Sf in Ef as [? ?]. congruence.
Qed.

Lemma simple_mmap_calm len fd s : calm s (snd (mmap (Posix := simple) len fd s)).
Proof. simpl. repeat case_match; calm_same. Qed.
Lemma simple_munmap_calm a len s : calm s (munmap (Posix := simple) a len s).
Proof. simpl. repeat case_match; calm_same. Qed.
Lemma simple_close_calm fd s : calm s (close (Posix := simple) fd s).
Proof. apply calm_intro; simpl; eauto. intros fd' o. rewrite lookup_delete_Some. naive_solver. Qed.
Lemma simple_calloc_calm s : calm s (snd (calloc (Posix := simple) s)).
Proof. calm_same. Qed.
Lemma simple_strdup_calm str s : calm s (snd (strdup (Posix := simple) str s)).
Proof. calm_same. Qed.
Lemma simple_free_calm p s : calm s (free (Posix := simple) p s).
Proof. calm_same. Qed.
Lemma set_errno_calm e s : calm s (set_errno e s).
Proof. calm_same. Qed.

#[export] Hint Resolve simple_shm_unlink_calm simple_ftruncate_calm simple_mmap_calm
  simple_munmap_calm simple_close_calm simple_calloc_calm simple_strdup_calm simple_free_calm
  set_errno_calm set_obj_calm : keeps.
#[export] Hint Extern 1 (calm _ (snd (shm_open _ _ _))) =>
  (apply simple_shm_open_calm; repeat case_match; vm_compute; done) : keeps.
