(* ===== verification/Lifecycle.v ===== *)
(** * Lifecycle (src/nabd.c): nabd_open, nabd_close, nabd_unlink

    Opening creates (and always re-initialises) or attaches to the shared memory
    object; every early return is modelled with the releases it makes.  A handle
    is the pair of its heap address and its contents.  The operations run in the
    state monad over the operating system state of Posix.v and are parametric in
    the system calls; undefined behaviour ([None]) is an access to a mapping whose
    object is too short. *)

From S2P Require Import Prelude Words Pow2 Memory Layout Fifo Queue Ring Posix.
Local Open Scope Z_scope.

Section Lifecycle.
Context {P : Posix}.

(** ** nabd_open *)

(** The argument checks of the [is_create] branch, lines 97-112. *)
Definition effective_capacity (capacity : Z) : Z :=
  let capacity := if capacity =? 0 then NABD_DEFAULT_CAPACITY else capacity in
  if negb (nabd_is_power_of_2 capacity) then nabd_next_power_of_2 capacity else capacity.

Definition effective_slot_size (slot_size : Z) : Z :=
  let slot_size := if slot_size =? 0 then NABD_DEFAULT_SLOT_SIZE else slot_size in
  if slot_size <? SIZEOF_HEADER + 8 then SIZEOF_HEADER + 8 else slot_size.

(** [sizeof(nabd_control_t) + (capacity * slot_size)] in [size_t] *)
Definition total_size (capacity slot_size : Z) : Z :=
  add64 SIZEOF_CONTROL (mul64 capacity slot_size).

(** The handle as it is returned: [calloc] zeroes it, the fields are then set. *)
Definition new_handle (name fd flags size map capacity slot_size : Z) : nabd :=
  Nabd name fd flags size (Some map) SIZEOF_CONTROL capacity slot_size
       (sub64 capacity 1) 0 0 None.

(** Lines 177-185. *)
Definition init_control (capacity slot_size : Z) : C unit :=
  store 0 (replicate (Z.to_nat SIZEOF_CONTROL) Byte.x00);;
  st 8 OFF_MAGIC NABD_MAGIC;;
  st 8 OFF_VERSION nabd_version_word;;
  st 8 OFF_CAPACITY capacity;;
  st 8 OFF_SLOT_SIZE slot_size;;
  st 8 OFF_BUFFER_OFFSET SIZEOF_CONTROL;;
  st 8 OFF_HEAD 0;;
  st 8 OFF_TAIL 0.

(** The releases of the error paths. *)
Definition free_handle (q name : Z) : IO unit := sys_do (free name);; sys_do (free q).

Definition fail : IO (option (Z * nabd)) := mret None.

(** Lines 129-146: the descriptor, or a negative number. *)
Definition open_shm (name : string) (is_create : bool) : IO Z :=
  let shm_flags := if is_create then Z.lor O_RDWR (Z.lor O_CREAT O_EXCL) else O_RDWR in
  fd ← sys_call (shm_open name shm_flags);
  if fd <? 0 then
    errno ← get_errno;
    if is_create && (errno =? EEXIST) then sys_call (shm_open name O_RDWR) else mret fd
  else mret fd.

(** Lines 150-185. *)
Definition open_create (name : string) (q nm fd capacity slot_size flags : Z)
    : IO (option (Z * nabd)) :=
  let size := total_size capacity slot_size in
  r ← sys_call (ftruncate fd size);
  if r <? 0 then
    sys_do (close fd);; sys_call (shm_unlink name);; free_handle q nm;; fail
  else
  ptr ← sys_call (mmap size fd);
  match ptr with
  | None => sys_do (close fd);; sys_call (shm_unlink name);; free_handle q nm;; fail
  | Some a =>
      on_map a (init_control capacity slot_size);;
      mret (Some (q, new_handle nm fd flags size a capacity slot_size))
  end.

(** Lines 187-228. *)
Definition open_attach (q nm fd flags : Z) : IO (option (Z * nabd)) :=
  ptr ← sys_call (mmap SIZEOF_CONTROL fd);
  match ptr with
  | None => sys_do (close fd);; free_handle q nm;; fail
  | Some a =>
      magic ← on_map a (ld 8 OFF_MAGIC);
      if negb (magic =? NABD_MAGIC) then
        sys_do (munmap a SIZEOF_CONTROL);; sys_do (close fd);; free_handle q nm;;
        sys_do (set_errno EINVAL);; fail
      else
      capacity ← on_map a (ld 8 OFF_CAPACITY);
      slot_size ← on_map a (ld 8 OFF_SLOT_SIZE);
      let size := total_size capacity slot_size in
      sys_do (munmap a SIZEOF_CONTROL);;
      ptr ← sys_call (mmap size fd);
      match ptr with
      | None => sys_do (close fd);; free_handle q nm;; fail
      | Some a => mret (Some (q, new_handle nm fd flags size a capacity slot_size))
      end
  end.

Definition nabd_open (name : option string) (capacity slot_size flags : Z)
    : IO (option (Z * nabd)) :=
  match name with
  | None => sys_do (set_errno EINVAL);; fail
  | Some name =>
      let is_create := has_flag flags NABD_CREATE in
      let is_producer := has_flag flags NABD_PRODUCER in
      let is_consumer := has_flag flags NABD_CONSUMER in
      if negb is_producer && negb is_consumer then sys_do (set_errno EINVAL);; fail else
      let capacity := if is_create then effective_capacity capacity else capacity in
      let slot_size := if is_create then effective_slot_size slot_size else slot_size in
      q ← sys_call calloc;
      match q with
      | None => fail
      | Some q =>
          nm ← sys_call (strdup name);
          match nm with
          | None => sys_do (free q);; fail
          | Some nm =>
              fd ← open_shm name is_create;
              if fd <? 0 then free_handle q nm;; fail
              else if is_create then open_create name q nm fd capacity slot_size flags
              else open_attach q nm fd flags
          end
      end
  end.

(** ** nabd_close, nabd_unlink *)

Definition nabd_close (q : option (Z * nabd)) : IO Z :=
  match q with
  | None => mret (NABD_INVALID : Z)
  | Some (p, h) =>
      match q_ctrl h with
      | Some a => sys_do (munmap a (q_size h))
      | None => mret tt
      end;;
      (if 0 <=? q_fd h then sys_do (close (q_fd h)) else mret tt);;
      free_handle p (q_name h);;
      mret (NABD_OK : Z)
  end.

Definition nabd_unlink (name : option string) : IO Z :=
  match name with
  | None => mret (NABD_INVALID : Z)
  | Some name =>
      r ← sys_call (shm_unlink name);
      mret (if r <? 0 then NABD_SYSERR : Z else NABD_OK : Z)
  end.

End Lifecycle.

(** No call of the library makes the system forget a refusal. *)
Section LifecycleGrows.
Context {P : Posix} {L : PosixLaws P}.

Lemma nabd_open_grows name capacity slot_size flags : grows (nabd_open name capacity slot_size flags).
Proof.
  unfold nabd_open, open_shm, open_create, open_attach, free_handle, fail. prove_keeps.
Qed.

Lemma nabd_close_grows q : grows (nabd_close q).
Proof. unfold nabd_close, free_handle. prove_keeps. Qed.

Lemma nabd_unlink_grows name : grows (nabd_unlink name).
Proof. unfold nabd_unlink. prove_keeps. Qed.
End LifecycleGrows.

#[export] Hint Resolve nabd_open_grows nabd_close_grows nabd_unlink_grows : keeps.

Arguments init_control : simpl never.
Arguments nabd_open : simpl never.
Arguments nabd_close : simpl never.

(** A concrete run: create, push, attach, pop, close. *)
Example open_example :
  (let P := SimplePosix no_faults in
   r ← nabd_open (Some "/q") 3 0 (Z.lor NABD_CREATE NABD_PRODUCER);
   match r with
   | Some (_, p) =>
       c ← nabd_open (Some "/q") 0 0 NABD_CONSUMER;
       match c with
       | Some (_, c) =>
         on_map (default 0 (q_ctrl p)) (nabd_push (Some p) (Some [Byte.x41; Byte.x42]) 2);;
         on_map (default 0 (q_ctrl c)) (nabd_pop (Some c) (Some [Byte.x00; Byte.x00]) (Some 2))
       | None => undef
       end
   | None => undef
   end) boot ≫= (fun x => Some (fst x))
  = Some (NABD_OK : Z, Some [Byte.x41; Byte.x42], Some 2).
Proof. vm_compute. reflexivity. Qed.

(** ** Resources *)

(** The resources the process holds. *)
Definition holding (fd : gmap Z nat) (mp : gmap Z (nat * Z)) (hp : gmap Z (option string))
    (s : sys) : Prop := s_fd s = fd /\ s_map s = mp /\ s_heap s = hp.

(** After an open that returned [r]: either nothing is held that was not held before,
    or exactly one descriptor, one mapping and two heap blocks more, all of them
    recorded in the handle, the length of the mapping included; the handle has no
    multi-consumer block. *)
Definition owns (fds : gmap Z nat) (mp : gmap Z (nat * Z)) (hp : gmap Z (option string))
    (r : option (Z * nabd)) (s : sys) : Prop :=
  match r with
  | None => holding fds mp hp s
  | Some (p, h) =>
      exists a o str, holding (<[q_fd h := o]> fds) (<[a := (o, q_size h)]> mp)
                                  (<[q_name h := str]> (<[p := None]> hp)) s /\
      q_ctrl h = Some a /\ 0 <= q_fd h /\ fds !! q_fd h = None /\ mp !! a = None /\
      hp !! p = None /\ p <> q_name h /\ hp !! q_name h = None /\ q_multi h = None
  end.

Section Resources.
Context {P : Posix} {L : PosixLaws P}.
Implicit Types (s : sys) (fd : Z).

Lemma open_shm_holding name c s fds mp hp :
  holding fds mp hp s ->
  wlp (open_shm name c) s (fun fd s' =>
    (fd < 0 /\ holding fds mp hp s') \/
    (0 <= fd /\ fds !! fd = None /\ exists o, holding (<[fd := o]> fds) mp hp s')).
Proof.
  intros (<- & <- & <-). unfold open_shm. apply wlp_bind, wlp_call.
  destruct (shm_open_law name (if c then Z.lor O_RDWR (Z.lor O_CREAT O_EXCL) else O_RDWR) s)
    as [e He|o0 ? ? ?|? ?|fd o|fd o].
  1-3: zb_true (-1 <? 0); apply wlp_bind, wlp_errno; simpl;
    destruct (c && _); [|apply wlp_ret; by left]; apply wlp_call;
    match goal with |- context [shm_open ?n O_RDWR ?s1] =>
      destruct (shm_open_law n O_RDWR s1) as [e'|o1|?|fd o|fd o] end; try (by left); right;
      (split; [done|]); (split; [done|]); by exists o.
  - zb_false (fd <? 0). apply wlp_ret. right. split; [done|]. split; [done|]. by exists o.
  - zb_false (fd <? 0). apply wlp_ret. right. split; [done|]. split; [done|]. by exists o.
Qed.

(** Giving everything back. *)
Lemma free_handle_holding q nm s fds mp hp x :
  hp !! q = None -> q <> nm -> hp !! nm = None ->
  holding fds mp (<[nm := x]> (<[q := None]> hp)) s ->
  wlp (free_handle q nm;; fail) s (fun r s' => r = None /\ holding fds mp hp s').
Proof.
  intros Hq Hne Hn (<- & <- & Hh). unfold free_handle, fail.
  apply wlp_bind, wlp_bind, wlp_do, wlp_do, wlp_ret. rewrite !free_law.
  split; [done|]. repeat split. simpl. rewrite Hh.
  rewrite delete_insert_id by (by rewrite lookup_insert_ne).
  by apply delete_insert_id.
Qed.

Section Opened.
Context (q nm fd : Z) (o : nat) (x : option string).
Context (fds : gmap Z nat) (mp : gmap Z (nat * Z)) (hp : gmap Z (option string)).
Context (Hq : hp !! q = None) (Hne : q <> nm) (Hn : hp !! nm = None) (Hfd : fds !! fd = None)
        (Hpos : 0 <= fd).

Let hp2 := <[nm := x]> (<[q := None]> hp).

(** Failure after the descriptor was opened: closing it and freeing the handle
    gives everything back. *)
Lemma close_free_holding s :
  holding (<[fd := o]> fds) mp hp2 s ->
  wlp (free_handle q nm;; fail) (close fd s) (fun r s' => r = None /\ holding fds mp hp s').
Proof.
  intros (Hf & Hm & Hh). rewrite close_law. apply (free_handle_holding q nm _ _ _ _ x); try done.
  repeat split; simpl; try done. rewrite Hf. by apply delete_insert_id.
Qed.

Lemma open_create_holding s name capacity slot_size flags :
  holding (<[fd := o]> fds) mp hp2 s ->
  wlp (open_create name q nm fd capacity slot_size flags) s
    (owns fds mp hp).
Proof.
  intros Hh. unfold open_create.
  assert (forall s1, holding (<[fd := o]> fds) mp hp2 s1 ->
    wlp (sys_do (close fd);; sys_call (shm_unlink name);; free_handle q nm;; fail) s1
      (owns fds mp hp)) as Hfail.
  { intros s1 Hs1. apply wlp_bind, wlp_do, wlp_bind, wlp_call.
    assert (holding fds mp hp2 (close fd s1)) as Hc.
    { destruct Hs1 as (Hf & Hm & Hp). rewrite close_law. repeat split; simpl; try done.
      rewrite Hf. by apply delete_insert_id. }
    destruct (shm_unlink_law name (close fd s1)) as [e|_|o' _];
      (eapply wlp_mono; [by apply (free_handle_holding q nm _ fds mp hp x)|by intros ? ? [-> ?]]). }
  apply wlp_bind, wlp_call. destruct (ftruncate_law fd (total_size capacity slot_size) s).
  1-2: zb_true (-1 <? 0); by apply Hfail.
  zb_false (0 <? 0). apply wlp_bind, wlp_call.
  destruct Hh as (Hf & Hm & Hp).
  match goal with |- context [mmap ?n fd ?s1] =>
    destruct (mmap_law n fd s1) as [e|e _|a o1 Ho1 _ _ Hfresh] end.
  1-2: by apply Hfail.
  simpl in Ho1, Hfresh. rewrite Hf, lookup_insert_eq in Ho1. injection Ho1 as <-.
  apply wlp_bind, wlp_on_map. intros [] ? ?. apply wlp_ret.
  eexists a, o, x. split; [repeat split; simpl; by rewrite ?Hm|].
  split_and!; try done. by rewrite <- Hm.
Qed.

Lemma open_attach_holding s flags :
  holding (<[fd := o]> fds) mp hp2 s ->
  wlp (open_attach q nm fd flags) s (owns fds mp hp).
Proof.
  intros (Hf & Hm & Hp). unfold open_attach. apply wlp_bind, wlp_call.
  assert (forall s1, holding (<[fd := o]> fds) mp hp2 s1 ->
    wlp (sys_do (close fd);; free_handle q nm;; fail) s1
      (owns fds mp hp)) as Hfail.
  { intros s1 Hs1. apply wlp_bind, wlp_do.
    eapply wlp_mono; [by apply close_free_holding|by intros ? ? [-> ?]]. }
  destruct (mmap_law SIZEOF_CONTROL fd s) as [e|e _|a o1 Ho1 Hlen Ha Hfresh]; [by apply Hfail..|].
  apply wlp_bind, wlp_on_map. intros magic o2 b2. case_zb.
  - apply wlp_bind, wlp_do. rewrite (munmap_mapped _ _ _ o1) by apply lookup_insert_eq. apply wlp_bind, wlp_do. apply wlp_bind.
    unfold free_handle. apply wlp_bind, wlp_do, wlp_do. apply wlp_bind, wlp_do, wlp_ret.
    rewrite close_law, !free_law. repeat split; simpl.
    + rewrite Hf. by apply delete_insert_id.
    + rewrite delete_insert_id; done.
    + rewrite Hp. unfold hp2.
      rewrite delete_insert_id by (by rewrite lookup_insert_ne). by apply delete_insert_id.
  - apply wlp_bind, wlp_on_map. intros cap o3 b3. apply wlp_bind, wlp_on_map.
    intros ss o4 b4. cbv zeta. apply wlp_bind, wlp_do.
    rewrite (munmap_mapped _ _ _ o1) by apply lookup_insert_eq.
    apply wlp_bind, wlp_call.
    match goal with |- context [mmap ?n fd ?s1] =>
      destruct (mmap_law n fd s1) as [e|e _|a2 o5 Ho2 _ _ Hfresh2] end.
    1-2: apply Hfail; repeat split; simpl; try done; rewrite delete_insert_id; done.
    + simpl in Ho2, Hfresh2. rewrite Hf, lookup_insert_eq in Ho2. injection Ho2 as <-.
      rewrite delete_insert_id in Hfresh2 by done.
      apply wlp_ret. eexists a2, o, x.
      split; [repeat split; simpl; [done| |done]; rewrite delete_insert_id by done; by rewrite Hm|].
      split_and!; try done. by rewrite <- Hm.
Qed.
End Opened.

(** What an open holds afterwards, whether it fails or succeeds. *)
Lemma open_holding s name capacity slot_size flags :
  wlp (nabd_open name capacity slot_size flags) s (owns (s_fd s) (s_map s) (s_heap s)).
Proof.
  unfold nabd_open, fail. destruct name as [name|].
  2: { apply wlp_bind, wlp_do, wlp_ret. done. }
  cbv zeta. case_zb; [apply wlp_bind, wlp_do, wlp_ret; done|].
  apply wlp_bind, wlp_call. destruct (calloc_law s) as [e|q Hq0 Hq]; [by apply wlp_ret|].
  apply wlp_bind, wlp_call.
  match goal with |- context [strdup name ?s1] =>
    destruct (strdup_law name s1) as [e|nm Hn0 Hn] end.
  { apply wlp_bind, wlp_do, wlp_ret. rewrite free_law. repeat split; simpl.
    rewrite delete_insert_id; done. }
  simpl in Hn. assert (q <> nm /\ s_heap s !! nm = None) as [Hne Hn'].
  { destruct (decide (q = nm)) as [->|]; [by rewrite lookup_insert_eq in Hn|].
    by rewrite lookup_insert_ne in Hn. }
  apply wlp_bind. eapply wlp_mono; [apply open_shm_holding; repeat split|].
  intros fd s1 [[Hneg Hh]|(Hpos & Hfd & o & Hh)]; simpl in *.
  - zb_true (fd <? 0). eapply wlp_mono; [by eapply free_handle_holding|].
    by intros ? ? [-> ?].
  - zb_false (fd <? 0). destruct (has_flag flags NABD_CREATE).
    + by eapply open_create_holding.
    + by eapply open_attach_holding.
Qed.

(** Closing an open handle gives back what it holds. *)
Lemma close_holding s p h fds mp hp :
  owns fds mp hp (Some (p, h)) s ->
  wp (nabd_close (Some (p, h))) s (fun r s' => r = NABD_OK /\ holding fds mp hp s' /\ no_refusal s s').
Proof.
  intros (a & o & str & (Hf & Hm & Hh) & Hc & Hpos & Hfd & Ha & Hp & Hne & Hn & _).
  unfold nabd_close. rewrite Hc. zb_true (0 <=? q_fd h). unfold free_handle.
  apply wp_bind, wp_do. rewrite (munmap_mapped _ _ _ o) by (rewrite Hm; apply lookup_insert_eq). apply wp_bind, wp_do. rewrite close_law.
  apply wp_bind, wp_bind, wp_do, wp_do, wp_ret. rewrite !free_law. split; [done|]. split; [|done].
  repeat split; simpl; rewrite ?Hf, ?Hm, ?Hh.
  - by apply delete_insert_id.
  - by apply delete_insert_id.
  - rewrite delete_insert_id by (by rewrite lookup_insert_ne). by apply delete_insert_id.
Qed.
(** Closing never fails, and leaves names and objects alone. *)
Lemma wp_close q s (Q : Z -> sys -> Prop) :
  (forall s', s_shm s' = s_shm s -> s_obj s' = s_obj s -> Q NABD_OK s') -> wp (nabd_close (Some q)) s Q.
Proof.
  intros HQ. destruct q as [ptr h]. unfold nabd_close, free_handle. apply wp_bind.
  assert (forall s', s_shm s' = s_shm s -> s_obj s' = s_obj s ->
    wp (_ ← (if 0 <=? q_fd h then sys_do (close (q_fd h)) else mret tt);
        _ ← (_ ← sys_do (free (q_name h)); sys_do (free ptr)); mret (NABD_OK : Z)) s' Q) as Hrest.
  { intros s' Hs Ho. apply wp_bind. destruct (0 <=? q_fd h); [apply wp_do|apply wp_ret];
      apply wp_bind, wp_bind, wp_do, wp_do, wp_ret; apply HQ; by rewrite !free_law, ?close_law. }
  destruct (q_ctrl h) as [a|]; [apply wp_do|apply wp_ret]; apply Hrest; try done;
    by destruct (munmap_law a (q_size h) s).
Qed.

End Resources.

(** ** An open queue *)

(** The handle [q] is open on the object [o] of that name, whose mapping satisfies [Φ]. *)
Definition serves (name : string) (o : nat) (Φ : mem -> Prop) (q : nabd) (s : sys) : Prop :=
  s_shm s !! name = Some o /\ exists a len b,
  q_ctrl q = Some a /\ s_map s !! a = Some (o, len) /\ s_obj s !! o = Some b /\ Φ (take (Z.to_nat len) b).

Lemma serves_weaken name o (Φ Ψ : mem -> Prop) q s :
  (forall m, Φ m -> Ψ m) -> serves name o Φ q s -> serves name o Ψ q s.
Proof. intros HH (Hn & a & len & b & Ha & Hm & Hb & Hp). split; [done|]. exists a, len, b. auto. Qed.

(** ** Creation *)

Lemma init_control_spec m capacity slot_size :
  SIZEOF_CONTROL <= zlen m -> 0 <= capacity < 2 ^ 64 -> 0 <= slot_size < 2 ^ 64 ->
  exists m', init_control capacity slot_size m = Some (tt, m') /\ zlen m' = zlen m /\
    rd 8 m' OFF_MAGIC = NABD_MAGIC /\ rd 8 m' OFF_VERSION = nabd_version_word /\
    rd 8 m' OFF_CAPACITY = capacity /\ rd 8 m' OFF_SLOT_SIZE = slot_size /\
    rd 8 m' OFF_BUFFER_OFFSET = SIZEOF_CONTROL /\
    rd 8 m' OFF_HEAD = 0 /\ rd 8 m' OFF_TAIL = 0.
Proof.
  unfold init_control, SIZEOF_CONTROL, OFF_MAGIC, OFF_VERSION, OFF_CAPACITY, OFF_SLOT_SIZE,
    OFF_BUFFER_OFFSET, OFF_HEAD, OFF_TAIL. intros Hm Hc Hs.
  assert (zlen (replicate (Z.to_nat 256) Byte.x00) = 256) as Hz by done.
  set (z0 := replicate (Z.to_nat 256) Byte.x00) in *. clearbody z0.
  eexists. split; [|split; [|repeat split]].
  - erewrite bind_ret by (apply store_in; zl). do 6 c_st. apply st_in. zl.
  - zl.
  - repeat rewrite rd_wr by zl. rewrite rd_wr_same by zl. done.
  - repeat rewrite rd_wr by zl. rewrite rd_wr_same by zl. done.
  - repeat rewrite rd_wr by zl. rewrite rd_wr_same by zl. by apply Z.mod_small.
  - repeat rewrite rd_wr by zl. rewrite rd_wr_same by zl. by apply Z.mod_small.
  - repeat rewrite rd_wr by zl. rewrite rd_wr_same by zl. done.
  - repeat rewrite rd_wr by zl. rewrite rd_wr_same by zl. done.
  - rewrite rd_wr_same by zl. done.
Qed.

(** The capacity is rounded up to a power of two (0 selects the default). *)
Lemma effective_capacity_pow2 c :
  0 <= c <= 2 ^ 63 ->
  exists k, 0 <= k < 64 /\ effective_capacity c = 2 ^ k /\ c <= 2 ^ k.
Proof.
  intros Hc. unfold effective_capacity, NABD_DEFAULT_CAPACITY. destruct (Z.eqb_spec c 0) as [->|].
  { exists 10. split; [lia|]. split; [reflexivity|lia]. }
  destruct (nabd_is_power_of_2 c) eqn:E; simpl.
  - apply is_power_of_2_inv in E as [E Hk]; [|lia]. exists (Z.log2 c). by rewrite <- E.
  - rewrite next_power_of_2_log2_up by lia. exists (Z.log2_up c).
    pose proof (Z.log2_up_nonneg c). pose proof (Z.log2_log2_up_spec c) as ?.
    assert (Z.log2_up c <= 63) by (apply Z.log2_up_le_pow2; lia). lia.
Qed.

Lemma effective_slot_size_min z : 0 <= z -> SIZEOF_HEADER + 8 <= effective_slot_size z.
Proof. unfold effective_slot_size. intros. repeat case_zb; unfold SIZEOF_HEADER in *; lia. Qed.

Lemma new_handle_wf nm fd flags size a k ss :
  0 <= k < 64 -> SIZEOF_HEADER <= ss -> SIZEOF_CONTROL + 2 ^ k * ss < 2 ^ 64 ->
  wf_handle (new_handle nm fd flags size a (2 ^ k) ss) k.
Proof.
  intros Hk Hs Ht. split; try done. simpl. unfold sub64. apply u64_small.
  assert (0 < 2 ^ k < 2 ^ 64) by (split; [apply Z.pow_pos_nonneg|apply Z.pow_lt_mono_r]; lia).
  lia.
Qed.

Lemma total_size_small k ss :
  0 <= k < 64 -> SIZEOF_HEADER <= ss -> SIZEOF_CONTROL + 2 ^ k * ss < 2 ^ 64 ->
  total_size (2 ^ k) ss = SIZEOF_CONTROL + 2 ^ k * ss.
Proof.
  intros. assert (0 < 2 ^ k) by (apply Z.pow_pos_nonneg; lia).
  unfold total_size, add64, mul64, SIZEOF_CONTROL, SIZEOF_HEADER in *.
  rewrite (u64_small (2 ^ k * ss)) by nia. apply u64_small. nia.
Qed.

(** An initialised segment is an empty ring. *)
Lemma init_control_ring m k ss nm fd flags size a :
  0 <= k < 64 -> SIZEOF_HEADER <= ss -> SIZEOF_CONTROL + 2 ^ k * ss < 2 ^ 64 ->
  SIZEOF_CONTROL + 2 ^ k * ss <= zlen m ->
  exists m', init_control (2 ^ k) ss m = Some (tt, m') /\ zlen m' = zlen m /\
    ring (new_handle nm fd flags size a (2 ^ k) ss) k 0 0 [] m'.
Proof.
  intros Hk Hs Ht Hm. assert (0 < 2 ^ k) by (apply Z.pow_pos_nonneg; lia).
  unfold SIZEOF_HEADER, SIZEOF_CONTROL in *.
  destruct (init_control_spec m (2 ^ k) ss)
    as (m' & Hi & Hl & H1 & H2 & H3 & H4 & _ & H5 & H6);
    [unfold SIZEOF_CONTROL; nia|nia|nia|].
  exists m'. split; [done|]. split; [done|]. split; simpl; try done; try lia.
  - apply new_handle_wf; unfold SIZEOF_HEADER, SIZEOF_CONTROL; lia.
  - rewrite Hl. unfold SIZEOF_CONTROL. lia.
Qed.

(** ** Opening *)

(** The handle a successful open returns gives access to FIFO [f]. *)
Definition opened (f : fifo) (s : sys) (h : nabd) : Prop :=
  exists a w, q_ctrl h = Some a /\ window s a = Some w /\ is_fifo h f w /\
    q_reserved h = 0 /\ q_multi h = None.

Section Open.
Context {P : Posix} {L : PosixLaws P}.
Implicit Types (s : sys) (fd : Z).

(** The arguments accepted by [nabd_open]. *)
Definition flags_ok (flags : Z) : Prop :=
  has_flag flags NABD_PRODUCER = true \/ has_flag flags NABD_CONSUMER = true.

(** Run the failure paths: they are always defined. *)
Lemma wp_free_handle q nm s (Q : option (Z * nabd) -> sys -> Prop) :
  (forall s', no_refusal s s' -> Q None s') -> wp (free_handle q nm;; fail) s Q.
Proof.
  intros HQ. unfold free_handle, fail.
  apply wp_bind, wp_bind, wp_do, wp_do, wp_ret, HQ. by rewrite !free_law.
Qed.

Lemma wp_close_free fd q nm s (Q : option (Z * nabd) -> sys -> Prop) :
  (forall s', no_refusal s s' -> Q None s') -> wp (sys_do (close fd);; free_handle q nm;; fail) s Q.
Proof. intros HQ. apply wp_bind, wp_do. rewrite close_law. by apply wp_free_handle. Qed.

(** The same after a refusal. *)
Lemma wp_free_refused q nm s s1 (Q : option (Z * nabd) -> sys -> Prop) :
  (forall s', refusal s s' -> Q None s') -> refusal s s1 -> wp (free_handle q nm;; fail) s1 Q.
Proof.
  intros HQ H1. apply wp_free_handle. unfold refusal, no_refusal in *. intros s' ?. apply HQ. lia.
Qed.

Lemma wp_close_refused fd q nm s s1 (Q : option (Z * nabd) -> sys -> Prop) :
  (forall s', refusal s s' -> Q None s') -> refusal s s1 ->
  wp (sys_do (close fd);; free_handle q nm;; fail) s1 Q.
Proof.
  intros HQ H1. apply wp_bind, wp_do. rewrite close_law. by apply (wp_free_refused _ _ s).
Qed.

(** Everything before the descriptor is used: an open fails because the system refused
    something, or because there is no such name and none is to be created; otherwise it
    is enough to treat an open descriptor of an object whose names are as before. *)
Lemma wp_open name capacity slot_size flags s (Q : option (Z * nabd) -> sys -> Prop) :
  flags_ok flags -> (forall s', refusal s s' -> Q None s') ->
  (has_flag flags NABD_CREATE = false -> s_shm s !! name = None ->
     forall s', no_refusal s s' -> s_shm s' = s_shm s -> Q None s') ->
  (forall q nm fd s1, 0 <= fd -> s_map s1 = s_map s -> no_refusal s s1 ->
     (exists o, s_fd s1 !! fd = Some o /\ s_shm s1 !! name = Some o /\
        ((s_shm s !! name = Some o /\ s_obj s1 = s_obj s) \/
         (s_shm s !! name = None /\ has_flag flags NABD_CREATE = true /\
          s_obj s1 !! o = Some []))) ->
     wp (if has_flag flags NABD_CREATE
         then open_create name q nm fd (effective_capacity capacity)
                (effective_slot_size slot_size) flags
         else open_attach q nm fd flags) s1 Q) ->
  wp (nabd_open (Some name) capacity slot_size flags) s Q.
Proof.
  intros Hfl HQ Hmiss Hrest. unfold nabd_open. cbv zeta.
  assert (negb (has_flag flags NABD_PRODUCER) && negb (has_flag flags NABD_CONSUMER) = false) as ->.
  { destruct Hfl as [->| ->]; [done|apply andb_false_r]. }
  apply wp_bind, wp_call.
  destruct (calloc_law s) as [e|q Hq0 Hq]; [apply wp_ret, HQ; unfold refusal; simpl; lia|].
  apply wp_bind, wp_call.
  match goal with |- context [strdup name ?s1] => destruct (strdup_law name s1) as [e|nm Hn0 Hn] end.
  { apply wp_bind, wp_do, wp_ret, HQ. rewrite free_law. unfold refusal; simpl; lia. }
  apply wp_bind. unfold open_shm. apply wp_bind, wp_call.
  destruct (has_flag flags NABD_CREATE) eqn:Ec.
  - match goal with |- context [shm_open name ?fl ?s1] =>
      destruct (shm_open_law name fl s1) as
        [e He|o Ho _ _|Ho Hno|fd o Ho Hx Hfd Hnew|fd o Ho Hc Hob Hfd Hnew] end; [| |done|done|].
    + zb_true (-1 <? 0). apply wp_bind, wp_errno. simpl. zb_false (e =? EEXIST).
      apply wp_ret. apply (wp_free_refused _ _ s); [done|]. unfold refusal. simpl. lia.
    + zb_true (-1 <? 0). apply wp_bind, wp_errno. simpl. apply wp_call.
      match goal with |- context [shm_open name ?fl ?s1] =>
        destruct (shm_open_law name fl s1) as
          [e' _|o2 _ Hc _|Ho2 _|fd o2 Ho2 _ Hfd Hnew|fd o2 Ho2 Hc Hob Hfd Hnew] end; try done.
      * apply (wp_free_refused _ _ s); [done|]. unfold refusal. simpl. lia.
      * simpl in *. congruence.
      * zb_false (fd <? 0). apply Hrest; simpl in *; try done.
        exists o2. rewrite lookup_insert_eq. eauto 6.
    + zb_false (fd <? 0). apply wp_ret. zb_false (fd <? 0). apply Hrest; simpl in *; try done.
      exists o. rewrite !lookup_insert_eq. eauto 8.
  - match goal with |- context [shm_open name ?fl ?s1] =>
      destruct (shm_open_law name fl s1) as
        [e He|o Ho Hc _|Ho Hno|fd o Ho Hx Hfd Hnew|fd o Ho Hc Hob Hfd Hnew] end; try done.
    + zb_true (-1 <? 0). apply wp_bind, wp_errno, wp_ret.
      apply (wp_free_refused _ _ s); [done|]. unfold refusal. simpl. lia.
    + zb_true (-1 <? 0). apply wp_bind, wp_errno, wp_ret. simpl in *. unfold free_handle, fail.
      apply wp_bind, wp_bind, wp_do, wp_do, wp_ret. rewrite !free_law. by apply Hmiss.
    + zb_false (fd <? 0). apply wp_ret. zb_false (fd <? 0). apply Hrest; simpl in *; try done.
      exists o. rewrite lookup_insert_eq. eauto 6.
Qed.

(** Failing after the object was opened by a creation: the refusals so far count. *)
Lemma wp_undo_create name fd q nm s s1 (Q : option (Z * nabd) -> sys -> Prop) :
  (forall s', refusal s s' -> Q None s') -> refusal s s1 ->
  wp (sys_do (close fd);; sys_call (shm_unlink name);; free_handle q nm;; fail) s1 Q.
Proof.
  intros HQ H1. apply wp_bind, wp_do, wp_bind, wp_call. apply (wp_free_refused _ _ s); [done|].
  pose proof (shm_unlink_grows name (close fd s1)). pose proof (close_grows fd s1).
  unfold more_refused, refusal in *. lia.
Qed.

(** A created queue: its ring is empty, at position 0, in an object of its own. *)
Lemma open_create_ring name q nm fd k ss flags s :
  0 <= k < 64 -> SIZEOF_HEADER <= ss -> SIZEOF_CONTROL + 2 ^ k * ss < 2 ^ 63 ->
  is_Some (s_fd s !! fd) ->
  wp (open_create name q nm fd (2 ^ k) ss flags) s (fun r s' =>
    match r with
    | None => refusal s s'
    | Some (_, h) => exists a w, q_ctrl h = Some a /\ window s' a = Some w /\
        ring h k 0 0 [] w /\ q_capacity h = 2 ^ k /\ q_slot_size h = ss /\
        q_reserved h = 0 /\ q_multi h = None /\ s_shm s' = s_shm s /\
        exists o, s_fd s !! fd = Some o /\ s_map s' !! a = Some (o, q_size h)
    end).
Proof.
  intros Hk Hs Ht Hopen. assert (0 < 2 ^ k) by (apply Z.pow_pos_nonneg; lia).
  unfold open_create. rewrite (total_size_small k ss) by lia.
  set (size := SIZEOF_CONTROL + 2 ^ k * ss) in *.
  assert (0 < size) by (unfold size, SIZEOF_CONTROL, SIZEOF_HEADER in *; nia).
  apply wp_bind, wp_call. destruct (ftruncate_law fd size s) as [e|e Hno|o b Hfd Hob Hlen].
  { zb_true (-1 <? 0). apply (wp_undo_create _ _ _ _ s); [done|]. unfold refusal. simpl. lia. }
  { destruct Hno. unfold truncatable. split; [done|lia]. }
  zb_false (0 <? 0). apply wp_bind, wp_call.
  match goal with |- context [mmap size fd ?s1] =>
    destruct (mmap_law size fd s1) as [e|e Hno|a o1 Ho1 _ Ha Hnew] end.
  { apply (wp_undo_create _ _ _ _ s); [done|]. unfold refusal. simpl. lia. }
  { destruct Hno. by split. }
  simpl in Ho1. rewrite Hfd in Ho1. injection Ho1 as <-.
  set (b' := resize (Z.to_nat size) Byte.x00 b).
  assert (zlen b' = size) as Hb' by (unfold zlen, b'; rewrite length_resize; lia).
  assert (take (Z.to_nat size) b' = b') as Htake by (apply take_ge; unfold zlen in Hb'; lia).
  destruct (init_control_ring b' k ss nm fd flags size a) as (w & Hi & Hwl & R);
    [lia|done|lia|by fold size; lia|].
  apply wp_bind. eapply (wp_on_map _ _ _ o size b').
  - simpl. apply lookup_insert_eq.
  - simpl. apply lookup_insert_eq.
  - by rewrite Htake.
  - apply wp_ret. exists a, w. split; [done|]. split.
    { unfold window. simpl. rewrite lookup_insert_eq, lookup_insert_eq. simpl. f_equal.
      rewrite drop_ge by (unfold zlen in Hb'; lia). rewrite app_nil_r. apply take_ge.
      unfold zlen in *. lia. }
    split_and!; try done. exists o. split; [done|]. apply lookup_insert_eq.
Qed.

Lemma open_create_spec name q nm fd k ss flags s :
  0 <= k < 64 -> SIZEOF_HEADER <= ss -> SIZEOF_CONTROL + 2 ^ k * ss < 2 ^ 63 ->
  is_Some (s_fd s !! fd) ->
  wp (open_create name q nm fd (2 ^ k) ss flags) s (fun r s' =>
    match r with
    | None => refusal s s'
    | Some (_, h) => opened (Fifo (2 ^ k) (ss - SIZEOF_HEADER) []) s' h
    end).
Proof.
  intros. eapply wp_mono; [by apply open_create_ring|]. intros [[p h]|] s' Hr; [|done].
  destruct Hr as (a & w & ? & ? & R & Hc & Hs & ? & ? & _). exists a, w. split_and!; try done.
  exists k, 0, 0. rewrite Hc, Hs. done.
Qed.

(** What an attach makes of a segment: it fails without the magic number, or when the
    system refuses a mapping, or when the size computed from the segment is zero;
    otherwise the handle has the capacity and slot size found there. *)
Lemma open_attach_reads q nm fd flags s o b :
  s_fd s !! fd = Some o -> s_obj s !! o = Some b -> SIZEOF_CONTROL <= zlen b ->
  wp (open_attach q nm fd flags) s (fun r s' =>
    match r with
    | None => refusal s s' \/ rd 8 b OFF_MAGIC <> NABD_MAGIC \/
              total_size (rd 8 b OFF_CAPACITY) (rd 8 b OFF_SLOT_SIZE) <= 0
    | Some (_, h) =>
        rd 8 b OFF_MAGIC = NABD_MAGIC /\ s_obj s' = s_obj s /\
        let size := total_size (rd 8 b OFF_CAPACITY) (rd 8 b OFF_SLOT_SIZE) in
        exists a, h = new_handle nm fd flags size a (rd 8 b OFF_CAPACITY) (rd 8 b OFF_SLOT_SIZE) /\
                  window s' a = Some (take (Z.to_nat size) b) /\
                  s_map s' !! a = Some (o, size) /\ s_shm s' = s_shm s
    end).
Proof.
  intros Hfd Hob Hlen. unfold open_attach. apply wp_bind, wp_call.
  destruct (mmap_law SIZEOF_CONTROL fd s) as [e|e Hno|a o1 Ho1 _ Ha Hnew].
  { apply (wp_close_refused _ _ _ s); [by left|]. unfold refusal. simpl. lia. }
  { destruct Hno. by split; [exists o|]. }
  rewrite Hfd in Ho1. injection Ho1 as <-.
  assert (forall off, 0 <= off -> off + 8 <= SIZEOF_CONTROL ->
    ld 8 off (take (Z.to_nat SIZEOF_CONTROL) b)
    = Some (rd 8 b off, take (Z.to_nat SIZEOF_CONTROL) b)) as Hld.
  { intros off ? ?. unfold SIZEOF_CONTROL in *. rewrite ld_in.
    - unfold rd. rewrite slice_take by lia. done.
    - unfold in_mem, zlen in *. rewrite length_take. lia. }
  set (s1 := set_map (<[a := (o, SIZEOF_CONTROL)]> (s_map s)) s).
  assert (s_map s1 !! a = Some (o, SIZEOF_CONTROL)) as Ha1 by apply lookup_insert_eq.
  assert (s_obj s1 !! o = Some b) as Hob1 by done.
  apply wp_bind. eapply wp_on_map_read; [exact Ha1|exact Hob1|by apply Hld|].
  destruct (Z.eqb_spec (rd 8 b OFF_MAGIC) NABD_MAGIC) as [Hm|Hm]; simpl.
  - apply wp_bind. eapply wp_on_map_read; [exact Ha1|exact Hob1|by apply Hld|]. apply wp_bind.
    eapply wp_on_map_read; [exact Ha1|exact Hob1|by apply Hld|].
    set (size := total_size _ _). cbv zeta.
    apply wp_bind, wp_do. rewrite (munmap_mapped _ _ _ o Ha1). apply wp_bind, wp_call.
    match goal with |- context [mmap size fd ?s1] =>
      destruct (mmap_law size fd s1) as [e|e Hno|a2 o2 Ho2 _ Ha2 Hnew2] end.
    { apply (wp_close_refused _ _ _ s); [by left|]. unfold refusal. simpl. lia. }
    { apply wp_close_free. intros s' _. right. right. destruct (Z.leb_spec size 0); [done|].
      destruct Hno. by split; [exists o|]. }
    simpl in Ho2. rewrite Hfd in Ho2. injection Ho2 as <-. apply wp_ret.
    split; [done|]. split; [done|]. exists a2. split; [done|].
    unfold window. simpl. rewrite lookup_insert_eq, Hob. done.
  - apply wp_bind, wp_do, wp_bind, wp_do, wp_bind. unfold free_handle.
    apply wp_bind, wp_do, wp_do, wp_bind, wp_do, wp_ret. auto.
Qed.

(** Attaching to a segment that holds a queue. *)
Lemma open_attach_ring q nm fd flags s o b h0 k H T ms :
  s_fd s !! fd = Some o -> s_obj s !! o = Some b -> ring h0 k H T ms b ->
  wp (open_attach q nm fd flags) s (fun r s' =>
    match r with
    | None => refusal s s'
    | Some (_, h) => exists a w, q_ctrl h = Some a /\ window s' a = Some w /\
        ring h k H T ms w /\ same_ring h0 h /\ q_reserved h = 0 /\ q_multi h = None /\
        s_obj s' = s_obj s /\ s_shm s' = s_shm s /\ s_map s' !! a = Some (o, q_size h)
    end).
Proof.
  intros Hfd Hob R. pose proof (r_wf _ _ _ _ _ _ R) as W.
  pose proof (r_control _ _ _ _ _ _ R) as [Cm Cv Cc Cs].
  pose proof (r_len _ _ _ _ _ _ R) as Hlen. pose proof (pow_k _ _ W) as Hp.
  pose proof (wf_slot _ _ W) as Hss. pose proof (wf_size _ _ W) as Hsz.
  eapply wp_mono; [eapply open_attach_reads; [exact Hfd|exact Hob|]|].
  { unfold SIZEOF_CONTROL, SIZEOF_HEADER in *. nia. }
  intros [[p h]|] s' Hr.
  2: { destruct Hr as [Hr|[Hr|Hr]]; [done|congruence|]. exfalso. revert Hr.
    rewrite Cc, Cs, (wf_cap _ _ W). rewrite (total_size_small k);
      (destruct (wf_k _ _ W); unfold SIZEOF_CONTROL, SIZEOF_HEADER in *; nia). }
  destruct Hr as (_ & Hobj & a & -> & Hw & Hmap & Hshm).
  rewrite Cc, Cs, (wf_cap _ _ W) in Hw, Hmap |- *.
  rewrite (total_size_small k) in Hw, Hmap |- * by (destruct (wf_k _ _ W); unfold SIZEOF_HEADER in *; lia).
  assert (same_ring h0 (new_handle nm fd flags (SIZEOF_CONTROL + 2 ^ k * q_slot_size h0) a (2 ^ k)
                          (q_slot_size h0))) as Hsame.
  { repeat split; simpl; try apply W. rewrite (wf_mask _ _ W).
    unfold sub64. symmetry. apply u64_small. lia. }
  eexists a, _. split; [done|]. split; [exact Hw|]. split_and!; try done.
  apply (ring_same h0); [done|by apply ring_take].
Qed.

Lemma open_attach_spec q nm fd flags s o b h0 f :
  s_fd s !! fd = Some o -> s_obj s !! o = Some b -> is_fifo h0 f b ->
  wp (open_attach q nm fd flags) s (fun r s' =>
    match r with
    | None => refusal s s'
    | Some (_, h) => opened f s' h /\ s_obj s' = s_obj s
    end).
Proof.
  intros Hfd Hob (k & H & T & R & Hb & Hx).
  eapply wp_mono; [by eapply open_attach_ring|]. intros [[p h]|] s' Hr; [|done].
  destruct Hr as (a & w & ? & ? & R' & (E1 & _ & E2 & _) & ? & ? & ? & _). split; [|done].
  exists a, w. split_and!; try done. exists k, H, T. split_and!; [done|congruence..].
Qed.

(** [shm_unlink] of a name that is bound succeeds. *)
Definition unlink_works (name : string) : Prop :=
  forall s, is_Some (s_shm s !! name) -> fst (shm_unlink name s) = 0.

Lemma unlink_unbinds name s : unlink_works name -> s_shm (snd (shm_unlink name s)) !! name = None.
Proof.
  intros U. specialize (U s). destruct (shm_unlink_law name s) as [e|Ho|o Ho]; simpl.
  - destruct (s_shm s !! name) as [o|] eqn:E; [|done]. simpl in U. by specialize (U ltac:(by eexists)).
  - done.
  - apply lookup_delete_eq.
Qed.

(** A creation that fails leaves the name unbound if it was so. *)
Lemma failed_create_unbound name capacity slot_size flags s :
  unlink_works name -> has_flag flags NABD_CREATE = true -> s_shm s !! name = None ->
  wlp (nabd_open (Some name) capacity slot_size flags) s (fun r s' => r = None -> s_shm s' !! name = None).
Proof.
  intros U Hc Hn. unfold nabd_open, fail. cbv zeta. rewrite Hc.
  assert (forall q nm s1, s_shm s1 !! name = None ->
    wlp (free_handle q nm;; mret (M := IO) None) s1 (fun (r : option (Z * nabd)) s' => r = None -> s_shm s' !! name = None)) as Hf.
  { intros q nm s1 H1. unfold free_handle. apply wlp_bind, wlp_bind, wlp_do, wlp_do, wlp_ret. by rewrite !free_law. }
  destruct (negb _ && negb _); [by apply wlp_bind, wlp_do, wlp_ret|].
  apply wlp_bind, wlp_call. destruct (calloc_law s) as [e|q _ _]; [by apply wlp_ret|].
  apply wlp_bind, wlp_call.
  match goal with |- context [strdup name ?s1] => destruct (strdup_law name s1) as [e|nm _ _] end.
  { apply wlp_bind, wlp_do, wlp_ret. by rewrite free_law. }
  apply wlp_bind. unfold open_shm. apply wlp_bind, wlp_call.
  match goal with |- context [shm_open name ?fl ?s1] =>
    destruct (shm_open_law name fl s1) as [e He|o Ho|_ Hno|fd o Ho|fd o _ _ _ Hfd _] end;
    [|simpl in Ho; congruence|done|simpl in Ho; congruence|].
  - zb_true (-1 <? 0). apply wlp_bind, wlp_errno. simpl. zb_false (e =? EEXIST).
    apply wlp_ret. simpl. by apply Hf.
  - zb_false (fd <? 0). apply wlp_ret. zb_false (fd <? 0). unfold open_create.
    assert (forall q nm s1, wlp (sys_do (close fd);; sys_call (shm_unlink name);; free_handle q nm;; fail) s1
      (fun (r : option (Z * nabd)) s' => r = None -> s_shm s' !! name = None)) as Hu.
    { intros q' nm' s1. apply wlp_bind, wlp_do, wlp_bind, wlp_call, Hf. by apply unlink_unbinds. }
    apply wlp_bind, wlp_call. destruct (_ <? 0); [apply Hu|].
    apply wlp_bind, wlp_call. destruct (fst _); [|apply Hu].
    apply wlp_bind, wlp_on_map. intros ? ? ?. by apply wlp_ret.
Qed.
End Open.
