(* ===== verification/MultiConsumer.v ===== *)
(** * Consumer groups (src/nabd.c, lines 521-760)

    The multi-consumer block holds sixteen groups, each with its own read position,
    an [active] flag claimed by compare-and-swap, and an identifier.  The block is
    "placed after the ring buffer in shared memory", so it is part of the memory the
    computations run on, at the offset [q_multi] of the handle.

    The weak compare-and-swap may fail spuriously and [calloc] may fail: [spurious]
    (which attempts fail) and [alloc] (whether the allocation succeeds) are arguments.
    A function that sets [errno] returns the value it sets. *)

From S2P Require Import Prelude Words Pow2 Memory Layout Fifo Queue Ring Posix.
Local Open Scope Z_scope.

(** ** Data *)

(** [struct nabd_consumer] *)
Record nabd_consumer := NabdConsumer {
  cn_queue : nabd;
  cn_group : Z;                 (* offset of the group *)
  cn_group_id : Z
}.

(** [nabd_consumer_stats_t] *)
Record nabd_consumer_stats_t := NabdConsumerStats {
  cs_group_id : Z; cs_active : Z; cs_tail : Z; cs_lag : Z
}.

Definition NABD_MULTI_MAGIC : Z := 0x4D4C544E55425444.

(** [&multi->groups[i]] *)
Definition group_addr (multi : Z) (i : nat) : Z :=
  multi + MULTI_GROUPS + SIZEOF_GROUP * Z.of_nat i.

(** ** Claiming and joining *)

(** The identifier of a claimed group: [0] selects the slot number plus one. *)
Definition assigned_id (group_id : Z) (i : nat) : Z :=
  if negb (group_id =? 0) then group_id else u32 (Z.of_nat i + 1).

(** The weak compare-and-swap on a 32-bit word, one step: it may fail spuriously.  On
    failure [*expected] is overwritten; the loop resets it at every turn. *)
Definition NABD_CAS_ACQ_REL (spurious : bool) (ptr expected desired : Z) : C bool :=
  v ← ld 4 ptr;
  if (v =? expected) && negb spurious then st 4 ptr desired;; mret true else mret false.

(** The [for] loop of [nabd_consumer_create]: [n] slots left, the next is [i]. *)
Fixpoint claim_loop (spurious : nat -> bool) (group_id multi : Z) (n i : nat)
    : C (option (Z * Z)) :=
  match n with
  | O => mret None
  | S n =>
      let g := group_addr multi i in
      claimed ← NABD_CAS_ACQ_REL (spurious i) (g + GRP_ACTIVE) 0 1;
      if claimed : bool then
        let id := assigned_id group_id i in
        st 4 (g + GRP_ID) id;;
        head ← ld 8 OFF_HEAD;
        st 8 (g + GRP_TAIL) head;;
        mret (Some (g, id))
      else claim_loop spurious group_id multi n (S i)
  end.

(** The handle, and the value assigned to [errno] if any. *)
Definition nabd_consumer_create (spurious : nat -> bool) (alloc : bool) (q : option nabd)
    (group_id : Z) : C (option nabd_consumer * option Z) :=
  match q with
  | None => mret (None, None)
  | Some h =>
      match q_multi h with
      | None => mret (None, Some EINVAL)
      | Some multi =>
          r ← claim_loop spurious group_id multi (Z.to_nat NABD_MAX_CONSUMERS) 0;
          match r with
          | None => mret (None, Some ENOMEM)
          | Some (group, id) =>
              if alloc then mret (Some (NabdConsumer h group id), None)
              else st 4 (group + GRP_ACTIVE) 0;; mret (None, None)
          end
      end
  end.

(** The [for] loop of [nabd_consumer_join]. *)
Fixpoint join_loop (group_id multi : Z) (n i : nat) : C (option Z) :=
  match n with
  | O => mret None
  | S n =>
      let g := group_addr multi i in
      active ← ld 4 (g + GRP_ACTIVE);
      if negb (active =? 0) then
        id ← ld 4 (g + GRP_ID);
        if id =? group_id then mret (Some g) else join_loop group_id multi n (S i)
      else join_loop group_id multi n (S i)
  end.

Definition nabd_consumer_join (alloc : bool) (q : option nabd) (group_id : Z)
    : C (option nabd_consumer * option Z) :=
  match q with
  | None => mret (None, None)
  | Some h =>
      if group_id =? 0 then mret (None, None) else
      match q_multi h with
      | None => mret (None, Some EINVAL)
      | Some multi =>
          r ← join_loop group_id multi (Z.to_nat NABD_MAX_CONSUMERS) 0;
          match r with
          | None => mret (None, Some ENOENT)
          | Some group =>
              if alloc then mret (Some (NabdConsumer h group group_id), None)
              else mret (None, None)
          end
      end
  end.

(** The group stays active: other consumers may be using it. *)
Definition nabd_consumer_close (c : option nabd_consumer) : C Z :=
  match c with
  | None => mret (NABD_INVALID : Z)
  | Some _ => mret (NABD_OK : Z)
  end.

(** ** Consuming *)

Definition nabd_consumer_pop (c : option nabd_consumer) (buf : option (list byte))
    (len : option Z) : C (Z * option (list byte) * option Z) :=
  match c, buf, len with
  | Some c, Some dst, Some cap =>
      let q := cn_queue c in
      let group := cn_group c in
      tail ← ld 8 (group + GRP_TAIL);
      head ← ld 8 OFF_HEAD;
      if head <=? tail then mret (NABD_EMPTY : Z, buf, len) else
      let slot := get_slot q tail in
      msg_len ← ld 2 (slot + HDR_LENGTH);
      if cap <? msg_len then mret (NABD_TOOBIG : Z, buf, Some msg_len) else
      dst' ← memcpy_out dst (slot + SIZEOF_HEADER) msg_len;
      st 8 (group + GRP_TAIL) (add64 tail 1);;
      mret (NABD_OK : Z, Some dst', Some msg_len)
  | _, _, _ => mret (NABD_INVALID : Z, buf, len)
  end.

Definition nabd_consumer_peek (c : option nabd_consumer) (data len : option Z)
    : C (Z * option Z * option Z) :=
  match c, data, len with
  | Some c, Some _, Some _ =>
      let q := cn_queue c in
      let group := cn_group c in
      tail ← ld 8 (group + GRP_TAIL);
      head ← ld 8 OFF_HEAD;
      if head <=? tail then mret (NABD_EMPTY : Z, data, len) else
      let hdr := get_slot_header q tail in
      length ← ld 2 (hdr + HDR_LENGTH);
      mret (NABD_OK : Z, Some (get_slot_payload q tail), Some length)
  | _, _, _ => mret (NABD_INVALID : Z, data, len)
  end.

Definition nabd_consumer_release (c : option nabd_consumer) : C Z :=
  match c with
  | Some c =>
      tail ← ld 8 (cn_group c + GRP_TAIL);
      st 8 (cn_group c + GRP_TAIL) (add64 tail 1);;
      mret (NABD_OK : Z)
  | None => mret (NABD_INVALID : Z)
  end.

Definition nabd_consumer_stats (c : option nabd_consumer) (stats : option nabd_consumer_stats_t)
    : C (Z * option nabd_consumer_stats_t) :=
  match c, stats with
  | Some c, Some _ =>
      head ← ld 8 OFF_HEAD;
      tail ← ld 8 (cn_group c + GRP_TAIL);
      active ← ld 4 (cn_group c + GRP_ACTIVE);
      let lag := if tail <? head then sub64 head tail else 0 in
      mret (NABD_OK : Z, Some (NabdConsumerStats (cn_group_id c) active tail lag))
  | _, _ => mret (NABD_INVALID : Z, stats)
  end.

(** ** The slowest group *)

Fixpoint min_tail_loop (multi : Z) (n i : nat) (min_tail : Z) : C Z :=
  match n with
  | O => mret min_tail
  | S n =>
      let g := group_addr multi i in
      active ← ld 4 (g + GRP_ACTIVE);
      if negb (active =? 0) then
        tail ← ld 8 (g + GRP_TAIL);
        min_tail_loop multi n (S i) (if tail <? min_tail then tail else min_tail)
      else min_tail_loop multi n (S i) min_tail
  end.

(** With a null handle the code reads [q->ctrl] all the same: undefined. *)
Definition nabd_min_tail (q : option nabd) : C Z :=
  match q with
  | None => undef
  | Some h =>
      match q_multi h with
      | None => ld 8 OFF_TAIL
      | Some multi =>
          min_tail ← min_tail_loop multi (Z.to_nat NABD_MAX_CONSUMERS) 0 UINT64_MAX;
          if min_tail =? UINT64_MAX then ld 8 OFF_TAIL else mret min_tail
      end
  end.

(** ** The groups as a list *)

Record group := Group { g_tail : Z; g_active : Z; g_id : Z }.

Definition read_group (m : mem) (M : Z) (i : nat) : group :=
  let g := group_addr M i in
  Group (rd 8 m (g + GRP_TAIL)) (rd 4 m (g + GRP_ACTIVE)) (rd 4 m (g + GRP_ID)).

Definition groups (m : mem) (M : Z) : list group := map (read_group m M) (seq 0 16).

(** The block lies after the ring and inside the memory. *)
Definition placed (q : nabd) (k M : Z) (m : mem) : Prop :=
  q_multi q = Some M /\ SIZEOF_CONTROL + 2 ^ k * q_slot_size q <= M /\ M + SIZEOF_MULTI <= zlen m.

(** The first group the claim succeeds on, from number [i]. *)
Fixpoint pick (spurious : nat -> bool) (i : nat) (gs : list group) : option nat :=
  match gs with
  | [] => None
  | g :: gs => if (g_active g =? 0) && negb (spurious i) then Some i else pick spurious (S i) gs
  end.

(** The first active group with identifier [id]. *)
Fixpoint find_id (id : Z) (i : nat) (gs : list group) : option nat :=
  match gs with
  | [] => None
  | g :: gs => if negb (g_active g =? 0) && (g_id g =? id) then Some i else find_id id (S i) gs
  end.

Definition min_step (acc : Z) (g : group) : Z :=
  if negb (g_active g =? 0) && (g_tail g <? acc) then g_tail g else acc.

(** The read positions of the active groups. *)
Definition active_tails (gs : list group) : list Z :=
  g_tail <$> filter (fun g => g_active g <> 0) gs.

(** What one group has still to read: messages [ms] at positions [T..H-1], not yet
    overwritten and with indices that have not wrapped. *)
Record stream (q : nabd) (k H T : Z) (ms : list msg) (m : mem) (g : Z) : Prop := {
  sm_wf : wf_handle q k;
  sm_len : SIZEOF_CONTROL + 2 ^ k * q_slot_size q <= zlen m;
  sm_place : SIZEOF_CONTROL + 2 ^ k * q_slot_size q <= g /\ g + SIZEOF_GROUP <= zlen m;
  sm_head : rd 8 m OFF_HEAD = H;
  sm_tail : rd 8 m (g + GRP_TAIL) = T;
  sm_range : 0 <= T /\ H < 2 ^ 64;
  sm_count : zlen ms = H - T;
  sm_bound : H - T <= 2 ^ k;
  sm_msgs : forall i d, ms !! i = Some d -> holds q k m (T + Z.of_nat i) d
}.

Arguments group_addr : simpl never.
Arguments nabd_consumer_create : simpl never.
Arguments nabd_consumer_join : simpl never.
Arguments nabd_consumer_pop : simpl never.
Arguments nabd_consumer_peek : simpl never.
Arguments nabd_consumer_release : simpl never.
Arguments nabd_consumer_stats : simpl never.
Arguments nabd_min_tail : simpl never.

(** ** Reading and writing the block *)

Section Block.
Context (q : nabd) (k M : Z).

Lemma placed_in m i o w :
  wf_handle q k -> placed q k M m -> (i < 16)%nat -> 0 <= o -> o + Z.of_nat w <= SIZEOF_GROUP ->
  in_mem m (group_addr M i + o) (Z.of_nat w).
Proof.
  intros W (_ & H1 & H2) Hi ? ?. pose proof (pow_k _ _ W). pose proof (wf_slot _ _ W).
  unfold in_mem, group_addr, SIZEOF_MULTI, SIZEOF_GROUP, MULTI_GROUPS, SIZEOF_CONTROL, SIZEOF_HEADER in *.
  nia.
Qed.

Lemma placed_after m i :
  wf_handle q k -> placed q k M m ->
  SIZEOF_CONTROL + 2 ^ k * q_slot_size q <= group_addr M i.
Proof.
  intros W (_ & H1 & H2). unfold group_addr, SIZEOF_GROUP, MULTI_GROUPS, SIZEOF_CONTROL in *. lia.
Qed.

Lemma placed_frame off n m m' : frame off n m m' -> placed q k M m -> placed q k M m'.
Proof. intros Hf (? & ? & ?). unfold placed. by rewrite (frame_len _ _ _ _ Hf). Qed.

Lemma groups_length m : length (groups m M) = 16%nat.
Proof. done. Qed.

Lemma groups_lookup m i : (i < 16)%nat -> groups m M !! i = Some (read_group m M i).
Proof.
  intros Hi. change (groups m M) with (read_group m M <$> seq 0 16).
  rewrite list_lookup_fmap, lookup_seq_lt by done. done.
Qed.

(** A change outside the block keeps the groups. *)
Lemma groups_frame off n m m' :
  frame off n m m' -> 0 <= M ->
  (forall i, (i < 16)%nat -> off + n <= group_addr M i \/ group_addr M i + SIZEOF_GROUP <= off) ->
  groups m' M = groups m M.
Proof.
  intros Hf HM Hd. apply list_eq. intros i. destruct (decide (i < 16)%nat).
  - rewrite !groups_lookup by done. unfold read_group. specialize (Hd i l).
    unfold group_addr, GRP_TAIL, GRP_ACTIVE, GRP_ID, SIZEOF_GROUP, MULTI_GROUPS in *.
    by rewrite !(frame_rd _ _ _ _ _ _ Hf) by lia.
  - rewrite !lookup_ge_None_2; [done|rewrite groups_length; lia..].
Qed.

(** A change inside group [j] changes that group only. *)
Lemma groups_update m m' j :
  frame (group_addr M j) SIZEOF_GROUP m m' -> 0 <= M -> (j < 16)%nat ->
  groups m' M = <[j := read_group m' M j]> (groups m M).
Proof.
  intros Hf HM Hj. apply list_eq. intros i. destruct (decide (i < 16)%nat).
  - destruct (decide (i = j)) as [->|].
    + rewrite list_lookup_insert_eq by (by rewrite groups_length). by apply groups_lookup.
    + rewrite list_lookup_insert_ne by done. rewrite !groups_lookup by done. unfold read_group.
      unfold group_addr, GRP_TAIL, GRP_ACTIVE, GRP_ID, SIZEOF_GROUP, MULTI_GROUPS in *.
      by rewrite !(frame_rd _ _ _ _ _ _ Hf) by lia.
  - rewrite !lookup_ge_None_2; [done|..]; rewrite ?length_insert, groups_length; lia.
Qed.

Lemma groups_drop m i :
  (i < 16)%nat -> drop i (groups m M) = read_group m M i :: drop (S i) (groups m M).
Proof. intros. apply drop_S. by apply groups_lookup. Qed.

End Block.

(** ** Claiming *)

Section Claim.
Context (q : nabd) (k M : Z) (W : wf_handle q k).

(** What a successful claim of group [j] writes. *)
Definition claim_mem (m : mem) (j : nat) (id head : Z) : mem :=
  let g := group_addr M j in
  wr 8 (wr 4 (wr 4 m (g + GRP_ACTIVE) 1) (g + GRP_ID) id) (g + GRP_TAIL) head.

Lemma cas_inv sp ptr expected desired m b m' :
  NABD_CAS_ACQ_REL sp ptr expected desired m = Some (b, m') ->
  if b then rd 4 m ptr = expected /\ st 4 ptr desired m = Some (tt, m') else m' = m.
Proof.
  unfold NABD_CAS_ACQ_REL. intros (v & m1 & [-> ->]%ld_inv & Hs)%bind_inv. revert Hs.
  destruct (_ =? _) eqn:Hv, sp; simpl; try (by intros [= <- <-]).
  intros ([] & m1 & Hst & [= <- <-])%bind_inv. zbool. done.
Qed.

Lemma bind_cas {A} sp m ptr expected desired (f : bool -> C A) :
  in_mem m ptr 4 ->
  (claimed ← NABD_CAS_ACQ_REL sp ptr expected desired; f claimed) m
  = if (rd 4 m ptr =? expected) && negb sp then f true (wr 4 m ptr desired) else f false m.
Proof.
  intros Hin. unfold NABD_CAS_ACQ_REL, mbind, ST_bind. rewrite (ld_in _ 4) by done.
  destruct ((_ =? _) && _); [by rewrite (st_in _ 4)|done].
Qed.

Lemma claim_loop_run spurious gid m n i :
  placed q k M m -> (n + i = 16)%nat ->
  claim_loop spurious gid M n i m
  = Some (match pick spurious i (drop i (groups m M)) with
          | Some j => (Some (group_addr M j, assigned_id gid j),
                       claim_mem m j (assigned_id gid j) (rd 8 m OFF_HEAD))
          | None => (None, m)
          end).
Proof.
  intros Hp. revert i. induction n as [|n IH]; intros i Hi; simpl.
  { rewrite drop_ge by (rewrite groups_length; lia). done. }
  assert (forall o w, 0 <= o -> o + Z.of_nat w <= SIZEOF_GROUP ->
            in_mem m (group_addr M i + o) (Z.of_nat w)) as Hin
    by (intros; eapply placed_in; [exact W|exact Hp|lia..]).
  pose proof (Hin 0 8%nat) as Ht. pose proof (Hin 8 4%nat) as Ha. pose proof (Hin 12 4%nat) as Hg.
  pose proof (placed_after q k M m i W Hp) as Hpos. pose proof (pow_k _ _ W).
  pose proof (wf_slot _ _ W).
  unfold claim_mem, GRP_ACTIVE, GRP_ID, GRP_TAIL, OFF_HEAD, SIZEOF_GROUP, SIZEOF_CONTROL, SIZEOF_HEADER in *.
  assert (72 <= group_addr M i) by nia.
  rewrite bind_cas by (apply Ha; lia). rewrite groups_drop by lia. cbn [pick g_active read_group].
  unfold GRP_ACTIVE. destruct ((rd 4 m (group_addr M i + 8) =? 0) && negb (spurious i)); [|apply IH; lia].
  cbv zeta. specialize (Ht ltac:(lia) ltac:(lia)). specialize (Ha ltac:(lia) ltac:(lia)).
  specialize (Hg ltac:(lia) ltac:(lia)).
  c_st. erewrite bind_ret by (apply ld_in; zl). rewrite !rd_wr by zl.
  erewrite bind_ret by (apply st_in; zl). done.
Qed.

Lemma pick_spec spurious i gs j :
  pick spurious i gs = Some j ->
  exists g, (i <= j)%nat /\ gs !! (j - i)%nat = Some g /\ g_active g = 0 /\ spurious j = false /\
    forall i' g', (i <= i' < j)%nat -> gs !! (i' - i)%nat = Some g' -> g_active g' <> 0 \/ spurious i' = true.
Proof.
  revert i. induction gs as [|g gs IH]; simpl; intros i; [done|].
  destruct (g_active g =? 0) eqn:E1; destruct (spurious i) eqn:E2; simpl; zbool.
  2: { intros [= <-]. exists g. rewrite Nat.sub_diag. split_and!; done || lia. }
  all: intros Hp; destruct (IH _ Hp) as (g0 & Hle & Hg & Ha & Hs & Hf); exists g0;
    replace (j - i)%nat with (S (j - S i)) by lia; split_and!; try (done || lia);
    intros i' g' Hi' Hl; destruct (decide (i' = i)) as [->|];
    [rewrite Nat.sub_diag in Hl; simplify_eq/=; auto|
     apply (Hf i'); [lia|by replace (i' - i)%nat with (S (i' - S i)) in Hl by lia]].
Qed.

Lemma pick_none spurious i gs :
  pick spurious i gs = None ->
  forall i' g', gs !! i' = Some g' -> g_active g' <> 0 \/ spurious (i + i')%nat = true.
Proof.
  revert i. induction gs as [|g gs IH]; simpl; intros i Hp i' g' Hl; [done|].
  destruct (g_active g =? 0) eqn:E1; destruct (spurious i) eqn:E2; simpl in *; zbool; try done;
    (destruct i' as [|i']; simpl in Hl; [simplify_eq; rewrite Nat.add_0_r; auto|]);
    rewrite Nat.add_succ_r; by apply (IH (S i)).
Qed.

(** Without spurious failures the claim takes the first inactive group. *)
Lemma list_find_pick gs :
  list_find (fun g => g_active g = 0) gs
  = j ← pick (fun _ => false) 0 gs; (fun g => (j, g)) <$> gs !! j.
Proof.
  assert (forall i, pick (fun _ => false) i gs = Nat.add i <$> (fst <$> list_find (fun g => g_active g = 0) gs)) as Hp.
  { induction gs as [|g gs IH]; simpl; intros i; [done|]. destruct (Z.eqb_spec (g_active g) 0); simpl.
    - rewrite decide_True by done. simpl. by rewrite Nat.add_0_r.
    - rewrite decide_False by done. rewrite IH. destruct (list_find _ gs) as [[j g']|]; [|done].
      simpl. by rewrite Nat.add_succ_r. }
  rewrite Hp. destruct (list_find _ gs) as [[j g]|] eqn:E; [|done]. simpl.
  apply list_find_Some in E as (-> & _). done.
Qed.

(** The claimed group: active, with its identifier, at the current head. *)
Lemma claim_groups m j id head :
  placed q k M m -> (j < 16)%nat -> 0 <= head < 2 ^ 64 -> 0 <= id < 2 ^ 32 ->
  frame (group_addr M j) SIZEOF_GROUP m (claim_mem m j id head) /\
  groups (claim_mem m j id head) M = <[j := Group head 1 id]> (groups m M).
Proof.
  intros Hp Hj Hh Hid.
  assert (forall o w, 0 <= o -> o + Z.of_nat w <= SIZEOF_GROUP ->
            in_mem m (group_addr M j + o) (Z.of_nat w)) as Hin
    by (intros; eapply placed_in; [exact W|exact Hp|lia..]).
  pose proof (Hin 0 8%nat) as Ht. pose proof (Hin 8 4%nat) as Ha. pose proof (Hin 12 4%nat) as Hg.
  destruct Hp as (_ & HM & _). pose proof (pow_k _ _ W). pose proof (wf_slot _ _ W).
  unfold claim_mem, GRP_ACTIVE, GRP_ID, GRP_TAIL, SIZEOF_GROUP, SIZEOF_CONTROL, SIZEOF_HEADER in *.
  specialize (Ht ltac:(lia) ltac:(lia)). specialize (Ha ltac:(lia) ltac:(lia)).
  specialize (Hg ltac:(lia) ltac:(lia)). assert (0 <= M) by nia.
  assert (frame (group_addr M j) 64 m
    (wr 8 (wr 4 (wr 4 m (group_addr M j + 8) 1) (group_addr M j + 12) id) (group_addr M j + 0) head)) as Hf.
  { repeat (apply frame_wr_in; [|zl|lia|lia]). apply frame_refl. }
  split; [done|]. rewrite (groups_update M m) with (j := j) by done. f_equal.
  unfold read_group, GRP_ACTIVE, GRP_ID, GRP_TAIL. f_equal.
  - rewrite rd_wr_same by zl. by apply Z.mod_small.
  - rewrite rd_wr by zl. rewrite rd_wr by zl. by rewrite rd_wr_same by zl.
  - rewrite rd_wr by zl. rewrite rd_wr_same by zl. by apply Z.mod_small.
Qed.

(** Giving a claimed group back. *)
Lemma release_groups m j :
  placed q k M m -> (j < 16)%nat ->
  let m' := wr 4 m (group_addr M j + GRP_ACTIVE) 0 in
  frame (group_addr M j) SIZEOF_GROUP m m' /\
  groups m' M = <[j := Group (g_tail (read_group m M j)) 0 (g_id (read_group m M j))]> (groups m M).
Proof.
  intros Hp Hj m'.
  assert (forall o w, 0 <= o -> o + Z.of_nat w <= SIZEOF_GROUP ->
            in_mem m (group_addr M j + o) (Z.of_nat w)) as Hin
    by (intros; eapply placed_in; [exact W|exact Hp|lia..]).
  pose proof (Hin 0 8%nat) as Ht. pose proof (Hin 8 4%nat) as Ha. pose proof (Hin 12 4%nat) as Hg.
  destruct Hp as (_ & HM & _). pose proof (pow_k _ _ W). pose proof (wf_slot _ _ W).
  unfold m', GRP_ACTIVE, SIZEOF_GROUP, SIZEOF_CONTROL, SIZEOF_HEADER in *.
  specialize (Ht ltac:(lia) ltac:(lia)). specialize (Ha ltac:(lia) ltac:(lia)).
  specialize (Hg ltac:(lia) ltac:(lia)). assert (0 <= M) by nia.
  assert (frame (group_addr M j) 64 m (wr 4 m (group_addr M j + 8) 0)) as Hf
    by (apply frame_wr_in; [apply frame_refl|zl|lia|lia]).
  split; [done|]. rewrite (groups_update M m) with (j := j) by done. f_equal.
  unfold read_group, GRP_ACTIVE, GRP_ID, GRP_TAIL. f_equal; simpl.
  - by rewrite rd_wr by zl.
  - by rewrite rd_wr_same by zl.
  - by rewrite rd_wr by zl.
Qed.

(** Moving the position of a group. *)
Lemma set_tail_groups m j t :
  placed q k M m -> (j < 16)%nat -> 0 <= t < 2 ^ 64 ->
  let m' := wr 8 m (group_addr M j + GRP_TAIL) t in
  frame (group_addr M j) SIZEOF_GROUP m m' /\
  groups m' M = <[j := Group t (g_active (read_group m M j)) (g_id (read_group m M j))]> (groups m M).
Proof.
  intros Hp Hj Hr m'.
  assert (in_mem m (group_addr M j + 0) 8) as Ht
    by (eapply (placed_in q k M m j 0 8); [exact W|exact Hp|unfold SIZEOF_GROUP; lia..]).
  destruct Hp as (_ & HM & _). pose proof (pow_k _ _ W). pose proof (wf_slot _ _ W).
  unfold m', GRP_TAIL, SIZEOF_GROUP, SIZEOF_CONTROL, SIZEOF_HEADER in *. assert (0 <= M) by nia.
  assert (0 <= group_addr M j) by (unfold group_addr, SIZEOF_GROUP, MULTI_GROUPS; lia).
  assert (frame (group_addr M j) 64 m (wr 8 m (group_addr M j + 0) t)) as Hf
    by (apply frame_wr_in; [apply frame_refl|zl|lia|lia]).
  split; [done|]. rewrite (groups_update M m) with (j := j) by done. f_equal.
  unfold read_group, GRP_ACTIVE, GRP_ID, GRP_TAIL. f_equal; simpl.
  - rewrite rd_wr_same by zl. by apply Z.mod_small.
  - by rewrite rd_wr by zl.
  - by rewrite rd_wr by zl.
Qed.

Lemma assigned_id_range gid j : 0 <= gid < 2 ^ 32 -> 0 <= assigned_id gid j < 2 ^ 32.
Proof. intros. unfold assigned_id. case_zb; [done|apply Z.mod_pos_bound; lia]. Qed.

(** A change after the ring keeps it. *)
Lemma ring_after H T ms m m' off n :
  ring q k H T ms m -> SIZEOF_CONTROL + 2 ^ k * q_slot_size q <= off -> frame off n m m' ->
  ring q k H T ms m'.
Proof.
  intros [_ Hl Hc Hh Ht Hct Hb Hm] Ho Hf. pose proof (pow_k _ _ W). pose proof (wf_slot _ _ W).
  unfold SIZEOF_CONTROL, SIZEOF_HEADER in *. assert (256 <= off) by nia.
  split; try done; unfold SIZEOF_CONTROL, OFF_HEAD, OFF_TAIL in *.
  - by rewrite (frame_len _ _ _ _ Hf).
  - eapply control_frame; [exact Hf|unfold OFF_HEAD; lia|done].
  - by rewrite (frame_rd _ _ _ _ _ _ Hf) by lia.
  - by rewrite (frame_rd _ _ _ _ _ _ Hf) by lia.
  - intros i d Hi. eapply holds_frame; [done|exact Hf|by apply Hm|].
    pose proof (slot_range q k W (T + Z.of_nat i)). unfold SIZEOF_CONTROL in *. lia.
Qed.

End Claim.

(** ** Joining and the minimum *)

Section Scans.
Context (q : nabd) (k M : Z) (W : wf_handle q k).

Lemma join_loop_run gid m n i :
  placed q k M m -> (n + i = 16)%nat ->
  join_loop gid M n i m = Some (group_addr M <$> find_id gid i (drop i (groups m M)), m).
Proof.
  intros Hp. revert i. induction n as [|n IH]; intros i Hi; simpl.
  { rewrite drop_ge by (rewrite groups_length; lia). done. }
  erewrite bind_ret by (apply ld_in; eapply placed_in; [exact W|exact Hp|unfold GRP_ACTIVE, SIZEOF_GROUP; lia..]).
  rewrite groups_drop by lia. cbn [find_id g_active g_id read_group]. case_match eqn:E; simpl.
  - erewrite bind_ret by (apply ld_in; eapply placed_in; [exact W|exact Hp|unfold GRP_ID, SIZEOF_GROUP; lia..]).
    destruct (rd 4 m (group_addr M i + GRP_ID) =? gid); [done|apply IH; lia].
  - apply IH. lia.
Qed.

Lemma min_tail_loop_run m n i acc :
  placed q k M m -> (n + i = 16)%nat ->
  min_tail_loop M n i acc m = Some (fold_left min_step (drop i (groups m M)) acc, m).
Proof.
  intros Hp. revert i acc. induction n as [|n IH]; intros i acc Hi; simpl.
  { rewrite drop_ge by (rewrite groups_length; lia). done. }
  erewrite bind_ret by (apply ld_in; eapply placed_in; [exact W|exact Hp|unfold GRP_ACTIVE, SIZEOF_GROUP; lia..]).
  rewrite groups_drop by lia. cbn [fold_left]. unfold min_step at 2.
  cbn [g_active g_tail read_group]. case_match eqn:E; simpl.
  - erewrite bind_ret by (apply ld_in; eapply placed_in; [exact W|exact Hp|unfold GRP_TAIL, SIZEOF_GROUP; lia..]).
    rewrite IH by lia. done.
  - apply IH. lia.
Qed.

(** Joining finds the first active group with the identifier, or [ENOENT]. *)
Lemma join_run alloc m gid :
  placed q k M m -> gid <> 0 ->
  nabd_consumer_join alloc (Some q) gid m
  = Some (match find_id gid 0 (groups m M) with
          | Some j => if alloc then (Some (NabdConsumer q (group_addr M j) gid), None) else (None, None)
          | None => (None, Some ENOENT)
          end, m).
Proof.
  intros Hp Hg. unfold nabd_consumer_join. zb_false (gid =? 0). rewrite (proj1 Hp).
  erewrite bind_ret by (apply join_loop_run; done). rewrite drop_0.
  destruct (find_id gid 0 (groups m M)); simpl; [by destruct alloc|done].
Qed.

(** Creating a group, with every outcome of the compare-and-swaps and of [calloc]. *)
Lemma create_run spurious alloc m gid :
  placed q k M m ->
  nabd_consumer_create spurious alloc (Some q) gid m
  = match pick spurious 0 (groups m M) with
    | None => Some (None, Some ENOMEM, m)
    | Some j =>
        let id := assigned_id gid j in
        let m' := claim_mem M m j id (rd 8 m OFF_HEAD) in
        if alloc then Some (Some (NabdConsumer q (group_addr M j) id), None, m')
        else Some (None, None, wr 4 m' (group_addr M j + GRP_ACTIVE) 0)
    end.
Proof.
  intros Hp. unfold nabd_consumer_create. rewrite (proj1 Hp).
  pose proof (claim_loop_run q k M W spurious gid m (Z.to_nat NABD_MAX_CONSUMERS) 0 Hp eq_refl) as Hl.
  rewrite drop_0 in Hl. destruct (pick spurious 0 (groups m M)) as [j|] eqn:E;
    rewrite (bind_ret _ _ _ _ _ Hl); [|done]. destruct alloc; [done|]. clear Hl.
  erewrite bind_ret; [done|]. apply st_in.
  apply pick_spec in E as (g & _ & Hl & _). apply lookup_lt_Some in Hl.
  rewrite groups_length, Nat.sub_0_r in Hl.
  assert (in_mem m (group_addr M j + GRP_ACTIVE) 4) as Hin
    by (eapply (placed_in q k M m j GRP_ACTIVE 4); [exact W|exact Hp|unfold GRP_ACTIVE, SIZEOF_GROUP; lia..]).
  assert (in_mem m (group_addr M j + GRP_TAIL) 8) as Hin1
    by (eapply (placed_in q k M m j GRP_TAIL 8); [exact W|exact Hp|unfold GRP_TAIL, SIZEOF_GROUP; lia..]).
  assert (in_mem m (group_addr M j + GRP_ID) 4) as Hin2
    by (eapply (placed_in q k M m j GRP_ID 4); [exact W|exact Hp|unfold GRP_ID, SIZEOF_GROUP; lia..]).
  unfold claim_mem. zl.
Qed.

Lemma pick_lt spurious m j :
  pick spurious 0 (groups m M) = Some j ->
  (j < 16)%nat /\ (exists g, groups m M !! j = Some g /\ g_active g = 0).
Proof.
  intros E. apply pick_spec in E as (g & _ & Hl & Ha & _). rewrite Nat.sub_0_r in Hl.
  split; [|eauto]. apply lookup_lt_Some in Hl. by rewrite groups_length in Hl.
Qed.

Lemma min_step_eq acc g :
  min_step acc g = if decide (g_active g <> 0) then Z.min (g_tail g) acc else acc.
Proof.
  unfold min_step. destruct (Z.eqb_spec (g_active g) 0); simpl; case_decide; try done.
  destruct (Z.ltb_spec (g_tail g) acc); lia.
Qed.

Lemma min_fold gs acc :
  fold_left min_step gs acc <= acc /\
  (forall t, t ∈ active_tails gs -> fold_left min_step gs acc <= t) /\
  (fold_left min_step gs acc = acc \/ fold_left min_step gs acc ∈ active_tails gs).
Proof.
  revert acc. induction gs as [|g gs IH]; simpl; intros acc.
  { split_and!; [lia|by intros ? ?%elem_of_nil|by left]. }
  destruct (IH (min_step acc g)) as (H1 & H2 & H3). revert H1 H2 H3.
  generalize (fold_left min_step gs (min_step acc g)). intros r. rewrite min_step_eq.
  unfold active_tails. rewrite filter_cons. case_decide; intros H1 H2 H3; [|done].
  rewrite fmap_cons. split_and!; [lia| |].
  - intros t [->|Ht]%elem_of_cons; [lia|auto].
  - rewrite elem_of_cons. destruct H3 as [->|]; [|auto].
    destruct (Z.min_spec (g_tail g) acc) as [[_ ->]|[_ ->]]; auto.
Qed.

End Scans.

(** ** Reading through a group *)

Section Stream.
Context (q : nabd) (k H T : Z) (ms : list msg) (m : mem) (g : Z).
Context (S : stream q k H T ms m g).

Let W := sm_wf _ _ _ _ _ _ _ S.

Lemma stream_pos : 256 <= g /\ 0 <= T <= H /\ H < 2 ^ 64 /\ u64 T = T.
Proof.
  pose proof (pow_k _ _ W). pose proof (wf_slot _ _ W). pose proof (sm_place _ _ _ _ _ _ _ S).
  pose proof (sm_range _ _ _ _ _ _ _ S). pose proof (sm_count _ _ _ _ _ _ _ S).
  pose proof (zlen_nonneg ms). unfold SIZEOF_CONTROL, SIZEOF_HEADER in *.
  assert (256 <= g) by nia. split_and!; try lia. apply u64_small. lia.
Qed.

Lemma stream_in_group o n : 0 <= o -> 0 <= n -> o + n <= SIZEOF_GROUP -> in_mem m (g + o) n.
Proof.
  intros. pose proof stream_pos. pose proof (sm_place _ _ _ _ _ _ _ S).
  unfold in_mem. lia.
Qed.

Lemma stream_in_slot i off n :
  slot_off q k i <= off -> 0 <= n -> off + n <= slot_off q k i + q_slot_size q -> in_mem m off n.
Proof.
  intros. pose proof (sm_len _ _ _ _ _ _ _ S). pose proof (slot_range _ _ W i).
  unfold in_mem, SIZEOF_CONTROL in *. lia.
Qed.

Lemma stream_ld_tail : ld 8 (g + GRP_TAIL) m = Some (T, m).
Proof.
  rewrite ld_in; [by rewrite (sm_tail _ _ _ _ _ _ _ S)|].
  apply stream_in_group; unfold GRP_TAIL, SIZEOF_GROUP; lia.
Qed.

Lemma stream_ld_head : ld 8 OFF_HEAD m = Some (H, m).
Proof.
  rewrite ld_in; [by rewrite (sm_head _ _ _ _ _ _ _ S)|].
  pose proof stream_pos. pose proof (sm_place _ _ _ _ _ _ _ S). unfold in_mem, OFF_HEAD, SIZEOF_GROUP in *. lia.
Qed.

Lemma stream_empty : (H <=? T) = bool_decide (ms = []).
Proof.
  pose proof (sm_count _ _ _ _ _ _ _ S) as Hc. unfold zlen in Hc. destruct ms; simpl in *.
  - zb_true (H <=? T). done.
  - zb_false (H <=? T). done.
Qed.

Lemma stream_first d ms' : ms = d :: ms' -> holds q k m T d.
Proof.
  intros ->. pose proof (sm_msgs _ _ _ _ _ _ _ S 0%nat d eq_refl) as Hh.
  by rewrite Z.add_0_r in Hh.
Qed.

Lemma stream_slot : get_slot q T = slot_off q k T.
Proof. rewrite <- (proj2 (proj2 (proj2 stream_pos))) at 1. by rewrite (get_slot_off q k W). Qed.

Lemma stream_ld_length d : holds q k m T d -> ld 2 (slot_off q k T + HDR_LENGTH) m = Some (zlen d, m).
Proof.
  intros Hh. pose proof (wf_slot _ _ W). rewrite ld_in; [by rewrite (h_len _ _ _ _ _ Hh)|].
  apply (stream_in_slot T); unfold HDR_LENGTH, SIZEOF_HEADER in *; lia.
Qed.

Lemma stream_advance d ms' :
  ms = d :: ms' ->
  st 8 (g + GRP_TAIL) (add64 T 1) m = Some (tt, wr 8 m (g + GRP_TAIL) (T + 1)) /\
  stream q k H (T + 1) ms' (wr 8 m (g + GRP_TAIL) (T + 1)) g.
Proof.
  intros Hms. pose proof stream_pos as (Hg & HT & HH & Hu).
  pose proof (sm_count _ _ _ _ _ _ _ S) as Hc. pose proof (sm_bound _ _ _ _ _ _ _ S).
  pose proof (zlen_nonneg ms'). assert (zlen ms = zlen ms' + 1) as Hz by (rewrite Hms; unfold zlen; simpl; lia).
  assert (add64 T 1 = T + 1) as -> by (apply u64_small; lia).
  assert (in_mem m (g + GRP_TAIL) 8) as Hin
    by (apply stream_in_group; unfold GRP_TAIL, SIZEOF_GROUP; lia).
  split; [by apply st_in|].
  assert (frame (g + GRP_TAIL) 8 m (wr 8 m (g + GRP_TAIL) (T + 1))) as Hf by (apply frame_wr; done).
  pose proof (sm_place _ _ _ _ _ _ _ S) as [Hp1 Hp2].
  split; rewrite ?(frame_len _ _ _ _ Hf); try apply S; try done; try lia.
  - unfold OFF_HEAD, GRP_TAIL in *. rewrite (frame_rd _ _ _ _ _ _ Hf) by lia. apply S.
  - rewrite rd_wr_same by done. apply Z.mod_small. lia.
  - intros i e Hi. eapply holds_frame; [exact W|exact Hf| |].
    + assert (ms !! Datatypes.S i = Some e) as Hi' by (by rewrite Hms).
      pose proof (sm_msgs _ _ _ _ _ _ _ S (Datatypes.S i) e Hi') as Hh.
      by replace (T + 1 + Z.of_nat i) with (T + Z.of_nat (Datatypes.S i)) by lia.
    + pose proof (slot_range q k W (T + 1 + Z.of_nat i)). unfold GRP_TAIL. lia.
Qed.

(** A change elsewhere keeps the stream. *)
Lemma stream_frame m' off n :
  frame off n m m' -> SIZEOF_CONTROL + 2 ^ k * q_slot_size q <= off ->
  off + n <= g \/ g + SIZEOF_GROUP <= off -> stream q k H T ms m' g.
Proof.
  intros Hf Ho Hd. pose proof stream_pos. pose proof (pow_k _ _ W). pose proof (wf_slot _ _ W).
  unfold SIZEOF_CONTROL, SIZEOF_HEADER in *. assert (256 <= off) by nia.
  pose proof (sm_place _ _ _ _ _ _ _ S).
  split; rewrite ?(frame_len _ _ _ _ Hf); try apply S; unfold OFF_HEAD, GRP_TAIL, SIZEOF_GROUP in *.
  - rewrite (frame_rd _ _ _ _ _ _ Hf) by lia. apply S.
  - rewrite (frame_rd _ _ _ _ _ _ Hf) by lia. apply S.
  - intros i e Hi. eapply holds_frame; [exact W|exact Hf|by apply (sm_msgs _ _ _ _ _ _ _ S)|].
    pose proof (slot_range q k W (T + Z.of_nat i)). unfold SIZEOF_CONTROL in *. lia.
Qed.

(** A message published at the head extends the stream, while the group is less than
    the capacity behind. *)
Lemma stream_publish m1 d :
  H - T < 2 ^ k -> H + 1 < 2 ^ 64 ->
  frame (slot_off q k H) (q_slot_size q) m m1 -> holds q k m1 H d ->
  stream q k (H + 1) T (ms ++ [d]) (wr 8 m1 OFF_HEAD (H + 1)) g.
Proof.
  intros Hroom Hw Hf Hh. pose proof stream_pos as (Hg & HT & HH & Hu).
  pose proof (sm_count _ _ _ _ _ _ _ S) as Hc. pose proof (slot_range q k W H) as HsH.
  pose proof (sm_place _ _ _ _ _ _ _ S) as [Hp1 Hp2]. pose proof (pow_k _ _ W).
  assert (in_mem m1 OFF_HEAD 8) as Hin
    by (unfold in_mem, OFF_HEAD, SIZEOF_GROUP in *; rewrite (frame_len _ _ _ _ Hf); lia).
  assert (frame OFF_HEAD 8 m1 (wr 8 m1 OFF_HEAD (H + 1))) as Hf' by (apply frame_wr; done).
  unfold SIZEOF_CONTROL, OFF_HEAD, GRP_TAIL, SIZEOF_GROUP in *.
  split; rewrite ?(frame_len _ _ _ _ Hf'), ?(frame_len _ _ _ _ Hf); try apply S; try done; try lia.
  - unfold OFF_HEAD. rewrite rd_wr_same by done. apply Z.mod_small. lia.
  - unfold GRP_TAIL. rewrite (frame_rd _ _ _ _ _ _ Hf') by lia.
    rewrite (frame_rd _ _ _ _ _ _ Hf) by lia. apply (sm_tail _ _ _ _ _ _ _ S).
  - rewrite zlen_app. unfold zlen in *. simpl. lia.
  - intros i e Hi. eapply holds_frame; [exact W|exact Hf'| |].
    2: { pose proof (slot_range q k W (T + Z.of_nat i)). unfold SIZEOF_CONTROL in *. lia. }
    apply lookup_app_Some in Hi as [Hi|[Hge Hi]].
    + eapply holds_frame; [exact W|exact Hf|by apply (sm_msgs _ _ _ _ _ _ _ S)|].
      apply lookup_lt_Some in Hi. unfold zlen in *.
      apply slot_disjoint; [exact W|]. apply mod_distinct; lia.
    + apply list_lookup_singleton_Some in Hi as [Hi <-].
      replace (T + Z.of_nat i) with H by (unfold zlen in *; lia). done.
Qed.

End Stream.
