(* ===== verification/GroupsCorrect.v ===== *)
(** * Consumer groups: correctness and limits

    The theorems about MultiConsumer.v: which group a claim takes, what a failed
    allocation leaves behind, joining, the FIFO each group reads while it is not
    lapped, the minimum of the read positions; and the limits of the implementation:
    the producer does not wait for the groups, and a wrapped index reads as empty. *)

From S2P Require Import Prelude Words Pow2 Memory Layout Fifo Queue Ring Sample Posix MultiConsumer.
Local Open Scope Z_scope.

(** ** Definitions: a sample with two groups *)

Definition sample_mq : nabd := Nabd 1 3 7 1408 (Some 4096) 256 2 16 1 0 0 (Some 320).

(** [head] and [tail] at [pos], no group claimed. *)
Definition sample_multi (pos : Z) : mem := sample_sized 1408 pos.

Definition create_group (id : Z) : C (option nabd_consumer * option Z) :=
  nabd_consumer_create (fun _ => false) true (Some sample_mq) id.

(** Groups 7 and 8 claimed, then two messages pushed. *)
Definition sample_groups : mem :=
  after (push_msg msg_b) (after (push_msg msg_a)
    (after (create_group 8) (after (create_group 7) (sample_multi 0)))).

(** The single consumer has taken one message: the producer has room again. *)
Definition sample_lagging : mem := after (nabd_release (Some sample_mq)) sample_groups.

(** The index of the next message is 0 again after a wrap. *)
Definition sample_wrapped : mem :=
  after (push_msg msg_a) (wr 8 (sample_multi (2 ^ 64 - 1)) (group_addr 320 0 + GRP_TAIL) (2 ^ 64 - 1)).

Definition streamb (q : nabd) (k H T : Z) (ms : list msg) (m : mem) (g : Z) : bool :=
  (SIZEOF_CONTROL + 2 ^ k * q_slot_size q <=? zlen m) &&
  (SIZEOF_CONTROL + 2 ^ k * q_slot_size q <=? g) && (g + SIZEOF_GROUP <=? zlen m) &&
  (rd 8 m OFF_HEAD =? H) && (rd 8 m (g + GRP_TAIL) =? T) && (0 <=? T) && (H <? 2 ^ 64) &&
  (zlen ms =? H - T) && (H - T <=? 2 ^ k) && slotsb q k m T ms.

(** ** Lemmas *)

Lemma streamb_spec q k H T ms m g :
  wf_handle q k -> streamb q k H T ms m g = true -> stream q k H T ms m g.
Proof. unfold streamb. intros W Hc. zbool. split; try done. by apply slotsb_spec. Qed.

Lemma sample_m_wf : wf_handle sample_mq 1.
Proof. split; simpl; done || lia. Qed.

Lemma sample_stream : stream sample_mq 1 2 0 [msg_a; msg_b] sample_groups (group_addr 320 0).
Proof. apply streamb_spec; [apply sample_m_wf|vm_compute; reflexivity]. Qed.

Lemma sample_groups_ring : ring sample_mq 1 2 0 [msg_a; msg_b] sample_groups.
Proof. apply ringb_spec; [apply sample_m_wf|vm_compute; reflexivity]. Qed.

Lemma sample_lagging_ring : ring sample_mq 1 2 1 [msg_b] sample_lagging.
Proof. apply ringb_spec; [apply sample_m_wf|vm_compute; reflexivity]. Qed.

Lemma sample_lagging_stream : stream sample_mq 1 2 0 [msg_a; msg_b] sample_lagging (group_addr 320 0).
Proof. apply streamb_spec; [apply sample_m_wf|vm_compute; reflexivity]. Qed.

Lemma sample_wrapped_ring : ring sample_mq 1 (2 ^ 64) (2 ^ 64 - 1) [msg_a] sample_wrapped.
Proof. apply ringb_spec; [apply sample_m_wf|vm_compute; reflexivity]. Qed.

Lemma sample_multi_ring pos : ring sample_mq 1 pos pos [] (sample_multi pos).
Proof. apply (ring_same sample_q); [done|]. apply sample_ring_sized. lia. Qed.

Lemma sample_multi_placed pos : placed sample_mq 1 320 (sample_multi pos).
Proof.
  split; [done|]. unfold sample_multi. rewrite zlen_sample_sized by lia. done.
Qed.

(** ** Claiming a group *)

(** Creating a group, with strong compare-and-swaps and memory for the handle:
    the first group that is not active is claimed, becomes active with the requested
    identifier (its number plus one if 0 is asked for) and starts at the current head;
    no other group, and nothing of the queue, changes.  When all sixteen groups are
    active the call fails with [ENOMEM] and changes nothing. *)
Theorem consumer_create_claims_first_free q k H T ms M m gid :
  ring q k H T ms m -> placed q k M m -> 0 <= gid < 2 ^ 32 ->
  exists m', nabd_consumer_create (fun _ => false) true (Some q) gid m
  = Some (match list_find (fun g => g_active g = 0) (groups m M) with
          | Some (j, _) => (Some (NabdConsumer q (group_addr M j) (assigned_id gid j)), None)
          | None => (None, Some ENOMEM)
          end, m') /\
  groups m' M = (match list_find (fun g => g_active g = 0) (groups m M) with
                 | Some (j, _) => <[j := Group (u64 H) 1 (assigned_id gid j)]> (groups m M)
                 | None => groups m M
                 end) /\
  ring q k H T ms m'.
Proof.
  intros R Hp Hg. pose proof (r_wf _ _ _ _ _ _ R) as W.
  rewrite (create_run q k M W) by done. rewrite list_find_pick.
  destruct (pick _ 0 (groups m M)) as [j|] eqn:E; [|by exists m].
  destruct (pick_lt _ _ _ _ E) as [Hj (g & Hl & _)]. simpl. rewrite Hl. simpl.
  rewrite (r_head _ _ _ _ _ _ R).
  destruct (claim_groups q k M W m j (assigned_id gid j) (u64 H)) as [Hf Hgs]; try done.
  - apply u64_range.
  - by apply assigned_id_range.
  - eexists. split; [reflexivity|]. split; [done|].
    eapply ring_after; [done|exact R|by eapply placed_after|exact Hf].
Qed.

(** Whatever compare-and-swaps fail spuriously and whether or not the allocation
    succeeds, a group that was active is never touched: either one inactive group is
    claimed, or the groups that are active afterwards are the ones that were active
    before. *)
Theorem consumer_create_never_steals q k H T ms M m gid spurious alloc :
  ring q k H T ms m -> placed q k M m -> 0 <= gid < 2 ^ 32 ->
  exists c e m', nabd_consumer_create spurious alloc (Some q) gid m = Some (c, e, m') /\
  ring q k H T ms m' /\
  (forall i g, groups m M !! i = Some g -> g_active g <> 0 -> groups m' M !! i = Some g) /\
  match c with
  | Some h => exists j g, groups m M !! j = Some g /\ g_active g = 0 /\ cn_group h = group_addr M j
  | None => g_active <$> groups m' M = g_active <$> groups m M
  end.
Proof.
  intros R Hp Hg. pose proof (r_wf _ _ _ _ _ _ R) as W.
  rewrite (create_run q k M W) by done.
  destruct (pick spurious 0 (groups m M)) as [j|] eqn:E.
  2: { exists None, (Some ENOMEM), m. done. }
  destruct (pick_lt _ _ _ _ E) as [Hj (g & Hl & Ha)]. cbv zeta.
  destruct (claim_groups q k M W m j (assigned_id gid j) (rd 8 m OFF_HEAD)) as [Hf Hgs]; try done.
  { rewrite (r_head _ _ _ _ _ _ R). apply u64_range. }
  { by apply assigned_id_range. }
  set (m1 := claim_mem M m j _ _) in *.
  assert (ring q k H T ms m1) as R1
    by (eapply ring_after; [done|exact R|by eapply placed_after|exact Hf]).
  assert (forall i g0, groups m M !! i = Some g0 -> g_active g0 <> 0 -> i <> j) as Hne
    by (intros i g0 Hi Hg0 ->; congruence).
  destruct alloc.
  - exists (Some (NabdConsumer q (group_addr M j) (assigned_id gid j))), None, m1.
    split_and!; try done; [|by exists j, g]. intros i g0 Hi Hg0. rewrite Hgs.
    by rewrite list_lookup_insert_ne by (apply not_eq_sym; eauto).
  - assert (placed q k M m1) as Hp1 by (by eapply placed_frame).
    destruct (release_groups q k M W m1 j) as [Hf2 Hgs2]; [done..|].
    exists None, None. eexists. split_and!; [reflexivity| | |].
    + eapply ring_after; [done|exact R1|by eapply placed_after|exact Hf2].
    + intros i g0 Hi Hg0. rewrite Hgs2, Hgs.
      by rewrite !list_lookup_insert_ne by (apply not_eq_sym; eauto).
    + rewrite Hgs2, Hgs. rewrite list_insert_insert_eq, list_fmap_insert.
      apply list_insert_id. rewrite list_lookup_fmap, Hl. simpl. by rewrite Ha.
Qed.

Lemma find_id_insert gid i gs j h :
  find_id gid i gs = None -> (j < length gs)%nat ->
  find_id gid i (<[j := Group h 1 gid]> gs) = Some (i + j)%nat.
Proof.
  revert i j. induction gs as [|g gs IH]; simpl; intros i j Hn Hj; [lia|].
  destruct (negb (g_active g =? 0) && (g_id g =? gid)) eqn:E; [done|].
  destruct j as [|j]; simpl.
  - rewrite Z.eqb_refl. by rewrite Nat.add_0_r.
  - rewrite E. rewrite IH by (done || lia). by rewrite Nat.add_succ_r.
Qed.

(** Join after create: a group created with a non-zero identifier that no active
    group has is the one another consumer joins by that identifier; joining changes
    nothing in memory. *)
Theorem consumer_join_after_create q k H T ms M m gid spurious c e m' :
  ring q k H T ms m -> placed q k M m -> 0 < gid < 2 ^ 32 ->
  find_id gid 0 (groups m M) = None ->
  nabd_consumer_create spurious true (Some q) gid m = Some (Some c, e, m') ->
  nabd_consumer_join true (Some q) gid m' = Some (Some c, None, m').
Proof.
  intros R Hp Hg Hn. pose proof (r_wf _ _ _ _ _ _ R) as W.
  rewrite (create_run q k M W) by done.
  destruct (pick spurious 0 (groups m M)) as [j|] eqn:E; [|done]. cbv zeta.
  destruct (pick_lt _ _ _ _ E) as [Hj (g & Hl & Ha)].
  assert (assigned_id gid j = gid) as -> by (unfold assigned_id; by zb_false (gid =? 0)).
  destruct (claim_groups q k M W m j gid (rd 8 m OFF_HEAD)) as [Hf Hgs]; try done; [|lia|].
  { rewrite (r_head _ _ _ _ _ _ R). apply u64_range. }
  intros [= <- <- <-]. rewrite (join_run q k M W) by (done || lia || by eapply placed_frame).
  rewrite Hgs, (find_id_insert gid 0) by (done || by rewrite groups_length). done.
Qed.

(** ** Reading *)

(** C38: popping through a group that is not lapped, in a queue whose head is below 2^64
    (both are part of [stream]), implements the FIFO of the messages the group has not
    read, on every branch: empty, buffer too small (length reported, nothing
    consumed), and success.  The other groups and the queue itself are not affected,
    so the groups consume independently. *)
Theorem consumer_pop_refines q k H T ms m g id dst bound maxlen :
  stream q k H T ms m g ->
  let f := Fifo bound maxlen ms in
  exists m' T', nabd_consumer_pop (Some (NabdConsumer q g id)) (Some dst) (Some (zlen dst)) m
  = Some (match spec_pop f (zlen dst) with
          | (NABD_OK, Some d, _) => (NABD_OK : Z, Some (splice dst 0 d), Some (zlen d))
          | (e, Some d, _) => (e : Z, Some dst, Some (zlen d))
          | (e, None, _) => (e : Z, Some dst, Some (zlen dst))
          end, m') /\
  stream q k H T' (ff_msgs (snd (spec_pop f (zlen dst)))) m' g /\
  (forall H2 T2 ms2 g2, g2 + SIZEOF_GROUP <= g \/ g + SIZEOF_GROUP <= g2 ->
     stream q k H2 T2 ms2 m g2 -> stream q k H2 T2 ms2 m' g2) /\
  (forall H2 T2 ms2, ring q k H2 T2 ms2 m -> ring q k H2 T2 ms2 m').
Proof.
  intros S f. pose proof (sm_wf _ _ _ _ _ _ _ S) as W. unfold nabd_consumer_pop. cbn [cn_group cn_queue].
  erewrite bind_ret by (eapply stream_ld_tail; exact S).
  erewrite bind_ret by (eapply stream_ld_head; exact S).
  rewrite (stream_empty _ _ _ _ _ _ _ S). unfold spec_pop. cbn [ff_msgs f].
  destruct ms as [|d ms]; [by exists m, T|]. rewrite bool_decide_eq_false_2 by done.
  cbv zeta. rewrite (stream_slot _ _ _ _ _ _ _ S).
  pose proof (stream_first _ _ _ _ _ _ _ S d ms eq_refl) as Hh.
  erewrite bind_ret by (eapply stream_ld_length; [exact S|exact Hh]).
  case_zb; [by exists m, T|].
  pose proof (h_fits _ _ _ _ _ Hh). pose proof (zlen_nonneg d). pose proof (wf_slot _ _ W).
  erewrite bind_ret.
  2: { apply memcpy_out_in; [done|].
       apply (stream_in_slot _ _ _ _ _ _ _ S T); unfold SIZEOF_HEADER in *; lia. }
  rewrite (h_data _ _ _ _ _ Hh).
  destruct (stream_advance _ _ _ _ _ _ _ S d ms eq_refl) as [Ea S'].
  rewrite (bind_ret _ _ _ _ _ Ea). eexists _, (T + 1). split; [reflexivity|].
  assert (frame (g + GRP_TAIL) 8 m (wr 8 m (g + GRP_TAIL) (T + 1))) as Hf.
  { apply (frame_wr 8). eapply stream_in_group; [exact S|unfold GRP_TAIL, SIZEOF_GROUP; lia..]. }
  pose proof (sm_place _ _ _ _ _ _ _ S) as [Hpl _].
  split_and!; [done| |].
  - intros Hx T2 ms2 g2 Hd S2. eapply stream_frame; [exact S2|exact Hf|unfold GRP_TAIL; lia|].
    unfold GRP_TAIL, SIZEOF_GROUP in *. lia.
  - intros Hx T2 ms2 R. eapply ring_after; [done|exact R| |exact Hf]. unfold GRP_TAIL. lia.
Qed.

(** The observers of a group agree with popping: a peek shows the oldest unread
    message without consuming it, releasing then consumes exactly that message, and
    the reported lag is the number of unread messages. *)
Theorem consumer_peek_release q k H T d ms m g id data len s0 :
  stream q k H T (d :: ms) m g ->
  let c := Some (NabdConsumer q g id) in
  (exists p, nabd_consumer_peek c (Some data) (Some len) m
             = Some (NABD_OK : Z, Some p, Some (zlen d), m) /\
             load p (zlen d) m = Some (d, m)) /\
  (exists m', nabd_consumer_release c m = Some (NABD_OK : Z, m') /\ stream q k H (T + 1) ms m' g) /\
  nabd_consumer_stats c (Some s0) m
  = Some (NABD_OK : Z,
          Some (NabdConsumerStats id (rd 4 m (g + GRP_ACTIVE)) T (zlen (d :: ms))), m).
Proof.
  intros S c. pose proof (sm_wf _ _ _ _ _ _ _ S) as W.
  pose proof (stream_first _ _ _ _ _ _ _ S d ms eq_refl) as Hh.
  pose proof (h_fits _ _ _ _ _ Hh). pose proof (zlen_nonneg d). pose proof (wf_slot _ _ W).
  split_and!.
  - unfold nabd_consumer_peek, c. cbn [cn_group cn_queue].
    erewrite bind_ret by (eapply stream_ld_tail; exact S).
    erewrite bind_ret by (eapply stream_ld_head; exact S).
    rewrite (stream_empty _ _ _ _ _ _ _ S), bool_decide_eq_false_2 by done. cbv zeta.
    unfold get_slot_header, get_slot_payload. rewrite (stream_slot _ _ _ _ _ _ _ S).
    erewrite bind_ret by (eapply stream_ld_length; [exact S|exact Hh]).
    eexists. split; [reflexivity|]. rewrite load_in; [by rewrite (h_data _ _ _ _ _ Hh)|].
    apply (stream_in_slot _ _ _ _ _ _ _ S T); unfold SIZEOF_HEADER in *; lia.
  - unfold nabd_consumer_release, c. cbn [cn_group].
    erewrite bind_ret by (eapply stream_ld_tail; exact S).
    destruct (stream_advance _ _ _ _ _ _ _ S d ms eq_refl) as [E S'].
    rewrite (bind_ret _ _ _ _ _ E). by eexists.
  - unfold nabd_consumer_stats, c. cbn [cn_group cn_group_id].
    erewrite bind_ret by (eapply stream_ld_head; exact S).
    erewrite bind_ret by (eapply stream_ld_tail; exact S).
    erewrite bind_ret.
    2: { apply ld_in. eapply stream_in_group; [exact S|unfold GRP_ACTIVE, SIZEOF_GROUP; lia..]. }
    pose proof (stream_pos _ _ _ _ _ _ _ S) as (_ & HT & HH & _).
    pose proof (sm_count _ _ _ _ _ _ _ S) as Hc.
    assert (T < H) by (unfold zlen in Hc; simpl in Hc; lia).
    zb_true (T <? H). unfold sub64. rewrite u64_small by lia. by rewrite Hc.
Qed.

(** ** The producer and the groups *)

(** A push that finds room (counting only the single-consumer position) delivers
    the message to every group that is less than the capacity behind. *)
Theorem push_delivers_to_groups q k H T ms m d :
  ring q k H T ms m -> zlen ms < q_capacity q -> zlen d < 2 ^ 16 ->
  zlen d <= q_slot_size q - SIZEOF_HEADER -> 0 <= H -> H + 1 < 2 ^ 64 ->
  exists m', nabd_push (Some q) (Some d) (zlen d) m = Some (NABD_OK : Z, m') /\
  ring q k (H + 1) T (ms ++ [d]) m' /\
  (forall Tg msg g, stream q k H Tg msg m g -> H - Tg < 2 ^ k ->
     stream q k (H + 1) Tg (msg ++ [d]) m' g).
Proof.
  intros R Hroom Hd Hfit HH Hw. pose proof (r_wf _ _ _ _ _ _ R) as W. pose proof (zlen_nonneg d).
  destruct (push_run q k H T ms m R d (zlen d)) as (m1 & Hf & Hh & E); [lia|done|done|].
  rewrite u16_small in Hh by lia.
  rewrite take_ge in Hh by (unfold zlen; lia).
  assert (add64 (u64 H) 1 = H + 1) as Ha by (rewrite add64_u64_l; apply u64_small; lia).
  eexists. split; [exact E|]. split.
  - apply (ring_publish q k H T ms m); [exact R|by rewrite <- (wf_cap _ _ W)|done|done].
  - intros Tg msg g S Hg. rewrite Ha. by eapply stream_publish.
Qed.

(** The producer does not wait for the groups.  With a group a full capacity
    behind, a push still succeeds whenever the single-consumer position leaves room,
    and it overwrites the group's oldest unread message: the group's next pop returns
    the newest message instead. *)
Theorem push_overwrites_lagging_group q k H T ms m d g old rest dst id :
  ring q k H T ms m -> zlen ms < q_capacity q -> zlen d < 2 ^ 16 ->
  zlen d <= q_slot_size q - SIZEOF_HEADER -> 0 <= H -> H + 1 < 2 ^ 64 ->
  stream q k H (H - 2 ^ k) (old :: rest) m g -> zlen d <= zlen dst ->
  exists m' m2, nabd_push (Some q) (Some d) (zlen d) m = Some (NABD_OK : Z, m') /\
  nabd_consumer_pop (Some (NabdConsumer q g id)) (Some dst) (Some (zlen dst)) m'
  = Some (NABD_OK : Z, Some (splice dst 0 d), Some (zlen d), m2).
Proof.
  intros R Hroom Hd Hfit HH Hw S Hdst. pose proof (r_wf _ _ _ _ _ _ R) as W. pose proof (zlen_nonneg d).
  pose proof (pow_k _ _ W) as Hpk. pose proof (wf_slot _ _ W).
  destruct (push_run q k H T ms m R d (zlen d)) as (m1 & Hf & Hh & E); [lia|done|done|].
  rewrite u16_small in Hh by lia.
  rewrite take_ge in Hh by (unfold zlen; lia).
  assert (add64 (u64 H) 1 = H + 1) as Ha by (rewrite add64_u64_l; apply u64_small; lia).
  rewrite Ha in E. set (m' := wr 8 m1 OFF_HEAD (H + 1)) in *.
  (* the slot of the group's position is the slot just written *)
  assert (slot_off q k (H - 2 ^ k) = slot_off q k H) as Hsl.
  { unfold slot_off. do 2 f_equal. rewrite <- (Z_mod_plus_full (H - 2 ^ k) 1). f_equal. lia. }
  pose proof (slot_range q k W H) as Hr. pose proof (sm_place _ _ _ _ _ _ _ S) as [Hp1 Hp2].
  pose proof (stream_pos _ _ _ _ _ _ _ S) as (Hg & HT & _ & Hu).
  pose proof (sm_len _ _ _ _ _ _ _ S) as Hlen. pose proof (frame_len _ _ _ _ Hf) as Hfl.
  unfold SIZEOF_CONTROL, SIZEOF_GROUP, SIZEOF_HEADER in *.
  assert (in_mem m1 OFF_HEAD 8) as Hin by (unfold in_mem, OFF_HEAD; lia).
  assert (frame OFF_HEAD 8 m1 m') as Hf' by (apply frame_wr; done).
  pose proof (frame_len _ _ _ _ Hf') as Hfl'.
  assert (holds q k m' H d) as Hh'
    by (eapply holds_frame; [exact W|exact Hf'|exact Hh|unfold OFF_HEAD; lia]).
  exists m'. eexists. split; [exact E|]. unfold nabd_consumer_pop. cbn [cn_group cn_queue].
  assert (ld 8 (g + GRP_TAIL) m' = Some (H - 2 ^ k, m')) as Et.
  { unfold GRP_TAIL. rewrite ld_in by (unfold in_mem; lia).
    rewrite (frame_rd _ _ _ _ _ _ Hf') by (unfold OFF_HEAD; lia).
    rewrite (frame_rd _ _ _ _ _ _ Hf) by lia. do 2 f_equal. apply (sm_tail _ _ _ _ _ _ _ S). }
  rewrite (bind_ret _ _ _ _ _ Et).
  assert (ld 8 OFF_HEAD m' = Some (H + 1, m')) as Eh.
  { rewrite ld_in by (unfold in_mem, OFF_HEAD; lia). unfold m'. rewrite rd_wr_same by done.
    do 2 f_equal. apply Z.mod_small. lia. }
  rewrite (bind_ret _ _ _ _ _ Eh). zb_false (H + 1 <=? H - 2 ^ k). cbv zeta.
  rewrite <- Hu at 1. rewrite (get_slot_off q k W), Hsl.
  erewrite bind_ret.
  2: { apply ld_in. unfold in_mem, HDR_LENGTH. lia. }
  rewrite (h_len _ _ _ _ _ Hh'). zb_false (zlen dst <? zlen d).
  rewrite <- Hu at 1. rewrite (get_slot_off q k W), Hsl.
  erewrite bind_ret.
  2: { apply memcpy_out_in; [done|]. unfold in_mem. unfold SIZEOF_HEADER. lia. }
  rewrite (h_data _ _ _ _ _ Hh').
  erewrite bind_ret; [reflexivity|]. apply st_in. unfold in_mem, GRP_TAIL. lia.
Qed.

(** The comparison of the groups is not safe across the wrap of the indices.  When
    [head] has wrapped and a group's position has not, popping through the group
    reports an empty queue, while [nabd_pop] at the same position returns the
    message. *)
Theorem consumer_pop_wrap_reads_empty q k H T d ms m g id dst :
  ring q k H T (d :: ms) m -> u64 H < u64 T -> in_mem m (g + GRP_TAIL) 8 ->
  rd 8 m (g + GRP_TAIL) = u64 T -> zlen d <= zlen dst ->
  nabd_consumer_pop (Some (NabdConsumer q g id)) (Some dst) (Some (zlen dst)) m
  = Some (NABD_EMPTY : Z, Some dst, Some (zlen dst), m) /\
  exists m', nabd_pop (Some q) (Some dst) (Some (zlen dst)) m
  = Some (NABD_OK : Z, Some (splice dst 0 d), Some (zlen d), m').
Proof.
  intros R Hw Hin Hg Hd. split.
  - unfold nabd_consumer_pop. cbn [cn_group cn_queue].
    erewrite bind_ret by (by apply (ld_in m 8)).
    erewrite bind_ret by (eapply ring_ld_head; exact R). rewrite Hg.
    by zb_true (u64 H <=? u64 T).
  - eexists. by eapply pop_ok.
Qed.

(** The slowest group.  [nabd_min_tail] returns the smallest read position of the
    active groups; with no active group (or all of them at the largest 64-bit value)
    it is the single-consumer position.  With a null handle it is undefined. *)
Theorem min_tail_is_minimum q k H T ms M m :
  ring q k H T ms m -> placed q k M m ->
  exists t, nabd_min_tail (Some q) m = Some (t, m) /\
  (t = u64 T \/ t ∈ active_tails (groups m M)) /\
  (forall t', t' ∈ active_tails (groups m M) -> t' < UINT64_MAX ->
     t ∈ active_tails (groups m M) /\ t <= t') /\
  nabd_min_tail None m = None.
Proof.
  intros R Hp. pose proof (r_wf _ _ _ _ _ _ R) as W. unfold nabd_min_tail. rewrite (proj1 Hp).
  rewrite (bind_ret _ _ _ _ _ (min_tail_loop_run q k M W m (Z.to_nat NABD_MAX_CONSUMERS) 0 _ Hp eq_refl)).
  rewrite drop_0. destruct (min_fold (groups m M) UINT64_MAX) as (H1 & H2 & H3).
  case_zb.
  - exists (u64 T). split_and!; [by eapply ring_ld_tail|by left| |done].
    intros t' Ht' Hlt. specialize (H2 t' Ht'). lia.
  - eexists. split_and!; [reflexivity| | |done].
    + destruct H3; [lia|by right].
    + intros t' Ht' Hlt. destruct H3; [lia|]. split; [done|]. by apply H2.
Qed.

(** ** Witnesses *)

Lemma consumer_create_claims_first_free_witness :
  exists m', create_group 7 (sample_multi 0)
             = Some (Some (NabdConsumer sample_mq (group_addr 320 0) 7), None, m') /\
  groups m' 320 = <[0%nat := Group 0 1 7]> (groups (sample_multi 0) 320).
Proof.
  destruct (consumer_create_claims_first_free sample_mq 1 0 0 [] 320 (sample_multi 0) 7
              (sample_multi_ring 0) (sample_multi_placed 0) ltac:(lia)) as (m' & E & Hg & _).
  exists m'. split; [etrans; [exact E|vm_compute; reflexivity]|].
  etrans; [exact Hg|vm_compute; reflexivity].
Defined.

Lemma consumer_create_never_steals_witness :
  exists c e m', nabd_consumer_create (fun i => Nat.even i) false (Some sample_mq) 9 (sample_multi 5)
                 = Some (c, e, m') /\ ring sample_mq 1 5 5 [] m'.
Proof.
  destruct (consumer_create_never_steals sample_mq 1 5 5 [] 320 (sample_multi 5) 9
              (fun i => Nat.even i) false (sample_multi_ring 5) (sample_multi_placed 5) ltac:(lia))
    as (c & e & m' & E & R & _).
  by exists c, e, m'.
Defined.

Lemma consumer_join_after_create_witness :
  nabd_consumer_join true (Some sample_mq) 7 (after (create_group 7) (sample_multi 0))
  = Some (Some (NabdConsumer sample_mq (group_addr 320 0) 7), None,
          after (create_group 7) (sample_multi 0)).
Proof.
  apply (consumer_join_after_create sample_mq 1 0 0 [] 320 (sample_multi 0) 7 (fun _ => false)
           (NabdConsumer sample_mq (group_addr 320 0) 7) None);
    [apply sample_multi_ring|apply sample_multi_placed|lia|vm_compute; reflexivity..].
Defined.

Lemma consumer_pop_refines_witness :
  exists m' T', nabd_consumer_pop (Some (NabdConsumer sample_mq (group_addr 320 0) 7))
    (Some [Byte.x00; Byte.x01]) (Some 2) sample_groups
  = Some (0, Some [Byte.x61; Byte.x01], Some 1, m') /\
  stream sample_mq 1 2 T' [msg_b] m' (group_addr 320 0).
Proof.
  destruct (consumer_pop_refines sample_mq 1 2 0 [msg_a; msg_b] sample_groups (group_addr 320 0) 7
              [Byte.x00; Byte.x01] 2 8 sample_stream) as (m' & T' & E & S & _).
  exists m', T'. split; [exact E|exact S].
Defined.

Lemma consumer_peek_release_witness :
  exists m', nabd_consumer_release (Some (NabdConsumer sample_mq (group_addr 320 0) 7)) sample_groups
  = Some (0, m') /\ stream sample_mq 1 2 1 [msg_b] m' (group_addr 320 0).
Proof.
  apply (consumer_peek_release sample_mq 1 2 0 msg_a [msg_b] sample_groups (group_addr 320 0) 7 0 0
           (NabdConsumerStats 0 0 0 0) sample_stream).
Defined.

Lemma push_delivers_to_groups_witness :
  exists m', nabd_push (Some sample_mq) (Some msg_a) 1 (sample_multi 0) = Some (0, m') /\
  ring sample_mq 1 1 0 [msg_a] m'.
Proof.
  destruct (push_delivers_to_groups sample_mq 1 0 0 [] (sample_multi 0) msg_a (sample_multi_ring 0))
    as (m' & E & R & _); try (vm_compute; congruence).
  by exists m'.
Defined.

Lemma push_overwrites_lagging_group_witness :
  exists m' m2, nabd_push (Some sample_mq) (Some [Byte.x7a]) 1 sample_lagging = Some (0, m') /\
  nabd_consumer_pop (Some (NabdConsumer sample_mq (group_addr 320 0) 7)) (Some [Byte.x00]) (Some 1) m'
  = Some (0, Some [Byte.x7a], Some 1, m2).
Proof.
  apply (push_overwrites_lagging_group sample_mq 1 2 1 [msg_b] sample_lagging [Byte.x7a]
           (group_addr 320 0) msg_a [msg_b] [Byte.x00] 7 sample_lagging_ring);
    try (vm_compute; congruence). exact sample_lagging_stream.
Defined.

Lemma consumer_pop_wrap_reads_empty_witness :
  nabd_consumer_pop (Some (NabdConsumer sample_mq (group_addr 320 0) 7)) (Some [Byte.x00]) (Some 1)
    sample_wrapped = Some (-1, Some [Byte.x00], Some 1, sample_wrapped).
Proof.
  apply (consumer_pop_wrap_reads_empty sample_mq 1 (2 ^ 64) (2 ^ 64 - 1) msg_a [] sample_wrapped
           (group_addr 320 0) 7 [Byte.x00] sample_wrapped_ring);
    vm_compute; repeat split; congruence.
Defined.

Lemma min_tail_is_minimum_witness :
  exists t, nabd_min_tail (Some sample_mq) sample_groups = Some (t, sample_groups) /\
  active_tails (groups sample_groups 320) = [0; 0].
Proof.
  destruct (min_tail_is_minimum sample_mq 1 2 0 [msg_a; msg_b] 320 sample_groups sample_groups_ring)
    as (t & E & _).
  - vm_compute. repeat split; congruence.
  - exists t. split; [exact E|vm_compute; reflexivity].
Defined.
