(* ===== verification/GroupThreads.v ===== *)
(** * Consumer groups, running concurrently

    [nabd_consumer_create], [nabd_consumer_join] and [nabd_consumer_pop] of src/nabd.c as
    threads over the shared memory, one step per memory access, interleaved in any order
    with each other and with an environment (the producer, the single consumer) that may
    change anything below the multi-consumer block at any time.

    The compare-and-swap is one step, as the atomic operation is; it always sees the
    latest value of [active], and the other accesses are interleaved as if memory were
    sequentially consistent.  [nabd_consumer_close] accesses no shared memory: a thread
    that has closed its handle is one that takes no more steps.  A step has a flag, the outcome that the code cannot
    control: the weak compare-and-swap fails spuriously, the allocation fails. *)

From S2P Require Import Prelude Words Pow2 Memory Layout Fifo Queue Ring Posix MultiConsumer.
From stdpp Require Import relations.
Local Open Scope Z_scope.

(** ** Threads *)

(** A consumer handle: from create or from join, the group, the identifier. *)
Record ghandle := GHandle { gh_created : bool; gh_slot : nat; gh_id : Z }.

Inductive gpc :=
  (* nabd_consumer_create *)
  | GTry (i : nat)                          (* the compare-and-swap on group i *)
  | GSetId (i : nat)
  | GLoadHead (i : nat)
  | GSetTail (i : nat) (head : Z)
  | GAlloc (i : nat)
  | GUndo (i : nat)                         (* the allocation failed *)
  (* nabd_consumer_join, with an identifier that is not 0 *)
  | JActive (i : nat)
  | JId (i : nat)
  | JAlloc (i : nat)
  (* nabd_consumer_pop *)
  | GIdle (h : ghandle)                     (* between calls *)
  | GHead (h : ghandle) (cap tail : Z)
  | GLen (h : ghandle) (cap tail : Z)
  | GCopy (h : ghandle) (tail len : Z)
  | GStore (h : ghandle) (tail : Z) (d : msg)
  | GNull.                                  (* create or join returned NULL *)

(** What a step shows: nothing, the handle (or NULL with the value of [errno]) a create
    or join returns, the code a pop returns with the message copied. *)
Inductive gevt :=
  | GTau
  | GOpened (h : option ghandle) (errno : option Z)
  | GPopped (code : Z) (d : option msg).

Section Machine.
Context (q : nabd) (M : Z).

(** The steps of [nabd_consumer_pop]; [cap] is the buffer capacity of a new pop. *)
Definition gpop_next (cap : Z) (pc : gpc) : C (gpc * gevt) :=
  match pc with
  | GIdle h =>
      tail ← ld 8 (group_addr M (gh_slot h) + GRP_TAIL); mret (GHead h cap tail, GTau)
  | GHead h cap tail =>
      head ← ld 8 OFF_HEAD;
      if head <=? tail then mret (GIdle h, GPopped NABD_EMPTY None)
      else mret (GLen h cap tail, GTau)
  | GLen h cap tail =>
      msg_len ← ld 2 (get_slot q tail + HDR_LENGTH);
      if cap <? msg_len then mret (GIdle h, GPopped NABD_TOOBIG None)
      else mret (GCopy h tail msg_len, GTau)
  | GCopy h tail msg_len =>
      d ← load (get_slot q tail + SIZEOF_HEADER) msg_len; mret (GStore h tail d, GTau)
  | GStore h tail d =>
      st 8 (group_addr M (gh_slot h) + GRP_TAIL) (add64 tail 1);;
      mret (GIdle h, GPopped NABD_OK (Some d))
  | _ => undef
  end.

(** The next step of a thread that asked for identifier [gid]; [b] is the flag. *)
Definition gnext (gid : Z) (b : bool) (cap : Z) (pc : gpc) : C (gpc * gevt) :=
  match pc with
  | GTry i =>
      if (i <? Z.to_nat NABD_MAX_CONSUMERS)%nat then
        claimed ← NABD_CAS_ACQ_REL b (group_addr M i + GRP_ACTIVE) 0 1;
        mret (if claimed : bool then GSetId i else GTry (S i), GTau)
      else mret (GNull, GOpened None (Some ENOMEM))
  | GSetId i =>
      st 4 (group_addr M i + GRP_ID) (assigned_id gid i);; mret (GLoadHead i, GTau)
  | GLoadHead i => head ← ld 8 OFF_HEAD; mret (GSetTail i head, GTau)
  | GSetTail i head => st 8 (group_addr M i + GRP_TAIL) head;; mret (GAlloc i, GTau)
  | GAlloc i =>
      if b then mret (GUndo i, GTau)
      else let h := GHandle true i (assigned_id gid i) in mret (GIdle h, GOpened (Some h) None)
  | GUndo i => st 4 (group_addr M i + GRP_ACTIVE) 0;; mret (GNull, GOpened None None)
  | JActive i =>
      if (i <? Z.to_nat NABD_MAX_CONSUMERS)%nat then
        active ← ld 4 (group_addr M i + GRP_ACTIVE);
        mret (if negb (active =? 0) then JId i else JActive (S i), GTau)
      else mret (GNull, GOpened None (Some ENOENT))
  | JId i =>
      id ← ld 4 (group_addr M i + GRP_ID);
      mret (if id =? gid then JAlloc i else JActive (S i), GTau)
  | JAlloc i =>
      if b then mret (GNull, GOpened None None)
      else let h := GHandle false i gid in mret (GIdle h, GOpened (Some h) None)
  | GNull => undef
  | pc => gpop_next cap pc
  end.

(** ** The system *)

Record thread := Thread { th_gid : Z; th_pc : gpc; th_got : list msg }.
Record gstate := GState { gs_mem : mem; gs_threads : list thread }.

Definition received (e : gevt) : list msg :=
  match e with GPopped _ (Some d) => [d] | _ => [] end.

Inductive gstep (s : gstate) : gstate -> Prop :=
  | gstep_thread i t b cap pc e m :
      gs_threads s !! i = Some t ->
      gnext (th_gid t) b cap (th_pc t) (gs_mem s) = Some (pc, e, m) ->
      gstep s (GState m (<[i := Thread (th_gid t) pc (th_got t ++ received e)]> (gs_threads s)))
  | gstep_env m :
      frame 0 M (gs_mem s) m -> gstep s (GState m (gs_threads s)).

(** Threads about to call create or join. *)
Definition starting (t : thread) : Prop :=
  th_got t = [] /\ (th_pc t = GTry 0 \/ (th_pc t = JActive 0 /\ th_gid t <> 0)).

(** ** Running alone *)

(** The flag of a step, from the outcomes the sequential functions take as arguments. *)
Definition outcome_of (spurious : nat -> bool) (alloc : bool) (pc : gpc) : bool :=
  match pc with GTry i => spurious i | GAlloc _ | JAlloc _ => negb alloc | _ => false end.

(** A whole call; create takes at most 17 attempts and 5 more steps, join 33 loads. *)
Fixpoint grun (fuel : nat) (gid : Z) (spurious : nat -> bool) (alloc : bool) (cap : Z) (pc : gpc)
    : C (gpc * gevt) :=
  match fuel with
  | O => undef
  | S fuel =>
      '(pc', e) ← gnext gid (outcome_of spurious alloc pc) cap pc;
      match e with GTau => grun fuel gid spurious alloc cap pc' | _ => mret (pc', e) end
  end.

(** The handle of the C code. *)
Definition consumer_of (h : ghandle) : nabd_consumer :=
  NabdConsumer q (group_addr M (gh_slot h)) (gh_id h).

(** ** Ownership *)

(** The group a thread has claimed. *)
Definition owned (pc : gpc) : option nat :=
  match pc with
  | GSetId i | GLoadHead i | GSetTail i _ | GAlloc i | GUndo i => Some i
  | GIdle h | GHead h _ _ | GLen h _ _ | GCopy h _ _ | GStore h _ _ =>
      if gh_created h then Some (gh_slot h) else None
  | _ => None
  end.

(** The handle it holds or is about to get. *)
Definition created (gid : Z) (pc : gpc) : option ghandle :=
  match pc with
  | GLoadHead i | GSetTail i _ | GAlloc i | GUndo i => Some (GHandle true i (assigned_id gid i))
  | GIdle h | GHead h _ _ | GLen h _ _ | GCopy h _ _ | GStore h _ _ =>
      if gh_created h then Some h else None
  | _ => None
  end.

Definition active_at (m : mem) (i : nat) : Z := rd 4 m (group_addr M i + GRP_ACTIVE).
Definition id_at (m : mem) (i : nat) : Z := rd 4 m (group_addr M i + GRP_ID).

(** Every claimed group is active, carries the identifier of its handle once it has
    been stored, and is claimed by one thread only; every group that was not active at
    the start and is now has a claimant. *)
Record claims_ok (m0 m : mem) (ts : list thread) : Prop := {
  co_len : zlen m = zlen m0;
  co_active n t i : ts !! n = Some t -> owned (th_pc t) = Some i -> (i < 16)%nat /\ active_at m i = 1;
  co_id n t h : ts !! n = Some t -> created (th_gid t) (th_pc t) = Some h -> id_at m (gh_slot h) = u32 (gh_id h);
  co_excl n n' t t' i : ts !! n = Some t -> ts !! n' = Some t' ->
    owned (th_pc t) = Some i -> owned (th_pc t') = Some i -> n = n';
  co_leak i : (i < 16)%nat -> active_at m i <> 0 ->
    active_at m0 i <> 0 \/ exists n t, ts !! n = Some t /\ owned (th_pc t) = Some i
}.

End Machine.
