(* ===== verification/GroupThreadsCorrect.v ===== *)
(** * Consumer groups, running concurrently: correctness

    The theorems about GroupThreads.v: claims are exclusive and leak nothing under any
    interleaving; the threads, run alone, are the functions of MultiConsumer.v; and two
    members of one group can be given the same message. *)

From S2P Require Import Prelude Words Pow2 Memory Layout Fifo Queue Ring Sample Posix MultiConsumer GroupsCorrect GroupThreads.
From stdpp Require Import relations.
Local Open Scope Z_scope.

(** ** The invariant *)

Section Claims.
Context (q : nabd) (M : Z) (HM : 0 <= M) (m0 : mem).

(** A store into a group changes the flags and identifiers only where it lands. *)
Lemma at_wr m a o w v j :
  in_mem m (group_addr M a + o) (Z.of_nat w) -> 0 <= o -> o + Z.of_nat w <= SIZEOF_GROUP ->
  (a <> j \/ o + Z.of_nat w <= GRP_ACTIVE \/ GRP_ID <= o ->
     active_at M (wr w m (group_addr M a + o) v) j = active_at M m j) /\
  (a <> j \/ o + Z.of_nat w <= GRP_ID ->
     id_at M (wr w m (group_addr M a + o) v) j = id_at M m j).
Proof.
  intros Hin Ho Hw. unfold active_at, id_at, group_addr in *.
  unfold in_mem, GRP_ACTIVE, GRP_ID, SIZEOF_GROUP, MULTI_GROUPS in *.
  split; intros Hd; apply rd_wr; unfold in_mem; lia.
Qed.

Lemma at_frame m m' j :
  frame 0 M m m' -> active_at M m' j = active_at M m j /\ id_at M m' j = id_at M m j.
Proof.
  intros Hf. unfold active_at, id_at, group_addr, MULTI_GROUPS, SIZEOF_GROUP, GRP_ACTIVE, GRP_ID.
  rewrite !(frame_rd _ _ _ _ _ _ Hf) by lia. done.
Qed.

Lemma created_owned gid pc h : created gid pc = Some h -> owned pc = Some (gh_slot h).
Proof. destruct pc; simpl; try done; try (by intros [= <-]); case_match; by intros [= <-]. Qed.

(** A step that leaves the claims, flags and identifiers as they are. *)
Lemma claims_quiet m m' ts n t t' :
  claims_ok M m0 m ts -> ts !! n = Some t -> zlen m' = zlen m ->
  (forall j, active_at M m' j = active_at M m j /\ id_at M m' j = id_at M m j) ->
  owned (th_pc t') = owned (th_pc t) ->
  created (th_gid t') (th_pc t') = created (th_gid t) (th_pc t) ->
  claims_ok M m0 m' (<[n := t']> ts).
Proof.
  intros [Hl Ha Hi Hx Hk] Ht Hlen Hm Ho Hc.
  assert (forall n1 t1, <[n := t']> ts !! n1 = Some t1 -> exists t2, ts !! n1 = Some t2 /\
            owned (th_pc t1) = owned (th_pc t2) /\
            created (th_gid t1) (th_pc t1) = created (th_gid t2) (th_pc t2)) as Hb.
  { intros n1 t1 [(<- & <- & _)|(? & ?)]%list_lookup_insert_Some; eauto. }
  split; [congruence|..].
  - intros n1 t1 i (t2 & H2 & -> & _)%Hb. rewrite (proj1 (Hm i)). eauto.
  - intros n1 t1 h (t2 & H2 & _ & ->)%Hb. rewrite (proj2 (Hm _)). eauto.
  - intros n1 n2 t1 t2 i (t1' & H1 & -> & _)%Hb (t2' & H2 & -> & _)%Hb. eauto.
  - intros i Hlt. rewrite (proj1 (Hm i)). intros [?|(n1 & t1 & H1 & H2)]%Hk; [by left| |done].
    right. destruct (decide (n1 = n)) as [->|].
    + exists n, t'. rewrite list_lookup_insert_eq by (by eapply lookup_lt_Some).
      split; [done|]. rewrite Ho. congruence.
    + exists n1, t1. by rewrite list_lookup_insert_ne.
Qed.

(** A successful compare-and-swap. *)
Lemma claims_claim m ts n t i got :
  claims_ok M m0 m ts -> ts !! n = Some t -> owned (th_pc t) = None -> (i < 16)%nat ->
  active_at M m i = 0 -> in_mem m (group_addr M i + GRP_ACTIVE) 4 ->
  claims_ok M m0 (wr 4 m (group_addr M i + GRP_ACTIVE) 1) (<[n := Thread (th_gid t) (GSetId i) got]> ts).
Proof.
  intros [Hl Ha Hi Hx Hk] Ht Ho Hlt Hz Hin. set (m' := wr _ _ _ _).
  assert (forall j, (j <> i -> active_at M m' j = active_at M m j) /\ id_at M m' j = id_at M m j) as Hm.
  { intros j. destruct (at_wr m i GRP_ACTIVE 4 1 j Hin) as [H1 H2]; [done|done|].
    split; [intros; apply H1; auto|apply H2; by right]. }
  assert (active_at M m' i = 1) as H1 by (unfold active_at, m'; by rewrite rd_wr_same).
  pose proof (lookup_lt_Some _ _ _ Ht) as Hn.
  assert (forall n1 t1 j, ts !! n1 = Some t1 -> owned (th_pc t1) = Some j -> j <> i) as Hne.
  { intros n1 t1 j H2 H3 ->. apply (Ha _ _ _ H2) in H3 as [_ H3]. congruence. }
  split.
  - unfold m'. by rewrite zlen_wr.
  - intros n1 t1 j [(<- & <- & _)|(Hn1 & H2)]%list_lookup_insert_Some.
    + simpl. intros [= <-]. done.
    + intros H3. rewrite (proj1 (Hm j)) by eauto. eauto.
  - intros n1 t1 h [(<- & <- & _)|(Hn1 & H2)]%list_lookup_insert_Some; [done|].
    rewrite (proj2 (Hm _)). eauto.
  - intros n1 n2 t1 t2 j [(<- & <- & _)|(Hn1 & H2)]%list_lookup_insert_Some
      [(<- & <- & _)|(Hn2 & H3)]%list_lookup_insert_Some; simpl; try done.
    + intros [= <-] H4. by destruct (Hne _ _ _ H3 H4).
    + intros H4 [= <-]. by destruct (Hne _ _ _ H2 H4).
    + eauto.
  - intros j Hj. destruct (decide (j = i)) as [->|Hji].
    + intros _. right. exists n. eexists. by rewrite list_lookup_insert_eq.
    + rewrite (proj1 (Hm j)) by done. intros [?|(n1 & t1 & H2 & H3)]%Hk; [by left| |done].
      right. exists n1, t1. rewrite list_lookup_insert_ne; [done|]. intros ->. congruence.
Qed.

(** Storing the identifier of a claimed group. *)
Lemma claims_set_id m ts n t i got :
  claims_ok M m0 m ts -> ts !! n = Some t -> th_pc t = GSetId i ->
  in_mem m (group_addr M i + GRP_ID) 4 ->
  claims_ok M m0 (wr 4 m (group_addr M i + GRP_ID) (assigned_id (th_gid t) i))
    (<[n := Thread (th_gid t) (GLoadHead i) got]> ts).
Proof.
  intros [Hl Ha Hi Hx Hk] Ht Hpc Hin. set (m' := wr _ _ _ _).
  assert (owned (th_pc t) = Some i) as Ho by (by rewrite Hpc).
  assert (forall j, active_at M m' j = active_at M m j /\ (j <> i -> id_at M m' j = id_at M m j)) as Hm.
  { intros j. destruct (at_wr m i GRP_ID 4 (assigned_id (th_gid t) i) j Hin) as [H1 H2]; [done|done|].
    split; [apply H1; by right; right|intros; apply H2; auto]. }
  assert (id_at M m' i = u32 (assigned_id (th_gid t) i)) as H1
    by (unfold id_at, m'; by rewrite rd_wr_same).
  pose proof (lookup_lt_Some _ _ _ Ht) as Hn.
  assert (forall n1 t1, <[n := Thread (th_gid t) (GLoadHead i) got]> ts !! n1 = Some t1 ->
    exists t2, ts !! n1 = Some t2 /\ owned (th_pc t1) = owned (th_pc t2)) as Hb.
  { intros n1 t1 [(<- & <- & _)|(? & ?)]%list_lookup_insert_Some; eauto. }
  split.
  - unfold m'. by rewrite zlen_wr.
  - intros n1 t1 j (t2 & H2 & ->)%Hb. rewrite (proj1 (Hm j)). eauto.
  - intros n1 t1 h [(<- & <- & _)|(Hn1 & H2)]%list_lookup_insert_Some.
    + simpl. by intros [= <-].
    + intros H3. rewrite (proj2 (Hm _)); [by eauto|]. intros <-. apply Hn1.
      eapply Hx; [exact Ht|exact H2|exact Ho|by eapply created_owned].
  - intros n1 n2 t1 t2 j (t1' & H2 & ->)%Hb (t2' & H3 & ->)%Hb. eauto.
  - intros j Hj. rewrite (proj1 (Hm j)). intros [?|(n1 & t1 & H2 & H3)]%Hk; [by left| |done].
    right. destruct (decide (n1 = n)) as [->|].
    + exists n. eexists. rewrite list_lookup_insert_eq by done. split; [done|]. simpl. congruence.
    + exists n1, t1. by rewrite list_lookup_insert_ne.
Qed.

(** Giving a group back. *)
Lemma claims_undo m ts n t i got :
  claims_ok M m0 m ts -> ts !! n = Some t -> owned (th_pc t) = Some i ->
  in_mem m (group_addr M i + GRP_ACTIVE) 4 ->
  claims_ok M m0 (wr 4 m (group_addr M i + GRP_ACTIVE) 0) (<[n := Thread (th_gid t) GNull got]> ts).
Proof.
  intros [Hl Ha Hi Hx Hk] Ht Ho Hin. set (m' := wr _ _ _ _).
  assert (forall j, (j <> i -> active_at M m' j = active_at M m j) /\ id_at M m' j = id_at M m j) as Hm.
  { intros j. destruct (at_wr m i GRP_ACTIVE 4 0 j Hin) as [H1 H2]; [done|done|].
    split; [intros; apply H1; auto|apply H2; by right]. }
  assert (active_at M m' i = 0) as H1 by (unfold active_at, m'; by rewrite rd_wr_same).
  split.
  - unfold m'. by rewrite zlen_wr.
  - intros n1 t1 j [(<- & <- & _)|(Hn1 & H2)]%list_lookup_insert_Some; [done|].
    intros H3. rewrite (proj1 (Hm j)); [by eauto|]. intros ->. by destruct Hn1; eauto.
  - intros n1 t1 h [(<- & <- & _)|(Hn1 & H2)]%list_lookup_insert_Some; [done|].
    rewrite (proj2 (Hm _)). eauto.
  - intros n1 n2 t1 t2 j [(<- & <- & _)|(Hn1 & H2)]%list_lookup_insert_Some
      [(<- & <- & _)|(Hn2 & H3)]%list_lookup_insert_Some; simpl; try done. eauto.
  - intros j Hj. destruct (decide (j = i)) as [->|Hji]; [congruence|].
    rewrite (proj1 (Hm j)) by done. intros [?|(n1 & t1 & H2 & H3)]%Hk; [by left| |done].
    right. exists n1, t1. rewrite list_lookup_insert_ne; [done|]. intros ->. congruence.
Qed.

(** The three ways a step can leave the memory when it claims nothing. *)
Ltac quiet t Hpc := eapply (claims_quiet _ _ _ _ t); [eassumption|eassumption|..]; simpl; rewrite ?Hpc; try done.

Lemma claims_step m ts n t b cap pc e m' :
  claims_ok M m0 m ts -> ts !! n = Some t ->
  gnext q M (th_gid t) b cap (th_pc t) m = Some (pc, e, m') ->
  claims_ok M m0 m' (<[n := Thread (th_gid t) pc (th_got t ++ received e)]> ts).
Proof.
  intros Hok Ht. destruct (th_pc t) as [i|i|i|i hd|i|i|i|i|i|h|h c tl|h c tl|h tl l|h tl d|] eqn:Hpc; simpl.
  - case_match eqn:Hi; [apply Nat.ltb_lt in Hi|by intros [= <- <- <-]; quiet t Hpc].
    intros (won & m1 & Hw%cas_inv & Hs)%bind_inv. injection Hs as <- <- <-. destruct won.
    + destruct Hw as [? [? [= ->]]%st_inv]. apply claims_claim; try done. by rewrite Hpc.
    + subst m1. quiet t Hpc.
  - intros (u & m1 & [Hin [= -> ->]]%st_inv & Hs)%bind_inv. injection Hs as <- <- <-.
    by apply claims_set_id.
  - intros (x & m1 & [-> _]%ld_inv & Hs)%bind_inv. injection Hs as <- <- <-. quiet t Hpc.
  - intros (u & m1 & [Hin [= -> ->]]%st_inv & Hs)%bind_inv. injection Hs as <- <- <-.
    quiet t Hpc; [by apply zlen_wr|]. intros j. destruct (at_wr m i GRP_TAIL 8 hd j Hin) as [H1 H2]; [done|done|].
    split; [apply H1|apply H2]; unfold GRP_TAIL, GRP_ACTIVE, GRP_ID; lia.
  - case_match; intros [= <- <- <-]; quiet t Hpc.
  - intros (u & m1 & [Hin [= -> ->]]%st_inv & Hs)%bind_inv. injection Hs as <- <- <-.
    apply claims_undo; try done. by rewrite Hpc.
  - case_match; [|by intros [= <- <- <-]; quiet t Hpc].
    intros (x & m1 & [-> _]%ld_inv & Hs)%bind_inv. injection Hs as <- <- <-.
    quiet t Hpc; by case_match.
  - intros (x & m1 & [-> _]%ld_inv & Hs)%bind_inv. injection Hs as <- <- <-.
    quiet t Hpc; by case_match.
  - case_match; intros [= <- <- <-]; quiet t Hpc.
  - intros (x & m1 & [-> _]%ld_inv & Hs)%bind_inv. injection Hs as <- <- <-. quiet t Hpc.
  - intros (x & m1 & [-> _]%ld_inv & Hs)%bind_inv. revert Hs.
    case_match; intros [= <- <- <-]; quiet t Hpc.
  - intros (x & m1 & [-> _]%ld_inv & Hs)%bind_inv. revert Hs.
    case_match; intros [= <- <- <-]; quiet t Hpc.
  - intros (x & m1 & ->%load_inv & Hs)%bind_inv. injection Hs as <- <- <-. quiet t Hpc.
  - intros (u & m1 & [Hin [= -> ->]]%st_inv & Hs)%bind_inv. injection Hs as <- <- <-.
    quiet t Hpc; [by apply zlen_wr|]. intros j.
    destruct (at_wr m (gh_slot h) GRP_TAIL 8 (add64 tl 1) j Hin) as [H1 H2]; [done|done|].
    split; [apply H1|apply H2]; unfold GRP_TAIL, GRP_ACTIVE, GRP_ID; lia.
  - done.
Qed.

Lemma claims_env m m' ts : claims_ok M m0 m ts -> frame 0 M m m' -> claims_ok M m0 m' ts.
Proof.
  intros [Hl Ha Hi Hx Hk] Hf. pose proof (fun j => at_frame m m' j Hf) as Hm. split; [..|done|].
  - by rewrite (frame_len _ _ _ _ Hf).
  - intros n t i. rewrite (proj1 (Hm i)). eauto.
  - intros n t h. rewrite (proj2 (Hm _)). eauto.
  - intros i. rewrite (proj1 (Hm i)). eauto.
Qed.

Lemma claims_start ts : Forall starting ts -> claims_ok M m0 m0 ts.
Proof.
  intros Hts. rewrite Forall_lookup in Hts.
  assert (forall n t, ts !! n = Some t -> owned (th_pc t) = None) as Ho.
  { intros n t (_ & [->|[-> _]])%Hts; done. }
  split; try done.
  - intros n t i H1 H2. by rewrite (Ho _ _ H1) in H2.
  - intros n t h H1 H2%created_owned. by rewrite (Ho _ _ H1) in H2.
  - intros n n' t t' i H1 _ H2. by rewrite (Ho _ _ H1) in H2.
  - by left.
Qed.

Lemma claims_reachable ts s :
  Forall starting ts -> rtc (gstep q M) (GState m0 ts) s -> claims_ok M m0 (gs_mem s) (gs_threads s).
Proof.
  intros Hts Hr. pose proof (claims_start ts Hts) as H0. revert H0.
  change ts with (gs_threads (GState m0 ts)) at 1. change m0 with (gs_mem (GState m0 ts)) at 2.
  induction Hr as [s|s s1 s2 Hs _ IH]; [done|]. intros Hok. apply IH.
  destruct Hs; simpl; [by eapply claims_step|by eapply claims_env].
Qed.

End Claims.

(** ** Calls run alone *)

(** What the C function returns: the handle or NULL, and [errno] when it is set. *)
Definition opened (q : nabd) (M : Z) (e : gevt) : option nabd_consumer * option Z :=
  match e with GOpened h errno => (consumer_of q M <$> h, errno) | _ => (None, None) end.

(** One step of a call. *)
Lemma grun_S q M n gid spurious alloc cap pc m :
  grun q M (S n) gid spurious alloc cap pc m
  = match gnext q M gid (outcome_of spurious alloc pc) cap pc m with
    | Some (pc', GTau, m') => grun q M n gid spurious alloc cap pc' m'
    | Some (pc', e, m') => Some (pc', e, m')
    | None => None
    end.
Proof.
  cbn [grun]. unfold mbind, ST_bind. by destruct (gnext _ _ _ _ _ _ _) as [[[pc' []] m']|].
Qed.

Section Solo.
Context (q : nabd) (M : Z) (gid : Z) (spurious : nat -> bool) (alloc : bool) (cap : Z).

(** A call and then what the C function returns. *)
Definition returns (r : option (gpc * gevt * mem)) : option (option nabd_consumer * option Z * mem) :=
  match r with Some (_, e, m) => Some (opened q M e, m) | None => None end.

(** One access of both sides. *)
Ltac access :=
  unfold mbind, ST_bind, mret, ST_ret; cbv beta iota zeta;
  match goal with
  | |- context [st ?w ?o ?v ?m] => destruct (st w o v m) as [[? ?]|]; [cbv beta iota zeta|done]
  | |- context [ld ?w ?o ?m] => destruct (ld w o m) as [[? ?]|]; [cbv beta iota zeta|done]
  end.

Ltac g_step := rewrite grun_S; cbn [gnext gpop_next outcome_of].

Lemma solo_claim n i f m :
  (n + i = 16)%nat -> (n + 6 <= f)%nat ->
  returns (grun q M f gid spurious alloc cap (GTry i) m)
  = (r ← claim_loop spurious gid M n i;
     match r with
     | None => mret (None, Some ENOMEM)
     | Some (group, id) =>
         if alloc then mret (Some (NabdConsumer q group id), None)
         else st 4 (group + GRP_ACTIVE) 0;; mret (None, None)
     end) m.
Proof.
  revert i f m. induction n as [|n IH]; intros i f m Hi Hf.
  - assert (i = 16)%nat as -> by lia. destruct f; [lia|]. done.
  - do 6 (destruct f as [|f]; [lia|]). g_step. change (Z.to_nat NABD_MAX_CONSUMERS) with 16%nat.
    replace (i <? 16)%nat with true by (symmetry; apply Nat.ltb_lt; lia).
    cbn [claim_loop]. unfold mbind, ST_bind.
    destruct (NABD_CAS_ACQ_REL _ _ _ _ m) as [[[] m1]|]; [..|done]; unfold mret, ST_ret; cbv beta iota.
    + g_step. access. g_step. access. g_step. access. g_step.
      destruct alloc; cbn [negb]; [done|]. unfold mret, ST_ret. cbv beta iota. g_step. access. done.
    + rewrite IH by lia. done.
Qed.

Lemma solo_join n i f m :
  (n + i = 16)%nat -> (2 * n + 2 <= f)%nat ->
  returns (grun q M f gid spurious alloc cap (JActive i) m)
  = (r ← join_loop gid M n i;
     match r with
     | None => mret (None, Some ENOENT)
     | Some group =>
         if alloc then mret (Some (NabdConsumer q group gid), None) else mret (None, None)
     end) m.
Proof.
  revert i f m. induction n as [|n IH]; intros i f m Hi Hf.
  - assert (i = 16)%nat as -> by lia. destruct f; [lia|]. done.
  - do 3 (destruct f as [|f]; [lia|]). g_step. change (Z.to_nat NABD_MAX_CONSUMERS) with 16%nat.
    replace (i <? 16)%nat with true by (symmetry; apply Nat.ltb_lt; lia).
    cbn [join_loop]. access. destruct (negb (z =? 0)); cbv beta iota.
    + g_step. access. destruct (z0 =? gid); cbv beta iota; [g_step; by destruct alloc|].
      rewrite IH by lia. done.
    + rewrite IH by lia. done.
Qed.

Lemma solo_group_pop h dst m :
  cap = zlen dst ->
  match grun q M 5 gid spurious alloc cap (GIdle h) m with
  | Some (pc, GPopped r x, m') =>
      pc = GIdle h /\ exists len,
      nabd_consumer_pop (Some (consumer_of q M h)) (Some dst) (Some cap) m
      = Some (r, Some (match x with Some d => splice dst 0 d | None => dst end), Some len, m')
  | Some _ => False
  | None => nabd_consumer_pop (Some (consumer_of q M h)) (Some dst) (Some cap) m = None
  end.
Proof.
  intros Hcap. unfold nabd_consumer_pop, memcpy_out. cbn [consumer_of cn_queue cn_group].
  g_step. access. g_step. access. destruct (z0 <=? z); cbv beta iota; [eauto|].
  g_step. unfold mbind, ST_bind, mret, ST_ret. cbv beta iota zeta.
  destruct (ld 2 _ _) as [[n m1]|]; [|done]. cbv beta iota zeta. destruct (cap <? n) eqn:Hn; [eauto|].
  zbool. zb_true (n <=? zlen dst). g_step. unfold mbind, ST_bind, mret, ST_ret. cbv beta iota zeta.
  destruct (load _ _ _) as [[d m2]|] eqn:El; [|done]. cbv beta iota zeta.
  g_step. unfold mbind, ST_bind, mret, ST_ret. cbv beta iota zeta.
  destruct (st _ _ _ _) as [[[] m3]|]; [|done]. cbv beta iota zeta. eauto.
Qed.
End Solo.

(** ** Two members of one group *)

Section Members.
Context (q : nabd) (k H T M : Z) (d : msg) (ms : list msg) (m : mem) (a : nat).
Context (S : stream q k H T (d :: ms) m (group_addr M a)).

(** A member that pops, up to the store of the group's position. *)
Lemma member_reads ts i t h :
  ts !! i = Some t -> th_pc t = GIdle h -> gh_slot h = a ->
  rtc (gstep q M) (GState m ts) (GState m (<[i := Thread (th_gid t) (GStore h T d) (th_got t)]> ts)).
Proof.
  intros Ht Hpc Ha. pose proof (lookup_lt_Some _ _ _ Ht) as Hi.
  pose proof (stream_first _ _ _ _ _ _ _ S d ms eq_refl) as Hh.
  assert (forall t1 b cap pc, th_gid t1 = th_gid t -> th_got t1 = th_got t ->
    gnext q M (th_gid t) b cap (th_pc t1) m = Some (pc, GTau, m) ->
    gstep q M (GState m (<[i := t1]> ts)) (GState m (<[i := Thread (th_gid t) pc (th_got t)]> ts))) as Hs.
  { intros t1 b cap pc Hg1 Hg2 Hn.
    pose proof (gstep_thread q M (GState m (<[i := t1]> ts)) i t1 b cap pc GTau m) as Hx. simpl in Hx.
    rewrite Hg1, Hg2, app_nil_r, list_insert_insert_eq in Hx. apply Hx; [|done].
    by apply list_lookup_insert_eq. }
  eapply (rtc_l _ _ (GState m (<[i := Thread (th_gid t) (GHead h (zlen d) T) (th_got t)]> ts))).
  { rewrite <- (list_insert_id ts i t Ht) at 1. apply (Hs t false (zlen d)); [done|done|].
    rewrite Hpc. simpl. rewrite Ha. by erewrite bind_ret by (eapply stream_ld_tail; exact S). }
  eapply (rtc_l _ _ (GState m (<[i := Thread (th_gid t) (GLen h (zlen d) T) (th_got t)]> ts))).
  { eapply (Hs _ false (zlen d)); [done|done|]. simpl.
    erewrite bind_ret by (eapply stream_ld_head; exact S).
    by rewrite (stream_empty _ _ _ _ _ _ _ S). }
  eapply (rtc_l _ _ (GState m (<[i := Thread (th_gid t) (GCopy h T (zlen d)) (th_got t)]> ts))).
  { eapply (Hs _ false (zlen d)); [done|done|]. simpl. rewrite (stream_slot _ _ _ _ _ _ _ S).
    erewrite bind_ret by (eapply stream_ld_length; [exact S|exact Hh]).
    by zb_false (zlen d <? zlen d). }
  apply rtc_once. eapply (Hs _ false (zlen d)); [done|done|]. simpl. rewrite (stream_slot _ _ _ _ _ _ _ S).
  pose proof (sm_wf _ _ _ _ _ _ _ S) as W. pose proof (h_fits _ _ _ _ _ Hh). pose proof (zlen_nonneg d).
  rewrite (bind_ret _ _ _ d m); [done|]. rewrite load_in; [by rewrite (h_data _ _ _ _ _ Hh)|].
  apply (stream_in_slot _ _ _ _ _ _ _ S T); unfold SIZEOF_HEADER in *; lia.
Qed.

(** The store of the position. *)
Lemma member_stores ts i t h m1 :
  ts !! i = Some t -> th_pc t = GStore h T d -> gh_slot h = a ->
  st 8 (group_addr M a + GRP_TAIL) (add64 T 1) m1 = Some (tt, wr 8 m1 (group_addr M a + GRP_TAIL) (T + 1)) ->
  gstep q M (GState m1 ts)
    (GState (wr 8 m1 (group_addr M a + GRP_TAIL) (T + 1))
            (<[i := Thread (th_gid t) (GIdle h) (th_got t ++ [d])]> ts)).
Proof.
  intros Ht Hpc Ha Hs. change [d] with (received (GPopped NABD_OK (Some d))).
  eapply gstep_thread with (b := false) (cap := 0); [exact Ht|]. simpl. rewrite Hpc. simpl.
  by rewrite Ha, (bind_ret _ _ _ _ _ Hs).
Qed.
End Members.

(** ** A concrete run *)

(** A schedule: which thread takes the next step, with which flag; pops have eight bytes
    of buffer. *)
Fixpoint gdrive (q : nabd) (M : Z) (sched : list (nat * bool)) (s : gstate) : gstate :=
  match sched with
  | [] => s
  | (i, b) :: sched =>
      match gs_threads s !! i with
      | Some t =>
          match gnext q M (th_gid t) b 8 (th_pc t) (gs_mem s) with
          | Some (pc, e, m) =>
              gdrive q M sched
                (GState m (<[i := Thread (th_gid t) pc (th_got t ++ received e)]> (gs_threads s)))
          | None => s
          end
      | None => s
      end
  end.

Lemma gdrive_reachable q M sched s : rtc (gstep q M) s (gdrive q M sched s).
Proof.
  revert s. induction sched as [|[i b] sched IH]; simpl; intros s; [done|].
  destruct (gs_threads s !! i) as [t|] eqn:Ht; [|done].
  destruct (gnext _ _ _ _ _ _ _) as [[[pc e] m]|] eqn:E; [|done].
  eapply rtc_l; [|apply IH]. by eapply gstep_thread.
Qed.

(** Two creators and a joiner of the same identifier, interleaved step by step. *)
Definition sample_starting : list thread :=
  [Thread 7 (GTry 0) []; Thread 7 (GTry 0) []; Thread 7 (JActive 0) []].

Definition sample_claims : gstate :=
  gdrive sample_mq 320
    [(0%nat, false); (1%nat, false); (1%nat, false); (0%nat, false); (1%nat, false);
     (2%nat, false); (2%nat, false); (0%nat, false); (1%nat, false); (0%nat, false)]
    (GState (sample_multi 0) sample_starting).

(** Two handles on the group 7 of [sample_groups]. *)
Definition sample_members : list thread :=
  [Thread 7 (GIdle (GHandle true 0 7)) []; Thread 7 (GIdle (GHandle false 0 7)) []].

(** ** The theorems *)

(** C27: claims are exclusive.  Any number of threads creating, joining and popping, in
    any interleaving with each other and with a producer and single consumer that change
    anything below the block, with any spurious failures of the compare-and-swap and any
    failures of the allocation: no group is ever claimed by two creators; a claimed group
    is active, and once its creator has stored it, carries the identifier of the handle;
    and every group that has become active is claimed by some thread, so that failed
    creations leak nothing. *)
Theorem group_claims_exclusive q M m0 ts s :
  0 <= M -> Forall starting ts -> rtc (gstep q M) (GState m0 ts) s ->
  (forall n n' t t' i, gs_threads s !! n = Some t -> gs_threads s !! n' = Some t' ->
     owned (th_pc t) = Some i -> owned (th_pc t') = Some i -> n = n') /\
  (forall n t i, gs_threads s !! n = Some t -> owned (th_pc t) = Some i ->
     (i < 16)%nat /\ active_at M (gs_mem s) i = 1) /\
  (forall n t h, gs_threads s !! n = Some t -> created (th_gid t) (th_pc t) = Some h ->
     id_at M (gs_mem s) (gh_slot h) = u32 (gh_id h)) /\
  (forall i, (i < 16)%nat -> active_at M m0 i = 0 -> active_at M (gs_mem s) i <> 0 ->
     exists n t, gs_threads s !! n = Some t /\ owned (th_pc t) = Some i).
Proof.
  intros HM Hts Hr. destruct (claims_reachable q M HM m0 ts s Hts Hr) as [_ Ha Hi Hx Hk].
  split_and!; [eauto..|]. intros i Hlt Hz Hn. destruct (Hk i Hlt Hn); [done|eauto].
Qed.

(** C32: the thread models are the functions.  On any memory, a thread that runs alone
    returns from create, join and pop exactly what [nabd_consumer_create],
    [nabd_consumer_join] and [nabd_consumer_pop] of MultiConsumer.v return, with the same
    memory and the same undefined behaviour. *)
Theorem group_threads_are_the_functions q M gid spurious alloc dst h m :
  q_multi q = Some M ->
  returns q M (grun q M 22 gid spurious alloc (zlen dst) (GTry 0) m)
  = nabd_consumer_create spurious alloc (Some q) gid m /\
  (gid <> 0 -> returns q M (grun q M 34 gid spurious alloc (zlen dst) (JActive 0) m)
               = nabd_consumer_join alloc (Some q) gid m) /\
  match grun q M 5 gid spurious alloc (zlen dst) (GIdle h) m with
  | Some (pc, GPopped r x, m') =>
      pc = GIdle h /\ exists len,
      nabd_consumer_pop (Some (consumer_of q M h)) (Some dst) (Some (zlen dst)) m
      = Some (r, Some (match x with Some d => splice dst 0 d | None => dst end), Some len, m')
  | Some _ => False
  | None => nabd_consumer_pop (Some (consumer_of q M h)) (Some dst) (Some (zlen dst)) m = None
  end.
Proof.
  intros HM. split_and!.
  - rewrite (solo_claim _ _ _ _ _ _ 16) by lia. unfold nabd_consumer_create. by rewrite HM.
  - intros Hg. rewrite (solo_join _ _ _ _ _ _ 16) by lia. unfold nabd_consumer_join.
    zb_false (gid =? 0). by rewrite HM.
  - by apply solo_group_pop.
Qed.

(** A group cannot be shared.  When two threads hold handles on one group that has a
    message to read, an interleaving of their pops delivers that message to both, while
    the group's position advances by one: [nabd_consumer_pop] loads the position and
    stores the next one without a compare-and-swap. *)
Theorem shared_group_delivers_twice q k H T M d ms m ts a n n' t t' h h' :
  stream q k H T (d :: ms) m (group_addr M a) ->
  ts !! n = Some t -> ts !! n' = Some t' -> n <> n' ->
  th_pc t = GIdle h -> gh_slot h = a -> th_pc t' = GIdle h' -> gh_slot h' = a ->
  exists s, rtc (gstep q M) (GState m ts) s /\
    gs_threads s !! n = Some (Thread (th_gid t) (GIdle h) (th_got t ++ [d])) /\
    gs_threads s !! n' = Some (Thread (th_gid t') (GIdle h') (th_got t' ++ [d])) /\
    stream q k H (T + 1) ms (gs_mem s) (group_addr M a).
Proof.
  intros S Ht Ht' Hn Hpc Ha Hpc' Ha'.
  pose proof (lookup_lt_Some _ _ _ Ht) as Hl. pose proof (lookup_lt_Some _ _ _ Ht') as Hl'.
  destruct (stream_advance _ _ _ _ _ _ _ S d ms eq_refl) as [Hs1 S1].
  set (m1 := wr 8 m (group_addr M a + GRP_TAIL) (T + 1)) in *.
  assert (in_mem m (group_addr M a + GRP_TAIL) 8) as Hin
    by (apply (stream_in_group _ _ _ _ _ _ _ S); unfold GRP_TAIL, SIZEOF_GROUP; lia).
  assert (wr 8 m1 (group_addr M a + GRP_TAIL) (T + 1) = m1) as Hm.
  { destruct Hin as (? & ? & ?). apply splice_splice_same; rewrite ?zlen_le_split; done. }
  assert (st 8 (group_addr M a + GRP_TAIL) (add64 T 1) m1
          = Some (tt, wr 8 m1 (group_addr M a + GRP_TAIL) (T + 1))) as Hs2.
  { assert (add64 T 1 = T + 1) as -> by (pose proof (stream_pos _ _ _ _ _ _ _ S);
      pose proof (stream_pos _ _ _ _ _ _ _ S1); apply u64_small; lia).
    apply st_in. unfold in_mem, m1 in *. by rewrite zlen_wr. }
  eexists. split; [|split; [|split]].
  - etrans; [eapply (member_reads _ _ _ _ _ _ _ _ _ S ts n t h); done|].
    etrans; [eapply (member_reads _ _ _ _ _ _ _ _ _ S _ n' t' h'); [|done..]; by rewrite list_lookup_insert_ne|].
    eapply rtc_l.
    { apply (member_stores q T M d a _ n (Thread (th_gid t) (GStore h T d) (th_got t)) h m); try done.
      rewrite list_lookup_insert_ne by done. by apply list_lookup_insert_eq. }
    simpl. apply rtc_once.
    apply (member_stores q T M d a _ n' (Thread (th_gid t') (GStore h' T d) (th_got t')) h' m1); try done.
    rewrite list_lookup_insert_ne by done. apply list_lookup_insert_eq. by rewrite length_insert.
  - simpl. rewrite list_lookup_insert_ne by done. apply list_lookup_insert_eq. by rewrite !length_insert.
  - simpl. apply list_lookup_insert_eq. by rewrite !length_insert.
  - simpl. by rewrite Hm.
Qed.

(** The window of a creation.  A creator makes its group active before it stores the
    identifier, so a joiner that comes in between matches the identifier that an earlier
    creation (one whose allocation failed gives the group back) left there: it gets a handle for that identifier on a group that then has
    another one. *)
Theorem join_during_creation q M m ts n n' gid gid' i got got' :
  n <> n' -> ts !! n = Some (Thread gid (GSetId i) got) -> ts !! n' = Some (Thread gid' (JActive i) got') ->
  (i < 16)%nat -> 0 <= M -> group_addr M i + SIZEOF_GROUP <= zlen m ->
  active_at M m i <> 0 -> id_at M m i = gid' ->
  exists s, rtc (gstep q M) (GState m ts) s /\
    gs_threads s !! n' = Some (Thread gid' (GIdle (GHandle false i gid')) got') /\
    gs_threads s !! n = Some (Thread gid (GLoadHead i) got) /\
    id_at M (gs_mem s) i = u32 (assigned_id gid i).
Proof.
  intros Hn Ht Ht' Hi HM Hm Ha Hid.
  pose proof (lookup_lt_Some _ _ _ Ht) as Hl. pose proof (lookup_lt_Some _ _ _ Ht') as Hl'.
  assert (forall o w, 0 <= o -> 0 <= w -> o + w <= SIZEOF_GROUP -> in_mem m (group_addr M i + o) w) as Hin
    by (intros; unfold in_mem, group_addr, MULTI_GROUPS, SIZEOF_GROUP in *; lia).
  assert (forall pc1 pc2 e, gnext q M gid' false 0 pc1 m = Some (pc2, e, m) -> received e = [] ->
    gstep q M (GState m (<[n' := Thread gid' pc1 got']> ts)) (GState m (<[n' := Thread gid' pc2 got']> ts)))
    as Hs.
  { intros pc1 pc2 e E He. pose proof (gstep_thread q M (GState m (<[n' := Thread gid' pc1 got']> ts)) n'
      (Thread gid' pc1 got') false 0 pc2 e m) as Hx. simpl in Hx.
    rewrite He, app_nil_r, list_insert_insert_eq in Hx. apply Hx; [|done]. by apply list_lookup_insert_eq. }
  eexists. split; [|split; [|split]].
  - rewrite <- (list_insert_id ts n' _ Ht') at 1.
    eapply rtc_l; [apply (Hs _ (JId i) GTau); [|done]|].
    { simpl. change (Z.to_nat NABD_MAX_CONSUMERS) with 16%nat.
      replace (i <? 16)%nat with true by (symmetry; apply Nat.ltb_lt; lia).
      erewrite bind_ret by (apply ld_in, Hin; done). fold (active_at M m i).
      by zb_false (active_at M m i =? 0). }
    eapply rtc_l; [apply (Hs _ (JAlloc i) GTau); [|done]|].
    { simpl. erewrite bind_ret by (apply ld_in, Hin; done). fold (id_at M m i).
      by zb_true (id_at M m i =? gid'). }
    eapply rtc_l; [by eapply (Hs (JAlloc i))|].
    apply rtc_once, (gstep_thread q M _ n (Thread gid (GSetId i) got) false 0 (GLoadHead i) GTau).
    + simpl. by rewrite list_lookup_insert_ne.
    + simpl. by erewrite bind_ret by (apply st_in, Hin; done).
  - simpl. rewrite list_lookup_insert_ne by done. by apply list_lookup_insert_eq.
  - simpl. rewrite app_nil_r. apply list_lookup_insert_eq. by rewrite length_insert.
  - simpl. unfold id_at. by rewrite rd_wr_same by (apply Hin; done).
Qed.

(** ** Witnesses *)

Lemma group_claims_exclusive_witness :
  map th_pc (gs_threads sample_claims) = [GAlloc 0; GSetTail 1 0; JAlloc 0] /\
  active_at 320 (gs_mem sample_claims) 1 = 1.
Proof.
  split; [vm_compute; reflexivity|].
  assert (Forall starting sample_starting) as Hs.
  { repeat (apply Forall_cons; split;
      [split; [reflexivity|first [left; reflexivity|right; split; [reflexivity|simpl; lia]]]|]).
    by apply Forall_nil. }
  destruct (group_claims_exclusive sample_mq 320 (sample_multi 0) sample_starting sample_claims
              ltac:(lia) Hs (gdrive_reachable _ _ _ _)) as (_ & Ha & _).
  destruct (Ha 1%nat (Thread 7 (GSetTail 1 0) []) 1%nat) as [_ H1]; [vm_compute; reflexivity|reflexivity|].
  exact H1.
Defined.

Lemma group_threads_are_the_functions_witness :
  returns sample_mq 320 (grun sample_mq 320 34 7 (fun _ => false) true (zlen msg_b) (JActive 0) sample_groups)
  = nabd_consumer_join true (Some sample_mq) 7 sample_groups.
Proof.
  destruct (group_threads_are_the_functions sample_mq 320 7 (fun _ => false) true msg_b
              (GHandle true 0 7) sample_groups eq_refl) as (_ & Hj & _).
  exact (Hj ltac:(lia)).
Defined.

Lemma shared_group_delivers_twice_witness :
  exists s, rtc (gstep sample_mq 320) (GState sample_groups sample_members) s /\
    map th_got (gs_threads s) = [[msg_a]; [msg_a]].
Proof.
  destruct (shared_group_delivers_twice sample_mq 1 2 0 320 msg_a [msg_b] sample_groups sample_members
              0 0 1 _ _ (GHandle true 0 7) (GHandle false 0 7) sample_stream eq_refl eq_refl
              ltac:(lia) eq_refl eq_refl eq_refl eq_refl) as (s & Hr & H1 & H2 & _).
  exists s. split; [exact Hr|].
  assert (length (gs_threads s) = 2%nat) as Hl.
  { change 2%nat with (length (gs_threads (GState sample_groups sample_members))).
    clear H1 H2. induction Hr as [|s1 s2 s3 Hs _ IH]; [reflexivity|]. rewrite IH.
    destruct Hs; simpl; [by rewrite length_insert|reflexivity]. }
  destruct (gs_threads s) as [|x [|y [|z l]]]; simpl in *; try discriminate.
  injection H1 as ->. injection H2 as ->. reflexivity.
Defined.

(** A creator of 9 about to store it where 7 still stands, and a joiner of 7. *)
Lemma join_during_creation_witness :
  exists s, rtc (gstep sample_mq 320)
    (GState sample_groups [Thread 9 (GSetId 0) []; Thread 7 (JActive 0) []]) s /\
    gs_threads s !! 1%nat = Some (Thread 7 (GIdle (GHandle false 0 7)) []) /\
    id_at 320 (gs_mem s) 0 = 9.
Proof.
  destruct (join_during_creation sample_mq 320 sample_groups [Thread 9 (GSetId 0) []; Thread 7 (JActive 0) []]
              0 1 9 7 0 [] [] ltac:(lia) eq_refl eq_refl ltac:(lia) ltac:(lia))
    as (s & Hr & Ht & _ & Hid).
  - vm_compute. discriminate.
  - vm_compute. discriminate.
  - vm_compute. reflexivity.
  - exists s. split; [exact Hr|]. split; [exact Ht|exact Hid].
Defined.
