(* ===== verification/GroupFifo.v ===== *)
(** * A consumer group with one member, among running threads

    The thread of GroupThreads.v that is the only one to hold a handle on its group
    reads the FIFO of the messages published while it runs, whatever the other threads
    create, join and pop, as long as the producer does not lap the group.  Two handles on
    one group break this: [shared_group_delivers_twice]. *)

From S2P Require Import Prelude Words Pow2 Memory Layout Fifo Queue Ring Sample Posix MultiConsumer GroupsCorrect GroupThreads GroupThreadsCorrect.
From stdpp Require Import relations.
Local Open Scope Z_scope.

(** ** The system *)

(** A change below the block after which the group at [g] still reads its unread
    messages, and then [ds]: a part of a push, a push, a pop of the single consumer. *)
Definition extends (q : nabd) (k M g : Z) (m : mem) (ds : list msg) (m' : mem) : Prop :=
  frame 0 M m m' /\
  forall H T ms, stream q k H T ms m g -> stream q k (H + zlen ds) T (ms ++ ds) m' g.

(** The threads and a producer that does not lap group [a]; the log has the messages
    that the group had unread at the start and all published since. *)
Inductive fstep (q : nabd) (k M : Z) (a : nat) (s : gstate * list msg) : gstate * list msg -> Prop :=
  | fstep_thread i t b cap pc e m :
      gs_threads s.1 !! i = Some t ->
      gnext q M (th_gid t) b cap (th_pc t) (gs_mem s.1) = Some (pc, e, m) ->
      fstep q k M a s
        (GState m (<[i := Thread (th_gid t) pc (th_got t ++ received e)]> (gs_threads s.1)), s.2)
  | fstep_publish ds m :
      extends q k M (group_addr M a) (gs_mem s.1) ds m ->
      fstep q k M a s (GState m (gs_threads s.1), s.2 ++ ds).

(** A thread that does not hold, claim or look for group [a] with identifier [id]. *)
Definition elsewhere (a : nat) (id : Z) (t : thread) : Prop :=
  match th_pc t with
  | GTry _ | GNull => True
  | JActive _ | JId _ => th_gid t <> id
  | GSetId i | GLoadHead i | GSetTail i _ | GAlloc i | GUndo i | JAlloc i => i <> a
  | GIdle h | GHead h _ _ | GLen h _ _ | GCopy h _ _ | GStore h _ _ => gh_slot h <> a
  end.

(** Where the member can be, with [T] the position of the group and [ms] its unread
    messages. *)
Definition member_at (a : nat) (T : Z) (ms : list msg) (pc : gpc) : Prop :=
  match pc with
  | GIdle h => gh_slot h = a
  | GHead h _ t => gh_slot h = a /\ t = T
  | GLen h _ t => gh_slot h = a /\ t = T /\ ms <> []
  | GCopy h t n => gh_slot h = a /\ t = T /\ exists d, head ms = Some d /\ n = zlen d
  | GStore h t d => gh_slot h = a /\ t = T /\ head ms = Some d
  | _ => False
  end.

Lemma member_at_app a T ms ds pc : member_at a T ms pc -> member_at a T (ms ++ ds) pc.
Proof.
  destruct pc; simpl; try done.
  - intros (? & ? & Hm). split_and!; [done..|]. by destruct ms.
  - intros (? & ? & d & Hd & ?). split_and!; [done..|]. exists d. by destruct ms.
  - intros (? & ? & Hd). split_and!; [done..|]. by destruct ms.
Qed.

(** ** The invariant *)

Section Sole.
Context (q : nabd) (k M : Z) (HM : SIZEOF_CONTROL + 2 ^ k * q_slot_size q <= M).
Context (a n : nat) (id : Z).

Record sole_ok (s : gstate * list msg) (H T : Z) (ms : list msg) (t : thread) : Prop := {
  so_stream : stream q k H T ms (gs_mem s.1) (group_addr M a);
  so_active : active_at M (gs_mem s.1) a <> 0;
  so_id : id_at M (gs_mem s.1) a = id;
  so_member : gs_threads s.1 !! n = Some t;
  so_at : member_at a T ms (th_pc t);
  so_log : s.2 = th_got t ++ ms;
  so_others n' t' : n' <> n -> gs_threads s.1 !! n' = Some t' -> elsewhere a id t'
}.

(** A store into another group. *)
Lemma store_elsewhere w m m' i o v H T ms :
  i <> a -> stream q k H T ms m (group_addr M a) -> 0 <= o -> o + Z.of_nat w <= SIZEOF_GROUP ->
  st w (group_addr M i + o) v m = Some (tt, m') ->
  stream q k H T ms m' (group_addr M a) /\ active_at M m' a = active_at M m a /\
  id_at M m' a = id_at M m a.
Proof.
  intros Hi S Ho Hw [Hin [= ->]]%st_inv.
  pose proof (stream_pos _ _ _ _ _ _ _ S). pose proof (pow_k _ _ (sm_wf _ _ _ _ _ _ _ S)).
  pose proof (wf_slot _ _ (sm_wf _ _ _ _ _ _ _ S)).
  assert (0 <= M) by (unfold SIZEOF_CONTROL, SIZEOF_HEADER in *; nia).
  split; [|destruct (at_wr M ltac:(done) m i o w v a Hin Ho Hw) as [Ha Hid]; auto].
  eapply stream_frame; [exact S|by apply frame_wr|..]; unfold group_addr, MULTI_GROUPS, SIZEOF_GROUP in *; lia.
Qed.

(** A step of another thread: it stays elsewhere, and the group is as it was. *)
Lemma other_step m t b cap pc e m' H T ms :
  stream q k H T ms m (group_addr M a) -> active_at M m a <> 0 -> id_at M m a = id ->
  elsewhere a id t -> gnext q M (th_gid t) b cap (th_pc t) m = Some (pc, e, m') ->
  stream q k H T ms m' (group_addr M a) /\ active_at M m' a = active_at M m a /\
  id_at M m' a = id_at M m a /\ elsewhere a id (Thread (th_gid t) pc (th_got t ++ received e)).
Proof.
  intros S Ha Hid He. unfold elsewhere in *. cbn [th_pc th_gid].
  destruct (th_pc t) as [i|i|i|i hd|i|i|i|i|i|h|h c tl|h c tl|h tl l|h tl d|] eqn:Hpc; simpl.
  - case_match; [|by intros [= <- <- <-]].
    intros (won & m1 & Hw%cas_inv & Hs)%bind_inv. injection Hs as <- <- <-.
    destruct won; [destruct Hw as [? Hst]|by subst m1]. assert (i <> a) by (intros ->; done).
    destruct (store_elsewhere 4 m m1 i GRP_ACTIVE 1 H T ms) as (? & ? & ?); done.
  - intros (u & m1 & Hst & Hs)%bind_inv. injection Hs as <- <- <-. destruct u.
    edestruct (store_elsewhere 4 m m1 i GRP_ID) as (? & ? & ?); done.
  - intros (x & m1 & [-> _]%ld_inv & Hs)%bind_inv. by injection Hs as <- <- <-.
  - intros (u & m1 & Hst & Hs)%bind_inv. injection Hs as <- <- <-. destruct u.
    edestruct (store_elsewhere 8 m m1 i GRP_TAIL) as (? & ? & ?); done.
  - case_match; by intros [= <- <- <-].
  - intros (u & m1 & Hst & Hs)%bind_inv. injection Hs as <- <- <-. destruct u.
    edestruct (store_elsewhere 4 m m1 i GRP_ACTIVE) as (? & ? & ?); done.
  - case_match; [|by intros [= <- <- <-]].
    intros (x & m1 & [-> _]%ld_inv & Hs)%bind_inv. injection Hs as <- <- <-.
    split_and!; [done..|]. by destruct (x =? 0).
  - intros (x & m1 & [-> ->]%ld_inv & Hs)%bind_inv. injection Hs as <- <- <-.
    split_and!; [done..|]. destruct (_ =? _) eqn:Hx; [|done]. zbool. intros ->. by rewrite <- Hx, <- Hid in He.
  - case_match; by intros [= <- <- <-].
  - intros (x & m1 & [-> _]%ld_inv & Hs)%bind_inv. by injection Hs as <- <- <-.
  - intros (x & m1 & [-> _]%ld_inv & Hs)%bind_inv. revert Hs. case_match; by intros [= <- <- <-].
  - intros (x & m1 & [-> _]%ld_inv & Hs)%bind_inv. revert Hs. case_match; by intros [= <- <- <-].
  - intros (x & m1 & ->%load_inv & Hs)%bind_inv. by injection Hs as <- <- <-.
  - intros (u & m1 & Hst & Hs)%bind_inv. injection Hs as <- <- <-. destruct u.
    edestruct (store_elsewhere 8 m m1 (gh_slot h) GRP_TAIL) as (? & ? & ?); done.
  - done.
Qed.

(** A step of the member: it is possible, it goes on with the oldest unread message, and
    with the store of the position the message is received and no longer unread. *)
Lemma member_step m t b cap H T ms :
  stream q k H T ms m (group_addr M a) -> member_at a T ms (th_pc t) ->
  exists pc e m' T' ms', gnext q M (th_gid t) b cap (th_pc t) m = Some (pc, e, m') /\
    ms = received e ++ ms' /\ stream q k H T' ms' m' (group_addr M a) /\ member_at a T' ms' pc /\
    active_at M m' a = active_at M m a /\ id_at M m' a = id_at M m a /\
    (e = GPopped NABD_EMPTY None -> ms = []).
Proof.
  intros S Hat.
  destruct (th_pc t) as [i|i|i|i hd|i|i|i|i|i|h|h c tl|h c tl|h tl l|h tl d|] eqn:Hpc; try done; simpl in Hat |- *.
  - rewrite Hat, (bind_ret _ _ _ _ _ (stream_ld_tail _ _ _ _ _ _ _ S)).
    by eexists _, _, _, T, ms.
  - destruct Hat as [Ha ->]. rewrite (bind_ret _ _ _ _ _ (stream_ld_head _ _ _ _ _ _ _ S)).
    rewrite (stream_empty _ _ _ _ _ _ _ S). case_bool_decide; [by eexists _, _, _, T, ms|].
    eexists _, _, _, T, ms. split; [reflexivity|]. by split_and!.
  - destruct Hat as (Ha & -> & Hne). destruct ms as [|d ms]; [done|].
    pose proof (stream_first _ _ _ _ _ _ _ S d ms eq_refl) as Hh.
    rewrite (stream_slot _ _ _ _ _ _ _ S), (bind_ret _ _ _ _ _ (stream_ld_length _ _ _ _ _ _ _ S d Hh)).
    case_zb; eexists _, _, _, T, (d :: ms); (split; [reflexivity|]); split_and!; simpl; eauto; done.
  - destruct Hat as (Ha & -> & d & Hd & ->). destruct ms as [|d' ms]; [done|]. injection Hd as ->.
    pose proof (stream_first _ _ _ _ _ _ _ S d ms eq_refl) as Hh.
    pose proof (h_fits _ _ _ _ _ Hh). pose proof (zlen_nonneg d).
    rewrite (stream_slot _ _ _ _ _ _ _ S).
    pose proof (wf_slot _ _ (sm_wf _ _ _ _ _ _ _ S)).
    erewrite bind_ret
      by (apply load_in, (stream_in_slot _ _ _ _ _ _ _ S T); unfold SIZEOF_HEADER in *; lia).
    rewrite (h_data _ _ _ _ _ Hh). eexists _, _, _, T, (d :: ms). split; [reflexivity|]. by split_and!.
  - destruct Hat as (Ha & -> & Hd). destruct ms as [|d' ms]; [done|]. injection Hd as ->.
    destruct (stream_advance _ _ _ _ _ _ _ S d ms eq_refl) as [Hst S'].
    rewrite Ha, (bind_ret _ _ _ _ _ Hst). eexists _, _, _, (T + 1), ms. split; [reflexivity|].
    pose proof (stream_pos _ _ _ _ _ _ _ S). pose proof (sm_place _ _ _ _ _ _ _ S).
    apply st_inv in Hst as [Hin _].
    pose proof (pow_k _ _ (sm_wf _ _ _ _ _ _ _ S)). pose proof (wf_slot _ _ (sm_wf _ _ _ _ _ _ _ S)).
    assert (0 <= M) by (unfold SIZEOF_CONTROL, SIZEOF_HEADER in *; nia).
    destruct (at_wr M ltac:(done) m a GRP_TAIL 8 (T + 1) a Hin) as [Hact Hid]; [done|done|].
    split_and!; try done; [apply Hact|apply Hid]; unfold GRP_TAIL, GRP_ACTIVE, GRP_ID; lia.
Qed.

Lemma sole_step s s' H T ms t :
  sole_ok s H T ms t -> fstep q k M a s s' -> exists H' T' ms' t', sole_ok s' H' T' ms' t'.
Proof.
  intros [S Ha Hid Ht Hat Hl Ho] Hs. destruct Hs as [i t1 b cap pc e m Hi Hn|ds m [Hf He]].
  - pose proof (lookup_lt_Some _ _ _ Ht) as Hln. destruct (decide (i = n)) as [->|Hin].
    + assert (t1 = t) as -> by congruence.
      destruct (member_step _ t b cap H T ms S Hat) as (pc' & e' & m' & T' & ms' & E & Hms & S' & Hat' & Hact & Hid2 & _).
      rewrite E in Hn. injection Hn as -> -> ->.
      eexists H, T', ms', _. split; simpl; rewrite ?Hact, ?Hid2; try done.
      * by apply list_lookup_insert_eq.
      * done.
      * rewrite Hl. by rewrite Hms, app_assoc.
      * intros n' t' Hne. rewrite list_lookup_insert_ne by done. eauto.
    + destruct (other_step _ _ _ _ _ _ _ H T ms S Ha Hid (Ho _ _ Hin Hi) Hn) as (S' & Hact & Hid2 & Hel).
      exists H, T, ms, t. split; simpl; rewrite ?Hact, ?Hid2; try done.
      * by rewrite list_lookup_insert_ne.
      * intros n' t' Hne [(<- & <- & _)|(? & ?)]%list_lookup_insert_Some; eauto.
  - eexists (H + zlen ds), T, (ms ++ ds), t.
    pose proof (pow_k _ _ (sm_wf _ _ _ _ _ _ _ S)). pose proof (wf_slot _ _ (sm_wf _ _ _ _ _ _ _ S)).
    assert (0 <= M) by (unfold SIZEOF_CONTROL, SIZEOF_HEADER in *; nia).
    destruct (at_frame M ltac:(done) _ _ a Hf) as [Hact Hid2].
    split; simpl; rewrite ?Hact, ?Hid2; try done; eauto using member_at_app. by rewrite Hl, app_assoc.
Qed.

Lemma sole_reachable s s' H T ms t :
  sole_ok s H T ms t -> rtc (fstep q k M a) s s' -> exists H' T' ms' t', sole_ok s' H' T' ms' t'.
Proof.
  intros Hok Hr. revert H T ms t Hok.
  induction Hr as [s|s s1 s2 Hs _ IH]; intros H T ms t Hok; [eauto|].
  destruct (sole_step _ _ _ _ _ _ Hok Hs) as (H' & T' & ms' & t' & Hok'). by eapply IH.
Qed.
End Sole.

(** ** The theorem *)

(** C28: one handle per group gives the group's FIFO, under concurrency.  Let one thread hold
    the only handle on a group, while any number of other threads, in any interleaving,
    create groups, join other groups and pop from them, and the producer and the single
    consumer change the queue in any way that does not lap the group or bring [head] to
    2^64.  Then at every
    moment the messages the thread has received, followed by those the group has still
    to read, are exactly the messages published for the group, in order: nothing is
    lost, repeated, reordered or torn.  The thread can always take its next step, and it
    is told that the queue is empty only if the group has nothing to read. *)
Theorem sole_member_fifo q k H T M a n t h ms m ts s :
  SIZEOF_CONTROL + 2 ^ k * q_slot_size q <= M ->
  stream q k H T ms m (group_addr M a) -> active_at M m a <> 0 ->
  ts !! n = Some t -> th_pc t = GIdle h -> gh_slot h = a -> th_got t = [] ->
  (forall n' t', n' <> n -> ts !! n' = Some t' -> elsewhere a (id_at M m a) t') ->
  rtc (fstep q k M a) (GState m ts, ms) s ->
  exists H' T' ms' t', gs_threads s.1 !! n = Some t' /\ s.2 = th_got t' ++ ms' /\
    stream q k H' T' ms' (gs_mem s.1) (group_addr M a) /\
    forall b cap, exists pc e m', gnext q M (th_gid t') b cap (th_pc t') (gs_mem s.1) = Some (pc, e, m') /\
      received e `prefix_of` ms' /\ (e = GPopped NABD_EMPTY None -> ms' = []).
Proof.
  intros HM S Ha Ht Hpc Hh Hg Ho Hr.
  destruct (sole_reachable q k M HM a n (id_at M m a) (GState m ts, ms) s H T ms t)
    as (H' & T' & ms' & t' & [S' _ _ Ht' Hat Hl _]); [|exact Hr|].
  { split; simpl; try done; [by rewrite Hpc|by rewrite Hg]. }
  exists H', T', ms', t'. split_and!; [done..|]. intros b cap.
  destruct (member_step q k M HM a _ t' b cap H' T' ms' S' Hat)
    as (pc & e & m' & T2 & ms2 & E & -> & _ & _ & _ & _ & He).
  exists pc, e, m'. split; [done|]. split; [by eexists|done].
Qed.

(** A push with room for the single consumer and for the group is such a change. *)
Lemma push_extends q k M a H T Tg ms msg m d m' :
  ring q k H T ms m -> zlen ms < q_capacity q -> zlen d < 2 ^ 16 ->
  zlen d <= q_slot_size q - SIZEOF_HEADER -> H + 1 < 2 ^ 64 ->
  SIZEOF_CONTROL + 2 ^ k * q_slot_size q <= M ->
  stream q k H Tg msg m (group_addr M a) -> zlen msg < q_capacity q ->
  nabd_push (Some q) (Some d) (zlen d) m = Some (NABD_OK : Z, m') ->
  extends q k M (group_addr M a) m [d] m'.
Proof.
  intros R Hroom Hd Hfit Hw HM S Hlag. pose proof (r_wf _ _ _ _ _ _ R) as W. pose proof (zlen_nonneg d).
  rewrite (wf_cap _ _ W) in Hlag. pose proof (stream_pos _ _ _ _ _ _ _ S).
  destruct (push_run q k H T ms m R d (zlen d)) as (m1 & Hf & Hh & E); [lia|done|done|].
  rewrite u16_small in Hh by lia. rewrite take_ge in Hh by (unfold zlen; lia).
  assert (add64 (u64 H) 1 = H + 1) as Ha by (rewrite add64_u64_l; apply u64_small; lia).
  rewrite E, Ha. intros [= <-]. pose proof (slot_range q k W H) as Hs. pose proof (pow_k _ _ W).
  pose proof (wf_slot _ _ W). pose proof (r_len _ _ _ _ _ _ R).
  unfold SIZEOF_CONTROL, SIZEOF_HEADER in *. split.
  - apply frame_wr_in; unfold OFF_HEAD; [|unfold in_mem; rewrite (frame_len _ _ _ _ Hf); nia|lia|nia].
    eapply frame_mono; [| |exact Hf]; lia.
  - intros HH TT ms2 S2. pose proof (sm_count _ _ _ _ _ _ _ S). pose proof (sm_count _ _ _ _ _ _ _ S2).
    assert (HH = H) as ->.
    { rewrite <- (sm_head _ _ _ _ _ _ _ S2). apply (sm_head _ _ _ _ _ _ _ S). }
    assert (TT = Tg) as ->.
    { rewrite <- (sm_tail _ _ _ _ _ _ _ S2). apply (sm_tail _ _ _ _ _ _ _ S). }
    change (zlen [d]) with 1. eapply stream_publish; [exact S2|lia|done|done|done].
Qed.

(** ** Witness *)

Lemma gdrive_fstep q k M a sched s l : rtc (fstep q k M a) (s, l) (gdrive q M sched s, l).
Proof.
  revert s. induction sched as [|[i b] sched IH]; simpl; intros s; [done|].
  destruct (gs_threads s !! i) as [t|] eqn:Ht; [|done].
  destruct (gnext _ _ _ _ _ _ _) as [[[pc e] m]|] eqn:E; [|done].
  eapply rtc_l; [|apply IH]. by eapply (fstep_thread q k M a (s, l)).
Qed.

(** The members of groups 7 and 8, and a third thread that joins 8 and creates. *)
Definition sample_sole : list thread :=
  [Thread 7 (GIdle (GHandle true 0 7)) []; Thread 8 (GIdle (GHandle true 1 8)) [];
   Thread 8 (JActive 0) []; Thread 7 (GTry 0) []].

(** Group 7 takes the first message and has found the second. *)
Definition sole_before : gstate :=
  gdrive sample_mq 320
    [(0%nat, false); (2%nat, false); (0%nat, false); (3%nat, false); (0%nat, false); (0%nat, false);
     (2%nat, false); (0%nat, false); (0%nat, false); (0%nat, false)]
    (GState sample_lagging sample_sole).

(** A third message is published, which laps group 8; group 7 takes the second. *)
Definition sole_after : gstate :=
  gdrive sample_mq 320 [(0%nat, false); (3%nat, false); (0%nat, false); (0%nat, false)]
    (GState (after (push_msg msg_a) (gs_mem sole_before)) (gs_threads sole_before)).

Lemma sole_run :
  rtc (fstep sample_mq 1 320 0) (GState sample_lagging sample_sole, [msg_a; msg_b])
      (sole_after, [msg_a; msg_b; msg_a]).
Proof.
  transitivity (sole_before, [msg_a; msg_b]); [apply gdrive_fstep|].
  eapply rtc_l; [|apply gdrive_fstep].
  apply (fstep_publish sample_mq 1 320 0 (sole_before, [msg_a; msg_b]) [msg_a]).
  apply (push_extends sample_mq 1 320 0 2 1 1 [msg_b] [msg_b]).
  1: apply ringb_spec; [apply sample_m_wf|vm_compute; reflexivity].
  6: apply streamb_spec; [apply sample_m_wf|vm_compute; reflexivity].
  all: vm_compute; reflexivity || discriminate.
Qed.

Lemma sole_member_fifo_witness :
  exists t ms', gs_threads sole_after !! 0%nat = Some t /\ th_got t = [msg_a; msg_b] /\
    [msg_a; msg_b; msg_a] = th_got t ++ ms'.
Proof.
  assert (active_at 320 sample_lagging 0 <> 0) as Ha by (vm_compute; discriminate).
  assert (forall n' t', n' <> 0%nat -> sample_sole !! n' = Some t' ->
            elsewhere 0 (id_at 320 sample_lagging 0) t') as Ho.
  { replace (id_at 320 sample_lagging 0) with 7 by (vm_compute; reflexivity).
    intros [|[|[|[|n']]]] t' Hn; try done; intros [= <-]; done. }
  destruct (sole_member_fifo sample_mq 1 2 0 320 0 0 (Thread 7 (GIdle (GHandle true 0 7)) []) _ _ _
              sample_sole _ ltac:(vm_compute; discriminate) sample_lagging_stream Ha
              eq_refl eq_refl eq_refl eq_refl Ho sole_run)
    as (H' & T' & ms' & t' & Ht & Hl & _). cbn [fst snd] in Ht, Hl.
  exists t', ms'. split; [exact Ht|]. split; [|exact Hl].
  assert (th_got <$> gs_threads sole_after !! 0%nat = Some [msg_a; msg_b]) as E
    by (vm_compute; reflexivity).
  rewrite Ht in E. by injection E.
Defined.
