(* ===== verification/LifecycleCorrect.v ===== *)
(** * Opening, closing and unlinking: correctness

    The theorems about Lifecycle.v, for every operating system that behaves as
    documented ([PosixLaws]): what a created or attached queue contains, which
    segments are refused, that nothing leaks, and the two limits of the code: the size
    computation can wrap, and no handle ever has a multi-consumer block. *)

From S2P Require Import Prelude Words Pow2 Memory Layout Fifo Queue Ring Sample Posix Lifecycle MultiConsumer.
Local Open Scope string_scope.
Local Open Scope Z_scope.

(** ** Definitions *)

(** A system in which another process has created the queue of Sample.v as ["/q"]. *)
Definition with_queue (m : mem) : sys :=
  Sys {["/q" := 5%nat]} {[5%nat := m]} ∅ ∅ ∅ 0 0.

Section Correct.
Context {P : Posix} {L : PosixLaws P}.

(** Attaching to a segment that holds a FIFO: it succeeds unless the system refuses. *)
Lemma attach_spec name capacity slot_size flags s o b h0 f :
  flags_ok flags -> has_flag flags NABD_CREATE = false ->
  s_shm s !! name = Some o -> s_obj s !! o = Some b -> is_fifo h0 f b ->
  wp (nabd_open (Some name) capacity slot_size flags) s (fun r s' =>
    match r with
    | None => refusal s s'
    | Some (_, h) => opened f s' h /\ s_obj s' = s_obj s
    end).
Proof.
  intros Hfl Hc Ho Hb Hf. apply wp_open; [done|done|congruence|].
  intros q nm fd s1 Hfd Hm Href (o1 & Ho1 & _ & [[Hn Hobj]|(Hn & _)]); [|congruence].
  rewrite Hc. rewrite Ho in Hn. injection Hn as <-. rewrite <- Hobj in Hb.
  eapply wp_mono; [by eapply open_attach_spec|]. unfold refusal, no_refusal in *.
  intros [[p h]|] s'; [by rewrite Hobj|lia].
Qed.

(** Attaching to a segment without the magic number. *)
Lemma wp_reject name capacity slot_size flags s o b :
  flags_ok flags -> has_flag flags NABD_CREATE = false ->
  s_shm s !! name = Some o -> s_obj s !! o = Some b -> SIZEOF_CONTROL <= zlen b ->
  rd 8 b OFF_MAGIC <> NABD_MAGIC ->
  wp (nabd_open (Some name) capacity slot_size flags) s (fun r _ => r = None).
Proof.
  intros Hfl Hc Ho Hb Hlen Hmagic. apply wp_open; [done|done|done|].
  intros q nm fd s1 Hfd Hm _ (o1 & Ho1 & _ & [[Hn Hobj]|(Hn & _)]); [|congruence].
  rewrite Hc. rewrite Ho in Hn. injection Hn as <-. rewrite <- Hobj in Hb.
  eapply wp_mono; [by eapply open_attach_reads|]. intros [[]|] ? Hr; [by destruct Hr|done].
Qed.

(** C24: creating a queue.  With acceptable flags, a capacity of at most 2^63 and a
    control block and slots of less than 2^63 bytes in all ([open_size_overflow] shows
    that the bound is needed), [nabd_open] with [NABD_CREATE] never does anything
    undefined; it fails only where the system refused a request, and when it succeeds the
    handle gives access to an empty FIFO whose capacity is a power of two at least the one
    asked for (1024 for 0) and whose slots hold at least eight bytes of payload,
    whatever the segment held before. *)
Theorem open_creates_empty_queue name capacity slot_size flags s :
  flags_ok flags -> has_flag flags NABD_CREATE = true -> 0 <= capacity <= 2 ^ 63 -> 0 <= slot_size ->
  SIZEOF_CONTROL + effective_capacity capacity * effective_slot_size slot_size < 2 ^ 63 ->
  (exists k, effective_capacity capacity = 2 ^ k /\ capacity <= 2 ^ k) /\
  (capacity = 0 -> effective_capacity capacity = 1024) /\
  slot_size <= effective_slot_size slot_size /\ SIZEOF_HEADER + 8 <= effective_slot_size slot_size /\
  wp (nabd_open (Some name) capacity slot_size flags) s (fun r s' =>
    match r with
    | None => refusal s s'
    | Some (_, h) =>
        opened (Fifo (effective_capacity capacity)
                     (effective_slot_size slot_size - SIZEOF_HEADER) []) s' h
    end).
Proof.
  intros Hfl Hc Hcap Hss Hsize.
  destruct (effective_capacity_pow2 capacity Hcap) as (k & Hk & Hkc & Hle).
  pose proof (effective_slot_size_min slot_size Hss) as Hmin. split_and!; [by exists k|by intros ->| |done|].
  { clear - Hss. unfold effective_slot_size, NABD_DEFAULT_SLOT_SIZE, SIZEOF_HEADER. cbv zeta.
    destruct (Z.eqb_spec slot_size 0); case_zb; lia. }
  apply wp_open; [done|done|congruence|]. intros q nm fd s1 Hfd _ Href (o & Ho & _). rewrite Hc, Hkc in *.
  eapply wp_mono; [apply open_create_spec; [done|unfold SIZEOF_HEADER in *; lia|done|by exists o]|].
  unfold refusal, no_refusal in *. intros [[p h]|] s'; [done|lia].
Qed.

(** Attaching to an existing queue.  A process that opens the name of a segment
    holding FIFO [f] gets a handle on the same messages, with the capacity and slot
    size read from the segment, and changes no byte of any segment; it fails only where
    the system refused a request. *)
Theorem open_attaches_same_queue name capacity slot_size flags s o b h0 f :
  flags_ok flags -> has_flag flags NABD_CREATE = false ->
  s_shm s !! name = Some o -> s_obj s !! o = Some b -> is_fifo h0 f b ->
  wp (nabd_open (Some name) capacity slot_size flags) s (fun r s' =>
    match r with
    | None => refusal s s'
    | Some (_, h) => opened f s' h /\ s_obj s' = s_obj s
    end).
Proof. apply attach_spec. Qed.

(** A segment without the magic number is refused, with everything released. *)
Theorem open_rejects_foreign_segment name capacity slot_size flags s o b :
  flags_ok flags -> has_flag flags NABD_CREATE = false ->
  s_shm s !! name = Some o -> s_obj s !! o = Some b -> SIZEOF_CONTROL <= zlen b ->
  rd 8 b OFF_MAGIC <> NABD_MAGIC ->
  wp (nabd_open (Some name) capacity slot_size flags) s (fun r _ => r = None).
Proof. apply wp_reject. Qed.

(** C25: no leaks.  Whatever the arguments and whichever system calls fail, a failed
    [nabd_open] leaves the descriptors, mappings and heap blocks of the process as
    they were, and after a successful one [nabd_close] returns [NABD_OK] and leaves
    them as they were before the open.  [munmap] removes a mapping only when it is given
    the length that was mapped, so the handle has to carry that length. *)
Theorem open_close_no_leak s name capacity slot_size flags :
  wlp (nabd_open name capacity slot_size flags) s (fun r s' =>
    match r with
    | None => same_resources s s'
    | Some h => wp (nabd_close (Some h)) s' (fun r2 s2 => r2 = NABD_OK /\ same_resources s s2)
    end).
Proof.
  eapply wlp_mono; [apply open_holding|]. intros [[p h]|] s' Ho.
  - eapply wp_mono; [by apply close_holding|]. by intros r s2 (? & ? & _).
  - exact Ho.
Qed.

(** Unlinking removes the name, or reports [NABD_SYSERR] and changes nothing because
    there is no such name or the system refused; the segments that are mapped stay
    readable and writable in every case. *)
Theorem unlink_keeps_mappings s name :
  wp (nabd_unlink (Some name)) s (fun r s' =>
    ((r = NABD_OK /\ s_shm s' = delete name (s_shm s)) \/
     (r = NABD_SYSERR /\ s_shm s' = s_shm s /\ (s_shm s !! name = None \/ refusal s s'))) /\
    forall a, window s' a = window s a).
Proof.
  unfold nabd_unlink. apply wp_bind, wp_call. destruct (shm_unlink_law name s).
  - zb_true (-1 <? 0). apply wp_ret. split; [|done]. right. split_and!; try done. right.
    unfold refusal. simpl. lia.
  - zb_true (-1 <? 0). apply wp_ret. split; [|done]. right. auto.
  - zb_false (0 <? 0). apply wp_ret. split; [by left|done].
Qed.

(** The multi-consumer functions are unreachable through the API: every handle
    [nabd_open] returns has a null [multi] pointer, so creating or joining a group
    always fails with [EINVAL] and [nabd_min_tail] is the single-consumer position. *)
Theorem opened_queue_has_no_groups s name capacity slot_size flags :
  wlp (nabd_open name capacity slot_size flags) s (fun r _ =>
    match r with
    | None => True
    | Some (_, h) => forall spurious alloc gid m,
        nabd_consumer_create spurious alloc (Some h) gid m = Some (None, Some EINVAL, m) /\
        (gid <> 0 -> nabd_consumer_join alloc (Some h) gid m = Some (None, Some EINVAL, m)) /\
        nabd_min_tail (Some h) m = ld 8 OFF_TAIL m
    end).
Proof.
  eapply wlp_mono; [apply open_holding|]. intros [[p h]|] s' Ho; [|done].
  destruct Ho as (a & o & str & _ & _ & _ & _ & _ & _ & _ & _ & Hm).
  intros spurious alloc gid m. unfold nabd_consumer_create, nabd_consumer_join, nabd_min_tail.
  rewrite Hm. split_and!; [done| |done]. intros Hg. by zb_false (gid =? 0).
Qed.

(** The size computation wraps.  For power-of-two sizes whose product is a
    multiple of 2^64, the total size is just the control block: the mapping holds no
    slot at all, [nabd_open] succeeds, and the first push writes past the mapping. *)
Theorem open_size_overflow k j nm fd flags a m d :
  4 <= j < 64 -> 0 <= k < 64 -> 64 <= k + j -> zlen m = SIZEOF_CONTROL -> zlen d <= 2 ^ j - SIZEOF_HEADER ->
  total_size (2 ^ k) (2 ^ j) = SIZEOF_CONTROL /\
  exists m', init_control (2 ^ k) (2 ^ j) m = Some (tt, m') /\
  nabd_push (Some (new_handle nm fd flags SIZEOF_CONTROL a (2 ^ k) (2 ^ j))) (Some d) (zlen d) m' = None.
Proof.
  intros Hj Hk Hkj Hm Hd. unfold SIZEOF_CONTROL, SIZEOF_HEADER in *. split.
  { unfold total_size, SIZEOF_CONTROL. assert (mul64 (2 ^ k) (2 ^ j) = 0) as ->; [|done].
    unfold mul64, u64. rewrite <- Z.pow_add_r by lia.
    replace (k + j) with (k + j - 64 + 64) by lia. rewrite Z.pow_add_r by lia.
    apply Z.mod_mul. lia. }
  assert (0 < 2 ^ k < 2 ^ 64) by (split; [apply Z.pow_pos_nonneg|apply Z.pow_lt_mono_r]; lia).
  assert (0 < 2 ^ j < 2 ^ 64) by (split; [apply Z.pow_pos_nonneg|apply Z.pow_lt_mono_r]; lia).
  assert (16 <= 2 ^ j) by (apply (Z.pow_le_mono_r 2 4); lia).
  destruct (init_control_spec m (2 ^ k) (2 ^ j)) as (m' & Hi & Hl & _ & _ & _ & _ & _ & Hh & Ht);
    [unfold SIZEOF_CONTROL; lia|lia|lia|].
  exists m'. split; [done|]. unfold nabd_push. cbn [new_handle q_slot_size q_capacity].
  assert (sub64 (2 ^ j) 8 = 2 ^ j - 8) as Hs by (apply u64_small; lia).
  unfold SIZEOF_HEADER. rewrite Hs. zb_false (2 ^ j - 8 <? zlen d). unfold OFF_HEAD, OFF_TAIL in *.
  erewrite bind_ret by (apply ld_in; unfold in_mem; lia).
  erewrite bind_ret by (apply ld_in; unfold in_mem; lia).
  rewrite Hh, Ht. change (sub64 0 0) with 0. zb_false (2 ^ k <=? 0). cbv zeta.
  apply bind_undef. unfold memcpy_in, get_slot. cbn [new_handle q_buffer q_mask q_slot_size].
  pose proof (zlen_nonneg d). zb_true (0 <=? zlen d). zb_true (zlen d <=? zlen d). simpl.
  unfold store, nabd_mod_pow2, SIZEOF_CONTROL. rewrite Z.land_0_l.
  change (mul64 0 (2 ^ j)) with 0. set (x := zlen (take _ _)).
  assert (0 <= x) by apply zlen_nonneg. zb_false (256 + 0 + 8 + x <=? zlen m').
  by rewrite andb_false_r.
Qed.
End Correct.

(** ** Witnesses *)

Lemma open_creates_empty_queue_witness :
  match @nabd_open simple (Some "/q") 3 1 (Z.lor NABD_CREATE NABD_PRODUCER) boot with
  | Some (Some _, _) => True
  | _ => False
  end /\
  @wp sys (option (Z * nabd)) (@nabd_open simple (Some "/q") 3 1 (Z.lor NABD_CREATE NABD_PRODUCER)) boot
    (fun r s' => match r with None => refusal boot s' | Some (_, h) => opened (Fifo 4 8 []) s' h end).
Proof.
  split; [vm_compute; exact I|].
  apply (@open_creates_empty_queue simple (SimplePosix_laws no_faults) "/q" 3 1
           (Z.lor NABD_CREATE NABD_PRODUCER) boot); [by left|done|lia|lia|vm_compute; reflexivity].
Defined.

Lemma open_attaches_same_queue_witness :
  match @nabd_open simple (Some "/q") 0 0 NABD_CONSUMER (with_queue sample_two) with
  | Some (Some _, _) => True
  | _ => False
  end /\
  @wp sys (option (Z * nabd)) (@nabd_open simple (Some "/q") 0 0 NABD_CONSUMER) (with_queue sample_two)
    (fun r s' => match r with
                 | None => refusal (with_queue sample_two) s'
                 | Some (_, h) => opened (sample_fifo [msg_a; msg_b]) s' h /\
                                  s_obj s' = s_obj (with_queue sample_two)
                 end).
Proof.
  split; [vm_compute; exact I|].
  apply (@open_attaches_same_queue simple (SimplePosix_laws no_faults) "/q" 0 0 NABD_CONSUMER
           (with_queue sample_two) 5 sample_two sample_q); [by right|done..|exact sample_is_fifo_two].
Defined.

Lemma open_rejects_foreign_segment_witness :
  wp (@nabd_open simple (Some "/q") 0 0 NABD_CONSUMER) (with_queue (replicate 288 Byte.x00))
    (fun r _ => r = None).
Proof.
  apply (@open_rejects_foreign_segment simple (SimplePosix_laws no_faults) "/q" 0 0 NABD_CONSUMER
           (with_queue (replicate 288 Byte.x00)) 5 (replicate 288 Byte.x00));
    [by right|done..|vm_compute; congruence|vm_compute; congruence].
Defined.

Lemma open_close_no_leak_witness :
  wlp (@nabd_open simple (Some "/q") 3 1 (Z.lor NABD_CREATE NABD_PRODUCER)) boot (fun r s' =>
    match r with
    | None => same_resources boot s'
    | Some h => wp (@nabd_close simple (Some h)) s' (fun r2 s2 => r2 = NABD_OK /\ same_resources boot s2)
    end).
Proof. apply (@open_close_no_leak simple (SimplePosix_laws no_faults)). Defined.

Lemma unlink_keeps_mappings_witness :
  wp (@nabd_unlink simple (Some "/q")) (with_queue sample_two) (fun r s' =>
    ((r = NABD_OK /\ s_shm s' = delete "/q" (s_shm (with_queue sample_two))) \/
     (r = NABD_SYSERR /\ s_shm s' = s_shm (with_queue sample_two) /\
      (s_shm (with_queue sample_two) !! "/q" = None \/ refusal (with_queue sample_two) s'))) /\
    forall a, window s' a = window (with_queue sample_two) a).
Proof. apply (@unlink_keeps_mappings simple (SimplePosix_laws no_faults)). Defined.

Lemma opened_queue_has_no_groups_witness :
  wlp (@nabd_open simple (Some "/q") 3 1 (Z.lor NABD_CREATE NABD_PRODUCER)) boot (fun r _ =>
    match r with
    | None => True
    | Some (_, h) => forall spurious alloc gid m,
        nabd_consumer_create spurious alloc (Some h) gid m = Some (None, Some EINVAL, m) /\
        (gid <> 0 -> nabd_consumer_join alloc (Some h) gid m = Some (None, Some EINVAL, m)) /\
        nabd_min_tail (Some h) m = ld 8 OFF_TAIL m
    end).
Proof. apply (@opened_queue_has_no_groups simple (SimplePosix_laws no_faults)). Defined.

(** 2^60 slots of 16 bytes: the segment that is created is 256 bytes long. *)
Lemma open_size_overflow_witness :
  total_size (2 ^ 60) (2 ^ 4) = 256 /\
  match @nabd_open simple (Some "/q") (2 ^ 60) 16 (Z.lor NABD_CREATE NABD_PRODUCER) boot with
  | Some (Some (_, h), s) => q_size h = 256
  | _ => False
  end.
Proof.
  split; [|vm_compute; reflexivity].
  apply (open_size_overflow 60 4 1 3 3 4096 (replicate 256 Byte.x00) []);
    (lia || reflexivity || (vm_compute; congruence)).
Defined.
