(* ===== verification/OpenRace.v ===== *)
(** * Attaching while the queue is being created (src/nabd.c)

    [nabd_open] writes the magic number first (line 179) and the version, the capacity
    and the slot size after it, with plain stores; an attaching process takes the
    magic number as the sign that the segment is ready (line 201).  This file runs an
    attach between any two of the creator's stores. *)

From S2P Require Import Prelude Words Pow2 Memory Layout Fifo Queue Ring Posix Lifecycle Sample LifecycleCorrect.
Local Open Scope string_scope.
Local Open Scope Z_scope.

(** ** Definitions *)

(** The stores of lines 178-185, in program order. *)
Definition init_stores (capacity slot_size : Z) : list (C unit) :=
  [store 0 (replicate (Z.to_nat SIZEOF_CONTROL) Byte.x00);
   st 8 OFF_MAGIC NABD_MAGIC;
   st 8 OFF_VERSION nabd_version_word;
   st 8 OFF_CAPACITY capacity;
   st 8 OFF_SLOT_SIZE slot_size;
   st 8 OFF_BUFFER_OFFSET SIZEOF_CONTROL;
   st 8 OFF_HEAD 0;
   st 8 OFF_TAIL 0].

(** The first [j] of them. *)
Definition creation (j : nat) (capacity slot_size : Z) : C unit :=
  foldr (fun c k => c;; k) (mret tt) (take j (init_stores capacity slot_size)).

(** The object [ftruncate] gives a new segment. *)
Definition fresh_object (n : nat) : mem := replicate n Byte.x00.

(** What an attach reads after [j] stores. *)
Definition seen_capacity (j : nat) (capacity : Z) : Z := if (4 <=? j)%nat then capacity else 0.
Definition seen_slot_size (j : nat) (slot_size : Z) : Z := if (5 <=? j)%nat then slot_size else 0.

(** ** The memory during creation *)

(** All the stores are [init_control]. *)
Lemma creation_all capacity slot_size m :
  creation 8 capacity slot_size m = init_control capacity slot_size m.
Proof.
  unfold creation, init_control, init_stores. cbn [take foldr].
  unfold mbind, ST_bind. by repeat case_match; destruct_all unit.
Qed.

Lemma rd_fresh w n off :
  0 <= off -> off + Z.of_nat w <= Z.of_nat n -> rd w (fresh_object n) off = 0.
Proof.
  intros H1 H2. unfold rd, fresh_object, slice. rewrite drop_replicate, take_replicate.
  generalize (Z.to_nat (Z.of_nat w) `min` (n - Z.to_nat off))%nat. intros k.
  induction k as [|k IH]; [done|].
  change (Z.lor 0 (Z.shiftl (le_combine (replicate k Byte.x00)) 8) = 0). by rewrite IH.
Qed.

Lemma memset_fresh n :
  SIZEOF_CONTROL <= Z.of_nat n ->
  store 0 (replicate (Z.to_nat SIZEOF_CONTROL) Byte.x00) (fresh_object n)
  = Some (tt, fresh_object n).
Proof.
  intros Hn. assert (zlen (fresh_object n) = Z.of_nat n) as Hl
    by (unfold zlen, fresh_object; by rewrite length_replicate).
  rewrite store_in by (unfold in_mem; rewrite Hl; done). do 2 f_equal.
  unfold splice, fresh_object. rewrite take_replicate, drop_replicate, length_replicate.
  rewrite <- !replicate_add. f_equal. unfold SIZEOF_CONTROL in *. lia.
Qed.

Record stage (j : nat) (capacity slot_size : Z) (n : nat) (b : mem) : Prop := {
  sg_len : zlen b = Z.of_nat n;
  sg_magic : rd 8 b OFF_MAGIC = if (2 <=? j)%nat then NABD_MAGIC else 0;
  sg_version : (5 <= j)%nat -> rd 8 b OFF_VERSION = nabd_version_word;
  sg_capacity : rd 8 b OFF_CAPACITY = seen_capacity j capacity;
  sg_slot_size : rd 8 b OFF_SLOT_SIZE = seen_slot_size j slot_size;
  sg_head : rd 8 b OFF_HEAD = 0;
  sg_tail : rd 8 b OFF_TAIL = 0
}.

Ltac control_fields :=
  unfold OFF_MAGIC, OFF_VERSION, OFF_CAPACITY, OFF_SLOT_SIZE, OFF_BUFFER_OFFSET, OFF_HEAD, OFF_TAIL.

Ltac stage_reads :=
  repeat rewrite rd_wr by zl; first [rewrite rd_wr_same by zl | rewrite rd_fresh by lia];
  first [done | by apply Z.mod_small].

(** The segment after [j] stores. *)
Lemma creation_stage j capacity slot_size n :
  (j <= 8)%nat -> SIZEOF_CONTROL <= Z.of_nat n ->
  0 <= capacity < 2 ^ 64 -> 0 <= slot_size < 2 ^ 64 ->
  exists b, creation j capacity slot_size (fresh_object n) = Some (tt, b) /\
            stage j capacity slot_size n b.
Proof.
  intros Hj Hn Hc Hs. pose proof (memset_fresh n Hn) as Hz.
  assert (zlen (fresh_object n) = Z.of_nat n) as Hl
    by (unfold zlen, fresh_object; by rewrite length_replicate).
  unfold SIZEOF_CONTROL in Hn.
  unfold creation, init_stores. control_fields.
  do 9 (destruct j as [|j];
    [eexists; split;
      [cbn [take foldr]; try (erewrite bind_ret by exact Hz); repeat c_st; reflexivity
      |split; [zl|..]; control_fields; cbn [Nat.leb seen_capacity seen_slot_size];
        try (intros; lia); try intros _; stage_reads]|]).
  lia.
Qed.

(** Once the slot size is there, the segment is an empty ring. *)
Lemma stage_ring j k ss n b nm fd flags a :
  (5 <= j)%nat -> 0 <= k < 64 -> SIZEOF_HEADER <= ss -> SIZEOF_CONTROL + 2 ^ k * ss = Z.of_nat n ->
  Z.of_nat n < 2 ^ 63 -> stage j (2 ^ k) ss n b ->
  ring (new_handle nm fd flags (Z.of_nat n) a (2 ^ k) ss) k 0 0 [] b.
Proof.
  intros Hj Hk Hs Hn Hlt [Hl Hm Hv Hc Hz Hh Ht].
  unfold seen_capacity, seen_slot_size in *.
  rewrite leb_correct in Hm by lia. rewrite leb_correct in Hc, Hz by lia.
  split; try done; simpl; try lia.
  - apply new_handle_wf; lia.
  - split; try done. by apply Hv.
Qed.

(** ** Attaching during creation *)

Section Race.
Context {P : Posix} {L : PosixLaws P}.

(** A handle whose cached slot size is zero, over the control block alone. *)
Lemma blank_handle_get_slot nm fd flags a cap i :
  get_slot (new_handle nm fd flags SIZEOF_CONTROL a cap 0) i = SIZEOF_CONTROL.
Proof. unfold get_slot, new_handle, mul64. simpl. by rewrite Z.mul_0_r. Qed.

(** Through such a handle no message is ever received... *)
Lemma blank_handle_pop nm fd flags a cap dst n w :
  zlen w = SIZEOF_CONTROL -> rd 8 w OFF_TAIL <> rd 8 w OFF_HEAD ->
  nabd_pop (Some (new_handle nm fd flags SIZEOF_CONTROL a cap 0)) (Some dst) (Some n) w = None.
Proof.
  intros Hw Hne. unfold nabd_pop. unfold SIZEOF_CONTROL, OFF_HEAD, OFF_TAIL in *.
  do 2 c_ld. zb_false (rd 8 w 128 =? rd 8 w 64). cbv zeta.
  fold SIZEOF_CONTROL. rewrite blank_handle_get_slot. apply bind_undef, ld_out.
  unfold SIZEOF_CONTROL, HDR_LENGTH. lia.
Qed.

(** ... and none is sent: without capacity the queue is full for ever, with capacity the
    payload is copied past the mapping. *)
Lemma blank_handle_push nm fd flags a cap d w :
  zlen w = SIZEOF_CONTROL -> zlen d <= 2 ^ 64 - SIZEOF_HEADER ->
  nabd_push (Some (new_handle nm fd flags SIZEOF_CONTROL a cap 0)) (Some d) (zlen d) w
  = if cap <=? sub64 (rd 8 w OFF_HEAD) (rd 8 w OFF_TAIL) then Some (NABD_FULL : Z, w) else None.
Proof.
  intros Hw Hd. unfold nabd_push. cbn [new_handle q_slot_size q_capacity].
  change (sub64 0 SIZEOF_HEADER) with (2 ^ 64 - 8).
  unfold SIZEOF_CONTROL, SIZEOF_HEADER, OFF_HEAD, OFF_TAIL in *.
  zb_false (2 ^ 64 - 8 <? zlen d). do 2 c_ld. case_zb; [done|]. cbv zeta.
  apply bind_undef. fold SIZEOF_CONTROL. rewrite blank_handle_get_slot, memcpy_in_all.
  unfold store, SIZEOF_CONTROL. pose proof (zlen_nonneg d).
  zb_false (256 + 8 + zlen d <=? zlen w). by rewrite andb_false_r.
Qed.

Lemma total_size_blank cap : total_size cap 0 = SIZEOF_CONTROL.
Proof. unfold total_size, mul64. by rewrite Z.mul_0_r. Qed.

(** C26: attaching during creation.  While a creator that has truncated a new segment is
    between its stores, a process that opens the name is refused before the magic
    number is there; but as soon as it is, [nabd_open] accepts the segment, unless the
    system refuses it a resource, with whatever capacity and slot size it finds.  Before
    the slot size is stored (line 182) it returns a handle without slots over the control block alone, and nothing ever
    repairs the handle: a push reports a full queue when the capacity was missing too,
    and writes outside the mapping otherwise; a pop of any message reads outside it.
    After the store of the slot size the handle is right. *)
Theorem open_during_creation name cap0 ss0 flags s o n j k ss b :
  flags_ok flags -> has_flag flags NABD_CREATE = false ->
  0 <= k < 64 -> SIZEOF_HEADER <= ss -> SIZEOF_CONTROL + 2 ^ k * ss = Z.of_nat n ->
  Z.of_nat n < 2 ^ 63 -> (j <= 8)%nat ->
  creation j (2 ^ k) ss (fresh_object n) = Some (tt, b) ->
  s_shm s !! name = Some o -> s_obj s !! o = Some b ->
  wp (nabd_open (Some name) cap0 ss0 flags) s (fun r s' =>
    match r with
    | None => refusal s s' \/ (j < 2)%nat
    | Some (_, h) =>
        s_obj s' = s_obj s /\ (2 <= j)%nat /\
        ((5 <= j)%nat -> opened (Fifo (2 ^ k) (ss - SIZEOF_HEADER) []) s' h) /\
        ((j < 5)%nat -> q_size h = SIZEOF_CONTROL /\ q_slot_size h = 0 /\
           q_capacity h = (if (j <? 4)%nat then 0 else 2 ^ k) /\
           forall w, zlen w = SIZEOF_CONTROL ->
             (forall d, zlen d <= 2 ^ 64 - SIZEOF_HEADER ->
                nabd_push (Some h) (Some d) (zlen d) w
                = if (j <? 4)%nat || (2 ^ k <=? sub64 (rd 8 w OFF_HEAD) (rd 8 w OFF_TAIL))
                  then Some (NABD_FULL : Z, w) else None) /\
             (rd 8 w OFF_TAIL <> rd 8 w OFF_HEAD ->
              forall dst cap, nabd_pop (Some h) (Some dst) (Some cap) w = None))
    end).
Proof.
  intros Hfl Hc Hk Hss Hn Hb63 Hj Hcr Ho Hb.
  assert (0 < 2 ^ k < 2 ^ 64) by (split; [apply Z.pow_pos_nonneg|apply Z.pow_lt_mono_r]; lia).
  assert (SIZEOF_CONTROL <= Z.of_nat n) as Hn' by (unfold SIZEOF_CONTROL, SIZEOF_HEADER in *; nia).
  assert (ss < 2 ^ 64) by (unfold SIZEOF_CONTROL, SIZEOF_HEADER in *; nia).
  destruct (creation_stage j (2 ^ k) ss n) as (b' & Hb' & Sg); [done|done|lia|unfold SIZEOF_HEADER in *; lia|].
  rewrite Hcr in Hb'. injection Hb' as <-.
  apply wp_open; [done|by left|congruence|].
  intros q nm fd s1 Hfd Hm Href (o1 & Ho1 & _ & [[Hnm Hobj]|(Hnm & _)]); [|congruence].
  rewrite Hc. rewrite Ho in Hnm. injection Hnm as <-. rewrite <- Hobj in *.
  assert (SIZEOF_CONTROL <= zlen b) as Hlb by (rewrite (sg_len _ _ _ _ _ Sg); done).
  eapply wp_mono; [eapply open_attach_reads; eauto|].
  unfold refusal, no_refusal in *.
  intros [[p h]|] s' Hr.
  2: { rewrite (sg_magic _ _ _ _ _ Sg), (sg_capacity _ _ _ _ _ Sg), (sg_slot_size _ _ _ _ _ Sg) in Hr.
    destruct Hr as [Hr|[Hr|Hr]]; [left; lia|right|exfalso].
    - destruct (Nat.leb_spec 2 j); [congruence|done].
    - revert Hr. unfold seen_capacity, seen_slot_size. destruct (Nat.leb_spec 5 j).
      + destruct (Nat.leb_spec 4 j); [|lia]. rewrite total_size_small, Hn by lia. unfold SIZEOF_CONTROL in *. lia.
      + by rewrite total_size_blank. }
  destruct Hr as (Hmagic & Hobj' & a & -> & Hw & _).
  rewrite (sg_magic _ _ _ _ _ Sg) in Hmagic. rewrite (sg_capacity _ _ _ _ _ Sg),
    (sg_slot_size _ _ _ _ _ Sg) in *. split; [done|].
  assert (2 <= j)%nat as Hj2 by (destruct (Nat.leb_spec 2 j); [done|by vm_compute in Hmagic]).
  split; [done|]. unfold seen_capacity, seen_slot_size in *. split.
  - intros Hj5. destruct (Nat.leb_spec 4 j); [|lia]. destruct (Nat.leb_spec 5 j); [|lia].
    exists a, (take (Z.to_nat (total_size (2 ^ k) ss)) b). split; [done|]. split; [done|].
    rewrite total_size_small, Hn in Hw |- * by lia.
    rewrite (take_ge b) by (pose proof (sg_len _ _ _ _ _ Sg); unfold zlen in *; lia).
    split; [|done]. exists k, 0, 0. split; [by apply (stage_ring j)|done].
  - intros Hj5. destruct (Nat.leb_spec 5 j); [lia|]. rewrite total_size_blank in *.
    split_and!; try done.
    { cbn [new_handle q_capacity]. destruct (Nat.leb_spec 4 j), (Nat.ltb_spec j 4); done || lia. }
    intros w Hlw. split; [|intros ? dst cap; by apply blank_handle_pop].
    intros d Hd. rewrite blank_handle_push by done.
    destruct (Nat.leb_spec 4 j), (Nat.ltb_spec j 4); try lia; [done|].
    unfold sub64. pose proof (u64_range (rd 8 w OFF_HEAD - rd 8 w OFF_TAIL)). simpl.
    by zb_true (0 <=? u64 (rd 8 w OFF_HEAD - rd 8 w OFF_TAIL)).
Qed.
End Race.

(** ** Witness *)

(** A segment for two slots of 16 bytes of which only the magic number is written. *)
Definition half_created : mem := Sample.after (creation 2 2 16) (fresh_object 288).

Lemma open_during_creation_witness :
  creation 2 (2 ^ 1) 16 (fresh_object 288) = Some (tt, half_created) /\
  match @nabd_open simple (Some "/q") 0 0 NABD_CONSUMER (with_queue half_created) with
  | Some (Some (_, h), _) => q_capacity h = 0 /\ q_slot_size h = 0
  | _ => False
  end /\
  @wp sys (option (Z * nabd)) (@nabd_open simple (Some "/q") 0 0 NABD_CONSUMER) (with_queue half_created)
    (fun r _ => match r with
                | None => False
                | Some (_, h) => nabd_push (Some h) (Some msg_a) 1 (take 256 half_created)
                                 = Some (NABD_FULL : Z, take 256 half_created)
                end).
Proof.
  split; [vm_compute; reflexivity|]. split; [vm_compute; done|].
  eapply wp_mono; [eapply wp_wlp|].
  - apply (@open_during_creation simple (SimplePosix_laws no_faults) "/q" 0 0 NABD_CONSUMER
             (with_queue half_created) 5 288 2 1 16 half_created);
      [by right|done|lia|done|done|done|lia|vm_compute; reflexivity|done|done].
  - instantiate (1 := fun _ s' => s_refused s' = 0%nat). intros r s'. vm_compute. by intros [= _ <-].
  - intros [[p h]|] s' [H H0]; [|destruct H as [H|H]; [unfold refusal in H; rewrite H0 in H; simpl in H|]; lia].
    destruct H as (_ & _ & _ & H).
    destruct (H ltac:(lia)) as (_ & _ & _ & Hw).
    exact (proj1 (Hw (take 256 half_created) ltac:(vm_compute; reflexivity)) msg_a
             ltac:(vm_compute; congruence)).
Defined.
