(* ===== verification/Spsc.v ===== *)
(** * Single producer, single consumer, running concurrently

    The data path of the queue as two threads over the shared memory, one step per
    memory access, in the release/acquire fragment of the C11 memory model: the
    producer calls [nabd_push], or [nabd_reserve], writes through the pointer, and
    [nabd_commit]; the consumer calls [nabd_pop], or [nabd_peek], reads through the
    pointer, and [nabd_release].

    - The atomic words [head] and [tail] have a history of messages, each with the
      view its writer released with it.  A load may return any message not older
      than what the thread has already seen of that word; an acquire load joins the
      view of the message, a relaxed load does not; a release store attaches the
      view of the thread.  So a thread may act on stale positions.
    - The slots are not atomic.  Each thread counts its slot accesses; each slot
      remembers the count at its last write and at its last read.  An access races
      when the last conflicting access of the other thread is not in the view of
      the thread: [p_race], [c_race].  A read of a slot returns the latest write,
      which the memory model guarantees because no access races.

    The threads follow the documented protocol: no push while a slot is reserved,
    writes and reads through a slot pointer stay in the reserved payload or the
    message, and a release follows a peek.  The invariant and its preservation are in
    SpscInv.v, the theorems in SpscCorrect.v. *)

From S2P Require Import Prelude Words Pow2 Memory Layout Fifo Queue.
Local Open Scope Z_scope.

(** ** Views *)

Record view := View {
  v_head : nat;     (* newest message of [head] seen *)
  v_tail : nat;     (* newest message of [tail] seen *)
  v_gt : nat;       (* newest message of the tail of a group seen (GroupWeak.v) *)
  v_p : nat;        (* slot accesses of the producer that happened before *)
  v_c : nat;        (* slot accesses of the consumer that happened before *)
  v_g : nat         (* slot accesses of a member of a group that happened before *)
}.

Definition join (a b : view) : view :=
  View (v_head a `max` v_head b) (v_tail a `max` v_tail b) (v_gt a `max` v_gt b)
       (v_p a `max` v_p b) (v_c a `max` v_c b) (v_g a `max` v_g b).

Definition see_head (ts : nat) (v : view) : view := View ts (v_tail v) (v_gt v) (v_p v) (v_c v) (v_g v).
Definition see_tail (ts : nat) (v : view) : view := View (v_head v) ts (v_gt v) (v_p v) (v_c v) (v_g v).
Definition tick_p (v : view) : view :=
  View (v_head v) (v_tail v) (v_gt v) (S (v_p v)) (v_c v) (v_g v).
Definition tick_c (v : view) : view :=
  View (v_head v) (v_tail v) (v_gt v) (v_p v) (S (v_c v)) (v_g v).
Definition view0 : view := View 0 0 0 0 0 0.

(** ** Shared state *)

Record shared := Shared {
  sh_mem : mem;                   (* the mapping, with the latest writes *)
  sh_head : list (Z * view);      (* history of [head], oldest first *)
  sh_tail : list (Z * view);      (* history of [tail] *)
  sh_wclk : Z -> nat;             (* per slot: the producer's count at the last write *)
  sh_rclk : Z -> nat              (* per slot: the consumer's count at the last read *)
}.

Definition upd (f : Z -> nat) (c : Z) (n : nat) : Z -> nat :=
  fun c' => if c' =? c then n else f c'.

(** ** Atomic accesses (include/nabd/internal.h) *)

(** The two atomic words. *)
Inductive word := Head | Tail.

Definition word_off (l : word) : Z := match l with Head => OFF_HEAD | Tail => OFF_TAIL end.
Definition hist (l : word) (sh : shared) : list (Z * view) :=
  match l with Head => sh_head sh | Tail => sh_tail sh end.
Definition seen (l : word) (v : view) : nat := match l with Head => v_head v | Tail => v_tail v end.
Definition see (l : word) (ts : nat) (v : view) : view :=
  match l with Head => see_head ts v | Tail => see_tail ts v end.

(** [ts] is the message the load reads from. *)
Definition NABD_LOAD_RELAXED (l : word) (ts : nat) (sh : shared) (v : view) : option (Z * view) :=
  if (ts <? seen l v)%nat then None else
  '(x, _) ← hist l sh !! ts;
  Some (x, see l ts v).

Definition NABD_LOAD_ACQUIRE (l : word) (ts : nat) (sh : shared) (v : view) : option (Z * view) :=
  if (ts <? seen l v)%nat then None else
  '(x, w) ← hist l sh !! ts;
  Some (x, see l ts (join v w)).

Definition NABD_STORE_RELEASE (l : word) (x : Z) (sh : shared) (v : view)
    : option (shared * view) :=
  '(_, m) ← st 8 (word_off l) x (sh_mem sh);
  let v' := see l (length (hist l sh)) v in
  let h := hist l sh ++ [(x, v')] in
  Some (match l with
        | Head => Shared m h (sh_tail sh) (sh_wclk sh) (sh_rclk sh)
        | Tail => Shared m (sh_head sh) h (sh_wclk sh) (sh_rclk sh)
        end, v').

(** A write to slot [c] by the producer, a read by the consumer. *)
Definition slot_write (c : Z) (m : mem) (sh : shared) (v : view) : shared * view :=
  let v' := tick_p v in
  (Shared m (sh_head sh) (sh_tail sh) (upd (sh_wclk sh) c (v_p v')) (sh_rclk sh), v').

Definition slot_read (c : Z) (sh : shared) (v : view) : shared * view :=
  let v' := tick_c v in
  (Shared (sh_mem sh) (sh_head sh) (sh_tail sh) (sh_wclk sh) (upd (sh_rclk sh) c (v_c v')), v').

(** ** The threads *)

(** What a pop sees of a pushed message: the header keeps 16 bits of the length. *)
Definition kept (d : msg) : msg := take (Z.to_nat (u16 (zlen d))) d.

(** What the producer's program does between calls. *)
Inductive p_act :=
  | CallPush (d : msg)                  (* nabd_push(q, d, |d|) *)
  | CallReserve (len : Z)               (* nabd_reserve(q, len, &slot) *)
  | WriteSlot (off : Z) (bs : msg)      (* memcpy(slot + off, bs, |bs|) *)
  | CallCommit (len : Z).               (* nabd_commit(q, len) *)

(** The calls that look for room. *)
Inductive p_req := RPush (d : msg) | RReserve (len : Z).

Inductive ppc :=
  | PIdle                               (* between calls, no slot reserved *)
  | PReserved (head : Z)                (* between calls, [head] reserved *)
  | PLoadHead (r : p_req)
  | PLoadTail (r : p_req) (head : Z)
  | PPayload (d : msg) (head : Z)       (* room was found; memcpy comes next *)
  | PHeader (d : msg) (head : Z)
  | PPublish (d : msg) (head : Z).

(** What the consumer's program does between calls. *)
Inductive c_act :=
  | CallPop (cap : Z)                   (* nabd_pop(q, buf, &len), cap bytes of buf *)
  | CallPeek                            (* nabd_peek(q, &data, &len) *)
  | ReadSlot (off n : Z)                (* read n bytes at data + off *)
  | CallRelease.                        (* nabd_release(q) *)

(** The calls that look for a message. *)
Inductive c_req := RPop (cap : Z) | RPeek.

Inductive cpc :=
  | CIdle                               (* between calls, no message peeked *)
  | CPeeked (tail len : Z)              (* between calls, with a pointer from peek *)
  | CLoadTail (r : c_req)
  | CLoadHead (r : c_req) (tail : Z)
  | CLength (r : c_req) (tail : Z)
  | CCopy (tail len : Z)
  | CRelease (d : msg)                  (* nabd_release loads tail *)
  | CPublish (tail : Z) (d : msg).

(** What a step shows: nothing, the return of a call with its code and the message it
    moved, or bytes read through a pointer. *)
Inductive evt :=
  | Tau
  | Ret (r : nabd_error_t) (d : option msg)
  | Look (off : Z) (bs : msg).

Section Machine.
Context (q : nabd).

(** The physical slot of a position, as the code computes it. *)
Definition cell (pos : Z) : Z := nabd_mod_pow2 pos (q_mask q).

(** ** The producer thread *)

(** The next step; [a] is the program's next action, [ts] the message an atomic load
    reads from.  The message of a commit is what the payload holds when it is called. *)
Definition p_next (a : p_act) (ts : nat) (sh : shared) (pc : ppc) (v : view)
    : option (evt * shared * ppc * view) :=
  let max_payload := sub64 (q_slot_size q) SIZEOF_HEADER in
  match pc with
  | PIdle =>
      match a with
      | CallPush d =>
          if max_payload <? zlen d then Some (Ret NABD_TOOBIG None, sh, PIdle, v)
          else Some (Tau, sh, PLoadHead (RPush d), v)
      | CallReserve len =>
          if max_payload <? len then Some (Ret NABD_TOOBIG None, sh, PIdle, v)
          else Some (Tau, sh, PLoadHead (RReserve len), v)
      | CallCommit _ => Some (Ret NABD_INVALID None, sh, PIdle, v)
      | WriteSlot _ _ => None
      end
  | PReserved head =>
      match a with
      | CallReserve _ => Some (Ret NABD_INVALID None, sh, PReserved head, v)
      | WriteSlot off bs =>
          if (off <? 0) || (max_payload <? off + zlen bs) then None else
          '(_, m) ← store (get_slot_payload q head + off) bs (sh_mem sh);
          let (sh', v') := slot_write (cell head) m sh v in
          Some (Tau, sh', PReserved head, v')
      | CallCommit len =>
          if (len <? 0) || (max_payload <? len) then None else
          Some (Tau, sh, PHeader (slice (sh_mem sh) (get_slot_payload q head) len) head, v)
      | CallPush _ => None
      end
  | PLoadHead r =>
      '(head, v') ← NABD_LOAD_RELAXED Head ts sh v;
      Some (Tau, sh, PLoadTail r head, v')
  | PLoadTail r head =>
      '(tail, v') ← NABD_LOAD_ACQUIRE Tail ts sh v;
      if q_capacity q <=? sub64 head tail then Some (Ret NABD_FULL None, sh, PIdle, v')
      else Some (match r with
                 | RPush d => (Tau, sh, PPayload d head, v')
                 | RReserve _ => (Ret NABD_OK None, sh, PReserved head, v')
                 end)
  | PPayload d head =>
      '(_, m) ← memcpy_in (get_slot q head + SIZEOF_HEADER) d (zlen d) (sh_mem sh);
      let (sh', v') := slot_write (cell head) m sh v in
      Some (Tau, sh', PHeader d head, v')
  | PHeader d head =>
      '(_, m) ← fill_header (get_slot q head) (zlen d) head (sh_mem sh);
      let (sh', v') := slot_write (cell head) m sh v in
      Some (Tau, sh', PPublish d head, v')
  | PPublish d head =>
      '(sh', v') ← NABD_STORE_RELEASE Head (add64 head 1) sh v;
      Some (Ret NABD_OK (Some d), sh', PIdle, v')
  end.

(** The producer may write a slot the consumer's last read of which does not happen
    before. *)
Definition p_race (sh : shared) (pc : ppc) (v : view) : bool :=
  match pc with
  | PReserved head | PPayload _ head | PHeader _ head => (v_c v <? sh_rclk sh (cell head))%nat
  | _ => false
  end.

(** ** The consumer thread *)

Definition c_next (a : c_act) (ts : nat) (sh : shared) (pc : cpc) (v : view)
    : option (evt * shared * cpc * view) :=
  match pc with
  | CIdle =>
      match a with
      | CallPop cap => Some (Tau, sh, CLoadTail (RPop cap), v)
      | CallPeek => Some (Tau, sh, CLoadTail RPeek, v)
      | ReadSlot _ _ | CallRelease => None
      end
  | CPeeked tail len =>
      match a with
      | CallPop cap => Some (Tau, sh, CLoadTail (RPop cap), v)
      | CallPeek => Some (Tau, sh, CLoadTail RPeek, v)
      | ReadSlot off n =>
          if (off <? 0) || (n <? 0) || (len <? off + n) then None else
          '(bs, _) ← load (get_slot_payload q tail + off) n (sh_mem sh);
          let (sh', v') := slot_read (cell tail) sh v in
          Some (Look off bs, sh', CPeeked tail len, v')
      | CallRelease =>
          Some (Tau, sh, CRelease (slice (sh_mem sh) (get_slot_payload q tail) len), v)
      end
  | CLoadTail r =>
      '(tail, v') ← NABD_LOAD_RELAXED Tail ts sh v;
      Some (Tau, sh, CLoadHead r tail, v')
  | CLoadHead r tail =>
      '(head, v') ← NABD_LOAD_ACQUIRE Head ts sh v;
      if tail =? head then Some (Ret NABD_EMPTY None, sh, CIdle, v')
      else Some (Tau, sh, CLength r tail, v')
  | CLength r tail =>
      '(len, _) ← ld 2 (get_slot q tail + HDR_LENGTH) (sh_mem sh);
      let (sh', v') := slot_read (cell tail) sh v in
      Some (match r with
            | RPop cap => if cap <? len then (Ret NABD_TOOBIG None, sh', CIdle, v')
                          else (Tau, sh', CCopy tail len, v')
            | RPeek => (Ret NABD_OK None, sh', CPeeked tail len, v')
            end)
  | CCopy tail len =>
      '(d, _) ← load (get_slot q tail + SIZEOF_HEADER) len (sh_mem sh);
      let (sh', v') := slot_read (cell tail) sh v in
      Some (Tau, sh', CPublish tail d, v')
  | CRelease d =>
      '(tail, v') ← NABD_LOAD_RELAXED Tail ts sh v;
      Some (Tau, sh, CPublish tail d, v')
  | CPublish tail d =>
      '(sh', v') ← NABD_STORE_RELEASE Tail (add64 tail 1) sh v;
      Some (Ret NABD_OK (Some d), sh', CIdle, v')
  end.

(** The consumer may read a slot the producer's last write of which does not happen
    before. *)
Definition c_race (sh : shared) (pc : cpc) (v : view) : bool :=
  match pc with
  | CPeeked tail _ | CLength _ tail | CCopy tail _ => (v_p v <? sh_wclk sh (cell tail))%nat
  | _ => false
  end.

(** ** The whole system, with the messages moved so far *)

Record state := State {
  st_sh : shared;
  st_pp : ppc; st_pv : view;
  st_cp : cpc; st_cv : view;
  st_pushed : list msg;
  st_popped : list msg
}.

(** The message a completed call moved. *)
Definition moved (e : evt) : list msg :=
  match e with Ret NABD_OK (Some d) => [d] | _ => [] end.

Inductive step (s : state) : state -> Prop :=
  | step_p a ts e sh pc v :
      p_next a ts (st_sh s) (st_pp s) (st_pv s) = Some (e, sh, pc, v) ->
      step s (State sh pc v (st_cp s) (st_cv s) (st_pushed s ++ moved e) (st_popped s))
  | step_c a ts e sh pc v :
      c_next a ts (st_sh s) (st_cp s) (st_cv s) = Some (e, sh, pc, v) ->
      step s (State sh (st_pp s) (st_pv s) pc v (st_pushed s) (st_popped s ++ moved e)).

(** An empty queue in memory [m]. *)
Definition initial (m : mem) : state :=
  State (Shared m [(0, view0)] [(0, view0)] (fun _ => 0%nat) (fun _ => 0%nat))
        PIdle view0 CIdle view0 [] [].

Inductive reachable (m : mem) : state -> Prop :=
  | reach_init : reachable m (initial m)
  | reach_step s s' : reachable m s -> step s s' -> reachable m s'.

(** Between two calls. *)
Definition p_rest (pc : ppc) : bool := match pc with PIdle | PReserved _ => true | _ => false end.
Definition c_rest (pc : cpc) : bool := match pc with CIdle | CPeeked _ _ => true | _ => false end.

(** Steps a call still needs at most. *)
Definition p_rank (pc : ppc) : nat :=
  match pc with
  | PIdle | PReserved _ => 0 | PLoadHead _ => 5 | PLoadTail _ _ => 4
  | PPayload _ _ => 3 | PHeader _ _ => 2 | PPublish _ _ => 1
  end.

Definition c_rank (pc : cpc) : nat :=
  match pc with
  | CIdle | CPeeked _ _ => 0 | CLoadTail _ => 5 | CLoadHead _ _ => 4
  | CLength _ _ => 3 | CCopy _ _ => 2 | CRelease _ => 2 | CPublish _ _ => 1
  end.

(** A thread running alone: every load reads the newest message. *)
Definition newest (l : word) (sh : shared) : nat := length (hist l sh) - 1.

Definition p_newest (sh : shared) (pc : ppc) : nat :=
  match pc with PLoadHead _ => newest Head sh | PLoadTail _ _ => newest Tail sh | _ => 0 end.

Definition c_newest (sh : shared) (pc : cpc) : nat :=
  match pc with
  | CLoadTail _ | CRelease _ => newest Tail sh
  | CLoadHead _ _ => newest Head sh
  | _ => 0
  end.

(** A whole call, in at most [fuel] steps; a call takes six. *)
Fixpoint p_run (fuel : nat) (a : p_act) (sh : shared) (pc : ppc) (v : view)
    : option (nabd_error_t * option msg * shared * ppc) :=
  match fuel with
  | O => None
  | S fuel =>
      match p_next a (p_newest sh pc) sh pc v with
      | Some (Ret r x, sh', pc', _) => Some (r, x, sh', pc')
      | Some (_, sh', pc', v') => p_run fuel a sh' pc' v'
      | None => None
      end
  end.

Fixpoint c_run (fuel : nat) (a : c_act) (sh : shared) (pc : cpc) (v : view)
    : option (nabd_error_t * option msg * shared * cpc) :=
  match fuel with
  | O => None
  | S fuel =>
      match c_next a (c_newest sh pc) sh pc v with
      | Some (Ret r x, sh', pc', _) => Some (r, x, sh', pc')
      | Some (_, sh', pc', v') => c_run fuel a sh' pc' v'
      | None => None
      end
  end.

End Machine.
