(* ===== verification/SpscInv.v ===== *)
(** * The concurrent queue: invariant

    The invariant of every reachable state of Spsc.v and its preservation by each step
    of the two threads.  Positions are counted without bound, so the results cover the
    wrap of the 64-bit words. *)

From S2P Require Import Prelude Words Pow2 Memory Layout Fifo Queue Ring Spsc.
Local Open Scope Z_scope.

(** ** Histories and views *)

(** The count of message [i] of a history. *)
Definition clk (sel : view -> nat) (h : list (Z * view)) (i : nat) : nat :=
  match h !! i with Some (_, w) => sel w | None => 0%nat end.

(** A view that knows nothing from the future, and that knows the slot accesses
    released with the messages it has seen. *)
Record vok (hh ht : list (Z * view)) (cp cc : nat) (w : view) : Prop := {
  vk_head : (v_head w < length hh)%nat;
  vk_tail : (v_tail w < length ht)%nat;
  vk_p : (v_p w <= cp)%nat;
  vk_c : (v_c w <= cc)%nat;
  vk_hp : (clk v_p hh (v_head w) <= v_p w)%nat;
  vk_tc : (clk v_c ht (v_tail w) <= v_c w)%nat
}.

(** A history: message [i] carries the residue of [i], its own timestamp, and a sane
    view; the counts grow. *)
Record hist_ok (own sel : view -> nat) (hh ht : list (Z * view)) (cp cc : nat)
    (h : list (Z * view)) : Prop := {
  hk_val i x w : h !! i = Some (x, w) -> x = u64 (Z.of_nat i) /\ own w = i /\ vok hh ht cp cc w;
  hk_mono i j : (i <= j < length h)%nat -> (clk sel h i <= clk sel h j)%nat
}.

Lemma clk_app sel h h' i : (i < length h)%nat -> clk sel (h ++ h') i = clk sel h i.
Proof. intros. unfold clk. by rewrite lookup_app_l by lia. Qed.

Lemma clk_new sel h x w : clk sel (h ++ [(x, w)]) (length h) = sel w.
Proof. unfold clk. by rewrite lookup_app_r, Nat.sub_diag by lia. Qed.

Lemma vok_mono hh ht hh' ht' cp cc cp' cc' w :
  vok hh ht cp cc w -> (cp <= cp')%nat -> (cc <= cc')%nat ->
  vok (hh ++ hh') (ht ++ ht') cp' cc' w.
Proof.
  intros [? ? ? ? ? ?] ? ?. split; rewrite ?length_app, ?clk_app; lia.
Qed.

Lemma vok_clock hh ht cp cc cp' cc' w :
  vok hh ht cp cc w -> (cp <= cp')%nat -> (cc <= cc')%nat -> vok hh ht cp' cc' w.
Proof. intros [? ? ? ? ? ?] ? ?. split; lia. Qed.

Lemma vok_join hh ht cp cc a b :
  vok hh ht cp cc a -> vok hh ht cp cc b -> vok hh ht cp cc (join a b).
Proof.
  intros [? ? ? ? ? ?] [? ? ? ? ? ?]. split; simpl; try lia.
  - destruct (Nat.max_spec (v_head a) (v_head b)) as [[_ ->]|[_ ->]]; lia.
  - destruct (Nat.max_spec (v_tail a) (v_tail b)) as [[_ ->]|[_ ->]]; lia.
Qed.

Lemma see_head_same ts v : v_head v = ts -> see_head ts v = v.
Proof. intros <-. by destruct v. Qed.

Lemma see_tail_same ts v : v_tail v = ts -> see_tail ts v = v.
Proof. intros <-. by destruct v. Qed.

Lemma hist_mono own sel hh ht hh' ht' cp cc cp' cc' h :
  hist_ok own sel hh ht cp cc h -> (cp <= cp')%nat -> (cc <= cc')%nat ->
  hist_ok own sel (hh ++ hh') (ht ++ ht') cp' cc' h.
Proof.
  intros [Hv Hm] ? ?. split; [|done]. intros i x w Hi.
  destruct (Hv i x w Hi) as (? & ? & ?). eauto using vok_mono.
Qed.

Lemma hist_clock own sel hh ht cp cc cp' cc' h :
  hist_ok own sel hh ht cp cc h -> (cp <= cp')%nat -> (cc <= cc')%nat ->
  hist_ok own sel hh ht cp' cc' h.
Proof.
  intros [Hv Hm] ? ?. split; [|done]. intros i x w Hi.
  destruct (Hv i x w Hi) as (? & ? & ?). eauto using vok_clock.
Qed.

(** One more message, whose count is the largest. *)
Lemma hist_snoc own sel hh ht cp cc h w :
  hist_ok own sel hh ht cp cc h -> own w = length h -> vok hh ht cp cc w ->
  (forall i, (i < length h)%nat -> (clk sel h i <= sel w)%nat) ->
  hist_ok own sel hh ht cp cc (h ++ [(u64 (Z.of_nat (length h)), w)]).
Proof.
  intros [Hv Hm] Ho Hk Hle. split.
  - intros i x w' Hi. apply lookup_app_Some in Hi as [Hi|[Hge Hi]]; [by apply Hv|].
    apply list_lookup_singleton_Some in Hi as [Hi [= <- <-]].
    assert (i = length h) as -> by lia. done.
  - intros i j [Hij Hj]. rewrite length_app in Hj. simpl in Hj.
    destruct (decide (j = length h)) as [->|].
    + rewrite clk_new. destruct (decide (i = length h)) as [->|]; [by rewrite clk_new|].
      rewrite clk_app by lia. apply Hle. lia.
    + rewrite !clk_app by lia. apply Hm. lia.
Qed.

(** ** The invariant *)

Section Invariant.
Context (q : nabd) (k : Z) (W : wf_handle q k).

Definition req_ok (r : p_req) : Prop :=
  match r with RPush d => zlen d <= q_slot_size q - SIZEOF_HEADER | RReserve _ => True end.

Definition ppc_ok (sh : shared) (pc : ppc) (v : view) (nH : nat) : Prop :=
  match pc with
  | PIdle => True
  | PLoadHead r => req_ok r
  | PLoadTail r h => req_ok r /\ h = u64 (Z.of_nat nH)
  | PReserved h => h = u64 (Z.of_nat nH) /\ Z.of_nat nH < Z.of_nat (v_tail v) + 2 ^ k
  | PPayload d h | PHeader d h | PPublish d h =>
      h = u64 (Z.of_nat nH) /\ Z.of_nat nH < Z.of_nat (v_tail v) + 2 ^ k /\
      zlen d <= q_slot_size q - SIZEOF_HEADER /\
      match pc with
      | PHeader _ _ =>
          slice (sh_mem sh) (slot_off q k (Z.of_nat nH) + SIZEOF_HEADER) (zlen d) = d
      | PPublish _ _ => holds q k (sh_mem sh) (Z.of_nat nH) (kept d)
      | _ => True
      end
  end.

Definition cpc_ok (pc : cpc) (v : view) (pushed : list msg) (nT : nat) : Prop :=
  match pc with
  | CIdle | CLoadTail _ => True
  | CLoadHead _ t => t = u64 (Z.of_nat nT)
  | CLength _ t => t = u64 (Z.of_nat nT) /\ (nT < v_head v)%nat
  | CPeeked t n | CCopy t n =>
      t = u64 (Z.of_nat nT) /\ (nT < v_head v)%nat /\ exists d, pushed !! nT = Some d /\ n = zlen d
  | CRelease d => (nT < v_head v)%nat /\ pushed !! nT = Some d
  | CPublish t d => t = u64 (Z.of_nat nT) /\ (nT < v_head v)%nat /\ pushed !! nT = Some d
  end.

Record inv (sh : shared) (pp : ppc) (vp : view) (cp : cpc) (vc : view)
    (pushed popped : list msg) (nH nT : nat) : Prop := {
  i_nH : nH = length pushed;
  i_ring : ring q k (Z.of_nat nH) (Z.of_nat nT) (drop nT pushed) (sh_mem sh);
  i_popped : popped = take nT pushed;
  i_hlen : length (sh_head sh) = S nH;
  i_tlen : length (sh_tail sh) = S nT;
  i_hh : hist_ok v_head v_p (sh_head sh) (sh_tail sh) (v_p vp) (v_c vc) (sh_head sh);
  i_ht : hist_ok v_tail v_c (sh_head sh) (sh_tail sh) (v_p vp) (v_c vc) (sh_tail sh);
  i_vp : vok (sh_head sh) (sh_tail sh) (v_p vp) (v_c vc) vp;
  i_vc : vok (sh_head sh) (sh_tail sh) (v_p vp) (v_c vc) vc;
  i_ph : v_head vp = nH;
  i_pt : Z.of_nat nH <= Z.of_nat (v_tail vp) + 2 ^ k;
  i_ct : v_tail vc = nT;
  i_ch : (nT <= v_head vc)%nat;
  i_w1 c : (sh_wclk sh c <= v_p vp)%nat;
  i_w2 i : (nT <= i < nH)%nat ->
           (sh_wclk sh (Z.of_nat i mod 2 ^ k) <= clk v_p (sh_head sh) (S i))%nat;
  i_r1 c : (sh_rclk sh c <= v_c vc)%nat;
  i_r2 i : Z.of_nat nH - 2 ^ k <= i < Z.of_nat nT ->
           (sh_rclk sh (i mod 2 ^ k) <= clk v_c (sh_tail sh) (Z.to_nat (i + 1)))%nat;
  i_pp : ppc_ok sh pp vp nH;
  i_cp : cpc_ok cp vc pushed nT
}.

Lemma cell_eq n : cell q (u64 n) = n mod 2 ^ k.
Proof.
  unfold cell. rewrite (wf_mask _ _ W). apply mod_pow2_spec. destruct (wf_k _ _ W). lia.
Qed.

Section Facts.
Context (sh : shared) (pp : ppc) (vp : view) (cp : cpc) (vc : view).
Context (pushed popped : list msg) (nH nT : nat).
Context (I : inv sh pp vp cp vc pushed popped nH nT).

Lemma inv_order : Z.of_nat nT <= Z.of_nat nH <= Z.of_nat nT + 2 ^ k.
Proof.
  pose proof (r_count _ _ _ _ _ _ (i_ring _ _ _ _ _ _ _ _ _ I)).
  pose proof (r_bound _ _ _ _ _ _ (i_ring _ _ _ _ _ _ _ _ _ I)).
  pose proof (zlen_nonneg (drop nT pushed)). lia.
Qed.

(** In the code's word arithmetic the distance to a position the thread has seen is
    exact. *)
Lemma inv_distance ts :
  (v_tail vp <= ts <= nT)%nat ->
  sub64 (u64 (Z.of_nat nH)) (u64 (Z.of_nat ts)) = Z.of_nat nH - Z.of_nat ts.
Proof.
  intros. pose proof inv_order. pose proof (i_pt _ _ _ _ _ _ _ _ _ I).
  pose proof (pow_k _ _ W). apply sub64_distance. lia.
Qed.

Lemma inv_empty ts :
  (v_head vc <= ts <= nH)%nat ->
  (u64 (Z.of_nat nT) =? u64 (Z.of_nat ts)) = (Z.of_nat nT =? Z.of_nat ts).
Proof.
  intros. pose proof inv_order. pose proof (i_ch _ _ _ _ _ _ _ _ _ I).
  pose proof (pow_k _ _ W). apply u64_eq_close. lia.
Qed.

(** The producer, with room seen, may write the slot of the head. *)
Lemma inv_p_no_race : p_race q sh pp vp = false.
Proof.
  pose proof (i_pp _ _ _ _ _ _ _ _ _ I) as Hpp.
  pose proof (i_vp _ _ _ _ _ _ _ _ _ I) as [_ Ht _ _ _ Htc].
  rewrite (i_tlen _ _ _ _ _ _ _ _ _ I) in Ht. pose proof inv_order. pose proof (pow_k _ _ W).
  assert (forall h, h = u64 (Z.of_nat nH) -> Z.of_nat nH < Z.of_nat (v_tail vp) + 2 ^ k ->
    (v_c vp <? sh_rclk sh (cell q h))%nat = false) as Hok.
  { intros h -> Hroom. rewrite cell_eq. apply Nat.ltb_ge.
    rewrite <- (Z_mod_plus_full _ (-1)).
    replace (Z.of_nat nH + -1 * 2 ^ k) with (Z.of_nat nH - 2 ^ k) by lia.
    etrans; [apply (i_r2 _ _ _ _ _ _ _ _ _ I); lia|]. etrans; [|exact Htc].
    apply (hk_mono _ _ _ _ _ _ _ (i_ht _ _ _ _ _ _ _ _ _ I)).
    rewrite (i_tlen _ _ _ _ _ _ _ _ _ I). lia. }
  destruct pp; try done; simpl in *; destruct Hpp as (Hh & Hroom & _) || destruct Hpp as (Hh & Hroom);
    by apply Hok.
Qed.

(** The consumer, with a message seen, may read the slot of the tail. *)
Lemma inv_c_no_race : c_race q sh cp vc = false.
Proof.
  pose proof (i_cp _ _ _ _ _ _ _ _ _ I) as Hcp.
  pose proof (i_vc _ _ _ _ _ _ _ _ _ I) as [Hh _ _ _ Hhp _].
  rewrite (i_hlen _ _ _ _ _ _ _ _ _ I) in Hh.
  assert (forall t, t = u64 (Z.of_nat nT) -> (nT < v_head vc)%nat ->
    (v_p vc <? sh_wclk sh (cell q t))%nat = false) as Hok.
  { intros t -> Hlt. rewrite cell_eq. apply Nat.ltb_ge.
    etrans; [apply (i_w2 _ _ _ _ _ _ _ _ _ I); lia|]. etrans; [|exact Hhp].
    apply (hk_mono _ _ _ _ _ _ _ (i_hh _ _ _ _ _ _ _ _ _ I)).
    rewrite (i_hlen _ _ _ _ _ _ _ _ _ I). lia. }
  destruct cp; try done; simpl in *; destruct Hcp as (Ht & Hlt & _) || destruct Hcp as (Ht & Hlt); by apply Hok.
Qed.
End Facts.

(** ** Preservation: the producer *)

Ltac inv_parts I :=
  destruct I as [HnH R Hpop Hhl Htl Hhh Hht Hvp Hvc Hph Hpt Hct Hch Hw1 Hw2 Hr1 Hr2 Hpp Hcp].

(** A new message changes nothing for the consumer. *)
Lemma cpc_ok_snoc cp v pushed nT d : cpc_ok cp v pushed nT -> cpc_ok cp v (pushed ++ [d]) nT.
Proof.
  assert (forall x, pushed !! nT = Some x -> (pushed ++ [d]) !! nT = Some x) as Hl
    by (intros; by apply lookup_app_l_Some).
  destruct cp; simpl; try done; intros Hc; decompose [and ex] Hc; eauto 10.
Qed.

Section Producer.
Context (sh : shared) (pp : ppc) (vp : view) (cp : cpc) (vc : view).
Context (pushed popped : list msg) (nH nT : nat).

(** Only the position in the code and the view of the producer change. *)
Lemma inv_p_view pp' vp' :
  inv sh pp vp cp vc pushed popped nH nT ->
  vok (sh_head sh) (sh_tail sh) (v_p vp) (v_c vc) vp' ->
  v_p vp' = v_p vp -> v_head vp' = nH -> (v_tail vp <= v_tail vp')%nat ->
  ppc_ok sh pp' vp' nH -> inv sh pp' vp' cp vc pushed popped nH nT.
Proof.
  intros I Hok Hp Hh Ht Hpp'. inv_parts I. split; rewrite ?Hp; done || lia.
Qed.

(** A write into the slot of the head. *)
Lemma inv_p_write pp' m' :
  inv sh pp vp cp vc pushed popped nH nT ->
  Z.of_nat nH < Z.of_nat (v_tail vp) + 2 ^ k ->
  frame (slot_off q k (Z.of_nat nH)) (q_slot_size q) (sh_mem sh) m' ->
  let sh' := Shared m' (sh_head sh) (sh_tail sh)
               (upd (sh_wclk sh) (cell q (u64 (Z.of_nat nH))) (v_p (tick_p vp))) (sh_rclk sh) in
  ppc_ok sh' pp' (tick_p vp) nH -> inv sh' pp' (tick_p vp) cp vc pushed popped nH nT.
Proof.
  intros I Hroom Hf sh' Hpp'. pose proof (inv_order _ _ _ _ _ _ _ _ _ I) as Ho.
  inv_parts I. pose proof (r_count _ _ _ _ _ _ R) as Hc.
  pose proof (vk_tail _ _ _ _ _ Hvp) as Hvt. rewrite Htl in Hvt.
  split; simpl; try done.
  - by apply (ring_frame_slot q k _ _ _ (sh_mem sh)); [|lia|].
  - eapply hist_clock; [exact Hhh|lia|lia].
  - eapply hist_clock; [exact Hht|lia|lia].
  - destruct Hvp. split; simpl; lia.
  - eapply vok_clock; [exact Hvc|lia|lia].
  - intros c. unfold upd. pose proof (Hw1 c). case_zb; lia.
  - intros i Hi. unfold upd. rewrite cell_eq.
    destruct (Z.eqb_spec (Z.of_nat i mod 2 ^ k) (Z.of_nat nH mod 2 ^ k)) as [He|_].
    + exfalso. revert He. apply mod_distinct; [apply (pow_k _ _ W)|lia].
    + by apply Hw2.
Qed.

(** The release store of [head]. *)
Lemma inv_p_publish d m' :
  inv sh pp vp cp vc pushed popped nH nT ->
  Z.of_nat nH < Z.of_nat (v_tail vp) + 2 ^ k -> holds q k (sh_mem sh) (Z.of_nat nH) d ->
  m' = wr 8 (sh_mem sh) OFF_HEAD (add64 (u64 (Z.of_nat nH)) 1) ->
  let v' := see_head (length (sh_head sh)) vp in
  let sh' := Shared m' (sh_head sh ++ [(add64 (u64 (Z.of_nat nH)) 1, v')]) (sh_tail sh)
               (sh_wclk sh) (sh_rclk sh) in
  inv sh' PIdle v' cp vc (pushed ++ [d]) popped (S nH) nT.
Proof.
  intros I Hroom Hh -> v' sh'. pose proof (inv_order _ _ _ _ _ _ _ _ _ I) as Ho.
  inv_parts I. pose proof (r_count _ _ _ _ _ _ R) as Hc.
  pose proof (vk_tail _ _ _ _ _ Hvp) as Hvt. rewrite Htl in Hvt.
  assert (add64 (u64 (Z.of_nat nH)) 1 = u64 (Z.of_nat (length (sh_head sh)))) as Hv
    by (rewrite add64_u64_l; f_equal; lia).
  assert (forall i, (i < length (sh_head sh))%nat -> (clk v_p (sh_head sh) i <= v_p vp)%nat) as Hall.
  { intros i Hi. unfold clk. destruct (sh_head sh !! i) as [[x w]|] eqn:E; [|lia].
    apply (hk_val _ _ _ _ _ _ _ Hhh) in E as (_ & _ & []). lia. }
  assert (vok (sh_head sh ++ [(add64 (u64 (Z.of_nat nH)) 1, v')]) (sh_tail sh) (v_p vp) (v_c vc) v')
    as Hokv.
  { destruct Hvp. split; simpl; rewrite ?length_app; simpl; try lia. rewrite clk_new. simpl. lia. }
  assert (forall own sel h, hist_ok own sel (sh_head sh) (sh_tail sh) (v_p vp) (v_c vc) h ->
    hist_ok own sel (sh_head sh ++ [(add64 (u64 (Z.of_nat nH)) 1, v')]) (sh_tail sh)
      (v_p vp) (v_c vc) h) as Hext.
  { intros own sel h Hk. rewrite <- (app_nil_r (sh_tail sh)). eapply hist_mono; [exact Hk|lia|lia]. }
  split; simpl; try done.
  - rewrite length_app. simpl. lia.
  - rewrite drop_app_le by lia. replace (Z.of_nat (S nH)) with (Z.of_nat nH + 1) by lia.
    apply (ring_publish q k _ _ _ (sh_mem sh)); [done|lia|apply frame_refl|done].
  - rewrite take_app_le by lia. done.
  - rewrite length_app. simpl. lia.
  - rewrite Hv at 2. apply hist_snoc; [by apply Hext|done|done|done].
  - by apply Hext.
  - rewrite <- (app_nil_r (sh_tail sh)). eapply vok_mono; [exact Hvc|lia|lia].
  - lia.
  - intros i Hi. destruct (decide (i = nH)) as [->|].
    + replace (S nH) with (length (sh_head sh)) by lia. rewrite clk_new. simpl. apply Hw1.
    + rewrite clk_app by lia. apply Hw2. lia.
  - intros i Hi. apply Hr2. lia.
  - by apply cpc_ok_snoc.
Qed.
End Producer.

(** ** Preservation: the consumer *)

Section Consumer.
Context (sh : shared) (pp : ppc) (vp : view) (cp : cpc) (vc : view).
Context (pushed popped : list msg) (nH nT : nat).

Lemma inv_c_view cp' vc' :
  inv sh pp vp cp vc pushed popped nH nT ->
  vok (sh_head sh) (sh_tail sh) (v_p vp) (v_c vc) vc' ->
  v_c vc' = v_c vc -> v_tail vc' = nT -> (v_head vc <= v_head vc')%nat ->
  cpc_ok cp' vc' pushed nT -> inv sh pp vp cp' vc' pushed popped nH nT.
Proof.
  intros I Hok Hp Hh Ht Hcp'. inv_parts I. split; rewrite ?Hp; done || lia.
Qed.

(** A read of the slot of the tail. *)
Lemma inv_c_read cp' :
  inv sh pp vp cp vc pushed popped nH nT -> (nT < v_head vc)%nat ->
  let sh' := Shared (sh_mem sh) (sh_head sh) (sh_tail sh) (sh_wclk sh)
               (upd (sh_rclk sh) (cell q (u64 (Z.of_nat nT))) (v_c (tick_c vc))) in
  cpc_ok cp' (tick_c vc) pushed nT -> inv sh' pp vp cp' (tick_c vc) pushed popped nH nT.
Proof.
  intros I Hlt sh' Hcp'. pose proof (inv_order _ _ _ _ _ _ _ _ _ I) as Ho.
  inv_parts I. pose proof (vk_head _ _ _ _ _ Hvc) as Hvh. rewrite Hhl in Hvh.
  split; simpl; try done.
  - eapply hist_clock; [exact Hhh|lia|lia].
  - eapply hist_clock; [exact Hht|lia|lia].
  - eapply vok_clock; [exact Hvp|lia|lia].
  - destruct Hvc. split; simpl; lia.
  - intros c. unfold upd. pose proof (Hr1 c). case_zb; lia.
  - intros i Hi. unfold upd. rewrite cell_eq.
    destruct (Z.eqb_spec (i mod 2 ^ k) (Z.of_nat nT mod 2 ^ k)) as [He|_].
    + exfalso. revert He. apply mod_distinct; [apply (pow_k _ _ W)|lia].
    + by apply Hr2.
Qed.

(** The release store of [tail]. *)
Lemma inv_c_publish d m' :
  inv sh pp vp cp vc pushed popped nH nT -> (nT < v_head vc)%nat -> pushed !! nT = Some d ->
  m' = wr 8 (sh_mem sh) OFF_TAIL (add64 (u64 (Z.of_nat nT)) 1) ->
  let v' := see_tail (length (sh_tail sh)) vc in
  let sh' := Shared m' (sh_head sh) (sh_tail sh ++ [(add64 (u64 (Z.of_nat nT)) 1, v')])
               (sh_wclk sh) (sh_rclk sh) in
  ppc_ok sh' pp vp nH -> inv sh' pp vp CIdle v' pushed (popped ++ [d]) nH (S nT).
Proof.
  intros I Hlt Hd -> v' sh' Hpp'. pose proof (inv_order _ _ _ _ _ _ _ _ _ I) as Ho.
  inv_parts I. pose proof (vk_head _ _ _ _ _ Hvc) as Hvh. rewrite Hhl in Hvh.
  assert (add64 (u64 (Z.of_nat nT)) 1 = u64 (Z.of_nat (length (sh_tail sh)))) as Hv
    by (rewrite add64_u64_l; f_equal; lia).
  assert (forall i, (i < length (sh_tail sh))%nat -> (clk v_c (sh_tail sh) i <= v_c vc)%nat) as Hall.
  { intros i Hi. unfold clk. destruct (sh_tail sh !! i) as [[x w]|] eqn:E; [|lia].
    apply (hk_val _ _ _ _ _ _ _ Hht) in E as (_ & _ & []). lia. }
  assert (vok (sh_head sh) (sh_tail sh ++ [(add64 (u64 (Z.of_nat nT)) 1, v')]) (v_p vp) (v_c vc) v')
    as Hokv.
  { destruct Hvc. split; simpl; rewrite ?length_app; simpl; try lia. rewrite clk_new. simpl. lia. }
  assert (forall own sel h, hist_ok own sel (sh_head sh) (sh_tail sh) (v_p vp) (v_c vc) h ->
    hist_ok own sel (sh_head sh) (sh_tail sh ++ [(add64 (u64 (Z.of_nat nT)) 1, v')])
      (v_p vp) (v_c vc) h) as Hext.
  { intros own sel h Hk. rewrite <- (app_nil_r (sh_head sh)). eapply hist_mono; [exact Hk|lia|lia]. }
  split; simpl; try done.
  - replace (Z.of_nat (S nT)) with (Z.of_nat nT + 1) by lia.
    apply (ring_consume q k _ _ d). by rewrite <- (drop_S pushed d).
  - rewrite (take_S_r _ _ d) by done. by rewrite Hpop.
  - rewrite length_app. simpl. lia.
  - by apply Hext.
  - rewrite Hv at 2. apply hist_snoc; [by apply Hext|done|done|done].
  - rewrite <- (app_nil_r (sh_head sh)). eapply vok_mono; [exact Hvp|lia|lia].
  - intros i Hi. apply Hw2. lia.
  - intros i Hi. destruct (decide (i = Z.of_nat nT)) as [->|].
    + replace (Z.to_nat (Z.of_nat nT + 1)) with (length (sh_tail sh)) by lia.
      rewrite clk_new. simpl. apply Hr1.
    + destruct (decide (i < 0)).
      * replace (Z.to_nat (i + 1)) with 0%nat by lia. rewrite clk_app by lia.
        replace 0%nat with (Z.to_nat (i + 1)) by lia. apply Hr2. lia.
      * rewrite clk_app by lia. apply Hr2. lia.
Qed.
End Consumer.

(** ** Preservation: the steps *)

Section Steps.
Context (sh : shared) (pp : ppc) (vp : view) (cp : cpc) (vc : view).
Context (pushed popped : list msg) (nH nT : nat).
Context (I : inv sh pp vp cp vc pushed popped nH nT).

(** What an atomic load of a word returns, and what the thread then knows. *)
Lemma load_head v ts x w :
  sh_head sh !! ts = Some (x, w) -> vok (sh_head sh) (sh_tail sh) (v_p vp) (v_c vc) v ->
  (v_head v <= ts)%nat ->
  x = u64 (Z.of_nat ts) /\ (ts <= nH)%nat /\
  see_head ts (join v w) = join v w /\ v_head (join v w) = ts /\
  vok (sh_head sh) (sh_tail sh) (v_p vp) (v_c vc) (join v w).
Proof.
  intros Hl Hv Ht. pose proof (i_hh _ _ _ _ _ _ _ _ _ I) as Hh.
  destruct (hk_val _ _ _ _ _ _ _ Hh _ _ _ Hl) as (-> & Hw & Hok).
  apply lookup_lt_Some in Hl. rewrite (i_hlen _ _ _ _ _ _ _ _ _ I) in Hl.
  assert (v_head (join v w) = ts) as Hj by (simpl; lia).
  split; [done|]. split; [lia|]. split; [by apply see_head_same|]. eauto using vok_join.
Qed.

Lemma load_tail v ts x w :
  sh_tail sh !! ts = Some (x, w) -> vok (sh_head sh) (sh_tail sh) (v_p vp) (v_c vc) v ->
  (v_tail v <= ts)%nat ->
  x = u64 (Z.of_nat ts) /\ (ts <= nT)%nat /\
  see_tail ts (join v w) = join v w /\ v_tail (join v w) = ts /\
  vok (sh_head sh) (sh_tail sh) (v_p vp) (v_c vc) (join v w).
Proof.
  intros Hl Hv Ht. pose proof (i_ht _ _ _ _ _ _ _ _ _ I) as Hh.
  destruct (hk_val _ _ _ _ _ _ _ Hh _ _ _ Hl) as (-> & Hw & Hok).
  apply lookup_lt_Some in Hl. rewrite (i_tlen _ _ _ _ _ _ _ _ _ I) in Hl.
  assert (v_tail (join v w) = ts) as Hj by (simpl; lia).
  split; [done|]. split; [lia|]. split; [by apply see_tail_same|]. eauto using vok_join.
Qed.

(** The thread's own word: the current position, and nothing new. *)
Lemma relaxed_head ts x v' :
  NABD_LOAD_RELAXED Head ts sh vp = Some (x, v') -> x = u64 (Z.of_nat nH) /\ v' = vp.
Proof.
  unfold NABD_LOAD_RELAXED. simpl. case_match eqn:E; [done|]. apply Nat.ltb_ge in E.
  destruct (sh_head sh !! ts) as [[y w]|] eqn:El; [|done]. simpl. intros [= <- <-].
  destruct (load_head vp ts y w El (i_vp _ _ _ _ _ _ _ _ _ I) E) as (-> & Hle & _).
  pose proof (i_ph _ _ _ _ _ _ _ _ _ I). assert (ts = nH) as -> by lia.
  split; [done|]. by apply see_head_same.
Qed.

Lemma relaxed_tail ts x v' :
  NABD_LOAD_RELAXED Tail ts sh vc = Some (x, v') -> x = u64 (Z.of_nat nT) /\ v' = vc.
Proof.
  unfold NABD_LOAD_RELAXED. simpl. case_match eqn:E; [done|]. apply Nat.ltb_ge in E.
  destruct (sh_tail sh !! ts) as [[y w]|] eqn:El; [|done]. simpl. intros [= <- <-].
  destruct (load_tail vc ts y w El (i_vc _ _ _ _ _ _ _ _ _ I) E) as (-> & Hle & _).
  pose proof (i_ct _ _ _ _ _ _ _ _ _ I). assert (ts = nT) as -> by lia.
  split; [done|]. by apply see_tail_same.
Qed.

(** The other thread's word: some position not older than the last one seen; the view
    joined adds nothing to what the thread knows of itself. *)
Lemma acquire_tail ts x v' :
  NABD_LOAD_ACQUIRE Tail ts sh vp = Some (x, v') ->
  x = u64 (Z.of_nat ts) /\ (v_tail vp <= ts <= nT)%nat /\ v_tail v' = ts /\
  v_p v' = v_p vp /\ v_head v' = nH /\
  vok (sh_head sh) (sh_tail sh) (v_p vp) (v_c vc) v'.
Proof.
  unfold NABD_LOAD_ACQUIRE. simpl. case_match eqn:E; [done|]. apply Nat.ltb_ge in E.
  destruct (sh_tail sh !! ts) as [[y w]|] eqn:El; [|done]. simpl. intros [= <- <-].
  destruct (load_tail vp ts y w El (i_vp _ _ _ _ _ _ _ _ _ I) E) as (-> & Hle & -> & Hts & Hok).
  destruct (hk_val _ _ _ _ _ _ _ (i_ht _ _ _ _ _ _ _ _ _ I) _ _ _ El) as (_ & _ & []).
  pose proof (i_ph _ _ _ _ _ _ _ _ _ I). pose proof (i_hlen _ _ _ _ _ _ _ _ _ I).
  split_and!; try done; try lia; simpl; lia.
Qed.

Lemma acquire_head ts x v' :
  NABD_LOAD_ACQUIRE Head ts sh vc = Some (x, v') ->
  x = u64 (Z.of_nat ts) /\ (v_head vc <= ts <= nH)%nat /\ v_head v' = ts /\
  v_c v' = v_c vc /\ v_tail v' = nT /\
  vok (sh_head sh) (sh_tail sh) (v_p vp) (v_c vc) v'.
Proof.
  unfold NABD_LOAD_ACQUIRE. simpl. case_match eqn:E; [done|]. apply Nat.ltb_ge in E.
  destruct (sh_head sh !! ts) as [[y w]|] eqn:El; [|done]. simpl. intros [= <- <-].
  destruct (load_head vc ts y w El (i_vc _ _ _ _ _ _ _ _ _ I) E) as (-> & Hle & -> & Hts & Hok).
  destruct (hk_val _ _ _ _ _ _ _ (i_hh _ _ _ _ _ _ _ _ _ I) _ _ _ El) as (_ & _ & []).
  pose proof (i_ct _ _ _ _ _ _ _ _ _ I). pose proof (i_tlen _ _ _ _ _ _ _ _ _ I).
  split_and!; try done; try lia; simpl; lia.
Qed.

(** A release store of a position succeeds. *)
Lemma release_store l x v :
  NABD_STORE_RELEASE l x sh v
  = let v' := see l (length (hist l sh)) v in
    let h := hist l sh ++ [(x, v')] in
    let m := wr 8 (sh_mem sh) (word_off l) x in
    Some (match l with
          | Head => Shared m h (sh_tail sh) (sh_wclk sh) (sh_rclk sh)
          | Tail => Shared m (sh_head sh) h (sh_wclk sh) (sh_rclk sh)
          end, v').
Proof.
  unfold NABD_STORE_RELEASE. rewrite st_in; [done|].
  destruct l; simpl; (eapply ring_in_control; [apply (i_ring _ _ _ _ _ _ _ _ _ I)|..];
                      unfold OFF_HEAD, OFF_TAIL, SIZEOF_CONTROL; lia).
Qed.

(** The slot of the head lies in the memory. *)
Lemma head_slot_in :
  in_mem (sh_mem sh) (slot_off q k (Z.of_nat nH)) (q_slot_size q).
Proof.
  pose proof (wf_slot _ _ W). unfold SIZEOF_HEADER in *.
  apply (ring_in_slot q k _ _ _ _ (i_ring _ _ _ _ _ _ _ _ _ I) (Z.of_nat nH)); lia.
Qed.

(** The consumer's store of [tail] does not touch the producer's slot. *)
Lemma ppc_tail_store v :
  ppc_ok (Shared (wr 8 (sh_mem sh) OFF_TAIL v) (sh_head sh) (sh_tail sh) (sh_wclk sh) (sh_rclk sh))
    pp vp nH.
Proof.
  pose proof (i_pp _ _ _ _ _ _ _ _ _ I) as Hpp.
  pose proof (slot_range q k W (Z.of_nat nH)) as Hr. pose proof (wf_slot _ _ W).
  assert (in_mem (sh_mem sh) OFF_TAIL 8) as Hin.
  { eapply ring_in_control; [apply (i_ring _ _ _ _ _ _ _ _ _ I)|..];
      unfold OFF_TAIL, SIZEOF_CONTROL; lia. }
  unfold SIZEOF_CONTROL, SIZEOF_HEADER, OFF_TAIL in *. destruct pp; simpl in *; try done.
  - destruct Hpp as (? & ? & ? & Hs). split_and!; try done.
    pose proof (zlen_nonneg d). unfold SIZEOF_HEADER in *. rewrite slice_wr; done || lia.
  - destruct Hpp as (? & ? & ? & Hs). split_and!; try done.
    eapply holds_frame; [exact W|apply frame_wr; exact Hin|exact Hs|]. lia.
Qed.

End Steps.

(** The payload of the slot of the head: where writes through the pointer go. *)
Lemma payload_off i : get_slot_payload q (u64 i) = slot_off q k i + SIZEOF_HEADER.
Proof. unfold get_slot_payload. by rewrite (get_slot_off q k W). Qed.

(** A write of bytes into the payload of the slot of the head. *)
Lemma payload_write sh pp vp cp vc pushed popped nH nT off bs :
  inv sh pp vp cp vc pushed popped nH nT ->
  0 <= off -> off + zlen bs <= q_slot_size q - SIZEOF_HEADER ->
  let so := slot_off q k (Z.of_nat nH) in
  let m := splice (sh_mem sh) (so + SIZEOF_HEADER + off) bs in
  store (so + SIZEOF_HEADER + off) bs (sh_mem sh) = Some (tt, m) /\
  frame so (q_slot_size q) (sh_mem sh) m /\
  slice m (so + SIZEOF_HEADER + off) (zlen bs) = bs.
Proof.
  intros I Ho Hfit so m. pose proof (head_slot_in _ _ _ _ _ _ _ _ _ I) as Hin. fold so in Hin.
  pose proof (zlen_nonneg bs). pose proof (wf_slot _ _ W). unfold SIZEOF_HEADER in *.
  split; [|split].
  - apply store_in. zl.
  - eapply frame_mono; cycle 2; [apply frame_splice; zl|lia|lia].
  - apply slice_splice_same; zl.
Qed.

(** Writing through the reserved pointer. *)
Lemma p_fill_inv sh h vp cp vc pushed popped nH nT a ts e sh' pp' vp' :
  inv sh (PReserved h) vp cp vc pushed popped nH nT ->
  p_next q a ts sh (PReserved h) vp = Some (e, sh', pp', vp') ->
  inv sh' pp' vp' cp vc (pushed ++ map kept (moved e)) popped nH nT.
Proof.
  intros I. pose proof (i_pp _ _ _ _ _ _ _ _ _ I) as [-> Hroom]. simpl.
  rewrite (max_payload_eq q k W), payload_off.
  destruct a as [d|len|off bs|len]; [done|..].
  - intros [= <- <- <- <-]. by rewrite app_nil_r.
  - destruct (off <? 0) eqn:E1; [done|]. simpl. case_zb; [done|]. zbool.
    destruct (payload_write _ _ _ _ _ _ _ _ _ off bs I) as (-> & Hf & _); [lia|lia|].
    simpl. intros [= <- <- <- <-]. rewrite app_nil_r.
    by apply (inv_p_write sh (PReserved (u64 (Z.of_nat nH)))).
  - destruct (len <? 0) eqn:E1; [done|]. simpl. case_zb; [done|]. zbool. intros [= <- <- <- <-].
    rewrite app_nil_r. pose proof (i_vp _ _ _ _ _ _ _ _ _ I). pose proof (i_ph _ _ _ _ _ _ _ _ _ I).
    apply (inv_p_view sh (PReserved (u64 (Z.of_nat nH))) vp); try done.
    assert (zlen (slice (sh_mem sh) (slot_off q k (Z.of_nat nH) + SIZEOF_HEADER) len) = len) as Hz.
    { pose proof (head_slot_in _ _ _ _ _ _ _ _ _ I) as (? & ? & ?). unfold SIZEOF_HEADER in *.
      apply zlen_slice; lia. }
    split_and!; try done; rewrite Hz; done || lia.
Qed.

(** Writing the payload, then the header, keeps the invariant. *)
Lemma p_payload_inv sh d h vp cp vc pushed popped nH nT a ts e sh' pp' vp' :
  inv sh (PPayload d h) vp cp vc pushed popped nH nT ->
  p_next q a ts sh (PPayload d h) vp = Some (e, sh', pp', vp') ->
  inv sh' pp' vp' cp vc (pushed ++ map kept (moved e)) popped nH nT.
Proof.
  intros I. pose proof (i_pp _ _ _ _ _ _ _ _ _ I) as (-> & Hroom & Hd & _). simpl.
  destruct (payload_write _ _ _ _ _ _ _ _ _ 0 d I) as (Hs & Hf & Hr); [lia|lia|].
  rewrite !Z.add_0_r in Hs, Hf, Hr. rewrite (get_slot_off q k W).
  rewrite memcpy_in_all, Hs. simpl. intros [= <- <- <- <-].
  rewrite app_nil_r. by apply (inv_p_write sh (PPayload d (u64 (Z.of_nat nH)))).
Qed.

Lemma p_header_inv sh d h vp cp vc pushed popped nH nT a ts e sh' pp' vp' :
  inv sh (PHeader d h) vp cp vc pushed popped nH nT ->
  p_next q a ts sh (PHeader d h) vp = Some (e, sh', pp', vp') ->
  inv sh' pp' vp' cp vc (pushed ++ map kept (moved e)) popped nH nT.
Proof.
  intros I. pose proof (i_pp _ _ _ _ _ _ _ _ _ I) as (-> & Hroom & Hd & Hs). simpl.
  pose proof (wf_slot _ _ W) as Hss. pose proof (head_slot_in _ _ _ _ _ _ _ _ _ I) as Hin.
  rewrite (get_slot_off q k W). pose proof (zlen_nonneg d). unfold SIZEOF_HEADER in *.
  destruct (fill_header_spec (sh_mem sh) (slot_off q k (Z.of_nat nH)) (zlen d) (u64 (Z.of_nat nH)))
    as (m2 & E2 & Hf2 & H1 & H2 & H3); [unfold SIZEOF_HEADER; zl|].
  rewrite E2. simpl. intros [= <- <- <- <-]. rewrite app_nil_r.
  rewrite u32_u64 in H3. unfold SIZEOF_HEADER in Hf2.
  apply (inv_p_write sh (PHeader d (u64 (Z.of_nat nH)))); [done|done| |].
  - eapply frame_mono; cycle 2; [exact Hf2|lia|lia].
  - unfold ppc_ok, SIZEOF_HEADER. split_and!; try done.
    apply (holds_written q k (sh_mem sh)); unfold SIZEOF_HEADER; done || lia || idtac.
    rewrite Hs. symmetry. apply take_ge. unfold zlen. lia.
Qed.

(** Loading the positions. *)
Lemma p_load_inv sh pp vp cp vc pushed popped nH nT a ts e sh' pp' vp' :
  inv sh pp vp cp vc pushed popped nH nT ->
  match pp with PIdle | PLoadHead _ | PLoadTail _ _ => True | _ => False end ->
  p_next q a ts sh pp vp = Some (e, sh', pp', vp') ->
  inv sh' pp' vp' cp vc (pushed ++ map kept (moved e)) popped nH nT.
Proof.
  intros I Hp. pose proof (i_pp _ _ _ _ _ _ _ _ _ I) as Hpp. pose proof (i_vp _ _ _ _ _ _ _ _ _ I) as Hvp.
  pose proof (i_ph _ _ _ _ _ _ _ _ _ I) as Hph.
  destruct pp as [|h|r|r h|d h|d h|d h]; try done; simpl in Hpp |- *.
  - rewrite (max_payload_eq q k W).
    destruct a as [d|len|off bs|len]; try done; try case_zb; intros [= <- <- <- <-];
      rewrite app_nil_r; by apply (inv_p_view sh PIdle vp).
  - destruct (NABD_LOAD_RELAXED _ _ _ _) as [[x v]|] eqn:E; [|done]. simpl. intros [= <- <- <- <-].
    apply (relaxed_head _ _ _ _ _ _ _ _ _ I) in E as [-> ->]. rewrite app_nil_r.
    by apply (inv_p_view sh (PLoadHead r) vp).
  - destruct (NABD_LOAD_ACQUIRE _ _ _ _) as [[x v]|] eqn:E; [|done]. simpl.
    apply (acquire_tail _ _ _ _ _ _ _ _ _ I) in E as (-> & Hts & Ht & Hp1 & Hh1 & Hok).
    destruct Hpp as [Hr ->]. rewrite inv_distance with (1 := I) by lia. rewrite (wf_cap _ _ W).
    case_zb; [|destruct r as [d|len]]; intros [= <- <- <- <-]; rewrite app_nil_r;
      (eapply inv_p_view; [exact I|..]); try done; try lia;
      unfold ppc_ok; rewrite Ht; split_and!; done || lia.
Qed.

(** One step of the producer keeps the invariant. *)
Lemma p_step_inv sh pp vp cp vc pushed popped nH nT a ts e sh' pp' vp' :
  inv sh pp vp cp vc pushed popped nH nT ->
  p_next q a ts sh pp vp = Some (e, sh', pp', vp') ->
  exists nH', inv sh' pp' vp' cp vc (pushed ++ map kept (moved e)) popped nH' nT.
Proof.
  intros I Hs. destruct pp as [|h|r|r h|d h|d h|d h].
  - exists nH. by eapply p_load_inv.
  - exists nH. by eapply p_fill_inv.
  - exists nH. by eapply p_load_inv.
  - exists nH. by eapply p_load_inv.
  - exists nH. by eapply p_payload_inv.
  - exists nH. by eapply p_header_inv.
  - pose proof (i_pp _ _ _ _ _ _ _ _ _ I) as (-> & Hroom & Hd & Hh). revert Hs. simpl.
    rewrite (release_store _ _ _ _ _ _ _ _ _ I). simpl. intros [= <- <- <- <-]. exists (S nH).
    by apply (inv_p_publish sh (PPublish d (u64 (Z.of_nat nH))) _ _ _ _ _ _ _ (kept d)).
Qed.

(** The message at the tail, for the consumer that has seen it. *)
Lemma tail_message sh pp vp cp vc pushed popped nH nT :
  inv sh pp vp cp vc pushed popped nH nT -> (nT < v_head vc)%nat ->
  exists d, pushed !! nT = Some d /\ holds q k (sh_mem sh) (Z.of_nat nT) d.
Proof.
  intros I Hlt. pose proof (vk_head _ _ _ _ _ (i_vc _ _ _ _ _ _ _ _ _ I)) as Hvh.
  rewrite (i_hlen _ _ _ _ _ _ _ _ _ I) in Hvh. pose proof (i_nH _ _ _ _ _ _ _ _ _ I).
  destruct (lookup_lt_is_Some_2 pushed nT) as [d Hd]; [lia|]. exists d. split; [done|].
  eapply ring_first; [apply (i_ring _ _ _ _ _ _ _ _ _ I)|by apply drop_S].
Qed.

Lemma tail_slot_in sh pp vp cp vc pushed popped nH nT off n :
  inv sh pp vp cp vc pushed popped nH nT -> 0 <= off -> 0 <= n -> off + n <= q_slot_size q ->
  in_mem (sh_mem sh) (slot_off q k (Z.of_nat nT) + off) n.
Proof.
  intros I ? ? ?.
  apply (ring_in_slot q k _ _ _ _ (i_ring _ _ _ _ _ _ _ _ _ I) (Z.of_nat nT)); lia.
Qed.

(** The bytes of the peeked or popped message. *)
Lemma message_bytes sh pp vp cp vc pushed popped nH nT d off n :
  inv sh pp vp cp vc pushed popped nH nT -> (nT < v_head vc)%nat -> pushed !! nT = Some d ->
  0 <= off -> 0 <= n -> off + n <= zlen d ->
  load (slot_off q k (Z.of_nat nT) + SIZEOF_HEADER + off) n (sh_mem sh)
  = Some (slice d off n, sh_mem sh).
Proof.
  intros I Hlt Hd Ho Hn Hfit. pose proof (wf_slot _ _ W).
  destruct (tail_message _ _ _ _ _ _ _ _ _ I Hlt) as (d' & Hd' & Hh).
  assert (d' = d) as -> by congruence. pose proof (h_fits _ _ _ _ _ Hh). unfold SIZEOF_HEADER in *.
  rewrite <- Z.add_assoc, load_in by (eapply tail_slot_in; [exact I|..]; lia). do 2 f_equal.
  pose proof (h_data _ _ _ _ _ Hh) as Hs. unfold SIZEOF_HEADER in Hs.
  pose proof (slot_range q k W (Z.of_nat nT)) as Hr. unfold SIZEOF_CONTROL in Hr.
  rewrite <- Hs at 1. by rewrite slice_slice, Z.add_assoc by lia.
Qed.

(** Reading the length, then the payload, keeps the invariant. *)
Lemma c_length_inv sh pp vp r t vc pushed popped nH nT a ts e sh' cp' vc' :
  inv sh pp vp (CLength r t) vc pushed popped nH nT ->
  c_next q a ts sh (CLength r t) vc = Some (e, sh', cp', vc') ->
  inv sh' pp vp cp' vc' pushed (popped ++ moved e) nH nT.
Proof.
  intros I. pose proof (i_cp _ _ _ _ _ _ _ _ _ I) as [-> Hlt]. simpl.
  pose proof (wf_slot _ _ W) as Hss. rewrite (get_slot_off q k W).
  destruct (tail_message _ _ _ _ _ _ _ _ _ I Hlt) as (d & Hd & Hh).
  rewrite ld_in by (eapply tail_slot_in; [exact I|..]; unfold HDR_LENGTH, SIZEOF_HEADER in *; lia).
  rewrite (h_len _ _ _ _ _ Hh). simpl.
  destruct r as [cap|]; [case_zb|]; intros [= <- <- <- <-]; rewrite app_nil_r;
    (eapply inv_c_read; [exact I|..]); try done;
    unfold cpc_ok; eauto.
Qed.

Lemma c_copy_inv sh pp vp t n vc pushed popped nH nT a ts e sh' cp' vc' :
  inv sh pp vp (CCopy t n) vc pushed popped nH nT ->
  c_next q a ts sh (CCopy t n) vc = Some (e, sh', cp', vc') ->
  inv sh' pp vp cp' vc' pushed (popped ++ moved e) nH nT.
Proof.
  intros I. pose proof (i_cp _ _ _ _ _ _ _ _ _ I) as (-> & Hlt & d & Hd & ->). simpl.
  pose proof (message_bytes _ _ _ _ _ _ _ _ _ d 0 (zlen d) I Hlt Hd) as Hb.
  pose proof (zlen_nonneg d). rewrite Z.add_0_r, slice_all in Hb.
  rewrite (get_slot_off q k W), Hb by lia. simpl. intros [= <- <- <- <-]. rewrite app_nil_r.
  by apply (inv_c_read sh pp vp (CCopy (u64 (Z.of_nat nT)) (zlen d))).
Qed.

(** With a pointer from peek: a new call, a read of the message, or its release. *)
Lemma c_peeked_inv sh pp vp t n vc pushed popped nH nT a ts e sh' cp' vc' :
  inv sh pp vp (CPeeked t n) vc pushed popped nH nT ->
  c_next q a ts sh (CPeeked t n) vc = Some (e, sh', cp', vc') ->
  inv sh' pp vp cp' vc' pushed (popped ++ moved e) nH nT /\
  forall off bs, e = Look off bs -> exists d, pushed !! nT = Some d /\ bs = slice d off (zlen bs).
Proof.
  intros I. pose proof (i_cp _ _ _ _ _ _ _ _ _ I) as (-> & Hlt & d & Hd & ->). simpl.
  pose proof (i_vc _ _ _ _ _ _ _ _ _ I). pose proof (i_ct _ _ _ _ _ _ _ _ _ I). rewrite payload_off.
  destruct a as [cap| |off n|].
  - intros [= <- <- <- <-]. rewrite app_nil_r. split; [|done].
    by apply (inv_c_view sh pp vp (CPeeked (u64 (Z.of_nat nT)) (zlen d)) vc).
  - intros [= <- <- <- <-]. rewrite app_nil_r. split; [|done].
    by apply (inv_c_view sh pp vp (CPeeked (u64 (Z.of_nat nT)) (zlen d)) vc).
  - destruct (off <? 0) eqn:E1; [done|]. destruct (n <? 0) eqn:E2; [done|]. simpl.
    case_zb; [done|]. zbool.
    rewrite (message_bytes _ _ _ _ _ _ _ _ _ d off n I Hlt Hd) by lia. simpl.
    intros [= <- <- <- <-]. rewrite app_nil_r. split.
    + apply (inv_c_read sh pp vp (CPeeked (u64 (Z.of_nat nT)) (zlen d))); try done.
      simpl. eauto.
    + intros off' bs [= <- <-]. exists d. split; [done|]. by rewrite zlen_slice by lia.
  - intros [= <- <- <- <-]. rewrite app_nil_r. split; [|done].
    apply (inv_c_view sh pp vp (CPeeked (u64 (Z.of_nat nT)) (zlen d)) vc); try done.
    simpl. split; [done|]. destruct (tail_message _ _ _ _ _ _ _ _ _ I Hlt) as (d' & Hd' & Hh).
    assert (d' = d) as -> by congruence. by rewrite (h_data _ _ _ _ _ Hh).
Qed.

(** Loading the positions. *)
Lemma c_load_inv sh pp vp cp vc pushed popped nH nT a ts e sh' cp' vc' :
  inv sh pp vp cp vc pushed popped nH nT ->
  match cp with CIdle | CLoadTail _ | CLoadHead _ _ | CRelease _ => True | _ => False end ->
  c_next q a ts sh cp vc = Some (e, sh', cp', vc') ->
  inv sh' pp vp cp' vc' pushed (popped ++ moved e) nH nT.
Proof.
  intros I Hp. pose proof (i_cp _ _ _ _ _ _ _ _ _ I) as Hcp. pose proof (i_vc _ _ _ _ _ _ _ _ _ I) as Hvc.
  pose proof (i_ct _ _ _ _ _ _ _ _ _ I) as Hct. pose proof (i_ch _ _ _ _ _ _ _ _ _ I) as Hch.
  destruct cp as [|t n|r|r t|r t|t n|d|t d]; try done; simpl in Hcp |- *.
  - destruct a; try done; intros [= <- <- <- <-]; rewrite app_nil_r;
      by apply (inv_c_view sh pp vp CIdle vc).
  - destruct (NABD_LOAD_RELAXED _ _ _ _) as [[x v]|] eqn:E; [|done]. simpl. intros [= <- <- <- <-].
    apply (relaxed_tail _ _ _ _ _ _ _ _ _ I) in E as [-> ->]. rewrite app_nil_r.
    by apply (inv_c_view sh pp vp (CLoadTail r) vc).
  - destruct (NABD_LOAD_ACQUIRE _ _ _ _) as [[x v]|] eqn:E; [|done]. simpl.
    apply (acquire_head _ _ _ _ _ _ _ _ _ I) in E as (-> & Hts & Hh & Hc1 & Ht1 & Hok). subst t.
    rewrite inv_empty with (1 := I) by lia.
    case_zb; intros [= <- <- <- <-]; rewrite app_nil_r;
      apply (inv_c_view sh pp vp (CLoadHead r (u64 (Z.of_nat nT))) vc); try done; try lia.
    unfold cpc_ok. rewrite Hh. split; [done|lia].
  - destruct (NABD_LOAD_RELAXED _ _ _ _) as [[x v]|] eqn:E; [|done]. simpl. intros [= <- <- <- <-].
    apply (relaxed_tail _ _ _ _ _ _ _ _ _ I) in E as [-> ->]. rewrite app_nil_r.
    apply (inv_c_view sh pp vp (CRelease d) vc); done.
Qed.

(** One step of the consumer keeps the invariant; what it returns is the message at
    the tail. *)
Lemma c_step_inv sh pp vp cp vc pushed popped nH nT a ts e sh' cp' vc' :
  inv sh pp vp cp vc pushed popped nH nT ->
  c_next q a ts sh cp vc = Some (e, sh', cp', vc') ->
  exists nT', inv sh' pp vp cp' vc' pushed (popped ++ moved e) nH nT'.
Proof.
  intros I Hs. destruct cp as [|t n|r|r t|r t|t n|d|t d].
  - exists nT. by eapply c_load_inv.
  - exists nT. by eapply c_peeked_inv.
  - exists nT. by eapply c_load_inv.
  - exists nT. by eapply c_load_inv.
  - exists nT. by eapply c_length_inv.
  - exists nT. by eapply c_copy_inv.
  - exists nT. by eapply c_load_inv.
  - pose proof (i_cp _ _ _ _ _ _ _ _ _ I) as (-> & Hlt & Hd). revert Hs. simpl.
    rewrite (release_store _ _ _ _ _ _ _ _ _ I). simpl. intros [= <- <- <- <-]. exists (S nT).
    apply (inv_c_publish sh pp vp (CPublish (u64 (Z.of_nat nT)) d)); try done.
    apply (ppc_tail_store sh pp vp _ vc pushed popped nH nT I).
Qed.

(** ** Every reachable state *)

Definition state_inv (s : state) : Prop :=
  exists nH nT, inv (st_sh s) (st_pp s) (st_pv s) (st_cp s) (st_cv s)
    (map kept (st_pushed s)) (st_popped s) nH nT.

Lemma initial_inv m : ring q k 0 0 [] m -> state_inv (initial m).
Proof.
  intros R. exists 0%nat, 0%nat. pose proof (pow_k _ _ W).
  assert (vok [(0, view0)] [(0, view0)] 0 0 view0) as Hv by (split; cbv; lia).
  assert (forall own sel, own view0 = 0%nat ->
    hist_ok own sel [(0, view0)] [(0, view0)] 0 0 [(0, view0)]) as Hh.
  { intros own sel Ho. split.
    - intros [|i] x w; [|done]. intros [= <- <-]. done.
    - simpl. intros i j Hij. by replace i with j by lia. }
  split; simpl; try done; try lia; by apply Hh.
Qed.

Lemma step_inv s s' : state_inv s -> step q s s' -> state_inv s'.
Proof.
  intros (nH & nT & I) Hs.
  destruct Hs as [arg ts e sh pc v E|arg ts e sh pc v E].
  - destruct (p_step_inv _ _ _ _ _ _ _ _ _ _ _ _ _ _ _ I E) as (nH' & I').
    exists nH', nT. simpl. by rewrite map_app.
  - destruct (c_step_inv _ _ _ _ _ _ _ _ _ _ _ _ _ _ _ I E) as (nT' & I'). by exists nH, nT'.
Qed.

Lemma reachable_inv m s : ring q k 0 0 [] m -> reachable q m s -> state_inv s.
Proof. intros R Hr. induction Hr; eauto using initial_inv, step_inv. Qed.

(** ** Progress *)

(** A thread can always read the message it has last seen. *)
Lemma relaxed_some l sh v :
  (seen l v < length (hist l sh))%nat -> exists r, NABD_LOAD_RELAXED l (seen l v) sh v = Some r.
Proof.
  intros Hl. unfold NABD_LOAD_RELAXED. rewrite Nat.ltb_irrefl.
  destruct (lookup_lt_is_Some_2 _ _ Hl) as [[x w] ->]. simpl. eauto.
Qed.

Lemma acquire_some l sh v :
  (seen l v < length (hist l sh))%nat -> exists r, NABD_LOAD_ACQUIRE l (seen l v) sh v = Some r.
Proof.
  intros Hl. unfold NABD_LOAD_ACQUIRE. rewrite Nat.ltb_irrefl.
  destruct (lookup_lt_is_Some_2 _ _ Hl) as [[x w] ->]. simpl. eauto.
Qed.

(** Inside a call a step is possible, whatever the other thread did. *)
Lemma p_progress sh pp vp cp vc pushed popped nH nT a :
  inv sh pp vp cp vc pushed popped nH nT -> p_rest pp = false ->
  exists ts r, p_next q a ts sh pp vp = Some r.
Proof.
  intros I Hpp. pose proof (i_pp _ _ _ _ _ _ _ _ _ I) as Hok.
  pose proof (i_vp _ _ _ _ _ _ _ _ _ I) as [Hh Ht _ _ _ _].
  pose proof (head_slot_in _ _ _ _ _ _ _ _ _ I) as Hin. pose proof (wf_slot _ _ W) as Hss.
  destruct pp as [|h|r|r h|d h|d h|d h]; try done; simpl in Hok |- *.
  - exists (seen Head vp). destruct (relaxed_some Head sh vp Hh) as [[x v] ->]. simpl. eauto.
  - exists (seen Tail vp). destruct (acquire_some Tail sh vp Ht) as [[x v] ->]. simpl. case_match; eauto.
  - exists 0%nat. destruct Hok as (-> & Hroom & Hd & _). rewrite (get_slot_off q k W), memcpy_in_all.
    destruct (payload_write _ _ _ _ _ _ _ _ _ 0 d I) as (Hs & _); [lia|lia|].
    rewrite !Z.add_0_r in Hs. rewrite Hs. simpl. eauto.
  - exists 0%nat. destruct Hok as (-> & _ & Hd & _). rewrite (get_slot_off q k W).
    pose proof (zlen_nonneg d). unfold SIZEOF_HEADER in *.
    destruct (fill_header_spec (sh_mem sh) (slot_off q k (Z.of_nat nH)) (zlen d) (u64 (Z.of_nat nH)))
      as (m2 & -> & _); [unfold SIZEOF_HEADER; zl|]. simpl. eauto.
  - exists 0%nat. rewrite (release_store _ _ _ _ _ _ _ _ _ I). simpl. eauto.
Qed.

Lemma c_progress sh pp vp cp vc pushed popped nH nT a :
  inv sh pp vp cp vc pushed popped nH nT -> c_rest cp = false ->
  exists ts r, c_next q a ts sh cp vc = Some r.
Proof.
  intros I Hcp. pose proof (i_cp _ _ _ _ _ _ _ _ _ I) as Hok.
  pose proof (i_vc _ _ _ _ _ _ _ _ _ I) as [Hh Ht _ _ _ _]. pose proof (wf_slot _ _ W) as Hss.
  destruct cp as [|t n|r|r t|r t|t n|d|t d]; try done; simpl in Hok |- *.
  - exists (seen Tail vc). destruct (relaxed_some Tail sh vc Ht) as [[x v] ->]. simpl. eauto.
  - exists (seen Head vc). destruct (acquire_some Head sh vc Hh) as [[x v] ->]. simpl. case_match; eauto.
  - exists 0%nat. destruct Hok as (-> & _). rewrite (get_slot_off q k W).
    rewrite ld_in by (eapply tail_slot_in; [exact I|..]; unfold HDR_LENGTH, SIZEOF_HEADER in *; lia).
    simpl. eauto.
  - exists 0%nat. destruct Hok as (-> & Hlt & d & Hd & ->). rewrite (get_slot_off q k W).
    pose proof (message_bytes _ _ _ _ _ _ _ _ _ d 0 (zlen d) I Hlt Hd) as Hb.
    pose proof (zlen_nonneg d). rewrite Z.add_0_r in Hb. rewrite Hb by lia. simpl. eauto.
  - exists (seen Tail vc). destruct (relaxed_some Tail sh vc Ht) as [[x v] ->]. simpl. eauto.
  - exists 0%nat. rewrite (release_store _ _ _ _ _ _ _ _ _ I). simpl. eauto.
Qed.

End Invariant.

(** Every step inside a call brings its return nearer; the last one returns. *)
Ltac next_step Hs :=
  repeat match type of Hs with
  | context [mbind _ ?o] => destruct o as [[? ?]|]; [simpl in Hs|done]
  | context [match ?r with _ => _ end] => destruct r
  end; injection Hs as <- <- <- <-; simpl; split; (lia || done).

Lemma p_step_rank q a ts sh pc v e sh' pc' v' :
  p_rest pc = false -> p_next q a ts sh pc v = Some (e, sh', pc', v') ->
  (p_rank pc' < p_rank pc)%nat /\ p_rest pc' = match e with Ret _ _ => true | _ => false end.
Proof. destruct pc; simpl; intros Hpc Hs; try done; next_step Hs. Qed.

Lemma c_step_rank q a ts sh pc v e sh' pc' v' :
  c_rest pc = false -> c_next q a ts sh pc v = Some (e, sh', pc', v') ->
  (c_rank pc' < c_rank pc)%nat /\ c_rest pc' = match e with Ret _ _ => true | _ => false end.
Proof. destruct pc; simpl; intros Hpc Hs; try done; next_step Hs. Qed.
