(* ===== verification/SpscCorrect.v ===== *)
(** * The concurrent queue is correct

    The theorems about Spsc.v: race freedom, FIFO order and bounded occupancy in
    every reachable state, the content of the shared memory, the validity of peeked
    pointers, wait-freedom, and the agreement of the two threads, run alone, with the
    functions of Queue.v. *)

From S2P Require Import Prelude Words Pow2 Memory Layout Fifo Queue Ring Sample Spsc SpscInv.
Local Open Scope Z_scope.

(** ** A concrete run *)

(** [n] steps of one thread with the newest messages. *)
Fixpoint drive_p (q : nabd) (n : nat) (a : p_act) (s : state) : state :=
  match n with
  | O => s
  | S n =>
      match p_next q a (p_newest (st_sh s) (st_pp s)) (st_sh s) (st_pp s) (st_pv s) with
      | Some (e, sh, pc, v) =>
          drive_p q n a (State sh pc v (st_cp s) (st_cv s) (st_pushed s ++ moved e) (st_popped s))
      | None => s
      end
  end.

Fixpoint drive_c (q : nabd) (n : nat) (a : c_act) (s : state) : state :=
  match n with
  | O => s
  | S n =>
      match c_next q a (c_newest (st_sh s) (st_cp s)) (st_sh s) (st_cp s) (st_cv s) with
      | Some (e, sh, pc, v) =>
          drive_c q n a (State sh (st_pp s) (st_pv s) pc v (st_pushed s) (st_popped s ++ moved e))
      | None => s
      end
  end.

(** Two messages, one pushed and one written in place, the first popped. *)
Definition sample_rest : state :=
  drive_c sample_q 6 (CallPop 8)
    (drive_p sample_q 3 (CallCommit 2)
      (drive_p sample_q 1 (WriteSlot 0 msg_b)
        (drive_p sample_q 3 (CallReserve 2)
          (drive_p sample_q 6 (CallPush msg_a) (initial sample_mem))))).

(** A third about to be written to its slot while the consumer copies the second. *)
Definition sample_state : state :=
  drive_c sample_q 4 (CallPop 8) (drive_p sample_q 3 (CallPush msg_b) sample_rest).

(** The next slot reserved, the second message peeked. *)
Definition sample_zero_copy : state :=
  drive_c sample_q 4 CallPeek (drive_p sample_q 3 (CallReserve 2) sample_rest).

Lemma drive_p_reachable q m n a s : reachable q m s -> reachable q m (drive_p q n a s).
Proof.
  revert s. induction n as [|n IH]; simpl; intros s Hr; [done|].
  destruct (p_next _ _ _ _ _ _) as [[[[e sh] pc] v]|] eqn:E; [|done].
  apply IH. eapply reach_step; [exact Hr|]. by eapply step_p.
Qed.

Lemma drive_c_reachable q m n a s : reachable q m s -> reachable q m (drive_c q n a s).
Proof.
  revert s. induction n as [|n IH]; simpl; intros s Hr; [done|].
  destruct (c_next _ _ _ _ _ _) as [[[[e sh] pc] v]|] eqn:E; [|done].
  apply IH. eapply reach_step; [exact Hr|]. by eapply step_c.
Qed.

Lemma sample_rest_reachable : reachable sample_q sample_mem sample_rest.
Proof.
  apply drive_c_reachable, drive_p_reachable, drive_p_reachable, drive_p_reachable,
    drive_p_reachable, reach_init.
Qed.

Lemma sample_state_reachable : reachable sample_q sample_mem sample_state.
Proof. apply drive_c_reachable, drive_p_reachable, sample_rest_reachable. Qed.

Lemma sample_zero_copy_reachable : reachable sample_q sample_mem sample_zero_copy.
Proof. apply drive_c_reachable, drive_p_reachable, sample_rest_reachable. Qed.

(** ** Calls run alone *)

(** One step of a call. *)
Lemma p_run_S q n a sh pc v :
  p_run q (S n) a sh pc v
  = match p_next q a (p_newest sh pc) sh pc v with
    | Some (Ret r x, sh', pc', _) => Some (r, x, sh', pc')
    | Some (_, sh', pc', v') => p_run q n a sh' pc' v'
    | None => None
    end.
Proof. done. Qed.

Lemma c_run_S q n a sh pc v :
  c_run q (S n) a sh pc v
  = match c_next q a (c_newest sh pc) sh pc v with
    | Some (Ret r x, sh', pc', _) => Some (r, x, sh', pc')
    | Some (_, sh', pc', v') => c_run q n a sh' pc' v'
    | None => None
    end.
Proof. done. Qed.

Ltac p_step := rewrite p_run_S; cbn [p_next p_newest].
Ltac c_step := rewrite c_run_S; cbn [c_next c_newest].

Section Solo.
Context (q : nabd) (k : Z) (W : wf_handle q k).
Context (sh : shared) (pp : ppc) (vp : view) (cp : cpc) (vc : view).
Context (pushed popped : list msg) (nH nT : nat).
Context (I : inv q k sh pp vp cp vc pushed popped nH nT).

Let R := i_ring _ _ _ _ _ _ _ _ _ _ _ I.

(** The newest messages are the current positions. *)
Lemma newest_head : exists w, sh_head sh !! newest Head sh = Some (u64 (Z.of_nat nH), w).
Proof.
  pose proof (i_hlen _ _ _ _ _ _ _ _ _ _ _ I) as Hl. unfold newest. simpl. rewrite Hl.
  destruct (lookup_lt_is_Some_2 (sh_head sh) (S nH - 1)) as [[x w] E]; [lia|].
  destruct (hk_val _ _ _ _ _ _ _ (i_hh _ _ _ _ _ _ _ _ _ _ _ I) _ _ _ E) as (-> & _).
  exists w. rewrite E. by replace (S nH - 1)%nat with nH by lia.
Qed.

Lemma newest_tail : exists w, sh_tail sh !! newest Tail sh = Some (u64 (Z.of_nat nT), w).
Proof.
  pose proof (i_tlen _ _ _ _ _ _ _ _ _ _ _ I) as Hl. unfold newest. simpl. rewrite Hl.
  destruct (lookup_lt_is_Some_2 (sh_tail sh) (S nT - 1)) as [[x w] E]; [lia|].
  destruct (hk_val _ _ _ _ _ _ _ (i_ht _ _ _ _ _ _ _ _ _ _ _ I) _ _ _ E) as (-> & _).
  exists w. rewrite E. by replace (S nT - 1)%nat with nT by lia.
Qed.

(** So a thread that runs alone loads them; its view of its own word does not change. *)
Lemma solo_p_head : NABD_LOAD_RELAXED Head (newest Head sh) sh vp = Some (u64 (Z.of_nat nH), vp).
Proof.
  destruct newest_head as [w E]. pose proof (i_vp _ _ _ _ _ _ _ _ _ _ _ I) as [Hv _ _ _ _ _].
  destruct (NABD_LOAD_RELAXED _ _ _ _) as [[x v]|] eqn:El.
  - by apply (relaxed_head _ _ _ _ _ _ _ _ _ _ _ I) in El as [-> ->].
  - exfalso. revert El. unfold NABD_LOAD_RELAXED. simpl. rewrite E. simpl.
    unfold newest. simpl. by replace (length (sh_head sh) - 1 <? v_head vp)%nat with false
      by (symmetry; apply Nat.ltb_ge; lia).
Qed.

Lemma solo_c_tail : NABD_LOAD_RELAXED Tail (newest Tail sh) sh vc = Some (u64 (Z.of_nat nT), vc).
Proof.
  destruct newest_tail as [w E]. pose proof (i_vc _ _ _ _ _ _ _ _ _ _ _ I) as [_ Hv _ _ _ _].
  destruct (NABD_LOAD_RELAXED _ _ _ _) as [[x v]|] eqn:El.
  - by apply (relaxed_tail _ _ _ _ _ _ _ _ _ _ _ I) in El as [-> ->].
  - exfalso. revert El. unfold NABD_LOAD_RELAXED. simpl. rewrite E. simpl.
    unfold newest. simpl. by replace (length (sh_tail sh) - 1 <? v_tail vc)%nat with false
      by (symmetry; apply Nat.ltb_ge; lia).
Qed.

Lemma solo_p_tail :
  exists v, NABD_LOAD_ACQUIRE Tail (newest Tail sh) sh vp = Some (u64 (Z.of_nat nT), v).
Proof.
  destruct newest_tail as [w E]. pose proof (i_vp _ _ _ _ _ _ _ _ _ _ _ I) as [_ Hv _ _ _ _].
  unfold NABD_LOAD_ACQUIRE. simpl. rewrite E. unfold newest. simpl.
  replace (length (sh_tail sh) - 1 <? v_tail vp)%nat with false
    by (symmetry; apply Nat.ltb_ge; lia). simpl. eauto.
Qed.

Lemma solo_c_head :
  exists v, NABD_LOAD_ACQUIRE Head (newest Head sh) sh vc = Some (u64 (Z.of_nat nH), v).
Proof.
  destruct newest_head as [w E]. pose proof (i_vc _ _ _ _ _ _ _ _ _ _ _ I) as [Hv _ _ _ _ _].
  unfold NABD_LOAD_ACQUIRE. simpl. rewrite E. unfold newest. simpl.
  replace (length (sh_head sh) - 1 <? v_head vc)%nat with false
    by (symmetry; apply Nat.ltb_ge; lia). simpl. eauto.
Qed.

(** The release store at the end of a call. *)
Lemma solo_store l x sh1 v :
  in_mem (sh_mem sh1) (word_off l) 8 ->
  exists sh' v', NABD_STORE_RELEASE l x sh1 v = Some (sh', v') /\
    st 8 (word_off l) x (sh_mem sh1) = Some (tt, sh_mem sh').
Proof.
  intros Hin. unfold NABD_STORE_RELEASE. rewrite st_in by done. simpl. destruct l; eauto.
Qed.

(** The end of a push and of a commit: the header, then [head]. *)
Lemma solo_publish n a d sh1 v (B : Type) (c : C B) :
  zlen (sh_mem sh1) = zlen (sh_mem sh) ->
  exists sh', p_run q (S (S n)) a sh1 (PHeader d (u64 (Z.of_nat nH))) v
              = Some (NABD_OK, Some d, sh', PIdle) /\
    (fill_header (slot_off q k (Z.of_nat nH)) (zlen d) (u64 (Z.of_nat nH));;
     st 8 OFF_HEAD (add64 (u64 (Z.of_nat nH)) 1);; c) (sh_mem sh1) = c (sh_mem sh').
Proof.
  intros Hlen. pose proof (head_slot_in q k W _ _ _ _ _ _ _ _ _ I) as Hin. pose proof (wf_slot _ _ W).
  assert (in_mem (sh_mem sh) OFF_HEAD 8) as Hh
    by (eapply ring_in_control; [exact R|..]; unfold OFF_HEAD, SIZEOF_CONTROL; lia).
  destruct (fill_header_spec (sh_mem sh1) (slot_off q k (Z.of_nat nH)) (zlen d) (u64 (Z.of_nat nH)))
    as (m2 & E2 & Hf2 & _).
  { unfold in_mem in *. unfold SIZEOF_HEADER in *. lia. }
  cbn [p_run p_newest p_next]. rewrite (get_slot_off q k W), E2. simpl.
  set (sh2 := Shared m2 _ _ _ _). destruct (solo_store Head (add64 (u64 (Z.of_nat nH)) 1) sh2 (tick_p v))
    as (sh' & v' & Es & Em).
  { unfold in_mem in *. simpl. rewrite (frame_len _ _ _ _ Hf2). lia. }
  rewrite Es. simpl. exists sh'. split; [done|]. rewrite (bind_ret _ _ _ _ _ E2).
  by rewrite (bind_ret _ _ _ _ _ Em).
Qed.

Lemma solo_push d :
  pp = PIdle ->
  exists r x sh', p_run q 6 (CallPush d) sh pp vp = Some (r, x, sh', PIdle) /\
    x = (if decide (r = NABD_OK) then Some d else None) /\
    nabd_push (Some q) (Some d) (zlen d) (sh_mem sh) = Some (err r, sh_mem sh').
Proof.
  intros Hp. rewrite Hp. pose proof (zlen_nonneg d). pose proof (wf_slot _ _ W) as Hss. unfold nabd_push.
  p_step. rewrite (max_payload_eq q k W).
  case_zb; [by exists NABD_TOOBIG, None, sh|].
  p_step. rewrite solo_p_head. cbn [mbind option_bind]. p_step.
  destruct solo_p_tail as [v ->]. cbn [mbind option_bind].
  erewrite bind_ret by (eapply ring_ld_head; exact R).
  erewrite bind_ret by (eapply ring_ld_tail; exact R).
  case_zb; [by exists NABD_FULL, None, sh|].
  p_step. rewrite !memcpy_in_all, (get_slot_off q k W).
  assert (store (slot_off q k (Z.of_nat nH) + SIZEOF_HEADER) d (sh_mem sh)
          = Some (tt, splice (sh_mem sh) (slot_off q k (Z.of_nat nH) + SIZEOF_HEADER) d)) as Hs.
  { pose proof (payload_write q k W _ _ _ _ _ _ _ _ _ 0 d I) as (Hs & _); [lia|lia|].
    by rewrite !Z.add_0_r in Hs. }
  rewrite Hs. cbn [mbind option_bind slot_write]. erewrite bind_ret by (by rewrite memcpy_in_all).
  edestruct (solo_publish 0) as (sh' & Er & Ec); cycle 1.
  - exists NABD_OK, (Some d), sh'. split; [exact Er|]. split; [done|]. rewrite Ec. done.
  - simpl. pose proof (head_slot_in q k W _ _ _ _ _ _ _ _ _ I) as (? & ? & ?).
    unfold SIZEOF_HEADER in *. apply zlen_splice; lia.
Qed.
Lemma solo_reserve p len slot :
  pp = PIdle ->
  exists r pc', p_run q 6 (CallReserve len) sh pp vp = Some (r, None, sh, pc') /\
    nabd_reserve (Some (set_reserved q 0 p)) len (Some slot) (sh_mem sh)
    = (match pc' with
       | PReserved h => Some (err r, Some (set_reserved q 1 h), Some (get_slot_payload q h), sh_mem sh)
       | _ => Some (err r, Some (set_reserved q 0 p), Some slot, sh_mem sh)
       end) /\
    (r = NABD_OK <-> pc' = PReserved (u64 (Z.of_nat nH))).
Proof.
  intros Hp. rewrite Hp. unfold nabd_reserve. cbn [q_reserved set_reserved Z.eqb negb q_slot_size].
  p_step. rewrite (max_payload_eq q k W).
  case_zb; [by exists NABD_TOOBIG, PIdle|].
  p_step. rewrite solo_p_head. cbn [mbind option_bind]. p_step.
  destruct solo_p_tail as [v ->]. cbn [mbind option_bind].
  erewrite bind_ret by (eapply ring_ld_head; exact R).
  erewrite bind_ret by (eapply ring_ld_tail; exact R).
  cbn [q_capacity set_reserved]. case_zb; [by exists NABD_FULL, PIdle|].
  by exists NABD_OK, (PReserved (u64 (Z.of_nat nH))).
Qed.

Lemma solo_commit h len :
  pp = PReserved h -> 0 <= len <= q_slot_size q - SIZEOF_HEADER ->
  exists sh', p_run q 6 (CallCommit len) sh pp vp
              = Some (NABD_OK, Some (slice (sh_mem sh) (get_slot_payload q h) len), sh', PIdle) /\
    nabd_commit (Some (set_reserved q 1 h)) len (sh_mem sh)
    = Some (err NABD_OK, Some (set_reserved q 0 h), sh_mem sh').
Proof.
  intros Hp Hlen. pose proof (i_pp _ _ _ _ _ _ _ _ _ _ _ I) as Hok. rewrite Hp in Hok |- *.
  destruct Hok as [-> _]. p_step. rewrite (max_payload_eq q k W).
  zb_false (len <? 0). zb_false (q_slot_size q - SIZEOF_HEADER <? len). cbn [orb].
  set (d := slice _ _ _). assert (zlen d = len) as Hz.
  { unfold d. rewrite (payload_off q k W). pose proof (head_slot_in q k W _ _ _ _ _ _ _ _ _ I) as (? & ? & ?).
    pose proof (wf_slot _ _ W). unfold SIZEOF_HEADER in *. apply zlen_slice; lia. }
  destruct (solo_publish 3 (CallCommit len) d sh vp _
              (mret (err NABD_OK, Some (set_reserved q 0 (u64 (Z.of_nat nH)))))) as (sh' & Er & Ec);
    [done|].
  exists sh'. split; [exact Er|]. rewrite Hz, <- (get_slot_off q k W) in Ec.
  etrans; [|exact Ec]. done.
Qed.

(** The start of a pop and of a peek: empty, or the length of the oldest message. *)
Lemma solo_find n a r :
  (drop nT pushed = [] /\ c_run q (S (S (S n))) a sh (CLoadTail r) vc = Some (NABD_EMPTY, None, sh, CIdle)) \/
  exists d ms v, drop nT pushed = d :: ms /\ holds q k (sh_mem sh) (Z.of_nat nT) d /\
    c_run q (S (S (S n))) a sh (CLoadTail r) vc
    = let (sh', v') := slot_read (cell q (u64 (Z.of_nat nT))) sh v in
      match r with
      | RPop cap => if cap <? zlen d then Some (NABD_TOOBIG, None, sh', CIdle)
                    else c_run q n a sh' (CCopy (u64 (Z.of_nat nT)) (zlen d)) v'
      | RPeek => Some (NABD_OK, None, sh', CPeeked (u64 (Z.of_nat nT)) (zlen d))
      end.
Proof.
  c_step. rewrite solo_c_tail. cbn [mbind option_bind]. c_step.
  destruct solo_c_head as [v ->]. cbn [mbind option_bind].
  rewrite (ring_is_empty _ _ _ _ _ _ R). case_bool_decide as He; [by left|right].
  assert (exists d ms, drop nT pushed = d :: ms) as (d & ms & Ed)
    by (clear R; destruct (drop nT pushed); [done|eauto]).
  pose proof (ring_first q k _ _ _ _ R d ms Ed) as Hh.
  exists d, ms, v. split; [done|]. split; [exact Hh|].
  c_step. rewrite (get_slot_off q k W), (holds_ld_length q k _ _ _ _ R _ _ Hh).
  cbn [mbind option_bind slot_read]. by destruct r as [cap|]; [case_zb|].
Qed.

(** The end of a pop and of a release: [tail]. *)
Lemma solo_advance n a d sh1 v :
  sh_mem sh1 = sh_mem sh ->
  exists sh', c_run q (S n) a sh1 (CPublish (u64 (Z.of_nat nT)) d) v = Some (NABD_OK, Some d, sh', CIdle) /\
    st 8 OFF_TAIL (add64 (u64 (Z.of_nat nT)) 1) (sh_mem sh) = Some (tt, sh_mem sh').
Proof.
  intros Hm. assert (in_mem (sh_mem sh1) OFF_TAIL 8) as Hin.
  { rewrite Hm. eapply ring_in_control; [exact R|..]; unfold OFF_TAIL, SIZEOF_CONTROL; lia. }
  c_step. destruct (solo_store Tail (add64 (u64 (Z.of_nat nT)) 1) sh1 v Hin) as (sh' & v' & -> & Em).
  rewrite Hm in Em. simpl. eauto.
Qed.

Lemma solo_pop dst :
  cp = CIdle ->
  exists r x sh' len, c_run q 6 (CallPop (zlen dst)) sh cp vc = Some (r, x, sh', CIdle) /\
    nabd_pop (Some q) (Some dst) (Some (zlen dst)) (sh_mem sh)
    = Some (err r, Some (match x with Some d => splice dst 0 d | None => dst end), Some len,
            sh_mem sh') /\
    match x with Some d => r = NABD_OK /\ len = zlen d | None => r <> NABD_OK end.
Proof.
  intros Hc. rewrite Hc. unfold nabd_pop. c_step.
  erewrite bind_ret by (eapply ring_ld_tail; exact R).
  erewrite bind_ret by (eapply ring_ld_head; exact R).
  rewrite (ring_is_empty _ _ _ _ _ _ R).
  destruct (solo_find 2 (CallPop (zlen dst)) (RPop (zlen dst))) as [[He ->]|(d & ms & v & Hd & Hh & ->)].
  { rewrite He. by exists NABD_EMPTY, None, sh, (zlen dst). }
  rewrite Hd. cbn [slot_read]. rewrite bool_decide_eq_false_2 by done. cbv zeta.
  rewrite (get_slot_off q k W). erewrite bind_ret by (eapply holds_ld_length; [exact R|exact Hh]).
  case_zb; [by eexists NABD_TOOBIG, None, _, _|].
  erewrite bind_ret by (eapply holds_memcpy; [exact R|exact Hh|done]).
  c_step. rewrite (get_slot_off q k W). cbn [sh_mem].
  pose proof (h_fits _ _ _ _ _ Hh). pose proof (zlen_nonneg d).
  rewrite load_in; [|apply (ring_in_slot q k _ _ _ _ R (Z.of_nat nT)); unfold SIZEOF_HEADER in *; lia].
  rewrite (h_data _ _ _ _ _ Hh). cbn [mbind option_bind slot_read].
  edestruct (solo_advance 0 (CallPop (zlen dst)) d) as (sh' & -> & Em); cycle 1.
  - rewrite (bind_ret _ _ _ _ _ Em). by exists NABD_OK, (Some d), sh', (zlen d).
  - done.
Qed.

Lemma solo_peek data len :
  cp = CIdle ->
  exists r sh' pc', c_run q 6 CallPeek sh cp vc = Some (r, None, sh', pc') /\ sh_mem sh' = sh_mem sh /\
    nabd_peek (Some q) (Some data) (Some len) (sh_mem sh)
    = (match pc' with
       | CPeeked t n => Some (err r, Some (get_slot_payload q t), Some n, sh_mem sh)
       | _ => Some (err r, Some data, Some len, sh_mem sh)
       end) /\
    (r = NABD_OK <-> pc' <> CIdle).
Proof.
  intros Hc. rewrite Hc. unfold nabd_peek. c_step.
  erewrite bind_ret by (eapply ring_ld_tail; exact R).
  erewrite bind_ret by (eapply ring_ld_head; exact R).
  rewrite (ring_is_empty _ _ _ _ _ _ R).
  destruct (solo_find 2 CallPeek RPeek) as [[He ->]|(d & ms & v & Hd & Hh & ->)].
  { rewrite He. by exists NABD_EMPTY, sh, CIdle. }
  rewrite Hd. rewrite bool_decide_eq_false_2 by done. cbv zeta. cbn [slot_read].
  unfold get_slot_header. rewrite (get_slot_off q k W).
  erewrite bind_ret by (eapply holds_ld_length; [exact R|exact Hh]).
  by eexists NABD_OK, _, (CPeeked (u64 (Z.of_nat nT)) (zlen d)).
Qed.

Lemma solo_release t n :
  cp = CPeeked t n ->
  exists d sh', c_run q 6 CallRelease sh cp vc = Some (NABD_OK, Some d, sh', CIdle) /\
    d = slice (sh_mem sh) (get_slot_payload q t) n /\
    nabd_release (Some q) (sh_mem sh) = Some (err NABD_OK, sh_mem sh').
Proof.
  intros Hc. rewrite Hc. unfold nabd_release. c_step. c_step.
  rewrite solo_c_tail. cbn [mbind option_bind].
  erewrite bind_ret by (eapply ring_ld_tail; exact R).
  edestruct (solo_advance 3 CallRelease) as (sh' & -> & Em); [done|].
  rewrite (bind_ret _ _ _ _ _ Em). eauto.
Qed.
End Solo.

(** Messages shorter than 2^16 bytes are kept whole. *)
Lemma map_kept ds : Forall (fun d => zlen d < 2 ^ 16) ds -> map kept ds = ds.
Proof.
  induction 1 as [|d ds Hd _ IH]; simpl; [done|]. rewrite IH. f_equal. unfold kept.
  pose proof (zlen_nonneg d). rewrite u16_small by lia. apply take_ge. unfold zlen. lia.
Qed.

(** ** The theorems *)

(** C1: race freedom.  Starting from an empty queue, whatever the interleaving of a
    producer that pushes or writes in place and a consumer that pops or reads in place,
    and however stale the relaxed and acquire loads are, no slot is accessed by one
    thread without every conflicting access of the other happening before it: the
    acquire/release pairs on [head] and [tail] are enough. *)
Theorem spsc_race_free q k m s :
  ring q k 0 0 [] m -> reachable q m s ->
  p_race q (st_sh s) (st_pp s) (st_pv s) = false /\ c_race q (st_sh s) (st_cp s) (st_cv s) = false.
Proof.
  intros R Hr. pose proof (r_wf _ _ _ _ _ _ R) as W.
  destruct (reachable_inv q k W m s R Hr) as (nH & nT & I).
  split; [by eapply inv_p_no_race|by eapply inv_c_no_race].
Qed.

(** C2: FIFO order and bounded occupancy under concurrency.  In every reachable state
    the messages popped or released are, in order and byte for byte, the first messages
    pushed or committed (of a message of 2^16 bytes or more, what the 16-bit length in
    the header keeps), and the messages in flight are at most the capacity: nothing is
    lost, duplicated, reordered, torn or overwritten. *)
Theorem spsc_fifo q k m s :
  ring q k 0 0 [] m -> reachable q m s ->
  st_popped s `prefix_of` map kept (st_pushed s) /\
  zlen (st_pushed s) - zlen (st_popped s) <= q_capacity q /\
  (Forall (fun d => zlen d < 2 ^ 16) (st_pushed s) -> st_popped s `prefix_of` st_pushed s).
Proof.
  intros R Hr. pose proof (r_wf _ _ _ _ _ _ R) as W.
  destruct (reachable_inv q k W m s R Hr) as (nH & nT & I).
  pose proof (inv_order q k _ _ _ _ _ _ _ _ _ I) as Ho.
  rewrite (i_popped _ _ _ _ _ _ _ _ _ _ _ I), (wf_cap _ _ W).
  pose proof (i_nH _ _ _ _ _ _ _ _ _ _ _ I) as HnH. rewrite length_map in HnH.
  split_and!; [apply prefix_take| |intros Hs; rewrite (map_kept _ Hs); apply prefix_take].
  unfold zlen. rewrite length_take, length_map. lia.
Qed.

(** C3: the shared memory always holds the queue.  In every reachable state, in the
    middle of any call, the bytes of the mapping satisfy the representation invariant
    of the ring with exactly the messages pushed and not yet popped: a third process
    that attaches, diagnoses or measures the queue at any moment finds a well-formed
    FIFO. *)
Theorem spsc_memory_invariant q k m s :
  ring q k 0 0 [] m -> reachable q m s ->
  ring q k (zlen (st_pushed s)) (zlen (st_popped s))
       (drop (length (st_popped s)) (map kept (st_pushed s))) (sh_mem (st_sh s)).
Proof.
  intros R Hr. pose proof (r_wf _ _ _ _ _ _ R) as W.
  destruct (reachable_inv q k W m s R Hr) as (nH & nT & I).
  pose proof (i_ring _ _ _ _ _ _ _ _ _ _ _ I) as R'.
  pose proof (inv_order q k _ _ _ _ _ _ _ _ _ I) as Ho.
  pose proof (i_nH _ _ _ _ _ _ _ _ _ _ _ I) as HnH. rewrite length_map in HnH.
  rewrite (i_popped _ _ _ _ _ _ _ _ _ _ _ I). unfold zlen.
  rewrite length_take, length_map, Nat.min_l, <- HnH by lia. done.
Qed.

(** C8: a peeked pointer stays valid until the release.  In every reachable state in
    which the consumer holds a pointer from [nabd_peek], whatever the producer does in
    between, every read through it shows the bytes of the oldest message not yet
    released, and the reported length is its length. *)
Theorem spsc_peek_stable q k m s t n :
  ring q k 0 0 [] m -> reachable q m s -> st_cp s = CPeeked t n ->
  exists d, map kept (st_pushed s) !! length (st_popped s) = Some d /\ n = zlen d /\
    forall a ts off bs sh pc v,
      c_next q a ts (st_sh s) (st_cp s) (st_cv s) = Some (Look off bs, sh, pc, v) ->
      bs = slice d off (zlen bs).
Proof.
  intros R Hr Hc. pose proof (r_wf _ _ _ _ _ _ R) as W.
  destruct (reachable_inv q k W m s R Hr) as (nH & nT & I). rewrite Hc in I |- *.
  pose proof (i_cp _ _ _ _ _ _ _ _ _ _ _ I) as (_ & _ & d & Hd & Hn).
  assert (length (st_popped s) = nT) as ->.
  { rewrite (i_popped _ _ _ _ _ _ _ _ _ _ _ I), length_take. apply lookup_lt_Some in Hd. lia. }
  exists d. split; [done|]. split; [done|]. intros a ts off bs sh pc v Hs.
  destruct (c_peeked_inv q k W _ _ _ _ _ _ _ _ _ _ _ _ _ _ _ _ I Hs) as [_ Hb].
  destruct (Hb off bs eq_refl) as (d' & Hd' & ?). by replace d with d' by congruence.
Qed.

(** C9: wait-freedom.  In every reachable state each thread that is inside a call can
    take its next step, whatever the other thread is doing, and each of its own steps
    lowers a rank that starts at 5; the call returns with the step that reaches rank 0:
    every call returns after at most six steps of its own. *)
Theorem spsc_wait_free q k m s :
  ring q k 0 0 [] m -> reachable q m s ->
  (p_rest (st_pp s) = false -> forall a,
     (exists ts r, p_next q a ts (st_sh s) (st_pp s) (st_pv s) = Some r) /\
     forall ts e sh pc v, p_next q a ts (st_sh s) (st_pp s) (st_pv s) = Some (e, sh, pc, v) ->
       (p_rank pc < p_rank (st_pp s) <= 5)%nat /\
       p_rest pc = match e with Ret _ _ => true | _ => false end) /\
  (c_rest (st_cp s) = false -> forall a,
     (exists ts r, c_next q a ts (st_sh s) (st_cp s) (st_cv s) = Some r) /\
     forall ts e sh pc v, c_next q a ts (st_sh s) (st_cp s) (st_cv s) = Some (e, sh, pc, v) ->
       (c_rank pc < c_rank (st_cp s) <= 5)%nat /\
       c_rest pc = match e with Ret _ _ => true | _ => false end).
Proof.
  intros R Hr. pose proof (r_wf _ _ _ _ _ _ R) as W.
  destruct (reachable_inv q k W m s R Hr) as (nH & nT & I). split; intros Hp a.
  - split; [by eapply p_progress|]. intros ts e sh pc v Hs.
    destruct (p_step_rank _ _ _ _ _ _ _ _ _ _ Hp Hs). split; [split; [done|]|done].
    destruct (st_pp s); simpl; lia.
  - split; [by eapply c_progress|]. intros ts e sh pc v Hs.
    destruct (c_step_rank _ _ _ _ _ _ _ _ _ _ Hp Hs). split; [split; [done|]|done].
    destruct (st_cp s); simpl; lia.
Qed.

(** C6: the thread models are the functions.  In every reachable state, a producer that
    starts a call and runs alone does exactly what [nabd_push] of Queue.v does to the
    memory, with the same return code; likewise the consumer and [nabd_pop], with the
    bytes written to the caller's buffer.  Six steps always suffice. *)
Theorem spsc_threads_are_the_functions q k m s d dst :
  ring q k 0 0 [] m -> reachable q m s ->
  (st_pp s = PIdle -> exists r x sh',
     p_run q 6 (CallPush d) (st_sh s) (st_pp s) (st_pv s) = Some (r, x, sh', PIdle) /\
     x = (if decide (r = NABD_OK) then Some d else None) /\
     nabd_push (Some q) (Some d) (zlen d) (sh_mem (st_sh s)) = Some (err r, sh_mem sh')) /\
  (st_cp s = CIdle -> exists r x sh' len,
     c_run q 6 (CallPop (zlen dst)) (st_sh s) (st_cp s) (st_cv s) = Some (r, x, sh', CIdle) /\
     nabd_pop (Some q) (Some dst) (Some (zlen dst)) (sh_mem (st_sh s))
     = Some (err r, Some (match x with Some y => splice dst 0 y | None => dst end), Some len,
             sh_mem sh') /\
     match x with Some y => r = NABD_OK /\ len = zlen y | None => r <> NABD_OK end).
Proof.
  intros R Hr. pose proof (r_wf _ _ _ _ _ _ R) as W.
  destruct (reachable_inv q k W m s R Hr) as (nH & nT & I).
  split; [by eapply solo_push|by eapply solo_pop].
Qed.

(** C7: the zero-copy calls too.  Run alone from any reachable state, [nabd_reserve]
    returns the same code, handle and pointer as the thread model; [nabd_commit]
    publishes the first [len] bytes of the reserved payload; [nabd_peek] returns the
    pointer and length the thread holds afterwards; [nabd_release] leaves the same
    memory. *)
Theorem spsc_zero_copy_threads_are_the_functions q k m s len p slot data :
  ring q k 0 0 [] m -> reachable q m s ->
  (st_pp s = PIdle -> exists r pc',
     p_run q 6 (CallReserve len) (st_sh s) (st_pp s) (st_pv s) = Some (r, None, st_sh s, pc') /\
     nabd_reserve (Some (set_reserved q 0 p)) len (Some slot) (sh_mem (st_sh s))
     = match pc' with
       | PReserved h => Some (err r, Some (set_reserved q 1 h), Some (get_slot_payload q h), sh_mem (st_sh s))
       | _ => Some (err r, Some (set_reserved q 0 p), Some slot, sh_mem (st_sh s))
       end) /\
  (forall h, st_pp s = PReserved h -> 0 <= len <= q_slot_size q - SIZEOF_HEADER -> exists sh',
     p_run q 6 (CallCommit len) (st_sh s) (st_pp s) (st_pv s)
     = Some (NABD_OK, Some (slice (sh_mem (st_sh s)) (get_slot_payload q h) len), sh', PIdle) /\
     nabd_commit (Some (set_reserved q 1 h)) len (sh_mem (st_sh s))
     = Some (err NABD_OK, Some (set_reserved q 0 h), sh_mem sh')) /\
  (st_cp s = CIdle -> exists r sh' pc',
     c_run q 6 CallPeek (st_sh s) (st_cp s) (st_cv s) = Some (r, None, sh', pc') /\
     sh_mem sh' = sh_mem (st_sh s) /\
     nabd_peek (Some q) (Some data) (Some len) (sh_mem (st_sh s))
     = match pc' with
       | CPeeked t n => Some (err r, Some (get_slot_payload q t), Some n, sh_mem (st_sh s))
       | _ => Some (err r, Some data, Some len, sh_mem (st_sh s))
       end) /\
  (forall t n, st_cp s = CPeeked t n -> exists sh',
     c_run q 6 CallRelease (st_sh s) (st_cp s) (st_cv s)
     = Some (NABD_OK, Some (slice (sh_mem (st_sh s)) (get_slot_payload q t) n), sh', CIdle) /\
     nabd_release (Some q) (sh_mem (st_sh s)) = Some (err NABD_OK, sh_mem sh')).
Proof.
  intros R Hr. pose proof (r_wf _ _ _ _ _ _ R) as W.
  destruct (reachable_inv q k W m s R Hr) as (nH & nT & I). split_and!.
  - intros Hp. edestruct (solo_reserve q k W _ _ _ _ _ _ _ _ _ I p len slot Hp)
      as (r & pc' & E1 & E2 & _). eauto.
  - intros h Hp Hlen. by eapply solo_commit.
  - intros Hc. edestruct (solo_peek q k W _ _ _ _ _ _ _ _ _ I data len Hc)
      as (r & sh' & pc' & E1 & E2 & E3 & _). eauto 10.
  - intros t n Hc. edestruct (solo_release q k _ _ _ _ _ _ _ _ _ I t n Hc)
      as (d & sh' & E1 & -> & E2). eauto.
Qed.

(** ** Witnesses *)

Lemma spsc_race_free_witness :
  st_pp sample_state = PPayload msg_b 2 /\ st_cp sample_state = CCopy 1 2 /\
  p_race sample_q (st_sh sample_state) (st_pp sample_state) (st_pv sample_state) = false /\
  c_race sample_q (st_sh sample_state) (st_cp sample_state) (st_cv sample_state) = false.
Proof.
  split; [vm_compute; reflexivity|]. split; [vm_compute; reflexivity|].
  exact (spsc_race_free sample_q 1 sample_mem sample_state sample_ring sample_state_reachable).
Defined.

Lemma spsc_fifo_witness :
  st_pushed sample_state = [msg_a; msg_b] /\ st_popped sample_state = [msg_a] /\
  st_popped sample_state `prefix_of` map kept (st_pushed sample_state) /\
  zlen (st_pushed sample_state) - zlen (st_popped sample_state) <= 2 /\
  st_popped sample_state `prefix_of` st_pushed sample_state.
Proof.
  split; [vm_compute; reflexivity|]. split; [vm_compute; reflexivity|].
  destruct (spsc_fifo sample_q 1 sample_mem sample_state sample_ring sample_state_reachable)
    as (Hp & Hc & Hs). split; [exact Hp|]. split; [exact Hc|]. apply Hs.
  replace (st_pushed sample_state) with [msg_a; msg_b] by (vm_compute; reflexivity).
  repeat constructor; reflexivity.
Defined.

Lemma spsc_memory_invariant_witness :
  st_pp sample_zero_copy = PReserved 2 /\ st_cp sample_zero_copy = CPeeked 1 2 /\
  ring sample_q 1 (zlen (st_pushed sample_zero_copy)) (zlen (st_popped sample_zero_copy))
       (drop (length (st_popped sample_zero_copy)) (map kept (st_pushed sample_zero_copy)))
       (sh_mem (st_sh sample_zero_copy)).
Proof.
  split; [vm_compute; reflexivity|]. split; [vm_compute; reflexivity|].
  exact (spsc_memory_invariant sample_q 1 sample_mem _ sample_ring sample_zero_copy_reachable).
Defined.

Lemma spsc_peek_stable_witness :
  exists d, map kept (st_pushed sample_zero_copy) !! length (st_popped sample_zero_copy) = Some d /\
    2 = zlen d.
Proof.
  destruct (spsc_peek_stable sample_q 1 sample_mem sample_zero_copy 1 2 sample_ring
              sample_zero_copy_reachable) as (d & Hd & Hn & _); [vm_compute; reflexivity|].
  exists d. split; [exact Hd|exact Hn].
Defined.

Lemma spsc_wait_free_witness :
  exists ts r, p_next sample_q (CallPush []) ts (st_sh sample_state) (st_pp sample_state) (st_pv sample_state) = Some r.
Proof.
  apply (spsc_wait_free sample_q 1 sample_mem sample_state sample_ring sample_state_reachable).
  vm_compute. reflexivity.
Defined.

Lemma spsc_threads_are_the_functions_witness :
  exists r x sh', p_run sample_q 6 (CallPush msg_a) (st_sh sample_rest) (st_pp sample_rest) (st_pv sample_rest)
                  = Some (r, x, sh', PIdle) /\
    x = (if decide (r = NABD_OK) then Some msg_a else None) /\
    nabd_push (Some sample_q) (Some msg_a) 1 (sh_mem (st_sh sample_rest)) = Some (err r, sh_mem sh').
Proof.
  apply (spsc_threads_are_the_functions sample_q 1 sample_mem sample_rest msg_a []
           sample_ring sample_rest_reachable). vm_compute. reflexivity.
Defined.

Lemma spsc_zero_copy_threads_are_the_functions_witness :
  exists sh', p_run sample_q 6 (CallCommit 2) (st_sh sample_zero_copy) (st_pp sample_zero_copy) (st_pv sample_zero_copy)
    = Some (NABD_OK, Some (slice (sh_mem (st_sh sample_zero_copy)) (get_slot_payload sample_q 2) 2), sh', PIdle) /\
    nabd_commit (Some (set_reserved sample_q 1 2)) 2 (sh_mem (st_sh sample_zero_copy))
    = Some (err NABD_OK, Some (set_reserved sample_q 0 2), sh_mem sh').
Proof.
  apply (spsc_zero_copy_threads_are_the_functions sample_q 1 sample_mem sample_zero_copy 2 0 0 0
           sample_ring sample_zero_copy_reachable); [vm_compute; reflexivity|].
  vm_compute. split; discriminate.
Defined.
