(* ===== verification/SpscRefine.v ===== *)
(** * The concurrent queue refines a channel

    What the producer and the consumer of Spsc.v promise to each other, without memory,
    views or positions: a bounded channel in which each side has been told how far the
    other one was at some moment (its credit), can only learn newer values, and answers
    "full" or "empty" by its own, possibly outdated, knowledge.  Every step of the two
    threads is a step of this channel with the same event. *)

From S2P Require Import Prelude Words Pow2 Memory Layout Fifo Queue Ring Sample Spsc SpscInv SpscCorrect.
Local Open Scope Z_scope.

(** ** The channel *)

Record chan := Chan {
  ch_sent : list msg;
  ch_received : list msg;
  ch_room : nat;        (* messages the producer knows to be received *)
  ch_avail : nat        (* messages the consumer knows to be sent *)
}.

(** Messages in flight as the producer sees them. *)
Definition in_flight (c : chan) (n : nat) : Z := zlen (ch_sent c) - Z.of_nat n.

Section Chan.
Context (cap maxlen : Z).

Inductive send_step (c : chan) : evt -> chan -> Prop :=
  | send_quiet e :
      e = Tau \/ e = Ret NABD_TOOBIG None \/ e = Ret NABD_INVALID None -> send_step c e c
  | send_finds_room n e :               (* of nabd_push, or the return of nabd_reserve *)
      (ch_room c <= n <= length (ch_received c))%nat -> in_flight c n < cap ->
      e = Tau \/ e = Ret NABD_OK None ->
      send_step c e (Chan (ch_sent c) (ch_received c) n (ch_avail c))
  | send_full n :
      (ch_room c <= n <= length (ch_received c))%nat -> in_flight c n = cap ->
      send_step c (Ret NABD_FULL None) (Chan (ch_sent c) (ch_received c) n (ch_avail c))
  | send_message d :
      in_flight c (ch_room c) < cap -> zlen d <= maxlen ->
      send_step c (Ret NABD_OK (Some d))
        (Chan (ch_sent c ++ [kept d]) (ch_received c) (ch_room c) (ch_avail c)).

Inductive receive_step (c : chan) : evt -> chan -> Prop :=
  | receive_quiet : receive_step c Tau c
  | receive_finds_message n :
      (ch_avail c <= n <= length (ch_sent c))%nat -> (length (ch_received c) < n)%nat ->
      receive_step c Tau (Chan (ch_sent c) (ch_received c) (ch_room c) n)
  | receive_empty n :
      (ch_avail c <= n <= length (ch_sent c))%nat -> length (ch_received c) = n ->
      receive_step c (Ret NABD_EMPTY None) (Chan (ch_sent c) (ch_received c) (ch_room c) n)
  | receive_too_big :
      (length (ch_received c) < ch_avail c)%nat -> receive_step c (Ret NABD_TOOBIG None) c
  | receive_peeked :
      (length (ch_received c) < ch_avail c)%nat -> receive_step c (Ret NABD_OK None) c
  | receive_look d off bs :
      ch_sent c !! length (ch_received c) = Some d -> bs = slice d off (zlen bs) ->
      receive_step c (Look off bs) c
  | receive_message d :
      (length (ch_received c) < ch_avail c)%nat ->
      ch_sent c !! length (ch_received c) = Some d ->
      receive_step c (Ret NABD_OK (Some d))
        (Chan (ch_sent c) (ch_received c ++ [d]) (ch_room c) (ch_avail c)).

End Chan.

(** The channel a state of the two threads stands for. *)
Definition channel (s : state) : chan :=
  Chan (map kept (st_pushed s)) (st_popped s) (v_tail (st_pv s)) (v_head (st_cv s)).

(** ** The simulation *)

Section Simulation.
Context (q : nabd) (k : Z) (W : wf_handle q k).

Lemma channel_popped s nH nT :
  inv q k (st_sh s) (st_pp s) (st_pv s) (st_cp s) (st_cv s) (map kept (st_pushed s)) (st_popped s) nH nT ->
  length (st_popped s) = nT /\ zlen (map kept (st_pushed s)) = Z.of_nat nH.
Proof.
  intros I. pose proof (inv_order q k _ _ _ _ _ _ _ _ _ I). pose proof (i_nH _ _ _ _ _ _ _ _ _ _ _ I).
  rewrite (i_popped _ _ _ _ _ _ _ _ _ _ _ I), length_take. unfold zlen. lia.
Qed.

Lemma producer_simulated s nH nT a ts e sh pc v :
  inv q k (st_sh s) (st_pp s) (st_pv s) (st_cp s) (st_cv s) (map kept (st_pushed s)) (st_popped s) nH nT ->
  p_next q a ts (st_sh s) (st_pp s) (st_pv s) = Some (e, sh, pc, v) ->
  send_step (q_capacity q) (q_slot_size q - SIZEOF_HEADER) (channel s) e
    (channel (State sh pc v (st_cp s) (st_cv s) (st_pushed s ++ moved e) (st_popped s))).
Proof.
  intros I. destruct (channel_popped s nH nT I) as [HnT HnH].
  pose proof (i_pp _ _ _ _ _ _ _ _ _ _ _ I) as Hpp. pose proof (i_pt _ _ _ _ _ _ _ _ _ _ _ I) as Hpt.
  assert (forall e' v', moved e' = [] -> v_tail v' = v_tail (st_pv s) ->
    channel (State sh pc v' (st_cp s) (st_cv s) (st_pushed s ++ moved e') (st_popped s)) = channel s) as Hsame
    by (intros e' v' Hm Hv; unfold channel; simpl; by rewrite Hm, Hv, app_nil_r).
  unfold p_next. destruct (st_pp s) as [|h|r|r h|d h|d h|d h]; cbn [ppc_ok] in Hpp.
  - destruct a; try done; try case_zb; intros [= <- <- <- <-]; rewrite Hsame by done; constructor; auto.
  - destruct a; try done.
    + intros [= <- <- <- <-]; rewrite Hsame by done; constructor; auto.
    + case_zb; [done|]. destruct (store _ _ _) as [[[] m]|]; [|done].
      intros [= <- <- <- <-]; rewrite Hsame by done; constructor; auto.
    + case_zb; [done|]. intros [= <- <- <- <-]; rewrite Hsame by done; constructor; auto.
  - destruct (NABD_LOAD_RELAXED _ _ _ _) as [[x v']|] eqn:E; [|done].
    apply (relaxed_head q k _ _ _ _ _ _ _ _ _ I) in E as [-> ->].
    intros [= <- <- <- <-]; rewrite Hsame by done; constructor; auto.
  - destruct (NABD_LOAD_ACQUIRE _ _ _ _) as [[x v']|] eqn:E; [|done].
    apply (acquire_tail q k _ _ _ _ _ _ _ _ _ I) in E as (-> & Hts & Ht & _). destruct Hpp as [_ ->].
    cbn [mbind option_bind]. rewrite inv_distance with (1 := W) (2 := I) by lia. pose proof (wf_cap _ _ W).
    assert (in_flight (channel s) ts = Z.of_nat nH - Z.of_nat ts) as Hfl
      by (unfold in_flight; cbn [channel ch_sent]; by rewrite HnH).
    case_zb.
    + intros [= <- <- <- <-]. unfold channel at 2. cbn. rewrite Ht, app_nil_r.
      apply (send_full _ _ (channel s) ts); [cbn; lia|lia].
    + destruct r; intros [= <- <- <- <-]; unfold channel at 2; cbn; rewrite Ht, app_nil_r;
        (apply (send_finds_room _ _ (channel s) ts); [cbn; lia|lia|auto]).
  - destruct (memcpy_in _ _ _ _) as [[[] m]|]; [|done].
    intros [= <- <- <- <-]; rewrite Hsame by done; constructor; auto.
  - destruct (fill_header _ _ _ _) as [[[] m]|]; [|done].
    intros [= <- <- <- <-]; rewrite Hsame by done; constructor; auto.
  - destruct Hpp as (-> & Hroom & Hd & _). rewrite (release_store q k _ _ _ _ _ _ _ _ _ I). cbn.
    intros [= <- <- <- <-]. unfold channel at 2. cbn. rewrite map_app.
    apply (send_message _ _ (channel s) d); [|done].
    unfold in_flight. cbn [channel ch_sent ch_room]. rewrite HnH, (wf_cap _ _ W). lia.
Qed.

(** The consumer: with a message in sight, what it has seen is within what was sent. *)
Lemma consumer_simulated s nH nT a ts e sh pc v :
  inv q k (st_sh s) (st_pp s) (st_pv s) (st_cp s) (st_cv s) (map kept (st_pushed s)) (st_popped s) nH nT ->
  c_next q a ts (st_sh s) (st_cp s) (st_cv s) = Some (e, sh, pc, v) ->
  receive_step (channel s) e
    (channel (State sh (st_pp s) (st_pv s) pc v (st_pushed s) (st_popped s ++ moved e))).
Proof.
  intros I. destruct (channel_popped s nH nT I) as [HnT HnH]. unfold zlen in HnH.
  pose proof (i_cp _ _ _ _ _ _ _ _ _ _ _ I) as Hcp.
  assert (forall e' sh' pc' v', moved e' = [] -> v_head v' = v_head (st_cv s) ->
    channel (State sh' (st_pp s) (st_pv s) pc' v' (st_pushed s) (st_popped s ++ moved e')) = channel s)
    as Hsame by (intros e' sh' pc' v' Hm Hv; unfold channel; simpl; by rewrite Hm, Hv, app_nil_r).
  destruct (st_cp s) as [|t n|r|r t|r t|t n|d|t d] eqn:Hc; cbn [cpc_ok] in Hcp.
  - simpl. destruct a; try done; intros [= <- <- <- <-]; rewrite Hsame by done; constructor.
  - destruct Hcp as (-> & Hlt & d & Hd & ->). intros Hs.
    destruct (c_peeked_inv q k W _ _ _ _ _ _ _ _ _ _ _ _ _ _ _ _ I Hs) as [_ Hlook].
    revert Hs. simpl. destruct a; try (intros [= <- <- <- <-]; rewrite Hsame by done; constructor).
    case_match; [done|]. destruct (load _ _ _) as [[bs m]|]; [|done].
    intros [= <- <- <- <-]. rewrite Hsame by done. destruct (Hlook _ _ eq_refl) as (d' & Hd' & Hb).
    apply (receive_look _ d'); [by cbn; rewrite HnT|done].
  - simpl. destruct (NABD_LOAD_RELAXED _ _ _ _) as [[x v']|] eqn:E; [|done].
    apply (relaxed_tail q k _ _ _ _ _ _ _ _ _ I) in E as [-> ->].
    intros [= <- <- <- <-]; rewrite Hsame by done; constructor.
  - simpl. destruct (NABD_LOAD_ACQUIRE _ _ _ _) as [[x v']|] eqn:E; [|done].
    apply (acquire_head q k _ _ _ _ _ _ _ _ _ I) in E as (-> & Hts & Hh & _). subst t.
    cbn [mbind option_bind]. rewrite inv_empty with (1 := W) (2 := I) by lia.
    pose proof (i_ch _ _ _ _ _ _ _ _ _ _ _ I).
    case_zb; intros [= <- <- <- <-]; unfold channel at 2; cbn; rewrite Hh, app_nil_r;
      [apply (receive_empty (channel s) ts)|apply (receive_finds_message (channel s) ts)]; cbn; lia.
  - destruct Hcp as [_ Hlt]. simpl. destruct (ld _ _ _) as [[n m]|]; [|done]. simpl.
    destruct r; [case_zb|]; intros [= <- <- <- <-]; rewrite Hsame by done; constructor; cbn; lia.
  - simpl. destruct (load _ _ _) as [[d m]|]; [|done].
    intros [= <- <- <- <-]; rewrite Hsame by done; constructor.
  - simpl. destruct (NABD_LOAD_RELAXED _ _ _ _) as [[x v']|] eqn:E; [|done].
    apply (relaxed_tail q k _ _ _ _ _ _ _ _ _ I) in E as [-> ->].
    intros [= <- <- <- <-]; rewrite Hsame by done; constructor.
  - destruct Hcp as (-> & Hlt & Hd). simpl. rewrite (release_store q k _ _ _ _ _ _ _ _ _ I). simpl.
    intros [= <- <- <- <-]. apply (receive_message (channel s) d); cbn; [lia|by rewrite HnT].
Qed.
End Simulation.

(** ** The theorems *)

(** C4: the two threads refine a bounded channel.  In every reachable state, a step of the
    producer or of the consumer, at any point of any call and with any stale load, is a
    step of the abstract channel with the same return code and the same bytes: full is
    answered only when the producer's knowledge of the consumer leaves no room, empty
    only when the consumer has received all it knows to be sent, a message is received
    exactly as it was sent and in its turn, and what each side knows of the other only
    grows. *)
Theorem spsc_refines_channel q k m s :
  ring q k 0 0 [] m -> reachable q m s ->
  channel (initial m) = Chan [] [] 0 0 /\
  (forall a ts e sh pc v,
     p_next q a ts (st_sh s) (st_pp s) (st_pv s) = Some (e, sh, pc, v) ->
     send_step (q_capacity q) (q_slot_size q - SIZEOF_HEADER) (channel s) e
       (channel (State sh pc v (st_cp s) (st_cv s) (st_pushed s ++ moved e) (st_popped s)))) /\
  (forall a ts e sh pc v,
     c_next q a ts (st_sh s) (st_cp s) (st_cv s) = Some (e, sh, pc, v) ->
     receive_step (channel s) e
       (channel (State sh (st_pp s) (st_pv s) pc v (st_pushed s) (st_popped s ++ moved e)))).
Proof.
  intros R Hr. pose proof (r_wf _ _ _ _ _ _ R) as W.
  destruct (reachable_inv q k W m s R Hr) as (nH & nT & I). split_and!; [done|..].
  - intros a ts e sh pc v. by apply (producer_simulated q k W s nH nT).
  - intros a ts e sh pc v. by apply (consumer_simulated q k W s nH nT).
Qed.

(** The consumer's copy of the second message, while the producer writes the third. *)
Lemma spsc_refines_channel_witness :
  channel sample_state = Chan [msg_a; msg_b] [msg_a] 1 2 /\
  exists s', step sample_q sample_state s' /\ receive_step (channel sample_state) Tau (channel s').
Proof.
  split; [vm_compute; reflexivity|].
  destruct (c_next sample_q CallPeek 0 (st_sh sample_state) (st_cp sample_state) (st_cv sample_state))
    as [[[[e sh] pc] v]|] eqn:E; [|vm_compute in E; discriminate].
  assert (e = Tau) as -> by (vm_compute in E; congruence).
  eexists. split; [exact (step_c sample_q sample_state CallPeek 0 Tau sh pc v E)|].
  exact (proj2 (proj2 (spsc_refines_channel sample_q 1 sample_mem sample_state sample_ring
           sample_state_reachable)) CallPeek 0%nat Tau sh pc v E).
Defined.
