(* ===== verification/Backpressure.v ===== *)
(** * Blocking producers and fill level (src/backpressure.c)

    [nabd_push_wait] and [nabd_push_backoff] retry a non-blocking push while other
    processes use the queue.  Their loops run over any state with a push operation:
    [env i] is what the other processes do to the state before attempt [i] of the loop,
    [clock i] the [i]-th reading of the monotonic clock (seconds, nanoseconds).  The
    loops have fuel; a loop that runs out of it returns [Running], so that a result is
    never confused with a cut.  Signed overflow is undefined ([None]).  The sleeps the
    code asks for are returned in order. *)

From S2P Require Import Prelude Words Pow2 Memory Layout Fifo Queue.
Local Open Scope Z_scope.

(** ** Time *)

(** [ts.tv_sec * 1000000 + ts.tv_nsec / 1000] in [int64_t] *)
Definition get_time_us (ts : Z * Z) : option Z :=
  let t := fst ts * 1000000 + Z.quot (snd ts) 1000 in
  if int64_ok (fst ts * 1000000) && int64_ok t then Some t else None.

(** The [timespec] passed to [nanosleep], if any. *)
Definition sleep_us (us : Z) : option (Z * Z) :=
  if us <=? 0 then None else Some (Z.quot us 1000000, Z.rem us 1000000 * 1000).

(** ** The retry loops *)

(** The end of a call: its result, final state and sleeps, or still running. *)
Inductive outcome (S : Type) :=
  | Done (ret : Z) (s : S) (sleeps : list (Z * Z))
  | Running (s : S) (sleeps : list (Z * Z)).
Arguments Done {S}.
Arguments Running {S}.

Section Loops.
Context {S : Type}.
Context (push : S -> option (Z * S)).     (* one non-blocking push *)
Context (env : nat -> S -> S).            (* the other processes, before attempt [i] *)
Context (clock : nat -> Z * Z).           (* the clock *)

Definition MAX_SPINS : Z := 100.
Definition SLEEP_US : Z := 10.
Definition MAX_DELAY : Z := 100000.

Definition add_sleep (us : Z) (sleeps : list (Z * Z)) : list (Z * Z) :=
  match sleep_us us with Some ts => sleeps ++ [ts] | None => sleeps end.

(** The [while (1)] of [nabd_push_wait], from attempt [i]. *)
Fixpoint wait_loop (fuel : nat) (timeout_us deadline : Z) (i : nat) (spin_count : Z) (s : S)
    (sleeps : list (Z * Z)) : option (outcome S) :=
  match fuel with
  | 0%nat => Some (Running s sleeps)
  | Datatypes.S fuel =>
      '(ret, s) ← push (env i s);
      if negb (ret =? NABD_FULL) then Some (Done ret s sleeps) else
      expired ← (if 0 <? timeout_us
                 then now ← get_time_us (clock (Datatypes.S i)); Some (deadline <=? now)
                 else Some false);
      if (expired : bool) then Some (Done NABD_FULL s sleeps)
      else if spin_count <? MAX_SPINS then
        wait_loop fuel timeout_us deadline (Datatypes.S i) (spin_count + 1) s sleeps
      else
        let sleep_time := SLEEP_US * Z.quot spin_count MAX_SPINS in
        let sleep_time := if 1000 <? sleep_time then 1000 else sleep_time in
        wait_loop fuel timeout_us deadline (Datatypes.S i) spin_count s (add_sleep sleep_time sleeps)
  end.

Definition push_wait (fuel : nat) (timeout_us : Z) (s : S) : option (outcome S) :=
  '(ret, s) ← push s;
  if negb (ret =? NABD_FULL) then Some (Done ret s []) else
  if timeout_us =? 0 then Some (Done NABD_FULL s []) else
  deadline ← (if 0 <? timeout_us
              then now ← get_time_us (clock 0);
                   if int64_ok (now + timeout_us) then Some (now + timeout_us) else None
              else Some 0);
  wait_loop fuel timeout_us deadline 0 0 s [].

(** The [while (1)] of [nabd_push_backoff]. *)
Fixpoint backoff_loop (fuel : nat) (max_retries : Z) (i : nat) (delay retries : Z) (s : S)
    (sleeps : list (Z * Z)) : option (outcome S) :=
  match fuel with
  | 0%nat => Some (Running s sleeps)
  | Datatypes.S fuel =>
      '(ret, s) ← push (env i s);
      if negb (ret =? NABD_FULL) then Some (Done ret s sleeps) else
      if negb (int_ok (retries + 1)) then None else
      let retries := retries + 1 in
      if (0 <? max_retries) && (max_retries <=? retries) then Some (Done NABD_FULL s sleeps) else
      let sleeps := add_sleep delay sleeps in
      if negb (int_ok (delay * 2)) then None else
      let delay := delay * 2 in
      let delay := if MAX_DELAY <? delay then MAX_DELAY else delay in
      backoff_loop fuel max_retries (Datatypes.S i) delay retries s sleeps
  end.

Definition push_backoff (fuel : nat) (max_retries base_delay_us : Z) (s : S) : option (outcome S) :=
  let delay := if 0 <? base_delay_us then base_delay_us else 1 in
  backoff_loop fuel max_retries 0 delay 0 s [].

End Loops.

(** ** The functions *)

Definition nabd_push_wait (env : nat -> mem -> mem) (clock : nat -> Z * Z) (fuel : nat)
    (q : option nabd) (data : option (list byte)) (len timeout_us : Z) (m : mem)
    : option (outcome mem) :=
  match q, data with
  | Some _, Some _ => push_wait (nabd_push q data len) env clock fuel timeout_us m
  | _, _ => Some (Done NABD_INVALID m [])
  end.

Definition nabd_push_backoff (env : nat -> mem -> mem) (fuel : nat) (q : option nabd)
    (data : option (list byte)) (len max_retries base_delay_us : Z) (m : mem)
    : option (outcome mem) :=
  match q, data with
  | Some _, Some _ => push_backoff (nabd_push q data len) env fuel max_retries base_delay_us m
  | _, _ => Some (Done NABD_INVALID m [])
  end.

(** [stats] is uninitialised before the call; [nabd_stats] sets every field. *)
Definition nabd_fill_level (q : option nabd) : C Z :=
  match q with
  | None => mret (NABD_INVALID : Z)
  | Some _ =>
      '(r, stats) ← nabd_stats q (Some (NabdStats 0 0 0 0 0));
      if negb (r =? NABD_OK) then mret (NABD_INVALID : Z) else
      match stats with
      | None => undef
      | Some stats =>
          if s_capacity stats =? 0 then mret 0
          else mret (to_int (mul64 (s_used stats) 100 / s_capacity stats))
      end
  end.

Definition nabd_is_pressured (q : option nabd) (threshold : Z) : C Z :=
  level ← nabd_fill_level q;
  mret (if level <? 0 then level else if threshold <=? level then 1 else 0).

(** [nabd_backpressure_config_t]; the callbacks and their context are opaque. *)
Record nabd_backpressure_config_t := BackpressureConfig {
  high_watermark : Z; low_watermark : Z;
  on_high : option Z; on_low : option Z; user_data : option Z
}.

Definition nabd_set_backpressure (q : option nabd) (config : option nabd_backpressure_config_t) : Z :=
  match q, config with
  | Some _, Some c =>
      if (high_watermark c <? 0) || (100 <? high_watermark c) then NABD_INVALID
      else if (low_watermark c <? 0) || (100 <? low_watermark c) then NABD_INVALID
      else if high_watermark c <=? low_watermark c then NABD_INVALID
      else NABD_OK
  | _, _ => NABD_INVALID
  end.

Arguments nabd_fill_level : simpl never.

(** ** Specification *)

(** A consumer has removed some of the oldest messages. *)
Definition drains (f f' : fifo) : Prop :=
  ff_bound f' = ff_bound f /\ ff_maxlen f' = ff_maxlen f /\ ff_msgs f' `suffix_of` ff_msgs f.

#[export] Instance drains_preorder : PreOrder drains.
Proof.
  split; [done|]. intros f1 f2 f3 (H1 & H2 & H3) (H4 & H5 & H6).
  split_and!; [congruence..|]. by etrans.
Qed.

(** The delay before retry [n + 1]. *)
Definition backoff_delay (base : Z) (n : nat) : Z :=
  if (n =? 0)%nat then base else Z.min (base * 2 ^ Z.of_nat n) MAX_DELAY.

Section Contract.
Context {S : Type} (repr : fifo -> S -> Prop) (push : msg -> S -> option (Z * S)).
Context {HP : PushContract repr push}.
Context (env : nat -> S -> S) (clock : nat -> Z * Z).

(** The other processes only consume. *)
Definition env_drains : Prop :=
  forall i f s, repr f s -> exists f', drains f f' /\ repr f' (env i s).

Context (E : env_drains).
Context (d : msg) (Hd : zlen d < 2 ^ 16).

(** What a call that returned [r] in state [s] has done to FIFO [f]. *)
Definition pushed_once (f : fifo) (r : Z) (s : S) : Prop :=
  exists f', drains f f' /\
  ((r = NABD_OK /\ zlen (ff_msgs f') < ff_bound f' /\ zlen d <= ff_maxlen f' /\
    repr (with_msgs f' (ff_msgs f' ++ [d])) s) \/
   (r = NABD_FULL /\ ff_bound f' <= zlen (ff_msgs f') /\ repr f' s) \/
   (r = NABD_TOOBIG /\ ff_maxlen f' < zlen d /\ repr f' s)).

(** One attempt. *)
Lemma push_attempt f s :
  repr f s -> exists r s', push d s = Some (r, s') /\ pushed_once f r s' /\
  (r = NABD_FULL -> repr f s').
Proof.
  intros Hr. destruct (push_contract f s d Hr Hd) as (s' & Hp & Hr'). unfold spec_push in *.
  eexists _, s'. split; [exact Hp|]. unfold pushed_once.
  destruct (ff_maxlen f <? zlen d) eqn:E1; zbool; simpl in *.
  { split; [|done]. exists f. split; [done|]. auto. }
  destruct (ff_bound f <=? zlen (ff_msgs f)) eqn:E2; zbool; simpl in *.
  { split; [|done]. exists f. split; [done|]. auto. }
  split; [|done]. exists f. split; [done|]. auto.
Qed.

Lemma pushed_once_drains f f' r s : drains f f' -> pushed_once f' r s -> pushed_once f r s.
Proof. intros Hfd (f2 & Hd2 & H). exists f2. split; [by etrans|done]. Qed.

(** An attempt after the others have moved. *)
Lemma env_attempt i f s :
  repr f s -> exists r s', push d (env i s) = Some (r, s') /\ pushed_once f r s' /\
  (r = NABD_FULL -> exists f', drains f f' /\ repr f' s').
Proof.
  intros Hr. destruct (E i f s Hr) as (f1 & Hdr & Hr1).
  destruct (push_attempt f1 _ Hr1) as (r & s' & Hp & Ho & Hfull).
  exists r, s'. split; [done|]. split; [by eapply pushed_once_drains|]. eauto.
Qed.

(** The result of a finished call. *)
Definition finished (f : fifo) (o : outcome S) : Prop :=
  match o with
  | Done r s _ => pushed_once f r s
  | Running s _ => exists f', drains f f' /\ repr f' s
  end.

Lemma finished_drains f f' o : drains f f' -> finished f' o -> finished f o.
Proof.
  intros Hdr. destruct o; simpl; [by apply pushed_once_drains|].
  intros (f2 & H1 & H2). exists f2. split; [by etrans|done].
Qed.

Lemma wait_loop_safe fuel t dl i spin s sleeps f o :
  repr f s -> wait_loop (push d) env clock fuel t dl i spin s sleeps = Some o -> finished f o.
Proof.
  revert i spin s sleeps f. induction fuel as [|fuel IH]; simpl; intros i spin s sleeps f Hr.
  { intros [= <-]. simpl. by exists f. }
  destruct (env_attempt i f s Hr) as (r & s' & Hp & Ho & Hfull). rewrite Hp. simpl.
  destruct (r =? -2) eqn:Er; simpl; zbool.
  2: { by intros [= <-]. }
  destruct (Hfull Er) as (f' & Hdr & Hr'). subst r.
  destruct (0 <? t); simpl.
  - destruct (get_time_us (clock (Datatypes.S i))) as [now|]; simpl; [|done].
    destruct (dl <=? now); [by intros [= <-]|].
    case_match; intros Ho2; eapply finished_drains; eauto.
  - case_match; intros Ho2; eapply finished_drains; eauto.
Qed.

Lemma push_wait_safe fuel t s f o :
  repr f s -> push_wait (push d) env clock fuel t s = Some o -> finished f o.
Proof.
  intros Hr. unfold push_wait. destruct (push_attempt f s Hr) as (r & s' & Hp & Ho & Hfull).
  rewrite Hp. simpl. destruct (r =? -2) eqn:Er; simpl; zbool; [|by intros [= <-]].
  specialize (Hfull Er). subst r. destruct (t =? 0); [by intros [= <-]|].
  destruct (0 <? t); simpl.
  - destruct (get_time_us (clock 0)) as [now|]; simpl; [|done].
    destruct (int64_ok (now + t)); simpl; [|done]. by apply wait_loop_safe.
  - by apply wait_loop_safe.
Qed.

Lemma backoff_loop_safe fuel mr i delay retries s sleeps f o :
  repr f s -> backoff_loop (push d) env fuel mr i delay retries s sleeps = Some o -> finished f o.
Proof.
  revert i delay retries s sleeps f.
  induction fuel as [|fuel IH]; simpl; intros i delay retries s sleeps f Hr.
  { intros [= <-]. simpl. by exists f. }
  destruct (env_attempt i f s Hr) as (r & s' & Hp & Ho & Hfull). rewrite Hp. simpl.
  destruct (r =? -2) eqn:Er; simpl; zbool; [|by intros [= <-]].
  destruct (Hfull Er) as (f' & Hdr & Hr'). subst r.
  destruct (negb (int_ok (retries + 1))); [done|]. case_match; [by intros [= <-]|].
  destruct (negb (int_ok (delay * 2))); [done|]. intros Ho2. eapply finished_drains; eauto.
Qed.

End Contract.
