(* ===== verification/BackpressureCorrect.v ===== *)
(** * Blocking producers: correctness

    The theorems about Backpressure.v.  The retry loops are treated for every
    environment that only consumes messages, against the push contract of Fifo.v that
    [nabd_push] satisfies. *)

From S2P Require Import Prelude Words Pow2 Memory Layout Fifo Queue Ring Sample Backpressure.
Local Open Scope Z_scope.

(** ** Definitions *)

Definition sleeps_of {S} (o : outcome S) : list (Z * Z) :=
  match o with Done _ _ l => l | Running _ l => l end.

Definition is_done {S} (o : outcome S) : Prop :=
  match o with Done _ _ _ => True | Running _ _ => False end.

(** A sample environment: another process pops one message before attempt 2. *)
Definition sample_env (i : nat) (m : mem) : mem :=
  if (i =? 2)%nat
  then after (nabd_pop (Some sample_q) (Some (replicate 8 Byte.x00)) (Some 8)) m else m.

(** A clock that advances one second per reading, up to 1000. *)
Definition sample_clock (i : nat) : Z * Z := (Z.of_nat (i `min` 1000), 0).

(** ** Lemmas on the loops *)

Section Loops.
Context {S : Type} (push : S -> option (Z * S)) (env : nat -> S -> S) (clock : nat -> Z * Z).

Lemma wait_loop_sleeps fuel t dl i spin s sleeps o :
  spin <= MAX_SPINS -> Forall (eq (0, 10000)) sleeps ->
  wait_loop push env clock fuel t dl i spin s sleeps = Some o -> Forall (eq (0, 10000)) (sleeps_of o).
Proof.
  revert i spin s sleeps. induction fuel as [|fuel IH]; simpl; intros i spin s sleeps Hs Hf.
  { by intros [= <-]. }
  destruct (push (env i s)) as [[r s']|]; simpl; [|done].
  destruct (negb (r =? -2)); [by intros [= <-]|].
  destruct (if 0 <? t then _ else _) as [[]|]; simpl; [by intros [= <-]| |done].
  unfold MAX_SPINS in *. case_zb.
  - apply IH; [lia|done].
  - assert (spin = 100) as -> by lia. apply IH; [done|]. apply Forall_app. split; [done|].
    by repeat constructor.
Qed.

(** Invariant-based progress: [P] holds before every attempt. *)
Context (P : S -> Prop).
Context (Hstep : forall i s, P s -> exists r s', push (env i s) = Some (r, s') /\ (r = NABD_FULL -> P s')).

Lemma wait_loop_ends fuel t dl i spin s sleeps n now :
  0 < t -> P s -> (forall j, (j < n)%nat -> is_Some (get_time_us (clock (Datatypes.S j)))) ->
  get_time_us (clock (Datatypes.S n)) = Some now -> dl <= now -> (i <= n < i + fuel)%nat ->
  exists r s' l, wait_loop push env clock fuel t dl i spin s sleeps = Some (Done r s' l).
Proof.
  intros Ht Hp Hclk Hn Hnow. revert i spin s sleeps Hp.
  induction fuel as [|fuel IH]; intros i spin s sleeps Hp Hi; [lia|]. cbn [wait_loop].
  destruct (Hstep i s Hp) as (r & s' & -> & Hfull). cbn [mbind option_bind].
  destruct (r =? NABD_FULL) eqn:Er; cbn [negb]; zbool; [|by eexists r, s', sleeps].
  zb_true (0 <? t). destruct (decide (i = n)) as [->|Hne].
  { rewrite Hn. cbn [mbind option_bind]. zb_true (dl <=? now). by eexists _, s', sleeps. }
  destruct (Hclk i) as [now' Hn']; [lia|]. rewrite Hn'. cbn [mbind option_bind].
  destruct (dl <=? now'); [by eexists _, s', sleeps|].
  case_match; (apply IH; [by apply Hfull|lia]).
Qed.

(** While every reading is before the deadline the loop goes on, or returns something
    else than [NABD_FULL]. *)
Lemma wait_loop_before fuel t dl i spin s sleeps n :
  0 < t -> P s ->
  (forall j, (j < n)%nat -> exists now, get_time_us (clock (Datatypes.S j)) = Some now /\ now < dl) ->
  (i + fuel <= n)%nat ->
  exists o, wait_loop push env clock fuel t dl i spin s sleeps = Some o /\
    forall s' l, o <> Done NABD_FULL s' l.
Proof.
  intros Ht Hp Hclk. revert i spin s sleeps Hp.
  induction fuel as [|fuel IH]; intros i spin s sleeps Hp Hi; [by eexists|]. cbn [wait_loop].
  destruct (Hstep i s Hp) as (r & s' & -> & Hfull). cbn [mbind option_bind].
  destruct (r =? NABD_FULL) eqn:Er; cbn [negb]; zbool.
  2: { eexists. split; [done|]. by intros ? ? [= -> _ _]. }
  zb_true (0 <? t). destruct (Hclk i) as (now & -> & Hnow); [lia|]. cbn [mbind option_bind].
  zb_false (dl <=? now). case_match; (apply IH; [by apply Hfull|lia]).
Qed.

(** With no timeout the loop goes on until an attempt is not refused. *)
Lemma wait_loop_until fuel dl i spin s sleeps t n :
  t <= 0 -> P s -> (i <= n < i + fuel)%nat ->
  (forall s, P s -> exists r s', push (env n s) = Some (r, s') /\ r <> NABD_FULL) ->
  exists r s' l, wait_loop push env clock fuel t dl i spin s sleeps = Some (Done r s' l) /\ r <> NABD_FULL.
Proof.
  intros Ht Hp Hi Hn. revert i spin s sleeps Hp Hi.
  induction fuel as [|fuel IH]; intros i spin s sleeps Hp Hi; [lia|]. cbn [wait_loop].
  destruct (Hstep i s Hp) as (r & s' & Hpush & Hfull). rewrite Hpush. cbn [mbind option_bind].
  destruct (r =? NABD_FULL) eqn:Er; cbn [negb]; zbool.
  2: { by eexists r, s', sleeps. }
  zb_false (0 <? t). cbn [mbind option_bind].
  assert (i <> n) by (intros ->; destruct (Hn s Hp) as (r2 & s2 & H2 & ?); rewrite H2 in Hpush; congruence).
  case_match; (apply IH; [by apply Hfull|lia]).
Qed.

Lemma backoff_loop_ends fuel mr i delay retries s sleeps :
  P s -> 0 < mr < 2 ^ 31 -> 0 <= retries < mr -> mr - retries <= Z.of_nat fuel -> 0 < delay < 2 ^ 30 ->
  exists r s' l, backoff_loop push env fuel mr i delay retries s sleeps = Some (Done r s' l).
Proof.
  intros Hp Hm Hr Hf. revert i delay retries s sleeps Hp Hr Hf.
  induction fuel as [|fuel IH]; intros i delay retries s sleeps Hp Hr Hf Hd; [lia|]. cbn [backoff_loop].
  destruct (Hstep i s Hp) as (r & s' & -> & Hfull). cbn [mbind option_bind].
  destruct (r =? NABD_FULL) eqn:Er; cbn [negb]; zbool; [|by eexists r, s', sleeps].
  rewrite (proj2 (int_ok_spec (retries + 1))) by lia. simpl negb. cbv iota.
  zb_true (0 <? mr). simpl. case_zb; [by eexists _, s', sleeps|].
  rewrite (proj2 (int_ok_spec (delay * 2))) by lia. simpl.
  apply IH; [by apply Hfull|lia|lia|]. unfold MAX_DELAY. case_zb; lia.
Qed.

(** When every attempt is refused the delays are the specified ones. *)
Lemma backoff_loop_delays fuel mr k base s sleeps :
  (forall i s, P s -> exists s', push (env i s) = Some (NABD_FULL : Z, s') /\ P s') -> P s ->
  0 < base < 2 ^ 30 -> Z.of_nat k < mr < 2 ^ 31 -> (Z.to_nat mr - k <= fuel)%nat ->
  exists s', backoff_loop push env fuel mr k (backoff_delay base k) (Z.of_nat k) s sleeps
  = Some (Done NABD_FULL s' (sleeps ++ omap (fun i => sleep_us (backoff_delay base i))
                                         (seq k (Z.to_nat mr - k - 1)))).
Proof.
  intros Hfull Hp Hb. revert k s sleeps Hp.
  induction fuel as [|fuel IH]; intros k s sleeps Hp Hm Hf; [lia|]. cbn [backoff_loop].
  destruct (Hfull k s Hp) as (s' & -> & Hp'). cbn [mbind option_bind]. rewrite Z.eqb_refl. cbn [negb].
  rewrite (proj2 (int_ok_spec (Z.of_nat k + 1))) by lia. cbn [negb]. zb_true (0 <? mr). cbn [andb].
  case_zb.
  { replace (Z.to_nat mr - k - 1)%nat with 0%nat by lia. exists s'. by rewrite app_nil_r. }
  assert (0 < backoff_delay base k < 2 ^ 30) as Hdel.
  { unfold backoff_delay, MAX_DELAY. destruct (k =? 0)%nat; [lia|].
    pose proof (Z.pow_pos_nonneg 2 (Z.of_nat k)). nia. }
  rewrite (proj2 (int_ok_spec (backoff_delay base k * 2))) by lia. cbn [negb]. cbv zeta.
  assert ((if MAX_DELAY <? backoff_delay base k * 2 then MAX_DELAY else backoff_delay base k * 2)
          = backoff_delay base (Datatypes.S k)) as ->.
  { unfold backoff_delay, MAX_DELAY. rewrite Nat2Z.inj_succ, Z.pow_succ_r by lia. simpl.
    pose proof (Z.pow_pos_nonneg 2 (Z.of_nat k)). destruct (Nat.eqb_spec k 0) as [->|].
    - simpl. case_zb; lia.
    - case_zb; lia. }
  replace (Z.of_nat k + 1) with (Z.of_nat (Datatypes.S k)) by lia.
  destruct (IH (Datatypes.S k) s' (add_sleep (backoff_delay base k) sleeps) Hp') as (s2 & E2); [lia|lia|].
  exists s2. rewrite E2. do 2 f_equal.
  replace (Z.to_nat mr - k - 1)%nat with (Datatypes.S (Z.to_nat mr - Datatypes.S k - 1)) by lia.
  simpl. unfold add_sleep. destruct (sleep_us (backoff_delay base k)); simpl; [|done].
  by rewrite <- app_assoc.
Qed.
End Loops.

(** ** The push of one message as an attempt *)

Section Attempts.
Context (q : nabd) (d : msg) (env : nat -> mem -> mem).
Context (Hd : zlen d < 2 ^ 16) (E : env_drains (is_fifo q) env).

Definition some_fifo (m : mem) : Prop := exists f, is_fifo q f m.

Lemma fifo_attempt i m :
  some_fifo m -> exists r m', nabd_push (Some q) (Some d) (zlen d) (env i m) = Some (r, m') /\
  (r = NABD_FULL -> some_fifo m').
Proof.
  intros (f & Hf).
  destruct (env_attempt (is_fifo q) (fun d => nabd_push (Some q) (Some d) (zlen d)) env E d Hd i f m Hf)
    as (r & m' & Hp & _ & Hfull).
  exists r, m'. split; [done|]. intros Hr. destruct (Hfull Hr) as (f' & _ & Hf'). by exists f'.
Qed.
End Attempts.

(** ** [nabd_push_wait] *)

(** C33: a blocking push is one push.  Whatever the other processes consume meanwhile, a
    call of [nabd_push_wait] that returns [NABD_OK] has appended the message exactly
    once, behind the messages that were there; with [NABD_FULL] or [NABD_TOOBIG] it
    has appended nothing, and the queue was full, respectively the message does not
    fit a slot.  While the call still runs nothing has been appended. *)
Theorem push_wait_pushes_once q f m d env clock fuel timeout_us o :
  is_fifo q f m -> zlen d < 2 ^ 16 -> env_drains (is_fifo q) env ->
  nabd_push_wait env clock fuel (Some q) (Some d) (zlen d) timeout_us m = Some o ->
  finished (is_fifo q) d f o.
Proof.
  intros Hf Hd He.
  by apply (push_wait_safe (is_fifo q) (fun d => nabd_push (Some q) (Some d) (zlen d)) env clock He d Hd).
Qed.

(** C34: the timeout is kept.  With a positive timeout and no overflow of the deadline, let
    reading [n] be the first one, after the attempts, that is at or past the deadline.
    However many attempts the call has made before that reading (fuel up to [n]), it has
    not returned [NABD_FULL]: it is still trying or has returned another result.  With
    that reading (fuel greater than [n]) it has returned. *)
Theorem push_wait_timeout q f m d env clock fuel timeout_us now0 n now :
  is_fifo q f m -> zlen d < 2 ^ 16 -> env_drains (is_fifo q) env -> 0 < timeout_us ->
  get_time_us (clock 0%nat) = Some now0 -> int64_ok (now0 + timeout_us) = true ->
  (forall j, (j < n)%nat -> exists before,
     get_time_us (clock (S j)) = Some before /\ before < now0 + timeout_us) ->
  get_time_us (clock (S n)) = Some now -> now0 + timeout_us <= now ->
  exists o,
    nabd_push_wait env clock fuel (Some q) (Some d) (zlen d) timeout_us m = Some o /\
    ((fuel <= n)%nat -> forall m' sleeps, o <> Done NABD_FULL m' sleeps) /\
    ((n < fuel)%nat -> is_done o).
Proof.
  intros Hf Hd He Ht H0 Hok Hbefore Hn Hle. unfold nabd_push_wait, push_wait.
  destruct (push_attempt (is_fifo q) (fun d => nabd_push (Some q) (Some d) (zlen d)) d Hd f m Hf)
    as (r & m1 & Hp & _ & Hfull).
  rewrite Hp. cbn [mbind option_bind]. destruct (r =? NABD_FULL) eqn:Er; cbn [negb]; zbool.
  2: { eexists. split; [done|]. split; [|done]. by intros _ ? ? [= -> _ _]. }
  zb_false (timeout_us =? 0). zb_true (0 <? timeout_us). rewrite H0. cbn [mbind option_bind].
  rewrite Hok. cbn [mbind option_bind].
  assert (some_fifo q m1) as Hm1 by (exists f; by apply Hfull).
  pose proof (fifo_attempt q d env Hd He) as Hstep. destruct (decide (fuel <= n)%nat) as [Hfu|Hfu].
  - destruct (wait_loop_before _ env clock (some_fifo q) Hstep fuel timeout_us (now0 + timeout_us) 0 0 m1 [] n)
      as (o & E & Ho); [done..|lia|]. exists o. split; [done|]. split; [done|lia].
  - destruct (wait_loop_ends _ env clock (some_fifo q) Hstep fuel timeout_us (now0 + timeout_us) 0 0 m1 [] n now)
      as (r2 & m2 & l & E); [done..| |done|done|lia|].
    { intros j Hj. destruct (Hbefore j Hj) as (b & -> & _). by eexists. }
    eexists. split; [exact E|]. split; [lia|done].
Qed.

(** C35: an infinite wait ends when there is room.  With a negative timeout, if before
    attempt [n] a consumer leaves room in the queue, the call returns by then, and not
    with [NABD_FULL]. *)
Theorem push_wait_infinite q f m d env clock fuel timeout_us n :
  is_fifo q f m -> zlen d < 2 ^ 16 -> env_drains (is_fifo q) env -> timeout_us < 0 -> (n < fuel)%nat ->
  (forall f' m', is_fifo q f' m' ->
     exists f2, is_fifo q f2 (env n m') /\ zlen (ff_msgs f2) < ff_bound f2) ->
  exists r m' sleeps,
    nabd_push_wait env clock fuel (Some q) (Some d) (zlen d) timeout_us m = Some (Done r m' sleeps) /\
    r <> NABD_FULL.
Proof.
  intros Hf Hd He Ht Hfuel Hroom. unfold nabd_push_wait, push_wait.
  destruct (push_attempt (is_fifo q) (fun d => nabd_push (Some q) (Some d) (zlen d)) d Hd f m Hf)
    as (r & m1 & Hp & _ & Hfull).
  rewrite Hp. cbn [mbind option_bind]. destruct (r =? NABD_FULL) eqn:Er; cbn [negb]; zbool.
  2: { by exists r, m1, []. }
  zb_false (timeout_us =? 0). zb_false (0 <? timeout_us). cbn [mbind option_bind].
  apply (wait_loop_until _ env clock (some_fifo q) (fifo_attempt q d env Hd He) fuel 0 0 0 m1 [] timeout_us n);
    [lia|exists f; by apply Hfull|lia|].
  intros m2 (f2 & Hf2). destruct (Hroom f2 m2 Hf2) as (f3 & Hf3 & Hr3).
  destruct (push_refines q f3 _ d Hf3 Hd) as (m3 & Hp3 & _).
  eexists _, m3. split; [exact Hp3|]. unfold spec_push.
  zb_false (ff_bound f3 <=? zlen (ff_msgs f3)). by case_zb.
Qed.

(** The wait does not back off.  Every sleep of [nabd_push_wait] lasts exactly ten
    microseconds, however long it waits: the spin counter stops at its maximum, so the
    factor that should grow is always one. *)
Theorem push_wait_never_backs_off env clock fuel q data len timeout_us m o :
  nabd_push_wait env clock fuel q data len timeout_us m = Some o ->
  Forall (eq (0, 10000)) (sleeps_of o).
Proof.
  unfold nabd_push_wait. destruct q as [q|], data as [d|]; try (by intros [= <-]; constructor).
  unfold push_wait. destruct (nabd_push _ _ _ m) as [[r m1]|]; simpl; [|done].
  destruct (negb (r =? -2)); [by intros [= <-]; constructor|].
  destruct (timeout_us =? 0); [by intros [= <-]; constructor|].
  match goal with |- context [wait_loop _ _ _ _ _ _ _ _ _ _] =>
    destruct (if 0 <? timeout_us then _ else _) as [dl|]; simpl; [|done] end.
  apply wait_loop_sleeps; [done|constructor].
Qed.

(** ** [nabd_push_backoff] *)

(** The retry limit.  With [n] retries allowed (and a base delay below 2^30) the call
    always returns after at most [n] attempts, having pushed the message exactly once
    or not at all. *)
Theorem push_backoff_bounded q f m d env max_retries base :
  is_fifo q f m -> zlen d < 2 ^ 16 -> env_drains (is_fifo q) env ->
  0 < max_retries < 2 ^ 31 -> base < 2 ^ 30 ->
  exists r m' sleeps,
    nabd_push_backoff env (Z.to_nat max_retries) (Some q) (Some d) (zlen d) max_retries base m
    = Some (Done r m' sleeps) /\
  pushed_once (is_fifo q) d f r m'.
Proof.
  intros Hf Hd He Hm Hb.
  destruct (backoff_loop_ends (nabd_push (Some q) (Some d) (zlen d)) env (some_fifo q)
              (fifo_attempt q d env Hd He) (Z.to_nat max_retries) max_retries 0
              (if 0 <? base then base else 1) 0 m []) as (r & m' & l & E);
    [by exists f|done|lia|lia|case_zb; lia|].
  exists r, m', l. split; [exact E|].
  exact (backoff_loop_safe (is_fifo q) (fun d => nabd_push (Some q) (Some d) (zlen d)) env He d Hd
           _ _ _ _ _ _ _ f _ Hf E).
Qed.

(** The delays.  While nobody consumes from the full queue the call makes exactly
    [n] attempts and sleeps [n - 1] times: first the base delay, then twice as long
    each time up to 100 ms. *)
Theorem push_backoff_delays q f m d env max_retries base :
  is_fifo q f m -> zlen d <= ff_maxlen f -> zlen (ff_msgs f) = ff_bound f ->
  (forall i m', is_fifo q f m' -> is_fifo q f (env i m')) ->
  0 < max_retries < 2 ^ 31 -> 0 < base < 2 ^ 30 ->
  exists m',
    nabd_push_backoff env (Z.to_nat max_retries) (Some q) (Some d) (zlen d) max_retries base m
    = Some (Done NABD_FULL m'
              (omap (fun i => sleep_us (backoff_delay base i)) (seq 0 (Z.to_nat max_retries - 1)))).
Proof.
  intros Hf Hd Hfull He Hm Hb. unfold nabd_push_backoff, push_backoff. zb_true (0 <? base).
  destruct (backoff_loop_delays (nabd_push (Some q) (Some d) (zlen d)) env (is_fifo q f)
              (Z.to_nat max_retries) max_retries 0 base m []) as (m' & E); try done; [|lia|].
  - intros i m1 H1. exists (env i m1). specialize (He i m1 H1). split; [|done].
    destruct He as (k & H & T & R & Hcap & Hx). apply (push_full q k H T _ _ R); lia.
  - exists m'. rewrite Nat.sub_0_r in E. exact E.
Qed.

(** A base delay of 2^30 microseconds or more overflows [int] when it is doubled:
    with the queue full and a second attempt allowed the behaviour is undefined. *)
Theorem push_backoff_overflow q f m d env fuel max_retries base :
  is_fifo q f m -> zlen d <= ff_maxlen f -> zlen (ff_msgs f) = ff_bound f ->
  (forall i m', is_fifo q f m' -> is_fifo q f (env i m')) ->
  max_retries <> 1 -> 2 ^ 30 <= base < 2 ^ 31 ->
  nabd_push_backoff env (S fuel) (Some q) (Some d) (zlen d) max_retries base m = None.
Proof.
  intros Hf Hd Hfull He Hm Hb. unfold nabd_push_backoff, push_backoff. zb_true (0 <? base).
  cbn [backoff_loop]. destruct (He 0%nat m Hf) as (k & H & T & R & Hcap & Hx).
  rewrite (push_full q k H T _ _ R) by lia. cbn [mbind option_bind]. rewrite Z.eqb_refl. cbn [negb].
  rewrite (proj2 (int_ok_spec (0 + 1))) by lia. cbn [negb].
  assert ((0 <? max_retries) && (max_retries <=? 0 + 1) = false) as ->.
  { destruct (Z.ltb_spec 0 max_retries); [|done]. simpl. apply Z.leb_gt. lia. }
  destruct (int_ok (base * 2)) eqn:Eo; [|done]. apply int_ok_spec in Eo. lia.
Qed.

(** ** Fill level and configuration *)

(** The fill level is the percentage of slots in use, rounded down, between 0 and
    100, and [nabd_is_pressured] compares it with the threshold; for every queue whose
    capacity times 100 fits 64 bits. *)
Theorem fill_level_percentage q f m threshold :
  is_fifo q f m -> ff_bound f * 100 < 2 ^ 64 ->
  let level := zlen (ff_msgs f) * 100 / ff_bound f in
  nabd_fill_level (Some q) m = Some (level, m) /\ 0 <= level <= 100 /\
  nabd_is_pressured (Some q) threshold m = Some (if threshold <=? level then 1 else 0, m).
Proof.
  intros (k & H & T & R & Hb & Hx) Hbig level. pose proof (r_wf _ _ _ _ _ _ R) as W.
  pose proof (r_count _ _ _ _ _ _ R). pose proof (r_bound _ _ _ _ _ _ R).
  pose proof (wf_cap _ _ W). pose proof (pow_k _ _ W). pose proof (zlen_nonneg (ff_msgs f)).
  destruct (percentage (zlen (ff_msgs f)) (ff_bound f)) as [Hpct Hl]; [lia..|]. fold level in Hpct, Hl.
  assert (nabd_fill_level (Some q) m = Some (level, m)) as E.
  { unfold nabd_fill_level.
    erewrite bind_ret by (by apply (stats_run q k H T _ m R)). cbn.
    zb_false (q_capacity q =? 0). rewrite <- Hb. by rewrite Hpct. }
  split; [done|]. split; [done|]. unfold nabd_is_pressured.
  rewrite (bind_ret _ _ _ _ _ E). by zb_false (level <? 0).
Qed.

(** A configuration is accepted exactly when both watermarks are percentages and the
    low one is below the high one. *)
Theorem set_backpressure_validates q c :
  nabd_set_backpressure (Some q) (Some c) = NABD_OK <->
  0 <= low_watermark c /\ low_watermark c < high_watermark c /\ high_watermark c <= 100.
Proof.
  unfold nabd_set_backpressure. repeat case_zb; simpl; split; try done; try lia; intros;
    repeat match goal with H : (_ || _) = true |- _ => apply orb_true_iff in H as [H|H]; zbool end; lia.
Qed.

(** ** Witnesses *)

Lemma sample_pop f m :
  is_fifo sample_q f m ->
  is_fifo sample_q (with_msgs f (tail (ff_msgs f))) (sample_env 2 m).
Proof.
  intros Hf. unfold sample_env. cbn [Nat.eqb]. unfold after.
  destruct (pop_refines sample_q f m (replicate 8 Byte.x00) Hf) as (m' & Hf' & E).
  change (zlen (replicate 8 Byte.x00)) with 8 in *. rewrite E. revert Hf'. unfold spec_pop.
  destruct f as [b x ms]. destruct ms as [|d ms]; simpl; [done|].
  destruct Hf as (k & H & T & R & _). simpl in R.
  pose proof (h_fits _ _ _ _ _ (ring_first _ _ _ _ _ _ R d ms eq_refl)) as Hfit.
  simpl in Hfit. unfold SIZEOF_HEADER in Hfit. by zb_false (8 <? zlen d).
Qed.

Lemma sample_env_drains : env_drains (is_fifo sample_q) sample_env.
Proof.
  intros i f m Hf. destruct (decide (i = 2%nat)) as [->|Hi].
  - eexists. split; [|by apply sample_pop]. split_and!; [done..|].
    destruct (ff_msgs f) as [|d ms]; [done|]. by exists [d].
  - exists f. split; [done|]. unfold sample_env. by rewrite (proj2 (Nat.eqb_neq i 2) Hi).
Qed.

Lemma id_drains : env_drains (is_fifo sample_q) (fun _ m => m).
Proof. intros i f m Hf. by exists f. Qed.

Lemma push_wait_pushes_once_witness :
  exists r m' l, nabd_push_wait sample_env sample_clock 5 (Some sample_q) (Some msg_b) 2 100000000 sample_two
    = Some (Done r m' l) /\ r = 0 /\ pushed_once (is_fifo sample_q) msg_b (sample_fifo [msg_a; msg_b]) r m'.
Proof.
  destruct (nabd_push_wait sample_env sample_clock 5 (Some sample_q) (Some msg_b) 2 100000000 sample_two)
    as [[r m' l|m' l]|] eqn:E; [|vm_compute in E; discriminate E..].
  exists r, m', l. split; [done|]. split; [vm_compute in E; congruence|].
  exact (push_wait_pushes_once sample_q (sample_fifo [msg_a; msg_b]) sample_two msg_b sample_env
           sample_clock 5 100000000 _ sample_is_fifo_two eq_refl sample_env_drains E).
Defined.

(** Three seconds on a full queue: the readings at one and two seconds are before the
    deadline, the third is the deadline; the call is still running after two attempts in
    the loop and has given up after three. *)
Lemma push_wait_timeout_witness :
  let wait fuel := nabd_push_wait (fun _ m => m) sample_clock fuel (Some sample_q) (Some msg_b) 2 3000000 sample_two in
  (exists o, wait 2%nat = Some o /\ forall m' l, o <> Done NABD_FULL m' l) /\
  (exists o, wait 3%nat = Some o /\ is_done o) /\
  match wait 3%nat with Some (Done r _ sleeps) => r = NABD_FULL /\ sleeps = [] | _ => False end.
Proof.
  intros wait.
  assert (forall j, (j < 2)%nat -> exists before,
    get_time_us (sample_clock (S j)) = Some before /\ before < 0 + 3000000) as Hb.
  { intros [|[|j]] Hj; [exists 1000000|exists 2000000|lia]; (split; [vm_compute; reflexivity|lia]). }
  pose proof (fun fuel => push_wait_timeout sample_q (sample_fifo [msg_a; msg_b]) sample_two msg_b (fun _ m => m)
              sample_clock fuel 3000000 0 2 3000000 sample_is_fifo_two eq_refl id_drains ltac:(lia)
              eq_refl eq_refl Hb eq_refl ltac:(lia)) as Hw.
  split; [|split].
  - destruct (Hw 2%nat) as (o & E & H & _). exists o. split; [exact E|apply H; lia].
  - destruct (Hw 3%nat) as (o & E & _ & H). exists o. split; [exact E|apply H; lia].
  - vm_compute. split; reflexivity.
Defined.

Lemma push_wait_infinite_witness :
  exists r m' sleeps,
    nabd_push_wait sample_env sample_clock 5 (Some sample_q) (Some msg_b) 2 (-1) sample_two
    = Some (Done r m' sleeps) /\ r <> NABD_FULL.
Proof.
  apply (push_wait_infinite sample_q (sample_fifo [msg_a; msg_b]) sample_two msg_b sample_env
           sample_clock 5 (-1) 2 sample_is_fifo_two eq_refl sample_env_drains); [lia|lia|].
  intros f m Hf. eexists. split; [by apply sample_pop|]. simpl.
  destruct Hf as (k & H & T & R & Hb & _). rewrite Hb. simpl.
  pose proof (r_count _ _ _ _ _ _ R). pose proof (r_bound _ _ _ _ _ _ R) as Hk.
  rewrite <- (wf_cap _ _ (r_wf _ _ _ _ _ _ R)) in Hk. simpl in Hk.
  destruct (ff_msgs f); unfold zlen in *; simpl in *; lia.
Defined.

Lemma push_wait_never_backs_off_witness :
  exists o, nabd_push_wait (fun _ m => m) sample_clock 105 (Some sample_q) (Some msg_b) 2 (-1) sample_two
            = Some o /\ length (sleeps_of o) = 5%nat /\ Forall (eq (0, 10000)) (sleeps_of o).
Proof.
  destruct (nabd_push_wait (fun _ m => m) sample_clock 105 (Some sample_q) (Some msg_b) 2 (-1) sample_two)
    as [o|] eqn:E; [|vm_compute in E; discriminate E].
  exists o. split; [done|]. split; [vm_compute in E; injection E as <-; reflexivity|].
  exact (push_wait_never_backs_off (fun _ m => m) sample_clock 105 (Some sample_q) (Some msg_b) 2 (-1)
           sample_two o E).
Defined.

Lemma push_backoff_bounded_witness :
  exists r m' sleeps,
    nabd_push_backoff sample_env 4 (Some sample_q) (Some msg_b) 2 4 1000 sample_two
    = Some (Done r m' sleeps) /\ pushed_once (is_fifo sample_q) msg_b (sample_fifo [msg_a; msg_b]) r m'.
Proof.
  apply (push_backoff_bounded sample_q (sample_fifo [msg_a; msg_b]) sample_two msg_b sample_env 4 1000
           sample_is_fifo_two eq_refl sample_env_drains); lia.
Defined.

Lemma push_backoff_delays_witness :
  exists m', nabd_push_backoff (fun _ m => m) 4 (Some sample_q) (Some msg_b) 2 4 60000 sample_two
  = Some (Done (-2) m' [(0, 60000000); (0, 100000000); (0, 100000000)]).
Proof.
  apply (push_backoff_delays sample_q (sample_fifo [msg_a; msg_b]) sample_two msg_b (fun _ m => m) 4 60000
           sample_is_fifo_two); (lia || done || (vm_compute; congruence)).
Defined.

Lemma push_backoff_overflow_witness :
  nabd_push_backoff (fun _ m => m) 2 (Some sample_q) (Some msg_b) 2 0 (2 ^ 30) sample_two = None.
Proof.
  apply (push_backoff_overflow sample_q (sample_fifo [msg_a; msg_b]) sample_two msg_b (fun _ m => m) 1 0
           (2 ^ 30) sample_is_fifo_two); (lia || done || (vm_compute; congruence)).
Defined.

Lemma fill_level_percentage_witness : nabd_fill_level (Some sample_q) sample_two = Some (100, sample_two).
Proof.
  apply (fill_level_percentage sample_q (sample_fifo [msg_a; msg_b]) sample_two 80 sample_is_fifo_two).
  vm_compute. reflexivity.
Defined.
