(* ===== verification/Persistence.v ===== *)
(** * Diagnosis, recovery and checkpoints (src/persistence.c)

    [nabd_diagnose] and [nabd_recover] run over the operating system of Posix.v;
    checkpoints are forty-byte files written and read through the C library.  A file
    system is a map from paths to contents; whether [fopen] succeeds and how many
    bytes a write transfers are arguments ([io]). *)

From S2P Require Import Prelude Words Pow2 Memory Layout Fifo Queue Ring Posix Lifecycle MultiConsumer.
Local Open Scope Z_scope.

(** ** Data *)

Inductive nabd_state_t : Set :=
  | NABD_STATE_OK | NABD_STATE_EMPTY | NABD_STATE_CORRUPTED | NABD_STATE_STALE
  | NABD_STATE_INCOMPLETE | NABD_STATE_VERSION_ERR.

#[export] Instance nabd_state_eq_dec : EqDecision nabd_state_t.
Proof. solve_decision. Defined.

Record nabd_diagnostic_t := Diagnostic {
  d_state : nabd_state_t;
  d_head : Z; d_tail : Z; d_pending : Z;
  d_magic_ok : Z; d_version_ok : Z;
  d_capacity : Z; d_slot_size : Z
}.

Record nabd_checkpoint_t := Checkpoint {
  k_magic : Z; k_timestamp : Z; k_group_id : Z; k_reserved : Z; k_tail : Z; k_checksum : Z
}.

Definition NABD_CHECKPOINT_MAGIC : Z := 0x434B5054414244.
Definition SIZEOF_CHECKPOINT : Z := 40.

(** The structure as bytes: fields of 8, 8, 4, 4, 8 and 8 bytes, no padding. *)
Definition checkpoint_bytes (c : nabd_checkpoint_t) : list byte :=
  le_split 8 (k_magic c) ++ le_split 8 (k_timestamp c) ++ le_split 4 (k_group_id c) ++
  le_split 4 (k_reserved c) ++ le_split 8 (k_tail c) ++ le_split 8 (k_checksum c).

Definition checkpoint_of (bs : list byte) : nabd_checkpoint_t :=
  Checkpoint (rd 8 bs 0) (rd 8 bs 8) (rd 4 bs 16) (rd 4 bs 20) (rd 8 bs 24) (rd 8 bs 32).

(** ** Helpers *)

(** [(uint64_t)ts.tv_sec * 1000000000ULL + ts.tv_nsec] *)
Definition get_time_ns (ts : Z * Z) : Z := add64 (mul64 (u64 (fst ts)) 1000000000) (snd ts).

Definition compute_checksum (c : nabd_checkpoint_t) : Z :=
  let sum := k_magic c in
  let sum := Z.lxor sum (k_timestamp c) in
  let sum := Z.lxor sum (k_group_id c) in
  let sum := Z.lxor sum (k_tail c) in
  Z.lor (shl64 sum 13) (Z.shiftr sum 51).

(** ** Diagnosis and recovery *)

Section Operations.
Context {P : Posix}.

(** After [memset] and the first assignment. *)
Definition diag0 (st : nabd_state_t) : nabd_diagnostic_t := Diagnostic st 0 0 0 0 0 0 0.

(** [head], [tail], [capacity] and [slot_size] read, [pending] computed, the state
    classified. *)
Definition classify (head tail capacity slot_size : Z) : nabd_diagnostic_t :=
  let pending := if tail <=? head then sub64 head tail else 0 in
  let st := if capacity <? pending then NABD_STATE_CORRUPTED
            else if pending =? 0 then NABD_STATE_EMPTY else NABD_STATE_OK in
  Diagnostic st head tail pending 1 1 capacity slot_size.

Definition nabd_diagnose (name : option string) (diag : option nabd_diagnostic_t)
    : IO (Z * option nabd_diagnostic_t) :=
  match name, diag with
  | Some name, Some _ =>
      fd ← sys_call (shm_open name O_RDONLY);
      if fd <? 0 then mret (NABD_NOTFOUND : Z, Some (diag0 NABD_STATE_INCOMPLETE)) else
      ptr ← sys_call (mmap SIZEOF_CONTROL fd);
      match ptr with
      | None =>
          sys_do (close fd);; mret (NABD_SYSERR : Z, Some (diag0 NABD_STATE_INCOMPLETE))
      | Some a =>
          magic ← on_map a (ld 8 OFF_MAGIC);
          if negb (magic =? NABD_MAGIC) then
            sys_do (munmap a SIZEOF_CONTROL);; sys_do (close fd);;
            mret (NABD_OK : Z, Some (diag0 NABD_STATE_CORRUPTED))
          else
          version ← on_map a (ld 8 OFF_VERSION);
          if negb (version =? nabd_version_word) then
            sys_do (munmap a SIZEOF_CONTROL);; sys_do (close fd);;
            mret (NABD_OK : Z, Some (Diagnostic NABD_STATE_VERSION_ERR 0 0 0 1 0 0 0))
          else
          head ← on_map a (ld 8 OFF_HEAD);
          tail ← on_map a (ld 8 OFF_TAIL);
          capacity ← on_map a (ld 8 OFF_CAPACITY);
          slot_size ← on_map a (ld 8 OFF_SLOT_SIZE);
          sys_do (munmap a SIZEOF_CONTROL);; sys_do (close fd);;
          mret (NABD_OK : Z, Some (classify head tail capacity slot_size))
      end
  | _, _ => mret (NABD_INVALID : Z, diag)
  end.

(** The [if (force)] block: [tail] is set to [head]. *)
Definition force_reset (name : string) : IO Z :=
  fd ← sys_call (shm_open name O_RDWR);
  if fd <? 0 then mret (NABD_SYSERR : Z) else
  ptr ← sys_call (mmap SIZEOF_CONTROL fd);
  match ptr with
  | None => sys_do (close fd);; mret (NABD_SYSERR : Z)
  | Some a =>
      head ← on_map a (ld 8 OFF_HEAD);
      on_map a (st 8 OFF_TAIL head);;
      sys_do (munmap a SIZEOF_CONTROL);; sys_do (close fd);;
      mret (NABD_OK : Z)
  end.

(** What [nabd_recover] makes of the answer of [nabd_diagnose]. *)
Definition recover_after (name : string) (force : bool) (ret : Z) (diag : option nabd_diagnostic_t)
    : IO Z :=
  if negb (ret =? NABD_OK) then mret ret else
  let state := match diag with Some d => d_state d | None => NABD_STATE_OK end in
  if bool_decide (state = NABD_STATE_OK \/ state = NABD_STATE_EMPTY) then mret (NABD_OK : Z)
  else if bool_decide (state = NABD_STATE_CORRUPTED) && negb force then mret (NABD_CORRUPTED : Z)
  else if bool_decide (state = NABD_STATE_INCOMPLETE) then
    sys_call (shm_unlink name);; mret (NABD_OK : Z)
  else if force then force_reset name
  else mret (NABD_OK : Z).

Definition nabd_recover (name : option string) (force : bool) : IO Z :=
  match name with
  | None => mret (NABD_INVALID : Z)
  | Some name =>
      (* the local [diag] is uninitialised; nabd_diagnose sets it *)
      '(ret, diag) ← nabd_diagnose (Some name) (Some (diag0 NABD_STATE_OK));
      recover_after name force ret diag
  end.

End Operations.

(** ** Checkpoints *)

Abbreviation files := (gmap string (list byte)).

(** How the C library behaves in a call: does [fopen] succeed, how many bytes does
    [fwrite] transfer ([None]: all of them). *)
Record io := Io { io_open : bool; io_written : option nat }.

Definition nabd_checkpoint_save (i : io) (ts : Z * Z) (c : option nabd_consumer)
    (filepath : option string) (fs : files) : C (Z * files) :=
  match c, filepath with
  | Some c, Some path =>
      tail ← ld 8 (cn_group c + GRP_TAIL);
      let ckpt := Checkpoint NABD_CHECKPOINT_MAGIC (get_time_ns ts) (cn_group_id c) 0 tail 0 in
      let ckpt := Checkpoint NABD_CHECKPOINT_MAGIC (get_time_ns ts) (cn_group_id c) 0 tail
                             (compute_checksum ckpt) in
      if negb (io_open i) then mret (NABD_SYSERR : Z, fs) else
      let bs := checkpoint_bytes ckpt in
      let written := match io_written i with
                     | None => bs
                     | Some n => take n bs
                     end in
      let fs := <[path := written]> fs in
      mret (if zlen written =? SIZEOF_CHECKPOINT then NABD_OK : Z else NABD_SYSERR : Z, fs)
  | _, _ => mret (NABD_INVALID : Z, fs)
  end.

(** A short read leaves the rest of the structure as it was. *)
Definition nabd_checkpoint_load (i : io) (filepath : option string)
    (ckpt : option nabd_checkpoint_t) (fs : files) : Z * option nabd_checkpoint_t :=
  match filepath, ckpt with
  | Some path, Some old =>
      match (if io_open i then fs !! path else None) with
      | None => (NABD_NOTFOUND : Z, ckpt)
      | Some content =>
          let read := take (Z.to_nat SIZEOF_CHECKPOINT) content in
          let new := checkpoint_of (splice (checkpoint_bytes old) 0 read) in
          if zlen read <? SIZEOF_CHECKPOINT then (NABD_CORRUPTED : Z, Some new)
          else if negb (k_magic new =? NABD_CHECKPOINT_MAGIC) then (NABD_CORRUPTED : Z, Some new)
          else if negb (k_checksum new =? compute_checksum new) then (NABD_CORRUPTED : Z, Some new)
          else (NABD_OK : Z, Some new)
      end
  | _, _ => (NABD_INVALID : Z, ckpt)
  end.

(** [alloc1], [alloc2]: the allocations of create and of join. *)
Definition nabd_consumer_resume (spurious : nat -> bool) (alloc1 alloc2 : bool) (q : option nabd)
    (ckpt : option nabd_checkpoint_t) : C (option nabd_consumer) :=
  match q, ckpt with
  | Some _, Some ckpt =>
      '(c, _) ← nabd_consumer_create spurious alloc1 q (k_group_id ckpt);
      c ← match c with
          | Some c => mret (Some c)
          | None => '(c, _) ← nabd_consumer_join alloc2 q (k_group_id ckpt); mret c
          end;
      match c with
      | None => mret None
      | Some c =>
          head ← ld 8 OFF_HEAD;
          (if head <? k_tail ckpt
           then st 8 (cn_group c + GRP_TAIL) head
           else st 8 (cn_group c + GRP_TAIL) (k_tail ckpt));;
          mret (Some c)
      end
  | _, _ => mret None
  end.

Definition nabd_last_activity (q : option nabd) (ts : Z * Z) : Z :=
  match q with None => 0 | Some _ => get_time_ns ts end.

Arguments compute_checksum : simpl never.
Arguments nabd_diagnose : simpl never.
Arguments nabd_recover : simpl never.
Arguments nabd_checkpoint_save : simpl never.
Arguments nabd_checkpoint_load : simpl never.
Arguments nabd_consumer_resume : simpl never.

(** ** The checksum *)

(** All fields in the range of their types. *)
Record checkpoint_wf (c : nabd_checkpoint_t) : Prop := {
  w_magic : 0 <= k_magic c < 2 ^ 64;
  w_timestamp : 0 <= k_timestamp c < 2 ^ 64;
  w_group_id : 0 <= k_group_id c < 2 ^ 32;
  w_reserved : 0 <= k_reserved c < 2 ^ 32;
  w_tail : 0 <= k_tail c < 2 ^ 64;
  w_checksum : 0 <= k_checksum c < 2 ^ 64
}.

Definition xor_fields (c : nabd_checkpoint_t) : Z :=
  Z.lxor (Z.lxor (Z.lxor (k_magic c) (k_timestamp c)) (k_group_id c)) (k_tail c).

Definition rotate13 (x : Z) : Z := Z.lor (shl64 x 13) (Z.shiftr x 51).

Lemma checksum_rotate c : compute_checksum c = rotate13 (xor_fields c).
Proof. done. Qed.

Lemma lxor_range a b n : 0 <= n -> 0 <= a < 2 ^ n -> 0 <= b < 2 ^ n -> 0 <= Z.lxor a b < 2 ^ n.
Proof.
  intros Hn Ha Hb. assert (0 <= Z.lxor a b) as H0 by (apply Z.lxor_nonneg; lia).
  split; [done|]. destruct (decide (Z.lxor a b = 0)) as [->|]; [lia|].
  apply Z.log2_lt_pow2; [lia|].
  assert (forall x, 0 <= x < 2 ^ n -> Z.log2 x < n \/ x = 0) as Hl.
  { intros x Hx. destruct (decide (x = 0)); [by right|left]. apply Z.log2_lt_pow2; lia. }
  pose proof (Z.log2_lxor a b) as Hle. destruct (Hl a Ha) as [|Ha0], (Hl b Hb) as [|Hb0]; try lia.
  - subst b. rewrite Z.lxor_0_r in *. lia.
  - subst a. rewrite Z.lxor_0_l in *. lia.
  - subst. done.
Qed.

(** The bits of a rotated word. *)
Lemma rotate13_testbit x i :
  0 <= x < 2 ^ 64 -> 0 <= i < 64 ->
  Z.testbit (rotate13 x) i = Z.testbit x ((i - 13) mod 64).
Proof.
  intros Hx Hi. unfold rotate13, shl64, u64. rewrite Z.lor_spec.
  rewrite Z.mod_pow2_bits_low by lia. rewrite Z.shiftr_spec by lia.
  destruct (decide (i < 13)).
  - rewrite Z.shiftl_spec_low by lia. simpl. f_equal.
    replace (i - 13) with (i + 51 + (-1) * 64) by lia. rewrite Z_mod_plus_full.
    symmetry. apply Z.mod_small. lia.
  - rewrite Z.shiftl_spec by lia. rewrite (Z.mod_small (i - 13)) by lia.
    assert (Z.testbit x (i + 51) = false) as ->; [|by rewrite orb_false_r].
    destruct (decide (x = 0)) as [->|]; [apply Z.testbit_0_l|].
    apply Z.bits_above_log2; [lia|]. assert (Z.log2 x < 64) by (apply Z.log2_lt_pow2; lia). lia.
Qed.

(** Rotation loses nothing. *)
Lemma rotate13_inj x y :
  0 <= x < 2 ^ 64 -> 0 <= y < 2 ^ 64 -> rotate13 x = rotate13 y -> x = y.
Proof.
  intros Hx Hy He. apply Z.bits_inj'. intros n Hn. destruct (decide (n < 64)).
  - pose proof (Z.mod_pos_bound (n + 13) 64 ltac:(lia)) as Hm.
    assert ((((n + 13) mod 64) - 13) mod 64 = n) as Hr.
    { rewrite Zminus_mod, Zmod_mod, <- Zminus_mod. rewrite Z.mod_small; lia. }
    rewrite <- Hr at 1. rewrite <- rotate13_testbit by done.
    rewrite He, rotate13_testbit by done. by rewrite Hr.
  - assert (forall z, 0 <= z < 2 ^ 64 -> Z.testbit z n = false) as Hz.
    { intros z Hz. destruct (decide (z = 0)) as [->|]; [apply Z.testbit_0_l|].
      apply Z.bits_above_log2; [lia|]. assert (Z.log2 z < 64) by (apply Z.log2_lt_pow2; lia). lia. }
    by rewrite !Hz.
Qed.

Lemma rotate13_range x : 0 <= x < 2 ^ 64 -> 0 <= rotate13 x < 2 ^ 64.
Proof.
  intros Hx. unfold rotate13. assert (0 <= Z.shiftr x 51 < 2 ^ 13) as Hs.
  { rewrite Z.shiftr_div_pow2 by lia. split; [apply Z.div_pos; lia|].
    apply Z.div_lt_upper_bound; lia. }
  assert (0 <= shl64 x 13 < 2 ^ 64) by apply u64_range.
  assert (0 <= Z.lor (shl64 x 13) (Z.shiftr x 51)) as H0 by (apply Z.lor_nonneg; lia).
  split; [done|]. destruct (decide (Z.lor (shl64 x 13) (Z.shiftr x 51) = 0)) as [->|]; [lia|].
  apply Z.log2_lt_pow2; [lia|]. rewrite Z.log2_lor by lia.
  assert (forall z, 0 <= z < 2 ^ 64 -> Z.log2 z < 64) as Hl.
  { intros z Hz. destruct (decide (z = 0)) as [->|]; [done|]. apply Z.log2_lt_pow2; lia. }
  pose proof (Hl (shl64 x 13)). pose proof (Hl (Z.shiftr x 51)). lia.
Qed.

Lemma xor_fields_range c : checkpoint_wf c -> 0 <= xor_fields c < 2 ^ 64.
Proof. intros [? ? ? ? ? ?]. repeat (apply lxor_range; [lia| |]); lia. Qed.

Lemma compute_checksum_range c : checkpoint_wf c -> 0 <= compute_checksum c < 2 ^ 64.
Proof. intros W. rewrite checksum_rotate. by apply rotate13_range, xor_fields_range. Qed.

(** ** The bytes of a checkpoint *)

Lemma zlen_checkpoint c : zlen (checkpoint_bytes c) = 40.
Proof. unfold checkpoint_bytes. rewrite !zlen_app, !zlen_le_split. lia. Qed.

(** Reading a field after a prefix of known length. *)
Lemma rd_app_skip w (a b : list byte) off :
  zlen a <= off -> rd w (a ++ b) off = rd w b (off - zlen a).
Proof.
  intros H. unfold rd, slice, zlen in *. do 2 f_equal.
  rewrite drop_app_ge by lia. f_equal. lia.
Qed.

Lemma rd_le_split w v b off :
  off = 0 -> rd w (le_split w v ++ b) off = v mod 2 ^ (Z.of_nat w * 8).
Proof.
  intros ->. unfold rd, slice. rewrite Nat2Z.id, drop_0.
  rewrite take_app_length' by (by rewrite length_le_split). apply le_combine_split.
Qed.

Lemma checkpoint_roundtrip c : checkpoint_wf c -> checkpoint_of (checkpoint_bytes c) = c.
Proof.
  intros [? ? ? ? ? ?]. unfold checkpoint_of, checkpoint_bytes. destruct c as [c1 c2 c3 c4 c5 c6].
  simpl k_magic in *. simpl k_timestamp in *. simpl k_group_id in *. simpl k_reserved in *.
  simpl k_tail in *. simpl k_checksum in *.
  f_equal; repeat (rewrite rd_app_skip by (rewrite zlen_le_split; lia); rewrite zlen_le_split);
    try (rewrite rd_le_split by lia; apply Z.mod_small; done).
  rewrite <- (app_nil_r (le_split 8 c6)). rewrite rd_le_split by lia. by apply Z.mod_small.
Qed.

(** What a full read leaves in the structure. *)
Lemma splice_full (old bs : list byte) : zlen old = zlen bs -> splice old 0 bs = bs.
Proof.
  unfold splice, zlen. intros H. simpl. rewrite drop_ge by lia. apply app_nil_r.
Qed.
