(* ===== verification/PersistenceCorrect.v ===== *)
(** * Diagnosis, recovery and checkpoints: correctness

    The theorems about Persistence.v: what diagnosis reports and that it only reads,
    what recovery repairs and what it does not, the round trip of checkpoints and what
    their checksum detects, and how a consumer resumes. *)

From S2P Require Import Prelude Words Pow2 Memory Layout Fifo Queue Ring Sample Posix Lifecycle MultiConsumer GroupsCorrect LifecycleCorrect Persistence.
Local Open Scope string_scope.
Local Open Scope Z_scope.

(** ** Definitions *)

(** What the control block of segment [b] tells. *)
Definition diagnosis (b : mem) : nabd_diagnostic_t :=
  if negb (rd 8 b OFF_MAGIC =? NABD_MAGIC) then diag0 NABD_STATE_CORRUPTED
  else if negb (rd 8 b OFF_VERSION =? nabd_version_word)
  then Diagnostic NABD_STATE_VERSION_ERR 0 0 0 1 0 0 0
  else classify (rd 8 b OFF_HEAD) (rd 8 b OFF_TAIL) (rd 8 b OFF_CAPACITY) (rd 8 b OFF_SLOT_SIZE).

Definition health (b : mem) : nabd_state_t := d_state (diagnosis b).

(** [tail] set to [head]. *)
Definition emptied (b : mem) : mem := wr 8 b OFF_TAIL (rd 8 b OFF_HEAD).

(** Nothing but [errno] differs. *)
Definition quiet (s s' : sys) : Prop :=
  s_shm s' = s_shm s /\ s_obj s' = s_obj s /\ same_resources s s'.

(** The return code of a recovery that could open the segment. *)
Definition recover_code (st : nabd_state_t) (force : bool) : nabd_error_t :=
  match st, force with
  | NABD_STATE_CORRUPTED, false => NABD_CORRUPTED
  | _, _ => NABD_OK
  end.

(** Does recovery reset the positions? *)
Definition resets (st : nabd_state_t) (force : bool) : bool :=
  match st with
  | NABD_STATE_CORRUPTED | NABD_STATE_VERSION_ERR => force
  | _ => false
  end.

(** A consumer of group 7 that had read up to position 1. *)
Definition sample_checkpoint : nabd_checkpoint_t :=
  Checkpoint NABD_CHECKPOINT_MAGIC 1000 7 0 1
    (compute_checksum (Checkpoint NABD_CHECKPOINT_MAGIC 1000 7 0 1 0)).

(** A diagnosis that could not open or map the segment. *)
Definition not_diagnosed (r : Z * option nabd_diagnostic_t) : Prop :=
  (fst r = NABD_NOTFOUND \/ fst r = NABD_SYSERR) /\ snd r = Some (diag0 NABD_STATE_INCOMPLETE).

(** ** Lemmas *)

(** Reading a word of the control block through a mapping of it. *)
Lemma ld_control b off :
  SIZEOF_CONTROL <= zlen b -> 0 <= off -> off + 8 <= SIZEOF_CONTROL ->
  ld 8 off (take (Z.to_nat SIZEOF_CONTROL) b)
  = Some (rd 8 b off, take (Z.to_nat SIZEOF_CONTROL) b).
Proof.
  intros Hb Ho Hn. unfold SIZEOF_CONTROL in *. rewrite ld_in.
  - unfold rd. by rewrite slice_take by lia.
  - unfold in_mem, zlen in *. rewrite length_take. lia.
Qed.

(** The diagnosis of a segment that holds a FIFO. *)
Lemma diagnosis_fifo b h f :
  is_fifo h f b -> rd 8 b OFF_TAIL <= rd 8 b OFF_HEAD ->
  SIZEOF_CONTROL <= zlen b /\
  diagnosis b = Diagnostic
    (if decide (ff_msgs f = []) then NABD_STATE_EMPTY else NABD_STATE_OK)
    (rd 8 b OFF_HEAD) (rd 8 b OFF_TAIL) (zlen (ff_msgs f)) 1 1 (ff_bound f) (q_slot_size h).
Proof.
  intros (k & H & T & R & Hb & Hx) Hw. pose proof (r_wf _ _ _ _ _ _ R) as W.
  pose proof (r_control _ _ _ _ _ _ R) as [Cm Cv Cc Cs]. pose proof (pow_k _ _ W).
  pose proof (wf_slot _ _ W). pose proof (r_len _ _ _ _ _ _ R). pose proof (wf_cap _ _ W) as Hcap.
  pose proof (r_count _ _ _ _ _ _ R) as Hc. pose proof (r_bound _ _ _ _ _ _ R).
  split; [unfold SIZEOF_CONTROL, SIZEOF_HEADER in *; nia|].
  unfold diagnosis. rewrite Cm, Cv, !Z.eqb_refl. simpl negb. cbv iota. unfold classify.
  zb_true (rd 8 b OFF_TAIL <=? rd 8 b OFF_HEAD).
  rewrite Cc, Cs, (r_head _ _ _ _ _ _ R), (r_tail _ _ _ _ _ _ R), (ring_used _ _ _ _ _ _ R).
  cbv zeta. rewrite Hb. zb_false (q_capacity h <? zlen (ff_msgs f)). f_equal.
  destruct (ff_msgs f) as [|d ms]; [done|].
  assert (zlen (d :: ms) <> 0) by (unfold zlen; simpl; lia). by zb_false (zlen (d :: ms) =? 0).
Qed.

(** The state of a ring is never found corrupted, even after the indices wrapped. *)
Lemma health_ring b q k H T ms :
  ring q k H T ms b ->
  SIZEOF_CONTROL <= zlen b /\ (health b = NABD_STATE_OK \/ health b = NABD_STATE_EMPTY).
Proof.
  intros R. pose proof (r_wf _ _ _ _ _ _ R) as W. pose proof (r_control _ _ _ _ _ _ R) as [Cm Cv Cc Cs].
  pose proof (pow_k _ _ W). pose proof (wf_slot _ _ W). pose proof (r_len _ _ _ _ _ _ R).
  pose proof (wf_cap _ _ W) as Hcap. pose proof (r_count _ _ _ _ _ _ R). pose proof (r_bound _ _ _ _ _ _ R).
  split; [unfold SIZEOF_CONTROL, SIZEOF_HEADER in *; nia|].
  unfold health, diagnosis. rewrite Cm, Cv, !Z.eqb_refl. simpl negb. cbv iota. unfold classify.
  rewrite Cc, (r_head _ _ _ _ _ _ R), (r_tail _ _ _ _ _ _ R), (ring_used _ _ _ _ _ _ R). cbn [d_state].
  destruct (u64 T <=? u64 H).
  - zb_false (q_capacity q <? zlen ms). case_zb; auto.
  - zb_false (q_capacity q <? 0). auto.
Qed.

Section Diagnose.
Context {P : Posix} {L : PosixLaws P}.
Implicit Types (s : sys) (fd : Z).

Lemma nabd_diagnose_grows name diag : grows (nabd_diagnose name diag).
Proof. unfold nabd_diagnose. prove_keeps. Qed.

(** A descriptor and a mapping opened and given back. *)
Lemma quiet_close s fd o :
  s_fd s !! fd = None -> quiet s (close fd (set_fd (<[fd := o]> (s_fd s)) s)).
Proof.
  intros Hf. rewrite close_law. repeat split; simpl. by apply delete_insert_id.
Qed.

(** The same after a refusal in between. *)
Lemma quiet_close_refused s fd o e :
  s_fd s !! fd = None ->
  quiet s (close fd (refuse e (set_fd (<[fd := o]> (s_fd s)) s))) /\
  refusal s (close fd (refuse e (set_fd (<[fd := o]> (s_fd s)) s))).
Proof.
  intros Hf. rewrite close_law. split; [|unfold refusal; simpl; lia].
  repeat split; simpl. by apply delete_insert_id.
Qed.

(** Diagnosing a name nothing is bound to. *)
Lemma diagnose_missing name d0 s :
  s_shm s !! name = None ->
  wp (nabd_diagnose (Some name) (Some d0)) s (fun r s' => quiet s s' /\
    r = (NABD_NOTFOUND : Z, Some (diag0 NABD_STATE_INCOMPLETE))).
Proof.
  intros Hn. unfold nabd_diagnose. apply wp_bind, wp_call.
  destruct (shm_open_law name O_RDONLY s) as [e _|o Ho|_ _|fd o1 Ho1 _ Hfd Hnew|fd o1 _ Hc];
    try done; try congruence; zb_true (-1 <? 0); by apply wp_ret.
Qed.

(** Diagnosing an object that has no byte yet: it cannot return unless the system
    refused to open or map it, for it reads the magic number. *)
Lemma diagnose_empty name d0 s o :
  s_shm s !! name = Some o -> s_obj s !! o = Some [] ->
  wlp (nabd_diagnose (Some name) (Some d0)) s (fun r s' => quiet s s' /\ refusal s s' /\
    not_diagnosed r).
Proof.
  intros Hn Ho. unfold nabd_diagnose. apply wlp_bind, wlp_call.
  destruct (shm_open_law name O_RDONLY s) as [e _|o1 ? Hc _|Hm _|fd o1 Ho1 _ Hfd Hnew|fd o1 Ho1];
    try done; try congruence.
  { zb_true (-1 <? 0). apply wlp_ret. split; [done|]. split; [unfold refusal; simpl; lia|split; auto]. }
  rewrite Hn in Ho1. injection Ho1 as <-. zb_false (fd <? 0). apply wlp_bind, wlp_call.
  match goal with |- context [mmap ?n fd ?s1] =>
    destruct (mmap_law n fd s1) as [e|e Hno|a o2 Ho2 _ Ha Hm] end.
  { destruct (quiet_close_refused s fd o e Hnew). apply wlp_bind, wlp_do, wlp_ret.
    split; [done|]. split; [done|split; auto]. }
  { destruct Hno. split; [|done]. eexists. apply lookup_insert_eq. }
  simpl in Ho2, Hm. rewrite lookup_insert_eq in Ho2. injection Ho2 as <-.
  eapply wlp_on_map_undef; [apply lookup_insert_eq|exact Ho|done].
Qed.

Lemma diagnose_spec name d0 s o b :
  s_shm s !! name = Some o -> s_obj s !! o = Some b -> SIZEOF_CONTROL <= zlen b ->
  wp (nabd_diagnose (Some name) (Some d0)) s (fun r s' => quiet s s' /\
    (r = (NABD_OK : Z, Some (diagnosis b)) \/ (refusal s s' /\ not_diagnosed r))).
Proof.
  intros Hn Ho Hb. unfold nabd_diagnose. apply wp_bind, wp_call.
  destruct (shm_open_law name O_RDONLY s) as [e _|o1 ? Hc _|Hm _|fd o1 Ho1 _ Hfd Hnew|fd o1 Ho1];
    try done; try congruence.
  { zb_true (-1 <? 0). apply wp_ret. split; [done|]. right.
    split; [unfold refusal; simpl; lia|split; auto]. }
  rewrite Hn in Ho1. injection Ho1 as <-. zb_false (fd <? 0). apply wp_bind, wp_call.
  match goal with |- context [mmap ?n fd ?s1] =>
    destruct (mmap_law n fd s1) as [e|e Hno|a o2 Ho2 _ Ha Hm] end.
  { destruct (quiet_close_refused s fd o e Hnew). apply wp_bind, wp_do, wp_ret.
    split; [done|]. right. split; [done|split; auto]. }
  { destruct Hno. split; [|done]. eexists. apply lookup_insert_eq. }
  simpl in Ho2, Hm. rewrite lookup_insert_eq in Ho2. injection Ho2 as <-.
  set (s2 := set_map _ _). assert (s_map s2 !! a = Some (o, SIZEOF_CONTROL)) as Ha2 by apply lookup_insert_eq.
  assert (s_obj s2 !! o = Some b) as Hb2 by done.
  assert (quiet s (close fd (munmap a SIZEOF_CONTROL s2))) as Hq.
  { rewrite (munmap_mapped _ _ _ _ Ha2), close_law. repeat split; simpl; by apply delete_insert_id. }
  assert (forall x (Q : Z * option nabd_diagnostic_t -> sys -> Prop),
    (forall s', quiet s s' -> Q x s') ->
    wp (sys_do (munmap a SIZEOF_CONTROL);; sys_do (close fd);; mret x) s2 Q) as Hfin.
  { intros x Q HQ. by apply wp_bind, wp_do, wp_bind, wp_do, wp_ret, HQ. }
  unfold diagnosis.
  apply wp_bind; eapply wp_on_map_read; [exact Ha2|exact Hb2|by apply ld_control|].
  case_match; [apply Hfin; auto|].
  apply wp_bind; eapply wp_on_map_read; [exact Ha2|exact Hb2|by apply ld_control|].
  case_match; [apply Hfin; auto|].
  do 4 (apply wp_bind; eapply wp_on_map_read; [exact Ha2|exact Hb2|by apply ld_control|]).
  apply Hfin. auto.
Qed.

Lemma force_reset_spec name s o b :
  s_shm s !! name = Some o -> s_obj s !! o = Some b -> SIZEOF_CONTROL <= zlen b ->
  wp (force_reset name) s (fun r s' => s_shm s' = s_shm s /\ same_resources s s' /\
    ((r = NABD_SYSERR /\ s_obj s' = s_obj s /\ refusal s s') \/
     (r = NABD_OK /\ s_obj s' = <[o := emptied b]> (s_obj s)))).
Proof.
  intros Hn Ho Hb. unfold force_reset. apply wp_bind, wp_call.
  destruct (shm_open_law name O_RDWR s) as [e _|o1 ? Hc _|Hm _|fd o1 Ho1 _ Hfd Hnew|fd o1 Ho1];
    try done; try congruence.
  { zb_true (-1 <? 0). apply wp_ret. split; [done|]. split; [done|]. left.
    split_and!; try done. unfold refusal. simpl. lia. }
  rewrite Hn in Ho1. injection Ho1 as <-. zb_false (fd <? 0). apply wp_bind, wp_call.
  match goal with |- context [mmap ?n fd ?s1] =>
    destruct (mmap_law n fd s1) as [e|e Hno|a o2 Ho2 _ Ha Hm] end.
  { destruct (quiet_close_refused s fd o e Hnew) as [(H1 & H2 & H3) Hr].
    apply wp_bind, wp_do, wp_ret. split; [done|]. split; [done|]. by left. }
  { destruct Hno. split; [|done]. eexists. apply lookup_insert_eq. }
  simpl in Ho2, Hm. rewrite lookup_insert_eq in Ho2. injection Ho2 as <-.
  apply wp_bind. eapply wp_on_map_read; [apply lookup_insert_eq|exact Ho|by apply ld_control|].
  unfold SIZEOF_CONTROL in *.
  assert (zlen (take (Z.to_nat 256) b) = 256) as Hz by (unfold zlen in *; rewrite length_take; lia).
  apply wp_bind. eapply wp_on_map; [apply lookup_insert_eq|exact Ho|apply st_in; unfold OFF_TAIL; zl|].
  apply wp_bind, wp_do, wp_bind, wp_do, wp_ret.
  rewrite (munmap_mapped _ _ _ o) by apply lookup_insert_eq. rewrite close_law. simpl.
  split; [done|]. split; [repeat split; simpl; by apply delete_insert_id|]. right. split; [done|].
  f_equal. unfold emptied, wr. symmetry. rewrite <- (take_drop (Z.to_nat 256) b) at 1.
  unfold splice, OFF_TAIL. rewrite length_le_split.
  rewrite take_app_le by (unfold zlen in Hz; lia).
  rewrite (drop_app_le _ _ _) by (unfold zlen in Hz; lia).
  by rewrite <- !app_assoc.
Qed.
(** A recovery whose diagnosis failed returns its code. *)
Lemma recover_after_error name force (r : Z) d s :
  r = NABD_NOTFOUND \/ r = NABD_SYSERR -> recover_after name force r d s = Some (r, s).
Proof. by intros [-> | ->]. Qed.

(** A recovery that goes by a diagnosis of the control block. *)
Lemma recover_after_spec name force s o b :
  s_shm s !! name = Some o -> s_obj s !! o = Some b -> SIZEOF_CONTROL <= zlen b ->
  wp (recover_after name force NABD_OK (Some (diagnosis b))) s (fun r s' =>
    s_shm s' = s_shm s /\ same_resources s s' /\
    ((r = NABD_SYSERR /\ s_obj s' = s_obj s /\ refusal s s') \/
     (r = recover_code (health b) force /\
      s_obj s' = if resets (health b) force then <[o := emptied b]> (s_obj s) else s_obj s))).
Proof.
  intros Hn Ho Hb. unfold recover_after. cbn [negb Z.eqb]. fold (health b).
  pose proof (force_reset_spec name s o b Hn Ho Hb) as Hf.
  assert (health b <> NABD_STATE_INCOMPLETE /\ health b <> NABD_STATE_STALE) as [Hi Hst].
  { unfold health, diagnosis, classify. repeat case_match; done. }
  destruct (health b), force; simpl; try done;
    try (apply wp_ret; split; [done|]; split; [done|]; by right);
    (eapply wp_mono; [exact Hf|]; cbn beta; intros r s' (? & ? & [?|[-> ?]]); auto 10).
Qed.

Lemma recover_spec s name o b force :
  s_shm s !! name = Some o -> s_obj s !! o = Some b -> SIZEOF_CONTROL <= zlen b ->
  wp (nabd_recover (Some name) force) s (fun r s' =>
    s_shm s' = s_shm s /\ same_resources s s' /\
    (((r = NABD_NOTFOUND \/ r = NABD_SYSERR) /\ s_obj s' = s_obj s /\ refusal s s') \/
     (r = recover_code (health b) force /\
      s_obj s' = if resets (health b) force then <[o := emptied b]> (s_obj s) else s_obj s))).
Proof.
  intros Hn Ho Hb. unfold nabd_recover. apply wp_bind.
  pose proof (nabd_diagnose_grows (Some name) (Some (diag0 NABD_STATE_OK)) s) as Hg.
  eapply wp_mono; [exact (wp_wlp _ _ _ _ (diagnose_spec name _ s o b Hn Ho Hb) Hg)|].
  clear Hg. intros r s1 [[(Hs & Hobj & R1 & R2 & R3) HQ] Hg]. destruct HQ as [->|(Href & Hr & Hd)].
  - rewrite <- Hs in Hn. rewrite <- Hobj in Ho.
    eapply wp_mono; [by apply recover_after_spec|]. unfold refusal, more_refused, same_resources in *.
    intros r s2 (Hs2 & (Q1 & Q2 & Q3) & HQ). rewrite Hs, Hobj, R1, R2, R3 in *.
    split; [done|]. split; [done|]. destruct HQ as [(? & ? & ?)|?]; [left|by right].
    split_and!; auto. lia.
  - destruct r as [r d]. simpl in Hr. eexists _, _. split; [by apply recover_after_error|]. split; [done|]. split; [done|]. auto.
Qed.

End Diagnose.

#[export] Hint Resolve nabd_diagnose_grows : keeps.

(** ** Diagnosis and recovery *)

Section Correct.
Context {P : Posix} {L : PosixLaws P}.

(** Diagnosing a healthy queue.  For a segment that holds FIFO [f], whose indices have
    not wrapped relative to each other, [nabd_diagnose] either cannot open or map the
    segment and says so, or reports the number of pending messages, the capacity and
    the slot size, with state EMPTY exactly when nothing is pending and OK otherwise.
    It leaves the system as it was: no segment, name or resource changes. *)
Theorem diagnose_healthy_queue s name o b h f d0 :
  s_shm s !! name = Some o -> s_obj s !! o = Some b -> is_fifo h f b ->
  rd 8 b OFF_TAIL <= rd 8 b OFF_HEAD ->
  wp (nabd_diagnose (Some name) (Some d0)) s (fun r s' => quiet s s' /\
    (r = (NABD_OK : Z, Some (Diagnostic
            (if decide (ff_msgs f = []) then NABD_STATE_EMPTY else NABD_STATE_OK)
            (rd 8 b OFF_HEAD) (rd 8 b OFF_TAIL) (zlen (ff_msgs f)) 1 1 (ff_bound f)
            (q_slot_size h))) \/
     (refusal s s' /\ not_diagnosed r))).
Proof.
  intros Hn Ho Hf Hw. destruct (diagnosis_fifo b h f Hf Hw) as [Hlen Heq].
  pose proof (diagnose_spec name d0 s o b Hn Ho Hlen) as Hd. by rewrite Heq in Hd.
Qed.

(** C36: recovery, for a name nothing is bound to, for a segment of at least the control
    block's size, and for the empty one that exists between the [shm_open] and the
    [ftruncate] of a creation.  In no case does it change a name or leak anything.
    Without the name it returns [NABD_NOTFOUND].  A segment with a control block is
    treated by that control block alone and rewritten in one case only: force requested
    and the segment corrupted or of another version, where [tail] is set to [head];
    without force a corrupted segment is reported and left alone; another code is
    returned only when the system refused a request.  On the empty segment recovery does
    not return at all unless the system refused it: it reads a control block that is not
    there. *)
Theorem recover_effect s name force :
  match s_shm s !! name with
  | None =>
      wp (nabd_recover (Some name) force) s (fun r s' => r = NABD_NOTFOUND /\ quiet s s')
  | Some o => forall b, s_obj s !! o = Some b ->
      (SIZEOF_CONTROL <= zlen b ->
       wp (nabd_recover (Some name) force) s (fun r s' =>
         s_shm s' = s_shm s /\ same_resources s s' /\
         (((r = NABD_NOTFOUND \/ r = NABD_SYSERR) /\ s_obj s' = s_obj s /\ refusal s s') \/
          (r = recover_code (health b) force /\
           s_obj s' = if resets (health b) force then <[o := emptied b]> (s_obj s) else s_obj s)))) /\
      (b = [] ->
       wlp (nabd_recover (Some name) force) s (fun r s' =>
         (r = NABD_NOTFOUND \/ r = NABD_SYSERR) /\ quiet s s' /\ refusal s s'))
  end.
Proof.
  destruct (s_shm s !! name) as [o|] eqn:Hn.
  - intros b Ho. split; [intros Hb; by apply recover_spec|]. intros ->.
    unfold nabd_recover. apply wlp_bind. eapply wlp_mono; [by eapply diagnose_empty|].
    intros [r d] s1 (Hq & Href & Hr & _) r' s'. rewrite recover_after_error by done.
    by intros [= <- <-].
  - unfold nabd_recover. apply wp_bind. eapply wp_mono; [by apply diagnose_missing|].
    intros r s1 [Hq ->]. eexists _, _. split; [by apply recover_after_error; left|]. done.
Qed.

(** What a forced reset achieves.  The positions become equal, so a queue that was
    only inconsistent is empty afterwards; but a bad magic number or version stays, and
    [nabd_open] still refuses the segment although recovery returned [NABD_OK]. *)
Theorem force_reset_limits b :
  SIZEOF_CONTROL <= zlen b ->
  rd 8 (emptied b) OFF_TAIL = rd 8 b OFF_HEAD /\ rd 8 (emptied b) OFF_HEAD = rd 8 b OFF_HEAD /\
  (rd 8 b OFF_MAGIC = NABD_MAGIC -> rd 8 b OFF_VERSION = nabd_version_word ->
     0 <= rd 8 b OFF_CAPACITY -> health (emptied b) = NABD_STATE_EMPTY) /\
  (rd 8 b OFF_MAGIC <> NABD_MAGIC -> health (emptied b) = NABD_STATE_CORRUPTED /\
     forall s name o capacity slot_size, s_shm s !! name = Some o -> s_obj s !! o = Some (emptied b) ->
     wlp (nabd_open (Some name) capacity slot_size NABD_CONSUMER) s (fun r _ => r = None)) /\
  (rd 8 b OFF_MAGIC = NABD_MAGIC -> rd 8 b OFF_VERSION <> nabd_version_word ->
     health (emptied b) = NABD_STATE_VERSION_ERR).
Proof.
  intros Hb. unfold SIZEOF_CONTROL in *.
  assert (in_mem b OFF_TAIL 8) as Hin by (unfold OFF_TAIL; zl).
  assert (forall off, 0 <= off -> off + 8 <= OFF_TAIL -> rd 8 (emptied b) off = rd 8 b off) as Hrd
    by (intros; unfold emptied; apply rd_wr; [done|lia|lia]).
  pose proof (rd_range 8 b OFF_HEAD) as Hh. unfold OFF_HEAD in Hh at 1 2. specialize (Hh ltac:(lia) ltac:(lia)).
  assert (rd 8 (emptied b) OFF_TAIL = rd 8 b OFF_HEAD) as Ht
    by (unfold emptied; rewrite rd_wr_same by done; apply Z.mod_small; done).
  split_and!; [done|by apply Hrd|..].
  - intros Hm Hv Hc. unfold health, diagnosis.
    rewrite (Hrd OFF_MAGIC), (Hrd OFF_VERSION), (Hrd OFF_HEAD), (Hrd OFF_CAPACITY), (Hrd OFF_SLOT_SIZE), Ht by done.
    rewrite Hm, Hv, !Z.eqb_refl. simpl. unfold classify. rewrite Z.leb_refl. unfold sub64. rewrite Z.sub_diag.
    change (u64 0) with 0. simpl. by zb_false (rd 8 b OFF_CAPACITY <? 0).
  - intros Hm. split.
    { unfold health, diagnosis. rewrite (Hrd OFF_MAGIC) by done. by zb_false (rd 8 b OFF_MAGIC =? NABD_MAGIC). }
    intros s name o cap ss Hn Ho r s' E.
    assert (wp (nabd_open (Some name) cap ss NABD_CONSUMER) s (fun r _ => r = None)) as Hw.
    { apply (wp_reject name cap ss NABD_CONSUMER s o (emptied b)); try done; [by right| |].
      - unfold emptied. rewrite zlen_wr by done. done.
      - by rewrite (Hrd OFF_MAGIC). }
    destruct Hw as (r2 & s2 & E2 & ->). congruence.
  - intros Hm Hv. unfold health, diagnosis. rewrite (Hrd OFF_MAGIC), (Hrd OFF_VERSION) by done.
    rewrite Hm, Z.eqb_refl. simpl. by zb_false (rd 8 b OFF_VERSION =? nabd_version_word).
Qed.
End Correct.

(** ** Checkpoints *)

(** A checkpoint that was saved, and what loading it gives. *)
Lemma save_then_load ts c path fs m old :
  0 <= cn_group_id c < 2 ^ 32 -> in_mem m (cn_group c + GRP_TAIL) 8 ->
  exists fs' k,
  nabd_checkpoint_save (Io true None) ts (Some c) (Some path) fs m = Some (NABD_OK : Z, fs', m) /\
  nabd_checkpoint_load (Io true None) (Some path) (Some old) fs' = (NABD_OK : Z, Some k) /\
  k_group_id k = cn_group_id c /\ k_tail k = rd 8 m (cn_group c + GRP_TAIL) /\
  k_timestamp k = get_time_ns ts /\ checkpoint_wf k.
Proof.
  intros Hid Hin. unfold nabd_checkpoint_save. erewrite bind_ret by (by apply (ld_in m 8)).
  cbv zeta. cbn [io_open io_written negb].
  destruct Hin as (? & _ & ?). pose proof (rd_range 8 m (cn_group c + GRP_TAIL) ltac:(lia) ltac:(lia)) as Ht.
  change (8 * Z.of_nat 8) with 64 in Ht. set (t := rd 8 m _) in *.
  set (k0 := Checkpoint NABD_CHECKPOINT_MAGIC (get_time_ns ts) (cn_group_id c) 0 t 0).
  set (k1 := Checkpoint NABD_CHECKPOINT_MAGIC (get_time_ns ts) (cn_group_id c) 0 t (compute_checksum k0)).
  assert (checkpoint_wf k0) as W0.
  { split; simpl; try done; unfold NABD_CHECKPOINT_MAGIC; try lia. apply u64_range. }
  assert (checkpoint_wf k1) as W1.
  { destruct W0. split; simpl; try done. apply compute_checksum_range. by split. }
  rewrite zlen_checkpoint. eexists _, k1. split; [reflexivity|].
  split; [|done]. unfold nabd_checkpoint_load. cbn [io_open]. rewrite lookup_insert_eq.
  change (Z.to_nat SIZEOF_CHECKPOINT) with 40%nat.
  pose proof (zlen_checkpoint k1) as Hz. rewrite take_ge by (unfold zlen in Hz; lia).
  rewrite Hz. cbv zeta. change (40 <? SIZEOF_CHECKPOINT) with false. cbv iota.
  rewrite splice_full by (by rewrite !zlen_checkpoint). rewrite checkpoint_roundtrip by done.
  change (k_magic k1) with NABD_CHECKPOINT_MAGIC. rewrite Z.eqb_refl. cbn [negb].
  change (k_checksum k1) with (compute_checksum k0).
  change (compute_checksum k1) with (compute_checksum k0). by rewrite Z.eqb_refl.
Qed.

(** Checkpoint round trip.  A checkpoint saved without an I/O error and loaded again
    is accepted, with the group identifier and the read position of the consumer at
    the time of the save. *)
Theorem checkpoint_save_load ts c path fs m old :
  0 <= cn_group_id c < 2 ^ 32 -> in_mem m (cn_group c + GRP_TAIL) 8 ->
  exists fs' k,
  nabd_checkpoint_save (Io true None) ts (Some c) (Some path) fs m = Some (NABD_OK : Z, fs', m) /\
  nabd_checkpoint_load (Io true None) (Some path) (Some old) fs' = (NABD_OK : Z, Some k) /\
  k_group_id k = cn_group_id c /\ k_tail k = rd 8 m (cn_group c + GRP_TAIL) /\
  k_timestamp k = get_time_ns ts.
Proof.
  intros Hid Hin. destruct (save_then_load ts c path fs m old Hid Hin)
    as (fs' & k & H1 & H2 & H3 & H4 & H5 & _). by exists fs', k.
Qed.

(** What loading accepts.  A missing file gives [NABD_NOTFOUND]; a file shorter than
    a checkpoint, another magic number or a wrong checksum gives [NABD_CORRUPTED]; a
    file is accepted exactly when it starts with forty bytes that form a checkpoint
    with the magic number and a matching checksum. *)
Theorem checkpoint_load_validates path old fs :
  let r := nabd_checkpoint_load (Io true None) (Some path) (Some old) fs in
  match fs !! path with
  | None => r = (NABD_NOTFOUND : Z, Some old)
  | Some content =>
      let k := checkpoint_of (take 40 content) in
      if (40 <=? zlen content) && (k_magic k =? NABD_CHECKPOINT_MAGIC) &&
         (k_checksum k =? compute_checksum k)
      then r = (NABD_OK : Z, Some k)
      else fst r = NABD_CORRUPTED
  end.
Proof.
  unfold nabd_checkpoint_load. cbn [io_open]. destruct (fs !! path) as [content|]; [|done].
  change (Z.to_nat SIZEOF_CHECKPOINT) with 40%nat. cbv zeta. unfold SIZEOF_CHECKPOINT.
  destruct (Z.leb_spec 40 (zlen content)); cbn [andb].
  - assert (zlen (take 40 content) = 40) as Hz by (unfold zlen in *; rewrite length_take; lia).
    rewrite Hz. change (40 <? 40) with false. cbv iota.
    rewrite splice_full by (by rewrite zlen_checkpoint).
    set (k := checkpoint_of _). destruct (k_magic k =? NABD_CHECKPOINT_MAGIC); cbn [negb andb]; [|done].
    by destruct (k_checksum k =? compute_checksum k).
  - assert (zlen (take 40 content) < 40) as Hz by (unfold zlen in *; rewrite length_take; lia).
    by zb_true (zlen (take 40 content) <? 40).
Qed.

Lemma lxor_cancel a b c : Z.lxor a b = Z.lxor a c -> b = c.
Proof.
  intros Hx. apply (f_equal (Z.lxor a)) in Hx.
  by rewrite <- !Z.lxor_assoc, Z.lxor_nilpotent, !Z.lxor_0_l in Hx.
Qed.

(** What the checksum detects.  Of two checkpoints that both carry their own
    checksum, one cannot be the other with a single checked field changed (magic,
    timestamp, group, position or checksum): every corruption confined to one such
    field is rejected.  The padding is not checked, and exchanging two fields is not
    detected. *)
Theorem checksum_detects_single_field c1 c2 :
  checkpoint_wf c1 -> checkpoint_wf c2 ->
  k_checksum c1 = compute_checksum c1 -> k_checksum c2 = compute_checksum c2 ->
  (k_timestamp c1 = k_timestamp c2 -> k_group_id c1 = k_group_id c2 -> k_tail c1 = k_tail c2 ->
     k_magic c1 = k_magic c2 -> k_checksum c1 = k_checksum c2) /\
  (k_checksum c1 = k_checksum c2 -> k_magic c1 = k_magic c2 ->
     (k_timestamp c1 = k_timestamp c2 -> k_group_id c1 = k_group_id c2 -> k_tail c1 = k_tail c2) /\
     (k_timestamp c1 = k_timestamp c2 -> k_tail c1 = k_tail c2 -> k_group_id c1 = k_group_id c2) /\
     (k_group_id c1 = k_group_id c2 -> k_tail c1 = k_tail c2 -> k_timestamp c1 = k_timestamp c2)) /\
  (let swapped := Checkpoint (k_magic c1) (k_tail c1) (k_group_id c1) 77 (k_timestamp c1)
                             (k_checksum c1) in
   k_checksum swapped = compute_checksum swapped).
Proof.
  intros W1 W2 H1 H2. rewrite H1, H2. rewrite !checksum_rotate. split_and!.
  - intros Ht Hg Hp Hm. unfold xor_fields. by rewrite Ht, Hg, Hp, Hm.
  - intros He Hm. apply rotate13_inj in He; [|by apply xor_fields_range..].
    unfold xor_fields in He. rewrite Hm in He. split_and!; intros E1 E2; rewrite E1, E2 in He.
    + by eapply lxor_cancel.
    + rewrite !(Z.lxor_comm _ (k_tail c2)) in He. by apply lxor_cancel, lxor_cancel in He.
    + rewrite !(Z.lxor_comm _ (k_tail c2)), !(Z.lxor_comm _ (k_group_id c2)) in He.
      by apply lxor_cancel, lxor_cancel, lxor_cancel in He.
  - cbv zeta. cbn [k_checksum]. rewrite checksum_rotate. apply (f_equal rotate13).
    unfold xor_fields. cbn [k_magic k_timestamp k_group_id k_tail].
    apply Z.bits_inj. intros n. rewrite !Z.lxor_spec.
    by destruct (Z.testbit _ n), (Z.testbit _ n), (Z.testbit _ n), (Z.testbit _ n).
Qed.

(** A resume with a free group. *)
Lemma resume_run q k H T ms M m ck alloc2 j g :
  ring q k H T ms m -> placed q k M m -> checkpoint_wf ck ->
  list_find (fun g => g_active g = 0) (groups m M) = Some (j, g) ->
  let id := assigned_id (k_group_id ck) j in
  exists m', nabd_consumer_resume (fun _ => false) true alloc2 (Some q) (Some ck) m
  = Some (Some (NabdConsumer q (group_addr M j) id), m') /\
  groups m' M = <[j := Group (Z.min (k_tail ck) (u64 H)) 1 id]> (groups m M) /\
  ring q k H T ms m' /\ placed q k M m'.
Proof.
  intros R Hp Wk Hfind id. pose proof (r_wf _ _ _ _ _ _ R) as W.
  assert (pick (fun _ => false) 0 (groups m M) = Some j) as E.
  { rewrite list_find_pick in Hfind. destruct (pick _ 0 (groups m M)) as [j'|]; [|done].
    simpl in Hfind. destruct (groups m M !! j'); simpl in Hfind; congruence. }
  destruct (pick_lt _ _ _ _ E) as [Hj _].
  unfold nabd_consumer_resume.
  pose proof (create_run q k M W (fun _ => false) true m (k_group_id ck) Hp) as Ec. rewrite E in Ec.
  cbv zeta in Ec. fold id in Ec. set (m1 := claim_mem M m j id (rd 8 m OFF_HEAD)) in *.
  rewrite (bind_ret _ _ _ _ _ Ec). cbn beta iota.
  erewrite bind_ret by reflexivity. cbn beta iota.
  assert (0 <= id < 2 ^ 32) as Hid by (apply assigned_id_range, Wk).
  destruct (claim_groups q k M W m j id (rd 8 m OFF_HEAD)) as [Hf Hgs]; try done.
  { rewrite (r_head _ _ _ _ _ _ R). apply u64_range. }
  fold m1 in Hf, Hgs.
  assert (ring q k H T ms m1) as R1
    by (eapply ring_after; [done|exact R|by eapply placed_after|exact Hf]).
  assert (placed q k M m1) as Hp1 by (by eapply placed_frame).
  erewrite bind_ret by (eapply ring_ld_head; exact R1). cbn [cn_group].
  set (t := Z.min (k_tail ck) (u64 H)).
  assert (in_mem m1 (group_addr M j + GRP_TAIL) 8) as Hin
    by (eapply (placed_in q k M m1 j GRP_TAIL 8); [exact W|exact Hp1|unfold GRP_TAIL, SIZEOF_GROUP; lia..]).
  assert ((if u64 H <? k_tail ck
           then st 8 (group_addr M j + GRP_TAIL) (u64 H)
           else st 8 (group_addr M j + GRP_TAIL) (k_tail ck)) m1
          = Some (tt, wr 8 m1 (group_addr M j + GRP_TAIL) t)) as Est.
  { unfold t. destruct (Z.ltb_spec (u64 H) (k_tail ck)); rewrite st_in by done; do 3 f_equal; lia. }
  rewrite (bind_ret _ _ _ _ _ Est). eexists. split; [reflexivity|].
  assert (0 <= t < 2 ^ 64) as Ht by (pose proof (u64_range H); destruct Wk; unfold t; lia).
  destruct (set_tail_groups q k M W m1 j t) as [Hf2 Hgs2]; [done..|].
  split; [|split; [eapply ring_after; [done|exact R1|by eapply placed_after|exact Hf2]|by eapply placed_frame]].
  rewrite Hgs2. assert (read_group m1 M j = Group (rd 8 m OFF_HEAD) 1 id) as ->.
  { pose proof (groups_lookup M m1 j Hj) as Hl. rewrite Hgs in Hl.
    rewrite list_lookup_insert_eq in Hl by (rewrite groups_length; lia). congruence. }
  cbn [g_active g_id]. by rewrite Hgs, list_insert_insert_eq.
Qed.

(** Resuming.  When a group is free (and the compare-and-swaps do not fail), the
    first free group is claimed for the checkpoint's identifier, at the checkpointed
    position but not beyond the head; no other group changes, not even one that is
    already active under the same identifier, and the queue is untouched.  The
    position is not checked against data that has been overwritten. *)
Theorem resume_claims_and_restores q k H T ms M m ck alloc2 j g :
  ring q k H T ms m -> placed q k M m -> checkpoint_wf ck ->
  list_find (fun g => g_active g = 0) (groups m M) = Some (j, g) ->
  let id := assigned_id (k_group_id ck) j in
  exists m', nabd_consumer_resume (fun _ => false) true alloc2 (Some q) (Some ck) m
  = Some (Some (NabdConsumer q (group_addr M j) id), m') /\
  groups m' M = <[j := Group (Z.min (k_tail ck) (u64 H)) 1 id]> (groups m M) /\
  ring q k H T ms m'.
Proof.
  intros R Hp Wk Hfind. destruct (resume_run q k H T ms M m ck alloc2 j g R Hp Wk Hfind)
    as (m' & E & Hg & R' & _). by exists m'.
Qed.

(** ** Witnesses *)

Lemma diagnose_healthy_queue_witness :
  @wp sys (Z * option nabd_diagnostic_t) (@nabd_diagnose simple (Some "/q") (Some (diag0 NABD_STATE_STALE)))
    (with_queue sample_two)
    (fun r s' => quiet (with_queue sample_two) s' /\
      (r = (0, Some (Diagnostic NABD_STATE_OK 2 0 2 1 1 2 16)) \/
       (refusal (with_queue sample_two) s' /\ not_diagnosed r))).
Proof.
  apply (@diagnose_healthy_queue simple (SimplePosix_laws no_faults) (with_queue sample_two) "/q" 5
           sample_two sample_q (sample_fifo [msg_a; msg_b]));
    [done|done|exact sample_is_fifo_two|vm_compute; congruence].
Defined.

(** A foreign segment, without and with force; a segment just created; no segment. *)
Lemma recover_effect_witness :
  let foreign := replicate 288 Byte.x00 in
  match @nabd_recover simple (Some "/q") false (with_queue foreign) with
  | Some (r, _) => r = NABD_CORRUPTED
  | None => False
  end /\
  wp (@nabd_recover simple (Some "/q") true) (with_queue foreign) (fun r s' =>
    s_shm s' = s_shm (with_queue foreign) /\ same_resources (with_queue foreign) s' /\
    (((r = NABD_NOTFOUND \/ r = NABD_SYSERR) /\ s_obj s' = {[5%nat := foreign]} /\
      refusal (with_queue foreign) s') \/
     (r = NABD_OK /\ s_obj s' = <[5%nat := emptied foreign]> {[5%nat := foreign]}))) /\
  @nabd_recover simple (Some "/q") true (with_queue []) = None /\
  wlp (@nabd_recover simple (Some "/q") true) (with_queue []) (fun r s' =>
    (r = NABD_NOTFOUND \/ r = NABD_SYSERR) /\ quiet (with_queue []) s' /\ refusal (with_queue []) s') /\
  wp (@nabd_recover simple (Some "/q") true) boot (fun r s' => r = NABD_NOTFOUND /\ quiet boot s').
Proof.
  intros foreign. split; [vm_compute; reflexivity|].
  split; [|split; [vm_compute; reflexivity|split]].
  - apply (@recover_effect simple (SimplePosix_laws no_faults) (with_queue foreign) "/q" true foreign);
      [reflexivity|vm_compute; congruence].
  - by apply (@recover_effect simple (SimplePosix_laws no_faults) (with_queue []) "/q" true []).
  - exact (@recover_effect simple (SimplePosix_laws no_faults) boot "/q" true).
Defined.

Lemma force_reset_limits_witness :
  health (emptied (replicate 288 Byte.x00)) = NABD_STATE_CORRUPTED /\
  wlp (@nabd_open simple (Some "/q") 0 0 NABD_CONSUMER) (with_queue (emptied (replicate 288 Byte.x00)))
    (fun r _ => r = None).
Proof.
  destruct (@force_reset_limits simple (SimplePosix_laws no_faults) (replicate 288 Byte.x00))
    as (_ & _ & _ & H & _); [vm_compute; congruence|].
  destruct H as [H1 H2]; [vm_compute; congruence|]. split; [exact H1|].
  by apply (H2 _ _ 5%nat).
Defined.

Lemma checkpoint_save_load_witness :
  exists fs' k,
  nabd_checkpoint_save (Io true None) (1700000000, 5) (Some (NabdConsumer sample_mq (group_addr 320 0) 7))
    (Some "/tmp/c") ∅ sample_groups = Some (0, fs', sample_groups) /\
  nabd_checkpoint_load (Io true None) (Some "/tmp/c") (Some (Checkpoint 0 0 0 0 0 0)) fs' = (0, Some k) /\
  k_group_id k = 7.
Proof.
  destruct (checkpoint_save_load (1700000000, 5) (NabdConsumer sample_mq (group_addr 320 0) 7) "/tmp/c" ∅
              sample_groups (Checkpoint 0 0 0 0 0 0)) as (fs' & k & H1 & H2 & H3 & _).
  - simpl. lia.
  - vm_compute. repeat split; congruence.
  - exists fs', k. split_and!; assumption.
Defined.

Lemma sample_checkpoint_wf : checkpoint_wf sample_checkpoint.
Proof. split; vm_compute; split; congruence. Qed.

Lemma checksum_detects_single_field_witness :
  let swapped := Checkpoint NABD_CHECKPOINT_MAGIC 1 7 77 1000 (k_checksum sample_checkpoint) in
  k_checksum swapped = compute_checksum swapped.
Proof.
  apply (checksum_detects_single_field sample_checkpoint sample_checkpoint
           sample_checkpoint_wf sample_checkpoint_wf); reflexivity.
Defined.

Lemma resume_claims_and_restores_witness :
  exists m', nabd_consumer_resume (fun _ => false) true true (Some sample_mq) (Some sample_checkpoint) sample_groups
  = Some (Some (NabdConsumer sample_mq (group_addr 320 2) 7), m') /\
  groups m' 320 !! 0%nat = Some (Group 0 1 7) /\ groups m' 320 !! 2%nat = Some (Group 1 1 7).
Proof.
  destruct (resume_claims_and_restores sample_mq 1 2 0 [msg_a; msg_b] 320 sample_groups sample_checkpoint
              true 2 (Group 0 0 0) sample_groups_ring) as (m' & E & Hg & _);
    [vm_compute; repeat split; congruence|exact sample_checkpoint_wf|vm_compute; reflexivity|].
  exists m'. split; [exact E|]. rewrite Hg. split; vm_compute; reflexivity.
Defined.
