(* ===== verification/Crash.v ===== *)
(** * Restart after a crash

    The producer and the consumer of Spsc.v are stopped at any point of any call, and
    somebody runs [nabd_recover] and [nabd_open] on what is left in shared memory: the
    composition of the concurrent queue with Persistence.v and Lifecycle.v.  And a group
    consumer stops after it saved a checkpoint, and another one resumes from the file. *)

From S2P Require Import Prelude Words Pow2 Memory Layout Fifo Queue Ring Sample Posix Lifecycle LifecycleCorrect MultiConsumer GroupsCorrect Spsc SpscInv SpscCorrect Persistence PersistenceCorrect.
Local Open Scope string_scope.
Local Open Scope Z_scope.

(** The messages in flight, as the FIFO a later process should find. *)
Definition survivors (q : nabd) (s : state) : fifo :=
  Fifo (q_capacity q) (q_slot_size q - SIZEOF_HEADER)
       (drop (length (st_popped s)) (map kept (st_pushed s))).

(** What two stopped threads leave in memory. *)
Lemma left_behind q k m s :
  ring q k 0 0 [] m -> reachable q m s ->
  exists nH nT, ring q k (Z.of_nat nH) (Z.of_nat nT) (ff_msgs (survivors q s)) (sh_mem (st_sh s)).
Proof.
  intros R Hr. pose proof (r_wf _ _ _ _ _ _ R) as W.
  destruct (reachable_inv q k W m s R Hr) as (nH & nT & I). exists nH, nT.
  pose proof (i_ring _ _ _ _ _ _ _ _ _ _ _ I) as R'. pose proof (inv_order q k _ _ _ _ _ _ _ _ _ I) as Ho.
  pose proof (i_nH _ _ _ _ _ _ _ _ _ _ _ I) as HnH. rewrite length_map in HnH.
  assert (length (st_popped s) = nT) as HnT.
  { rewrite (i_popped _ _ _ _ _ _ _ _ _ _ _ I), length_take, length_map. lia. }
  unfold survivors. simpl. by rewrite HnT.
Qed.

(** C11: restart after a crash.  Whatever the producer and the consumer were doing when
    they stopped, [nabd_recover], forced or not, finds nothing to repair and changes no
    segment, and an [nabd_open] that attaches afterwards gets the queue with exactly the
    messages that had been published and not removed, in order and byte for byte: a
    half-written message is not seen, and one that was copied but not yet removed is
    delivered again.  Only where the operating system refuses a request does one of the
    two calls fail, and then nothing is changed either.  It does not matter whether the
    indices have wrapped. *)
Theorem crash_restart {P : Posix} {L : PosixLaws P} q k m s name sy o force capacity slot_size flags :
  ring q k 0 0 [] m -> reachable q m s ->
  s_shm sy !! name = Some o -> s_obj sy !! o = Some (sh_mem (st_sh s)) ->
  flags_ok flags -> has_flag flags NABD_CREATE = false ->
  wp (nabd_recover (Some name) force) sy (fun r sy1 =>
    s_obj sy1 = s_obj sy /\ s_shm sy1 = s_shm sy /\ same_resources sy sy1 /\
    (r = NABD_OK \/ ((r = NABD_NOTFOUND \/ r = NABD_SYSERR) /\ refusal sy sy1)) /\
    wp (nabd_open (Some name) capacity slot_size flags) sy1 (fun h sy2 =>
      match h with
      | None => refusal sy1 sy2
      | Some (_, h) => opened (survivors q s) sy2 h /\ s_obj sy2 = s_obj sy
      end)).
Proof.
  intros R Hr Hn Ho Hfl Hc. destruct (left_behind q k m s R Hr) as (nH & nT & R').
  destruct (health_ring _ _ _ _ _ _ R') as [Hlen Hh].
  assert (is_fifo q (survivors q s) (sh_mem (st_sh s))) as Hf by (by exists k, (Z.of_nat nH), (Z.of_nat nT)).
  eapply wp_mono; [apply (recover_spec sy name o _ force Hn Ho Hlen)|].
  intros r sy1 (Hs & Hres & He).
  assert (s_obj sy1 = s_obj sy /\ (r = NABD_OK \/ ((r = NABD_NOTFOUND \/ r = NABD_SYSERR) /\ refusal sy sy1))) as [Hobj Hcode].
  { destruct He as [([->| ->] & ? & ?)|[-> ?]]; [auto|auto|]. by destruct Hh as [Hh|Hh]; rewrite Hh in *; destruct force; auto. }
  split_and!; [done..|].
  eapply wp_mono; [apply (attach_spec name capacity slot_size flags sy1 o (sh_mem (st_sh s)) q (survivors q s));
    [done|done|congruence|congruence|exact Hf]|].
  intros [[? h]|] sy2; [|done]. intros [? ?]. split; [done|congruence].
Qed.

(** The group a resume has claimed reads what the queue holds from its position on. *)
Lemma ring_stream q k H T ms m M j t :
  ring q k H T ms m -> placed q k M m -> (j < 16)%nat -> 0 <= T <= t -> t <= H -> H < 2 ^ 64 ->
  rd 8 m (group_addr M j + GRP_TAIL) = t ->
  stream q k H t (drop (Z.to_nat (t - T)) ms) m (group_addr M j).
Proof.
  intros R (Hq & Hp1 & Hp2) Hj HT Ht HH Hrd. pose proof (r_count _ _ _ _ _ _ R) as Hc.
  pose proof (r_bound _ _ _ _ _ _ R). unfold group_addr, MULTI_GROUPS, SIZEOF_GROUP, SIZEOF_MULTI in *.
  split; try apply R; try done; try lia.
  - unfold SIZEOF_GROUP. lia.
  - rewrite (r_head _ _ _ _ _ _ R). apply u64_small. lia.
  - unfold zlen in *. rewrite length_drop. lia.
  - intros i d Hi. rewrite lookup_drop in Hi. pose proof (r_msgs _ _ _ _ _ _ R _ _ Hi) as Hh.
    by replace (t + Z.of_nat i) with (T + Z.of_nat (Z.to_nat (t - T) + i)) by lia.
Qed.

(** C37: a consumer restarts from its checkpoint.  A group consumer saves a checkpoint; some
    time later, when its position then is still held by the queue, [head] is below 2^64
    and a group is free, another process loads the file and resumes; if the file can be
    written and read, the allocation succeeds and no compare-and-swap fails spuriously
    (the code reports these failures as errors or NULL), it gets a handle on a group that reads
    exactly the messages from the checkpointed position on, in order, up to the head.
    What had been read after the checkpoint is read again, nothing is left out. *)
Theorem consumer_restarts_from_checkpoint q k H T ms M m c path fs m0 ts old alloc2 :
  0 <= cn_group_id c < 2 ^ 32 -> in_mem m0 (cn_group c + GRP_TAIL) 8 ->
  ring q k H T ms m -> placed q k M m -> Exists (fun g => g_active g = 0) (groups m M) ->
  let t := rd 8 m0 (cn_group c + GRP_TAIL) in
  0 <= T <= t -> t <= H -> H < 2 ^ 64 ->
  exists fs' ck c' m',
    nabd_checkpoint_save (Io true None) ts (Some c) (Some path) fs m0 = Some (NABD_OK : Z, fs', m0) /\
    nabd_checkpoint_load (Io true None) (Some path) (Some old) fs' = (NABD_OK : Z, Some ck) /\
    nabd_consumer_resume (fun _ => false) true alloc2 (Some q) (Some ck) m = Some (Some c', m') /\
    stream q k H t (drop (Z.to_nat (t - T)) ms) m' (cn_group c') /\ ring q k H T ms m'.
Proof.
  intros Hid Hin R Hp Hfree t HT Ht HH. pose proof (r_wf _ _ _ _ _ _ R) as W.
  destruct (save_then_load ts c path fs m0 old Hid Hin) as (fs' & ck & Hsave & Hload & _ & Etail & _ & Hwf).
  destruct (proj1 (Exists_exists _ _) Hfree) as (g0 & Hg0 & Ha0).
  destruct (list_find_elem_of (fun g => g_active g = 0) (groups m M) g0 Hg0 Ha0) as [[j g] Hj].
  destruct (resume_run q k H T ms M m ck alloc2 j g R Hp Hwf Hj) as (m' & E & Hgs & R' & Hp').
  apply list_find_Some in Hj as (Hj & _). apply lookup_lt_Some in Hj. rewrite groups_length in Hj.
  exists fs', ck, (NabdConsumer q (group_addr M j) (assigned_id (k_group_id ck) j)), m'.
  split_and!; try done. cbn [cn_group].
  apply (ring_stream q k H T ms m' M j); try done.
  pose proof (groups_lookup M m' j Hj) as Hl. rewrite Hgs in Hl.
  rewrite list_lookup_insert_eq in Hl by (by rewrite groups_length).
  injection Hl as Hl _ _. rewrite <- Hl, Etail, u64_small by lia. fold t. lia.
Qed.

(** Stopped with one message popped, one in flight that the consumer is copying, and one
    half written. *)
Lemma crash_restart_witness :
  survivors sample_q sample_state = sample_fifo [msg_b] /\
  wp (@nabd_recover simple (Some "/q") true) (with_queue (sh_mem (st_sh sample_state))) (fun r sy1 =>
    s_obj sy1 = {[5%nat := sh_mem (st_sh sample_state)]}).
Proof.
  split; [vm_compute; reflexivity|].
  eapply wp_mono.
  - apply (@crash_restart simple (SimplePosix_laws no_faults) sample_q 1 sample_mem sample_state "/q"
             (with_queue (sh_mem (st_sh sample_state))) 5%nat true 0 0 NABD_CONSUMER);
      [exact sample_ring|exact sample_state_reachable|reflexivity|reflexivity
      |by right|reflexivity].
  - intros r sy1 (Hobj & _). exact Hobj.
Defined.

(** Group 7 at position 0 saves; both messages are still there for the resumed consumer. *)
Lemma consumer_restarts_from_checkpoint_witness :
  exists fs' ck c' m',
    nabd_checkpoint_save (Io true None) (1700000000, 5) (Some (NabdConsumer sample_mq (group_addr 320 0) 7))
      (Some "/tmp/c") ∅ sample_groups = Some (0, fs', sample_groups) /\
    nabd_consumer_resume (fun _ => false) true true (Some sample_mq) (Some ck) sample_groups = Some (Some c', m') /\
    stream sample_mq 1 2 0 [msg_a; msg_b] m' (cn_group c').
Proof.
  assert (rd 8 sample_groups (group_addr 320 0 + GRP_TAIL) = 0) as Et by (vm_compute; reflexivity).
  destruct (consumer_restarts_from_checkpoint sample_mq 1 2 0 [msg_a; msg_b] 320 sample_groups
              (NabdConsumer sample_mq (group_addr 320 0) 7) "/tmp/c" ∅ sample_groups (1700000000, 5)
              (Checkpoint 0 0 0 0 0 0) true) as (fs' & ck & c' & m' & H1 & _ & H3 & H4 & _).
  - simpl. lia.
  - vm_compute. repeat split; congruence.
  - exact sample_groups_ring.
  - vm_compute. repeat split; congruence.
  - apply Exists_exists. exists (Group 0 0 0). split; [|reflexivity].
    apply (list_elem_of_lookup_2 _ 2%nat). vm_compute. reflexivity.
  - cbn [cn_group]. rewrite Et. lia.
  - cbn [cn_group]. rewrite Et. lia.
  - reflexivity.
  - exists fs', ck, c', m'. split; [exact H1|]. split; [exact H3|].
    cbn [cn_group] in H4. rewrite Et in H4. exact H4.
Defined.
