(* ===== verification/Format.v ===== *)
(** * Formatted output of the C library

    Of [printf] and [snprintf] the model has what the formats of the repository use:
    literal text, [%llu], [%zu], [%d], [%03d], [%s] and [%%]. *)

From S2P Require Import Prelude Words Memory.
From Stdlib Require Strings.String.
From stdpp Require Export strings.
Local Open Scope Z_scope.

(** ** Printing *)

Definition digit (d : Z) : byte := byte.of_Z (48 + d).

(** The decimal digits of [n], most significant first; twenty suffice for 64 bits. *)
Fixpoint digits (fuel : nat) (n : Z) : list byte :=
  match fuel with
  | O => []
  | S fuel => (if n <? 10 then [] else digits fuel (n / 10)) ++ [digit (n mod 10)]
  end.

Definition print_u64 (n : Z) : list byte := digits 20 n.
Definition print_int (n : Z) : list byte :=
  if n <? 0 then Byte.x2d :: digits 20 (- n) else digits 20 n.

(** [%03d]: the sign, then zeros and digits up to a width of three. *)
Definition print_int3 (n : Z) : list byte :=
  let sign := if n <? 0 then [Byte.x2d] else [] in
  let ds := digits 20 (Z.abs n) in
  sign ++ replicate (3 - length sign - length ds) Byte.x30 ++ ds.

(** The directives of a format with their arguments. *)
Inductive directive :=
  | Lit (s : string)     (* literal text *)
  | Chr (b : byte)       (* one literal character: newline, quote, percent *)
  | Llu (n : Z)          (* [%llu] and [%zu] *)
  | Dec (n : Z)          (* [%d] *)
  | Dec3 (n : Z)         (* [%03d] *)
  | Str (bs : list byte) (* [%s], with the bytes of the string *).

Definition render (d : directive) : list byte :=
  match d with
  | Lit s => String.list_byte_of_string s
  | Chr b => [b]
  | Llu n => print_u64 n
  | Dec n => print_int n
  | Dec3 n => print_int3 n
  | Str bs => bs
  end.

Definition render_all (ds : list directive) : list byte := concat (map render ds).

(** [snprintf(buf, bufsize, ...)] with [bufsize > 0]: at most [bufsize - 1] bytes and a
    terminator are written, the length of the whole text is returned; writing past the
    end of the caller's buffer is undefined. *)
Definition snprintf (buf : list byte) (bufsize : Z) (ds : list directive) : option (Z * list byte) :=
  let text := render_all ds in
  let out := take (Z.to_nat (bufsize - 1)) text ++ [Byte.x00] in
  if zlen out <=? zlen buf then Some (zlen text, splice buf 0 out) else None.

(** The string an array holds: its bytes up to the first NUL.  Without one, reading it as a
    string runs past its end, which is undefined. *)
Fixpoint c_string (bs : list byte) : option (list byte) :=
  match bs with
  | [] => None
  | b :: bs => if decide (b = Byte.x00) then Some [] else cons b <$> c_string bs
  end.

Definition nl : directive := Chr Byte.x0a.
Definition quote : directive := Chr Byte.x22.
Definition percent : directive := Chr Byte.x25.

(** ** Reading numbers back *)

Definition digit_value (b : byte) : option Z :=
  let z := byte.unsigned b in if (48 <=? z) && (z <=? 57) then Some (z - 48) else None.

Definition flush (cur : option Z) : list Z := match cur with Some n => [n] | None => [] end.

(** The maximal runs of digits of a text, as numbers; [cur] is the run being read. *)
Fixpoint scan (cur : option Z) (bs : list byte) : list Z :=
  match bs with
  | [] => flush cur
  | b :: bs =>
      match digit_value b with
      | Some d => scan (Some (10 * default 0 cur + d)) bs
      | None => flush cur ++ scan None bs
      end
  end.

(** The arguments of a list of directives. *)
Definition arguments (ds : list directive) : list Z :=
  omap (fun d => match d with Llu n | Dec n => Some n | _ => None end) ds.

(** ** Lemmas *)

Lemma digit_value_digit d : 0 <= d < 10 -> digit_value (digit d) = Some d.
Proof.
  intros Hd. assert (d ∈ seqZ 0 10) as Hin by (apply elem_of_seqZ; lia).
  assert (Forall (fun d => digit_value (digit d) = Some d) (seqZ 0 10)) as Hall
    by (repeat constructor).
  rewrite Forall_forall in Hall. by apply Hall.
Qed.

Lemma scan_digits fuel n cur rest :
  0 <= n < 10 ^ Z.of_nat fuel -> (0 < fuel)%nat ->
  scan cur (digits fuel n ++ rest)
  = scan (Some (default 0 cur * 10 ^ Z.of_nat (length (digits fuel n)) + n)) rest.
Proof.
  revert n cur rest. induction fuel as [|fuel IH]; intros n cur rest Hn Hf; [lia|].
  cbn [digits]. case_zb.
  - cbn [app scan length]. rewrite digit_value_digit by (apply Z.mod_pos_bound; lia).
    rewrite Z.mod_small by lia. do 2 f_equal. lia.
  - assert (0 < fuel)%nat. { destruct fuel; [|lia]. simpl in Hn. lia. }
    rewrite Nat2Z.inj_succ, Z.pow_succ_r in Hn by lia.
    rewrite <- app_assoc. rewrite IH; [|split; [apply Z.div_pos; lia|apply Z.div_lt_upper_bound; lia]|done].
    cbn [app scan default]. rewrite digit_value_digit by (apply Z.mod_pos_bound; lia).
    rewrite length_app. cbn [length]. rewrite Nat2Z.inj_add, Z.pow_add_r by lia.
    change (10 ^ Z.of_nat 1) with 10. unfold id. do 2 f_equal.
    pose proof (Z.div_mod n 10 ltac:(lia)). lia.
Qed.

(** Text without digits ends the run being read. *)
Lemma scan_text cur bs rest :
  Forall (fun b => digit_value b = None) bs -> bs <> [] ->
  scan cur (bs ++ rest) = flush cur ++ scan None rest.
Proof.
  intros Hf Hne. destruct bs as [|b bs]; [done|]. apply Forall_cons in Hf as [Hb Hf].
  cbn [app scan]. rewrite Hb. f_equal. clear b Hb Hne.
  induction Hf as [|b bs Hb Hf IH]; [done|]. cbn [app scan]. rewrite Hb. cbn [flush app]. done.
Qed.

Lemma zlen_render ds : zlen (render_all ds) = foldr (fun d n => zlen (render d) + n) 0 ds.
Proof.
  unfold render_all. induction ds as [|d ds IH]; [done|]. cbn [map concat foldr].
  by rewrite zlen_app, IH.
Qed.

Lemma snprintf_run buf size ds :
  0 < size <= zlen buf ->
  let out := take (Z.to_nat (size - 1)) (render_all ds) ++ [Byte.x00] in
  snprintf buf size ds = Some (zlen (render_all ds), splice buf 0 out) /\ zlen out <= size.
Proof.
  intros Hs out. assert (zlen out <= size) as Ho.
  { unfold out, zlen in *. rewrite length_app, length_take. simpl. lia. }
  split; [|done]. unfold snprintf. fold out. by zb_true (zlen out <=? zlen buf).
Qed.

(** With room for all of the text. *)
Lemma snprintf_whole buf size ds :
  0 < size <= zlen buf -> zlen (render_all ds) < size ->
  exists buf', snprintf buf size ds = Some (zlen (render_all ds), buf') /\
  slice buf' 0 (zlen (render_all ds) + 1) = render_all ds ++ [Byte.x00].
Proof.
  intros Hs Hl. destruct (snprintf_run buf size ds Hs) as [E Ho]. eexists. split; [exact E|].
  pose proof (zlen_nonneg (render_all ds)).
  rewrite (take_ge (render_all ds)) in * by (unfold zlen in *; lia).
  assert (zlen (render_all ds ++ [Byte.x00]) = zlen (render_all ds) + 1) as Hz by (by rewrite zlen_app).
  rewrite <- Hz. apply slice_splice_same; lia.
Qed.
