(* ===== verification/Metrics.v ===== *)
(** * Metrics (src/metrics.c)

    The metrics and snapshot structures, the throughput between two snapshots, and the
    two formatters over Format.v.  A clock reading is an argument. *)

From S2P Require Import Prelude Words Pow2 Memory Layout Fifo Queue Ring Format.
Local Open Scope Z_scope.

(** ** Data *)

Record nabd_metrics_t := Metrics {
  m_head : Z; m_tail : Z; m_pending : Z;
  m_capacity : Z; m_slot_size : Z; m_used_bytes : Z; m_fill_pct : Z;
  m_total_pushed : Z; m_total_popped : Z; m_push_per_sec : Z; m_pop_per_sec : Z;
  m_avg_latency_ns : Z; m_p50_latency_ns : Z; m_p99_latency_ns : Z; m_max_latency_ns : Z;
  m_full_events : Z; m_empty_events : Z
}.

Record nabd_snapshot_t := Snapshot {
  sn_timestamp_ns : Z; sn_head : Z; sn_tail : Z; sn_pushed : Z; sn_popped : Z
}.

(** ** Collecting *)

(** [(uint64_t)ts.tv_sec * 1000000000ULL + ts.tv_nsec] *)
Definition get_nanos (ts : Z * Z) : Z := add64 (mul64 (u64 (fst ts)) 1000000000) (snd ts).

Definition nabd_get_metrics (q : option nabd) (metrics : option nabd_metrics_t)
    : C (Z * option nabd_metrics_t) :=
  match q, metrics with
  | Some h, Some _ =>
      head ← ld 8 OFF_HEAD;
      tail ← ld 8 OFF_TAIL;
      let pending := if tail <=? head then sub64 head tail else 0 in
      let used_bytes := mul64 pending (q_slot_size h) in
      let fill_pct := if 0 <? q_capacity h
                      then to_int (mul64 pending 100 / q_capacity h) else 0 in
      mret (NABD_OK : Z,
            Some (Metrics head tail pending (q_capacity h) (q_slot_size h) used_bytes fill_pct
                          head tail 0 0 0 0 0 0 0 0))
  | _, _ => mret (NABD_INVALID : Z, metrics)
  end.

Definition nabd_take_snapshot (ts : Z * Z) (q : option nabd) (snapshot : option nabd_snapshot_t)
    : C (Z * option nabd_snapshot_t) :=
  match q, snapshot with
  | Some _, Some _ =>
      head ← ld 8 OFF_HEAD;
      tail ← ld 8 OFF_TAIL;
      mret (NABD_OK : Z, Some (Snapshot (get_nanos ts) head tail head tail))
  | _, _ => mret (NABD_INVALID : Z, snapshot)
  end.

Definition nabd_calc_throughput (prev curr : option nabd_snapshot_t) : Z :=
  match prev, curr with
  | Some prev, Some curr =>
      let time_diff := sub64 (sn_timestamp_ns curr) (sn_timestamp_ns prev) in
      if time_diff =? 0 then 0 else
      let msg_diff := add64 (sub64 (sn_pushed curr) (sn_pushed prev))
                            (sub64 (sn_popped curr) (sn_popped prev)) in
      mul64 msg_diff 1000000000 / time_diff
  | _, _ => 0
  end.

(** ** Formatting *)

Definition metrics_text (m : nabd_metrics_t) : list directive :=
  [Lit "NABD Queue Metrics:"; nl;
   Lit "  Head: "; Llu (m_head m); Lit ", Tail: "; Llu (m_tail m);
   Lit ", Pending: "; Llu (m_pending m); nl;
   Lit "  Capacity: "; Llu (m_capacity m); Lit " slots ("; Llu (m_slot_size m);
   Lit " bytes/slot)"; nl;
   Lit "  Fill: "; Dec (m_fill_pct m); percent; Lit " ("; Llu (m_used_bytes m);
   Lit " bytes used)"; nl;
   Lit "  Total pushed: "; Llu (m_total_pushed m); Lit ", popped: "; Llu (m_total_popped m); nl].

(** One member of the JSON object, up to its value. *)
Definition member (name : string) : list directive :=
  [Lit "  "; quote; Lit name; quote; Lit ": "].

Definition comma : list directive := [Lit ","; nl].

Definition metrics_json (m : nabd_metrics_t) : list directive :=
  [Lit "{"; nl] ++
  member "head" ++ Llu (m_head m) :: comma ++
  member "tail" ++ Llu (m_tail m) :: comma ++
  member "pending" ++ Llu (m_pending m) :: comma ++
  member "capacity" ++ Llu (m_capacity m) :: comma ++
  member "slot_size" ++ Llu (m_slot_size m) :: comma ++
  member "fill_pct" ++ Dec (m_fill_pct m) :: comma ++
  member "used_bytes" ++ Llu (m_used_bytes m) :: comma ++
  member "total_pushed" ++ Llu (m_total_pushed m) :: comma ++
  member "total_popped" ++ Llu (m_total_popped m) :: [nl; Lit "}"].

Definition nabd_format_metrics (metrics : option nabd_metrics_t) (buf : option (list byte))
    (bufsize : Z) : option (Z * option (list byte)) :=
  match metrics, buf with
  | Some m, Some b =>
      if bufsize =? 0 then Some (-1, buf)
      else '(n, b') ← snprintf b bufsize (metrics_text m); Some (n, Some b')
  | _, _ => Some (-1, buf)
  end.

Definition nabd_format_metrics_json (metrics : option nabd_metrics_t) (buf : option (list byte))
    (bufsize : Z) : option (Z * option (list byte)) :=
  match metrics, buf with
  | Some m, Some b =>
      if bufsize =? 0 then Some (-1, buf)
      else '(n, b') ← snprintf b bufsize (metrics_json m); Some (n, Some b')
  | _, _ => Some (-1, buf)
  end.
