(* ===== verification/MetricsCorrect.v ===== *)
(** * Metrics: correctness

    The theorems about Metrics.v. *)

From S2P Require Import Prelude Words Pow2 Memory Layout Fifo Queue Ring Sample Format Metrics.
Local Open Scope Z_scope.

(** ** Definitions *)

Definition sample_metrics : nabd_metrics_t := Metrics 2 0 2 2 16 32 100 2 0 0 0 0 0 0 0 0 0.

(** Every field has a value of its type, and the percentage is not negative. *)
Definition metrics_wf (m : nabd_metrics_t) : Prop :=
  Forall (fun z => 0 <= z < 2 ^ 64)
    [m_head m; m_tail m; m_pending m; m_capacity m; m_slot_size m; m_used_bytes m;
     m_total_pushed m; m_total_popped m] /\ 0 <= m_fill_pct m < 2 ^ 31.

(** Text that is not empty and has no digit. *)
Definition textual (d : directive) : bool :=
  negb (bool_decide (render d = [])) &&
  forallb (fun b => match digit_value b with None => true | Some _ => false end) (render d).

(** Numbers in range, with text between any two of them. *)
Fixpoint well_separated (after_number : bool) (ds : list directive) : Prop :=
  match ds with
  | [] => True
  | Llu n :: ds => after_number = false /\ 0 <= n < 2 ^ 64 /\ well_separated true ds
  | Dec n :: ds => after_number = false /\ 0 <= n < 2 ^ 31 /\ well_separated true ds
  | d :: ds => textual d = true /\ well_separated false ds
  end.

(** The two formatters and their texts. *)
Definition format_with (json : bool) := if json then nabd_format_metrics_json else nabd_format_metrics.
Definition directives_of (json : bool) := if json then metrics_json else metrics_text.

(** ** Lemmas *)

Lemma get_nanos_eq ts : get_nanos ts = u64 (fst ts * 1000000000 + snd ts).
Proof.
  unfold get_nanos, add64, mul64, u64. rewrite Zplus_mod_idemp_l.
  rewrite Z.add_mod, Z.mul_mod, Z.mod_mod, <- Z.mul_mod, <- Z.add_mod by lia. done.
Qed.

Lemma scan_llu n rest :
  0 <= n < 2 ^ 64 -> scan None (print_u64 n ++ rest) = scan (Some n) rest.
Proof. intros Hn. unfold print_u64. rewrite scan_digits by lia. done. Qed.

Lemma scan_dec n rest :
  0 <= n < 2 ^ 31 -> scan None (print_int n ++ rest) = scan (Some n) rest.
Proof.
  intros Hn. unfold print_int. zb_false (n <? 0). by rewrite scan_digits by lia.
Qed.

(** Numbers read back from a list of directives in which text separates them. *)
Lemma textual_spec d : textual d = true -> forall cur rest,
  scan cur (render d ++ rest) = flush cur ++ scan None rest.
Proof.
  unfold textual. intros Ht cur rest. apply andb_true_iff in Ht as [Hne Hf].
  apply scan_text.
  - apply Forall_forall. intros b Hb. rewrite forallb_forall in Hf.
    apply list_elem_of_In in Hb. specialize (Hf b Hb). by destruct (digit_value b).
  - by destruct (render d).
Qed.

Lemma scan_directives_from ds :
  (well_separated false ds -> scan None (render_all ds) = arguments ds) /\
  (well_separated true ds -> forall n, scan (Some n) (render_all ds) = n :: arguments ds).
Proof.
  induction ds as [|d ds [IH1 IH2]]; [done|]. unfold render_all, arguments in *.
  destruct d as [s|b|n|n|n|bs]; cbn [map concat well_separated omap list_omap];
    try (split; [intros [Ht Hd]|intros [Ht Hd] n0]; rewrite (textual_spec _ Ht), IH1 by done; done).
  - split; [|by intros []]. intros (_ & Hn & Hd). cbn [render]. by rewrite scan_llu, IH2.
  - split; [|by intros []]. intros (_ & Hn & Hd). cbn [render]. by rewrite scan_dec, IH2.
Qed.

Lemma scan_directives ds : well_separated false ds -> scan None (render_all ds) = arguments ds.
Proof. apply scan_directives_from. Qed.

(** ** The theorems *)

(** The metrics report the FIFO.  While the indices have not wrapped relative to each
    other: the number of pending messages, the bytes in use, and the fill percentage
    are those of the queue, and the totals are the two positions. *)
Theorem get_metrics_reports_fifo q f m x :
  is_fifo q f m -> rd 8 m OFF_TAIL <= rd 8 m OFF_HEAD -> ff_bound f * 100 < 2 ^ 64 ->
  let n := zlen (ff_msgs f) in
  let h := rd 8 m OFF_HEAD in
  let t := rd 8 m OFF_TAIL in
  nabd_get_metrics (Some q) (Some x) m
  = Some (NABD_OK : Z,
          Some (Metrics h t n (ff_bound f) (q_slot_size q) (n * q_slot_size q)
                        (n * 100 / ff_bound f) h t 0 0 0 0 0 0 0 0), m) /\
  0 <= n * 100 / ff_bound f <= 100.
Proof.
  intros (k & H & T & R & Hb & Hx) Hw Hbig n h t. pose proof (r_wf _ _ _ _ _ _ R) as W.
  pose proof (r_count _ _ _ _ _ _ R). pose proof (r_bound _ _ _ _ _ _ R).
  pose proof (wf_cap _ _ W). pose proof (pow_k _ _ W). pose proof (wf_size _ _ W).
  pose proof (wf_slot _ _ W). assert (0 <= n) by apply zlen_nonneg. fold n in H0.
  destruct (percentage n (ff_bound f)) as [Hpct Hl]; [lia..|]. split; [|done]. unfold nabd_get_metrics.
  assert (h = u64 H /\ t = u64 T) as [Hh Ht] by (split; apply R).
  rewrite (bind_ret _ _ _ _ _ (ring_ld_head _ _ _ _ _ _ R)).
  rewrite (bind_ret _ _ _ _ _ (ring_ld_tail _ _ _ _ _ _ R)). cbv zeta.
  rewrite (ring_used _ _ _ _ _ _ R), <- Hh, <- Ht. fold n.
  zb_true (t <=? h). zb_true (0 <? q_capacity q). rewrite <- Hb.
  unfold SIZEOF_CONTROL, SIZEOF_HEADER in *.
  rewrite Hpct. unfold mul64. by rewrite u64_small by nia.
Qed.

(** Throughput.  Two snapshots of one queue, [dt] nanoseconds apart, between which
    [dh] messages were pushed and [dt'] popped, give (dh + dt') * 10^9 / dt messages
    per second, also when the indices or the clock wrap between them; 0 when no time
    has passed. *)
Theorem throughput_between_snapshots q k H1 T1 ms1 m1 H2 T2 ms2 m2 ts1 ts2 x :
  ring q k H1 T1 ms1 m1 -> ring q k H2 T2 ms2 m2 -> H1 <= H2 -> T1 <= T2 ->
  let dt := (fst ts2 * 1000000000 + snd ts2) - (fst ts1 * 1000000000 + snd ts1) in
  let moved := (H2 - H1) + (T2 - T1) in
  0 <= dt < 2 ^ 64 -> moved * 1000000000 < 2 ^ 64 ->
  exists s1 s2,
    nabd_take_snapshot ts1 (Some q) (Some x) m1 = Some (NABD_OK : Z, Some s1, m1) /\
    nabd_take_snapshot ts2 (Some q) (Some x) m2 = Some (NABD_OK : Z, Some s2, m2) /\
    nabd_calc_throughput (Some s1) (Some s2)
    = if decide (dt = 0) then 0 else moved * 1000000000 / dt.
Proof.
  intros R1 R2 HH HT dt moved Hdt Hm. eexists _, _. unfold nabd_take_snapshot.
  rewrite (bind_ret _ _ _ _ _ (ring_ld_head _ _ _ _ _ _ R1)).
  rewrite (bind_ret _ _ _ _ _ (ring_ld_tail _ _ _ _ _ _ R1)). split; [reflexivity|].
  rewrite (bind_ret _ _ _ _ _ (ring_ld_head _ _ _ _ _ _ R2)).
  rewrite (bind_ret _ _ _ _ _ (ring_ld_tail _ _ _ _ _ _ R2)). split; [reflexivity|].
  unfold nabd_calc_throughput. cbn [sn_timestamp_ns sn_pushed sn_popped].
  rewrite !get_nanos_eq, !sub64_u64. fold dt. rewrite !(u64_small dt) by done.
  rewrite add64_u64_l. unfold mul64.
  assert (u64 (H2 - H1 + u64 (T2 - T1)) = moved) as ->.
  { assert (0 <= moved) by (unfold moved; lia).
    rewrite (u64_small (T2 - T1)) by (unfold moved in *; lia). apply u64_small. fold moved. lia. }
  case_decide; [by zb_true (dt =? 0)|]. zb_false (dt =? 0).
  rewrite u64_small; [done|]. unfold moved in *. lia.
Qed.

(** C40: the formatted text carries the metrics.  With a buffer longer than the text, both
    formatters write the whole text and a terminator and return its length, and the
    numbers in the text, read as decimals, are exactly the nine reported metrics: the
    text and the JSON object lose nothing. *)
Theorem format_roundtrip m buf size :
  metrics_wf m -> size <= zlen buf ->
  let json := render_all (metrics_json m) in
  let text := render_all (metrics_text m) in
  (zlen json < size -> exists buf',
     nabd_format_metrics_json (Some m) (Some buf) size = Some (zlen json, Some buf') /\
     slice buf' 0 (zlen json + 1) = json ++ [Byte.x00]) /\
  (zlen text < size -> exists buf',
     nabd_format_metrics (Some m) (Some buf) size = Some (zlen text, Some buf') /\
     slice buf' 0 (zlen text + 1) = text ++ [Byte.x00]) /\
  scan None json
  = [m_head m; m_tail m; m_pending m; m_capacity m; m_slot_size m; m_fill_pct m; m_used_bytes m;
     m_total_pushed m; m_total_popped m] /\
  scan None text
  = [m_head m; m_tail m; m_pending m; m_capacity m; m_slot_size m; m_fill_pct m; m_used_bytes m;
     m_total_pushed m; m_total_popped m].
Proof.
  intros [Hwf Hpct] Hs json text.
  repeat match goal with H : Forall _ (_ :: _) |- _ => apply Forall_cons in H as [? H] end.
  pose proof (zlen_nonneg json). pose proof (zlen_nonneg text). split_and!.
  - intros Hl. unfold nabd_format_metrics_json. zb_false (size =? 0).
    destruct (snprintf_whole buf size (metrics_json m)) as (b' & E & Hb); [lia|done|].
    rewrite E. cbn [mbind option_bind]. by exists b'.
  - intros Hl. unfold nabd_format_metrics. zb_false (size =? 0).
    destruct (snprintf_whole buf size (metrics_text m)) as (b' & E & Hb); [lia|done|].
    rewrite E. cbn [mbind option_bind]. by exists b'.
  - apply (scan_directives (metrics_json m)). unfold metrics_json, member, comma, nl, quote.
    cbn [app well_separated]. clear -H H0 H1 H2 H3 H4 H5 H6 Hpct. split_and!; exact eq_refl || lia.
  - apply (scan_directives (metrics_text m)). unfold metrics_text, nl, percent.
    cbn [well_separated]. clear -H H0 H1 H2 H3 H4 H5 H6 Hpct. split_and!; exact eq_refl || lia.
Qed.

(** No overrun.  For every buffer of at least the given non-zero size, whatever the
    metrics, a formatter is defined, writes only inside the first [size] bytes,
    terminates what it wrote, and returns the length the whole text has, so that a
    result of [size] or more tells the caller that the text was cut. *)
Theorem format_stays_in_buffer json m buf size :
  0 < size <= zlen buf ->
  let text := render_all (directives_of json m) in
  let cut := take (Z.to_nat (size - 1)) text in
  exists buf', format_with json (Some m) (Some buf) size = Some (zlen text, Some buf') /\
  zlen buf' = zlen buf /\ zlen cut < size /\ slice buf' 0 (zlen cut + 1) = cut ++ [Byte.x00] /\
  forall off n, size <= off -> 0 <= n -> slice buf' off n = slice buf off n.
Proof.
  intros Hs text cut. destruct (snprintf_run buf size (directives_of json m) Hs) as [E Ho].
  fold text in E, Ho. fold cut in E, Ho.
  exists (splice buf 0 (cut ++ [Byte.x00])). split.
  { unfold format_with, nabd_format_metrics, nabd_format_metrics_json.
    destruct json; zb_false (size =? 0); unfold directives_of in E; rewrite E; done. }
  clearbody cut. assert (zlen (cut ++ [Byte.x00]) = zlen cut + 1) as Hz by (by rewrite zlen_app).
  pose proof (zlen_nonneg cut). clear E text. split_and!; [apply zlen_splice; lia|lia| |].
  - rewrite <- Hz. apply slice_splice_same; lia.
  - intros off n Hoff Hn. apply slice_splice_disjoint; lia.
Qed.

(** ** Witnesses *)

Lemma get_metrics_reports_fifo_witness :
  nabd_get_metrics (Some sample_q) (Some (Metrics 0 0 0 0 0 0 0 0 0 0 0 0 0 0 0 0 0)) sample_two
  = Some (0, Some sample_metrics, sample_two).
Proof.
  apply (get_metrics_reports_fifo sample_q (sample_fifo [msg_a; msg_b]) sample_two
           (Metrics 0 0 0 0 0 0 0 0 0 0 0 0 0 0 0 0 0) sample_is_fifo_two); vm_compute; congruence.
Defined.

Lemma throughput_between_snapshots_witness :
  exists s1 s2,
    nabd_take_snapshot (10, 0) (Some sample_q) (Some (Snapshot 0 0 0 0 0)) sample_mem = Some (0, Some s1, sample_mem) /\
    nabd_take_snapshot (10, 500000000) (Some sample_q) (Some (Snapshot 0 0 0 0 0)) sample_two = Some (0, Some s2, sample_two) /\
    nabd_calc_throughput (Some s1) (Some s2) = 4.
Proof.
  apply (throughput_between_snapshots sample_q 1 0 0 [] sample_mem 2 0 [msg_a; msg_b] sample_two
           (10, 0) (10, 500000000) (Snapshot 0 0 0 0 0) sample_ring sample_ring_two);
    vm_compute; repeat split; congruence.
Defined.

Lemma sample_metrics_wf : metrics_wf sample_metrics.
Proof. split; [repeat constructor; vm_compute; congruence|vm_compute; split; congruence]. Qed.

Lemma format_roundtrip_witness :
  scan None (render_all (metrics_json sample_metrics)) = [2; 0; 2; 2; 16; 100; 32; 2; 0].
Proof.
  destruct (format_roundtrip sample_metrics (replicate 300 Byte.x00) 300 sample_metrics_wf)
    as (_ & _ & H & _); [vm_compute; congruence|exact H].
Defined.

Lemma format_stays_in_buffer_witness :
  exists buf', nabd_format_metrics_json (Some sample_metrics) (Some (replicate 9 Byte.x2a)) 8
  = Some (zlen (render_all (metrics_json sample_metrics)), Some buf') /\ slice buf' 8 1 = [Byte.x2a].
Proof.
  destruct (format_stays_in_buffer true sample_metrics (replicate 9 Byte.x2a) 8)
    as (buf' & E & _ & _ & _ & Hd); [vm_compute; split; congruence|].
  exists buf'. split; [exact E|]. apply (Hd 8 1); lia.
Defined.
