(* ===== verification/Observe.v ===== *)
(** * Questions asked of a running queue

    [nabd_empty], [nabd_full], [nabd_stats], [nabd_fill_level], [nabd_get_metrics] and
    [nabd_diagnose] each load the two positions, one after the other, while the producer
    and the consumer of Spsc.v go on.  They can be called by the producer or the consumer
    between their own calls, or by a third process that only looks.  This file has the
    loads of each function with their memory orders, the system of the two threads and
    the askers, and its invariant; the theorems are in ObserveCorrect.v. *)

From S2P Require Import Prelude Words Pow2 Memory Layout Fifo Queue Ring Spsc SpscInv Persistence.
Local Open Scope Z_scope.

(** ** The functions as two loads *)

Inductive order := Relaxed | Acquire.

(** What a relaxed load of a question has seen is forgotten: a later load of the same
    thread may read an older message, which C11 excludes, so the model has every run of
    the code and more. *)
Definition load_word (l : word * order) (ts : nat) (sh : shared) (v : view) : option (Z * view) :=
  match l.2 with
  | Relaxed => '(x, _) ← NABD_LOAD_RELAXED l.1 ts sh v; Some (x, v)
  | Acquire => NABD_LOAD_ACQUIRE l.1 ts sh v
  end.

Inductive query := QEmpty | QFull | QStats | QFill | QMetrics | QDiagnose.

Inductive answer :=
  | Code (n : Z)                                  (* the returned number *)
  | Used (head tail used : Z)                     (* nabd_stats_t *)
  | Pending (head tail pending fill_pct : Z)      (* nabd_metrics_t *)
  | Diagnosis (d : nabd_diagnostic_t).

(** The first load, the second, and the answer from the two values. *)
Record two_loads := TwoLoads {
  tl_first : word * order;
  tl_second : word * order;
  tl_answer : Z -> Z -> answer
}.

Section Queries.
Context (q : nabd).

Definition empty_loads : two_loads :=
  TwoLoads (Tail, Relaxed) (Head, Acquire) (fun tail head => Code (if tail =? head then 1 else 0)).

Definition full_loads : two_loads :=
  TwoLoads (Head, Relaxed) (Tail, Acquire) (fun head tail =>
    Code (if q_capacity q <=? sub64 head tail then 1 else 0)).

Definition stats_loads : two_loads :=
  TwoLoads (Head, Relaxed) (Tail, Relaxed) (fun head tail => Used head tail (sub64 head tail)).

Definition fill_loads : two_loads :=
  TwoLoads (Head, Relaxed) (Tail, Relaxed) (fun head tail =>
    Code (if q_capacity q =? 0 then 0
          else to_int (mul64 (sub64 head tail) 100 / q_capacity q))).

Definition metrics_loads : two_loads :=
  TwoLoads (Head, Relaxed) (Tail, Relaxed) (fun head tail =>
    let pending := if tail <=? head then sub64 head tail else 0 in
    Pending head tail pending
      (if 0 <? q_capacity q then to_int (mul64 pending 100 / q_capacity q) else 0)).

(** The plain [atomic_load] of [nabd_diagnose] is sequentially consistent, so at least
    an acquire load.  The magic number, the version, the capacity and the slot size it
    also reads are written before the queue is used and never again; they are those of
    the handle.  [questions_are_the_functions] compares this with the whole function. *)
Definition diagnose_loads : two_loads :=
  TwoLoads (Head, Acquire) (Tail, Acquire) (fun head tail =>
    Diagnosis (classify head tail (q_capacity q) (q_slot_size q))).

Definition program (f : query) : two_loads :=
  match f with
  | QEmpty => empty_loads
  | QFull => full_loads
  | QStats => stats_loads
  | QFill => fill_loads
  | QMetrics => metrics_loads
  | QDiagnose => diagnose_loads
  end.

(** An asker: between questions, or after the first load. *)
Inductive qpc := QIdle | QHalf (f : query) (x : Z).

(** Its next step; [f] is the question it asks next, [ts] the message a load reads. *)
Definition q_next (f : query) (ts : nat) (sh : shared) (pc : qpc) (v : view)
    : option (option (query * answer) * qpc * view) :=
  match pc with
  | QIdle =>
      '(x, v') ← load_word (tl_first (program f)) ts sh v;
      Some (None, QHalf f x, v')
  | QHalf f x =>
      '(y, v') ← load_word (tl_second (program f)) ts sh v;
      Some (Some (f, tl_answer (program f) x y), QIdle, v')
  end.

(** ** The system *)

Inductive who := Producer | Consumer | Third.

(** A step of a call, a load of a question, the answer to it. *)
Inductive label := Works (e : evt) | Asks | Answers (f : query) (a : answer).

Definition label_of (r : option (query * answer)) : label :=
  match r with Some (f, a) => Answers f a | None => Asks end.

Record ostate := OState {
  o_st : state;
  o_pq : qpc;          (* the question of the producer *)
  o_cq : qpc;          (* of the consumer *)
  o_xq : qpc;          (* of the third process *)
  o_xv : view          (* what the third process has seen *)
}.

Definition set_pv (v : view) (s : state) : state :=
  State (st_sh s) (st_pp s) v (st_cp s) (st_cv s) (st_pushed s) (st_popped s).
Definition set_cv (v : view) (s : state) : state :=
  State (st_sh s) (st_pp s) (st_pv s) (st_cp s) v (st_pushed s) (st_popped s).

(** A thread asks between its calls, and makes no call before it has the answer. *)
Inductive ostep (s : ostate) : who -> label -> ostate -> Prop :=
  | o_p a ts e sh pc v :
      o_pq s = QIdle ->
      p_next q a ts (st_sh (o_st s)) (st_pp (o_st s)) (st_pv (o_st s)) = Some (e, sh, pc, v) ->
      ostep s Producer (Works e)
        (OState (State sh pc v (st_cp (o_st s)) (st_cv (o_st s))
                       (st_pushed (o_st s) ++ moved e) (st_popped (o_st s)))
                QIdle (o_cq s) (o_xq s) (o_xv s))
  | o_c a ts e sh pc v :
      o_cq s = QIdle ->
      c_next q a ts (st_sh (o_st s)) (st_cp (o_st s)) (st_cv (o_st s)) = Some (e, sh, pc, v) ->
      ostep s Consumer (Works e)
        (OState (State sh (st_pp (o_st s)) (st_pv (o_st s)) pc v
                       (st_pushed (o_st s)) (st_popped (o_st s) ++ moved e))
                (o_pq s) QIdle (o_xq s) (o_xv s))
  | o_p_query f ts r pc v :
      p_rest (st_pp (o_st s)) = true ->
      q_next f ts (st_sh (o_st s)) (o_pq s) (st_pv (o_st s)) = Some (r, pc, v) ->
      ostep s Producer (label_of r) (OState (set_pv v (o_st s)) pc (o_cq s) (o_xq s) (o_xv s))
  | o_c_query f ts r pc v :
      c_rest (st_cp (o_st s)) = true ->
      q_next f ts (st_sh (o_st s)) (o_cq s) (st_cv (o_st s)) = Some (r, pc, v) ->
      ostep s Consumer (label_of r) (OState (set_cv v (o_st s)) (o_pq s) pc (o_xq s) (o_xv s))
  | o_x_query f ts r pc v :
      q_next f ts (st_sh (o_st s)) (o_xq s) (o_xv s) = Some (r, pc, v) ->
      ostep s Third (label_of r) (OState (o_st s) (o_pq s) (o_cq s) pc v).

Definition o_initial (m : mem) : ostate := OState (initial m) QIdle QIdle QIdle view0.

(** A run with what was seen of it, oldest first. *)
Inductive orun : ostate -> list (who * label) -> ostate -> Prop :=
  | orun_nil s : orun s [] s
  | orun_cons s w l s1 tr s2 : ostep s w l s1 -> orun s1 tr s2 -> orun s ((w, l) :: tr) s2.

End Queries.
