(* ===== verification/ObserveInv.v ===== *)
(** * Questions asked of a running queue: invariant

    Every reachable state of Observe.v satisfies the invariant of SpscInv.v, what an asker
    has seen is never from the future, and a head position was published by a producer
    that had seen enough of the tail. *)

From S2P Require Import Prelude Words Pow2 Memory Layout Fifo Queue Ring Spsc SpscInv Observe.
Local Open Scope Z_scope.

Section ObserveInv.
Context (q : nabd) (k : Z) (W : wf_handle q k).

(** Message [i] of the head's history was released by a producer that had seen tail [i]
    minus the capacity, or later. *)
Definition hist_room (h : list (Z * view)) : Prop :=
  forall i x w, h !! i = Some (x, w) -> Z.of_nat i <= Z.of_nat (v_tail w) + 2 ^ k.

(** After the first load: a position not older than the last one seen, the one seen if
    it was an acquire load; and after an acquire load of the head, the tail seen is at
    most a capacity behind. *)
Definition qpc_ok (sh : shared) (v : view) (pc : qpc) : Prop :=
  match pc with
  | QIdle => True
  | QHalf f x => exists n, x = u64 (Z.of_nat n) /\
      let l := tl_first (program q f) in
      (seen l.1 v <= n < length (hist l.1 sh))%nat /\
      (l = (Head, Acquire) -> n = v_head v /\ Z.of_nat n <= Z.of_nat (v_tail v) + 2 ^ k)
  end.

Record obs_ok (s : ostate) (nH nT : nat) : Prop := {
  ob_inv : inv q k (st_sh (o_st s)) (st_pp (o_st s)) (st_pv (o_st s)) (st_cp (o_st s))
             (st_cv (o_st s)) (map kept (st_pushed (o_st s))) (st_popped (o_st s)) nH nT;
  ob_room : hist_room (sh_head (st_sh (o_st s)));
  ob_x : vok (sh_head (st_sh (o_st s))) (sh_tail (st_sh (o_st s)))
             (v_p (st_pv (o_st s))) (v_c (st_cv (o_st s))) (o_xv s);
  ob_pq : qpc_ok (st_sh (o_st s)) (st_pv (o_st s)) (o_pq s);
  ob_cq : qpc_ok (st_sh (o_st s)) (st_cv (o_st s)) (o_cq s);
  ob_xq : qpc_ok (st_sh (o_st s)) (o_xv s) (o_xq s);
  ob_busy : (o_pq s <> QIdle -> p_rest (st_pp (o_st s)) = true) /\
            (o_cq s <> QIdle -> c_rest (st_cp (o_st s)) = true)
}.

(** ** Loads *)

Section Loads.
Context (sh : shared) (pp : ppc) (vp : view) (cp : cpc) (vc : view).
Context (pushed popped : list msg) (nH nT : nat).
Context (I : inv q k sh pp vp cp vc pushed popped nH nT).

(** What any thread learns from a load of either word. *)
Lemma load_word_ok l ts v x v' :
  vok (sh_head sh) (sh_tail sh) (v_p vp) (v_c vc) v -> load_word l ts sh v = Some (x, v') ->
  x = u64 (Z.of_nat ts) /\ (seen l.1 v <= ts < length (hist l.1 sh))%nat /\
  (v_head v <= v_head v')%nat /\ (v_tail v <= v_tail v')%nat /\
  (v_p v <= v_p v')%nat /\ (v_c v <= v_c v')%nat /\
  vok (sh_head sh) (sh_tail sh) (v_p vp) (v_c vc) v' /\
  match l.2 with
  | Relaxed => v' = v
  | Acquire => seen l.1 v' = ts /\
      (l.1 = Head -> hist_room (sh_head sh) -> Z.of_nat ts <= Z.of_nat (v_tail v') + 2 ^ k)
  end.
Proof.
  intros Hv. destruct l as [[] []]; unfold load_word, NABD_LOAD_RELAXED, NABD_LOAD_ACQUIRE; simpl;
    (case_match eqn:E; [done|]); apply Nat.ltb_ge in E.
  - destruct (sh_head sh !! ts) as [[y w]|] eqn:El; [|done]. simpl. intros [= <- <-].
    pose proof (lookup_lt_Some _ _ _ El).
    destruct (load_head q k _ _ _ _ _ _ _ _ _ I v ts y w El Hv E) as (-> & _). by split_and!.
  - destruct (sh_head sh !! ts) as [[y w]|] eqn:El; [|done]. simpl. intros [= <- <-].
    pose proof (lookup_lt_Some _ _ _ El).
    destruct (load_head q k _ _ _ _ _ _ _ _ _ I v ts y w El Hv E) as (-> & _ & -> & Hts & Hok).
    split_and!; try done; try (simpl; lia). intros _ Hr.
    specialize (Hr _ _ _ El). simpl. lia.
  - destruct (sh_tail sh !! ts) as [[y w]|] eqn:El; [|done]. simpl. intros [= <- <-].
    pose proof (lookup_lt_Some _ _ _ El).
    destruct (load_tail q k _ _ _ _ _ _ _ _ _ I v ts y w El Hv E) as (-> & _). by split_and!.
  - destruct (sh_tail sh !! ts) as [[y w]|] eqn:El; [|done]. simpl. intros [= <- <-].
    pose proof (lookup_lt_Some _ _ _ El).
    destruct (load_tail q k _ _ _ _ _ _ _ _ _ I v ts y w El Hv E) as (-> & _ & -> & Hts & Hok).
    by split_and!; try (simpl; lia).
Qed.

(** A step of an asker. *)
Lemma q_next_ok f ts v pc r pc' v' :
  hist_room (sh_head sh) -> vok (sh_head sh) (sh_tail sh) (v_p vp) (v_c vc) v -> qpc_ok sh v pc ->
  q_next q f ts sh pc v = Some (r, pc', v') ->
  (v_head v <= v_head v')%nat /\ (v_tail v <= v_tail v')%nat /\
  (v_p v <= v_p v')%nat /\ (v_c v <= v_c v')%nat /\
  vok (sh_head sh) (sh_tail sh) (v_p vp) (v_c vc) v' /\ qpc_ok sh v' pc'.
Proof.
  intros Hroom Hv Hq. unfold q_next. destruct pc as [|g x].
  - destruct (load_word _ _ _ _) as [[x w]|] eqn:E; [|done]. simpl. intros [= <- <- <-].
    apply (load_word_ok _ _ _ _ _ Hv) in E as (-> & Hts & ? & ? & ? & ? & Hok & Hl).
    split_and!; try done. exists ts. split; [done|].
    destruct (tl_first (program q f)) as [l []] eqn:Hf; simpl in *; [subst w; by split|].
    destruct Hl as [Hs Hr]. split; [split; [lia|apply Hts]|]. intros [= ->]. simpl in Hs.
    split; [done|by apply Hr].
  - destruct (load_word _ _ _ _) as [[y w]|] eqn:E; [|done]. simpl. intros [= <- <- <-].
    apply (load_word_ok _ _ _ _ _ Hv) in E as (-> & Hts & ? & ? & ? & ? & Hok & Hl).
    by split_and!.
Qed.

(** ** The steps of the two threads *)

(** A step of the producer extends the head's history only, within the room it knows. *)
Lemma p_next_grows a ts e sh' pc v' :
  hist_room (sh_head sh) -> p_next q a ts sh pp vp = Some (e, sh', pc, v') ->
  hist_room (sh_head sh') /\ sh_tail sh' = sh_tail sh /\
  (exists h, sh_head sh' = sh_head sh ++ h) /\ (v_p vp <= v_p v')%nat.
Proof.
  intros Hroom. assert (forall v, v_p v = v_p vp \/ v_p v = S (v_p vp) ->
    hist_room (sh_head sh) /\ sh_tail sh = sh_tail sh /\ (exists h, sh_head sh = sh_head sh ++ h) /\
    (v_p vp <= v_p v)%nat) as Hq by (intros; split_and!; [done..|by exists []; rewrite app_nil_r|lia]).
  pose proof (i_pp _ _ _ _ _ _ _ _ _ _ _ I) as Hpp. unfold p_next.
  destruct pp as [|h|r|r h|d h|d h|d h].
  - destruct a; try done; try case_zb; intros [= <- <- <- <-]; apply Hq; auto.
  - destruct a; try done; try (intros [= <- <- <- <-]; apply Hq; auto).
    + case_zb; [done|]. destruct (store _ _ _) as [[[] m]|]; [|done].
      intros [= <- <- <- <-]. apply Hq; auto.
    + case_zb; [done|]. intros [= <- <- <- <-]. apply Hq; auto.
  - destruct (NABD_LOAD_RELAXED _ _ _ _) as [[x v]|] eqn:E; [|done].
    apply (relaxed_head q k _ _ _ _ _ _ _ _ _ I) in E as [-> ->]. intros [= <- <- <- <-]. apply Hq; auto.
  - destruct (NABD_LOAD_ACQUIRE _ _ _ _) as [[x v]|] eqn:E; [|done].
    apply (acquire_tail q k _ _ _ _ _ _ _ _ _ I) in E as (_ & _ & _ & Hp & _). cbn [mbind option_bind].
    case_zb; [intros [= <- <- <- <-]; apply Hq; auto|].
    destruct r; intros [= <- <- <- <-]; apply Hq; auto.
  - destruct (memcpy_in _ _ _ _) as [[[] m]|]; [|done]. intros [= <- <- <- <-]. apply Hq; auto.
  - destruct (fill_header _ _ _ _) as [[[] m]|]; [|done]. intros [= <- <- <- <-]. apply Hq; auto.
  - destruct Hpp as (-> & Hr & _). rewrite (release_store q k _ _ _ _ _ _ _ _ _ I). cbn.
    intros [= <- <- <- <-]. cbn. split_and!; [|done|by eexists|done].
    intros i x w [Hi|[Hge Hi]]%lookup_app_Some; [by eapply Hroom|].
    apply list_lookup_singleton_Some in Hi as [Hi [= <- <-]].
    pose proof (i_hlen _ _ _ _ _ _ _ _ _ _ _ I). cbn. lia.
Qed.

Lemma c_next_grows a ts e sh' pc v' :
  c_next q a ts sh cp vc = Some (e, sh', pc, v') ->
  sh_head sh' = sh_head sh /\ (exists h, sh_tail sh' = sh_tail sh ++ h) /\ (v_c vc <= v_c v')%nat.
Proof.
  assert (forall v, v_c v = v_c vc \/ v_c v = S (v_c vc) ->
    sh_head sh = sh_head sh /\ (exists h, sh_tail sh = sh_tail sh ++ h) /\ (v_c vc <= v_c v)%nat)
    as Hq by (intros; split_and!; [done|by exists []; rewrite app_nil_r|lia]).
  unfold c_next. destruct cp as [|t n|r|r t|r t|t n|d|t d].
  - destruct a; try done; intros [= <- <- <- <-]; apply Hq; auto.
  - destruct a; try (intros [= <- <- <- <-]; apply Hq; auto). case_match; [done|].
    destruct (load _ _ _) as [[bs m]|]; [|done]. intros [= <- <- <- <-]. apply Hq; auto.
  - destruct (NABD_LOAD_RELAXED _ _ _ _) as [[x v]|] eqn:E; [|done].
    apply (relaxed_tail q k _ _ _ _ _ _ _ _ _ I) in E as [-> ->]. intros [= <- <- <- <-]. apply Hq; auto.
  - destruct (NABD_LOAD_ACQUIRE _ _ _ _) as [[x v]|] eqn:E; [|done].
    apply (acquire_head q k _ _ _ _ _ _ _ _ _ I) in E as (_ & _ & _ & Hp & _). cbn [mbind option_bind].
    case_zb; intros [= <- <- <- <-]; apply Hq; auto.
  - destruct (ld _ _ _) as [[n m]|]; [|done]. simpl.
    destruct r; [case_zb|]; intros [= <- <- <- <-]; apply Hq; auto.
  - destruct (load _ _ _) as [[d m]|]; [|done]. intros [= <- <- <- <-]. apply Hq; auto.
  - destruct (NABD_LOAD_RELAXED _ _ _ _) as [[x v]|] eqn:E; [|done].
    apply (relaxed_tail q k _ _ _ _ _ _ _ _ _ I) in E as [-> ->]. intros [= <- <- <- <-]. apply Hq; auto.
  - rewrite (release_store q k _ _ _ _ _ _ _ _ _ I). cbn. intros [= <- <- <- <-].
    split_and!; [done|by eexists|done].
Qed.
End Loads.

(** ** Preservation *)

Lemma qpc_ok_grows sh sh' v pc :
  (length (sh_head sh) <= length (sh_head sh'))%nat -> (length (sh_tail sh) <= length (sh_tail sh'))%nat ->
  qpc_ok sh v pc -> qpc_ok sh' v pc.
Proof.
  destruct pc as [|f x]; [done|]. intros Hh Ht (n & -> & Hn & Ha). exists n. split; [done|].
  split; [|done]. destruct ((tl_first (program q f)).1); simpl in *; lia.
Qed.

(** A view that knows more keeps a thread at rest well placed. *)
Lemma ppc_ok_view sh pp v v' nH :
  p_rest pp = true -> (v_tail v <= v_tail v')%nat -> ppc_ok q k sh pp v nH -> ppc_ok q k sh pp v' nH.
Proof. destruct pp; simpl; try done. intros _ ? [? ?]. split; [done|lia]. Qed.

Lemma cpc_ok_view cp v v' pushed nT :
  c_rest cp = true -> (v_head v <= v_head v')%nat -> cpc_ok cp v pushed nT -> cpc_ok cp v' pushed nT.
Proof. destruct cp; simpl; try done. intros _ ? (? & ? & ?). split_and!; [done|lia|done]. Qed.

Lemma o_step_ok s w l s' nH nT :
  obs_ok s nH nT -> ostep q s w l s' -> exists nH' nT', obs_ok s' nH' nT'.
Proof.
  intros [I Hr Hx Hpq Hcq Hxq [Hb1 Hb2]] Hs.
  destruct Hs as [a ts e sh pc v Hi E|a ts e sh pc v Hi E|f ts r pc v Hi E|f ts r pc v Hi E|f ts r pc v E].
  - destruct (p_next_grows _ _ _ _ _ _ _ _ _ I a ts e sh pc v Hr E) as (Hr' & Et & [h Eh] & Hp).
    destruct (p_step_inv q k W _ _ _ _ _ _ _ _ _ _ _ _ _ _ _ I E) as (nH' & I').
    exists nH', nT. rewrite Hi in *.
    assert (length (sh_head (st_sh (o_st s))) <= length (sh_head sh))%nat by (rewrite Eh, length_app; lia).
    split; cbn [o_st o_pq o_cq o_xq o_xv st_sh st_pp st_pv st_cp st_cv st_pushed st_popped]; try done.
    + by rewrite map_app.
    + rewrite Eh, Et, <- (app_nil_r (sh_tail _)). eapply vok_mono; [exact Hx|done|done].
    + apply (qpc_ok_grows (st_sh (o_st s))); [lia|rewrite Et; lia|done].
    + apply (qpc_ok_grows (st_sh (o_st s))); [lia|rewrite Et; lia|done].
  - destruct (c_next_grows _ _ _ _ _ _ _ _ _ I a ts e sh pc v E) as (Eh & [h Et] & Hc).
    destruct (c_step_inv q k W _ _ _ _ _ _ _ _ _ _ _ _ _ _ _ I E) as (nT' & I').
    exists nH, nT'. rewrite Hi in *.
    assert (length (sh_tail (st_sh (o_st s))) <= length (sh_tail sh))%nat by (rewrite Et, length_app; lia).
    split; cbn [o_st o_pq o_cq o_xq o_xv st_sh st_pp st_pv st_cp st_cv st_pushed st_popped]; try done.
    + by rewrite Eh.
    + rewrite Eh, Et, <- (app_nil_r (sh_head _)). eapply vok_mono; [exact Hx|done|done].
    + apply (qpc_ok_grows (st_sh (o_st s))); [rewrite Eh; lia|lia|done].
    + apply (qpc_ok_grows (st_sh (o_st s))); [rewrite Eh; lia|lia|done].
  - exists nH, nT. pose proof (i_vp _ _ _ _ _ _ _ _ _ _ _ I) as Hvp.
    destruct (q_next_ok _ _ _ _ _ _ _ _ _ I f ts _ _ _ _ _ Hr Hvp Hpq E) as (Hh & Ht & Hp & Hc & Hv & Hq').
    pose proof (vk_p _ _ _ _ _ Hv). pose proof (vk_head _ _ _ _ _ Hv).
    pose proof (i_hlen _ _ _ _ _ _ _ _ _ _ _ I). pose proof (i_ph _ _ _ _ _ _ _ _ _ _ _ I).
    assert (v_p v = v_p (st_pv (o_st s))) as Hpe by lia.
    split; cbn [o_st o_pq o_cq o_xq o_xv st_sh st_pp st_pv st_cp st_cv st_pushed st_popped set_pv];
      rewrite ?Hpe; try done.
    apply (inv_p_view q k _ _ _ _ _ _ _ _ _ _ _ I); try done; [lia|].
    eapply ppc_ok_view; [done|exact Ht|apply (i_pp _ _ _ _ _ _ _ _ _ _ _ I)].
  - exists nH, nT. pose proof (i_vc _ _ _ _ _ _ _ _ _ _ _ I) as Hvc.
    destruct (q_next_ok _ _ _ _ _ _ _ _ _ I f ts _ _ _ _ _ Hr Hvc Hcq E) as (Hh & Ht & Hp & Hc & Hv & Hq').
    pose proof (vk_c _ _ _ _ _ Hv). pose proof (vk_tail _ _ _ _ _ Hv).
    pose proof (i_tlen _ _ _ _ _ _ _ _ _ _ _ I). pose proof (i_ct _ _ _ _ _ _ _ _ _ _ _ I).
    assert (v_c v = v_c (st_cv (o_st s))) as Hce by lia.
    split; cbn [o_st o_pq o_cq o_xq o_xv st_sh st_pp st_pv st_cp st_cv st_pushed st_popped set_cv];
      rewrite ?Hce; try done.
    apply (inv_c_view q k _ _ _ _ _ _ _ _ _ _ _ I); try done; [lia|].
    eapply cpc_ok_view; [done|exact Hh|apply (i_cp _ _ _ _ _ _ _ _ _ _ _ I)].
  - exists nH, nT.
    destruct (q_next_ok _ _ _ _ _ _ _ _ _ I f ts _ _ _ _ _ Hr Hx Hxq E) as (_ & _ & _ & _ & Hv & Hq').
    by split.
Qed.

Lemma o_initial_ok m : ring q k 0 0 [] m -> obs_ok (o_initial m) 0 0.
Proof.
  intros R. destruct (initial_inv q k W m R) as (nH & nT & I).
  assert (nH = 0%nat) as -> by apply (i_nH _ _ _ _ _ _ _ _ _ _ _ I).
  assert (nT = 0%nat) as -> by (pose proof (i_ct _ _ _ _ _ _ _ _ _ _ _ I); done).
  split; simpl; try done; try apply I.
  intros [|i] x w; [|done]. intros [= <- <-]. pose proof (pow_k _ _ W). simpl. lia.
Qed.

Lemma o_run_ok s tr s' nH nT :
  obs_ok s nH nT -> orun q s tr s' -> exists nH' nT', obs_ok s' nH' nT'.
Proof.
  intros Hok Hr. revert nH nT Hok. induction Hr as [|s w l s1 tr s2 Hs _ IH]; intros nH nT Hok; [eauto|].
  destruct (o_step_ok _ _ _ _ _ _ Hok Hs) as (nH' & nT' & Hok'). by eapply IH.
Qed.
End ObserveInv.
