(* ===== verification/ObserveCorrect.v ===== *)
(** * Questions asked of a running queue: correctness

    What the answers are worth.  The producer can rely on [nabd_full], the consumer on
    [nabd_empty], and both on bounds for [nabd_stats]; [nabd_diagnose] never finds a live
    queue corrupted; but [nabd_stats] and [nabd_fill_level], asked by a third process,
    can count backwards. *)

From S2P Require Import Prelude Words Pow2 Memory Layout Fifo Queue Ring Sample Spsc SpscInv SpscCorrect SpscRefine Backpressure Posix Lifecycle LifecycleCorrect Persistence PersistenceCorrect Metrics Observe ObserveInv.
Local Open Scope Z_scope.

(** ** What a side knows of the other *)

(** The producer knows of room, the consumer of a message. *)
Definition room_known (q : nabd) (s : state) : Prop :=
  in_flight (channel s) (ch_room (channel s)) < q_capacity q.
Definition message_known (s : state) : Prop :=
  (length (ch_received (channel s)) < ch_avail (channel s))%nat.

(** The message a label publishes or takes. *)
Definition delivered (l : label) : option msg :=
  match l with Works (Ret NABD_OK (Some d)) => Some d | _ => None end.

Lemma send_room cap maxlen c e c' :
  send_step cap maxlen c e c' -> in_flight c (ch_room c) < cap ->
  e <> Ret NABD_FULL None /\
  (in_flight c' (ch_room c') < cap \/ exists d, e = Ret NABD_OK (Some d)).
Proof.
  unfold in_flight. destruct 1 as [e He|n e Hn Hf He|n Hn Hf|d Hf Hd]; intros Hr; simpl in *.
  - split; [|auto]. by destruct He as [->|[->| ->]].
  - split; [|left; unfold in_flight in *; lia]. by destruct He as [->| ->].
  - unfold in_flight in *. lia.
  - split; [done|eauto].
Qed.

Lemma receive_message_known c e c' :
  receive_step c e c' -> (length (ch_received c) < ch_avail c)%nat ->
  e <> Ret NABD_EMPTY None /\
  ((length (ch_received c') < ch_avail c')%nat \/ exists d, e = Ret NABD_OK (Some d)).
Proof. destruct 1; intros Hr; simpl in *; split; try done; eauto; lia. Qed.

Lemma send_keeps_received cap maxlen c e c' :
  send_step cap maxlen c e c' -> ch_received c' = ch_received c /\ ch_avail c' = ch_avail c.
Proof. by destruct 1. Qed.

Lemma receive_keeps_sent c e c' :
  receive_step c e c' -> ch_sent c' = ch_sent c /\ ch_room c' = ch_room c.
Proof. by destruct 1. Qed.

Section Stable.
Context (q : nabd) (k : Z) (W : wf_handle q k).

(** Once known, room stays known until the producer publishes, and until then no call
    of the producer finds the queue full; the same for the consumer. *)
Lemma room_step s w l s' nH nT :
  obs_ok q k s nH nT -> room_known q (o_st s) -> ostep q s w l s' ->
  (w = Producer -> delivered l = None) ->
  room_known q (o_st s') /\ (w = Producer -> l <> Works (Ret NABD_FULL None)).
Proof.
  intros [I Hr Hx Hpq Hcq Hxq _] Hk Hs Hd. unfold room_known in *.
  destruct Hs as [a ts e sh pc v Hi E|a ts e sh pc v Hi E|f ts r pc v Hi E|f ts r pc v Hi E|f ts r pc v E].
  - pose proof (producer_simulated q k W _ _ _ _ _ _ _ _ _ I E) as Hsim.
    destruct (send_room _ _ _ _ _ Hsim Hk) as [Hne [Hroom|[d ->]]]; [|by specialize (Hd eq_refl)].
    split; [exact Hroom|]. intros _ [= ->]. done.
  - destruct (receive_keeps_sent _ _ _ (consumer_simulated q k W _ _ _ _ _ _ _ _ _ I E)) as [E1 E2].
    split; [|done]. unfold in_flight in *. cbn [o_st]. by rewrite E1, E2.
  - destruct (q_next_ok q k _ _ _ _ _ _ _ _ _ I f ts _ _ _ _ _ Hr (i_vp _ _ _ _ _ _ _ _ _ _ _ I) Hpq E)
      as (_ & Ht & _). split; [|by destruct r as [[? ?]|]].
    unfold in_flight in *. simpl in *. lia.
  - split; [exact Hk|done].
  - split; [exact Hk|done].
Qed.

Lemma message_step s w l s' nH nT :
  obs_ok q k s nH nT -> message_known (o_st s) -> ostep q s w l s' ->
  (w = Consumer -> delivered l = None) ->
  message_known (o_st s') /\ (w = Consumer -> l <> Works (Ret NABD_EMPTY None)).
Proof.
  intros [I Hr Hx Hpq Hcq Hxq _] Hk Hs Hd. unfold message_known in *.
  destruct Hs as [a ts e sh pc v Hi E|a ts e sh pc v Hi E|f ts r pc v Hi E|f ts r pc v Hi E|f ts r pc v E].
  - destruct (send_keeps_received _ _ _ _ _ (producer_simulated q k W _ _ _ _ _ _ _ _ _ I E)) as [E1 E2].
    split; [|done]. cbn [o_st]. by rewrite E1, E2.
  - pose proof (consumer_simulated q k W _ _ _ _ _ _ _ _ _ I E) as Hsim.
    destruct (receive_message_known _ _ _ Hsim Hk) as [Hne [Hroom|[d ->]]]; [|by specialize (Hd eq_refl)].
    split; [exact Hroom|]. intros _ [= ->]. done.
  - split; [exact Hk|done].
  - destruct (q_next_ok q k _ _ _ _ _ _ _ _ _ I f ts _ _ _ _ _ Hr (i_vc _ _ _ _ _ _ _ _ _ _ _ I) Hcq E)
      as (Hh & _). split; [|by destruct r as [[? ?]|]]. simpl in *. lia.
  - split; [exact Hk|done].
Qed.

(** What is known along a run in which the thread moves no message. *)
Lemma known_run w0 (K : state -> Prop) bad :
  (forall s w l s' nH nT, obs_ok q k s nH nT -> K (o_st s) -> ostep q s w l s' ->
     (w = w0 -> delivered l = None) -> K (o_st s') /\ (w = w0 -> l <> bad)) ->
  forall s tr s' nH nT, obs_ok q k s nH nT -> K (o_st s) -> orun q s tr s' ->
  (forall l, (w0, l) ∈ tr -> delivered l = None) -> (w0, bad) ∉ tr.
Proof.
  intros Hstep s tr s' nH nT Hok Hk Hr. revert nH nT Hok Hk.
  induction Hr as [|s w l s1 tr s2 Hs _ IH]; intros nH nT Hok Hk Hd; [apply not_elem_of_nil|].
  destruct (Hstep _ _ _ _ _ _ Hok Hk Hs) as [Hk' Hl].
  { intros ->. apply Hd. by left. }
  destruct (o_step_ok q k W _ _ _ _ _ _ Hok Hs) as (nH' & nT' & Hok').
  apply not_elem_of_cons. split; [intros [= <- <-]; by apply Hl|].
  eapply IH; [exact Hok'|exact Hk'|]. intros l' Hl'. apply Hd. by right.
Qed.
End Stable.

(** ** The positions behind an answer *)

Definition asker (s : ostate) (w : who) : qpc * view :=
  match w with
  | Producer => (o_pq s, st_pv (o_st s))
  | Consumer => (o_cq s, st_cv (o_st s))
  | Third => (o_xq s, o_xv s)
  end.

Section Answers.
Context (q : nabd) (k : Z) (W : wf_handle q k).

(** The two positions an answer is computed from: a word of one's own is read exactly,
    another's not older than the last time it was seen, and both existed. *)
Lemma answered s w f a s1 nH nT :
  obs_ok q k s nH nT -> ostep q s w (Answers f a) s1 ->
  st_pushed (o_st s1) = st_pushed (o_st s) /\ st_popped (o_st s1) = st_popped (o_st s) /\
  exists n1 n2, a = tl_answer (program q f) (u64 (Z.of_nat n1)) (u64 (Z.of_nat n2)) /\
    let l1 := tl_first (program q f) in
    let l2 := tl_second (program q f) in
    let sh := st_sh (o_st s) in
    (seen l1.1 (asker s w).2 <= n1 < length (hist l1.1 sh))%nat /\
    (seen l2.1 (asker s w).2 <= n2 < length (hist l2.1 sh))%nat /\
    (l1 = (Head, Acquire) -> Z.of_nat n1 <= Z.of_nat (v_tail (asker s w).2) + 2 ^ k) /\
    (l2.2 = Acquire -> seen l2.1 (asker s1 w).2 = n2).
Proof.
  intros [I Hr Hx Hpq Hcq Hxq _] Hs.
  assert (forall v pc f1 ts r pc' v', vok (sh_head (st_sh (o_st s))) (sh_tail (st_sh (o_st s)))
              (v_p (st_pv (o_st s))) (v_c (st_cv (o_st s))) v -> qpc_ok q k (st_sh (o_st s)) v pc ->
            q_next q f1 ts (st_sh (o_st s)) pc v = Some (r, pc', v') -> label_of r = Answers f a ->
    exists n1 n2, a = tl_answer (program q f) (u64 (Z.of_nat n1)) (u64 (Z.of_nat n2)) /\
    (seen (tl_first (program q f)).1 v <= n1 < length (hist (tl_first (program q f)).1 (st_sh (o_st s))))%nat /\
    (seen (tl_second (program q f)).1 v <= n2 < length (hist (tl_second (program q f)).1 (st_sh (o_st s))))%nat /\
    (tl_first (program q f) = (Head, Acquire) -> Z.of_nat n1 <= Z.of_nat (v_tail v) + 2 ^ k) /\
    ((tl_second (program q f)).2 = Acquire -> seen (tl_second (program q f)).1 v' = n2)) as Hmain.
  { intros v pc f1 ts r pc' v' Hv Hpc Hq Hlab. unfold q_next in Hq. destruct pc as [|g x].
    { destruct (load_word _ _ _ _) as [[x w']|]; [|done]. injection Hq as <- <- <-. done. }
    destruct (load_word _ _ _ _) as [[y w']|] eqn:E; [|done]. injection Hq as <- <- <-.
    injection Hlab as <- <-. destruct Hpc as (n & -> & Hn & Ha).
    destruct (load_word_ok q k _ _ _ _ _ _ _ _ _ I _ _ _ _ _ Hv E) as (-> & Hts & _ & _ & _ & _ & _ & Hl).
    exists n, ts. split_and!; try done; try lia.
    - intros Hf. by apply Ha.
    - intros Hacq. rewrite Hacq in Hl. apply Hl. }
  inversion Hs as [| |f1 ts r pc v Hi E Hw Hlab|f1 ts r pc v Hi E Hw Hlab|f1 ts r pc v E Hw Hlab]; subst;
    (split; [done|]); (split; [done|]).
  - eapply Hmain; [apply (i_vp _ _ _ _ _ _ _ _ _ _ _ I)|exact Hpq|exact E|exact Hlab].
  - eapply Hmain; [apply (i_vc _ _ _ _ _ _ _ _ _ _ _ I)|exact Hcq|exact E|exact Hlab].
  - eapply Hmain; [exact Hx|exact Hxq|exact E|exact Hlab].
Qed.
End Answers.

(** ** A concrete run *)

(** What to do next, every load reading the newest message. *)
Inductive o_act := DoP (a : p_act) | DoC (a : c_act) | Ask (w : who) (f : query).

Definition q_newest (q : nabd) (f : query) (sh : shared) (pc : qpc) : nat :=
  match pc with
  | QIdle => newest (tl_first (program q f)).1 sh
  | QHalf g _ => newest (tl_second (program q g)).1 sh
  end.

Definition o_do (q : nabd) (act : o_act) (s : ostate) : option (who * label * ostate) :=
  let st := o_st s in
  match act with
  | DoP a =>
      match o_pq s, p_next q a (p_newest (st_sh st) (st_pp st)) (st_sh st) (st_pp st) (st_pv st) with
      | QIdle, Some (e, sh, pc, v) =>
          Some (Producer, Works e,
                OState (State sh pc v (st_cp st) (st_cv st) (st_pushed st ++ moved e) (st_popped st))
                       QIdle (o_cq s) (o_xq s) (o_xv s))
      | _, _ => None
      end
  | DoC a =>
      match o_cq s, c_next q a (c_newest (st_sh st) (st_cp st)) (st_sh st) (st_cp st) (st_cv st) with
      | QIdle, Some (e, sh, pc, v) =>
          Some (Consumer, Works e,
                OState (State sh (st_pp st) (st_pv st) pc v (st_pushed st) (st_popped st ++ moved e))
                       (o_pq s) QIdle (o_xq s) (o_xv s))
      | _, _ => None
      end
  | Ask w f =>
      match q_next q f (q_newest q f (st_sh st) (asker s w).1) (st_sh st) (asker s w).1 (asker s w).2 with
      | Some (r, pc, v) =>
          match w with
          | Producer => if p_rest (st_pp st) then
              Some (w, label_of r, OState (set_pv v st) pc (o_cq s) (o_xq s) (o_xv s)) else None
          | Consumer => if c_rest (st_cp st) then
              Some (w, label_of r, OState (set_cv v st) (o_pq s) pc (o_xq s) (o_xv s)) else None
          | Third => Some (w, label_of r, OState st (o_pq s) (o_cq s) pc v)
          end
      | None => None
      end
  end.

Fixpoint o_exec (q : nabd) (acts : list o_act) (s : ostate) : option (list (who * label) * ostate) :=
  match acts with
  | [] => Some ([], s)
  | act :: acts =>
      '(w, l, s1) ← o_do q act s; '(tr, s2) ← o_exec q acts s1; Some ((w, l) :: tr, s2)
  end.

Lemma o_do_step q act s w l s' : o_do q act s = Some (w, l, s') -> ostep q s w l s'.
Proof.
  destruct act as [a|a|w0 f]; simpl.
  - destruct (o_pq s) eqn:Hi; [|done]. destruct (p_next _ _ _ _ _ _) as [[[[e sh] pc] v]|] eqn:E; [|done].
    intros [= <- <- <-]. by eapply o_p.
  - destruct (o_cq s) eqn:Hi; [|done]. destruct (c_next _ _ _ _ _ _) as [[[[e sh] pc] v]|] eqn:E; [|done].
    intros [= <- <- <-]. by eapply o_c.
  - destruct (q_next _ _ _ _ _ _) as [[[r pc] v]|] eqn:E; [|done]. destruct w0; simpl in E.
    + destruct (p_rest _) eqn:Hi; [|done]. intros [= <- <- <-]. by eapply o_p_query.
    + destruct (c_rest _) eqn:Hi; [|done]. intros [= <- <- <-]. by eapply o_c_query.
    + intros [= <- <- <-]. by eapply o_x_query.
Qed.

Lemma o_exec_run q acts s tr s' : o_exec q acts s = Some (tr, s') -> orun q s tr s'.
Proof.
  revert s tr. induction acts as [|act acts IH]; simpl; intros s tr.
  - intros [= <- <-]. apply orun_nil.
  - destruct (o_do q act s) as [[[w l] s1]|] eqn:E; [|done]. simpl.
    destruct (o_exec q acts s1) as [[tr1 s2]|] eqn:E1; [|done]. simpl. intros [= <- <-].
    eapply orun_cons; [by eapply o_do_step|by apply IH].
Qed.

(** The state after a list of actions. *)
Definition o_after (acts : list o_act) (s : ostate) : ostate :=
  match o_exec sample_q acts s with Some (_, s') => s' | None => s end.

Definition o_trace (acts : list o_act) (s : ostate) : list (who * label) :=
  match o_exec sample_q acts s with Some (tr, _) => tr | None => [] end.

Lemma o_after_run acts s : orun sample_q s (o_trace acts s) (o_after acts s).
Proof.
  unfold o_trace, o_after. destruct (o_exec _ _ _) as [[tr s']|] eqn:E; [by eapply o_exec_run|apply orun_nil].
Qed.

(** One message pushed; the producer asks whether the queue is full, the consumer how
    many messages there are, and has made its first load; a third process diagnoses. *)
Definition sample_asking : ostate :=
  o_after (repeat (DoP (CallPush msg_a)) 6 ++ [Ask Producer QFull; Ask Third QDiagnose])
          (o_initial sample_mem).

Definition sample_counting : ostate :=
  o_after (repeat (DoP (CallPush msg_a)) 6 ++ [Ask Consumer QStats]) (o_initial sample_mem).

(** ** The theorems *)

(** C10: an answer to rely on.  When [nabd_full] answers 0 to the producer, no push or
    reserve finds the queue full until the producer has published a message; when
    [nabd_empty] answers 0 to the consumer, no pop or peek finds it empty until the
    consumer has taken a message: in any run, whatever the other side and the observers
    do, and however stale the loads are. *)
Theorem full_and_empty_conclusive q k m tr0 s s1 tr s2 :
  ring q k 0 0 [] m -> orun q (o_initial m) tr0 s ->
  (ostep q s Producer (Answers QFull (Code 0)) s1 -> orun q s1 tr s2 ->
   (forall l, (Producer, l) ∈ tr -> delivered l = None) ->
   (Producer, Works (Ret NABD_FULL None)) ∉ tr) /\
  (ostep q s Consumer (Answers QEmpty (Code 0)) s1 -> orun q s1 tr s2 ->
   (forall l, (Consumer, l) ∈ tr -> delivered l = None) ->
   (Consumer, Works (Ret NABD_EMPTY None)) ∉ tr).
Proof.
  intros R H0. pose proof (r_wf _ _ _ _ _ _ R) as W.
  destruct (o_run_ok q k W _ _ _ _ _ (o_initial_ok q k W m R) H0) as (nH & nT & Hok).
  pose proof (ob_inv _ _ _ _ _ Hok) as I. pose proof (inv_order q k _ _ _ _ _ _ _ _ _ I) as Ho.
  split; intros Ha Hr; destruct (o_step_ok q k W _ _ _ _ _ _ Hok Ha) as (nH1 & nT1 & Hok1);
    destruct (answered q k _ _ _ _ _ _ _ Hok Ha) as (Hp1 & Hp2 & n1 & n2 & He & Hn1 & Hn2 & _ & Hacq);
    simpl in He, Hn1, Hn2, Hacq; specialize (Hacq eq_refl).
  - eapply (known_run q k W Producer (room_known q) _ (room_step q k W)); [exact Hok1| |exact Hr].
    rewrite (i_hlen _ _ _ _ _ _ _ _ _ _ _ I) in Hn1. rewrite (i_tlen _ _ _ _ _ _ _ _ _ _ _ I) in Hn2.
    pose proof (i_ph _ _ _ _ _ _ _ _ _ _ _ I). assert (n1 = nH) as -> by lia.
    rewrite inv_distance with (1 := W) (2 := I) in He by lia.
    revert He. case_zb; [done|]. intros _.
    unfold room_known, in_flight. cbn [channel ch_sent ch_room]. rewrite Hacq, Hp1.
    destruct (channel_popped q k _ _ _ I) as [_ HnH]. lia.
  - eapply (known_run q k W Consumer message_known _ (message_step q k W)); [exact Hok1| |exact Hr].
    rewrite (i_tlen _ _ _ _ _ _ _ _ _ _ _ I) in Hn1. rewrite (i_hlen _ _ _ _ _ _ _ _ _ _ _ I) in Hn2.
    pose proof (i_ct _ _ _ _ _ _ _ _ _ _ _ I). assert (n1 = nT) as -> by lia.
    rewrite inv_empty with (1 := W) (2 := I) in He by lia.
    pose proof (i_ch _ _ _ _ _ _ _ _ _ _ _ I).
    revert He. case_zb; [done|]. intros _.
    unfold message_known. cbn [channel ch_received ch_avail]. rewrite Hacq, Hp2.
    destruct (channel_popped q k _ _ _ I) as [HnT _]. lia.
Qed.

(** C13: what the two sides learn is on the safe side.  Of the messages in flight when the
    answer comes, the producer's [nabd_stats] counts at least as many, the consumer's at
    most as many, both between 0 and the capacity; so [nabd_fill_level] is a percentage,
    as long as a hundred times the capacity is less than 2^64.  [nabd_get_metrics] gives
    the same bounds while fewer than 2^64 messages have been pushed (it answers 0 pending
    when the tail it read is the greater number).
    If [nabd_full] answers 0 to the producer there is room, and if [nabd_empty] answers 1
    to it the queue is empty; if [nabd_empty] answers 0 to the consumer there is a
    message, and if [nabd_full] answers 1 to it the queue is full. *)
Theorem answers_to_the_two_sides q k m tr s w f a s1 :
  ring q k 0 0 [] m -> orun q (o_initial m) tr s -> ostep q s w (Answers f a) s1 ->
  let n := zlen (st_pushed (o_st s)) - zlen (st_popped (o_st s)) in
  match w, f, a with
  | Producer, QStats, Used h t u =>
      h = u64 (zlen (st_pushed (o_st s))) /\ n <= u <= q_capacity q
  | Consumer, QStats, Used h t u =>
      t = u64 (zlen (st_popped (o_st s))) /\ 0 <= u <= n
  | Producer, QFill, Code x => q_capacity q * 100 < 2 ^ 64 -> n * 100 / q_capacity q <= x <= 100
  | Consumer, QFill, Code x => q_capacity q * 100 < 2 ^ 64 -> 0 <= x <= n * 100 / q_capacity q
  | Producer, QMetrics, Pending h t p pct => zlen (st_pushed (o_st s)) < 2 ^ 64 ->
      h = zlen (st_pushed (o_st s)) /\ p = h - t /\ n <= p <= q_capacity q /\
      (q_capacity q * 100 < 2 ^ 64 -> n * 100 / q_capacity q <= pct <= 100)
  | Consumer, QMetrics, Pending h t p pct => zlen (st_pushed (o_st s)) < 2 ^ 64 ->
      t = zlen (st_popped (o_st s)) /\ p = h - t /\ 0 <= p <= n /\
      (q_capacity q * 100 < 2 ^ 64 -> 0 <= pct <= n * 100 / q_capacity q)
  | Producer, QFull, Code 0 => n < q_capacity q
  | Producer, QEmpty, Code 1 => n = 0
  | Consumer, QEmpty, Code 0 => 0 < n
  | Consumer, QFull, Code 1 => n = q_capacity q
  | _, _, _ => True
  end.
Proof.
  intros R H0 Ha n. pose proof (r_wf _ _ _ _ _ _ R) as W.
  destruct (o_run_ok q k W _ _ _ _ _ (o_initial_ok q k W m R) H0) as (nH & nT & Hok).
  pose proof (ob_inv _ _ _ _ _ Hok) as I. pose proof (inv_order q k _ _ _ _ _ _ _ _ _ I) as Ho.
  destruct (answered q k _ _ _ _ _ _ _ Hok Ha) as (_ & _ & n1 & n2 & He & Hn1 & Hn2 & _).
  pose proof (i_ph _ _ _ _ _ _ _ _ _ _ _ I). pose proof (i_ct _ _ _ _ _ _ _ _ _ _ _ I).
  pose proof (i_pt _ _ _ _ _ _ _ _ _ _ _ I). pose proof (i_ch _ _ _ _ _ _ _ _ _ _ _ I).
  pose proof (i_hlen _ _ _ _ _ _ _ _ _ _ _ I) as Hhl. pose proof (i_tlen _ _ _ _ _ _ _ _ _ _ _ I) as Htl.
  destruct (channel_popped q k _ _ _ I) as [HnT HnH].
  assert (zlen (st_pushed (o_st s)) = Z.of_nat nH) as HpH by (unfold zlen in *; by rewrite length_map in HnH).
  assert (zlen (st_popped (o_st s)) = Z.of_nat nT) as HpT by (unfold zlen; by rewrite HnT).
  subst n. rewrite HpH, HpT, (wf_cap _ _ W) in *. pose proof (pow_k _ _ W) as Hpk.
  assert (forall j : nat, (v_tail (st_pv (o_st s)) <= j <= nT)%nat ->
    sub64 (u64 (Z.of_nat nH)) (u64 (Z.of_nat j)) = Z.of_nat nH - Z.of_nat j) as Hsub
    by (intros; by apply (inv_distance q k W _ _ _ _ _ _ _ _ _ I)).
  assert (forall j : nat, (v_head (st_cv (o_st s)) <= j <= nH)%nat ->
    sub64 (u64 (Z.of_nat j)) (u64 (Z.of_nat nT)) = Z.of_nat j - Z.of_nat nT) as Hsub2
    by (intros; apply sub64_distance; lia).
  destruct w, f; try done; simpl in He, Hn1, Hn2; rewrite ?Hhl, ?Htl in *; rewrite He;
    try (assert (n1 = nH) as -> by lia); try (assert (n2 = nH) as -> by lia);
    try (assert (n1 = nT) as -> by lia); try (assert (n2 = nT) as -> by lia).
  - rewrite u64_eq_close by lia. case_zb; [lia|done].
  - rewrite Hsub, (wf_cap _ _ W) by lia. case_zb; [done|lia].
  - split; [done|]. rewrite Hsub by lia. lia.
  - intros Hb. rewrite Hsub, (wf_cap _ _ W) by lia. zb_false (2 ^ k =? 0).
    destruct (percentage (Z.of_nat nH - Z.of_nat n2) (2 ^ k)) as [-> ?]; [lia..|].
    split; [apply Z.div_le_mono; lia|lia].
  - intros Hw. specialize (Hsub n2 ltac:(lia)). rewrite !u64_small in * by lia.
    zb_true (Z.of_nat n2 <=? Z.of_nat nH). rewrite Hsub. split_and!; try lia. intros Hb.
    rewrite (wf_cap _ _ W). zb_true (0 <? 2 ^ k).
    destruct (percentage (Z.of_nat nH - Z.of_nat n2) (2 ^ k)) as [-> ?]; [lia..|].
    split; [apply Z.div_le_mono; lia|lia].
  - rewrite inv_empty with (1 := W) (2 := I) by lia. case_zb; [done|lia].
  - rewrite Hsub2, (wf_cap _ _ W) by lia. case_zb; [lia|done].
  - split; [done|]. rewrite Hsub2 by lia. lia.
  - intros Hb. rewrite Hsub2, (wf_cap _ _ W) by lia. zb_false (2 ^ k =? 0).
    destruct (percentage (Z.of_nat n1 - Z.of_nat nT) (2 ^ k)) as [-> ?]; [lia..|].
    split; [lia|apply Z.div_le_mono; lia].
  - intros Hw. specialize (Hsub2 n1 ltac:(lia)). rewrite !u64_small in * by lia.
    zb_true (Z.of_nat nT <=? Z.of_nat n1). rewrite Hsub2. split_and!; try lia. intros Hb.
    rewrite (wf_cap _ _ W). zb_true (0 <? 2 ^ k).
    destruct (percentage (Z.of_nat n1 - Z.of_nat nT) (2 ^ k)) as [-> ?]; [lia..|].
    split; [lia|apply Z.div_le_mono; lia].
Qed.

(** C12: diagnosing a live queue.  Whoever runs [nabd_diagnose] while the two sides work,
    as long as fewer than 2^64 messages have been pushed, the two sequentially consistent
    loads, in the order head, tail, never show more messages than the capacity: the queue
    is reported OK or EMPTY, and [nabd_recover], forced or not, returns [NABD_OK] on that
    answer without a further call of the system.  The bound is needed: see
    [wrapped_queue_corrupted]. *)
Theorem live_queue_not_corrupted q k m tr s w d s1 :
  ring q k 0 0 [] m -> orun q (o_initial m) tr s ->
  ostep q s w (Answers QDiagnose (Diagnosis d)) s1 -> zlen (st_pushed (o_st s)) < 2 ^ 64 ->
  0 <= d_pending d <= q_capacity q /\
  d_state d = (if d_pending d =? 0 then NABD_STATE_EMPTY else NABD_STATE_OK) /\
  forall (P : Posix) name force sy,
    recover_after name force NABD_OK (Some d) sy = Some (NABD_OK : Z, sy).
Proof.
  intros R H0 Ha Hw. pose proof (r_wf _ _ _ _ _ _ R) as W.
  destruct (o_run_ok q k W _ _ _ _ _ (o_initial_ok q k W m R) H0) as (nH & nT & Hok).
  pose proof (ob_inv _ _ _ _ _ Hok) as I. pose proof (inv_order q k _ _ _ _ _ _ _ _ _ I) as Ho.
  destruct (answered q k _ _ _ _ _ _ _ Hok Ha) as (_ & _ & n1 & n2 & He & Hn1 & Hn2 & Hroom & _).
  simpl in He, Hn1, Hn2, Hroom. specialize (Hroom eq_refl).
  rewrite (i_hlen _ _ _ _ _ _ _ _ _ _ _ I) in Hn1. rewrite (i_tlen _ _ _ _ _ _ _ _ _ _ _ I) in Hn2.
  destruct (channel_popped q k _ _ _ I) as [HnT HnH].
  assert (zlen (st_pushed (o_st s)) = Z.of_nat nH) as HpH by (unfold zlen in *; by rewrite length_map in HnH).
  injection He as ->. unfold classify. rewrite !u64_small by lia. cbn [d_pending d_state].
  pose proof (wf_cap _ _ W) as Hcap. pose proof (pow_k _ _ W).
  set (p := if Z.of_nat n2 <=? Z.of_nat n1 then sub64 (Z.of_nat n1) (Z.of_nat n2) else 0).
  assert (0 <= p <= q_capacity q) as Hp.
  { unfold p. case_zb; [|lia]. unfold sub64. rewrite u64_small by lia. lia. }
  zb_false (q_capacity q <? p). split; [done|]. split; [done|].
  intros P name force sy. unfold recover_after. cbn [d_state]. by destruct (p =? 0).
Qed.

(** ** A third process between two loads *)

(** A whole call of a thread model as a run. *)
Lemma p_run_orun q n a s r x sh' pc :
  o_pq s = QIdle ->
  p_run q n a (st_sh (o_st s)) (st_pp (o_st s)) (st_pv (o_st s)) = Some (r, x, sh', pc) ->
  exists tr v, orun q s tr
    (OState (State sh' pc v (st_cp (o_st s)) (st_cv (o_st s))
                   (st_pushed (o_st s) ++ moved (Ret r x)) (st_popped (o_st s)))
            QIdle (o_cq s) (o_xq s) (o_xv s)).
Proof.
  revert s. induction n as [|n IH]; [done|]. intros s Hi. rewrite p_run_S.
  destruct (p_next _ _ _ _ _ _) as [[[[e sh1] pc1] v1]|] eqn:E; [|done].
  pose proof (o_p q s a _ e sh1 pc1 v1 Hi E) as Hs.
  set (s1 := OState _ _ _ _ _) in Hs.
  assert (moved e = [] -> p_run q n a sh1 pc1 v1 = Some (r, x, sh', pc) -> exists tr v, orun q s tr
    (OState (State sh' pc v (st_cp (o_st s)) (st_cv (o_st s))
                   (st_pushed (o_st s) ++ moved (Ret r x)) (st_popped (o_st s)))
            QIdle (o_cq s) (o_xq s) (o_xv s))) as Hgo.
  { intros Hm Hr. destruct (IH s1 eq_refl Hr) as (tr & v & Hrun). simpl in Hrun.
    rewrite Hm, app_nil_r in Hrun. eexists _, v. by eapply orun_cons. }
  destruct e as [|r1 x1|off bs]; [by apply Hgo| |by apply Hgo].
  intros [= <- <- <- <-]. eexists _, v1. eapply orun_cons; [exact Hs|]. apply orun_nil.
Qed.

Lemma c_run_orun q n a s r x sh' pc :
  o_cq s = QIdle ->
  c_run q n a (st_sh (o_st s)) (st_cp (o_st s)) (st_cv (o_st s)) = Some (r, x, sh', pc) ->
  exists tr v, orun q s tr
    (OState (State sh' (st_pp (o_st s)) (st_pv (o_st s)) pc v
                   (st_pushed (o_st s)) (st_popped (o_st s) ++ moved (Ret r x)))
            (o_pq s) QIdle (o_xq s) (o_xv s)).
Proof.
  revert s. induction n as [|n IH]; [done|]. intros s Hi. rewrite c_run_S.
  destruct (c_next _ _ _ _ _ _) as [[[[e sh1] pc1] v1]|] eqn:E; [|done].
  pose proof (o_c q s a _ e sh1 pc1 v1 Hi E) as Hs.
  set (s1 := OState _ _ _ _ _) in Hs.
  assert (moved e = [] -> c_run q n a sh1 pc1 v1 = Some (r, x, sh', pc) -> exists tr v, orun q s tr
    (OState (State sh' (st_pp (o_st s)) (st_pv (o_st s)) pc v
                   (st_pushed (o_st s)) (st_popped (o_st s) ++ moved (Ret r x)))
            (o_pq s) QIdle (o_xq s) (o_xv s))) as Hgo.
  { intros Hm Hr. destruct (IH s1 eq_refl Hr) as (tr & v & Hrun). simpl in Hrun.
    rewrite Hm, app_nil_r in Hrun. eexists _, v. by eapply orun_cons. }
  destruct e as [|r1 x1|off bs]; [by apply Hgo| |by apply Hgo].
  intros [= <- <- <- <-]. eexists _, v1. eapply orun_cons; [exact Hs|]. apply orun_nil.
Qed.

Lemma orun_app q s1 tr1 s2 tr2 s3 : orun q s1 tr1 s2 -> orun q s2 tr2 s3 -> orun q s1 (tr1 ++ tr2) s3.
Proof. induction 1; simpl; eauto using orun_cons. Qed.

(** One message pushed and popped, from any state in which the queue is empty and both
    sides are between calls. *)
Lemma push_pop_run q k (W : wf_handle q k) s nH d :
  obs_ok q k s nH nH -> o_pq s = QIdle -> o_cq s = QIdle ->
  st_pp (o_st s) = PIdle -> st_cp (o_st s) = CIdle ->
  zlen d <= q_slot_size q - SIZEOF_HEADER -> zlen d < 2 ^ 16 ->
  exists tr s', orun q s tr s' /\ obs_ok q k s' (S nH) (S nH) /\
    o_xq s' = o_xq s /\ o_xv s' = o_xv s /\ st_pushed (o_st s') = st_pushed (o_st s) ++ [d] /\
    o_pq s' = QIdle /\ o_cq s' = QIdle /\ st_pp (o_st s') = PIdle /\ st_cp (o_st s') = CIdle.
Proof.
  intros Hok Hpq Hcq Hpp Hcp Hfit Hlen. pose proof (ob_inv _ _ _ _ _ Hok) as I.
  pose proof (i_ring _ _ _ _ _ _ _ _ _ _ _ I) as R. pose proof (zlen_nonneg d).
  pose proof (i_nH _ _ _ _ _ _ _ _ _ _ _ I) as HnH. destruct (channel_popped q k _ _ _ I) as [HnT _].
  rewrite drop_ge in R by lia. pose proof (pow_k _ _ W). pose proof (wf_cap _ _ W).
  destruct (solo_push q k W _ _ _ _ _ _ _ _ _ I d Hpp) as (r & x & sh1 & Erun & Hx & Ep).
  destruct (push_ok q k _ _ _ _ R d (zlen d)) as (m1 & Ep' & _); [lia|done|unfold zlen; simpl; lia|].
  assert (r = NABD_OK) as -> by (rewrite Ep' in Ep; by destruct r).
  rewrite decide_True in Hx by done. subst x.
  destruct (p_run_orun _ _ _ _ _ _ _ _ Hpq Erun) as (tr1 & v1 & Hr1). set (s1 := OState _ _ _ _ _) in Hr1.
  destruct (o_run_ok q k W _ _ _ _ _ Hok Hr1) as (nH1 & nT1 & Hok1). pose proof (ob_inv _ _ _ _ _ Hok1) as I1.
  pose proof (i_nH _ _ _ _ _ _ _ _ _ _ _ I1) as HnH1. destruct (channel_popped q k _ _ _ I1) as [HnT1 _].
  simpl in HnH1, HnT1. rewrite length_map, length_app in HnH1. rewrite length_map in HnH. simpl in HnH1.
  pose proof (i_ring _ _ _ _ _ _ _ _ _ _ _ I1) as R1. pose proof (i_popped _ _ _ _ _ _ _ _ _ _ _ I1) as Hp1.
  assert (kept d = d) as Hkept by (pose proof (map_kept [d]) as Hm; simpl in Hm; injection Hm; eauto).
  cbn [s1 o_st st_pushed] in R1. rewrite map_app, drop_app_ge in R1 by (rewrite length_map; lia).
  rewrite length_map in R1. replace (nT1 - length _)%nat with 0%nat in R1 by lia. simpl in R1. rewrite Hkept in R1.
  destruct (solo_pop q k W _ _ _ _ _ _ _ _ _ I1 d Hcp) as (r & x & sh2 & len & Erun2 & Eq & Hx).
  pose proof (pop_ok q k _ _ _ _ R1 d [] d (zlen d) eq_refl ltac:(lia) ltac:(lia)) as Eq'.
  simpl in Eq. rewrite Eq' in Eq. injection Eq as Er _ _ _.
  assert (r = NABD_OK) as -> by (by destruct r). destruct x as [y|]; [|done].
  destruct (c_run_orun q 6 _ s1 _ _ _ _ Hcq Erun2) as (tr2 & v2 & Hr2).
  destruct (o_run_ok q k W _ _ _ _ _ Hok1 Hr2) as (nH2 & nT2 & Hok2). pose proof (ob_inv _ _ _ _ _ Hok2) as I2.
  pose proof (i_nH _ _ _ _ _ _ _ _ _ _ _ I2) as HnH2. destruct (channel_popped q k _ _ _ I2) as [HnT2 _].
  simpl in HnH2, HnT2. rewrite length_map, length_app in HnH2. rewrite length_app in HnT2. simpl in HnH2, HnT2.
  exists (tr1 ++ tr2). eexists. split; [by eapply orun_app|].
  assert (nH2 = S nH) as -> by lia. assert (nT2 = S nH) as -> by lia. done.
Qed.

(** The same [n] times. *)
Lemma push_pop_runs q k (W : wf_handle q k) n s nH (d : msg) :
  obs_ok q k s nH nH -> o_pq s = QIdle -> o_cq s = QIdle ->
  st_pp (o_st s) = PIdle -> st_cp (o_st s) = CIdle ->
  zlen d <= q_slot_size q - SIZEOF_HEADER -> zlen d < 2 ^ 16 ->
  exists tr s', orun q s tr s' /\ obs_ok q k s' (n + nH) (n + nH) /\
    o_xq s' = o_xq s /\ o_xv s' = o_xv s /\
    zlen (st_pushed (o_st s')) = zlen (st_pushed (o_st s)) + Z.of_nat n /\
    o_pq s' = QIdle /\ o_cq s' = QIdle /\ st_pp (o_st s') = PIdle /\ st_cp (o_st s') = CIdle.
Proof.
  revert s nH. induction n as [|n IH]; intros s nH Hok Hpq Hcq Hpp Hcp Hfit Hlen.
  { exists [], s. split; [apply orun_nil|]. simpl. rewrite Z.add_0_r. done. }
  destruct (push_pop_run q k W s nH d Hok) as (tr1 & s1 & Hr1 & Hok1 & Hx1 & Hv1 & Hp1 & ? & ? & ? & ?);
    try done.
  destruct (IH s1 (S nH) Hok1) as (tr2 & s2 & Hr2 & Hok2 & Hx2 & Hv2 & Hp2 & ? & ? & ? & ?); try done.
  exists (tr1 ++ tr2), s2. split; [by eapply orun_app|]. rewrite Hp2, Hp1.
  replace (S n + nH)%nat with (n + S nH)%nat by lia. split; [done|].
  split; [congruence|]. split; [congruence|]. split; [|done].
  unfold zlen. rewrite length_app. simpl. lia.
Qed.

(** C14: a third process can count backwards.  For every queue and every message that fits
    there is a run in which an observer calls [nabd_stats] or [nabd_fill_level] and, in
    between its two loads, one message is pushed and popped: the empty queue is reported
    to hold 2^64 - 1 messages, and the fill level is the percentage of that number, cut
    to an [int].  [nabd_get_metrics], which clamps the difference, answers 0. *)
Theorem observer_counts_backwards q k m d f :
  ring q k 0 0 [] m -> zlen d <= q_slot_size q - SIZEOF_HEADER -> zlen d < 2 ^ 16 ->
  f = QStats \/ f = QFill \/ f = QMetrics ->
  exists tr s a s1, orun q (o_initial m) tr s /\ ostep q s Third (Answers f a) s1 /\
    st_pushed (o_st s1) = [d] /\ length (st_popped (o_st s1)) = 1%nat /\
    a = match f with
        | QStats => Used 0 1 (2 ^ 64 - 1)
        | QFill => Code (to_int (mul64 (2 ^ 64 - 1) 100 / q_capacity q))
        | _ => Pending 0 1 0 0
        end.
Proof.
  intros R Hfit Hlen Hf. pose proof (r_wf _ _ _ _ _ _ R) as W. pose proof (pow_k _ _ W).
  pose proof (wf_cap _ _ W) as Hcap.
  set (s0 := OState (initial m) QIdle QIdle (QHalf f 0) view0).
  assert (ostep q (o_initial m) Third Asks s0) as Hs0.
  { apply (o_x_query q (o_initial m) f 0 None (QHalf f 0) view0).
    by destruct Hf as [->|[->| ->]]. }
  destruct (o_step_ok q k W _ _ _ _ _ _ (o_initial_ok q k W m R) Hs0) as (nH & nT & Hok).
  pose proof (ob_inv _ _ _ _ _ Hok) as I.
  assert (nH = 0%nat) as -> by apply (i_nH _ _ _ _ _ _ _ _ _ _ _ I).
  assert (nT = 0%nat) as -> by (symmetry; apply (channel_popped q k _ _ _ I)).
  destruct (push_pop_run q k W s0 0 d Hok) as (tr & s & Hr & Hok' & Hxq & Hxv & Hp & _); try done.
  pose proof (ob_inv _ _ _ _ _ Hok') as I'.
  destruct (newest_tail q k _ _ _ _ _ _ _ _ _ I') as [w Ew].
  pose proof (i_tlen _ _ _ _ _ _ _ _ _ _ _ I') as Htl.
  assert (q_next q f 1 (st_sh (o_st s)) (o_xq s) (o_xv s)
    = Some (Some (f, tl_answer (program q f) 0 1), QIdle, view0)) as Hq.
  { rewrite Hxq, Hxv. unfold newest in Ew. simpl in Ew. rewrite Htl in Ew. simpl in Ew.
    destruct Hf as [->|[->| ->]]; unfold q_next, load_word, NABD_LOAD_RELAXED; simpl; by rewrite Ew. }
  exists ((Third, Asks) :: tr), s. eexists _, _.
  split; [by eapply orun_cons|]. split; [eapply (o_x_query q s f 1 _ _ _ Hq)|].
  split; [exact Hp|]. split; [apply (channel_popped q k _ _ _ I')|].
  destruct Hf as [->|[->| ->]]; simpl; [done| |].
  - by zb_false (q_capacity q =? 0).
  - zb_true (0 <? q_capacity q). by rewrite Z.div_0_l by lia.
Qed.

(** ** Alone, the questions are the functions *)

(** What the function of a question returns on memory [m]; [nabd_diagnose] goes through
    the system, to any object that has these bytes. *)
Definition function_answers (q : nabd) (f : query) (a : answer) (m : mem) : Prop :=
  match f, a with
  | QEmpty, Code n => nabd_empty (Some q) m = Some (n, m)
  | QFull, Code n => nabd_full (Some q) m = Some (n, m)
  | QStats, Used h t u => forall s0, nabd_stats (Some q) (Some s0) m
      = Some (NABD_OK : Z, Some (NabdStats h t (q_capacity q) u (q_slot_size q)), m)
  | QFill, Code n => nabd_fill_level (Some q) m = Some (n, m)
  | QMetrics, Pending h t p pct => forall x, nabd_get_metrics (Some q) (Some x) m
      = Some (NABD_OK : Z, Some (Metrics h t p (q_capacity q) (q_slot_size q)
                                   (mul64 p (q_slot_size q)) pct h t 0 0 0 0 0 0 0 0), m)
  | QDiagnose, Diagnosis d => forall (P : Posix) (L : PosixLaws P) sy name o d0,
      s_shm sy !! name = Some o -> s_obj sy !! o = Some m ->
      wp (nabd_diagnose (Some name) (Some d0)) sy (fun r sy' => quiet sy sy' /\
        (r = (NABD_OK : Z, Some d) \/ (refusal sy sy' /\ not_diagnosed r)))
  | _, _ => False
  end.

(** What it should be, in a queue of [n] messages after [T] that were taken. *)
Definition right_answer (q : nabd) (T n : Z) (f : query) (a : answer) : Prop :=
  let percent := n * 100 / q_capacity q in
  match f, a with
  | QEmpty, Code x => x = 1 /\ n = 0 \/ x = 0 /\ 0 < n
  | QFull, Code x => x = 1 /\ n = q_capacity q \/ x = 0 /\ n < q_capacity q
  | QStats, Used h t u => h = u64 (T + n) /\ t = u64 T /\ u = n
  | QFill, Code x => q_capacity q * 100 < 2 ^ 64 -> x = percent
  | QMetrics, Pending h t p pct => T + n < 2 ^ 64 ->
      h = T + n /\ t = T /\ p = n /\ (q_capacity q * 100 < 2 ^ 64 -> pct = percent)
  | QDiagnose, Diagnosis d => T + n < 2 ^ 64 ->
      d = Diagnostic (if decide (n = 0) then NABD_STATE_EMPTY else NABD_STATE_OK)
            (T + n) T n 1 1 (q_capacity q) (q_slot_size q)
  | _, _ => False
  end.

(** An undisturbed load returns the current position. *)
Lemma load_newest q k sh pp vp cp vc pushed popped nH nT l v :
  inv q k sh pp vp cp vc pushed popped nH nT ->
  vok (sh_head sh) (sh_tail sh) (v_p vp) (v_c vc) v ->
  exists v', load_word l (newest l.1 sh) sh v
             = Some (u64 (Z.of_nat (match l.1 with Head => nH | Tail => nT end)), v') /\
    vok (sh_head sh) (sh_tail sh) (v_p vp) (v_c vc) v'.
Proof.
  intros I Hv. pose proof (vk_head _ _ _ _ _ Hv). pose proof (vk_tail _ _ _ _ _ Hv).
  assert (exists w, hist l.1 sh !! newest l.1 sh
            = Some (u64 (Z.of_nat (match l.1 with Head => nH | Tail => nT end)), w)) as [w Ew].
  { destruct (l.1); [eapply newest_head; exact I|eapply newest_tail; exact I]. }
  assert ((newest l.1 sh <? seen l.1 v)%nat = false) as Hlt
    by (apply Nat.ltb_ge; unfold newest; destruct (l.1); simpl; lia).
  assert (exists v', load_word l (newest l.1 sh) sh v
            = Some (u64 (Z.of_nat (match l.1 with Head => nH | Tail => nT end)), v')) as [v' E].
  { unfold load_word, NABD_LOAD_RELAXED, NABD_LOAD_ACQUIRE.
    destruct (l.2); rewrite Hlt, Ew; simpl; eauto. }
  exists v'. split; [exact E|].
  by destruct (load_word_ok q k _ _ _ _ _ _ _ _ _ I _ _ _ _ _ Hv E) as (_ & _ & _ & _ & _ & _ & Hok & _).
Qed.

(** An undisturbed load of the third process, as a step. *)
Lemma third_loads q k (W : wf_handle q k) s nH nT f :
  obs_ok q k s nH nT ->
  let val (l : word * order) := u64 (Z.of_nat (match l.1 with Head => nH | Tail => nT end)) in
  (o_xq s = QIdle -> exists v,
     ostep q s Third Asks (OState (o_st s) (o_pq s) (o_cq s) (QHalf f (val (tl_first (program q f)))) v)) /\
  (forall x, o_xq s = QHalf f x -> exists v,
     ostep q s Third (Answers f (tl_answer (program q f) x (val (tl_second (program q f)))))
       (OState (o_st s) (o_pq s) (o_cq s) QIdle v)).
Proof.
  intros Hok val. pose proof (ob_inv _ _ _ _ _ Hok) as I. pose proof (ob_x _ _ _ _ _ Hok) as Hv. split.
  - intros Hi. destruct (load_newest q k _ _ _ _ _ _ _ _ _ (tl_first (program q f)) _ I Hv) as (v & E & _).
    exists v. apply (o_x_query q s f (newest (tl_first (program q f)).1 (st_sh (o_st s))) None).
    rewrite Hi. simpl. by rewrite E.
  - intros x Hi. destruct (load_newest q k _ _ _ _ _ _ _ _ _ (tl_second (program q f)) _ I Hv) as (v & E & _).
    exists v. apply (o_x_query q s f (newest (tl_second (program q f)).1 (st_sh (o_st s)))
      (Some (f, tl_answer (program q f) x (val (tl_second (program q f)))))).
    rewrite Hi. simpl. by rewrite E.
Qed.

(** Diagnosis across the wrap of the indices.  Once 2^64 - 1 messages have been pushed and
    popped, a diagnosis that loads [head], is overtaken by one more message, and then
    loads [tail], which has come round to 0, reports the live queue as corrupted; a forced
    recovery would reset it. *)
Theorem wrapped_queue_corrupted q k m (d : msg) :
  ring q k 0 0 [] m -> zlen d <= q_slot_size q - SIZEOF_HEADER -> zlen d < 2 ^ 16 ->
  exists tr s a s1, orun q (o_initial m) tr s /\ ostep q s Third (Answers QDiagnose (Diagnosis a)) s1 /\
    zlen (st_pushed (o_st s)) = 2 ^ 64 /\
    a = Diagnostic NABD_STATE_CORRUPTED (2 ^ 64 - 1) 0 (2 ^ 64 - 1) 1 1 (q_capacity q) (q_slot_size q) /\
    resets (d_state a) true = true.
Proof.
  intros R Hfit Hlen. pose proof (r_wf _ _ _ _ _ _ R) as W.
  assert (q_capacity q <= 2 ^ 63) as Hcap.
  { rewrite (wf_cap _ _ W). destruct (wf_k _ _ W). apply Z.pow_le_mono_r; lia. }
  assert (exists N, Z.of_nat N = 2 ^ 64 - 1) as [N HN] by (exists (Z.to_nat (2 ^ 64 - 1)); lia).
  pose proof (o_initial_ok q k W m R) as Hok0.
  destruct (push_pop_runs q k W N _ 0 d Hok0)
    as (tr1 & s1 & Hr1 & Hok1 & Hx1 & _ & Hp1 & Hpq & Hcq & Hpp & Hcp); try done.
  rewrite Nat.add_0_r in Hok1. simpl in Hp1.
  destruct (proj1 (third_loads q k W s1 N N QDiagnose Hok1)) as [v Hs2]; [by rewrite Hx1|].
  set (s2 := OState _ _ _ _ _) in Hs2. destruct (o_step_ok q k W _ _ _ _ _ _ Hok1 Hs2) as (nH & nT & Hok2).
  assert (nH = N /\ nT = N) as [-> ->].
  { pose proof (ob_inv _ _ _ _ _ Hok1) as I1. pose proof (ob_inv _ _ _ _ _ Hok2) as I2. simpl in I2.
    pose proof (proj1 (channel_popped q k _ _ _ I1)). pose proof (proj1 (channel_popped q k _ _ _ I2)).
    pose proof (i_nH _ _ _ _ _ _ _ _ _ _ _ I1). pose proof (i_nH _ _ _ _ _ _ _ _ _ _ _ I2).
    split; congruence. }
  destruct (push_pop_run q k W s2 N d Hok2) as (tr2 & s3 & Hr2 & Hok3 & Hx3 & _ & Hp3 & _); try done.
  destruct (proj2 (third_loads q k W s3 (S N) (S N) QDiagnose Hok3) _ Hx3) as [v3 Hs3].
  cbn [tl_first tl_second tl_answer program diagnose_loads fst] in Hs3.
  rewrite HN in Hs3. replace (Z.of_nat (S N)) with (2 ^ 64) in Hs3 by lia.
  change (u64 (2 ^ 64 - 1)) with (2 ^ 64 - 1) in Hs3. change (u64 (2 ^ 64)) with 0 in Hs3.
  exists (tr1 ++ (Third, Asks) :: tr2), s3. eexists _, _.
  split; [eapply orun_app; [exact Hr1|by eapply orun_cons]|]. split; [exact Hs3|].
  change (o_st s2) with (o_st s1) in Hp3.
  split; [rewrite Hp3; unfold zlen in *; rewrite length_app; simpl in *; lia|].
  unfold classify. change (sub64 (2 ^ 64 - 1) 0) with (2 ^ 64 - 1).
  change (0 <=? 2 ^ 64 - 1) with true. cbv zeta iota.
  by zb_true (q_capacity q <? 2 ^ 64 - 1).
Qed.

(** The functions on the memory of a ring. *)
Lemma function_answers_ring q k H T ms m f :
  ring q k H T ms m ->
  let pos l := match l with Head => u64 H | Tail => u64 T end in
  function_answers q f (tl_answer (program q f) (pos (tl_first (program q f)).1)
                          (pos (tl_second (program q f)).1)) m.
Proof.
  intros R. pose proof (ring_ld_head _ _ _ _ _ _ R) as Eh. pose proof (ring_ld_tail _ _ _ _ _ _ R) as Et.
  destruct f; simpl.
  - unfold nabd_empty. by rewrite (bind_ret _ _ _ _ _ Et), (bind_ret _ _ _ _ _ Eh).
  - unfold nabd_full. by rewrite (bind_ret _ _ _ _ _ Eh), (bind_ret _ _ _ _ _ Et).
  - intros s0. unfold nabd_stats. by rewrite (bind_ret _ _ _ _ _ Eh), (bind_ret _ _ _ _ _ Et).
  - unfold nabd_fill_level, nabd_stats. erewrite bind_ret
      by (rewrite (bind_ret _ _ _ _ _ Eh), (bind_ret _ _ _ _ _ Et); reflexivity).
    simpl. by case_zb.
  - intros x. unfold nabd_get_metrics. by rewrite (bind_ret _ _ _ _ _ Eh), (bind_ret _ _ _ _ _ Et).
  - intros P L sy name o d0 Hn Ho. pose proof (r_control _ _ _ _ _ _ R) as [Cm Cv Cc Cs].
    assert (SIZEOF_CONTROL <= zlen m) as Hl.
    { pose proof (r_len _ _ _ _ _ _ R). pose proof (pow_k _ _ (r_wf _ _ _ _ _ _ R)).
      pose proof (wf_slot _ _ (r_wf _ _ _ _ _ _ R)). unfold SIZEOF_CONTROL, SIZEOF_HEADER in *. nia. }
    pose proof (diagnose_spec name d0 sy o m Hn Ho Hl) as Hd. revert Hd. unfold diagnosis.
    by rewrite Cm, Cv, Cc, Cs, (r_head _ _ _ _ _ _ R), (r_tail _ _ _ _ _ _ R), !Z.eqb_refl.
Qed.

(** The answers computed from the current positions are right. *)
Lemma right_answer_ring q k H T ms m f :
  ring q k H T ms m -> 0 <= T ->
  let pos l := match l with Head => u64 H | Tail => u64 T end in
  right_answer q T (H - T) f (tl_answer (program q f) (pos (tl_first (program q f)).1)
                                (pos (tl_second (program q f)).1)).
Proof.
  intros R HT. pose proof (r_wf _ _ _ _ _ _ R) as W. pose proof (pow_k _ _ W) as Hk.
  pose proof (wf_cap _ _ W) as Hcap. pose proof (r_bound _ _ _ _ _ _ R) as Hb.
  pose proof (r_count _ _ _ _ _ _ R) as Hc. pose proof (zlen_nonneg ms).
  assert (sub64 (u64 H) (u64 T) = H - T) as Hsub by (apply sub64_distance; lia).
  assert (T + (H - T) = H) as HH by lia. unfold right_answer. rewrite HH.
  destruct f; cbn [program empty_loads full_loads stats_loads fill_loads metrics_loads diagnose_loads
                   tl_first tl_second tl_answer fst]; rewrite ?Hsub.
  - rewrite u64_eq_close by lia. case_zb; [left|right]; lia.
  - rewrite Hcap. case_zb; [left|right]; lia.
  - done.
  - intros Hp. rewrite Hcap in *. zb_false (2 ^ k =? 0).
    by destruct (percentage (H - T) (2 ^ k)) as [-> _]; [lia..|].
  - intros Hw. rewrite !u64_small in * by lia. zb_true (T <=? H).
    split_and!; try done. intros Hp. rewrite Hcap in *. zb_true (0 <? 2 ^ k).
    by destruct (percentage (H - T) (2 ^ k)) as [-> _]; [lia..|].
  - intros Hw. rewrite !u64_small in * by lia. unfold classify. zb_true (T <=? H). rewrite Hsub.
    cbv zeta. zb_false (q_capacity q <? H - T). do 2 f_equal.
    destruct (Z.eqb_spec (H - T) 0), (decide (H - T = 0)); done.
Qed.

(** C15: undisturbed, the questions are right and are the functions.  In every reachable
    state any process that asks and is not disturbed between its loads gets the answer
    that the function of Queue.v, Backpressure.v, Metrics.v or Persistence.v returns on
    the memory ([nabd_diagnose]: through the system, on every system that does not refuse
    it), and that answer is the right one for the messages pushed and not popped: empty
    when there is none, full when there are as many as the capacity, their number, their
    percentage (while a hundred times the capacity is less than 2^64), and for the
    metrics and the diagnosis, while fewer than 2^64 messages have been pushed, the two
    positions themselves and the state. *)
Theorem questions_are_the_functions q k m tr s w f :
  ring q k 0 0 [] m -> orun q (o_initial m) tr s ->
  let sh := st_sh (o_st s) in
  exists x v a v', q_next q f (newest (tl_first (program q f)).1 sh) sh QIdle (asker s w).2
                   = Some (None, QHalf f x, v) /\
    q_next q f (newest (tl_second (program q f)).1 sh) sh (QHalf f x) v = Some (Some (f, a), QIdle, v') /\
    function_answers q f a (sh_mem sh) /\
    right_answer q (zlen (st_popped (o_st s)))
      (zlen (st_pushed (o_st s)) - zlen (st_popped (o_st s))) f a.
Proof.
  intros R H0 sh. pose proof (r_wf _ _ _ _ _ _ R) as W.
  destruct (o_run_ok q k W _ _ _ _ _ (o_initial_ok q k W m R) H0) as (nH & nT & Hok).
  pose proof (ob_inv _ _ _ _ _ Hok) as I.
  assert (vok (sh_head sh) (sh_tail sh) (v_p (st_pv (o_st s))) (v_c (st_cv (o_st s))) (asker s w).2) as Hv.
  { destruct w; [apply I|apply I|apply (ob_x _ _ _ _ _ Hok)]. }
  destruct (load_newest q k _ _ _ _ _ _ _ _ _ (tl_first (program q f)) _ I Hv) as (v & E1 & Hv1).
  destruct (load_newest q k _ _ _ _ _ _ _ _ _ (tl_second (program q f)) _ I Hv1) as (v' & E2 & _).
  eexists _, v, _, v'. unfold q_next. fold sh in E1, E2. rewrite E1. split; [reflexivity|].
  rewrite E2. split; [reflexivity|].
  pose proof (i_ring _ _ _ _ _ _ _ _ _ _ _ I) as R'. destruct (channel_popped q k _ _ _ I) as [HnT HnH].
  assert (zlen (st_pushed (o_st s)) = Z.of_nat nH) as -> by (unfold zlen in *; by rewrite length_map in HnH).
  assert (zlen (st_popped (o_st s)) = Z.of_nat nT) as -> by (unfold zlen; by rewrite HnT).
  pose proof (function_answers_ring q k _ _ _ _ f R') as Hf.
  pose proof (right_answer_ring q k _ _ _ _ f R' ltac:(lia)) as Hr.
  by destruct f.
Qed.

(** ** Witnesses *)

(** The producer is told that there is room and starts its second push. *)
Lemma full_and_empty_conclusive_witness :
  let s1 := o_after [Ask Producer QFull] sample_asking in
  let tr := o_trace (repeat (DoP (CallPush msg_b)) 4) s1 in
  length tr = 4%nat /\ (Producer, Works (Ret NABD_FULL None)) ∉ tr.
Proof.
  intros s1 tr. split; [vm_compute; reflexivity|].
  apply (full_and_empty_conclusive sample_q 1 sample_mem _ sample_asking s1 tr
           (o_after (repeat (DoP (CallPush msg_b)) 4) s1) sample_ring (o_after_run _ _)).
  - apply (o_do_step sample_q (Ask Producer QFull)). vm_compute. reflexivity.
  - apply o_after_run.
  - intros l Hl. assert (tr = repeat (Producer, Works Tau) 4) as E by (vm_compute; reflexivity).
    rewrite E in Hl. apply list_elem_of_In, repeat_spec in Hl. injection Hl as ->. reflexivity.
Defined.

Lemma answers_to_the_two_sides_witness :
  0 <= 1 <= zlen (st_pushed (o_st sample_counting)) - zlen (st_popped (o_st sample_counting)).
Proof.
  refine (proj2 (answers_to_the_two_sides sample_q 1 sample_mem _ sample_counting Consumer QStats (Used 1 0 1)
           (o_after [Ask Consumer QStats] sample_counting) sample_ring (o_after_run _ _) _)).
  apply (o_do_step sample_q (Ask Consumer QStats)). vm_compute. reflexivity.
Defined.

(** One message pushed, a third process half way through its diagnosis: it will answer OK,
    and a forced recovery does nothing on that answer. *)
Lemma live_queue_not_corrupted_witness :
  let s1 := o_after [Ask Third QDiagnose] sample_asking in
  let d := classify 1 0 2 16 in
  ostep sample_q sample_asking Third (Answers QDiagnose (Diagnosis d)) s1 /\
  d_state d = NABD_STATE_OK /\
  @recover_after simple "/q"%string true NABD_OK (Some d) (with_queue sample_two)
  = Some (NABD_OK : Z, with_queue sample_two).
Proof.
  intros s1 d. assert (ostep sample_q sample_asking Third (Answers QDiagnose (Diagnosis d)) s1) as Hs.
  { apply (o_do_step sample_q (Ask Third QDiagnose)). vm_compute. reflexivity. }
  split; [exact Hs|]. split; [reflexivity|].
  exact (proj2 (proj2 (live_queue_not_corrupted sample_q 1 sample_mem _ sample_asking Third d s1
    sample_ring (o_after_run _ _) Hs ltac:(vm_compute; reflexivity))) simple "/q"%string true (with_queue sample_two)).
Defined.

(** With two slots the fill level comes out as minus fifty. *)
Lemma observer_counts_backwards_witness :
  exists tr s s1, orun sample_q (o_initial sample_mem) tr s /\ ostep sample_q s Third (Answers QFill (Code (-50))) s1.
Proof.
  destruct (observer_counts_backwards sample_q 1 sample_mem msg_a QFill sample_ring)
    as (tr & s & a & s1 & Hr & Hs & _ & _ & ->); [vm_compute; discriminate|vm_compute; reflexivity|auto|].
  exists tr, s, s1. split; [exact Hr|]. exact Hs.
Defined.

(** A third process counts the one message there is; the function counts it too. *)
Lemma questions_are_the_functions_witness :
  let m := sh_mem (st_sh (o_st sample_asking)) in
  exists h t, nabd_stats (Some sample_q) (Some (NabdStats 0 0 0 0 0)) m
    = Some (NABD_OK : Z, Some (NabdStats h t 2 1 16), m).
Proof.
  intros m. destruct (questions_are_the_functions sample_q 1 sample_mem _ sample_asking Third QStats sample_ring
              (o_after_run _ _)) as (x & v & a & v' & _ & _ & Hf & Hr).
  destruct a as [|h t u| |]; [destruct Hf| |destruct Hf..]. destruct Hr as (_ & _ & Hu).
  assert (u = 1) as -> by (rewrite Hu; vm_compute; reflexivity).
  exists h, t. exact (Hf (NabdStats 0 0 0 0 0)).
Defined.
