(* ===== verification/GroupWeak.v ===== *)
(** * A member of a consumer group under release/acquire memory

    The producer and the single consumer of Spsc.v, and a third thread that has claimed
    a group: the end of [nabd_consumer_create], which loads [head] and stores the group's
    position, then calls of [nabd_consumer_pop], one step per memory access.  The memory
    orders are those of the code: the member loads [head] with acquire and its own
    position relaxed, it stores its position with release; the producer never loads the
    position of a group.  The slot reads of the member are counted as those of the
    consumer are, so that races with the producer's writes can be told.  The position of
    a group with one member is written by that member only.

    The invariant is in this file, the theorems in GroupWeakCorrect.v. *)

From S2P Require Import Prelude Words Pow2 Memory Layout Fifo Queue Ring MultiConsumer Spsc SpscInv ObserveInv.
From stdpp Require Import relations.
Local Open Scope Z_scope.

(** ** The member's thread *)

Inductive mpc :=
  | MCreate                             (* in nabd_consumer_create, the group claimed *)
  | MSetTail (head : Z)
  | MIdle                               (* between calls of nabd_consumer_pop *)
  | MLoadHead (cap tail : Z)
  | MLength (cap tail : Z)
  | MCopy (tail len : Z)
  | MStore (tail : Z) (d : msg).

(** What a step shows: nothing, the handle that create returns, the return of a pop. *)
Inductive mevt :=
  | MTau
  | MOpened
  | MPopped (r : nabd_error_t) (d : option msg).

(** The position of the group with its history, and per slot the member's count at its
    last read. *)
Record group_mem := GroupMem { gm_tail : list (Z * view); gm_rclk : Z -> nat }.

Definition see_group (ts : nat) (v : view) : view :=
  View (v_head v) (v_tail v) ts (v_p v) (v_c v) (v_g v).
Definition tick_g (v : view) : view :=
  View (v_head v) (v_tail v) (v_gt v) (v_p v) (v_c v) (S (v_g v)).

Definition with_mem (m : mem) (sh : shared) : shared :=
  Shared m (sh_head sh) (sh_tail sh) (sh_wclk sh) (sh_rclk sh).

(** [NABD_LOAD_RELAXED(&group->tail)] and [NABD_STORE_RELEASE(&group->tail, x)]. *)
Definition group_load (ts : nat) (gm : group_mem) (v : view) : option (Z * view) :=
  if (ts <? v_gt v)%nat then None else
  '(x, _) ← gm_tail gm !! ts;
  Some (x, see_group ts v).

Definition group_store (g x : Z) (sh : shared) (gm : group_mem) (v : view)
    : option (shared * group_mem * view) :=
  '(_, m) ← st 8 (g + GRP_TAIL) x (sh_mem sh);
  let v' := see_group (length (gm_tail gm)) v in
  Some (with_mem m sh, GroupMem (gm_tail gm ++ [(x, v')]) (gm_rclk gm), v').

Definition member_read (c : Z) (gm : group_mem) (v : view) : group_mem * view :=
  let v' := tick_g v in
  (GroupMem (gm_tail gm) (upd (gm_rclk gm) c (v_g v')), v').

Section Machine.
Context (q : nabd) (g : Z).

(** The next step; [cap] is the capacity of the buffer of a new pop, [ts] the message an
    atomic load reads from. *)
Definition m_next (cap : Z) (ts : nat) (sh : shared) (gm : group_mem) (pc : mpc) (v : view)
    : option (mevt * shared * group_mem * mpc * view) :=
  match pc with
  | MCreate =>
      '(head, v') ← NABD_LOAD_ACQUIRE Head ts sh v;
      Some (MTau, sh, gm, MSetTail head, v')
  | MSetTail head =>
      '(sh', gm', v') ← group_store g head sh gm v;
      Some (MOpened, sh', gm', MIdle, v')
  | MIdle =>
      '(tail, v') ← group_load ts gm v;
      Some (MTau, sh, gm, MLoadHead cap tail, v')
  | MLoadHead cap tail =>
      '(head, v') ← NABD_LOAD_ACQUIRE Head ts sh v;
      if head <=? tail then Some (MPopped NABD_EMPTY None, sh, gm, MIdle, v')
      else Some (MTau, sh, gm, MLength cap tail, v')
  | MLength cap tail =>
      '(len, _) ← ld 2 (get_slot q tail + HDR_LENGTH) (sh_mem sh);
      let (gm', v') := member_read (cell q tail) gm v in
      Some (if cap <? len then (MPopped NABD_TOOBIG None, sh, gm', MIdle, v')
            else (MTau, sh, gm', MCopy tail len, v'))
  | MCopy tail len =>
      '(d, _) ← load (get_slot q tail + SIZEOF_HEADER) len (sh_mem sh);
      let (gm', v') := member_read (cell q tail) gm v in
      Some (MTau, sh, gm', MStore tail d, v')
  | MStore tail d =>
      '(sh', gm', v') ← group_store g (add64 tail 1) sh gm v;
      Some (MPopped NABD_OK (Some d), sh', gm', MIdle, v')
  end.

(** The member may read a slot the producer's last write of which does not happen
    before. *)
Definition member_race (sh : shared) (pc : mpc) (v : view) : bool :=
  match pc with
  | MLength _ tail | MCopy tail _ => (v_p v <? sh_wclk sh (cell q tail))%nat
  | _ => false
  end.

(** The producer may write a slot the member's last read of which does not happen
    before. *)
Definition overwrite_race (gm : group_mem) (pc : ppc) (v : view) : bool :=
  match pc with
  | PReserved head | PPayload _ head | PHeader _ head => (v_g v <? gm_rclk gm (cell q head))%nat
  | _ => false
  end.

(** ** The system *)

(** [w_from] is the head the create loaded, so [w_from] plus the number of messages
    received is the position of the group. *)
Record wstate := WState {
  w_st : state;
  w_gm : group_mem;
  w_pc : mpc; w_v : view;
  w_from : nat;
  w_got : list msg
}.

Definition with_shared (sh : shared) (s : state) : state :=
  State sh (st_pp s) (st_pv s) (st_cp s) (st_cv s) (st_pushed s) (st_popped s).

Definition m_received (e : mevt) : list msg := match e with MPopped NABD_OK (Some d) => [d] | _ => [] end.

Inductive wstep (s : wstate) : wstate -> Prop :=
  | wstep_two s' :
      step q (w_st s) s' -> wstep s (WState s' (w_gm s) (w_pc s) (w_v s) (w_from s) (w_got s))
  | wstep_member cap ts e sh gm pc v :
      m_next cap ts (st_sh (w_st s)) (w_gm s) (w_pc s) (w_v s) = Some (e, sh, gm, pc, v) ->
      wstep s (WState (with_shared sh (w_st s)) gm pc v
                      (match w_pc s with MCreate => ts | _ => w_from s end) (w_got s ++ m_received e)).

(** An empty queue; the group's position has an old value. *)
Definition w_initial (m : mem) : wstate :=
  WState (initial m) (GroupMem [(rd 8 m (g + GRP_TAIL), view0)] (fun _ => 0%nat)) MCreate view0 0 [].

(** The producer may have written to the slot of the head: the message a capacity before
    is gone. *)
Definition writing (pc : ppc) : nat :=
  match pc with PReserved _ | PPayload _ _ | PHeader _ _ | PPublish _ _ => 1 | _ => 0 end.

(** The next message of the group has not been overwritten. *)
Definition keeps_up (s : wstate) : Prop :=
  match w_pc s with
  | MCreate => True
  | _ => (length (st_pushed (w_st s)) + writing (st_pp (w_st s))
          <= w_from s + length (w_got s) + Z.to_nat (q_capacity q))%nat
  end.

(** Runs in which the group keeps up. *)
Definition wstep_up (s s' : wstate) : Prop := wstep s s' /\ keeps_up s'.

Definition w_reachable (m : mem) (s : wstate) : Prop := rtc wstep_up (w_initial m) s.

(** The member running alone, every load reading the newest message. *)
Definition m_newest (sh : shared) (gm : group_mem) (pc : mpc) : nat :=
  match pc with
  | MIdle => length (gm_tail gm) - 1
  | MCreate | MLoadHead _ _ => newest Head sh
  | _ => 0
  end.

(** A whole call; a pop takes five steps. *)
Fixpoint m_run (fuel : nat) (cap : Z) (sh : shared) (gm : group_mem) (pc : mpc) (v : view)
    : option (nabd_error_t * option msg * shared * group_mem * mpc) :=
  match fuel with
  | O => None
  | S fuel =>
      match m_next cap (m_newest sh gm pc) sh gm pc v with
      | Some (MPopped r x, sh', gm', pc', _) => Some (r, x, sh', gm', pc')
      | Some (_, sh', gm', pc', v') => m_run fuel cap sh' gm' pc' v'
      | None => None
      end
  end.

End Machine.
