(* ===== verification/GroupWeakInv.v ===== *)
(** * A member of a group under release/acquire memory: invariant

    As long as the group keeps up, every message not yet overwritten is whole in its
    slot, also those the single consumer has removed; the member that has loaded a head
    knows of all the writes to the slots before it; and no view anywhere has any
    knowledge of the member's reads, because nobody loads what the member stores. *)

From S2P Require Import Prelude Words Pow2 Memory Layout Fifo Queue Ring MultiConsumer Spsc SpscInv ObserveInv GroupWeak.
From stdpp Require Import relations.
Local Open Scope Z_scope.

Section GroupWeakInv.
Context (q : nabd) (k : Z) (W : wf_handle q k) (g : Z).
Context (Hg : SIZEOF_CONTROL + 2 ^ k * q_slot_size q <= g).

(** ** What survives in the ring *)

(** The last messages published, a capacity of them, are in their slots. *)
Definition held (sh : shared) (pp : ppc) (pushed : list msg) : Prop :=
  forall i d, Z.of_nat (length pushed + writing pp) - 2 ^ k <= Z.of_nat i ->
  pushed !! i = Some d -> holds q k (sh_mem sh) (Z.of_nat i) d.

(** Whoever has acquired a head after position [i] knows of the writes to its slot. *)
Definition synced (sh : shared) (pp : ppc) (nH : nat) : Prop :=
  forall i, Z.of_nat (nH + writing pp) - 2 ^ k <= Z.of_nat i -> (i < nH)%nat ->
  (sh_wclk sh (Z.of_nat i mod 2 ^ k) <= clk v_p (sh_head sh) (S i))%nat.

(** A view without any knowledge of what the member did. *)
Definition blind (v : view) : Prop := v_gt v = 0%nat /\ v_g v = 0%nat.

(** Nobody but the member knows of the member's reads. *)
Record no_g (sh : shared) (vp vc : view) : Prop := {
  ng_head i x w : sh_head sh !! i = Some (x, w) -> blind w;
  ng_tail i x w : sh_tail sh !! i = Some (x, w) -> blind w;
  ng_p : blind vp;
  ng_c : blind vc
}.

Lemma held_frame off n sh sh' pp pushed :
  frame off n (sh_mem sh) (sh_mem sh') ->
  off + n <= SIZEOF_CONTROL \/ SIZEOF_CONTROL + 2 ^ k * q_slot_size q <= off ->
  held sh pp pushed -> held sh' pp pushed.
Proof.
  intros Hf Ho Hh i d Hi Hd. eapply holds_frame; [exact W|exact Hf|by apply Hh|].
  pose proof (slot_range q k W (Z.of_nat i)). lia.
Qed.

Lemma held_writing sh pp pp' pushed :
  (writing pp <= writing pp')%nat -> held sh pp pushed -> held sh pp' pushed.
Proof. intros Hw Hh i d Hi. apply Hh. lia. Qed.

Lemma synced_writing sh pp pp' nH : (writing pp <= writing pp')%nat -> synced sh pp nH -> synced sh pp' nH.
Proof. intros Hw Hs i Hi. apply Hs. lia. Qed.

(** ** The steps of the two threads *)

Section Two.
Context (sh : shared) (pp : ppc) (vp : view) (cp : cpc) (vc : view).
Context (pushed popped : list msg) (nH nT : nat).
Context (I : inv q k sh pp vp cp vc pushed popped nH nT).

(** What a step of the producer does to the shared state: nothing, a write to the slot of
    the head, or the store of the head. *)
Lemma p_effect a ts e sh' pp' v' :
  p_next q a ts sh pp vp = Some (e, sh', pp', v') -> (v_p vp <= v_p v')%nat /\ (
  (sh' = sh /\ moved e = [] /\ (writing pp <= writing pp')%nat) \/
  (exists m n, sh' = Shared m (sh_head sh) (sh_tail sh) (upd (sh_wclk sh) (Z.of_nat nH mod 2 ^ k) n) (sh_rclk sh) /\
     frame (slot_off q k (Z.of_nat nH)) (q_slot_size q) (sh_mem sh) m /\ moved e = [] /\
     writing pp = 1%nat /\ writing pp' = 1%nat) \/
  (exists x d, sh' = Shared (wr 8 (sh_mem sh) OFF_HEAD x) (sh_head sh ++ [(x, v')]) (sh_tail sh) (sh_wclk sh) (sh_rclk sh) /\
     moved e = [d] /\ writing pp = 1%nat /\ pp' = PIdle /\ holds q k (sh_mem sh) (Z.of_nat nH) (kept d) /\
     v_p v' = v_p vp)).
Proof.
  pose proof (i_pp _ _ _ _ _ _ _ _ _ _ _ I) as Hpp.
  destruct pp as [|h|r|r h|d h|d h|d h]; simpl in Hpp |- *.
  - destruct a; try done; try case_zb; intros [= <- <- <- <-]; (split; [done|left]); simpl; (split_and!; [done..|lia]).
  - destruct Hpp as [-> Hroom]. rewrite (max_payload_eq q k W), (payload_off q k W).
    destruct a as [d|len|off bs|len]; [done|..].
    + intros [= <- <- <- <-]. by split; [|left].
    + destruct (off <? 0) eqn:E1; [done|]. simpl. case_zb; [done|]. zbool.
      destruct (payload_write q k W _ _ _ _ _ _ _ _ _ off bs I) as (-> & Hf & _); [lia|lia|].
      simpl. intros [= <- <- <- <-]. split; [simpl; lia|]. right. left. rewrite (cell_eq q k W). by eexists _, _.
    + case_match; [done|]. intros [= <- <- <- <-]. by split; [|left].
  - destruct (NABD_LOAD_RELAXED _ _ _ _) as [[x v]|] eqn:E; [|done].
    apply (relaxed_head q k _ _ _ _ _ _ _ _ _ I) in E as [-> ->]. intros [= <- <- <- <-]. by split; [|left].
  - destruct (NABD_LOAD_ACQUIRE _ _ _ _) as [[x v]|] eqn:E; [|done]. simpl.
    apply (acquire_tail q k _ _ _ _ _ _ _ _ _ I) in E as (_ & _ & _ & Hp & _).
    case_zb; [|destruct r]; intros [= <- <- <- <-]; (split; [lia|left]); simpl; split_and!; done || lia.
  - destruct Hpp as (-> & Hroom & Hd & _).
    destruct (payload_write q k W _ _ _ _ _ _ _ _ _ 0 d I) as (Hs & Hf & _); [lia|lia|].
    rewrite !Z.add_0_r in Hs, Hf. rewrite (get_slot_off q k W), memcpy_in_all, Hs. simpl.
    intros [= <- <- <- <-]. split; [simpl; lia|]. right. left. rewrite (cell_eq q k W). by eexists _, _.
  - destruct Hpp as (-> & Hroom & Hd & _). pose proof (wf_slot _ _ W). pose proof (zlen_nonneg d).
    pose proof (head_slot_in q k W _ _ _ _ _ _ _ _ _ I) as Hin.
    rewrite (get_slot_off q k W).
    destruct (fill_header_spec (sh_mem sh) (slot_off q k (Z.of_nat nH)) (zlen d) (u64 (Z.of_nat nH)))
      as (m2 & -> & Hf2 & _); [unfold in_mem, SIZEOF_HEADER in *; lia|]. simpl.
    intros [= <- <- <- <-]. split; [simpl; lia|]. right. left. rewrite (cell_eq q k W). eexists _, _.
    split_and!; try done. eapply frame_mono; [| |exact Hf2]; lia.
  - destruct Hpp as (-> & Hroom & Hd & Hh). rewrite (release_store q k _ _ _ _ _ _ _ _ _ I). simpl.
    intros [= <- <- <- <-]. split; [done|]. right. right. by eexists _, d.
Qed.

Lemma p_keeps a ts e sh' pp' v' :
  held sh pp pushed -> synced sh pp nH -> p_next q a ts sh pp vp = Some (e, sh', pp', v') ->
  held sh' pp' (pushed ++ map kept (moved e)) /\
  synced sh' pp' (length (pushed ++ map kept (moved e))) /\ zlen (sh_mem sh') = zlen (sh_mem sh) /\
  rd 8 (sh_mem sh') (g + GRP_TAIL) = rd 8 (sh_mem sh) (g + GRP_TAIL).
Proof.
  intros Hh Hs E. pose proof (i_nH _ _ _ _ _ _ _ _ _ _ _ I) as HnH. pose proof (pow_k _ _ W).
  pose proof (wf_slot _ _ W) as Hss. pose proof (slot_range q k W (Z.of_nat nH)) as Hr.
  unfold SIZEOF_CONTROL, SIZEOF_HEADER, GRP_TAIL in *.
  destruct (p_effect _ _ _ _ _ _ E) as
    [_ [(-> & -> & Hw)|[(m & n & -> & Hf & -> & Hw & Hw')|(x & d & -> & -> & Hw & -> & Hd & Hp)]]]; simpl.
  - rewrite app_nil_r, <- HnH. split_and!; eauto using held_writing, synced_writing.
  - rewrite app_nil_r, <- HnH. split_and!; [..|by rewrite (frame_len _ _ _ _ Hf)|].
    + intros i d Hi Hd. pose proof (lookup_lt_Some _ _ _ Hd).
      eapply holds_frame; [exact W|exact Hf|apply Hh; [lia|done]|].
      apply slot_disjoint; [exact W|]. apply mod_distinct; lia.
    + intros i Hi Hlt. unfold upd. simpl.
      destruct (Z.eqb_spec (Z.of_nat i mod 2 ^ k) (Z.of_nat nH mod 2 ^ k)) as [He|_].
      * exfalso. revert He. apply mod_distinct; lia.
      * apply Hs; [lia|done].
    + apply (frame_rd _ _ _ _ _ _ Hf); lia.
  - assert (frame OFF_HEAD 8 (sh_mem sh) (wr 8 (sh_mem sh) OFF_HEAD x)) as Hf.
    { apply frame_wr. eapply ring_in_control; [apply (i_ring _ _ _ _ _ _ _ _ _ _ _ I)|..];
        unfold OFF_HEAD, SIZEOF_CONTROL; lia. }
    rewrite length_app, <- HnH. simpl. unfold OFF_HEAD in Hf.
    split_and!; [..|apply (frame_len _ _ _ _ Hf)|apply (frame_rd _ _ _ _ _ _ Hf); unfold OFF_HEAD; lia].
    + apply (held_frame 64 8 sh); [exact Hf|unfold SIZEOF_CONTROL; lia|].
      intros i d' Hi [Hd'|[Hge Hd']]%lookup_app_Some.
      * apply Hh; [|done]. rewrite length_app in Hi. simpl in Hi. lia.
      * apply list_lookup_singleton_Some in Hd' as [Hi' <-]. by replace i with nH by lia.
    + intros i Hi Hlt. simpl. pose proof (i_hlen _ _ _ _ _ _ _ _ _ _ _ I) as Hl. simpl in Hi.
      destruct (decide (i = nH)) as [->|].
      * rewrite <- Hl, clk_new, Hp. apply (i_w1 _ _ _ _ _ _ _ _ _ _ _ I).
      * rewrite clk_app by lia. apply Hs; lia.
Qed.

(** The consumer stores [tail] at most. *)
Lemma c_effect a ts e sh' cp' v' :
  c_next q a ts sh cp vc = Some (e, sh', cp', v') ->
  sh_head sh' = sh_head sh /\ sh_wclk sh' = sh_wclk sh /\ frame OFF_TAIL 8 (sh_mem sh) (sh_mem sh').
Proof.
  pose proof (frame_refl OFF_TAIL 8 (sh_mem sh)). unfold c_next.
  destruct cp as [|t n|r|r t|r t|t n|d|t d].
  - destruct a; try done; by intros [= <- <- <- <-].
  - destruct a; try (by intros [= <- <- <- <-]). case_match; [done|].
    destruct (load _ _ _) as [[bs m]|]; [|done]. by intros [= <- <- <- <-].
  - destruct (NABD_LOAD_RELAXED _ _ _ _) as [[x v]|]; [|done]. by intros [= <- <- <- <-].
  - destruct (NABD_LOAD_ACQUIRE _ _ _ _) as [[x v]|]; [|done]. simpl. case_zb; by intros [= <- <- <- <-].
  - destruct (ld _ _ _) as [[n m]|]; [|done]. simpl. destruct r; [case_zb|]; by intros [= <- <- <- <-].
  - destruct (load _ _ _) as [[d m]|]; [|done]. by intros [= <- <- <- <-].
  - destruct (NABD_LOAD_RELAXED _ _ _ _) as [[x v]|]; [|done]. by intros [= <- <- <- <-].
  - rewrite (release_store q k _ _ _ _ _ _ _ _ _ I). simpl. intros [= <- <- <- <-]. simpl.
    split_and!; [done..|]. apply frame_wr.
    eapply ring_in_control; [apply (i_ring _ _ _ _ _ _ _ _ _ _ _ I)|..]; unfold OFF_TAIL, SIZEOF_CONTROL; lia.
Qed.
End Two.

(** ** Knowledge of the member's reads *)

Lemma load_no_g l ts sh v x v' :
  (forall i y w, hist l sh !! i = Some (y, w) -> blind w) -> blind v ->
  NABD_LOAD_RELAXED l ts sh v = Some (x, v') \/ NABD_LOAD_ACQUIRE l ts sh v = Some (x, v') -> blind v'.
Proof.
  intros Hh [Hv1 Hv2]. unfold NABD_LOAD_RELAXED, NABD_LOAD_ACQUIRE. case_match; [by intros [|]|].
  destruct (hist l sh !! ts) as [[y w]|] eqn:E; [|by intros [|]]. simpl. destruct (Hh _ _ _ E).
  intros [[= <- <-]|[= <- <-]]; destruct l; split; simpl; lia.
Qed.

Lemma store_no_g l x sh v sh' v' :
  NABD_STORE_RELEASE l x sh v = Some (sh', v') -> blind v ->
  blind v' /\ (forall l i y w, hist l sh' !! i = Some (y, w) -> blind w \/ hist l sh !! i = Some (y, w)).
Proof.
  unfold NABD_STORE_RELEASE. destruct (st _ _ _ _) as [[[] m]|]; [|done]. simpl. intros [= <- <-] Hv.
  split; [by destruct l|]. intros l' i y w. destruct l, l'; simpl; auto;
    intros [Hi|[_ Hi]]%lookup_app_Some; auto; apply list_lookup_singleton_Some in Hi as [_ [= <- <-]]; auto.
Qed.

Lemma no_g_hist sh vp vc l i y w : no_g sh vp vc -> hist l sh !! i = Some (y, w) -> blind w.
Proof. intros []. destruct l; simpl; eauto. Qed.

Lemma p_no_g sh pp vp vc a ts e sh' pp' v' :
  no_g sh vp vc -> p_next q a ts sh pp vp = Some (e, sh', pp', v') -> no_g sh' v' vc.
Proof.
  intros Hn. pose proof (fun l => load_no_g l ts sh vp) as Hl. pose proof (no_g_hist sh vp vc) as Hh.
  destruct pp as [|h|r|r h|d h|d h|d h]; simpl.
  - destruct a; try done; try case_zb; by intros [= <- <- <- <-].
  - destruct a; try done; try (by intros [= <- <- <- <-]); (case_match; [done|]); [|by intros [= <- <- <- <-]].
    destruct (store _ _ _) as [[[] m]|]; [|done]. intros [= <- <- <- <-]. by destruct Hn.
  - destruct (NABD_LOAD_RELAXED _ _ _ _) as [[x v]|] eqn:E; [|done]. intros [= <- <- <- <-].
    assert (blind v) by (eapply (Hl Head); [eauto|apply Hn|by left]). by destruct Hn.
  - destruct (NABD_LOAD_ACQUIRE _ _ _ _) as [[x v]|] eqn:E; [|done]. simpl.
    assert (blind v) by (eapply (Hl Tail); [eauto|apply Hn|by right]).
    case_zb; [|destruct r]; intros [= <- <- <- <-]; by destruct Hn.
  - destruct (memcpy_in _ _ _ _) as [[[] m]|]; [|done]. intros [= <- <- <- <-]. by destruct Hn.
  - destruct (fill_header _ _ _ _) as [[[] m]|]; [|done]. intros [= <- <- <- <-]. by destruct Hn.
  - destruct (NABD_STORE_RELEASE _ _ _ _) as [[s v]|] eqn:E; [|done]. intros [= <- <- <- <-].
    destruct (store_no_g _ _ _ _ _ _ E (ng_p _ _ _ Hn)) as [Hv Hs].
    split; try done; [..|apply Hn]; intros i x w Hi;
      [destruct (Hs Head i x w Hi)|destruct (Hs Tail i x w Hi)]; eauto.
Qed.

Lemma c_no_g sh cp vp vc a ts e sh' cp' v' :
  no_g sh vp vc -> c_next q a ts sh cp vc = Some (e, sh', cp', v') -> no_g sh' vp v'.
Proof.
  intros Hn. pose proof (fun l => load_no_g l ts sh vc) as Hl. pose proof (no_g_hist sh vp vc) as Hh.
  destruct cp as [|t n|r|r t|r t|t n|d|t d]; simpl.
  - destruct a; try done; by intros [= <- <- <- <-].
  - destruct a; try (by intros [= <- <- <- <-]). case_match; [done|].
    destruct (load _ _ _) as [[bs m]|]; [|done]. intros [= <- <- <- <-]. by destruct Hn.
  - destruct (NABD_LOAD_RELAXED _ _ _ _) as [[x v]|] eqn:E; [|done]. intros [= <- <- <- <-].
    assert (blind v) by (eapply (Hl Tail); [eauto|apply Hn|by left]). by destruct Hn.
  - destruct (NABD_LOAD_ACQUIRE _ _ _ _) as [[x v]|] eqn:E; [|done]. simpl.
    assert (blind v) by (eapply (Hl Head); [eauto|apply Hn|by right]).
    case_zb; intros [= <- <- <- <-]; by destruct Hn.
  - destruct (ld _ _ _) as [[n m]|]; [|done]. simpl.
    destruct r; [case_zb|]; intros [= <- <- <- <-]; by destruct Hn.
  - destruct (load _ _ _) as [[d m]|]; [|done]. intros [= <- <- <- <-]. by destruct Hn.
  - destruct (NABD_LOAD_RELAXED _ _ _ _) as [[x v]|] eqn:E; [|done]. intros [= <- <- <- <-].
    assert (blind v) by (eapply (Hl Tail); [eauto|apply Hn|by left]). by destruct Hn.
  - destruct (NABD_STORE_RELEASE _ _ _ _) as [[s v]|] eqn:E; [|done]. intros [= <- <- <- <-].
    destruct (store_no_g _ _ _ _ _ _ E (ng_c _ _ _ Hn)) as [Hv Hs].
    split; try done; [..|apply Hn]; intros i x w Hi;
      [destruct (Hs Head i x w Hi)|destruct (Hs Tail i x w Hi)]; eauto.
Qed.

(** ** The invariant *)

(** Where the member can be: what it has received are the messages from [from] on, its
    position is in memory, and what it has loaded is still so. *)
Definition m_placed (pc : mpc) (v : view) (gm : group_mem) (m : mem) (from : nat) (got pushed : list msg) : Prop :=
  let T := (from + length got)%nat in
  got = take (length got) (drop from pushed) /\
  match pc with
  | MCreate => got = [] /\ forall c, gm_rclk gm c = 0%nat
  | MSetTail h => got = [] /\ h = u64 (Z.of_nat from) /\ (from <= v_head v)%nat
  | _ => rd 8 m (g + GRP_TAIL) = u64 (Z.of_nat T) /\ (T <= v_head v)%nat /\
      match pc with
      | MLoadHead _ t => t = u64 (Z.of_nat T)
      | MLength _ t => t = u64 (Z.of_nat T) /\ (T < v_head v)%nat
      | MCopy t n => t = u64 (Z.of_nat T) /\ (T < v_head v)%nat /\ exists d, pushed !! T = Some d /\ n = zlen d
      | MStore t d => t = u64 (Z.of_nat T) /\ (T < v_head v)%nat /\ pushed !! T = Some d /\
                      gm_rclk gm (Z.of_nat T mod 2 ^ k) <> 0%nat
      | _ => True
      end
  end.

Record winv (s : wstate) (nH nT : nat) : Prop := {
  wi_inv : inv q k (st_sh (w_st s)) (st_pp (w_st s)) (st_pv (w_st s)) (st_cp (w_st s)) (st_cv (w_st s))
             (map kept (st_pushed (w_st s))) (st_popped (w_st s)) nH nT;
  wi_held : held (st_sh (w_st s)) (st_pp (w_st s)) (map kept (st_pushed (w_st s)));
  wi_synced : synced (st_sh (w_st s)) (st_pp (w_st s)) nH;
  wi_no_g : no_g (st_sh (w_st s)) (st_pv (w_st s)) (st_cv (w_st s));
  wi_view : vok (sh_head (st_sh (w_st s))) (sh_tail (st_sh (w_st s)))
              (v_p (st_pv (w_st s))) (v_c (st_cv (w_st s))) (w_v s);
  wi_seen : length (gm_tail (w_gm s)) = S (v_gt (w_v s));
  wi_place : g + SIZEOF_GROUP <= zlen (sh_mem (st_sh (w_st s)));
  wi_word : exists w, gm_tail (w_gm s) !! v_gt (w_v s)
                      = Some (rd 8 (sh_mem (st_sh (w_st s))) (g + GRP_TAIL), w);
  wi_at : m_placed (w_pc s) (w_v s) (w_gm s) (sh_mem (st_sh (w_st s))) (w_from s) (w_got s)
            (map kept (st_pushed (w_st s)));
  wi_read i : (w_from s <= i < w_from s + length (w_got s))%nat ->
              gm_rclk (w_gm s) (Z.of_nat i mod 2 ^ k) <> 0%nat;
  wi_only c : gm_rclk (w_gm s) c <> 0%nat ->
              exists i, (w_from s <= i < v_head (w_v s))%nat /\ c = Z.of_nat i mod 2 ^ k
}.

(** A step that publishes more, and leaves the position of the group alone. *)
Lemma m_placed_app pc v gm m m' from got pushed ds :
  (v_head v <= length pushed)%nat -> rd 8 m' (g + GRP_TAIL) = rd 8 m (g + GRP_TAIL) ->
  m_placed pc v gm m from got pushed -> m_placed pc v gm m' from got (pushed ++ ds).
Proof.
  intros Hv Hm [Hg0 Hp]. unfold m_placed. rewrite Hm.
  assert (forall x, pushed !! (from + length got)%nat = Some x ->
            (pushed ++ ds) !! (from + length got)%nat = Some x) as Hl by (intros; by apply lookup_app_l_Some).
  split.
  - destruct (decide (got = [])) as [->|Hne]; [done|].
    assert (from + length got <= length pushed)%nat.
    { destruct pc; simpl in Hp; first [lia | by destruct Hp as [-> _]]. }
    rewrite drop_app_le, take_app_le by (rewrite ?length_drop; lia). done.
  - destruct pc; simpl in Hp |- *; try done.
    + destruct Hp as (? & ? & ? & ? & d & ? & ?). split_and!; eauto.
    + destruct Hp as (? & ? & ? & ? & ? & ?). split_and!; eauto.
Qed.

(** The queue does not notice a store into the group. *)
Lemma inv_elsewhere sh pp vp cp vc pushed popped nH nT off n m :
  inv q k sh pp vp cp vc pushed popped nH nT -> SIZEOF_CONTROL + 2 ^ k * q_slot_size q <= off ->
  frame off n (sh_mem sh) m -> inv q k (with_mem m sh) pp vp cp vc pushed popped nH nT.
Proof.
  intros I Ho Hf. pose proof (i_pp _ _ _ _ _ _ _ _ _ _ _ I) as Hpp. destruct I. pose proof (slot_range q k W (Z.of_nat nH)) as Hr.
  pose proof (wf_slot _ _ W) as Hss.
  split; try done; [by eapply ring_after|].
  unfold SIZEOF_CONTROL, SIZEOF_HEADER in *. destruct pp; simpl in *; try done.
  - destruct Hpp as (? & ? & ? & Hs). split_and!; try done.
    pose proof (zlen_nonneg d). unfold SIZEOF_HEADER in *. rewrite (proj2 Hf); done || lia.
  - destruct Hpp as (? & ? & ? & Hs). split_and!; try done.
    eapply holds_frame; [exact W|exact Hf|exact Hs|]. lia.
Qed.

(** ** Preservation *)

Lemma w_producer_step s a ts e sh pc v nH nT :
  winv s nH nT -> p_next q a ts (st_sh (w_st s)) (st_pp (w_st s)) (st_pv (w_st s)) = Some (e, sh, pc, v) ->
  exists nH', winv (WState (State sh pc v (st_cp (w_st s)) (st_cv (w_st s))
                (st_pushed (w_st s) ++ moved e) (st_popped (w_st s)))
                (w_gm s) (w_pc s) (w_v s) (w_from s) (w_got s)) nH' nT.
Proof.
  intros [I Hh Hs Hn Hv Hsn Hpl [w Hw] Hat Hrd Hon] E.
  destruct (p_step_inv q k W _ _ _ _ _ _ _ _ _ _ _ _ _ _ _ I E) as (nH' & I'). exists nH'.
  destruct (p_keeps _ _ _ _ _ _ _ _ _ I _ _ _ _ _ _ Hh Hs E) as (Hh' & Hs' & Hz & Hrd').
  pose proof (i_nH _ _ _ _ _ _ _ _ _ _ _ I') as HnH'. rewrite <- HnH' in Hs'.
  pose proof (vk_head _ _ _ _ _ Hv) as Hvh. rewrite (i_hlen _ _ _ _ _ _ _ _ _ _ _ I) in Hvh.
  assert ((exists h, sh_head sh = sh_head (st_sh (w_st s)) ++ h) /\ sh_tail sh = sh_tail (st_sh (w_st s)) /\
          (v_p (st_pv (w_st s)) <= v_p v)%nat) as ([h Eh] & Et & Hp).
  { destruct (p_effect _ _ _ _ _ _ _ _ _ I _ _ _ _ _ _ E) as
      [Hp [(-> & _)|[(m & n & -> & _)|(x & d & -> & _)]]]; simpl; split_and!; try done;
      first [by eexists | exists []; by rewrite app_nil_r]. }
  split; cbn [w_st w_gm w_pc w_v w_from w_got st_sh st_pp st_pv st_cp st_cv st_pushed st_popped];
    rewrite ?map_app, ?Hz, ?Hrd'; try done.
  - by eapply p_no_g.
  - rewrite Eh, Et, <- (app_nil_r (sh_tail _)). eapply vok_mono; [exact Hv|done|done].
  - by exists w.
  - eapply m_placed_app; [|exact Hrd'|exact Hat]. rewrite <- (i_nH _ _ _ _ _ _ _ _ _ _ _ I). lia.
Qed.

Lemma w_consumer_step s a ts e sh pc v nH nT :
  winv s nH nT -> c_next q a ts (st_sh (w_st s)) (st_cp (w_st s)) (st_cv (w_st s)) = Some (e, sh, pc, v) ->
  exists nT', winv (WState (State sh (st_pp (w_st s)) (st_pv (w_st s)) pc v
                (st_pushed (w_st s)) (st_popped (w_st s) ++ moved e))
                (w_gm s) (w_pc s) (w_v s) (w_from s) (w_got s)) nH nT'.
Proof.
  intros [I Hh Hs Hn Hv Hsn Hpl [w Hw] Hat Hrd Hon] E.
  destruct (c_step_inv q k W _ _ _ _ _ _ _ _ _ _ _ _ _ _ _ I E) as (nT' & I'). exists nT'.
  destruct (c_effect _ _ _ _ _ _ _ _ _ I _ _ _ _ _ _ E) as (Eh & Ew & Hf).
  destruct (c_next_grows q k _ _ _ _ _ _ _ _ _ I _ _ _ _ _ _ E) as (_ & [h Et] & Hc).
  pose proof (pow_k _ _ W). pose proof (wf_slot _ _ W) as Hss. unfold OFF_TAIL, SIZEOF_CONTROL, SIZEOF_HEADER in *.
  assert (rd 8 (sh_mem sh) (g + GRP_TAIL) = rd 8 (sh_mem (st_sh (w_st s))) (g + GRP_TAIL)) as Hm
    by (apply (frame_rd _ _ _ _ _ _ Hf); unfold GRP_TAIL; lia).
  split; cbn [w_st w_gm w_pc w_v w_from w_got st_sh st_pp st_pv st_cp st_cv st_pushed st_popped];
    rewrite ?Hm, ?(frame_len _ _ _ _ Hf); try done.
  - eapply held_frame; [exact Hf|unfold SIZEOF_CONTROL; lia|done].
  - intros i. rewrite Eh, Ew. apply Hs.
  - by eapply c_no_g.
  - rewrite Eh, Et, <- (app_nil_r (sh_head _)). eapply vok_mono; [exact Hv|done|done].
  - by exists w.
  - rewrite <- (app_nil_r (map kept _)). eapply m_placed_app; [|exact Hm|exact Hat].
    pose proof (vk_head _ _ _ _ _ Hv) as Hvh. rewrite (i_hlen _ _ _ _ _ _ _ _ _ _ _ I) in Hvh.
    rewrite <- (i_nH _ _ _ _ _ _ _ _ _ _ _ I). lia.
Qed.

(** What the member loads: its own position, and a head not older than the last one. *)
Lemma group_load_own s nH nT ts x v :
  winv s nH nT -> group_load ts (w_gm s) (w_v s) = Some (x, v) ->
  x = rd 8 (sh_mem (st_sh (w_st s))) (g + GRP_TAIL) /\ v = w_v s.
Proof.
  intros Wi. destruct (wi_word _ _ _ Wi) as [w Hw]. unfold group_load. case_match eqn:E; [done|].
  apply Nat.ltb_ge in E. destruct (gm_tail (w_gm s) !! ts) as [[y w']|] eqn:El; [|done]. simpl.
  intros [= <- <-]. pose proof (lookup_lt_Some _ _ _ El) as Hl. rewrite (wi_seen _ _ _ Wi) in Hl.
  assert (ts = v_gt (w_v s)) as -> by lia. rewrite Hw in El. injection El as <- _.
  split; [done|]. by destruct (w_v s).
Qed.

Lemma member_head s nH nT ts x v :
  winv s nH nT -> NABD_LOAD_ACQUIRE Head ts (st_sh (w_st s)) (w_v s) = Some (x, v) ->
  x = u64 (Z.of_nat ts) /\ (v_head (w_v s) <= ts <= nH)%nat /\ v_head v = ts /\ v_gt v = v_gt (w_v s) /\
  vok (sh_head (st_sh (w_st s))) (sh_tail (st_sh (w_st s))) (v_p (st_pv (w_st s))) (v_c (st_cv (w_st s))) v.
Proof.
  intros Wi. unfold NABD_LOAD_ACQUIRE. case_match eqn:E; [done|]. apply Nat.ltb_ge in E. simpl in E |- *.
  destruct (sh_head (st_sh (w_st s)) !! ts) as [[y w]|] eqn:El; [|done]. simpl. intros [= <- <-].
  destruct (load_head q k _ _ _ _ _ _ _ _ _ (wi_inv _ _ _ Wi) _ ts y w El (wi_view _ _ _ Wi) E)
    as (-> & Hle & -> & Hts & Hok).
  destruct (ng_head _ _ _ (wi_no_g _ _ _ Wi) _ _ _ El). split_and!; try done. simpl. lia.
Qed.

Lemma with_shared_same st : with_shared (st_sh st) st = st.
Proof. by destruct st. Qed.

(** Only the place in the code and the knowledge of the member change. *)
Lemma m_moves s nH nT pc v from :
  winv s nH nT ->
  vok (sh_head (st_sh (w_st s))) (sh_tail (st_sh (w_st s))) (v_p (st_pv (w_st s))) (v_c (st_cv (w_st s))) v ->
  v_gt v = v_gt (w_v s) -> (v_head (w_v s) <= v_head v)%nat ->
  from = w_from s \/ (w_got s = [] /\ forall c, gm_rclk (w_gm s) c = 0%nat) ->
  m_placed pc v (w_gm s) (sh_mem (st_sh (w_st s))) from (w_got s) (map kept (st_pushed (w_st s))) ->
  winv (WState (w_st s) (w_gm s) pc v from (w_got s)) nH nT.
Proof.
  intros [I Hh Hs Hn Hv Hsn Hpl Hw Hat Hrd Hon] Hv' Hgt Hle Hfr Hp.
  split; cbn [w_st w_gm w_pc w_v w_from w_got]; rewrite ?Hgt; try done.
  - destruct Hfr as [-> |[-> _]]; [done|]. simpl. lia.
  - destruct Hfr as [-> |[_ H0]]; [|by intros c; rewrite H0].
    intros c Hc. destruct (Hon c Hc) as (i & Hi & ->). exists i. split; [lia|done].
Qed.

(** A read of the slot of the group's position. *)
Lemma m_reads s nH nT pc :
  winv s nH nT -> let T := (w_from s + length (w_got s))%nat in (T < v_head (w_v s))%nat ->
  let '(gm, v) := member_read (cell q (u64 (Z.of_nat T))) (w_gm s) (w_v s) in
  (gm_rclk gm (Z.of_nat T mod 2 ^ k) <> 0%nat ->
   m_placed pc v gm (sh_mem (st_sh (w_st s))) (w_from s) (w_got s) (map kept (st_pushed (w_st s)))) ->
  winv (WState (w_st s) gm pc v (w_from s) (w_got s)) nH nT.
Proof.
  intros [I Hh Hs Hn Hv Hsn Hpl Hw Hat Hrd Hon] T HT. unfold member_read. rewrite (cell_eq q k W).
  intros Hp. split; cbn [w_st w_gm w_pc w_v w_from w_got gm_tail gm_rclk]; try done.
  - destruct Hv. by split.
  - apply Hp. simpl. unfold upd. by rewrite Z.eqb_refl.
  - intros i Hi. unfold upd. case_zb; [done|]. by apply Hrd.
  - intros c. unfold upd. case_zb; [|apply Hon]. intros _. subst c. exists T. simpl. split; [lia|done].
Qed.

(** A store of the group's position. *)
Lemma m_stores s nH nT x pc got :
  winv s nH nT -> u64 x = x ->
  exists sh gm v, group_store g x (st_sh (w_st s)) (w_gm s) (w_v s) = Some (sh, gm, v) /\
  ((v_head v = v_head (w_v s) -> gm_rclk gm = gm_rclk (w_gm s) -> rd 8 (sh_mem sh) (g + GRP_TAIL) = x ->
   m_placed pc v gm (sh_mem sh) (w_from s) got (map kept (st_pushed (w_st s))) /\
   forall i, (w_from s <= i < w_from s + length got)%nat -> gm_rclk (w_gm s) (Z.of_nat i mod 2 ^ k) <> 0%nat) ->
  winv (WState (with_shared sh (w_st s)) gm pc v (w_from s) got) nH nT).
Proof.
  intros [I Hh Hs Hn Hv Hsn Hpl Hw Hat Hrd Hon] Hx. pose proof (pow_k _ _ W). pose proof (wf_slot _ _ W) as Hss.
  assert (0 <= g) by (unfold SIZEOF_CONTROL, SIZEOF_HEADER in *; nia).
  assert (in_mem (sh_mem (st_sh (w_st s))) (g + GRP_TAIL) 8) as Hin
    by (unfold in_mem, SIZEOF_GROUP, GRP_TAIL in *; lia).
  unfold group_store. rewrite (st_in _ 8 _ _ Hin). simpl. eexists _, _, _. split; [reflexivity|].
  pose proof (frame_wr 8 _ _ x Hin) as Hf. pose proof (rd_wr_same 8 _ _ x Hin) as Hr.
  change (x mod 2 ^ (Z.of_nat 8 * 8)) with (u64 x) in Hr. rewrite Hx in Hr.
  intros Hp. destruct (Hp eq_refl eq_refl Hr) as [Hp1 Hp2].
  assert (SIZEOF_CONTROL + 2 ^ k * q_slot_size q <= g + GRP_TAIL) by (unfold GRP_TAIL; lia).
  split; cbn [w_st w_gm w_pc w_v w_from w_got with_shared with_mem st_sh st_pp st_pv st_cp st_cv st_pushed
    st_popped sh_head sh_tail sh_mem sh_wclk gm_tail gm_rclk]; try done.
  - by eapply inv_elsewhere.
  - eapply held_frame; [exact Hf|by right|done].
  - by destruct Hn.
  - destruct Hv. by split.
  - rewrite length_app. simpl. lia.
  - by rewrite (frame_len _ _ _ _ Hf).
  - eexists. simpl. rewrite Hr. apply list_lookup_middle. done.
Qed.

(** The message at the group's position, of a group that keeps up. *)
Lemma next_message s nH nT :
  winv s nH nT -> keeps_up q s -> w_pc s <> MCreate ->
  let T := (w_from s + length (w_got s))%nat in (T < nH)%nat ->
  exists d, map kept (st_pushed (w_st s)) !! T = Some d /\ holds q k (sh_mem (st_sh (w_st s))) (Z.of_nat T) d /\
    forall off n, 0 <= off -> 0 <= n -> off + n <= q_slot_size q ->
    in_mem (sh_mem (st_sh (w_st s))) (slot_off q k (Z.of_nat T) + off) n.
Proof.
  intros Wi Hk Hc T HT. pose proof (wi_inv _ _ _ Wi) as I. pose proof (wf_cap _ _ W). pose proof (pow_k _ _ W).
  pose proof (i_nH _ _ _ _ _ _ _ _ _ _ _ I) as HnH.
  destruct (lookup_lt_is_Some_2 (map kept (st_pushed (w_st s))) T) as [d Hd]; [lia|].
  exists d. split; [done|]. split.
  - apply (wi_held _ _ _ Wi); [|done]. rewrite length_map in *.
    assert (length (st_pushed (w_st s)) + writing (st_pp (w_st s)) <= T + Z.to_nat (q_capacity q))%nat
      by (unfold keeps_up in Hk; by destruct (w_pc s)). lia.
  - intros off n ? ? ?. apply (ring_in_slot q k _ _ _ _ (i_ring _ _ _ _ _ _ _ _ _ _ _ I) (Z.of_nat T)); lia.
Qed.

(** The two steps of [nabd_consumer_create]. *)
Lemma w_opening_step s nH nT cap ts e sh gm pc v :
  match w_pc s with MCreate | MSetTail _ => True | _ => False end ->
  winv s nH nT -> Z.of_nat nH < 2 ^ 64 ->
  m_next q g cap ts (st_sh (w_st s)) (w_gm s) (w_pc s) (w_v s) = Some (e, sh, gm, pc, v) ->
  winv (WState (with_shared sh (w_st s)) gm pc v
         (match w_pc s with MCreate => ts | _ => w_from s end) (w_got s ++ m_received e)) nH nT.
Proof.
  intros Ho Wi HnH. pose proof (wi_at _ _ _ Wi) as [Hg0 Hat].
  unfold m_next. destruct (w_pc s) as [|h| |c t|c t|t n|t d] eqn:Hpc; try done; simpl in Hat.
  - destruct (NABD_LOAD_ACQUIRE _ _ _ _) as [[x v1]|] eqn:E; [|done]. simpl. intros [= <- <- <- <- <-].
    destruct (member_head _ _ _ _ _ _ Wi E) as (-> & Hts & Hh & Hgt & Hok). destruct Hat as [Hgot H0].
    rewrite app_nil_r, with_shared_same. apply m_moves; try done; [lia|by right|].
    rewrite Hgot. split; [done|]. split_and!; [done..|lia].
  - destruct Hat as (Hgot & -> & Hle).
    destruct (m_stores s nH nT (u64 (Z.of_nat (w_from s))) MIdle (w_got s) Wi (u64_idem _)) as (sh1 & gm1 & v1 & -> & Hw).
    simpl. intros [= <- <- <- <- <-]. rewrite app_nil_r. apply Hw. intros Hvh _ Hm.
    split; [|apply (wi_read _ _ _ Wi)]. split; [done|]. rewrite Hvh, Hm, Hgot. simpl. rewrite Nat.add_0_r. done.
Qed.

(** The steps of the member, at every point. *)
Lemma w_member_step s nH nT cap ts e sh gm pc v :
  winv s nH nT -> keeps_up q s -> Z.of_nat nH < 2 ^ 64 ->
  m_next q g cap ts (st_sh (w_st s)) (w_gm s) (w_pc s) (w_v s) = Some (e, sh, gm, pc, v) ->
  winv (WState (with_shared sh (w_st s)) gm pc v
         (match w_pc s with MCreate => ts | _ => w_from s end) (w_got s ++ m_received e)) nH nT.
Proof.
  intros Wi Hk HnH Hm. destruct (match w_pc s with MCreate | MSetTail _ => true | _ => false end) eqn:Ho.
  { eapply w_opening_step; [by destruct (w_pc s)|done..]. }
  revert Hm. pose proof (wi_view _ _ _ Wi) as Hv. pose proof (wi_at _ _ _ Wi) as [Hg0 Hat].
  pose proof (vk_head _ _ _ _ _ Hv) as Hvh0. rewrite (i_hlen _ _ _ _ _ _ _ _ _ _ _ (wi_inv _ _ _ Wi)) in Hvh0.
  unfold m_next. destruct (w_pc s) as [|h| |c t|c t|t n|t d] eqn:Hpc; try done; simpl in Hat.
  - destruct Hat as (Hm & Hle & _).
    destruct (group_load _ _ _) as [[x v1]|] eqn:E; [|done]. simpl. intros [= <- <- <- <- <-].
    destruct (group_load_own _ _ _ _ _ _ Wi E) as [-> ->].
    rewrite app_nil_r, with_shared_same. apply m_moves; try done. by left.
  - destruct Hat as (Hm & Hle & ->).
    destruct (NABD_LOAD_ACQUIRE _ _ _ _) as [[x v1]|] eqn:E; [|done]. simpl.
    destruct (member_head _ _ _ _ _ _ Wi E) as (-> & Hts & Hh & Hgt & Hok).
    rewrite !u64_small by lia.
    case_zb; intros [= <- <- <- <- <-]; rewrite app_nil_r, with_shared_same;
      (apply m_moves; [done|done|done|lia|by left|]); (split; [done|]); rewrite Hh;
      split_and!; rewrite ?u64_small in * by lia; done || lia.
  - destruct Hat as (Hm & Hle & -> & Hlt).
    destruct (next_message s nH nT Wi Hk ltac:(by rewrite Hpc) ltac:(lia)) as (d & Hd & Hh & Hin).
    pose proof (wf_slot _ _ W). unfold SIZEOF_HEADER in *.
    rewrite (get_slot_off q k W), ld_in, (h_len _ _ _ _ _ Hh) by (apply Hin; unfold HDR_LENGTH; lia). simpl.
    case_zb; intros [= <- <- <- <- <-]; rewrite app_nil_r, with_shared_same;
      (eapply (m_reads s nH nT); [done|done|]); intros Hne; (split; [done|]); simpl; split_and!; eauto.
  - destruct Hat as (Hm & Hle & -> & Hlt & d & Hd & ->).
    destruct (next_message s nH nT Wi Hk ltac:(by rewrite Hpc) ltac:(lia)) as (d' & Hd' & Hh & Hin).
    assert (d' = d) as -> by congruence. pose proof (h_fits _ _ _ _ _ Hh). pose proof (zlen_nonneg d).
    rewrite (get_slot_off q k W), load_in, (h_data _ _ _ _ _ Hh) by (apply Hin; unfold SIZEOF_HEADER in *; lia).
    simpl. intros [= <- <- <- <- <-]. rewrite app_nil_r, with_shared_same.
    eapply (m_reads s nH nT); [done|done|]. intros Hne. split; [done|]. by split_and!.
  - destruct Hat as (Hm & Hle & -> & Hlt & Hd & Hne). rewrite add64_u64_l.
    destruct (m_stores s nH nT (u64 (Z.of_nat (w_from s + length (w_got s)) + 1)) MIdle (w_got s ++ [d])
      Wi (u64_idem _)) as (sh1 & gm1 & v1 & -> & Hw).
    simpl. intros [= <- <- <- <- <-]. apply Hw. intros Hvh _ Hm1. rewrite length_app. split.
    + split.
      * rewrite length_app, Nat.add_1_r, (take_S_r _ _ d) by (by rewrite lookup_drop). by f_equal.
      * rewrite Hvh, Hm1, length_app. simpl. split_and!; [f_equal; lia|lia|done].
    + simpl. intros i Hi. destruct (decide (i = w_from s + length (w_got s))%nat) as [->|]; [done|].
      apply (wi_read _ _ _ Wi). lia.
Qed.

(** ** Every reachable state *)

Lemma w_initial_inv m : ring q k 0 0 [] m -> g + SIZEOF_GROUP <= zlen m -> winv (w_initial g m) 0 0.
Proof.
  intros R Hpl. destruct (initial_inv q k W m R) as (nH & nT & I). pose proof (pow_k _ _ W).
  assert (nH = 0%nat) as -> by apply (i_nH _ _ _ _ _ _ _ _ _ _ _ I).
  assert (nT = 0%nat) as -> by (pose proof (i_ct _ _ _ _ _ _ _ _ _ _ _ I); done).
  split; simpl; try done; try apply I; try (intros; lia).
  - intros i _ Hi. lia.
  - split; try done; intros [|i] x w; try done; by intros [= <- <-].
  - by eexists.
Qed.

Lemma w_step_inv s s' nH nT :
  winv s nH nT -> keeps_up q s -> wstep q g s s' -> zlen (st_pushed (w_st s')) < 2 ^ 64 ->
  exists nH' nT', winv s' nH' nT'.
Proof.
  intros Wi Hk [s1 [a ts e sh pc v E|a ts e sh pc v E]|cap ts e sh gm pc v E] Hw.
  - destruct (w_producer_step _ _ _ _ _ _ _ _ _ Wi E) as [nH' Wi']. by exists nH', nT.
  - destruct (w_consumer_step _ _ _ _ _ _ _ _ _ Wi E) as [nT' Wi']. by exists nH, nT'.
  - exists nH, nT. eapply w_member_step; try done. simpl in Hw.
    rewrite (i_nH _ _ _ _ _ _ _ _ _ _ _ (wi_inv _ _ _ Wi)), length_map. unfold zlen in Hw. lia.
Qed.

Lemma w_pushed_grows s s' : wstep q g s s' -> zlen (st_pushed (w_st s)) <= zlen (st_pushed (w_st s')).
Proof.
  destruct 1 as [s1 [a ts e sh pc v E|a ts e sh pc v E]|cap ts e sh gm pc v E]; simpl; [|done..].
  rewrite zlen_app. pose proof (zlen_nonneg (moved e)). lia.
Qed.

Lemma w_reachable_inv m s :
  ring q k 0 0 [] m -> g + SIZEOF_GROUP <= zlen m -> w_reachable q g m s -> zlen (st_pushed (w_st s)) < 2 ^ 64 ->
  keeps_up q s /\ exists nH nT, winv s nH nT.
Proof.
  intros R Hpl. revert s.
  apply (rtc_ind_r (fun s => zlen (st_pushed (w_st s)) < 2 ^ 64 -> keeps_up q s /\ exists nH nT, winv s nH nT)).
  - intros _. split; [done|]. exists 0%nat, 0%nat. by apply w_initial_inv.
  - intros s s' _ [Hs Hk] IH Hw. pose proof (w_pushed_grows _ _ Hs). destruct IH as (Hk0 & nH & nT & Wi); [lia|].
    split; [done|]. by eapply w_step_inv.
Qed.
End GroupWeakInv.
