(* ===== verification/GroupWeakCorrect.v ===== *)
(** * A member of a group under release/acquire memory: the theorems

    What the member receives, where the code races, and the agreement of the thread, run
    alone, with [nabd_consumer_pop]. *)

From S2P Require Import Prelude Words Pow2 Memory Layout Fifo Queue Ring Sample MultiConsumer GroupsCorrect Spsc SpscInv SpscCorrect ObserveInv GroupWeak GroupWeakInv.
From stdpp Require Import relations.
Local Open Scope Z_scope.

(** ** Progress *)

Section Progress.
Context (q : nabd) (k : Z) (W : wf_handle q k) (g : Z).
Context (Hg : SIZEOF_CONTROL + 2 ^ k * q_slot_size q <= g).

(** The member can always take its next step. *)
Lemma m_progress s nH nT cap :
  winv q k g s nH nT -> keeps_up q s ->
  exists ts r, m_next q g cap ts (st_sh (w_st s)) (w_gm s) (w_pc s) (w_v s) = Some r.
Proof.
  intros Wi Hk. pose proof (wi_at _ _ _ _ _ _ Wi) as [_ Hat]. pose proof (wi_view _ _ _ _ _ _ Wi) as Hv.
  pose proof (vk_head _ _ _ _ _ Hv) as Hvh. rewrite (i_hlen _ _ _ _ _ _ _ _ _ _ _ (wi_inv _ _ _ _ _ _ Wi)) in Hvh.
  pose proof (wf_slot _ _ W) as Hss. unfold SIZEOF_HEADER in Hss.
  assert (exists r, NABD_LOAD_ACQUIRE Head (v_head (w_v s)) (st_sh (w_st s)) (w_v s) = Some r) as [[x v] Ea].
  { apply (acquire_some Head). simpl. apply Hv. }
  unfold m_next. destruct (w_pc s) as [|h| |c t|c t|t n|t d] eqn:Hpc; simpl in Hat.
  - exists (v_head (w_v s)). rewrite Ea. simpl. eauto.
  - exists 0%nat. edestruct (m_stores q k W g Hg s nH nT h MIdle []) as (? & ? & ? & -> & _); [done|..|simpl; eauto].
    destruct Hat as (_ & -> & _). apply u64_idem.
  - exists (v_gt (w_v s)). destruct (wi_word _ _ _ _ _ _ Wi) as [w Hw].
    unfold group_load. rewrite Nat.ltb_irrefl, Hw. simpl. eauto.
  - exists (v_head (w_v s)). rewrite Ea. simpl. case_zb; eauto.
  - exists 0%nat. destruct Hat as (_ & _ & -> & Hlt).
    destruct (next_message q k W g s nH nT Wi Hk ltac:(by rewrite Hpc) ltac:(lia)) as (d & _ & _ & Hin).
    rewrite (get_slot_off q k W), ld_in by (apply Hin; unfold HDR_LENGTH; lia). simpl. case_zb; eauto.
  - exists 0%nat. destruct Hat as (_ & _ & -> & Hlt & d & Hd & ->).
    destruct (next_message q k W g s nH nT Wi Hk ltac:(by rewrite Hpc) ltac:(lia)) as (d' & Hd' & Hh & Hin).
    assert (d' = d) as -> by congruence. pose proof (h_fits _ _ _ _ _ Hh). pose proof (zlen_nonneg d).
    rewrite (get_slot_off q k W), load_in by (apply Hin; unfold SIZEOF_HEADER in *; lia). simpl. eauto.
  - exists 0%nat. edestruct (m_stores q k W g Hg s nH nT (add64 t 1) MIdle []) as (? & ? & ? & -> & _);
      [done|apply u64_idem|simpl; eauto].
Qed.

(** The member's reads are ordered after the writes to the slot. *)
Lemma m_no_race s nH nT :
  winv q k g s nH nT -> keeps_up q s -> member_race q (st_sh (w_st s)) (w_pc s) (w_v s) = false.
Proof.
  intros Wi Hk. pose proof (wi_at _ _ _ _ _ _ Wi) as [_ Hat]. pose proof (wi_view _ _ _ _ _ _ Wi) as Hv.
  pose proof (wi_inv _ _ _ _ _ _ Wi) as I. pose proof (vk_head _ _ _ _ _ Hv) as Hvh.
  rewrite (i_hlen _ _ _ _ _ _ _ _ _ _ _ I) in Hvh. pose proof (wf_cap _ _ W). pose proof (pow_k _ _ W).
  pose proof (i_nH _ _ _ _ _ _ _ _ _ _ _ I) as HnH. rewrite length_map in HnH.
  set (T := (w_from s + length (w_got s))%nat) in *.
  assert (forall t, w_pc s <> MCreate -> t = u64 (Z.of_nat T) -> (T < v_head (w_v s))%nat ->
    (v_p (w_v s) <? sh_wclk (st_sh (w_st s)) (cell q t))%nat = false) as Hok.
  { intros t Hc -> Hlt. rewrite (cell_eq q k W). apply Nat.ltb_ge.
    assert (length (st_pushed (w_st s)) + writing (st_pp (w_st s)) <= T + Z.to_nat (q_capacity q))%nat
      by (unfold keeps_up in Hk; by destruct (w_pc s)).
    etrans; [apply (wi_synced _ _ _ _ _ _ Wi); lia|]. etrans; [|apply (vk_hp _ _ _ _ _ Hv)].
    apply (hk_mono _ _ _ _ _ _ _ (i_hh _ _ _ _ _ _ _ _ _ _ _ I)).
    rewrite (i_hlen _ _ _ _ _ _ _ _ _ _ _ I). lia. }
  unfold member_race. destruct (w_pc s); try done; destruct Hat as (_ & _ & -> & Hlt & _) || destruct Hat as (_ & _ & -> & Hlt);
    by apply Hok.
Qed.
End Progress.

(** Which steps return a message, and which the code for an empty group. *)
Lemma m_answers q g cap ts sh gm pc v e sh' gm' pc' v' :
  m_next q g cap ts sh gm pc v = Some (e, sh', gm', pc', v') ->
  (forall d, e = MPopped NABD_OK (Some d) -> exists t, pc = MStore t d) /\
  (e = MPopped NABD_EMPTY None -> exists c t head, pc = MLoadHead c t /\
     NABD_LOAD_ACQUIRE Head ts sh v = Some (head, v') /\ head <= t).
Proof.
  unfold m_next. destruct pc as [|h| |c t|c t|t n|t d].
  - destruct (NABD_LOAD_ACQUIRE _ _ _ _) as [[x v1]|]; [|done]. by intros [= <- <- <- <- <-].
  - destruct (group_store _ _ _ _ _) as [[[sh1 gm1] v1]|]; [|done]. by intros [= <- <- <- <- <-].
  - destruct (group_load _ _ _) as [[x v1]|]; [|done]. by intros [= <- <- <- <- <-].
  - destruct (NABD_LOAD_ACQUIRE _ _ _ _) as [[x v1]|]; [|done]. simpl.
    case_zb; intros [= <- <- <- <- <-]; [|done]. split; [done|]. intros _. by exists c, t, x.
  - destruct (ld _ _ _) as [[n m]|]; [|done]. simpl. case_zb; by intros [= <- <- <- <- <-].
  - destruct (load _ _ _) as [[d m]|]; [|done]. by intros [= <- <- <- <- <-].
  - destruct (group_store _ _ _ _ _) as [[[sh1 gm1] v1]|]; [|done]. intros [= <- <- <- <- <-].
    split; [|done]. intros d' [= <-]. by exists t.
Qed.

(** ** What the invariant says *)

Section Facts.
Context (q : nabd) (k : Z) (W : wf_handle q k) (g : Z).
Context (Hg : SIZEOF_CONTROL + 2 ^ k * q_slot_size q <= g).
Context (s : wstate) (nH nT : nat) (Wi : winv q k g s nH nT) (Hk : keeps_up q s).
Context (Hw : zlen (st_pushed (w_st s)) < 2 ^ 64).

Let sent := map kept (st_pushed (w_st s)).
Let position := (w_from s + length (w_got s))%nat.

Lemma member_facts :
  w_got s = take (length (w_got s)) (drop (w_from s) sent) /\
  member_race q (st_sh (w_st s)) (w_pc s) (w_v s) = false /\
  (forall cap, exists ts r, m_next q g cap ts (st_sh (w_st s)) (w_gm s) (w_pc s) (w_v s) = Some r) /\
  forall cap ts e sh gm pc v,
    m_next q g cap ts (st_sh (w_st s)) (w_gm s) (w_pc s) (w_v s) = Some (e, sh, gm, pc, v) ->
    (forall d, e = MPopped NABD_OK (Some d) -> sent !! position = Some d) /\
    (e = MPopped NABD_EMPTY None -> v_head v = position).
Proof.
  pose proof (wi_at _ _ _ _ _ _ Wi) as [Hgot Hat].
  split; [exact Hgot|]. split; [by eapply m_no_race|]. split; [intros cap; by eapply m_progress|].
  intros cap ts e sh gm pc v E.
  destruct (m_answers _ _ _ _ _ _ _ _ _ _ _ _ _ E) as [Hok Hem]. split; intros.
  - destruct (Hok _ H) as [t Hpc]. rewrite Hpc in Hat. apply Hat.
  - destruct (Hem H) as (c & t & x & Hpc & El & Hx). rewrite Hpc in Hat. destruct Hat as (_ & Hle & ->).
    destruct (member_head q k g _ _ _ _ _ _ Wi El) as (-> & Hts & Hv & _ & _).
    pose proof (i_nH _ _ _ _ _ _ _ _ _ _ _ (wi_inv _ _ _ _ _ _ Wi)) as HnH. rewrite length_map in HnH.
    unfold zlen in Hw. rewrite !u64_small in Hx by lia. unfold position. lia.
Qed.

Lemma overwrite_race_iff :
  w_pc s <> MCreate ->
  match st_pp (w_st s) with PReserved _ | PPayload _ _ | PHeader _ _ => True | _ => False end ->
  overwrite_race q (w_gm s) (st_pp (w_st s)) (st_pv (w_st s)) = true <->
  Z.of_nat (w_from s) + q_capacity q <= zlen (st_pushed (w_st s)).
Proof.
  intros Hc Hpp.
  pose proof (wi_inv _ _ _ _ _ _ Wi) as I. pose proof (i_pp _ _ _ _ _ _ _ _ _ _ _ I) as Hok.
  pose proof (i_nH _ _ _ _ _ _ _ _ _ _ _ I) as HnH. rewrite length_map in HnH. pose proof (pow_k _ _ W).
  pose proof (vk_head _ _ _ _ _ (wi_view _ _ _ _ _ _ Wi)) as Hvh. rewrite (i_hlen _ _ _ _ _ _ _ _ _ _ _ I) in Hvh.
  destruct (ng_p _ _ _ (wi_no_g _ _ _ _ _ _ Wi)) as [_ Hvg]. rewrite (wf_cap _ _ W). unfold zlen.
  assert (length (st_pushed (w_st s)) + 1 <= w_from s + length (w_got s) + Z.to_nat (2 ^ k))%nat as Hk'.
  { rewrite <- (wf_cap _ _ W). unfold keeps_up in Hk. destruct (w_pc s); try done; by destruct (st_pp (w_st s)). }
  assert (overwrite_race q (w_gm s) (st_pp (w_st s)) (st_pv (w_st s))
          = (0 <? gm_rclk (w_gm s) (Z.of_nat nH mod 2 ^ k))%nat) as ->.
  { unfold overwrite_race. rewrite Hvg, <- (cell_eq q k W). destruct (st_pp (w_st s)); try done; by destruct Hok as [-> _]. }
  rewrite Nat.ltb_lt. split.
  - intros Hlt. destruct (wi_only _ _ _ _ _ _ Wi (Z.of_nat nH mod 2 ^ k)) as (i & Hi & He); [lia|].
    destruct (decide (Z.of_nat nH - 2 ^ k < Z.of_nat i)); [|lia]. exfalso.
    symmetry in He. revert He. apply mod_distinct; lia.
  - intros Hle. pose proof (wi_read _ _ _ _ _ _ Wi (nH - Z.to_nat (2 ^ k))%nat ltac:(lia)) as Hne.
    replace (Z.of_nat (nH - Z.to_nat (2 ^ k))) with (Z.of_nat nH + (-1) * 2 ^ k) in Hne by lia.
    rewrite Z_mod_plus_full in Hne. lia.
Qed.
End Facts.

(** ** The theorems *)

(** A group that keeps up, under release/acquire memory.  One member of a group runs
    with the producer and the single consumer, with any interleaving and any stale load.
    As long as the producer does not overwrite the group's next message, the member has
    received exactly the messages from the position where its create started, in order
    and whole; what it reads from a slot was written before in the happens-before order;
    it can always take its next step; and it answers that the group has nothing to read
    only if the head it has just acquired is the group's position. *)
Theorem group_member_weak_fifo q k g m s :
  ring q k 0 0 [] m -> SIZEOF_CONTROL + 2 ^ k * q_slot_size q <= g -> g + SIZEOF_GROUP <= zlen m ->
  w_reachable q g m s -> zlen (st_pushed (w_st s)) < 2 ^ 64 ->
  let sent := map kept (st_pushed (w_st s)) in
  let position := (w_from s + length (w_got s))%nat in
  w_got s = take (length (w_got s)) (drop (w_from s) sent) /\
  member_race q (st_sh (w_st s)) (w_pc s) (w_v s) = false /\
  (forall cap, exists ts r, m_next q g cap ts (st_sh (w_st s)) (w_gm s) (w_pc s) (w_v s) = Some r) /\
  forall cap ts e sh gm pc v,
    m_next q g cap ts (st_sh (w_st s)) (w_gm s) (w_pc s) (w_v s) = Some (e, sh, gm, pc, v) ->
    (forall d, e = MPopped NABD_OK (Some d) -> sent !! position = Some d) /\
    (e = MPopped NABD_EMPTY None -> v_head v = position).
Proof.
  intros R Hg Hpl Hr Hw. pose proof (r_wf _ _ _ _ _ _ R) as W.
  destruct (w_reachable_inv q k W g Hg m s R Hpl Hr Hw) as (Hk & nH & nT & Wi). by eapply member_facts.
Qed.

(** The producer never synchronises with a group.  In a run in which the group keeps
    up, a write of the producer to its slot races with the member's earlier read of that
    slot (the read does not happen before the write) exactly from the first time the
    producer comes round to the slot where the group started: the producer loads only the
    single consumer's position, and nothing it loads was released by the member.  By the
    C11 memory model the behaviour is undefined from there on, although no message was
    overwritten unread. *)
Theorem producer_races_with_group q k g m s :
  ring q k 0 0 [] m -> SIZEOF_CONTROL + 2 ^ k * q_slot_size q <= g -> g + SIZEOF_GROUP <= zlen m ->
  w_reachable q g m s -> zlen (st_pushed (w_st s)) < 2 ^ 64 -> w_pc s <> MCreate ->
  match st_pp (w_st s) with PReserved _ | PPayload _ _ | PHeader _ _ => True | _ => False end ->
  overwrite_race q (w_gm s) (st_pp (w_st s)) (st_pv (w_st s)) = true <->
  Z.of_nat (w_from s) + q_capacity q <= zlen (st_pushed (w_st s)).
Proof.
  intros R Hg Hpl Hr Hw. pose proof (r_wf _ _ _ _ _ _ R) as W.
  destruct (w_reachable_inv q k W g Hg m s R Hpl Hr Hw) as (Hk & nH & nT & Wi). by eapply overwrite_race_iff.
Qed.

(** ** Running alone *)

Section Solo.
Context (q : nabd) (k : Z) (W : wf_handle q k) (g : Z).
Context (Hg : SIZEOF_CONTROL + 2 ^ k * q_slot_size q <= g).
Context (s : wstate) (nH nT : nat) (Wi : winv q k g s nH nT) (Hk : keeps_up q s).

Let sh := st_sh (w_st s).
Let R := i_ring _ _ _ _ _ _ _ _ _ _ _ (wi_inv _ _ _ _ _ _ Wi).

Lemma m_run_S n cap gm pc v sh1 :
  m_run q g (S n) cap sh1 gm pc v
  = match m_next q g cap (m_newest sh1 gm pc) sh1 gm pc v with
    | Some (MPopped r x, sh', gm', pc', _) => Some (r, x, sh', gm', pc')
    | Some (_, sh', gm', pc', v') => m_run q g n cap sh' gm' pc' v'
    | None => None
    end.
Proof. done. Qed.

Lemma solo_group_tail :
  group_load (length (gm_tail (w_gm s)) - 1) (w_gm s) (w_v s) = Some (rd 8 (sh_mem sh) (g + GRP_TAIL), w_v s).
Proof.
  destruct (wi_word _ _ _ _ _ _ Wi) as [w Hw]. rewrite (wi_seen _ _ _ _ _ _ Wi). simpl. rewrite Nat.sub_0_r.
  unfold group_load. rewrite Nat.ltb_irrefl, Hw. simpl. by destruct (w_v s).
Qed.

Lemma solo_group_head :
  exists v, NABD_LOAD_ACQUIRE Head (newest Head sh) sh (w_v s) = Some (u64 (Z.of_nat nH), v).
Proof.
  destruct (newest_head q k _ _ _ _ _ _ _ _ _ (wi_inv _ _ _ _ _ _ Wi)) as [w E]. fold sh in E.
  pose proof (vk_head _ _ _ _ _ (wi_view _ _ _ _ _ _ Wi)) as Hv. fold sh in Hv.
  unfold NABD_LOAD_ACQUIRE. simpl. rewrite E. unfold newest. simpl.
  replace (length (sh_head sh) - 1 <? v_head (w_v s))%nat with false by (symmetry; apply Nat.ltb_ge; lia).
  simpl. eauto.
Qed.

(** A store into the group, from the memory of [s]. *)
Lemma solo_group_store gm v x :
  exists sh' gm' v', group_store g x sh gm v = Some (sh', gm', v') /\
    st 8 (g + GRP_TAIL) x (sh_mem sh) = Some (tt, sh_mem sh').
Proof.
  assert (in_mem (sh_mem sh) (g + GRP_TAIL) 8) as Hin.
  { pose proof (wi_place _ _ _ _ _ _ Wi). pose proof (pow_k _ _ W). pose proof (wf_slot _ _ W).
    unfold in_mem, sh, SIZEOF_GROUP, GRP_TAIL, SIZEOF_CONTROL, SIZEOF_HEADER in *. nia. }
  unfold group_store. rewrite (st_in _ 8 _ _ Hin). simpl. eauto.
Qed.

Lemma solo_member_pop id dst :
  w_pc s = MIdle -> Z.of_nat nH < 2 ^ 64 ->
  exists r x sh' gm' len,
    m_run q g 5 (zlen dst) sh (w_gm s) MIdle (w_v s) = Some (r, x, sh', gm', MIdle) /\
    nabd_consumer_pop (Some (NabdConsumer q g id)) (Some dst) (Some (zlen dst)) (sh_mem sh)
    = Some (err r, Some (match x with Some d => splice dst 0 d | None => dst end), Some len, sh_mem sh').
Proof.
  intros Hpc HnH. pose proof (wi_at _ _ _ _ _ _ Wi) as [_ Hat]. rewrite Hpc in Hat. destruct Hat as (Hm & Hle & _).
  pose proof (wi_place _ _ _ _ _ _ Wi) as Hpl. pose proof (pow_k _ _ W). pose proof (wf_slot _ _ W) as Hss.
  fold sh in Hm, Hpl. unfold nabd_consumer_pop. cbn [cn_queue cn_group].
  rewrite m_run_S. cbn [m_next m_newest]. rewrite solo_group_tail, Hm. cbn [mbind option_bind].
  erewrite bind_ret.
  2: { rewrite ld_in, Hm; [done|]. unfold in_mem, SIZEOF_GROUP, GRP_TAIL, SIZEOF_CONTROL, SIZEOF_HEADER in *. nia. }
  rewrite m_run_S. cbn [m_next m_newest]. destruct solo_group_head as [v ->]. cbn [mbind option_bind].
  rewrite (bind_ret _ _ _ _ _ (ring_ld_head q k _ _ _ _ R)). fold sh.
  set (T := (w_from s + length (w_got s))%nat) in *. rewrite (u64_small (Z.of_nat nH)) by lia.
  case_zb; [by eexists NABD_EMPTY, None, sh, _, _|]. cbv zeta.
  assert (T < nH)%nat as HT.
  { pose proof (vk_head _ _ _ _ _ (wi_view _ _ _ _ _ _ Wi)) as Hv.
    rewrite (i_hlen _ _ _ _ _ _ _ _ _ _ _ (wi_inv _ _ _ _ _ _ Wi)) in Hv. rewrite u64_small in E by lia. lia. }
  destruct (next_message q k W g s nH nT Wi Hk ltac:(by rewrite Hpc) HT) as (d & Hd & Hh & Hin).
  fold sh T in Hd, Hh, Hin. pose proof (h_fits _ _ _ _ _ Hh). pose proof (zlen_nonneg d). unfold SIZEOF_HEADER in *.
  assert (ld 2 (slot_off q k (Z.of_nat T) + HDR_LENGTH) (sh_mem sh) = Some (zlen d, sh_mem sh)) as El
    by (rewrite ld_in, (h_len _ _ _ _ _ Hh) by (apply Hin; unfold HDR_LENGTH; lia); done).
  rewrite m_run_S. cbn [m_next]. rewrite (get_slot_off q k W), El, (bind_ret _ _ _ _ _ El).
  cbn [mbind option_bind member_read].
  case_zb; [by eexists NABD_TOOBIG, None, sh, _, _|].
  rewrite m_run_S. cbn [m_next]. rewrite (get_slot_off q k W).
  rewrite load_in by (apply Hin; unfold SIZEOF_HEADER; lia). rewrite (h_data _ _ _ _ _ Hh). cbn [mbind option_bind member_read].
  assert (memcpy_out dst (slot_off q k (Z.of_nat T) + SIZEOF_HEADER) (zlen d) (sh_mem sh) = Some (splice dst 0 d, sh_mem sh))
    as Ec by (rewrite memcpy_out_in, (h_data _ _ _ _ _ Hh); [done|done|apply Hin; unfold SIZEOF_HEADER; lia]).
  rewrite (bind_ret _ _ _ _ _ Ec), m_run_S. cbn [m_next].
  edestruct solo_group_store as (sh' & gm' & v' & -> & Es). cbn [mbind option_bind].
  rewrite (bind_ret _ _ _ _ _ Es). by eexists NABD_OK, (Some d), sh', _, _.
Qed.
End Solo.

(** The member thread is [nabd_consumer_pop].  In every reachable state of a group
    that keeps up, a pop that runs alone returns the code and the bytes of the function
    and leaves the same memory; and the two steps of the creation are the load of the
    head and the store of the position with which [nabd_consumer_create] ends. *)
Theorem group_member_is_the_function q k g m s id dst cap :
  ring q k 0 0 [] m -> SIZEOF_CONTROL + 2 ^ k * q_slot_size q <= g -> g + SIZEOF_GROUP <= zlen m ->
  w_reachable q g m s -> zlen (st_pushed (w_st s)) < 2 ^ 64 ->
  let sh := st_sh (w_st s) in
  (w_pc s = MIdle -> exists r x sh' gm' len,
    m_run q g 5 (zlen dst) sh (w_gm s) MIdle (w_v s) = Some (r, x, sh', gm', MIdle) /\
    nabd_consumer_pop (Some (NabdConsumer q g id)) (Some dst) (Some (zlen dst)) (sh_mem sh)
    = Some (err r, Some (match x with Some d => splice dst 0 d | None => dst end), Some len, sh_mem sh')) /\
  (w_pc s = MCreate -> exists head v sh' gm' v',
    m_next q g cap (newest Head sh) sh (w_gm s) MCreate (w_v s) = Some (MTau, sh, w_gm s, MSetTail head, v) /\
    m_next q g cap 0 sh (w_gm s) (MSetTail head) v = Some (MOpened, sh', gm', MIdle, v') /\
    (head ← ld 8 OFF_HEAD; st 8 (g + GRP_TAIL) head) (sh_mem sh) = Some (tt, sh_mem sh')).
Proof.
  intros R Hg Hpl Hr Hw sh. pose proof (r_wf _ _ _ _ _ _ R) as W.
  destruct (w_reachable_inv q k W g Hg m s R Hpl Hr Hw) as (Hk & nH & nT & Wi).
  pose proof (i_nH _ _ _ _ _ _ _ _ _ _ _ (wi_inv _ _ _ _ _ _ Wi)) as HnH. rewrite length_map in HnH.
  split; intros Hpc.
  - apply (solo_member_pop q k W g Hg s nH nT Wi Hk); [done|unfold zlen in Hw; lia].
  - destruct (solo_group_head q k g s nH nT Wi) as [v E].
    destruct (solo_group_store q k W g Hg s nH nT Wi (w_gm s) v (u64 (Z.of_nat nH))) as (sh' & gm' & v' & Es & Em).
    exists (u64 (Z.of_nat nH)), v, sh', gm', v'. cbn [m_next]. fold sh in E, Es, Em. rewrite E, Es. split_and!; [done..|].
    pose proof (i_ring _ _ _ _ _ _ _ _ _ _ _ (wi_inv _ _ _ _ _ _ Wi)) as R'.
    by rewrite (bind_ret _ _ _ _ _ (ring_ld_head q k _ _ _ _ R')).
Qed.

(** ** Witnesses *)

Inductive w_act := WProduce (a : p_act) | WConsume (a : c_act) | WMember (cap : Z).

Definition keeps_upb (q : nabd) (s : wstate) : bool :=
  match w_pc s with
  | MCreate => true
  | _ => (length (st_pushed (w_st s)) + writing (st_pp (w_st s))
          <=? w_from s + length (w_got s) + Z.to_nat (q_capacity q))%nat
  end.

(** One step with the newest messages, if the group keeps up after it. *)
Definition w_do (q : nabd) (g : Z) (a : w_act) (s : wstate) : option wstate :=
  let st := w_st s in
  let sh := st_sh st in
  s' ← match a with
       | WProduce a =>
           '(e, sh', pc, v) ← p_next q a (p_newest sh (st_pp st)) sh (st_pp st) (st_pv st);
           Some (WState (State sh' pc v (st_cp st) (st_cv st) (st_pushed st ++ moved e) (st_popped st))
                        (w_gm s) (w_pc s) (w_v s) (w_from s) (w_got s))
       | WConsume a =>
           '(e, sh', pc, v) ← c_next q a (c_newest sh (st_cp st)) sh (st_cp st) (st_cv st);
           Some (WState (State sh' (st_pp st) (st_pv st) pc v (st_pushed st) (st_popped st ++ moved e))
                        (w_gm s) (w_pc s) (w_v s) (w_from s) (w_got s))
       | WMember cap =>
           let ts := m_newest sh (w_gm s) (w_pc s) in
           '(e, sh', gm, pc, v) ← m_next q g cap ts sh (w_gm s) (w_pc s) (w_v s);
           Some (WState (with_shared sh' st) gm pc v
                        (match w_pc s with MCreate => ts | _ => w_from s end) (w_got s ++ m_received e))
       end;
  if keeps_upb q s' then Some s' else None.

Fixpoint w_exec (q : nabd) (g : Z) (l : list w_act) (s : wstate) : wstate :=
  match l with
  | [] => s
  | a :: l => match w_do q g a s with Some s' => w_exec q g l s' | None => s end
  end.

Lemma keeps_upb_spec q s : keeps_upb q s = true -> keeps_up q s.
Proof. unfold keeps_upb, keeps_up. destruct (w_pc s); try done; by rewrite Nat.leb_le. Qed.

Lemma w_do_step q g a s s' : w_do q g a s = Some s' -> wstep_up q g s s'.
Proof.
  unfold w_do. destruct a as [a|a|cap].
  - destruct (p_next _ _ _ _ _ _) as [[[[e sh] pc] v]|] eqn:E; [|done]. simpl. case_match eqn:Hk; [|done].
    intros [= <-]. split; [|by apply keeps_upb_spec]. apply wstep_two. by eapply step_p.
  - destruct (c_next _ _ _ _ _ _) as [[[[e sh] pc] v]|] eqn:E; [|done]. simpl. case_match eqn:Hk; [|done].
    intros [= <-]. split; [|by apply keeps_upb_spec]. apply wstep_two. by eapply step_c.
  - destruct (m_next _ _ _ _ _ _ _ _) as [[[[[e sh] gm] pc] v]|] eqn:E; [|done]. simpl. case_match eqn:Hk; [|done].
    intros [= <-]. split; [|by apply keeps_upb_spec]. by eapply wstep_member.
Qed.

Lemma w_exec_reachable q g m l s : w_reachable q g m s -> w_reachable q g m (w_exec q g l s).
Proof.
  revert s. induction l as [|a l IH]; simpl; intros s Hr; [done|].
  destruct (w_do q g a s) as [s'|] eqn:E; [|done]. apply IH. eapply rtc_r; [exact Hr|]. by eapply w_do_step.
Qed.

Definition sample_group : Z := group_addr 320 0.

(** The member starts at position 0, receives the first message and has read the length of
    the second; the consumer has popped the first. *)
Definition sample_member : wstate :=
  w_exec sample_mq sample_group
    (repeat (WMember 8) 2 ++ repeat (WProduce (CallPush msg_a)) 6 ++ repeat (WMember 8) 5 ++
     repeat (WProduce (CallPush msg_b)) 6 ++ repeat (WConsume (CallPop 8)) 6 ++ repeat (WMember 8) 3)
    (w_initial sample_group (sample_multi 0)).

(** Then the producer has found room in the first slot. *)
Definition sample_reuse : wstate :=
  w_exec sample_mq sample_group (repeat (WProduce (CallPush msg_a)) 3) sample_member.

(** Between two pops. *)
Definition sample_member_idle : wstate := w_exec sample_mq sample_group (repeat (WMember 8) 2) sample_member.

Lemma sample_member_reachable : w_reachable sample_mq sample_group (sample_multi 0) sample_member.
Proof. apply w_exec_reachable. apply rtc_refl. Qed.

Lemma sample_member_place : SIZEOF_CONTROL + 2 ^ 1 * q_slot_size sample_mq <= sample_group.
Proof. vm_compute. discriminate. Qed.

Lemma sample_member_room : sample_group + SIZEOF_GROUP <= zlen (sample_multi 0).
Proof. vm_compute. discriminate. Qed.

Lemma group_member_weak_fifo_witness :
  w_pc sample_member = MCopy 1 2 /\ w_got sample_member = [msg_a] /\
  member_race sample_mq (st_sh (w_st sample_member)) (w_pc sample_member) (w_v sample_member) = false.
Proof.
  split; [vm_compute; reflexivity|]. split; [vm_compute; reflexivity|].
  apply (group_member_weak_fifo sample_mq 1 sample_group (sample_multi 0) sample_member
           (sample_multi_ring 0) sample_member_place sample_member_room sample_member_reachable).
  vm_compute. reflexivity.
Defined.

Lemma producer_races_with_group_witness :
  keeps_up sample_mq sample_reuse /\ w_got sample_reuse = [msg_a] /\
  overwrite_race sample_mq (w_gm sample_reuse) (st_pp (w_st sample_reuse)) (st_pv (w_st sample_reuse)) = true.
Proof.
  split; [by apply keeps_upb_spec; vm_compute|]. split; [vm_compute; reflexivity|].
  apply (producer_races_with_group sample_mq 1 sample_group (sample_multi 0) sample_reuse
           (sample_multi_ring 0) sample_member_place sample_member_room
           (w_exec_reachable _ _ _ _ _ sample_member_reachable)).
  - vm_compute. reflexivity.
  - vm_compute. discriminate.
  - vm_compute. exact Logic.I.
  - vm_compute. discriminate.
Defined.

Lemma group_member_is_the_function_witness :
  exists r x sh' gm' len,
    m_run sample_mq sample_group 5 8 (st_sh (w_st sample_member_idle)) (w_gm sample_member_idle) MIdle
      (w_v sample_member_idle) = Some (r, x, sh', gm', MIdle) /\
    nabd_consumer_pop (Some (NabdConsumer sample_mq sample_group 1)) (Some (replicate 8 Byte.x00)) (Some 8)
      (sh_mem (st_sh (w_st sample_member_idle)))
    = Some (err r, Some (match x with Some d => splice (replicate 8 Byte.x00) 0 d | None => replicate 8 Byte.x00 end),
            Some len, sh_mem sh').
Proof.
  apply (group_member_is_the_function sample_mq 1 sample_group (sample_multi 0) sample_member_idle 1 (replicate 8 Byte.x00) 8
           (sample_multi_ring 0) sample_member_place sample_member_room
           (w_exec_reachable _ _ _ _ _ sample_member_reachable)); vm_compute; reflexivity.
Defined.
