(* ===== verification/ManyGroups.v ===== *)
(** * Several consumer groups under release/acquire memory

    The producer and the single consumer of Spsc.v, and on every group of the block at
    most one member, all running together: the thread of GroupWeak.v once per group.  A
    group whose member never takes a step is a group nobody has claimed.  What one member
    sees of such a run is a run of GroupWeak.v into which the other members' stores are
    mixed, and these touch nothing it reads ([store_elsewhere_group]); so every group gets its own
    copy of the queue. *)

From S2P Require Import Prelude Words Pow2 Memory Layout Fifo Queue Ring Sample MultiConsumer GroupsCorrect Spsc SpscInv SpscCorrect GroupWeak GroupWeakInv GroupWeakCorrect.
From stdpp Require Import relations functions.
Local Open Scope Z_scope.

(** ** The system *)

(** The member of one group, as in [wstate]. *)
Record group_member := Member {
  mb_gm : group_mem;
  mb_pc : mpc; mb_v : view;
  mb_from : nat;
  mb_got : list msg
}.

Record many := Many { y_st : state; y_at : nat -> group_member }.

(** The number of groups of a block. *)
Definition GROUPS : nat := Z.to_nat NABD_MAX_CONSUMERS.

(** What the member of group [i] sees. *)
Definition proj (i : nat) (s : many) : wstate :=
  let b := y_at s i in WState (y_st s) (mb_gm b) (mb_pc b) (mb_v b) (mb_from b) (mb_got b).

Section Machine.
Context (q : nabd) (multi : Z).

Inductive many_step (s : many) : many -> Prop :=
  | many_two s' : step q (y_st s) s' -> many_step s (Many s' (y_at s))
  | many_member i cap ts e sh gm pc v :
      (i < GROUPS)%nat ->
      let b := y_at s i in
      m_next q (group_addr multi i) cap ts (st_sh (y_st s)) (mb_gm b) (mb_pc b) (mb_v b) = Some (e, sh, gm, pc, v) ->
      many_step s (Many (with_shared sh (y_st s))
                        (<[i := Member gm pc v (match mb_pc b with MCreate => ts | _ => mb_from b end)
                                       (mb_got b ++ m_received e)]> (y_at s))).

(** A step after which group [i] still keeps up; the other groups need not. *)
Definition many_step_up (i : nat) (s s' : many) : Prop := many_step s s' /\ keeps_up q (proj i s').

(** An empty queue; the positions of the groups have old values. *)
Definition many_initial (m : mem) : many :=
  Many (initial m) (fun i =>
    Member (GroupMem [(rd 8 m (group_addr multi i + GRP_TAIL), view0)] (fun _ => 0%nat)) MCreate view0 0 []).

(** Runs in which group [i] keeps up. *)
Definition many_reachable (i : nat) (m : mem) (s : many) : Prop := rtc (many_step_up i) (many_initial m) s.

End Machine.

(** ** The other members *)

(** All a member does to the memory the others see is to store its position. *)
Lemma m_next_effect q g cap ts sh gm pc v e sh' gm' pc' v' :
  m_next q g cap ts sh gm pc v = Some (e, sh', gm', pc', v') ->
  exists m, sh' = with_mem m sh /\ frame (g + GRP_TAIL) 8 (sh_mem sh) m.
Proof.
  assert (exists m, sh = with_mem m sh /\ frame (g + GRP_TAIL) 8 (sh_mem sh) m) as Hsame.
  { exists (sh_mem sh). split; [by destruct sh|done]. }
  assert (forall x gm1 sh1 v1, group_store g x sh gm v = Some (sh1, gm1, v1) ->
    exists m, sh1 = with_mem m sh /\ frame (g + GRP_TAIL) 8 (sh_mem sh) m) as Hstore.
  { intros x gm1 sh1 v1. unfold group_store. destruct (st _ _ _ _) as [[[] m]|] eqn:E; [|done]. simpl.
    intros [= <- _ _]. exists m. split; [done|]. apply st_inv in E as [Hin [= ->]]. by apply (frame_wr 8). }
  unfold m_next. destruct pc as [|h| |c t|c t|t n|t d].
  - destruct (NABD_LOAD_ACQUIRE _ _ _ _) as [[x v1]|]; [|done]. by intros [= <- <- <- <- <-].
  - destruct (group_store _ _ _ _ _) as [[[sh1 gm1] v1]|] eqn:E; [|done]. intros [= <- <- <- <- <-]. by eapply Hstore.
  - destruct (group_load _ _ _) as [[x v1]|]; [|done]. by intros [= <- <- <- <- <-].
  - destruct (NABD_LOAD_ACQUIRE _ _ _ _) as [[x v1]|]; [|done]. simpl. case_zb; by intros [= <- <- <- <- <-].
  - destruct (ld _ _ _) as [[n m]|]; [|done]. simpl. case_zb; by intros [= <- <- <- <- <-].
  - destruct (load _ _ _) as [[d m]|]; [|done]. by intros [= <- <- <- <- <-].
  - destruct (group_store _ _ _ _ _) as [[[sh1 gm1] v1]|] eqn:E; [|done]. intros [= <- <- <- <- <-]. by eapply Hstore.
Qed.

Section Many.
Context (q : nabd) (k : Z) (W : wf_handle q k) (multi : Z).
Context (Hmulti : SIZEOF_CONTROL + 2 ^ k * q_slot_size q <= multi).

Lemma group_beyond i : SIZEOF_CONTROL + 2 ^ k * q_slot_size q <= group_addr multi i.
Proof. unfold group_addr, MULTI_GROUPS, SIZEOF_GROUP. lia. Qed.

(** A store into another group leaves the invariant of this one alone. *)
Lemma store_elsewhere_group s nH nT g h m :
  winv q k g s nH nT -> SIZEOF_CONTROL + 2 ^ k * q_slot_size q <= h ->
  0 <= g -> h + SIZEOF_GROUP <= g \/ g + SIZEOF_GROUP <= h ->
  frame (h + GRP_TAIL) 8 (sh_mem (st_sh (w_st s))) m ->
  winv q k g (WState (with_shared (with_mem m (st_sh (w_st s))) (w_st s)) (w_gm s) (w_pc s) (w_v s) (w_from s) (w_got s)) nH nT.
Proof.
  intros [I Hh Hs Hn Hv Hsn Hpl [w Hw] Hat Hrd Hon] Hb Hg Hd Hf.
  assert (rd 8 m (g + GRP_TAIL) = rd 8 (sh_mem (st_sh (w_st s))) (g + GRP_TAIL)) as Hm
    by (apply (frame_rd _ _ _ _ _ _ Hf); unfold GRP_TAIL, SIZEOF_GROUP in *; lia).
  assert (SIZEOF_CONTROL + 2 ^ k * q_slot_size q <= h + GRP_TAIL) by (unfold GRP_TAIL; lia).
  split; cbn [w_st w_gm w_pc w_v w_from w_got with_shared with_mem st_sh st_pp st_pv st_cp st_cv st_pushed
    st_popped sh_head sh_tail sh_mem sh_wclk]; try done.
  - by eapply inv_elsewhere.
  - eapply held_frame; [exact W|exact Hf|by right|done].
  - by destruct Hn.
  - by rewrite (frame_len _ _ _ _ Hf).
  - exists w. by rewrite Hm.
  - rewrite <- (app_nil_r (map kept _)). eapply m_placed_app; [|exact Hm|exact Hat].
    pose proof (vk_head _ _ _ _ _ Hv) as Hvh. rewrite (i_hlen _ _ _ _ _ _ _ _ _ _ _ I) in Hvh.
    rewrite <- (i_nH _ _ _ _ _ _ _ _ _ _ _ I). lia.
Qed.

(** Every step is, for the member of group [i], a step of GroupWeak.v or another's. *)
Lemma proj_step i s s' nH nT :
  (i < GROUPS)%nat -> many_step q multi s s' -> winv q k (group_addr multi i) (proj i s) nH nT ->
  keeps_up q (proj i s) -> zlen (st_pushed (y_st s')) < 2 ^ 64 ->
  exists nH' nT', winv q k (group_addr multi i) (proj i s') nH' nT'.
Proof.
  intros Hi Hs Wi Hk Hw. pose proof (group_beyond i) as Hg.
  destruct Hs as [s' Hs|j cap ts e sh gm pc v Hj b E].
  - eapply (w_step_inv q k W _ Hg (proj i s)); [exact Wi|exact Hk|by apply wstep_two|exact Hw].
  - unfold proj. cbn [y_st y_at]. destruct (decide (j = i)) as [->|Hne].
    + rewrite fn_lookup_insert.
      eapply (w_step_inv q k W _ Hg (proj i s)); [exact Wi|exact Hk|by eapply (wstep_member q _ (proj i s))|exact Hw].
    + rewrite fn_lookup_insert_ne by done. exists nH, nT.
      destruct (m_next_effect _ _ _ _ _ _ _ _ _ _ _ _ _ E) as (m & -> & Hf).
      apply (store_elsewhere_group (proj i s) nH nT _ (group_addr multi j) m Wi (group_beyond j)); [| |exact Hf].
      * pose proof (pow_k _ _ W). pose proof (wf_slot _ _ W). unfold SIZEOF_CONTROL, SIZEOF_HEADER in *. nia.
      * unfold group_addr, SIZEOF_GROUP. lia.
Qed.

Lemma many_pushed_grows s s' : many_step q multi s s' -> zlen (st_pushed (y_st s)) <= zlen (st_pushed (y_st s')).
Proof.
  destruct 1 as [s' [a ts e sh pc v E|a ts e sh pc v E]|]; simpl; [|done..].
  rewrite zlen_app. pose proof (zlen_nonneg (moved e)). lia.
Qed.

Lemma many_reachable_inv m s i :
  ring q k 0 0 [] m -> multi + SIZEOF_MULTI <= zlen m -> (i < GROUPS)%nat ->
  many_reachable q multi i m s -> zlen (st_pushed (y_st s)) < 2 ^ 64 ->
  keeps_up q (proj i s) /\ exists nH nT, winv q k (group_addr multi i) (proj i s) nH nT.
Proof.
  intros R Hpl Hi. revert s.
  apply (rtc_ind_r (fun s => zlen (st_pushed (y_st s)) < 2 ^ 64 ->
    keeps_up q (proj i s) /\ exists nH nT, winv q k (group_addr multi i) (proj i s) nH nT)).
  - intros _. split; [done|]. exists 0%nat, 0%nat.
    apply (w_initial_inv q k W (group_addr multi i) m R).
    unfold group_addr, MULTI_GROUPS, SIZEOF_GROUP, SIZEOF_MULTI, GROUPS, NABD_MAX_CONSUMERS in *. lia.
  - intros s s' _ [Hs Hk] IH Hw. pose proof (many_pushed_grows _ _ Hs).
    destruct IH as (Hk0 & nH & nT & Wi); [lia|]. split; [exact Hk|]. by eapply proj_step.
Qed.
End Many.

(** ** The theorems *)

(** C29: Every group gets its own copy of the queue.  With the producer, the single consumer and
    one member on each of any of the sixteen groups, under release/acquire memory, with any
    interleaving and any stale loads, as long as the next message of group [i] is not
    overwritten and fewer than 2^64 messages have been pushed, and whether or not the
    other groups are overtaken: the member of group [i] has received exactly the messages
    from the position where its create started, in order and whole; it reads only slots
    whose writes happen before; it can always take its next step; and it is told that the
    group has nothing to read only at the head it has just acquired. *)
Theorem groups_weak_fifo q k multi m s i :
  ring q k 0 0 [] m -> SIZEOF_CONTROL + 2 ^ k * q_slot_size q <= multi -> multi + SIZEOF_MULTI <= zlen m ->
  many_reachable q multi i m s -> zlen (st_pushed (y_st s)) < 2 ^ 64 -> (i < GROUPS)%nat ->
  let sent := map kept (st_pushed (y_st s)) in
  let b := y_at s i in
  let position := (mb_from b + length (mb_got b))%nat in
  mb_got b = take (length (mb_got b)) (drop (mb_from b) sent) /\
  member_race q (st_sh (y_st s)) (mb_pc b) (mb_v b) = false /\
  (forall cap, exists ts r,
     m_next q (group_addr multi i) cap ts (st_sh (y_st s)) (mb_gm b) (mb_pc b) (mb_v b) = Some r) /\
  forall cap ts e sh gm pc v,
    m_next q (group_addr multi i) cap ts (st_sh (y_st s)) (mb_gm b) (mb_pc b) (mb_v b) = Some (e, sh, gm, pc, v) ->
    (forall d, e = MPopped NABD_OK (Some d) -> sent !! position = Some d) /\
    (e = MPopped NABD_EMPTY None -> v_head v = position).
Proof.
  intros R Hm Hpl Hr Hw Hi. pose proof (r_wf _ _ _ _ _ _ R) as W.
  destruct (many_reachable_inv q k W multi Hm m s i R Hpl Hi Hr Hw) as (Hk & nH & nT & Wi).
  exact (member_facts q k W _ (group_beyond q k multi Hm i) (proj i s) nH nT Wi Hk Hw).
Qed.

(** C30: The producer synchronises with no group.  In a run in which group [i] keeps up, a write
    of the producer to its slot races with the earlier read of that slot by the member of
    group [i] exactly from the first time the producer comes round to the slot where that
    group started, whatever the other groups do, even when they are overtaken. *)
Theorem producer_races_with_groups q k multi m s i :
  ring q k 0 0 [] m -> SIZEOF_CONTROL + 2 ^ k * q_slot_size q <= multi -> multi + SIZEOF_MULTI <= zlen m ->
  many_reachable q multi i m s -> zlen (st_pushed (y_st s)) < 2 ^ 64 -> (i < GROUPS)%nat ->
  mb_pc (y_at s i) <> MCreate ->
  match st_pp (y_st s) with PReserved _ | PPayload _ _ | PHeader _ _ => True | _ => False end ->
  overwrite_race q (mb_gm (y_at s i)) (st_pp (y_st s)) (st_pv (y_st s)) = true <->
  Z.of_nat (mb_from (y_at s i)) + q_capacity q <= zlen (st_pushed (y_st s)).
Proof.
  intros R Hm Hpl Hr Hw Hi. pose proof (r_wf _ _ _ _ _ _ R) as W.
  destruct (many_reachable_inv q k W multi Hm m s i R Hpl Hi Hr Hw) as (Hk & nH & nT & Wi).
  exact (overwrite_race_iff q k W _ (proj i s) nH nT Wi Hk).
Qed.

(** ** Witnesses *)

Inductive y_act := YProduce (a : p_act) | YConsume (a : c_act) | YMember (i : nat) (cap : Z).

(** One step with the newest messages. *)
Definition y_do (q : nabd) (multi : Z) (a : y_act) (s : many) : option many :=
  let st := y_st s in
  let sh := st_sh st in
  match a with
  | YProduce a =>
      '(e, sh', pc, v) ← p_next q a (p_newest sh (st_pp st)) sh (st_pp st) (st_pv st);
      Some (Many (State sh' pc v (st_cp st) (st_cv st) (st_pushed st ++ moved e) (st_popped st)) (y_at s))
  | YConsume a =>
      '(e, sh', pc, v) ← c_next q a (c_newest sh (st_cp st)) sh (st_cp st) (st_cv st);
      Some (Many (State sh' (st_pp st) (st_pv st) pc v (st_pushed st) (st_popped st ++ moved e)) (y_at s))
  | YMember i cap =>
      if (i <? GROUPS)%nat then
        let b := y_at s i in
        let ts := m_newest sh (mb_gm b) (mb_pc b) in
        '(e, sh', gm, pc, v) ← m_next q (group_addr multi i) cap ts sh (mb_gm b) (mb_pc b) (mb_v b);
        Some (Many (with_shared sh' st)
                (<[i := Member gm pc v (match mb_pc b with MCreate => ts | _ => mb_from b end)
                               (mb_got b ++ m_received e)]> (y_at s)))
      else None
  end.

(** Steps as long as group [i] keeps up. *)
Fixpoint y_exec (q : nabd) (multi : Z) (i : nat) (l : list y_act) (s : many) : many :=
  match l with
  | [] => s
  | a :: l => match y_do q multi a s with
              | Some s' => if keeps_upb q (proj i s') then y_exec q multi i l s' else s
              | None => s
              end
  end.

Lemma y_do_step q multi a s s' : y_do q multi a s = Some s' -> many_step q multi s s'.
Proof.
  unfold y_do. destruct a as [a|a|i cap].
  - destruct (p_next _ _ _ _ _ _) as [[[[e sh] pc] v]|] eqn:E; [|done].
    intros [= <-]. apply many_two. by eapply step_p.
  - destruct (c_next _ _ _ _ _ _) as [[[[e sh] pc] v]|] eqn:E; [|done].
    intros [= <-]. apply many_two. by eapply step_c.
  - case_match eqn:Hi; [|done]. apply Nat.ltb_lt in Hi.
    destruct (m_next _ _ _ _ _ _ _ _) as [[[[[e sh] gm] pc] v]|] eqn:E; [|done].
    intros [= <-]. by eapply many_member.
Qed.

Lemma y_exec_reachable q multi i m l s :
  many_reachable q multi i m s -> many_reachable q multi i m (y_exec q multi i l s).
Proof.
  revert s. induction l as [|a l IH]; simpl; intros s Hr; [done|].
  destruct (y_do q multi a s) as [s'|] eqn:E; [|done]. case_match eqn:Hk; [|done]. apply IH.
  eapply rtc_r; [exact Hr|]. split; [by eapply y_do_step|by apply keeps_upb_spec].
Qed.

(** Groups 0 and 5 are created before the first message, and group 0 reads it; group 3 is
    created after it and reads the second, while group 0 is in its second pop.  Group 5
    never reads, and the third message overtakes it. *)
Definition sample_groups_acts : list y_act :=
  repeat (YMember 0 8) 2 ++ repeat (YMember 5 8) 2 ++ repeat (YProduce (CallPush msg_a)) 6 ++
  repeat (YMember 0 8) 5 ++ repeat (YMember 3 8) 2 ++ repeat (YProduce (CallPush msg_b)) 6 ++
  repeat (YMember 3 8) 5 ++ repeat (YConsume (CallPop 8)) 6 ++ repeat (YMember 0 8) 3 ++
  repeat (YProduce (CallPush msg_a)) 6.

Definition sample_many_groups (i : nat) : many :=
  y_exec sample_mq 320 i sample_groups_acts (many_initial 320 (sample_multi 0)).

(** The producer is about to write the payload of the third message. *)
Definition sample_groups_reuse : many :=
  y_exec sample_mq 320 0 (take 40 sample_groups_acts) (many_initial 320 (sample_multi 0)).

Lemma sample_many_groups_reachable i :
  many_reachable sample_mq 320 i (sample_multi 0) (sample_many_groups i).
Proof. apply y_exec_reachable. apply rtc_refl. Qed.

Lemma groups_weak_fifo_witness :
  let s := sample_many_groups 0 in
  mb_got (y_at s 0) = [msg_a] /\ mb_got (y_at s 3) = [msg_b] /\
  keeps_upb sample_mq (proj 5 s) = false /\ mb_pc (y_at s 0) = MCopy 1 2 /\
  member_race sample_mq (st_sh (y_st s)) (MCopy 1 2) (mb_v (y_at s 0)) = false.
Proof.
  intros s. split; [vm_compute; reflexivity|]. split; [vm_compute; reflexivity|].
  split; [vm_compute; reflexivity|]. split; [vm_compute; reflexivity|].
  apply (groups_weak_fifo sample_mq 1 320 (sample_multi 0) s 0 (sample_multi_ring 0)).
  - vm_compute. discriminate.
  - vm_compute. discriminate.
  - exact (sample_many_groups_reachable 0).
  - vm_compute. reflexivity.
  - apply Nat.ltb_lt. vm_compute. reflexivity.
Defined.

Lemma producer_races_with_groups_witness :
  overwrite_race sample_mq (mb_gm (y_at sample_groups_reuse 0)) (st_pp (y_st sample_groups_reuse))
    (st_pv (y_st sample_groups_reuse)) = true /\
  mb_got (y_at sample_groups_reuse 0) = [msg_a].
Proof.
  split; [|vm_compute; reflexivity].
  apply (producer_races_with_groups sample_mq 1 320 (sample_multi 0) sample_groups_reuse 0 (sample_multi_ring 0)).
  - vm_compute. discriminate.
  - vm_compute. discriminate.
  - exact (y_exec_reachable _ _ 0 _ _ _ (rtc_refl _ _)).
  - vm_compute. reflexivity.
  - apply Nat.ltb_lt. vm_compute. reflexivity.
  - vm_compute. discriminate.
  - vm_compute. exact Logic.I.
  - vm_compute. discriminate.
Defined.
