(* ===== verification/Api.v ===== *)
(** * The return values of the API (include/nabd/nabd.h)

    One call of any producer, consumer or status function of nabd.h (lines 76-190) on an
    open queue, and what a caller can rely on whatever the segment contains: which codes
    it returns, and that everything it returns is a value of its C type.  The calls of the
    consumer groups are in GroupApi.v. *)

From S2P Require Import Prelude Words Pow2 Memory Layout Fifo Queue Ring Sample Posix.
Local Open Scope Z_scope.

(** ** Calls and results *)

Inductive api :=
  | Push (q : option nabd) (data : option (list byte)) (len : Z)
  | Reserve (q : option nabd) (len : Z) (slot : option Z)
  | Commit (q : option nabd) (len : Z)
  | Pop (q : option nabd) (buf : option (list byte)) (len : option Z)
  | Peek (q : option nabd) (data len : option Z)
  | Release (q : option nabd)
  | Stats (q : option nabd) (stats : option nabd_stats_t)
  | Empty (q : option nabd)
  | Full (q : option nabd).

(** What a call gives back: its code and the objects its pointer arguments point to. *)
Inductive output :=
  | Nothing
  | Handle (q : option nabd)
  | HandleSlot (q : option nabd) (slot : option Z)
  | Bytes (buf : option (list byte)) (len : option Z)
  | View (data len : option Z)
  | QueueStats (s : option nabd_stats_t).

Definition with_output {A} (f : A -> Z * output) (c : C A) : C (Z * output) := x ← c; mret (f x).

Definition run (a : api) : C (Z * output) :=
  match a with
  | Push q d len => with_output (fun r => (r, Nothing)) (nabd_push q d len)
  | Reserve q len s => with_output (fun '(r, q, s) => (r, HandleSlot q s)) (nabd_reserve q len s)
  | Commit q len => with_output (fun '(r, q) => (r, Handle q)) (nabd_commit q len)
  | Pop q b len => with_output (fun '(r, b, len) => (r, Bytes b len)) (nabd_pop q b len)
  | Peek q d len => with_output (fun '(r, d, len) => (r, View d len)) (nabd_peek q d len)
  | Release q => with_output (fun r => (r, Nothing)) (nabd_release q)
  | Stats q s => with_output (fun '(r, s) => (r, QueueStats s)) (nabd_stats q s)
  | Empty q => with_output (fun r => (r, Nothing)) (nabd_empty q)
  | Full q => with_output (fun r => (r, Nothing)) (nabd_full q)
  end.

(** The values the [@return] paragraphs of nabd.h name; a negative one "on error" is
    [NABD_INVALID]. *)
Definition documented (a : api) : list Z :=
  match a with
  | Push _ _ _ => [NABD_OK : Z; NABD_FULL : Z; NABD_TOOBIG : Z]                       (* 83-85 *)
  | Reserve _ _ _ => [NABD_OK : Z; NABD_FULL : Z; NABD_TOOBIG : Z]                    (* 98-100 *)
  | Commit _ _ => [NABD_OK : Z]                                                       (* 112 *)
  | Pop _ _ _ => [NABD_OK : Z; NABD_EMPTY : Z; NABD_TOOBIG : Z]                       (* 129-131 *)
  | Peek _ _ _ => [NABD_OK : Z; NABD_EMPTY : Z]                                       (* 142-143 *)
  | Release _ => [NABD_OK : Z]                                                        (* 154 *)
  | Stats _ _ => [NABD_OK : Z]                                                        (* 170 *)
  | Empty _ | Full _ => [1; 0]                                                        (* 179, 188 *)
  end.

(** A null pointer among the arguments the function tests; for [Reserve] also a pending
    reservation, for [Commit] the lack of one. *)
Definition misused (a : api) : bool :=
  match a with
  | Push (Some _) (Some _) _ => false
  | Reserve (Some h) _ (Some _) => negb (q_reserved h =? 0)
  | Commit (Some h) _ => q_reserved h =? 0
  | Pop (Some _) (Some _) (Some _) | Peek (Some _) (Some _) (Some _) => false
  | Release (Some _) | Empty (Some _) | Full (Some _) => false
  | Stats (Some _) (Some _) => false
  | _ => true
  end.

(** ** Types *)

Definition word (w : Z) (z : Z) : Prop := 0 <= z < 2 ^ w.

Record handle_ok (h : nabd) : Prop := {
  ho_capacity : word 64 (q_capacity h);
  ho_slot_size : word 64 (q_slot_size h);
  ho_mask : word 64 (q_mask h);
  ho_reserved : q_reserved h = 0 \/ q_reserved h = 1;
  ho_reserve_pos : word 64 (q_reserve_pos h)
}.

Definition stats_ok (s : nabd_stats_t) : Prop :=
  word 64 (s_head s) /\ word 64 (s_tail s) /\ word 64 (s_capacity s) /\ word 64 (s_used s) /\
  word 64 (s_slot_size s).

Definition opt {A} (R : A -> Prop) (x : option A) : Prop := match x with Some x => R x | None => True end.

Definition args_ok (a : api) : Prop :=
  match a with
  | Push q _ len | Commit q len | Reserve q len _ => opt handle_ok q /\ word 64 len
  | Pop q _ len | Peek q _ len => opt handle_ok q /\ opt (word 64) len
  | Release q | Empty q | Full q => opt handle_ok q
  | Stats q s => opt handle_ok q /\ opt stats_ok s
  end.

Definition output_ok (a : api) (o : output) : Prop :=
  match o with
  | Nothing => True
  | Handle q | HandleSlot q _ => opt handle_ok q
  | Bytes b len =>
      opt (word 64) len /\
      match a with
      | Pop _ b0 _ => zlen <$> b = zlen <$> b0
      | _ => False
      end
  | View _ len => opt (word 64) len
  | QueueStats s => opt stats_ok s
  end.

(** ** Rules *)

Lemma wlp_ld w off m (Q : Z -> mem -> Prop) :
  (forall v, word (8 * Z.of_nat w) v -> Q v m) -> wlp (ld w off) m Q.
Proof.
  intros HQ v m' (bs & m1 & Hl & Hr)%bind_inv. unfold load in Hl. case_match eqn:E; [|done].
  zbool. injection Hl as <- <-. injection Hr as <- <-. apply HQ. by apply rd_range.
Qed.

Lemma wlp_st w off v m (Q : unit -> mem -> Prop) : (forall m', Q tt m') -> wlp (st w off v) m Q.
Proof. intros HQ [] m' _. apply HQ. Qed.

Lemma wlp_memcpy_in off src n m (Q : unit -> mem -> Prop) :
  (forall m', Q tt m') -> wlp (memcpy_in off src n) m Q.
Proof. intros HQ [] m' _. apply HQ. Qed.

Lemma wlp_fill_header hdr len pos m (Q : unit -> mem -> Prop) :
  (forall m', Q tt m') -> wlp (fill_header hdr len pos) m Q.
Proof. intros HQ [] m' _. apply HQ. Qed.

(** A copy to the caller keeps the size of the caller's object. *)
Lemma wlp_memcpy_out dst off n m (Q : list byte -> mem -> Prop) :
  (forall dst', zlen dst' = zlen dst -> Q dst' m) -> wlp (memcpy_out dst off n) m Q.
Proof.
  intros HQ dst' m'. unfold memcpy_out. case_match eqn:E1; [|done].
  intros (bs & m1 & Hl & Hr)%bind_inv. unfold load in Hl. case_match eqn:E2; [|done].
  zbool. injection Hl as <- <-. injection Hr as <- <-. apply HQ.
  apply zlen_splice; [done|]. rewrite zlen_slice by lia. lia.
Qed.

Lemma wlp_with_output {A} (f : A -> Z * output) c m (Q : Z * output -> mem -> Prop) :
  wlp c m (fun x m' => Q (f x) m') -> wlp (with_output f c) m Q.
Proof. intros Hc. unfold with_output. apply wlp_bind. eapply wlp_mono; [exact Hc|]. intros. by apply wlp_ret. Qed.

Lemma word_u64 z : word 64 (u64 z).
Proof. apply u64_range. Qed.

Lemma word_le w w' z : w <= w' -> 0 <= w -> word w z -> word w' z.
Proof. unfold word. intros. assert (2 ^ w <= 2 ^ w') by (apply Z.pow_le_mono_r; lia). lia. Qed.

Lemma wlp_undef {A} m (Q : A -> mem -> Prop) : wlp undef m Q.
Proof. by intros ? ? [=]. Qed.

(** Run a call to its end, one access and one branch at a time. *)
Ltac run_call :=
  repeat first
    [ apply wlp_ld; intros ? ?
    | apply wlp_st; intros ?
    | apply wlp_memcpy_in; intros ?
    | apply wlp_memcpy_out; intros ? ?
    | apply wlp_fill_header; intros ?
    | match goal with |- wlp (match ?x with _ => _ end) _ _ => destruct x eqn:? end
    | match goal with |- wlp (let _ := _ in _) _ _ => cbv zeta end
    | apply wlp_ret
    | apply wlp_bind ].

(** ** Results *)

Lemma set_reserved_ok h r pos : handle_ok h -> r = 0 \/ r = 1 -> word 64 pos -> handle_ok (set_reserved h r pos).
Proof. intros [] ? ?. by split. Qed.

Lemma word_length v : word (8 * Z.of_nat 2) v -> word 64 v.
Proof. apply word_le; lia. Qed.

Lemma stats_result_ok h v v0 : handle_ok h -> word 64 v -> word 64 v0 ->
  stats_ok (NabdStats v v0 (q_capacity h) (sub64 v v0) (q_slot_size h)).
Proof. intros [] ? ?. repeat split; try apply word_u64; try assumption; simpl; (apply ho_capacity0 || apply ho_slot_size0 || apply H || apply H0). Qed.

#[export] Hint Resolve ho_reserve_pos set_reserved_ok word_length word_u64 stats_result_ok : nabd.

(** What is left when a call has returned: its code, then its output. *)
Ltac finish_call :=
  simpl in *; repeat match goal with H : ?b = _ |- context [if ?b then _ else _] => rewrite H end;
  repeat match goal with H : _ /\ _ |- _ => destruct H end;
  (split; [repeat case_match; first [done | repeat constructor]|]); split_and?; auto with nabd; congruence.

(** C19: the results of the API, for any contents of the segment.  With arguments of the
    right C types, a call that is defined returns [NABD_INVALID] when it is misused (a
    null pointer it tests, a second reservation, a commit without one), and otherwise
    one of the codes its documentation in nabd.h names; what it stores through its
    pointer arguments is again of the right types: lengths and statistics are words,
    a buffer keeps its size, the handle stays well-formed. *)
Theorem api_results_well_typed a m :
  args_ok a ->
  wlp (run a) m (fun r _ =>
    (if misused a then fst r = NABD_INVALID else fst r ∈ documented a) /\ output_ok a (snd r)).
Proof.
  intros Ha. destruct a; cbn [run]; apply wlp_with_output;
    unfold nabd_push, nabd_reserve, nabd_commit, nabd_pop, nabd_peek, nabd_release, nabd_stats,
      nabd_empty, nabd_full; run_call; subst.
  all: finish_call.
Qed.

(** ** Witness *)

Lemma api_results_well_typed_witness :
  run (Pop (Some sample_q) (Some (replicate 8 Byte.x00)) (Some 8)) sample_two
  = Some ((NABD_OK : Z, Bytes (Some (splice (replicate 8 Byte.x00) 0 msg_a)) (Some 1)),
          after (run (Pop (Some sample_q) (Some (replicate 8 Byte.x00)) (Some 8))) sample_two) /\
  (NABD_OK : Z) ∈ documented (Pop (Some sample_q) (Some (replicate 8 Byte.x00)) (Some 8)).
Proof.
  assert (run (Pop (Some sample_q) (Some (replicate 8 Byte.x00)) (Some 8)) sample_two
    = Some ((NABD_OK : Z, Bytes (Some (splice (replicate 8 Byte.x00) 0 msg_a)) (Some 1)),
          after (run (Pop (Some sample_q) (Some (replicate 8 Byte.x00)) (Some 8))) sample_two)) as Hr
    by (vm_compute; reflexivity).
  split; [exact Hr|].
  refine (proj1 (api_results_well_typed (Pop (Some sample_q) (Some (replicate 8 Byte.x00)) (Some 8))
                   sample_two _ _ _ Hr)).
  split; [|simpl; unfold word; lia]. split; unfold word; simpl; first [lia | by left].
Defined.
