(* ===== verification/GroupApi.v ===== *)
(** * The consumer group calls of nabd.h (lines 208-292)

    One call of any group function, with what a caller can rely on whatever the segment
    contains, and what no sequence of such calls does: make room for the producer.  The
    outcomes the code does not control, spurious failures of the compare-and-swap and
    failed allocations, are part of the call. *)

From S2P Require Import Prelude Words Pow2 Memory Layout Fifo Queue Ring Sample Posix MultiConsumer GroupsCorrect Api.
Local Open Scope Z_scope.

(** ** Calls and results *)

Inductive group_api :=
  | ConsumerCreate (spurious : nat -> bool) (alloc : bool) (q : option nabd) (group_id : Z)
  | ConsumerJoin (alloc : bool) (q : option nabd) (group_id : Z)
  | ConsumerClose (c : option nabd_consumer)
  | ConsumerPop (c : option nabd_consumer) (buf : option (list byte)) (len : option Z)
  | ConsumerPeek (c : option nabd_consumer) (data len : option Z)
  | ConsumerRelease (c : option nabd_consumer)
  | ConsumerStats (c : option nabd_consumer) (stats : option nabd_consumer_stats_t)
  | MinTail (q : option nabd).

Inductive group_result :=
  | Opened (c : option nabd_consumer) (errno : option Z)    (* a handle, or NULL *)
  | Done (code : Z)
  | Received (code : Z) (buf : option (list byte)) (len : option Z)
  | Seen (code : Z) (data len : option Z)
  | GroupStats (code : Z) (s : option nabd_consumer_stats_t)
  | Position (tail : Z).

Definition returning {A} (f : A -> group_result) (c : C A) : C group_result := x ← c; mret (f x).

Definition run_group (a : group_api) : C group_result :=
  match a with
  | ConsumerCreate sp alloc q id => returning (fun '(c, e) => Opened c e) (nabd_consumer_create sp alloc q id)
  | ConsumerJoin alloc q id => returning (fun '(c, e) => Opened c e) (nabd_consumer_join alloc q id)
  | ConsumerClose c => returning Done (nabd_consumer_close c)
  | ConsumerPop c b len => returning (fun '(r, b, len) => Received r b len) (nabd_consumer_pop c b len)
  | ConsumerPeek c d len => returning (fun '(r, d, len) => Seen r d len) (nabd_consumer_peek c d len)
  | ConsumerRelease c => returning Done (nabd_consumer_release c)
  | ConsumerStats c s => returning (fun '(r, s) => GroupStats r s) (nabd_consumer_stats c s)
  | MinTail q => returning Position (nabd_min_tail q)
  end.

(** The calls of a program, one after the other. *)
Fixpoint run_groups (l : list group_api) : C (list group_result) :=
  match l with
  | [] => mret []
  | a :: l => r ← run_group a; rs ← run_groups l; mret (r :: rs)
  end.

(** The codes of the [@return] paragraphs of nabd.h. *)
Definition group_documented (a : group_api) : list Z :=
  match a with
  | ConsumerPop _ _ _ => [NABD_OK : Z; NABD_EMPTY : Z; NABD_TOOBIG : Z]     (* 248-250 *)
  | ConsumerPeek _ _ _ => [NABD_OK : Z; NABD_EMPTY : Z]                     (* 261-262 *)
  | ConsumerClose _ | ConsumerRelease _ | ConsumerStats _ _ => [NABD_OK : Z] (* 237, 271, 281 *)
  | ConsumerCreate _ _ _ _ | ConsumerJoin _ _ _ | MinTail _ => []
  end.

(** A null pointer among the arguments. *)
Definition group_misused (a : group_api) : bool :=
  match a with
  | ConsumerCreate _ _ (Some _) _ | ConsumerJoin _ (Some _) _ | MinTail (Some _) => false
  | ConsumerClose (Some _) | ConsumerRelease (Some _) => false
  | ConsumerPop (Some _) (Some _) (Some _) | ConsumerPeek (Some _) (Some _) (Some _) => false
  | ConsumerStats (Some _) (Some _) => false
  | _ => true
  end.

(** ** Types *)

Definition consumer_ok (c : nabd_consumer) : Prop := handle_ok (cn_queue c) /\ word 32 (cn_group_id c).

Definition group_stats_ok (s : nabd_consumer_stats_t) : Prop :=
  word 32 (cs_group_id s) /\ word 32 (cs_active s) /\ word 64 (cs_tail s) /\ word 64 (cs_lag s).

Definition group_args_ok (a : group_api) : Prop :=
  match a with
  | ConsumerCreate _ _ q id | ConsumerJoin _ q id => opt handle_ok q /\ word 32 id
  | ConsumerClose c | ConsumerRelease c => opt consumer_ok c
  | ConsumerPop c _ len | ConsumerPeek c _ len => opt consumer_ok c /\ opt (word 64) len
  | ConsumerStats c s => opt consumer_ok c /\ opt group_stats_ok s
  | MinTail q => opt handle_ok q
  end.

(** A call returns [NABD_INVALID] when misused and otherwise a documented code. *)
Definition coded (a : group_api) (code : Z) : Prop :=
  if group_misused a then code = NABD_INVALID else code ∈ group_documented a.

(** What a call returns: NULL when it is misused; a handle on the queue it was given, with
    the identifier it was given or, for a create with identifier 0, the number of the
    group plus one; the values of [errno] that go with NULL. *)
Definition group_result_ok (a : group_api) (r : group_result) : Prop :=
  match a, r with
  | ConsumerCreate _ _ q id, Opened c e | ConsumerJoin _ q id, Opened c e =>
      match c with
      | None => e = None \/ (q <> None /\ e ∈ [Some EINVAL; Some ENOMEM; Some ENOENT])
      | Some c => e = None /\ Some (cn_queue c) = q /\ consumer_ok c /\
                  (cn_group_id c = id \/ (id = 0 /\ 1 <= cn_group_id c <= NABD_MAX_CONSUMERS))
      end
  | (ConsumerClose _ | ConsumerRelease _), Done code => coded a code
  | ConsumerPop _ b _, Received code b' len => coded a code /\ zlen <$> b' = zlen <$> b /\ opt (word 64) len
  | ConsumerPeek _ _ _, Seen code _ len => coded a code /\ opt (word 64) len
  | ConsumerStats _ _, GroupStats code s => coded a code /\ opt group_stats_ok s
  | MinTail _, Position t => word 64 t
  | _, _ => False
  end.

(** ** The results *)

Lemma wlp_returning {A} (f : A -> group_result) c m (Q : group_result -> mem -> Prop) :
  wlp c m (fun x m' => Q (f x) m') -> wlp (returning f c) m Q.
Proof. intros Hc. unfold returning. apply wlp_bind. eapply wlp_mono; [exact Hc|]. intros. by apply wlp_ret. Qed.

Lemma group_stats_result_ok c act t v : consumer_ok c -> word 32 act -> word 64 t -> word 64 v ->
  group_stats_ok (NabdConsumerStats (cn_group_id c) act t (if t <? v then sub64 v t else 0)).
Proof. intros [_ Hid] Ha Ht Hv. split_and!; simpl; try done. case_zb; [apply word_u64|done]. Qed.

(** The scan of a create claims a group with the identifier asked for, or with its number. *)
Lemma wlp_claim_loop spurious id multi n i m :
  word 32 id -> (i + n <= 16)%nat ->
  wlp (claim_loop spurious id multi n i) m (fun r _ => forall g x, r = Some (g, x) ->
    x = id /\ id <> 0 \/ id = 0 /\ 1 <= x <= NABD_MAX_CONSUMERS).
Proof.
  intros Hid. revert i m. induction n as [|n IH]; intros i m Hi; cbn [claim_loop]; [by apply wlp_ret|].
  run_call; [|apply IH; lia]. unfold assigned_id, u32, NABD_MAX_CONSUMERS.
  destruct (Z.eqb_spec id 0); [right|by left]. split; [done|]. cbn [negb]. rewrite Z.mod_small by lia. lia.
Qed.

Lemma wlp_join_loop id multi n i m : wlp (join_loop id multi n i) m (fun _ _ => True).
Proof. revert i m. induction n as [|n IH]; intros i m; cbn [join_loop]; run_call; auto. Qed.

Lemma wlp_min_tail_loop multi n i t m : word 64 t -> wlp (min_tail_loop multi n i t) m (fun x _ => word 64 x).
Proof.
  revert i t m. induction n as [|n IH]; intros i t m Ht; cbn [min_tail_loop]; run_call; auto;
    apply IH; by try case_zb.
Qed.

Lemma wlp_create spurious alloc q id m :
  opt handle_ok q -> word 32 id ->
  wlp (nabd_consumer_create spurious alloc q id) m (fun '(c, e) _ =>
    group_result_ok (ConsumerCreate spurious alloc q id) (Opened c e)).
Proof.
  intros Hq Hid. unfold nabd_consumer_create. destruct q as [h|]; [|apply wlp_ret; by left].
  destruct (q_multi h) as [multi|]; [|apply wlp_ret; right; split; [done|by left]].
  apply wlp_bind. eapply wlp_mono; [by apply wlp_claim_loop|]. intros r m' Hr.
  destruct r as [[g x]|]; [|apply wlp_ret; right; split; [done|by right; left]].
  specialize (Hr g x eq_refl). run_call; simpl; [|by left].
  unfold consumer_ok, NABD_MAX_CONSUMERS, word in *. cbn [cn_queue cn_group_id].
  split_and!; try done; [lia|lia|]. destruct Hr as [[? ?]|?]; [by left|by right].
Qed.

Lemma wlp_join alloc q id m :
  opt handle_ok q -> word 32 id ->
  wlp (nabd_consumer_join alloc q id) m (fun '(c, e) _ =>
    group_result_ok (ConsumerJoin alloc q id) (Opened c e)).
Proof.
  intros Hq Hid. unfold nabd_consumer_join. destruct q as [h|]; [|apply wlp_ret; by left].
  destruct (id =? 0); [apply wlp_ret; by left|].
  destruct (q_multi h) as [multi|]; [|apply wlp_ret; right; split; [done|by left]].
  apply wlp_bind. eapply wlp_mono; [by apply wlp_join_loop|]. intros [g|] m' _; run_call; simpl.
  - split_and!; try done. by left.
  - by left.
  - right. split; [done|]. by right; right; left.
Qed.

#[local] Hint Resolve group_stats_result_ok : nabd.

(** What is left when a call has returned. *)
Ltac finish_group :=
  subst; unfold coded; simpl in *;
  repeat match goal with H : _ /\ _ |- _ => destruct H end;
  split_and?; first [done | by repeat constructor | by auto with nabd | congruence].

(** The results of the group calls, for any contents of the segment.  With arguments
    of the right C types, a pop, peek, release, close or stats that is defined returns
    [NABD_INVALID] exactly when it is misused and otherwise a code its documentation
    names, and what it stores has the right types; create and join return NULL when they
    are misused or fail, with the values of [errno] the code sets, and otherwise a handle
    on the same queue whose identifier is the one asked for, or between 1 and 16 for the
    identifier 0; and the minimum position is a word. *)
Theorem group_results_well_typed a m :
  group_args_ok a -> wlp (run_group a) m (fun r _ => group_result_ok a r).
Proof.
  intros Ha. destruct a as [sp alloc q id|alloc q id|c|c b len|c d len|c|c st|q]; cbn [run_group]; apply wlp_returning.
  - destruct Ha. eapply wlp_mono; [by apply wlp_create|]. by intros [c e].
  - destruct Ha. eapply wlp_mono; [by apply wlp_join|]. by intros [c e].
  - unfold nabd_consumer_close; run_call; finish_group.
  - unfold nabd_consumer_pop; run_call; finish_group.
  - unfold nabd_consumer_peek; run_call; finish_group.
  - unfold nabd_consumer_release; run_call; finish_group.
  - unfold nabd_consumer_stats; run_call; finish_group.
  - unfold nabd_min_tail. destruct q as [h|]; [|apply wlp_undef].
    destruct (q_multi h) as [multi|]; [|apply wlp_ld; auto].
    apply wlp_bind. eapply wlp_mono; [by apply wlp_min_tail_loop|]. intros t m' Ht. run_call; done.
Qed.

(** ** What the calls change *)

(** A computation that changes only the block of the groups at [M]. *)
Definition inside (M : Z) {A} (c : C A) : Prop :=
  forall m a m', c m = Some (a, m') -> frame M SIZEOF_MULTI m m'.

Section Inside.
Context (M : Z).

Lemma inside_ret {A} (a : A) : inside M (mret a).
Proof. intros m x m' [= _ <-]. apply frame_refl. Qed.

Lemma inside_bind {A B} (c : C A) (f : A -> C B) : inside M c -> (forall a, inside M (f a)) -> inside M (c ≫= f).
Proof. intros Hc Hf m x m' (a & m1 & E1 & E2)%bind_inv. eapply frame_trans; [by eapply Hc|by eapply Hf]. Qed.

Lemma inside_ld w off : inside M (ld w off).
Proof. intros m x m' [-> _]%ld_inv. apply frame_refl. Qed.

Lemma inside_memcpy_out dst off n : inside M (memcpy_out dst off n).
Proof.
  intros m x m'. unfold memcpy_out. case_match; [|done].
  intros (bs & m1 & ->%load_inv & [= _ <-])%bind_inv. apply frame_refl.
Qed.

Lemma inside_undef {A} : inside M (undef : C A).
Proof. by intros m x m'. Qed.

(** A store into a group. *)
Lemma inside_st w i o v :
  (i < 16)%nat -> 0 <= o -> o + Z.of_nat w <= SIZEOF_GROUP -> inside M (st w (group_addr M i + o) v).
Proof.
  intros Hi Ho Hw m x m' [Hin [= _ ->]]%st_inv. eapply frame_mono; [| |by apply frame_wr];
    unfold group_addr, SIZEOF_MULTI, MULTI_GROUPS, SIZEOF_GROUP in *; lia.
Qed.

Lemma inside_cas sp i : (i < 16)%nat -> inside M (NABD_CAS_ACQ_REL sp (group_addr M i + GRP_ACTIVE) 0 1).
Proof.
  intros Hi. apply inside_bind; [apply inside_ld|]. intros v. case_match; [|apply inside_ret].
  apply inside_bind; [by apply inside_st|]. intros ?. apply inside_ret.
Qed.

Lemma inside_claim_loop spurious id n i : (i + n <= 16)%nat -> inside M (claim_loop spurious id M n i).
Proof.
  revert i. induction n as [|n IH]; intros i Hi; cbn [claim_loop]; [apply inside_ret|].
  apply inside_bind; [apply inside_cas; lia|]. intros claimed. case_match; [|apply IH; lia].
  repeat (apply inside_bind; [first [apply inside_ld | apply inside_st; [lia|done|done]]|intros ?]). apply inside_ret.
Qed.

Lemma inside_join_loop id n i : inside M (join_loop id M n i).
Proof.
  revert i. induction n as [|n IH]; intros i; cbn [join_loop]; [apply inside_ret|].
  apply inside_bind; [apply inside_ld|]. intros active. case_match; [|apply IH].
  apply inside_bind; [apply inside_ld|]. intros x. case_match; [apply inside_ret|apply IH].
Qed.

Lemma inside_min_tail_loop n i t : inside M (min_tail_loop M n i t).
Proof.
  revert i t. induction n as [|n IH]; intros i t; cbn [min_tail_loop]; [apply inside_ret|].
  apply inside_bind; [apply inside_ld|]. intros active. case_match; [|apply IH].
  apply inside_bind; [apply inside_ld|]. intros x. apply IH.
Qed.

(** The group a create claims is one of the sixteen. *)
Lemma claim_loop_group spurious id n i m g x m' :
  claim_loop spurious id M n i m = Some (Some (g, x), m') -> exists j, (i <= j < i + n)%nat /\ g = group_addr M j.
Proof.
  revert i m. induction n as [|n IH]; intros i m; cbn [claim_loop]; [done|].
  intros (active & m1 & _ & E)%bind_inv. case_match.
  - repeat (apply bind_inv in E as (? & ? & _ & E)). injection E as <- _ _. exists i. split; [lia|done].
  - destruct (IH _ _ E) as (j & Hj & ->). exists j. split; [lia|done].
Qed.
End Inside.

(** The call is on a handle or a group of the block. *)
Definition on_block (M : Z) (a : group_api) : Prop :=
  match a with
  | ConsumerCreate _ _ q _ | ConsumerJoin _ q _ | MinTail q => forall h, q = Some h -> q_multi h = Some M
  | ConsumerClose c | ConsumerPop c _ _ | ConsumerPeek c _ _ | ConsumerRelease c | ConsumerStats c _ =>
      forall h, c = Some h -> exists i, (i < 16)%nat /\ cn_group h = group_addr M i
  end.

Ltac inside_steps :=
  repeat first
    [ apply inside_ret | apply inside_undef | apply inside_ld | apply inside_memcpy_out
    | (apply inside_st; [done|done|done])
    | apply inside_join_loop | apply inside_min_tail_loop
    | (apply inside_bind; [|intros ?])
    | match goal with |- inside _ (match ?x with _ => _ end) => destruct x end
    | match goal with |- inside _ (let _ := _ in _) => cbv zeta end ].

Lemma run_group_inside M a : on_block M a -> inside M (run_group a).
Proof.
  destruct a as [sp alloc q id|alloc q id|c|c b len|c d len|c|c st|q]; cbn [run_group on_block]; intros Hb;
    unfold returning.
  - apply inside_bind; [|intros [c e]; apply inside_ret]. unfold nabd_consumer_create.
    destruct q as [h|]; [|apply inside_ret]. rewrite (Hb h eq_refl).
    intros m r m' (c & m1 & E1 & E2)%bind_inv.
    eapply frame_trans; [eapply (inside_claim_loop M); [|exact E1]; by vm_compute|].
    assert (inside M (match c with
      | None => mret (None, Some ENOMEM)
      | Some (group, x) => if alloc then mret (Some (NabdConsumer h group x), None)
                           else st 4 (group + GRP_ACTIVE) 0;; mret (None, None)
      end)) as Hi; [|by eapply Hi].
    destruct c as [[g x]|]; [|apply inside_ret]. destruct alloc; [apply inside_ret|].
    destruct (claim_loop_group M _ _ _ _ _ _ _ _ E1) as (j & Hj & ->).
    apply inside_bind; [apply inside_st; [exact (proj2 Hj)|done|done]|intros; apply inside_ret].
  - inside_steps. destruct q as [h|]; unfold nabd_consumer_join; [|apply inside_ret]. rewrite (Hb h eq_refl). inside_steps.
  - unfold nabd_consumer_close. inside_steps.
  - unfold nabd_consumer_pop. destruct c as [c|]; [|inside_steps]. destruct (Hb c eq_refl) as (i & Hi & ->). inside_steps.
  - unfold nabd_consumer_peek. inside_steps.
  - unfold nabd_consumer_release. destruct c as [c|]; [|inside_steps]. destruct (Hb c eq_refl) as (i & Hi & ->). inside_steps.
  - unfold nabd_consumer_stats. inside_steps.
  - unfold nabd_min_tail. destruct q as [h|]; [|inside_steps]. rewrite (Hb h eq_refl). inside_steps.
Qed.

(** C31: groups never make room.  nabd.h says that messages are kept until all consumer
    groups have read them; but the producer compares the head with the position of the
    single consumer, and no group call moves that.  Whatever sequence of calls a program
    makes on the groups of a full queue, creating, reading everything, releasing, asking
    for the minimum position, the queue is as full as before and the next push is
    refused: a queue read by groups alone takes one capacity of messages and no more. *)
Theorem groups_never_make_room q k H T ms m M calls d len :
  ring q k H T ms m -> placed q k M m -> zlen ms = q_capacity q -> Forall (on_block M) calls ->
  len <= q_slot_size q - SIZEOF_HEADER ->
  wlp (run_groups calls) m (fun _ m' => ring q k H T ms m' /\
    nabd_push (Some q) (Some d) len m' = Some (NABD_FULL : Z, m')).
Proof.
  intros R (_ & Hp & _) Hfull Hc Hlen. pose proof (r_wf _ _ _ _ _ _ R) as W.
  assert (inside M (run_groups calls)) as Hi.
  { induction Hc as [|a l Ha _ IH]; cbn [run_groups]; [apply inside_ret|].
    apply inside_bind; [by apply run_group_inside|]. intros r. apply inside_bind; [done|]. intros rs. apply inside_ret. }
  intros rs m' E. pose proof (ring_after q k W H T ms m m' M SIZEOF_MULTI R Hp (Hi _ _ _ E)) as R'.
  split; [done|]. by apply (push_full q k H T ms m' R').
Qed.

(** ** Witnesses *)

Lemma group_results_well_typed_witness :
  exists c m', run_group (ConsumerCreate (fun _ => false) true (Some sample_mq) 0) (sample_multi 0)
               = Some (Opened (Some c) None, m') /\ 1 <= cn_group_id c <= NABD_MAX_CONSUMERS.
Proof.
  destruct (run_group (ConsumerCreate (fun _ => false) true (Some sample_mq) 0) (sample_multi 0))
    as [[r m']|] eqn:E; [|exfalso; revert E; vm_compute; discriminate].
  assert (r = Opened (Some (NabdConsumer sample_mq (group_addr 320 0) 1)) None) as Er.
  { apply (f_equal (fmap fst)) in E. revert E. vm_compute. by intros [= <-]. }
  assert (group_args_ok (ConsumerCreate (fun _ => false) true (Some sample_mq) 0)) as Ha.
  { split; [|by vm_compute]. split; try (by vm_compute). by left. }
  pose proof (group_results_well_typed (ConsumerCreate (fun _ => false) true (Some sample_mq) 0)
                (sample_multi 0) Ha r m' E) as Hok.
  rewrite Er in Hok |- *. exists (NabdConsumer sample_mq (group_addr 320 0) 1), m'. split; [done|].
  destruct Hok as (_ & _ & _ & [Hid|[_ Hid]]); [revert Hid; vm_compute; discriminate|exact Hid].
Defined.

(** Two groups read both messages of a full queue and ask for the minimum position. *)
Definition sample_reading : list group_api :=
  let c i := Some (NabdConsumer sample_mq (group_addr 320 i) (7 + Z.of_nat i)) in
  [ConsumerPop (c 0%nat) (Some (replicate 8 Byte.x00)) (Some 8); ConsumerRelease (c 0%nat);
   ConsumerRelease (c 1%nat); ConsumerRelease (c 1%nat); MinTail (Some sample_mq)].

Lemma groups_never_make_room_witness :
  option_map fst (run_groups sample_reading sample_groups)
  = Some [Received NABD_OK (Some (splice (replicate 8 Byte.x00) 0 msg_a)) (Some 1); Done NABD_OK;
          Done NABD_OK; Done NABD_OK; Position 2] /\
  option_map fst (nabd_push (Some sample_mq) (Some msg_a) 1 (after (run_groups sample_reading) sample_groups))
  = Some (NABD_FULL : Z).
Proof.
  assert (option_map fst (run_groups sample_reading sample_groups)
    = Some [Received NABD_OK (Some (splice (replicate 8 Byte.x00) 0 msg_a)) (Some 1); Done NABD_OK;
            Done NABD_OK; Done NABD_OK; Position 2]) as E by (vm_compute; reflexivity).
  split; [exact E|]. unfold after.
  destruct (run_groups sample_reading sample_groups) as [[rs m']|] eqn:Er; [|exfalso; revert E; vm_compute; discriminate].
  assert (Forall (on_block 320) sample_reading) as Hb.
  { repeat constructor; simpl; intros h [= <-];
      first [reflexivity | (exists 0%nat; split; [lia|reflexivity]) | (exists 1%nat; split; [lia|reflexivity])]. }
  assert (placed sample_mq 1 320 sample_groups) as Hpl by (split; [reflexivity|split; vm_compute; discriminate]).
  destruct (groups_never_make_room sample_mq 1 2 0 [msg_a; msg_b] sample_groups 320 sample_reading msg_a 1
              sample_groups_ring Hpl eq_refl Hb ltac:(vm_compute; discriminate) rs m' Er) as [_ Hpush].
  rewrite Hpush. reflexivity.
Defined.
