(* ===== verification/LifecycleApi.v ===== *)
(** * The lifecycle calls of nabd.h

    One call of [nabd_open], [nabd_close] or [nabd_unlink], with the results the header
    documents, on any system, and the promise the other interfaces rest on: the handle
    that [nabd_open] returns has the types that Api.v and GroupApi.v ask of a handle,
    whatever the segment it found contains. *)

From S2P Require Import Prelude Words Pow2 Memory Layout BasicsCorrect Queue Posix Lifecycle Api.
Local Open Scope string_scope.
Local Open Scope Z_scope.

Inductive lifecycle_api :=
  | Open (name : option string) (capacity slot_size flags : Z)
  | Close (q : option (Z * nabd))
  | Unlink (name : option string).

Inductive lifecycle_result :=
  | Opened (q : option (Z * nabd))
  | Code (r : Z).

(** The arguments of type [size_t]. *)
Definition lifecycle_typed (a : lifecycle_api) : Prop :=
  match a with Open _ c ss _ => word 64 c /\ word 64 ss | _ => True end.

(** No name, no handle, or neither a producer nor a consumer. *)
Definition lifecycle_misused (a : lifecycle_api) : bool :=
  match a with
  | Open (Some _) _ _ flags => negb (has_flag flags NABD_PRODUCER) && negb (has_flag flags NABD_CONSUMER)
  | Close (Some _) | Unlink (Some _) => false
  | _ => true
  end.

(** A handle as [nabd_open] leaves it. *)
Record fresh_handle (flags : Z) (h : nabd) : Prop := {
  fh_ok : handle_ok h;
  fh_flags : q_flags h = flags;
  fh_mapped : exists a, q_ctrl h = Some a;
  fh_buffer : q_buffer h = SIZEOF_CONTROL;
  fh_size : q_size h = total_size (q_capacity h) (q_slot_size h);
  fh_mask : q_mask h = sub64 (q_capacity h) 1;
  fh_reserved : q_reserved h = 0;
  fh_multi : q_multi h = None
}.

Section LifecycleApi.
Context {P : Posix}.

Definition run_lifecycle (a : lifecycle_api) : IO lifecycle_result :=
  match a with
  | Open name c ss flags => q ← nabd_open name c ss flags; mret (Opened q)
  | Close q => r ← nabd_close q; mret (Code r)
  | Unlink name => r ← nabd_unlink name; mret (Code r)
  end.

(** The [@return] paragraphs: 34, 52, 64. *)
Definition lifecycle_documented (a : lifecycle_api) (r : lifecycle_result) : Prop :=
  match a, r with
  | Open _ _ _ flags, Opened q => opt (fun h => fresh_handle flags (snd h)) q
  | Close _, Code r => r = NABD_OK
  | Unlink _, Code r => r = NABD_OK \/ r = NABD_SYSERR
  | _, _ => False
  end.

(** A computation on a mapping gives what it gives on any memory. *)
Lemma wlp_on_map_gives {A} (R : A -> Prop) a (c : C A) s (Q : A -> sys -> Prop) :
  (forall m, wlp c m (fun x _ => R x)) -> (forall x s', R x -> Q x s') -> wlp (on_map a c) s Q.
Proof.
  intros Hc HQ x s'. unfold on_map. repeat case_match; try done. intros [= <- <-]. eapply HQ, Hc. done.
Qed.

Lemma new_handle_fresh nm fd flags a c ss :
  word 64 c -> word 64 ss -> fresh_handle flags (new_handle nm fd flags (total_size c ss) a c ss).
Proof.
  intros Hc Hs. split; try done; [|by exists a]. split; try done; [apply u64_range|by left].
Qed.

Lemma effective_capacity_word c : word 64 c -> word 64 (effective_capacity c).
Proof.
  intros Hc. unfold effective_capacity. cbv zeta. repeat case_match; try done; apply u64_range.
Qed.

Lemma effective_slot_size_word z : word 64 z -> word 64 (effective_slot_size z).
Proof.
  intros Hz. unfold effective_slot_size. cbv zeta.
  destruct (z =? 0); [by vm_compute|]. by destruct (z <? _).
Qed.

(** Run a read of a word of the segment. *)
Lemma wlp_segment_word a off s (Q : Z -> sys -> Prop) :
  (forall x s', word 64 x -> Q x s') -> wlp (on_map a (ld 8 off)) s Q.
Proof. apply wlp_on_map_gives. intros m. by apply wlp_ld. Qed.

Lemma open_gives_fresh name c ss flags s :
  word 64 c -> word 64 ss ->
  wlp (nabd_open name c ss flags) s (fun r _ => opt (fun h => fresh_handle flags (snd h)) r).
Proof.
  intros Hc Hs. unfold nabd_open, open_shm, open_create, open_attach, free_handle, fail.
  repeat first [apply wlp_segment_word; intros ? ? ?|run_io_step]; simpl; try done;
    by apply new_handle_fresh; try apply effective_capacity_word; try apply effective_slot_size_word.
Qed.

(** The results of the lifecycle calls, whatever the system calls answer and the segment
    contains.  A misused open gives NULL with [errno] set to [EINVAL] and touches nothing
    else, a misused close or unlink [NABD_INVALID]; otherwise the result is a documented one. *)
Theorem lifecycle_results a s :
  lifecycle_typed a ->
  wlp (run_lifecycle a) s (fun r s' =>
    if lifecycle_misused a then
      match a with
      | Open _ _ _ _ => r = Opened None /\ s' = set_errno EINVAL s
      | _ => r = Code NABD_INVALID /\ s' = s
      end
    else lifecycle_documented a r).
Proof.
  intros Ha. destruct a as [name c ss flags|q|name]; cbn [run_lifecycle lifecycle_misused].
  - destruct name as [name|]; [|by intros r s' [= <- <-]].
    destruct (negb _ && negb _) eqn:Hf.
    { unfold nabd_open. rewrite Hf. by intros r s' [= <- <-]. }
    destruct Ha. apply wlp_bind. eapply wlp_mono; [by apply open_gives_fresh|]. intros q s' Hq. by apply wlp_ret.
  - destruct q as [[p h]|]; [|by intros r s' [= <- <-]]. unfold nabd_close, free_handle. by run_io.
  - destruct name as [name|]; [|by intros r s' [= <- <-]]. unfold nabd_unlink. run_io. simpl. case_zb; [by right|by left].
Qed.

End LifecycleApi.

(** An open on a machine where nothing fails. *)
Lemma lifecycle_results_witness :
  let a := Open (Some "/q") 3 1 (Z.lor NABD_CREATE NABD_PRODUCER) in
  exists p h s', @run_lifecycle (SimplePosix no_faults) a boot = Some (Opened (Some (p, h)), s') /\
    fresh_handle (Z.lor NABD_CREATE NABD_PRODUCER) h.
Proof.
  intros a. destruct (@run_lifecycle (SimplePosix no_faults) a boot) as [[r s']|] eqn:E;
    [|exfalso; revert E; vm_compute; discriminate].
  destruct r as [[[p h]|]|]; [|exfalso; revert E; vm_compute; discriminate..].
  exists p, h, s'. split; [done|].
  assert (lifecycle_typed a) as Ha by (split; unfold word; lia).
  pose proof (@lifecycle_results (SimplePosix no_faults) a boot Ha) as Hr.
  assert (lifecycle_misused a = false) as Hm by (vm_compute; reflexivity). rewrite Hm in Hr.
  exact (Hr _ _ E).
Defined.
