(* ===== verification/CompanionApi.v ===== *)
(** * The calls of backpressure.h, metrics.h and persistence.h

    One call of any function of the companion headers, with the results the headers
    document, and the results the functions have for any contents of the segment, of the
    object the name stands for, of the checkpoint file, for any clock and any behaviour
    of other processes. *)

From S2P Require Import Prelude Words Pow2 Memory Layout Fifo Queue Ring Sample Posix Lifecycle MultiConsumer Backpressure Persistence Format Metrics Api.
Local Open Scope string_scope.
Local Open Scope Z_scope.

(** ** include/nabd/backpressure.h *)

Inductive pressure_api :=
  | SetBackpressure (q : option nabd) (config : option nabd_backpressure_config_t)
  | PushWait (q : option nabd) (data : option (list byte)) (len timeout_us : Z)
  | PushBackoff (q : option nabd) (data : option (list byte)) (len max_retries base_delay_us : Z)
  | FillLevel (q : option nabd)
  | IsPressured (q : option nabd) (threshold : Z).

Definition at_once (c : C Z) (m : mem) : option (outcome mem) := '(r, m) ← c m; Some (Done r m []).

Definition run_pressure (env : nat -> mem -> mem) (clock : nat -> Z * Z) (fuel : nat) (a : pressure_api)
    : mem -> option (outcome mem) :=
  match a with
  | SetBackpressure q c => at_once (mret (nabd_set_backpressure q c))
  | PushWait q d len t => nabd_push_wait env clock fuel q d len t
  | PushBackoff q d len n b => nabd_push_backoff env fuel q d len n b
  | FillLevel q => at_once (nabd_fill_level q)
  | IsPressured q t => at_once (nabd_is_pressured q t)
  end.

(** The [@return] paragraphs: 58, 70-72, 85-86, 96, 106. *)
Definition pressure_documented (a : pressure_api) (r : Z) : Prop :=
  match a with
  | SetBackpressure _ _ => r = NABD_OK
  | PushWait _ _ _ _ => r ∈ [NABD_OK : Z; NABD_FULL : Z; NABD_TOOBIG : Z]
  | PushBackoff _ _ _ _ _ => r ∈ [NABD_OK : Z; NABD_FULL : Z]
  | FillLevel _ => 0 <= r <= 100
  | IsPressured _ _ => r ∈ [1; 0]
  end.

(** Two percentages, the low one below the high one (39-40). *)
Definition watermarks_ok (c : nabd_backpressure_config_t) : bool :=
  (0 <=? low_watermark c) && (low_watermark c <? high_watermark c) && (high_watermark c <=? 100).

Definition pressure_misused (a : pressure_api) : bool :=
  match a with
  | SetBackpressure (Some _) (Some c) => negb (watermarks_ok c)
  | PushWait (Some _) (Some _) _ _ | PushBackoff (Some _) (Some _) _ _ _ => false
  | FillLevel (Some _) | IsPressured (Some _) _ => false
  | _ => true
  end.

(** ** include/nabd/metrics.h *)

Inductive metrics_api :=
  | GetMetrics (q : option nabd) (metrics : option nabd_metrics_t)
  | TakeSnapshot (ts : Z * Z) (q : option nabd) (snapshot : option nabd_snapshot_t)
  | CalcThroughput (prev curr : option nabd_snapshot_t)
  | FormatMetrics (json : bool) (metrics : option nabd_metrics_t) (buf : option (list byte)) (bufsize : Z).

Inductive metrics_result :=
  | TheMetrics (r : Z) (metrics : option nabd_metrics_t)
  | TheSnapshot (r : Z) (snapshot : option nabd_snapshot_t)
  | Throughput (per_second : Z)
  | Formatted (n : Z) (buf : option (list byte)).

Definition run_metrics (a : metrics_api) : C metrics_result :=
  match a with
  | GetMetrics q x => '(r, x) ← nabd_get_metrics q x; mret (TheMetrics r x)
  | TakeSnapshot ts q x => '(r, x) ← nabd_take_snapshot ts q x; mret (TheSnapshot r x)
  | CalcThroughput p c => mret (Throughput (nabd_calc_throughput p c))
  | FormatMetrics json x b n => fun m =>
      '(r, b) ← (if json then nabd_format_metrics_json x b n else nabd_format_metrics x b n); Some (Formatted r b, m)
  end.

Definition metrics_misused (a : metrics_api) : bool :=
  match a with
  | GetMetrics (Some _) (Some _) | TakeSnapshot _ (Some _) (Some _) | CalcThroughput (Some _) (Some _) => false
  | FormatMetrics _ (Some _) (Some _) n => n =? 0
  | _ => true
  end.

(** ** include/nabd/persistence.h *)

Section Persistent.
Context {P : Posix}.

Inductive persistence_api :=
  | Diagnose (name : option string) (diag : option nabd_diagnostic_t)
  | Recover (name : option string) (force : bool)
  | CheckpointSave (i : io) (ts : Z * Z) (c : option nabd_consumer) (filepath : option string)
  | CheckpointLoad (i : io) (filepath : option string) (ckpt : option nabd_checkpoint_t)
  | ConsumerResume (spurious : nat -> bool) (alloc1 alloc2 : bool) (q : option nabd) (ckpt : option nabd_checkpoint_t)
  | LastActivity (q : option nabd) (ts : Z * Z).

(** What the calls run on: the mapping of an open queue, the system, the files. *)
Record surroundings := Surroundings { s_mapping : mem; s_system : sys; s_files : files }.

Inductive persistence_result :=
  | Returned (r : Z)
  | Diagnosed (r : Z) (diag : option nabd_diagnostic_t)
  | Loaded (r : Z) (ckpt : option nabd_checkpoint_t)
  | Resumed (c : option nabd_consumer)
  | Timestamp (ns : Z).

Definition run_persistence (a : persistence_api) : ST surroundings persistence_result := fun w =>
  match a with
  | Diagnose name d =>
      '((r, d), s) ← nabd_diagnose name d (s_system w); Some (Diagnosed r d, Surroundings (s_mapping w) s (s_files w))
  | Recover name force =>
      '(r, s) ← nabd_recover name force (s_system w); Some (Returned r, Surroundings (s_mapping w) s (s_files w))
  | CheckpointSave i ts c path =>
      '((r, fs), m) ← nabd_checkpoint_save i ts c path (s_files w) (s_mapping w);
      Some (Returned r, Surroundings m (s_system w) fs)
  | CheckpointLoad i path ck =>
      let (r, ck) := nabd_checkpoint_load i path ck (s_files w) in Some (Loaded r ck, w)
  | ConsumerResume sp a1 a2 q ck =>
      '(c, m) ← nabd_consumer_resume sp a1 a2 q ck (s_mapping w);
      Some (Resumed c, Surroundings m (s_system w) (s_files w))
  | LastActivity q ts => Some (Timestamp (nabd_last_activity q ts), w)
  end.

(** The [@return] paragraphs: 84, 94-95, 105, 115-117.  Failures of system calls, which
    the header does not mention, are [NABD_NOTFOUND] and [NABD_SYSERR]. *)
Definition persistence_codes (a : persistence_api) : list Z :=
  match a with
  | Diagnose _ _ => [NABD_OK : Z; NABD_NOTFOUND : Z; NABD_SYSERR : Z]
  | Recover _ _ => [NABD_OK : Z; NABD_CORRUPTED : Z; NABD_NOTFOUND : Z; NABD_SYSERR : Z]
  | CheckpointSave _ _ _ _ => [NABD_OK : Z; NABD_SYSERR : Z]
  | CheckpointLoad _ _ _ => [NABD_OK : Z; NABD_NOTFOUND : Z; NABD_CORRUPTED : Z]
  | ConsumerResume _ _ _ _ _ | LastActivity _ _ => []
  end.

Definition persistence_misused (a : persistence_api) : bool :=
  match a with
  | Diagnose (Some _) (Some _) | Recover (Some _) _ | CheckpointSave _ _ (Some _) (Some _) => false
  | CheckpointLoad _ (Some _) (Some _) | ConsumerResume _ _ _ (Some _) (Some _) | LastActivity (Some _) _ => false
  | _ => true
  end.
End Persistent.

(** ** The results *)

(** A push that is given its arguments. *)
Lemma push_codes q d len m r m' :
  nabd_push (Some q) (Some d) len m = Some (r, m') -> r ∈ [NABD_OK : Z; NABD_FULL : Z; NABD_TOOBIG : Z].
Proof.
  revert r m'. change (wlp (nabd_push (Some q) (Some d) len) m (fun r _ => r ∈ [NABD_OK : Z; NABD_FULL : Z; NABD_TOOBIG : Z])).
  unfold nabd_push. run_call; repeat constructor.
Qed.

Section Loops.
Context (env : nat -> mem -> mem) (clock : nat -> Z * Z) (q : nabd) (d : list byte) (len : Z).
Let codes := [NABD_OK : Z; NABD_FULL : Z; NABD_TOOBIG : Z].
Let push := nabd_push (Some q) (Some d) len.

Lemma wait_loop_codes fuel t dl i spin m sl r m' sl' :
  wait_loop push env clock fuel t dl i spin m sl = Some (Done r m' sl') -> r ∈ codes.
Proof.
  revert i spin m sl. induction fuel as [|fuel IH]; cbn [wait_loop]; intros i spin m sl; [done|].
  destruct (push (env i m)) as [[x m1]|] eqn:E; [|done]. cbn [mbind option_bind].
  apply push_codes in E. case_match; [by intros [= <- _ _]|].
  destruct (if 0 <? t then _ else _) as [[]|]; cbn [mbind option_bind]; [|case_match; apply IH|done].
  intros [= <- _ _]. by right; left.
Qed.

Lemma backoff_loop_codes fuel mr i delay retries m sl r m' sl' :
  backoff_loop push env fuel mr i delay retries m sl = Some (Done r m' sl') -> r ∈ codes.
Proof.
  revert i delay retries m sl. induction fuel as [|fuel IH]; cbn [backoff_loop]; intros i delay retries m sl; [done|].
  destruct (push (env i m)) as [[x m1]|] eqn:E; [|done]. cbn [mbind option_bind].
  apply push_codes in E. case_match; [by intros [= <- _ _]|]. case_match; [done|].
  case_match; [intros [= <- _ _]; by right; left|]. case_match; [done|]. apply IH.
Qed.

Lemma push_wait_codes fuel t m r m' sl : push_wait push env clock fuel t m = Some (Done r m' sl) -> r ∈ codes.
Proof.
  unfold push_wait. destruct (push m) as [[x m1]|] eqn:E; [|done]. cbn [mbind option_bind].
  apply push_codes in E. case_match; [by intros [= <- _ _]|]. case_match; [intros [= <- _ _]; by right; left|].
  destruct (if 0 <? t then _ else _) as [dl|]; [|done]. apply wait_loop_codes.
Qed.
End Loops.

Lemma to_int_range z : - 2 ^ 31 <= to_int z < 2 ^ 31.
Proof. unfold to_int. pose proof (Z.mod_pos_bound (z + 2 ^ 31) (2 ^ 32) ltac:(lia)). lia. Qed.

Lemma wlp_fill_level q m : wlp (nabd_fill_level (Some q)) m (fun r _ => - 2 ^ 31 <= r < 2 ^ 31).
Proof.
  unfold nabd_fill_level, nabd_stats. run_call; simpl; try apply to_int_range; lia.
Qed.

(** The results of the backpressure calls, for any contents of the segment, any clock
    and any other processes.  A call that returns gives [NABD_INVALID] exactly when it is
    misused, a blocking push otherwise one of the three codes of a push ([NABD_TOOBIG] also
    from [nabd_push_backoff], whose documentation does not name it); the fill level is
    some [int], and [nabd_is_pressured] answers 0, 1 or a negative fill level. *)
Theorem pressure_results env clock fuel a m r m' sl :
  run_pressure env clock fuel a m = Some (Done r m' sl) ->
  if pressure_misused a then r = NABD_INVALID else
  match a with
  | SetBackpressure _ _ | PushWait _ _ _ _ => pressure_documented a r
  | PushBackoff _ _ _ _ _ => pressure_documented a r \/ r = NABD_TOOBIG
  | FillLevel _ => - 2 ^ 31 <= r < 2 ^ 31
  | IsPressured _ _ => pressure_documented a r \/ - 2 ^ 31 <= r < 0
  end.
Proof.
  destruct a as [q c|q d len t|q d len n b|q|q t]; cbn [run_pressure pressure_misused pressure_documented].
  - unfold at_once, watermarks_ok. intros [= <- _ _]. destruct q as [q|], c as [c|]; try done.
    unfold nabd_set_backpressure.
    destruct (Z.ltb_spec (high_watermark c) 0), (Z.ltb_spec 100 (high_watermark c)), (Z.ltb_spec (low_watermark c) 0),
      (Z.ltb_spec 100 (low_watermark c)), (Z.leb_spec (high_watermark c) (low_watermark c)),
      (Z.leb_spec 0 (low_watermark c)), (Z.ltb_spec (low_watermark c) (high_watermark c)),
      (Z.leb_spec (high_watermark c) 100); simpl; done || lia.
  - destruct q as [q|], d as [d|]; try (by intros [= <- _ _]). apply push_wait_codes.
  - destruct q as [q|], d as [d|]; try (by intros [= <- _ _]). intros Hr%backoff_loop_codes.
    apply elem_of_cons in Hr as [->|[->|[->|?]%elem_of_cons]%elem_of_cons]; [left; by left|left; by right; left|by right|set_solver].
  - unfold at_once. destruct q as [q|]; [|by intros [= <- _ _]].
    destruct (nabd_fill_level (Some q) m) as [[x m1]|] eqn:E; [|done]. intros [= <- _ _].
    by apply (wlp_fill_level q m x m1).
  - unfold at_once, nabd_is_pressured. destruct q as [q|]; [|by intros [= <- _ _]].
    destruct (nabd_fill_level (Some q) m) as [[x m1]|] eqn:E; unfold mbind, ST_bind; rewrite E; [|done].
    pose proof (wlp_fill_level q m x m1 E) as Hx. cbv beta in Hx. intros [= <- _ _].
    case_zb; [right; lia|left]. case_zb; [by left|by right; left].
Qed.

(** ** Metrics *)

Definition metrics_ok (x : nabd_metrics_t) : Prop :=
  word 64 (m_head x) /\ word 64 (m_tail x) /\ word 64 (m_pending x) /\ word 64 (m_capacity x) /\
  word 64 (m_slot_size x) /\ word 64 (m_used_bytes x) /\ - 2 ^ 31 <= m_fill_pct x < 2 ^ 31 /\
  word 64 (m_total_pushed x) /\ word 64 (m_total_popped x).

Definition snapshot_ok (x : nabd_snapshot_t) : Prop :=
  word 64 (sn_timestamp_ns x) /\ word 64 (sn_head x) /\ word 64 (sn_tail x) /\
  sn_pushed x = sn_head x /\ sn_popped x = sn_tail x.

(** The results of the metrics calls, for any contents of the segment.  A misused call
    returns [NABD_INVALID], 0 or -1 and leaves the caller's object alone; otherwise the
    two collectors return [NABD_OK] with every field in the range of its type, the
    throughput is a word, and a formatter returns the length of its text, which is the
    number of bytes written only if the text fits the buffer. *)
Theorem metrics_results a m :
  match a with GetMetrics q _ | TakeSnapshot _ q _ => opt handle_ok q | _ => True end ->
  wlp (run_metrics a) m (fun r _ =>
    match a, r with
    | GetMetrics _ x, TheMetrics r y =>
        if metrics_misused a then r = NABD_INVALID /\ y = x else r = NABD_OK /\ exists z, y = Some z /\ metrics_ok z
    | TakeSnapshot _ _ x, TheSnapshot r y =>
        if metrics_misused a then r = NABD_INVALID /\ y = x else r = NABD_OK /\ exists z, y = Some z /\ snapshot_ok z
    | CalcThroughput _ _, Throughput n => if metrics_misused a then n = 0 else word 64 n
    | FormatMetrics json x b size, Formatted n b' =>
        if metrics_misused a then n = -1 /\ b' = b
        else exists z, x = Some z /\ n = zlen (render_all (if json then metrics_json z else metrics_text z)) /\
             zlen <$> b' = zlen <$> b
    | _, _ => False
    end).
Proof.
  intros Ha. destruct a as [q x|ts q x|p c|json x b n]; cbn [run_metrics].
  - unfold nabd_get_metrics. run_call; simpl in *; try done. destruct Ha. split; [done|]. eexists. split; [done|].
    unfold metrics_ok. simpl. split_and!; try done; try apply u64_range; try case_zb; try apply u64_range;
      unfold word; try apply to_int_range; lia.
  - unfold nabd_take_snapshot. run_call; simpl in *; try done. split; [done|]. eexists. split; [done|].
    unfold snapshot_ok. simpl. split_and!; try done. apply u64_range.
  - apply wlp_ret. unfold nabd_calc_throughput. destruct p as [p|], c as [c|]; simpl; try done.
    case_zb; [unfold word; lia|]. cbv zeta. set (t := sub64 _ _) in *. assert (0 <= t < 2 ^ 64) by apply u64_range.
    set (n := mul64 _ _). assert (0 <= n < 2 ^ 64) by apply u64_range. unfold word.
    split; [apply Z.div_pos; lia|]. apply Z.div_lt_upper_bound; nia.
  - intros r m'. unfold nabd_format_metrics, nabd_format_metrics_json, metrics_misused.
    destruct x as [x|], b as [b|]; try (destruct json; by intros [= <- _]). simpl.
    destruct (n =? 0) eqn:En; [destruct json; by intros [= <- _]|].
    assert (forall ds r, ('(r, b) ← ('(k, b') ← snprintf b n ds; Some (k, Some b')); Some (Formatted r b, m)) = Some (r, m') ->
      exists b', r = Formatted (zlen (render_all ds)) (Some b') /\ zlen b' = zlen b) as Hf.
    { intros ds r'. unfold snprintf. case_match eqn:Ez; [|done]. zbool. intros [= <- _]. eexists. split; [done|].
      apply zlen_splice; lia. }
    destruct json; intros (b' & -> & Hz)%Hf; exists x; (split; [done|]); (split; [done|]); simpl; by rewrite Hz.
Qed.

(** ** Persistence *)

Section PersistentResults.
Context {P : Posix}.

Lemma wlp_diagnose name d s :
  wlp (nabd_diagnose (Some name) (Some d)) s (fun r _ => fst r ∈ [NABD_OK : Z; NABD_NOTFOUND : Z; NABD_SYSERR : Z] /\
    exists d', snd r = Some d' /\ d_state d' <> NABD_STATE_STALE /\
    (fst r = NABD_OK -> d_state d' <> NABD_STATE_INCOMPLETE)).
Proof.
  unfold nabd_diagnose. run_io; simpl; (split; [by repeat constructor|]); eexists; (split; [done|]); try done.
  split; unfold classify; simpl; repeat case_zb; done.
Qed.

Lemma wlp_recover name force s :
  wlp (nabd_recover (Some name) force) s (fun r _ =>
    r ∈ [NABD_OK : Z; NABD_CORRUPTED : Z; NABD_NOTFOUND : Z; NABD_SYSERR : Z]).
Proof.
  unfold nabd_recover. apply wlp_bind. eapply wlp_mono; [apply wlp_diagnose|].
  intros [r d] s1 [Hr _]. simpl in Hr. unfold recover_after. case_match.
  { apply wlp_ret. rewrite !elem_of_cons in *. tauto. }
  clear Hr. unfold force_reset. run_io; simpl; repeat constructor.
Qed.

Lemma wlp_any {A} (c : C A) m : wlp c m (fun _ _ => True).
Proof. done. Qed.

Lemma wlp_resume sp a1 a2 q ck m :
  wlp (nabd_consumer_resume sp a1 a2 (Some q) (Some ck)) m (fun c _ => forall h, c = Some h -> cn_queue h = q).
Proof.
  unfold nabd_consumer_resume. apply wlp_bind.
  eapply (wlp_mono _ _ (fun r _ => forall h, fst r = Some h -> cn_queue h = q)).
  { unfold nabd_consumer_create. destruct (q_multi q) as [M|]; [|by apply wlp_ret].
    apply wlp_bind. eapply wlp_mono; [apply wlp_any|]. intros [[g x]|] m1 _; [|by apply wlp_ret].
    destruct a1; [apply wlp_ret; by intros h [= <-]|]. apply wlp_bind, wlp_st. intros m2. by apply wlp_ret. }
  intros [c e] m1 Hc. simpl in Hc. apply wlp_bind.
  eapply (wlp_mono _ _ (fun r _ => forall h, r = Some h -> cn_queue h = q)).
  { destruct c as [c|]; [apply wlp_ret; by apply Hc|]. apply wlp_bind. unfold nabd_consumer_join.
    destruct (_ =? 0); [by do 2 apply wlp_ret|]. destruct (q_multi q) as [M|]; [|by do 2 apply wlp_ret].
    apply wlp_bind. eapply wlp_mono; [apply wlp_any|]. intros [g|] m2 _; [|by do 2 apply wlp_ret].
    destruct a2; do 2 apply wlp_ret; by intros h [= <-]. }
  intros [x|] m2 Hx; [|by apply wlp_ret]. run_call; apply Hx.
Qed.

(** The results of the persistence calls, whatever the object behind the name, the
    system calls and the file contain or answer.  A misused call returns [NABD_INVALID],
    NULL or 0; otherwise one of the codes listed above; [nabd_diagnose] never reports
    [NABD_STATE_STALE], and [NABD_STATE_INCOMPLETE] only together with an error code. *)
Theorem persistence_results a w :
  wlp (run_persistence a) w (fun r _ =>
    match a, r with
    | (Recover _ _ | CheckpointSave _ _ _ _), Returned code =>
        if persistence_misused a then code = NABD_INVALID else code ∈ persistence_codes a
    | Diagnose _ d, Diagnosed code d' =>
        if persistence_misused a then code = NABD_INVALID /\ d' = d
        else code ∈ persistence_codes a /\ exists x, d' = Some x /\ d_state x <> NABD_STATE_STALE /\
             (code = NABD_OK -> d_state x <> NABD_STATE_INCOMPLETE)
    | CheckpointLoad _ _ ck, Loaded code ck' =>
        if persistence_misused a then code = NABD_INVALID /\ ck' = ck
        else code ∈ persistence_codes a /\
             (code = NABD_OK -> exists c, ck' = Some c /\ k_magic c = NABD_CHECKPOINT_MAGIC /\
                                          k_checksum c = compute_checksum c)
    | ConsumerResume _ _ _ q ck, Resumed c =>
        if persistence_misused a then c = None else forall h, c = Some h -> Some (cn_queue h) = q
    | LastActivity _ _, Timestamp t => if persistence_misused a then t = 0 else 0 <= t < 2 ^ 64
    | _, _ => False
    end).
Proof.
  destruct a as [name d|name force|i ts c path|i path ck|sp a1 a2 q ck|q ts]; intros r w'; cbn [run_persistence].
  - destruct (nabd_diagnose name d (s_system w)) as [[[x d'] s1]|] eqn:E; [|done]. intros [= <- _].
    destruct name as [name|]; [|by injection E as <- <-]. destruct d as [d|]; [|by injection E as <- <-].
    by apply (wlp_diagnose name d _ _ _ E).
  - destruct (nabd_recover name force (s_system w)) as [[x s1]|] eqn:E; [|done]. intros [= <- _].
    destruct name as [name|]; [|by injection E as <-]. by apply (wlp_recover name force _ _ _ E).
  - destruct (nabd_checkpoint_save i ts c path (s_files w) (s_mapping w)) as [[[x fs] m]|] eqn:E; [|done].
    intros [= <- _]. destruct c as [c|]; [|by injection E as <-]. destruct path as [path|]; [|by injection E as <-].
    revert E. unfold nabd_checkpoint_save. intros (t & m1 & _ & E)%bind_inv. cbv zeta in E.
    cbn [persistence_misused persistence_codes].
    destruct (negb (io_open i)); injection E as <- _ _; [|case_zb]; repeat constructor.
  - destruct (nabd_checkpoint_load i path ck (s_files w)) as [x ck'] eqn:E. intros [= <- _].
    destruct path as [path|]; [|by injection E as <- <-]. destruct ck as [ck|]; [|by injection E as <- <-].
    revert E. unfold nabd_checkpoint_load. simpl.
    destruct (if io_open i then _ else _) as [content|]; [|intros [= <- <-]; split; [by repeat constructor|done]].
    case_zb; [intros [= <- <-]; split; [by repeat constructor|done]|].
    case_zb; [intros [= <- <-]; split; [by repeat constructor|done]|].
    case_zb; [intros [= <- <-]; split; [by repeat constructor|done]|].
    intros [= <- <-]. split; [by repeat constructor|]. intros _. eexists. split; [done|]. by split.
  - destruct (nabd_consumer_resume sp a1 a2 q ck (s_mapping w)) as [[c m]|] eqn:E; [|done]. intros [= <- _].
    destruct q as [q|]; [|by injection E as <-]. destruct ck as [ck|]; [|by injection E as <-]. simpl.
    intros h ->. f_equal. by apply (wlp_resume _ _ _ _ _ _ _ _ E).
  - intros [= <- _]. destruct q; [|done]. simpl. apply u64_range.
Qed.
End PersistentResults.

(** ** Witnesses *)

(** A push that does not wait, on a full queue. *)
Lemma pressure_results_witness :
  let a := PushWait (Some sample_q) (Some msg_a) 1 0 in
  run_pressure (fun _ m => m) (fun _ => (0, 0)) 1 a sample_two = Some (Done NABD_FULL sample_two []) /\
  pressure_documented a NABD_FULL.
Proof.
  intros a. assert (run_pressure (fun _ m => m) (fun _ => (0, 0)) 1 a sample_two = Some (Done NABD_FULL sample_two []))
    as E by (vm_compute; reflexivity).
  split; [exact E|]. exact (pressure_results _ _ _ a _ _ _ _ E).
Defined.

Lemma metrics_results_witness :
  exists z, run_metrics (GetMetrics (Some sample_q) (Some (Metrics 0 0 0 0 0 0 0 0 0 0 0 0 0 0 0 0 0))) sample_two
            = Some (TheMetrics NABD_OK (Some z), sample_two) /\ metrics_ok z.
Proof.
  set (a := GetMetrics (Some sample_q) (Some (Metrics 0 0 0 0 0 0 0 0 0 0 0 0 0 0 0 0 0))).
  assert (opt handle_ok (Some sample_q)) as Hq by (split; try (by vm_compute); by left).
  destruct (run_metrics a sample_two) as [[r m']|] eqn:E; [|exfalso; revert E; vm_compute; discriminate].
  exists (Metrics 2 0 2 2 16 32 100 2 0 0 0 0 0 0 0 0 0).
  assert (r = TheMetrics NABD_OK (Some (Metrics 2 0 2 2 16 32 100 2 0 0 0 0 0 0 0 0 0)) /\ m' = sample_two) as [Er ->].
  { revert E. vm_compute. by intros [= <- <-]. }
  pose proof (metrics_results a sample_two Hq r sample_two E) as Hok.
  rewrite Er in Hok |- *. split; [done|]. destruct Hok as [_ (z & [= <-] & Hz)]. exact Hz.
Defined.
