(* ===== verification/Examples.v ===== *)
(** * The example programs (src/examples/)

    [main] of simple_producer.c and of simple_consumer.c, whole: the calls into the
    library, the retry loops, everything they print.  A process is the operating system
    as it sees it, what it has written to its two streams, and the number of times it
    has been paused; other processes run between any two calls into the library and
    while it sleeps ([others]).  The variables a program does not initialise have
    arbitrary values ([msg0], [buf0], [stats0]). *)

From S2P Require Import Prelude Words Pow2 Memory Layout Fifo Queue Ring Posix Lifecycle Format.
Local Open Scope string_scope.
Local Open Scope Z_scope.

(** ** Processes *)

Record process := Process {
  p_sys : sys;
  p_stdout : list byte;
  p_stderr : list byte;
  p_pauses : nat
}.

Definition with_sys (s : sys) (p : process) : process :=
  Process s (p_stdout p) (p_stderr p) (p_pauses p).

(** When the other processes run. *)
Inductive pause := Between | Usleep (us : Z) | Sleep (sec : Z).

(** What surrounds a process. *)
Class Env := {
  strerror : Z -> list byte;
  getpid : Z;
  others : pause -> nat -> sys -> sys
}.

Abbreviation App := (ST process).

Definition lift {A} (c : IO A) : App A := fun p =>
  match c (p_sys p) with Some (x, s) => Some (x, with_sys s p) | None => None end.

(** A value that can be undefined. *)
Definition defined {A} (x : option A) : App A := fun p =>
  match x with Some x => Some (x, p) | None => None end.

Definition printf (ds : list directive) : App unit := fun p =>
  Some (tt, Process (p_sys p) (p_stdout p ++ render_all ds) (p_stderr p) (p_pauses p)).

(** [n++] on an [int] *)
Definition increment (n : Z) : App Z := defined (if int_ok (n + 1) then Some (n + 1) else None).

Section Programs.
Context {P : Posix} {E : Env}.
Context (msg0 buf0 : list byte) (stats0 : nabd_stats_t).

Definition paused (why : pause) : App unit := fun p =>
  Some (tt, Process (others why (p_pauses p) (p_sys p)) (p_stdout p) (p_stderr p) (S (p_pauses p))).

(** A call into the library. *)
Definition call {A} (c : IO A) : App A := paused Between;; lift c.

Definition on_queue {A} (q : nabd) (c : C A) : App A := call (on_map (default 0 (q_ctrl q)) c).

Definition perror (s : string) : App unit := fun p =>
  Some (tt, Process (p_sys p) (p_stdout p)
              (p_stderr p ++ render_all [Lit s; Lit ": "; Str (strerror (s_errno (p_sys p))); nl])
              (p_pauses p)).

(** ** What both programs have *)

Definition QUEUE_NAME : string := "/nabd_example".

(** The statistics both print before they finish. *)
Definition print_stats (q : nabd) : App unit :=
  '(ret, stats) ← on_queue q (nabd_stats (Some q) (Some stats0));
  if ret =? NABD_OK then
    let st := default stats0 stats in
    printf [nl; Lit "Queue stats:"; nl];;
    printf [Lit "  Head: "; Llu (s_head st); nl];;
    printf [Lit "  Tail: "; Llu (s_tail st); nl];;
    printf [Lit "  Used: "; Llu (s_used st); Lit "/"; Llu (s_capacity st); nl]
  else mret tt.

(** ** simple_producer.c *)

Definition NUM_MESSAGES : Z := 100.

Definition message_text (i : Z) : list directive :=
  [Lit "Message #"; Dec i; Lit " from producer (pid="; Dec getpid; Lit ")"].

(** Lines 43-47: only the first and the last five messages are shown. *)
Definition report_sent (i : Z) (msg : list byte) : App unit :=
  if (i <? 5) || (NUM_MESSAGES - 5 <=? i) then
    s ← defined (c_string msg);
    printf [Lit "["; Dec3 i; Lit "] Sent: "; Str s; nl]
  else if i =? 5 then printf [Lit "..."; nl] else mret tt.

(** Lines 35-55, with [i], [sent], [full_count] and [msg]; [None] is out of fuel. *)
Fixpoint send_loop (fuel : nat) (q : nabd) (i sent full : Z) (msg : list byte)
    : App (option (Z * Z)) :=
  match fuel with
  | O => mret None
  | S fuel =>
      if i <? NUM_MESSAGES then
        '(_, msg) ← defined (snprintf msg 128 (message_text i));
        s ← defined (c_string msg);
        ret ← on_queue q (nabd_push (Some q) (Some msg) (zlen s + 1));
        if ret =? NABD_OK then
          sent ← increment sent;
          report_sent i msg;;
          i ← increment i;
          send_loop fuel q i sent full msg
        else if ret =? NABD_FULL then
          full ← increment full;
          paused (Usleep 1000);;
          i ← increment (i - 1);
          send_loop fuel q i sent full msg
        else
          printf [Lit "["; Dec3 i; Lit "] Error: "; Lit (nabd_strerror ret); nl];;
          i ← increment i;
          send_loop fuel q i sent full msg
      else mret (Some (sent, full))
  end.

(** Lines 28-72, with the queue open: [Some] when the messages are sent. *)
Definition producer_run (fuel : nat) (q : nabd) : App (option unit) :=
  printf [Lit "Created queue: "; Lit QUEUE_NAME; nl];;
  printf [Lit "Sending "; Dec NUM_MESSAGES; Lit " messages..."; nl; nl];;
  r ← send_loop fuel q 0 0 0 msg0;
  match r with
  | None => mret None
  | Some (sent, full) =>
      printf [nl; Lit "Producer finished:"; nl];;
      printf [Lit "  Messages sent: "; Dec sent; nl];;
      printf [Lit "  Full events:   "; Dec full; nl];;
      print_stats q;;
      printf [nl; Lit "Producer sleeping for 5 seconds (start consumer now)..."; nl];;
      mret (Some tt)
  end.

(** Lines 18-72: [inl] is a return from [main], [inr] the open queue before the sleep. *)
Definition producer_start (fuel : nat) : App (option (Z + (Z * nabd))) :=
  printf [Lit "NABD Simple Producer"; nl];;
  printf [Lit "===================="; nl; nl];;
  q ← call (nabd_open (Some QUEUE_NAME) 1024 256 (Z.lor NABD_CREATE NABD_PRODUCER));
  match q with
  | None => perror "nabd_open";; mret (Some (inl 1))
  | Some (p, q) =>
      r ← producer_run fuel q;
      mret (match r with None => None | Some _ => Some (inr (p, q)) end)
  end.

(** Lines 76-80. *)
Definition producer_end (q : Z * nabd) : App Z :=
  call (nabd_close (Some q));;
  call (nabd_unlink (Some QUEUE_NAME));;
  printf [Lit "Queue cleaned up."; nl];;
  mret 0.

Definition producer_main (fuel : nat) : App (option Z) :=
  r ← producer_start fuel;
  match r with
  | None => mret None
  | Some (inl code) => mret (Some code)
  | Some (inr q) =>
      paused (Sleep 5);;
      code ← producer_end q;
      mret (Some code)
  end.

(** ** simple_consumer.c *)

Definition max_empty : Z := 1000.

(** Lines 43-47: the first five messages and every twentieth are shown. *)
Definition report_received (received len : Z) (buf : list byte) : App unit :=
  if (received <=? 5) || (received mod 20 =? 0) then
    s ← defined (c_string buf);
    printf [Lit "["; Dec3 received; Lit "] Received ("; Llu len; Lit " bytes): "; Str s; nl]
  else if received =? 6 then printf [Lit "..."; nl] else mret tt.

(** Lines 35-55, with [received], [empty_count] and [buf]; [None] is out of fuel. *)
Fixpoint receive_loop (fuel : nat) (q : nabd) (received empty : Z) (buf : list byte)
    : App (option Z) :=
  match fuel with
  | O => mret None
  | S fuel =>
      if empty <? max_empty then
        '(ret, buf', len) ← on_queue q (nabd_pop (Some q) (Some buf) (Some 256));
        let buf := default buf buf' in
        if ret =? NABD_OK then
          received ← increment received;
          report_received received (default 0 len) buf;;
          receive_loop fuel q received 0 buf
        else if ret =? NABD_EMPTY then
          empty ← increment empty;
          paused (Usleep 1000);;
          receive_loop fuel q received empty buf
        else
          printf [Lit "Error: "; Lit (nabd_strerror ret); nl];;
          mret (Some received)
      else mret (Some received)
  end.

(** Lines 27-68, with the queue open. *)
Definition consumer_run (fuel : nat) (q : nabd) : App (option unit) :=
  printf [Lit "Connected to queue: "; Lit QUEUE_NAME; nl; nl];;
  r ← receive_loop fuel q 0 0 buf0;
  match r with
  | None => mret None
  | Some received =>
      printf [nl; Lit "Consumer finished:"; nl];;
      printf [Lit "  Messages received: "; Dec received; nl];;
      print_stats q;;
      mret (Some tt)
  end.

(** Lines 16-73. *)
Definition consumer_main (fuel : nat) : App (option Z) :=
  printf [Lit "NABD Simple Consumer"; nl];;
  printf [Lit "===================="; nl; nl];;
  q ← call (nabd_open (Some QUEUE_NAME) 0 0 NABD_CONSUMER);
  match q with
  | None =>
      perror "nabd_open";;
      printf [Lit "Make sure producer is running first!"; nl];;
      mret (Some 1)
  | Some (p, q) =>
      r ← consumer_run fuel q;
      match r with
      | None => mret None
      | Some _ =>
          call (nabd_close (Some (p, q)));;
          printf [Lit "Done."; nl];;
          mret (Some 0)
      end
  end.

(** ** The two programs together *)

(** A program run by another process: it starts without descriptors, mappings or heap,
    and shares the names and the objects; what the system refuses it is counted with the
    rest. *)
Definition elsewhere {A} (c : App A) : App (A * list byte) := fun p =>
  let s := p_sys p in
  match c (Process (Sys (s_shm s) (s_obj s) ∅ ∅ ∅ 0 (s_refused s)) [] [] 0) with
  | Some (x, p') =>
      let s' := p_sys p' in
      Some ((x, p_stdout p'),
            with_sys (Sys (s_shm s') (s_obj s') (s_fd s) (s_map s) (s_heap s) (s_errno s) (s_refused s')) p)
  | None => None
  end.

(** "start consumer now": the consumer runs while the producer sleeps.  The exit code of
    the producer, and the consumer's with its output if it was started. *)
Definition session (fuel1 fuel2 : nat) : App (option (Z * option (option Z * list byte))) :=
  r ← producer_start fuel1;
  match r with
  | None => mret None
  | Some (inl code) => mret (Some (code, None))
  | Some (inr q) =>
      c ← elsewhere (consumer_main fuel2);
      code ← producer_end q;
      mret (Some (code, Some c))
  end.

End Programs.
