(* ===== verification/ExamplesCorrect.v ===== *)
(** * The example programs: correctness

    The theorems about Examples.v: the producer sends its hundred messages whatever
    the consumers do, the consumer receives what is there, and the two together. *)

From S2P Require Import Prelude Words Pow2 Memory Layout Fifo Queue Ring Sample Posix Lifecycle LifecycleCorrect Format Examples.
Local Open Scope string_scope.
Local Open Scope list_scope.
Local Open Scope Z_scope.

(** ** Rules for processes *)

(** Two states of the operating system in which the process has the same resources and
    the same names. *)
Definition same_view (s s' : sys) : Prop :=
  s_shm s' = s_shm s /\ s_fd s' = s_fd s /\ s_map s' = s_map s /\ s_heap s' = s_heap s.

(** The other processes leave the process alone and change what it has mapped by [R]. *)
Definition disturbs (R : mem -> mem -> Prop) (s s' : sys) : Prop :=
  same_view s s' /\ forall a m, window s a = Some m -> exists m', window s' a = Some m' /\ R m m'.

(** [p'] comes after [p], with [out] written to standard output in between. *)
Definition continues (out : list byte) (p p' : process) : Prop :=
  same_view (p_sys p) (p_sys p') /\ p_stdout p' = p_stdout p ++ out /\ p_stderr p' = p_stderr p.

Lemma continues_refl p : continues [] p p.
Proof. split; [done|]. by rewrite app_nil_r. Qed.

Lemma continues_trans o1 o2 p1 p2 p3 :
  continues o1 p1 p2 -> continues o2 p2 p3 -> continues (o1 ++ o2) p1 p3.
Proof.
  intros ((? & ? & ? & ?) & Ho1 & ?) ((? & ? & ? & ?) & Ho2 & ?).
  split; [repeat split; congruence|]. by rewrite app_assoc, <- Ho1, <- Ho2; split; [|congruence].
Qed.

Lemma wp_defined {A} (x : option A) v p (Q : A -> process -> Prop) :
  x = Some v -> Q v p -> wp (defined x) p Q.
Proof. intros -> HQ. by exists v, p. Qed.

Lemma wp_increment n p (Q : Z -> process -> Prop) :
  - 2 ^ 31 <= n + 1 < 2 ^ 31 -> Q (n + 1) p -> wp (increment n) p Q.
Proof.
  intros Hn HQ. unfold increment, int_ok. zb_true (- 2 ^ 31 <=? n + 1).
  zb_true (n + 1 <? 2 ^ 31). by eapply wp_defined.
Qed.

Lemma wp_printf ds p (Q : unit -> process -> Prop) :
  (forall p', continues (render_all ds) p p' -> p_sys p' = p_sys p -> Q tt p') ->
  wp (printf ds) p Q.
Proof. intros HQ. eexists tt, _. split; [reflexivity|]. apply HQ; done. Qed.

Lemma wp_lift {A} (c : IO A) p (Q : A -> process -> Prop) :
  wp c (p_sys p) (fun x s => Q x (with_sys s p)) -> wp (lift c) p Q.
Proof. intros (x & s & Hc & HQ). exists x, (with_sys s p). unfold lift. by rewrite Hc. Qed.

(** A computation on the mapping at [a]. *)
Lemma wp_on_map_window {A} a (c : C A) s m x m' (Q : A -> sys -> Prop) :
  window s a = Some m -> keeps_len c -> c m = Some (x, m') ->
  (forall s', same_view s s' -> window s' a = Some m' -> Q x s') -> wp (on_map a c) s Q.
Proof.
  unfold window. intros Hw Hk Hc HQ. destruct (s_map s !! a) as [[o len]|] eqn:Em; [|done].
  destruct (s_obj s !! o) as [b|] eqn:Eb; [|done]. injection Hw as <-.
  eapply wp_on_map; [done..|]. apply HQ; [done|].
  apply Hk in Hc. unfold window, zlen in *. simpl. rewrite Em, lookup_insert_eq. simpl. f_equal.
  rewrite length_take in Hc. rewrite take_app. rewrite take_ge by lia.
  replace (take _ (drop _ b)) with (@nil byte); [apply app_nil_r|].
  destruct (decide (Z.to_nat len <= length b)%nat).
  - by replace (Z.to_nat len - length m')%nat with 0%nat by lia.
  - by rewrite drop_ge, take_nil by lia.
Qed.

Section Rules.
Context {P : Posix} {E : Env}.
Context (R : mem -> mem -> Prop).
Context (HE : forall why n s, disturbs R s (others why n s)).

Lemma wp_paused why a m p (Q : unit -> process -> Prop) :
  window (p_sys p) a = Some m ->
  (forall p' m', continues [] p p' -> window (p_sys p') a = Some m' -> R m m' -> Q tt p') ->
  wp (paused why) p Q.
Proof.
  intros Hw HQ. destruct (HE why (p_pauses p) (p_sys p)) as [Hs Hm].
  destruct (Hm a m Hw) as (m' & Hw' & HR). eexists tt, _. split; [reflexivity|].
  eapply HQ; [|exact Hw'|exact HR]. split; [exact Hs|]. simpl. by rewrite app_nil_r.
Qed.

(** A call on the open queue [q]: the others may have changed its memory by [R] first. *)
Lemma wp_on_queue {A} (q : nabd) a (c : C A) p m (Q : A -> process -> Prop) :
  q_ctrl q = Some a -> window (p_sys p) a = Some m -> keeps_len c ->
  (forall m1, R m m1 -> exists x m2, c m1 = Some (x, m2) /\
     forall p2, continues [] p p2 -> window (p_sys p2) a = Some m2 -> Q x p2) ->
  wp (on_queue q c) p Q.
Proof.
  intros Hq Hw Hk HQ. unfold on_queue, call. rewrite Hq. simpl. apply wp_bind.
  eapply wp_paused; [exact Hw|]. intros p1 m1 Hc Hw1 HR.
  destruct (HQ m1 HR) as (x & m2 & Hc2 & HQ2).
  apply wp_lift. eapply wp_on_map_window; [exact Hw1|exact Hk|exact Hc2|].
  intros s' Hs Hw'. apply HQ2; [|exact Hw'].
  destruct Hc as (H1 & H2 & H3). split; [|split; [exact H2|exact H3]].
  destruct H1 as (? & ? & ? & ?), Hs as (? & ? & ? & ?). repeat split; simpl; congruence.
Qed.
End Rules.

(** Output in the middle of a run that started at [p0]. *)
Lemma wp_say out ds p0 p (Q : unit -> process -> Prop) :
  continues out p0 p ->
  (forall p', continues (out ++ render_all ds) p0 p' -> p_sys p' = p_sys p -> Q tt p') ->
  wp (printf ds) p Q.
Proof. intros Hc HQ. apply wp_printf. intros p' Hp Hs. apply HQ; [by eapply continues_trans|done]. Qed.

(** Two lines of text that do not call the system. *)
Lemma wp_banner {A} ds1 ds2 (k : App A) p (Q : A -> process -> Prop) :
  (forall p', continues (render_all (ds1 ++ ds2)) p p' -> p_sys p' = p_sys p ->
     p_pauses p' = p_pauses p -> wp k p' Q) ->
  wp (printf ds1;; printf ds2;; k) p Q.
Proof.
  intros HQ. apply wp_bind. eexists tt, _. split; [reflexivity|]. apply wp_bind. eexists tt, _.
  split; [reflexivity|]. apply HQ; [|done..]. split; [done|]. split; [|done]. simpl.
  unfold render_all. by rewrite map_app, concat_app, app_assoc.
Qed.

Definition stats_text (head tail used capacity : Z) : list byte :=
  render_all [nl; Lit "Queue stats:"; nl; Lit "  Head: "; Llu head; nl;
              Lit "  Tail: "; Llu tail; nl; Lit "  Used: "; Llu used; Lit "/"; Llu capacity; nl].

(** Opening the queue, for a program that prints [out] before. *)
Lemma wp_open_call {P : Posix} {E : Env} {A} name capacity slot_size flags out p0 p
    (k : option (Z * nabd) -> App A) (Q : A -> process -> Prop) :
  continues out p0 p ->
  wp (nabd_open name capacity slot_size flags) (others Between (p_pauses p) (p_sys p)) (fun r s' =>
     forall p', p_sys p' = s' -> p_stdout p' = p_stdout p0 ++ out -> p_stderr p' = p_stderr p0 ->
                wp (k r) p' Q) ->
  wp (q ← call (nabd_open name capacity slot_size flags); k q) p Q.
Proof.
  intros (_ & Ho & He) Hk. apply wp_bind. unfold call. apply wp_bind.
  eexists tt, _. split; [reflexivity|]. apply wp_lift. simpl.
  eapply wp_mono; [exact Hk|]. intros r s' H. by apply H.
Qed.

(** Closing never fails and prints nothing. *)
Lemma nabd_close_defined {P : Posix} q s : wp (nabd_close (Some q)) s (fun _ _ => True).
Proof.
  destruct q as [p h]. unfold nabd_close, free_handle. apply wp_bind.
  destruct (q_ctrl h); [apply wp_do|apply wp_ret]; apply wp_bind;
    (destruct (0 <=? q_fd h); [apply wp_do|apply wp_ret]);
    by apply wp_bind, wp_bind, wp_do, wp_do, wp_ret.
Qed.

Lemma wp_close_call {P : Posix} {E : Env} q p (Q : Z -> process -> Prop) :
  (forall x p', p_stdout p' = p_stdout p -> p_stderr p' = p_stderr p -> Q x p') ->
  wp (call (nabd_close (Some q))) p Q.
Proof.
  intros HQ. unfold call. apply wp_bind. eexists tt, _. split; [reflexivity|]. apply wp_lift.
  eapply wp_mono; [apply nabd_close_defined|]. intros x s _. by apply HQ.
Qed.

Lemma wp_unlink_call {P : Posix} {E : Env} name p (Q : Z -> process -> Prop) :
  (forall x p', p_stdout p' = p_stdout p -> Q x p') ->
  wp (call (nabd_unlink (Some name))) p Q.
Proof.
  intros HQ. unfold call. apply wp_bind. eexists tt, _. split; [reflexivity|]. apply wp_lift.
  unfold nabd_unlink. apply wp_bind, wp_call, wp_ret. by apply HQ.
Qed.

Lemma producer_end_run {P : Posix} {E : Env} q p :
  wp (producer_end q) p (fun code p' =>
    code = 0 /\ p_stdout p' = p_stdout p ++ render_all [Lit "Queue cleaned up."; nl]).
Proof.
  unfold producer_end. apply wp_bind. apply wp_close_call. intros _ p1 Ho1 _. apply wp_bind.
  apply wp_unlink_call. intros _ p2 Ho2. apply wp_bind, wp_printf. intros p3 (_ & Ho3 & _) _.
  apply wp_ret. by rewrite Ho3, Ho2, Ho1.
Qed.

(** A program of another process, started on the same names and objects. *)
Lemma wp_elsewhere {A} (c : App A) p (Q1 : A -> list byte -> nat -> Prop)
    (Q : A * list byte -> process -> Prop) :
  wp c (Process (Sys (s_shm (p_sys p)) (s_obj (p_sys p)) ∅ ∅ ∅ 0 (s_refused (p_sys p))) [] [] 0)
    (fun x p' => Q1 x (p_stdout p') (s_refused (p_sys p'))) ->
  (forall x out p', p_stdout p' = p_stdout p -> Q1 x out (s_refused (p_sys p')) -> Q (x, out) p') ->
  wp (elsewhere c) p Q.
Proof.
  intros (x & p' & Hc & Hx) HQ. unfold wp, elsewhere. rewrite Hc. eexists _, _.
  split; [reflexivity|]. by apply HQ.
Qed.

(** Print next, in a run whose output so far is in [H]. *)
Ltac say H Hs :=
  apply wp_bind; eapply wp_say; [exact H|]; clear H; intros ? H Hs.
Tactic Notation "say" hyp(H) "as" ident(Hs) := say H Hs.

(** Two ways to write one text. *)
Ltac flat_text :=
  unfold stats_text, render_all; cbn [map concat];
  repeat first [rewrite <- app_assoc | rewrite app_nil_l | rewrite app_nil_r]; reflexivity.

Lemma continues_out out out' p p' : continues out p p' -> out = out' -> continues out' p p'.
Proof. by intros ? <-. Qed.

Lemma render_all_app ds ds' : render_all (ds ++ ds') = render_all ds ++ render_all ds'.
Proof. unfold render_all. by rewrite map_app, concat_app. Qed.

(** The statistics of the queue as the others left it. *)
Lemma print_stats_run {P : Posix} {E : Env} (R : mem -> mem -> Prop)
    (HE : forall why n s, disturbs R s (others why n s)) stats0 q a p m (Q : unit -> process -> Prop) :
  q_ctrl q = Some a -> window (p_sys p) a = Some m ->
  (forall m1, R m m1 -> exists k H T ms, ring q k H T ms m1 /\
     forall p', continues (stats_text (u64 H) (u64 T) (zlen ms) (q_capacity q)) p p' ->
                window (p_sys p') a = Some m1 -> Q tt p') ->
  wp (print_stats stats0 q) p Q.
Proof.
  intros Hq Hw HQ. unfold print_stats. apply wp_bind.
  eapply (wp_on_queue R HE); [exact Hq|exact Hw|auto with nabd|].
  intros m1 HR. destruct (HQ m1 HR) as (k & H & T & ms & Rg & HQ1).
  eexists _, _. split; [by eapply stats_run|]. intros p1 Hc1 Hw1. cbn.
  apply wp_bind. eapply wp_say; [exact Hc1|]. intros p2 Hc2 Hs2.
  apply wp_bind. eapply wp_say; [exact Hc2|]. intros p3 Hc3 Hs3.
  apply wp_bind. eapply wp_say; [exact Hc3|]. intros p4 Hc4 Hs4.
  eapply wp_say; [exact Hc4|]. intros p5 Hc5 Hs5.
  apply HQ1; [|by rewrite Hs5, Hs4, Hs3, Hs2]. eapply continues_out; [exact Hc5|].
  by rewrite <- !app_assoc, <- !render_all_app.
Qed.

(** ** The texts *)

Section Texts.
Context {E : Env}.

Definition message (i : Z) : msg := render_all (message_text i) ++ [Byte.x00].
Definition messages (n : Z) : list msg := map message (seqZ 0 n).

(** What lines 43-47 of simple_producer.c print. *)
Definition sent_line (i : Z) : list byte :=
  if (i <? 5) || (NUM_MESSAGES - 5 <=? i)
  then render_all [Lit "["; Dec3 i; Lit "] Sent: "; Str (render_all (message_text i)); nl]
  else if i =? 5 then render_all [Lit "..."; nl] else [].

(** What the producer prints before it opens the queue, and from there until it sleeps,
    when [tail] messages were taken. *)
Definition producer_banner : list byte :=
  render_all [Lit "NABD Simple Producer"; nl; Lit "===================="; nl; nl].

Definition producer_progress (tail : Z) : list byte :=
  render_all [Lit "Created queue: "; Lit QUEUE_NAME; nl;
              Lit "Sending "; Dec NUM_MESSAGES; Lit " messages..."; nl; nl] ++
  concat (map sent_line (seqZ 0 NUM_MESSAGES)) ++
  render_all [nl; Lit "Producer finished:"; nl; Lit "  Messages sent: "; Dec NUM_MESSAGES; nl;
              Lit "  Full events:   "; Dec 0; nl] ++
  stats_text NUM_MESSAGES tail (NUM_MESSAGES - tail) 1024 ++
  render_all [nl; Lit "Producer sleeping for 5 seconds (start consumer now)..."; nl].

Definition producer_report (tail : Z) : list byte := producer_banner ++ producer_progress tail.

(** What lines 43-47 of simple_consumer.c print for the message [d], the [n]th. *)
Definition received_line (n : Z) (d : msg) : list byte :=
  if (n <=? 5) || (n mod 20 =? 0)
  then render_all [Lit "["; Dec3 n; Lit "] Received ("; Llu (zlen d); Lit " bytes): ";
                   Str (default [] (c_string d)); nl]
  else if n =? 6 then render_all [Lit "..."; nl] else [].

Fixpoint received_lines (n : Z) (ds : list msg) : list byte :=
  match ds with
  | [] => []
  | d :: ds => received_line (n + 1) d ++ received_lines (n + 1) ds
  end.

Definition consumer_banner : list byte :=
  render_all [Lit "NABD Simple Consumer"; nl; Lit "===================="; nl; nl].

Definition consumer_progress (ds : list msg) (head capacity : Z) : list byte :=
  render_all [Lit "Connected to queue: "; Lit QUEUE_NAME; nl; nl] ++
  received_lines 0 ds ++
  render_all [nl; Lit "Consumer finished:"; nl; Lit "  Messages received: "; Dec (zlen ds); nl] ++
  stats_text head head 0 capacity.

Definition consumer_report (ds : list msg) (head capacity : Z) : list byte :=
  consumer_banner ++ consumer_progress ds head capacity ++ render_all [Lit "Done."; nl].

(** ** Lemmas on the texts *)

Lemma zlen_digits fuel n : zlen (digits fuel n) <= Z.of_nat fuel.
Proof.
  revert n. induction fuel as [|fuel IH]; intros n; [done|]. cbn [digits].
  rewrite zlen_app. change (zlen [digit (n mod 10)]) with 1.
  case_zb; [change (zlen (@nil byte)) with 0; lia|]. specialize (IH (n / 10)). lia.
Qed.

Lemma zlen_print_int n : zlen (print_int n) <= 21.
Proof.
  unfold print_int. case_zb.
  - pose proof (zlen_digits 20 (- n)) as H. unfold zlen in *. cbn [length]. lia.
  - pose proof (zlen_digits 20 n). lia.
Qed.

Abbreviation no_nul := (Forall (fun b => b <> Byte.x00)).

Lemma digit_no_nul d : 0 <= d < 10 -> digit d <> Byte.x00.
Proof. intros Hd E0. apply digit_value_digit in Hd. by rewrite E0 in Hd. Qed.

Lemma digits_no_nul fuel n : no_nul (digits fuel n).
Proof.
  revert n. induction fuel as [|fuel IH]; intros n; [constructor|]. cbn [digits].
  apply Forall_app. split; [case_zb; [constructor|apply IH]|].
  apply Forall_singleton, digit_no_nul, Z.mod_pos_bound. lia.
Qed.

Lemma print_int_no_nul n : no_nul (print_int n).
Proof. unfold print_int. case_zb; [constructor; [done|]|]; apply digits_no_nul. Qed.

Lemma message_text_spec i :
  no_nul (render_all (message_text i)) /\ 0 <= zlen (render_all (message_text i)) < 127.
Proof.
  unfold message_text, render_all. cbn [map concat render]. rewrite app_nil_r. split.
  - repeat (apply Forall_app; split); try apply print_int_no_nul;
      (apply (bool_decide_unpack _); vm_compute; exact I).
  - rewrite !zlen_app. pose proof (zlen_print_int i). pose proof (zlen_print_int getpid).
    pose proof (zlen_nonneg (print_int i)). pose proof (zlen_nonneg (print_int getpid)).
    repeat match goal with |- context [zlen (String.list_byte_of_string ?s)] =>
      let n := eval vm_compute in (zlen (String.list_byte_of_string s)) in
      change (zlen (String.list_byte_of_string s)) with n end. lia.
Qed.

Lemma c_string_text t rest : no_nul t -> c_string (t ++ Byte.x00 :: rest) = Some t.
Proof.
  induction 1 as [|b t Hb Ht IH]; cbn [app c_string]; [by rewrite decide_True|].
  rewrite decide_False by done. by rewrite IH.
Qed.

(** The message [snprintf] leaves in the array. *)
Lemma snprintf_message buf i :
  zlen buf = 128 -> exists n buf', snprintf buf 128 (message_text i) = Some (n, buf') /\
    zlen buf' = 128 /\ c_string buf' = Some (render_all (message_text i)) /\
    take (Z.to_nat (zlen (render_all (message_text i)) + 1)) buf' = message i.
Proof.
  intros Hb. destruct (message_text_spec i) as [Hnul Hlen].
  destruct (snprintf_run buf 128 (message_text i)) as [Hs Ho]; [lia|].
  rewrite take_ge in Hs, Ho by (unfold zlen in Hlen; lia). cbv zeta in *.
  eexists _, _. split; [exact Hs|]. unfold message. set (t := render_all (message_text i)) in *.
  split; [rewrite zlen_splice; lia|]. unfold splice. change (Z.to_nat 0) with O.
  rewrite take_0. change ([] ++ ?l) with l. split.
  - rewrite <- app_assoc. by apply c_string_text.
  - replace (Z.to_nat (zlen t + 1)) with (length (t ++ [Byte.x00])); [apply take_app_length|].
    rewrite length_app. unfold zlen. cbn [length]. lia.
Qed.

Lemma messages_snoc n : 0 <= n -> messages (n + 1) = messages n ++ [message n].
Proof. intros Hn. unfold messages. rewrite seqZ_app by lia. by rewrite map_app. Qed.

Lemma length_messages n : length (messages n) = Z.to_nat n.
Proof. unfold messages. rewrite length_map. apply length_seqZ. Qed.
End Texts.

Arguments sent_line : simpl never.
Arguments producer_progress : simpl never.
Arguments consumer_progress : simpl never.


(** ** The producer *)

(** Consumers take messages from the front, if [taken], or not at all. *)
Definition pops (taken : bool) (m m' : mem) : Prop :=
  forall q k H T ms, ring q k H T ms m ->
  exists T', T <= T' <= H /\ (taken = false -> T' = T) /\ ring q k H T' (drop (Z.to_nat (T' - T)) ms) m'.

(** The process has the queue [q] mapped, with [ms] at positions [T..H-1]. *)
Definition queue_at (q : nabd) (k H T : Z) (ms : list msg) (p : process) : Prop :=
  exists a m, q_ctrl q = Some a /\ window (p_sys p) a = Some m /\ ring q k H T ms m.

Section Producer.
Context {P : Posix} {L : PosixLaws P} {E : Env}.
Context (taken : bool) (HE : forall why n s, disturbs (pops taken) s (others why n s)).
Implicit Types (q : nabd) (p : process).

(** The messages sent so far, of which [T] have been taken. *)
Definition sending q (i : Z) p : Prop :=
  exists T, 0 <= T /\ (taken = false -> T = 0) /\ queue_at q 10 i T (drop (Z.to_nat T) (messages i)) p.

Lemma report_sent_run i buf p (Q : unit -> process -> Prop) :
  c_string buf = Some (render_all (message_text i)) ->
  (forall p', continues (sent_line i) p p' -> p_sys p' = p_sys p -> Q tt p') ->
  wp (report_sent i buf) p Q.
Proof.
  intros Hs HQ. unfold report_sent, sent_line in *. destruct (_ || _).
  - apply wp_bind. eapply wp_defined; [exact Hs|]. by apply wp_printf.
  - destruct (i =? 5); [by apply wp_printf|]. apply wp_ret, HQ; [apply continues_refl|done].
Qed.

(** One push: there is room, because fewer messages were sent than there are slots. *)
Lemma send_push q i buf p (Q : Z -> process -> Prop) :
  q_capacity q = 1024 -> q_slot_size q = 256 -> 0 <= i < 1024 -> sending q i p -> zlen buf = 128 ->
  take (Z.to_nat (zlen (render_all (message_text i)) + 1)) buf = message i ->
  (forall p', continues [] p p' -> sending q (i + 1) p' -> Q NABD_OK p') ->
  wp (on_queue q (nabd_push (Some q) (Some buf) (zlen (render_all (message_text i)) + 1))) p Q.
Proof.
  intros Hc Hss Hi (T & HT & HT0 & a & m & Hq & Hw & R) Hbuf Hmsg HQ.
  pose proof (message_text_spec i) as [_ Hlen]. set (len := zlen (render_all (message_text i))) in *.
  eapply (wp_on_queue (pops taken) HE); [exact Hq|exact Hw|auto with nabd|].
  intros m1 HR. destruct (HR _ _ _ _ _ R) as (T' & HT' & HT0' & R1).
  rewrite drop_drop in R1. replace (_ + _)%nat with (Z.to_nat T') in R1 by lia.
  pose proof (r_count _ _ _ _ _ _ R1).
  destruct (push_ok q 10 i T' _ m1 R1 buf (len + 1)) as (m2 & Hp & R2);
    [lia|unfold SIZEOF_HEADER; lia|lia|].
  exists (NABD_OK : Z), m2. split; [exact Hp|]. intros p2 Hcont Hw2. apply HQ; [done|].
  exists T'. split; [lia|]. split; [intros Hi0; specialize (HT0 Hi0); specialize (HT0' Hi0); lia|]. exists a, m2. split; [done|]. split; [done|].
  rewrite u16_small, Hmsg in R2 by lia. rewrite messages_snoc by lia.
  rewrite drop_app_le; [done|]. rewrite length_messages. lia.
Qed.

Lemma send_loop_run q n : q_capacity q = 1024 -> q_slot_size q = 256 ->
  forall i fuel buf p,
  0 <= i -> i + Z.of_nat n = NUM_MESSAGES -> (n < fuel)%nat -> zlen buf = 128 -> sending q i p ->
  wp (send_loop fuel q i i 0 buf) p (fun r p' =>
    r = Some (NUM_MESSAGES, 0) /\ continues (concat (map sent_line (seqZ i (Z.of_nat n)))) p p' /\
    sending q NUM_MESSAGES p').
Proof.
  intros Hc Hss. unfold NUM_MESSAGES.
  induction n as [|n IH]; intros i fuel buf p Hi Hn Hf Hb Hsend; (destruct fuel as [|fuel]; [lia|]).
  - cbn [send_loop]. unfold NUM_MESSAGES. zb_false (i <? 100). apply wp_ret.
    replace i with 100 in * by lia. split; [done|]. split; [apply continues_refl|done].
  - cbn [send_loop]. unfold NUM_MESSAGES. zb_true (i <? 100).
    destruct (snprintf_message buf i Hb) as (x & buf' & Hs & Hb' & Hstr & Htake).
    apply wp_bind. eapply wp_defined; [exact Hs|]. apply wp_bind. eapply wp_defined; [exact Hstr|].
    apply wp_bind. eapply send_push; [done|done|lia|done|done|exact Htake|].
    intros p1 Hc1 Hs1. cbn. apply wp_bind, wp_increment; [lia|].
    apply wp_bind. apply report_sent_run; [exact Hstr|]. intros p2 Hc2 Hsys.
    apply wp_bind, wp_increment; [lia|].
    eapply wp_mono; [apply (IH (i + 1) fuel buf' p2); try lia|].
    + destruct Hs1 as (T & ? & ? & a & m & ? & ? & ?). exists T. split; [done|]. split; [done|]. exists a, m.
      by rewrite Hsys.
    + intros r p3 (-> & Hc3 & Hs3). split; [done|]. split; [|done].
      rewrite Nat2Z.inj_succ, seqZ_cons by lia. cbn [map concat].
      replace (Z.pred (Z.succ (Z.of_nat n))) with (Z.of_nat n) by lia.
      eapply continues_trans; [|exact Hc3].
      change (sent_line i) with ([] ++ sent_line i). by eapply continues_trans.
Qed.

(** The queue of a process that is [continues]-related has its names and mappings. *)
Lemma sending_segment out q p1 p2 T i a o len :
  continues out p1 p2 -> q_ctrl q = Some a -> s_map (p_sys p1) !! a = Some (o, len) ->
  queue_at q 10 i T (drop (Z.to_nat T) (messages i)) p2 ->
  exists b, s_obj (p_sys p2) !! o = Some b /\ ring q 10 i T (drop (Z.to_nat T) (messages i)) b.
Proof.
  intros ((_ & _ & Hm & _) & _) Hq Ha (a' & m & Hq' & Hw & R). rewrite Hq in Hq'.
  injection Hq' as <-. unfold window in Hw. rewrite Hm, Ha in Hw.
  destruct (s_obj (p_sys p2) !! o) as [b|] eqn:Eb; [|done]. injection Hw as <-.
  exists b. split; [done|]. by eapply ring_untake.
Qed.

(** The producer from the open queue to its sleep. *)
Lemma producer_run_spec stats0 fuel q buf p :
  q_capacity q = 1024 -> q_slot_size q = 256 -> zlen buf = 128 -> (100 < fuel)%nat ->
  sending q 0 p ->
  wp (producer_run buf stats0 fuel q) p (fun r p' => r = Some tt /\
    exists T, 0 <= T <= NUM_MESSAGES /\ (taken = false -> T = 0) /\ continues (producer_progress T) p p' /\
    queue_at q 10 NUM_MESSAGES T (drop (Z.to_nat T) (messages NUM_MESSAGES)) p').
Proof.
  intros Hc Hs Hb Hf Hsend. unfold producer_run. pose proof (continues_refl p) as Hp.
  assert (sending q 0 p -> forall p', p_sys p' = p_sys p -> sending q 0 p') as Hkeep
    by (unfold sending, queue_at; intros ? p' ->; done).
  say Hp as H1. say Hp as H2. apply wp_bind. eapply wp_mono.
  { apply (send_loop_run q 100 Hc Hs 0 fuel buf); try done. apply Hkeep; [done|congruence]. }
  intros r p3 (-> & Hc3 & (T & HT & HT0 & a & m & Hq & Hw & R)). pose proof (continues_trans _ _ _ _ _ Hp Hc3) as Hp3.
  cbn. clear Hp Hc3. say Hp3 as H3. say Hp3 as H4. say Hp3 as H5. apply wp_bind.
  eapply (print_stats_run (pops taken) HE); [exact Hq|rewrite H5, H4, H3; exact Hw|].
  intros m1 HR. destruct (HR _ _ _ _ _ R) as (T' & HT' & HT0' & R1).
  rewrite drop_drop in R1. replace (_ + _)%nat with (Z.to_nat T') in R1 by lia.
  eexists _, _, _, _. split; [exact R1|]. intros p6 Hc6 Hw6.
  pose proof (continues_trans _ _ _ _ _ Hp3 Hc6) as Hp6. clear Hp3 Hc6.
  say Hp6 as H7. apply wp_ret. split; [done|]. exists T'. split; [lia|].
  split; [intros Hi; specialize (HT0 Hi); specialize (HT0' Hi); lia|].
  split; [|by exists a, m1; rewrite H7]. eapply continues_out; [exact Hp6|].
  rewrite (r_count _ _ _ _ _ _ R1), Hc, !u64_small by (unfold NUM_MESSAGES in *; lia).
  unfold producer_progress. change (Z.of_nat 100) with NUM_MESSAGES. flat_text.
Qed.

Lemma producer_start_spec stats0 fuel buf p :
  zlen buf = 128 -> (100 < fuel)%nat ->
  wp (producer_start buf stats0 fuel) p (fun r p' =>
    match r with
    | None => False
    | Some (inl code) => code = 1 /\ refusal (others Between (p_pauses p) (p_sys p)) (p_sys p') /\
        p_stdout p' = p_stdout p ++ producer_banner
    | Some (inr (_, q)) => exists T o b, 0 <= T <= NUM_MESSAGES /\ (taken = false -> T = 0) /\
        p_stdout p' = p_stdout p ++ producer_report T /\ p_stderr p' = p_stderr p /\
        s_shm (p_sys p') !! QUEUE_NAME = Some o /\ s_obj (p_sys p') !! o = Some b /\
        q_capacity q = 1024 /\ q_slot_size q = 256 /\
        ring q 10 NUM_MESSAGES T (drop (Z.to_nat T) (messages NUM_MESSAGES)) b
    end).
Proof.
  intros Hb Hf. unfold producer_start. apply wp_banner. intros p0 Hp Hs0 Hn0.
  eapply wp_open_call; [exact Hp|]. rewrite Hs0, Hn0. apply wp_open; [by left| |done|].
  { intros s' Hr p1 Hs1 Ho _. apply wp_bind. eexists tt, _. split; [reflexivity|].
    apply wp_ret. simpl. by rewrite Hs1. }
  intros ptr nm fd s1 _ _ Href (o & Ho & Hn & _).
  change (if has_flag _ NABD_CREATE then ?x else _) with x.
  change (effective_capacity 1024) with (2 ^ 10). change (effective_slot_size 256) with 256.
  eapply wp_mono; [apply open_create_ring; [lia|unfold SIZEOF_HEADER; lia|done|by exists o]|].
  intros [[pp q]|] s' Hr p1 Hs' Ho1 He1.
  2: { apply wp_bind. eexists tt, _. split; [reflexivity|]. apply wp_ret. simpl. rewrite Hs'.
    unfold refusal, no_refusal in *. split_and!; [done| |done]. lia. }
  destruct Hr as (a & w & Hq & Hw & R & Hc & Hss & _ & _ & Hn' & o' & Ho' & Hm).
  rewrite Ho in Ho'. injection Ho' as <-. subst s'. apply wp_bind.
  eapply wp_mono; [apply (producer_run_spec stats0 fuel q buf p1); try done|].
  { exists 0. split; [done|]. split; [done|]. by exists a, w. }
  intros r p2 (-> & T & HT & HT0 & Hcont & Hat). apply wp_ret.
  destruct (sending_segment _ _ _ _ _ _ _ _ _ Hcont Hq Hm Hat) as (b & Hob & Rb).
  destruct Hcont as ((Hshm & _) & Hout & Herr). exists T, o, b. split_and!; try done; try lia.
  - rewrite Hout, Ho1. by rewrite <- app_assoc.
  - congruence.
  - rewrite Hshm, Hn'. exact Hn.
Qed.
End Producer.

(** ** The consumer *)

Lemma c_string_app d rest t : c_string d = Some t -> c_string (d ++ rest) = Some t.
Proof.
  revert t. induction d as [|b d IH]; intros t; cbn [app c_string]; [done|].
  case_decide; [done|]. intros (t' & Ht & ->)%fmap_Some. by rewrite (IH t' Ht).
Qed.

Lemma c_string_splice buf d t : c_string d = Some t -> c_string (splice buf 0 d) = Some t.
Proof. intros Hd. unfold splice. change (Z.to_nat 0) with O. rewrite take_0, app_nil_l. by apply c_string_app. Qed.

Section Consumer.
Context {P : Posix} {L : PosixLaws P} {E : Env}.
Context (HI : forall why n s, others why n s = s).
Implicit Types (q : nabd) (p : process).

Lemma idle_disturbs why n s : disturbs eq s (others why n s).
Proof. rewrite HI. split; [done|]. eauto. Qed.

Lemma report_received_run n d buf t p (Q : unit -> process -> Prop) :
  c_string d = Some t -> c_string buf = Some t ->
  (forall p', continues (received_line n d) p p' -> p_sys p' = p_sys p -> Q tt p') ->
  wp (report_received n (zlen d) buf) p Q.
Proof.
  intros Hd Hb HQ. unfold report_received, received_line in *. rewrite Hd in HQ. simpl in HQ.
  destruct (_ || _).
  - apply wp_bind. eapply wp_defined; [exact Hb|]. by apply wp_printf.
  - destruct (n =? 6); [by apply wp_printf|]. apply wp_ret, HQ; [apply continues_refl|done].
Qed.

(** With nothing left the loop counts to its limit. *)
Lemma receive_nothing q k H a m r buf n : q_ctrl q = Some a -> ring q k H H [] m ->
  forall empty fuel p, 0 <= empty -> empty + Z.of_nat n = max_empty -> (n < fuel)%nat ->
  window (p_sys p) a = Some m ->
  wp (receive_loop fuel q r empty buf) p (fun x p' =>
    x = Some r /\ continues [] p p' /\ window (p_sys p') a = Some m).
Proof.
  intros Hq Rg. unfold max_empty.
  induction n as [|n IH]; intros empty fuel p He Hn Hf Hw; (destruct fuel as [|fuel]; [lia|]);
    cbn [receive_loop]; unfold max_empty.
  - zb_false (empty <? 1000). apply wp_ret. split; [done|]. by split; [apply continues_refl|].
  - zb_true (empty <? 1000). apply wp_bind.
    eapply (wp_on_queue eq idle_disturbs); [exact Hq|exact Hw|auto with nabd|]. intros ? <-.
    eexists _, _. split; [by apply (pop_empty q k H H [] m Rg)|]. intros p1 Hc1 Hw1. cbn.
    apply wp_bind, wp_increment; [lia|]. apply wp_bind.
    eapply (wp_paused eq idle_disturbs); [exact Hw1|]. intros p2 ? Hc2 Hw2 <-.
    eapply wp_mono; [apply (IH (empty + 1) fuel p2); try done; lia|].
    intros x p3 (-> & Hc3 & Hw3). split; [done|]. split; [|done].
    exact (continues_trans _ _ _ _ _ Hc1 (continues_trans _ _ _ _ _ Hc2 Hc3)).
Qed.

Lemma receive_loop_run q k H a : q_ctrl q = Some a -> forall ms T m r fuel buf p,
  ring q k H T ms m -> Forall (fun d => zlen d <= 256 /\ is_Some (c_string d)) ms ->
  zlen buf = 256 -> (length ms + 1000 < fuel)%nat -> 0 <= r -> r + zlen ms < 2 ^ 31 ->
  window (p_sys p) a = Some m ->
  wp (receive_loop fuel q r 0 buf) p (fun x p' =>
    x = Some (r + zlen ms) /\ continues (received_lines r ms) p p' /\
    exists m', window (p_sys p') a = Some m' /\ ring q k H H [] m').
Proof.
  intros Hq. induction ms as [|d ms IH]; intros T m r fuel buf p Rg Hall Hb Hf Hr Hlt Hw.
  - assert (T = H) as -> by (pose proof (r_count _ _ _ _ _ _ Rg) as Hz; change (zlen (@nil msg)) with 0 in Hz; lia).
    eapply wp_mono; [apply (receive_nothing q k H a m r buf 1000 Hq Rg 0 fuel p); try done; simpl in Hf; lia|].
    intros x p' (-> & Hc & Hw'). change (zlen (@nil msg)) with 0. rewrite Z.add_0_r. eauto.
  - apply Forall_cons in Hall as [[Hd [t Ht]] Hall]. destruct fuel as [|fuel]; [simpl in Hf; lia|].
    assert (zlen (d :: ms) = 1 + zlen ms) as Hz by (unfold zlen; cbn [length]; lia).
    pose proof (zlen_nonneg ms). cbn [receive_loop]. change (0 <? max_empty) with true. cbv iota.
    apply wp_bind. eapply (wp_on_queue eq idle_disturbs); [exact Hq|exact Hw|auto with nabd|]. intros ? <-.
    eexists _, _. split; [apply (pop_ok q k H T _ m Rg d ms buf 256); done || lia|].
    intros p1 Hc1 Hw1. cbn. apply wp_bind, wp_increment; [lia|]. apply wp_bind.
    eapply report_received_run; [exact Ht|by apply c_string_splice|]. intros p2 Hc2 Hs2.
    eapply wp_mono; [eapply (IH (T + 1) _ (r + 1) fuel (splice buf 0 d) p2)|].
    + by apply (ring_consume q k H T d).
    + done.
    + rewrite zlen_splice by lia. done.
    + simpl in Hf. lia.
    + lia.
    + lia.
    + rewrite Hs2. exact Hw1.
    + intros x p3 (-> & Hc3 & Hw3). split; [f_equal; lia|]. split; [|exact Hw3].
      exact (continues_trans _ _ _ _ _ Hc1 (continues_trans _ _ _ _ _ Hc2 Hc3)).
Qed.

(** The messages a program can receive with [%s]: short enough and terminated. *)
Definition printable (ms : list msg) : Prop :=
  Forall (fun d => zlen d <= 256 /\ is_Some (c_string d)) ms.

Lemma consumer_run_spec stats0 fuel q k H T ms a m buf p :
  q_ctrl q = Some a -> window (p_sys p) a = Some m -> ring q k H T ms m -> printable ms ->
  zlen buf = 256 -> (length ms + 1000 < fuel)%nat -> zlen ms < 2 ^ 31 ->
  wp (consumer_run buf stats0 fuel q) p (fun r p' =>
    r = Some tt /\ continues (consumer_progress ms (u64 H) (q_capacity q)) p p').
Proof.
  intros Hq Hw Rg Hms Hb Hf Hlt. unfold consumer_run. pose proof (continues_refl p) as Hp.
  say Hp as H1. apply wp_bind. eapply wp_mono.
  { eapply (receive_loop_run q k H a Hq ms T m 0 fuel buf); try done. by rewrite H1. }
  intros r p2 (-> & Hc2 & m' & Hw2 & R2). pose proof (continues_trans _ _ _ _ _ Hp Hc2) as Hp2.
  cbn. clear Hp Hc2. say Hp2 as H3. say Hp2 as H4. apply wp_bind.
  eapply (print_stats_run eq idle_disturbs); [exact Hq|rewrite H4, H3; exact Hw2|]. intros ? <-.
  eexists _, _, _, _. split; [exact R2|]. intros p5 Hc5 _. apply wp_ret. split; [done|].
  eapply continues_out; [exact (continues_trans _ _ _ _ _ Hp2 Hc5)|].
  change (zlen (@nil msg)) with 0. unfold consumer_progress. flat_text.
Qed.

(** The consumer's exit when [nabd_open] failed. *)
Lemma consumer_cannot_attach s p0 p s' (Q : option Z -> process -> Prop) :
  refusal s s' -> p_sys p = s' -> p_stdout p = p_stdout p0 ++ consumer_banner ->
  wp (perror "nabd_open";; printf [Lit "Make sure producer is running first!"; nl];; mret (Some 1)) p
    (fun r p' => (r = Some 1 /\ refusal s (p_sys p') /\ p_stdout p' = p_stdout p0 ++ consumer_banner ++
       render_all [Lit "Make sure producer is running first!"; nl]) \/ Q r p').
Proof.
  intros Hr <- Ho. apply wp_bind. eexists tt, _. split; [reflexivity|].
  apply wp_bind, wp_printf. intros p2 (_ & Ho2 & _) Hs2. apply wp_ret. left. rewrite Hs2.
  split; [done|]. split; [done|]. rewrite Ho2. cbn [p_stdout]. rewrite Ho. symmetry. apply app_assoc.
Qed.

Lemma consumer_main_spec stats0 fuel q k H T ms o b buf p :
  s_shm (p_sys p) !! QUEUE_NAME = Some o -> s_obj (p_sys p) !! o = Some b ->
  ring q k H T ms b -> printable ms ->
  zlen buf = 256 -> (length ms + 1000 < fuel)%nat -> zlen ms < 2 ^ 31 ->
  wp (consumer_main buf stats0 fuel) p (fun r p' =>
    (r = Some 1 /\ refusal (p_sys p) (p_sys p') /\ p_stdout p' = p_stdout p ++ consumer_banner ++
       render_all [Lit "Make sure producer is running first!"; nl]) \/
    (r = Some 0 /\ p_stdout p' = p_stdout p ++ consumer_report ms (u64 H) (q_capacity q) /\
     p_stderr p' = p_stderr p)).
Proof.
  intros Hn Hob Rg Hms Hb Hf Hlt. unfold consumer_main. apply wp_banner. intros p0 Hp Hs0 _.
  eapply wp_open_call; [exact Hp|]. rewrite HI, Hs0.
  apply wp_open; [by right|intros; by eapply consumer_cannot_attach|congruence|].
  intros ptr nm fd s1 _ _ Href (o1 & Ho1 & _ & [[Hn1 Hobj]|(Hn1 & _)]); [|congruence].
  rewrite Hn in Hn1. injection Hn1 as <-.
  change (if has_flag _ NABD_CREATE then _ else ?x) with x. rewrite <- Hobj in Hob.
  eapply wp_mono; [by eapply open_attach_ring|]. intros [[pp h]|] s' Hr p3 Hs' Ho3 He3.
  2: { eapply consumer_cannot_attach; [|done..]. unfold refusal, no_refusal in *. lia. }
  destruct Hr as (a & w & Hq & Hw & R & (Hcap & _) & _). subst s'. apply wp_bind.
  eapply wp_mono; [by eapply (consumer_run_spec stats0 fuel h k H T ms a w buf p3)|].
  intros r p4 (-> & Hc4). cbn. apply wp_bind.
  apply (wp_close_call (pp, h)). intros _ p5 Ho5 He5.
  apply wp_bind, wp_printf. intros p6 (_ & Ho6 & He6) _. apply wp_ret. right. split; [done|].
  destruct Hc4 as (_ & Ho4 & He4). rewrite Hcap. split; [|congruence].
  rewrite Ho6, Ho5, Ho4, Ho3. unfold consumer_report, consumer_banner.
  by rewrite <- !app_assoc.
Qed.
End Consumer.

(** ** What the programs keep of the system *)

(** A relation of the systems of two states of a process. *)
Definition on_sys (I : sys -> sys -> Prop) (p p' : process) : Prop := I (p_sys p) (p_sys p').

#[export] Instance on_sys_preorder I : PreOrder I -> PreOrder (on_sys I).
Proof. intros [HR HT]. split; unfold on_sys; repeat intro; [apply HR|by eapply HT]. Qed.

(** A program of another process starts with nothing of its own ... *)
Definition forked (s : sys) : sys := Sys (s_shm s) (s_obj s) ∅ ∅ ∅ 0 (s_refused s).
(** ... and leaves names, objects and the count behind when it ends. *)
Definition joined (s s' : sys) : sys :=
  Sys (s_shm s') (s_obj s') (s_fd s) (s_map s) (s_heap s) (s_errno s) (s_refused s').

(** A relation kept by the calls the programs make is kept by the programs. *)
Section KeepsApp.
Context {P : Posix} {E : Env} (HI : forall why n s, others why n s = s).
Context (I : sys -> sys -> Prop) `{HP : !PreOrder I}.
Context (Hopen : forall name capacity slot_size flags, keeps I (nabd_open name capacity slot_size flags)).
Context (Hclose : forall q, keeps I (nabd_close q)) (Hunlink : forall name, keeps I (nabd_unlink name)).
Context (Hmem : forall s o b b', s_obj s !! o = Some b -> I s (set_obj o b' s)).
Context (Hchild : forall s s', I (forked s) s' -> I s (joined s s')).

Lemma keeps_lift {A} (c : IO A) : keeps I c -> keeps (on_sys I) (lift c).
Proof.
  intros Hc p x p'. unfold lift. destruct (c (p_sys p)) as [[y s]|] eqn:Ec; [|done].
  intros [= <- <-]. exact (Hc _ _ _ Ec).
Qed.

(** What only prints or computes keeps every relation. *)
Lemma keeps_pure {A} (c : App A) : (forall p x p', c p = Some (x, p') -> p_sys p' = p_sys p) -> keeps (on_sys I) c.
Proof. intros Hc p x p' H%Hc. unfold on_sys. by rewrite H. Qed.

Lemma keeps_printf ds : keeps (on_sys I) (printf ds).
Proof. apply keeps_pure. by intros p x p' [= _ <-]. Qed.
Lemma keeps_perror t : keeps (on_sys I) (perror t).
Proof. apply keeps_pure. by intros p x p' [= _ <-]. Qed.
Lemma keeps_defined {A} (x : option A) : keeps (on_sys I) (defined x).
Proof. apply keeps_pure. intros p y p'. unfold defined. destruct x; congruence. Qed.
Lemma keeps_increment n : keeps (on_sys I) (increment n).
Proof. apply keeps_defined. Qed.
Lemma keeps_paused why : keeps (on_sys I) (paused why).
Proof. apply keeps_pure. intros p x p' [= _ <-]. apply HI. Qed.
Lemma keeps_call_lib {A} (c : IO A) : keeps I c -> keeps (on_sys I) (call c).
Proof. intros Hc. apply keeps_bind; [apply _|apply keeps_paused|]. intros _. by apply keeps_lift. Qed.
Lemma keeps_on_queue {A} q (c : C A) : keeps (on_sys I) (on_queue q c).
Proof. apply keeps_call_lib, keeps_on_map, Hmem. Qed.
Lemma keeps_elsewhere {A} (c : App A) : keeps (on_sys I) c -> keeps (on_sys I) (elsewhere c).
Proof.
  intros Hc p [x out] p'. unfold elsewhere. cbv zeta. fold (forked (p_sys p)).
  destruct (c _) as [[y p1]|] eqn:Ec; [|done]. intros [= <- _ <-]. apply Hchild. exact (Hc _ _ _ Ec).
Qed.

Local Hint Resolve keeps_printf keeps_perror keeps_defined keeps_increment keeps_paused
  keeps_call_lib keeps_on_queue keeps_elsewhere Hopen Hclose Hunlink : keeps.

Lemma send_loop_keeps fuel q i sent full buf : keeps (on_sys I) (send_loop fuel q i sent full buf).
Proof.
  revert i sent full buf. induction fuel as [|fuel IH]; intros i sent full buf; cbn [send_loop];
    unfold report_sent; prove_keeps.
Qed.

Lemma receive_loop_keeps fuel q received empty buf :
  keeps (on_sys I) (receive_loop fuel q received empty buf).
Proof.
  revert received empty buf. induction fuel as [|fuel IH]; intros received empty buf; cbn [receive_loop];
    unfold report_received; prove_keeps.
Qed.
Local Hint Resolve send_loop_keeps receive_loop_keeps : keeps.

Lemma producer_start_keeps msg0 stats0 fuel : keeps (on_sys I) (producer_start msg0 stats0 fuel).
Proof. unfold producer_start, producer_run, print_stats. prove_keeps. Qed.

Lemma producer_end_keeps q : keeps (on_sys I) (producer_end q).
Proof. unfold producer_end. prove_keeps. Qed.

Lemma consumer_main_keeps buf0 stats0 fuel : keeps (on_sys I) (consumer_main buf0 stats0 fuel).
Proof. unfold consumer_main, consumer_run, print_stats. prove_keeps. Qed.
Local Hint Resolve producer_start_keeps producer_end_keeps consumer_main_keeps : keeps.

Lemma session_keeps msg0 buf0 stats0 fuel1 fuel2 :
  keeps (on_sys I) (session msg0 buf0 stats0 fuel1 fuel2).
Proof. unfold session. prove_keeps. Qed.
End KeepsApp.

(** ** The theorems *)

Lemma pops_refl taken s : disturbs (pops taken) s s.
Proof.
  split; [done|]. intros a m Hw. exists m. split; [done|]. intros q k H T ms R. exists T.
  rewrite Z.sub_diag. split; [|by split]. pose proof (r_count _ _ _ _ _ _ R).
  pose proof (zlen_nonneg ms). lia.
Qed.

Lemma printable_messages {E : Env} n : printable (messages n).
Proof.
  apply Forall_forall. intros d Hd. unfold messages in Hd.
  apply list_elem_of_fmap in Hd as (i & -> & _). unfold message.
  destruct (message_text_spec i) as [Hn Hl]. split.
  - rewrite zlen_app. change (zlen [Byte.x00]) with 1. lia.
  - eexists. by apply c_string_text.
Qed.

Section Properties.
Context {P : Posix} {L : PosixLaws P} {E : Env}.

(** C23: the example producer sends everything.  If the other processes only take messages
    from the front of queues, between any two of its calls and while it sleeps, then
    the producer either exits with 1 because the system refused something while it
    opened its queue, or sends its
    hundred messages in order, each once, without ever finding the queue full; its
    output is exactly [producer_report], and the segment holds the messages that were
    not taken yet.  A hundred and one rounds of its loop are enough. *)
Theorem producer_sends_every_message msg0 stats0 fuel p :
  (forall why n s, disturbs (pops true) s (others why n s)) -> zlen msg0 = 128 -> (100 < fuel)%nat ->
  wp (producer_start msg0 stats0 fuel) p (fun r p' =>
    match r with
    | None => False
    | Some (inl code) => code = 1 /\ refusal (others Between (p_pauses p) (p_sys p)) (p_sys p') /\
        p_stdout p' = p_stdout p ++ producer_banner
    | Some (inr (_, q)) => exists T o b, 0 <= T <= NUM_MESSAGES /\
        p_stdout p' = p_stdout p ++ producer_report T /\ p_stderr p' = p_stderr p /\
        s_shm (p_sys p') !! QUEUE_NAME = Some o /\ s_obj (p_sys p') !! o = Some b /\
        q_capacity q = 1024 /\ q_slot_size q = 256 /\
        ring q 10 NUM_MESSAGES T (drop (Z.to_nat T) (messages NUM_MESSAGES)) b
    end).
Proof.
  intros HE Hb Hf. eapply wp_mono; [by apply (producer_start_spec true HE)|].
  intros [[code|[pp q]]|] p' Hr; try done. destruct Hr as (T & o & b & ? & _ & ?). by exists T, o, b.
Qed.

(** The example consumer receives everything.  Started on a segment that holds the
    messages [ms], each terminated and of at most 256 bytes, with nobody else writing,
    it either exits with 1 and a hint because the system refused something, or pops exactly [ms] in order,
    gives up after a thousand empty reads, and exits with 0 having printed
    [consumer_report].  Its loop needs one round per message and 1001 more. *)
Theorem consumer_receives_every_message buf0 stats0 fuel q k H T ms o b p :
  (forall why n s, others why n s = s) ->
  s_shm (p_sys p) !! QUEUE_NAME = Some o -> s_obj (p_sys p) !! o = Some b ->
  ring q k H T ms b -> printable ms ->
  zlen buf0 = 256 -> (length ms + 1000 < fuel)%nat -> zlen ms < 2 ^ 31 ->
  wp (consumer_main buf0 stats0 fuel) p (fun r p' =>
    (r = Some 1 /\ refusal (p_sys p) (p_sys p') /\ p_stdout p' = p_stdout p ++ consumer_banner ++
       render_all [Lit "Make sure producer is running first!"; nl]) \/
    (r = Some 0 /\ p_stdout p' = p_stdout p ++ consumer_report ms (u64 H) (q_capacity q) /\
     p_stderr p' = p_stderr p)).
Proof. intros HI. by apply consumer_main_spec. Qed.

(** C22: the two example programs together.  With the consumer started while the producer
    sleeps, and no other process, on every operating system that behaves as documented:
    nothing undefined happens, and unless the system refuses a valid request both programs
    exit with 0, the producer having printed its report and its farewell and the consumer
    having received all hundred messages in order and printed its report.  The only other
    outcomes come with a refusal: the producer exits with 1 after its banner, or the
    consumer exits with 1 after its banner and the hint, the producer still with 0. *)
Theorem example_session msg0 buf0 stats0 fuel1 fuel2 p :
  (forall why n s, others why n s = s) -> zlen msg0 = 128 -> zlen buf0 = 256 ->
  (100 < fuel1)%nat -> (1100 < fuel2)%nat ->
  wp (session msg0 buf0 stats0 fuel1 fuel2) p (fun r p' =>
    match r with
    | None => False
    | Some (code, None) =>
        code = 1 /\ refusal (p_sys p) (p_sys p') /\ p_stdout p' = p_stdout p ++ producer_banner
    | Some (code, Some (ccode, out)) => code = 0 /\
        p_stdout p' = p_stdout p ++ producer_report 0 ++ render_all [Lit "Queue cleaned up."; nl] /\
        ((ccode = Some 1 /\ refusal (p_sys p) (p_sys p') /\
          out = consumer_banner ++ render_all [Lit "Make sure producer is running first!"; nl]) \/
         (ccode = Some 0 /\ out = consumer_report (messages NUM_MESSAGES) NUM_MESSAGES 1024))
    end).
Proof.
  intros HI Hb1 Hb2 Hf1 Hf2. unfold session. apply wp_bind.
  assert (forall why n s, disturbs (pops false) s (others why n s)) as HE
    by (intros; rewrite HI; apply pops_refl).
  eapply wp_mono; [eapply wp_keeps; [by apply (producer_start_spec false HE)|]|].
  { apply (producer_start_keeps HI more_refused); eauto with keeps. }
  intros [[code|[pp q]]|] p1 [Hr Hg1]; [rewrite HI in Hr; by apply wp_ret| |done].
  destruct Hr as (T & o & b & _ & HT & Ho1 & _ & Hn & Hob & Hc & Hss & R).
  rewrite (HT eq_refl) in *. clear T HT. rewrite drop_0 in R. apply wp_bind.
  eapply (wp_elsewhere _ _ (fun r out n =>
    (r = Some 1 /\ (s_refused (p_sys p1) < n)%nat /\
     out = consumer_banner ++ render_all [Lit "Make sure producer is running first!"; nl]) \/
    (r = Some 0 /\ out = consumer_report (messages NUM_MESSAGES) NUM_MESSAGES 1024))).
  - eapply wp_mono; [eapply (consumer_main_spec HI stats0 fuel2 q 10 NUM_MESSAGES 0 _ o b);
      try done; apply printable_messages|].
    cbn [p_stdout]. rewrite Hc, u64_small, !app_nil_l by (unfold NUM_MESSAGES; lia).
    intros r p2 [(-> & ? & ->)|(-> & -> & _)]; [by left|by right].
  - intros c out p2 Ho2 Hcons. apply wp_bind. eapply wp_mono.
    { eapply wp_keeps; [apply (producer_end_run (pp, q))|].
      apply (producer_end_keeps HI more_refused); eauto with keeps. }
    intros code p3 [[-> Ho3] Hg3]. apply wp_ret. split; [done|]. split.
    + rewrite Ho3, Ho2, Ho1. symmetry. apply app_assoc.
    + unfold on_sys, more_refused, refusal in *.
      destruct Hcons as [(-> & ? & ->)|Hcons]; [left|by right]. split_and!; [done|lia|done].
Qed.
End Properties.

(** ** Witnesses *)

(** Nobody else runs; process number 42. *)
Definition quiet : Env := {| strerror _ := []; getpid := 42; others _ _ s := s |}.

Definition start (s : sys) : process := Process s [] [] 0.
Definition no_stats : nabd_stats_t := NabdStats 0 0 0 0 0.

(** The simple system refuses the programs nothing. *)
Lemma simple_open_calm name capacity slot_size flags :
  keeps calm (nabd_open (P := simple) name capacity slot_size flags).
Proof. unfold nabd_open, open_shm, open_create, open_attach, free_handle, fail. prove_keeps. Qed.

Lemma simple_close_queue_calm q : keeps calm (nabd_close (P := simple) q).
Proof. unfold nabd_close, free_handle. prove_keeps. Qed.

Lemma simple_unlink_calm name : keeps calm (nabd_unlink (P := simple) name).
Proof. unfold nabd_unlink. prove_keeps. Qed.

Lemma child_calm s s' : calm (forked s) s' -> calm s (joined s s').
Proof.
  intros [Ho Hs]. split; [exact Ho|]. intros [Sn Sf]. destruct Hs as [[Sn' _] Hr].
  { split; [exact Sn|]. intros fd o. simpl. by rewrite lookup_empty. }
  split; [|exact Hr]. split; [exact Sn'|]. intros fd o Hfd. apply Ho. by eapply Sf.
Qed.

#[export] Hint Resolve simple_open_calm simple_close_queue_calm simple_unlink_calm child_calm : keeps.

Lemma boot_sound : sound boot.
Proof. split; intros x o; simpl; by rewrite lookup_empty. Qed.

Lemma calm_not_refusal s s' : sound s -> calm s s' -> ~ refusal s s'.
Proof. intros Hs [_ H]. destruct (H Hs) as [_ Hn]. unfold refusal, no_refusal in *. lia. Qed.

Lemma producer_sends_every_message_witness :
  @wp process (option (Z + Z * nabd))
    (@producer_start simple quiet (replicate 128 Byte.x00) no_stats 101) (start boot)
    (fun r p' => match r with Some (inr _) => exists T, p_stdout p' = @producer_report quiet T
                            | _ => False end).
Proof.
  eapply wp_mono; [eapply wp_keeps|].
  - apply (@producer_sends_every_message simple (SimplePosix_laws no_faults) quiet
             (replicate 128 Byte.x00) no_stats 101 (start boot));
      [intros; apply pops_refl|reflexivity|lia].
  - apply (@producer_start_keeps simple quiet (fun _ _ _ => eq_refl) calm); [apply _|eauto with keeps..].
  - intros [[code|[pp q]]|] p' [Hr Hc]; [|destruct Hr as (T & o & b & _ & Ho & _); by exists T|done].
    destruct Hr as (_ & Hr & _). by destruct (calm_not_refusal _ _ boot_sound Hc).
Defined.

(** A segment of two slots with the terminated messages "a" and "bc". *)
Definition terminated : list msg := [msg_a ++ [Byte.x00]; msg_b ++ [Byte.x00]].
Definition two_terminated : sys :=
  Sys {[QUEUE_NAME := 5%nat]}
      {[5%nat := foldl (fun m d => Sample.after (push_msg d) m) sample_mem terminated]} ∅ ∅ ∅ 0 0.

Lemma two_terminated_sound : sound two_terminated.
Proof.
  split; intros x o; cbn [two_terminated s_shm s_fd s_obj].
  - intros [_ <-]%lookup_singleton_Some. rewrite lookup_singleton_eq. eauto.
  - by rewrite lookup_empty.
Qed.

Lemma consumer_receives_every_message_witness :
  @wp process (option Z)
    (@consumer_main simple quiet (replicate 256 Byte.x00) no_stats 1003) (start two_terminated)
    (fun r p' => r = Some 0 /\ p_stdout p' = consumer_report terminated 2 2).
Proof.
  eapply wp_mono; [eapply wp_keeps|].
  - apply (@consumer_receives_every_message simple (SimplePosix_laws no_faults) quiet
             (replicate 256 Byte.x00) no_stats 1003 sample_q 1 2 0 terminated 5
             (foldl (fun m d => Sample.after (push_msg d) m) sample_mem terminated)
             (start two_terminated));
      [done|done|done| | |done|simpl; lia|done].
    + apply ringb_spec; [apply sample_wf|vm_compute; reflexivity].
    + repeat constructor; vm_compute; (congruence || eauto).
  - apply (@consumer_main_keeps simple quiet (fun _ _ _ => eq_refl) calm); [apply _|eauto with keeps..].
  - intros r p' [[(_ & Hr & _)|(-> & Ho & _)] Hc]; [|by split].
    by destruct (calm_not_refusal _ _ two_terminated_sound Hc).
Defined.

Lemma example_session_witness :
  @wp process (option (Z * option (option Z * list byte)))
    (@session simple quiet (replicate 128 Byte.x00) (replicate 256 Byte.x00) no_stats 101 1101)
    (start boot)
    (fun r p' => exists out, r = Some (0, Some (Some 0, out)) /\
       out = consumer_report (@messages quiet 100) 100 1024 /\
       p_stdout p' = @producer_report quiet 0 ++ render_all [Lit "Queue cleaned up."; nl]).
Proof.
  eapply wp_mono; [eapply wp_keeps|].
  - apply (@example_session simple (SimplePosix_laws no_faults) quiet (replicate 128 Byte.x00)
             (replicate 256 Byte.x00) no_stats 101 1101 (start boot));
      [done|reflexivity|reflexivity|lia|lia].
  - apply (@session_keeps simple quiet (fun _ _ _ => eq_refl) calm); [apply _|eauto with keeps..].
  - intros r p' [Hr Hc]. pose proof (calm_not_refusal _ _ boot_sound Hc) as Hno.
    destruct r as [[code [[c out]|]]|]; [|by destruct Hr as (_ & ? & _)|done].
    destruct Hr as (-> & Ho & [(_ & ? & _)|[-> ->]]); [done|]. by exists (consumer_report (@messages quiet 100) 100 1024).
Defined.
