(* ===== verification/Tests.v ===== *)
(** * The test programs (src/tests/)

    [main] of test_api.c, and of test_concurrent.c up to its last test (the stress test of
    two processes is in Stress.v).  A test is a process that a failing [assert] aborts; the
    verdict names the line of the assertion.  No other process uses the queues of the
    tests.  Variables the programs do not initialise are arguments. *)

From S2P Require Import Prelude Words Memory Layout Fifo Queue Posix Lifecycle Backpressure Persistence Format Metrics Examples.
Local Open Scope string_scope.
Local Open Scope list_scope.
Local Open Scope Z_scope.

(** ** Assertions *)

Inductive verdict (A : Type) :=
  | Ran (x : A)
  | Aborted (line : Z).
Arguments Ran {A} x.
Arguments Aborted {A} line.

(** A process that can be aborted. *)
Definition Test (A : Type) : Type := ST process (verdict A).

#[export] Instance Test_ret : MRet Test := fun A x p => Some (Ran x, p).
#[export] Instance Test_bind : MBind Test := fun A B k c p =>
  match c p with
  | Some (Ran x, p) => k x p
  | Some (Aborted line, p) => Some (Aborted line, p)
  | None => None
  end.

Definition run {A} (c : App A) : Test A := fun p =>
  match c p with Some (x, p) => Some (Ran x, p) | None => None end.

Definition assert (line : Z) (b : bool) : Test unit := fun p =>
  Some (if b then Ran tt else Aborted line, p).

(** [assert(q)]; the pointer is not null afterwards. *)
Definition assert_open (line : Z) (q : option (Z * nabd)) : Test (Z * nabd) := fun p =>
  Some (match q with Some q => Ran q | None => Aborted line end, p).

(** [assert(strcmp(buf, text) == 0)] *)
Definition assert_strcmp (line : Z) (buf text : list byte) : Test unit :=
  s ← run (defined (c_string buf));
  assert line (bool_decide (s = text)).

(** ** C values *)

(** The bytes of an [int], and the [int] stored in bytes. *)
Definition int_bytes (v : Z) : msg := le_split 4 v.
Definition int_of (bs : msg) : Z := to_int (le_combine bs).

Definition bytes_of (s : string) : msg := render (Lit s).

Section Programs.
Context {P : Posix}.

(** Calls into the library: on the operating system, on the memory of an open queue. *)
Definition lib {A} (c : IO A) : Test A := run (lift c).
Definition on_q {A} (q : nabd) (c : C A) : Test A := lib (on_map (default 0 (q_ctrl q)) c).

Definition cleanup (name : string) : Test Z := lib (nabd_unlink (Some name)).

(** [cleanup(); q = nabd_open(name, capacity, slot_size, flags); assert(q);] *)
Definition start_test (name : string) (line capacity slot_size flags : Z) : Test (Z * nabd) :=
  cleanup name;;
  q ← lib (nabd_open (Some name) capacity slot_size flags);
  assert_open line q.

(** [nabd_close(q); cleanup();] *)
Definition end_test (name : string) (q : Z * nabd) : Test unit :=
  lib (nabd_close (Some q));;
  cleanup name;;
  mret tt.

(** [assert(nabd_push(q, &val, sizeof(val)) == code)], [val] an [int] *)
Definition assert_push (line : Z) (q : nabd) (val : Z) (code : nabd_error_t) : Test unit :=
  r ← on_q q (nabd_push (Some q) (Some (int_bytes val)) 4);
  assert line (r =? code).

(** [for (int i = i0; i < i0 + n; i++) assert(nabd_push(q, &val, sizeof(val)) == NABD_OK);],
    [val = base + i] *)
Fixpoint push_loop (line : Z) (q : nabd) (base : Z) (n : nat) (i : Z) : Test unit :=
  match n with
  | O => mret tt
  | S n =>
      assert_push line q (base + i) NABD_OK;;
      i ← run (increment i);
      push_loop line q base n i
  end.

(** [for (...) nabd_push(q, &i, sizeof(i));], without looking at the result *)
Fixpoint push_unchecked (q : nabd) (n : nat) (i : Z) : Test unit :=
  match n with
  | O => mret tt
  | S n =>
      _ ← on_q q (nabd_push (Some q) (Some (int_bytes i)) 4);
      i ← run (increment i);
      push_unchecked q n i
  end.

(** [int out; size_t len = sizeof(out); assert(nabd_pop(q, &out, &len) == NABD_OK);
    assert(out == val);] *)
Definition assert_pop (line1 line2 : Z) (q : nabd) (out0 : msg) (val : Z) : Test unit :=
  '(r, out, _) ← on_q q (nabd_pop (Some q) (Some out0) (Some 4));
  assert line1 (r =? NABD_OK);;
  assert line2 (int_of (default out0 out) =? val).

Fixpoint pop_loop (line1 line2 : Z) (q : nabd) (out0 : msg) (base : Z) (n : nat) (i : Z) : Test unit :=
  match n with
  | O => mret tt
  | S n =>
      assert_pop line1 line2 q out0 (base + i);;
      i ← run (increment i);
      pop_loop line1 line2 q out0 base n i
  end.

(** [assert(c(q) == value)] *)
Definition assert_value (line : Z) (q : nabd) (c : C Z) (value : Z) : Test unit :=
  r ← on_q q c;
  assert line (r =? value).

(** ** test_api.c *)

Definition API_QUEUE : string := "/nabd_test".
Definition produce : Z := Z.lor NABD_CREATE NABD_PRODUCER.
Definition both : Z := Z.lor (Z.lor NABD_CREATE NABD_PRODUCER) NABD_CONSUMER.

(** The variables without initial value. *)
Context (stats0 : nabd_stats_t) (buf0 small0 out0 : list byte) (data0 len0 slot0 : Z).
Context (metrics0 : nabd_metrics_t) (text0 : list byte) (diagnostic0 : nabd_diagnostic_t).

Definition test_open_close : Test unit :=
  '(ptr, q) ← start_test API_QUEUE 37 128 256 produce;
  '(r, stats) ← on_q q (nabd_stats (Some q) (Some stats0));
  let stats := default stats0 stats in
  assert 41 (r =? NABD_OK);;
  assert 42 (s_capacity stats =? 128);;
  assert 43 (s_head stats =? 0);;
  assert 44 (s_tail stats =? 0);;
  end_test API_QUEUE (ptr, q).

Definition test_push_pop : Test unit :=
  cleanup API_QUEUE;;
  p ← lib (nabd_open (Some API_QUEUE) 64 128 produce);
  c ← lib (nabd_open (Some API_QUEUE) 0 0 NABD_CONSUMER);
  p ← assert_open 55 p;
  c ← assert_open 55 c;
  let msg := bytes_of "Hello NABD!" in
  r ← on_q (snd p) (nabd_push (Some (snd p)) (Some (msg ++ [Byte.x00])) (zlen msg + 1));
  assert 59 (r =? NABD_OK);;
  '(r, buf, len) ← on_q (snd c) (nabd_pop (Some (snd c)) (Some buf0) (Some 128));
  let buf := default buf0 buf in
  assert 64 (r =? NABD_OK);;
  assert_strcmp 65 buf msg;;
  '(r, _, _) ← on_q (snd c) (nabd_pop (Some (snd c)) (Some buf) len);
  assert 68 (r =? NABD_EMPTY);;
  lib (nabd_close (Some p));;
  end_test API_QUEUE c.

Definition test_empty_full : Test unit :=
  '(ptr, q) ← start_test API_QUEUE 79 4 64 produce;
  assert_value 81 q (nabd_empty (Some q)) 1;;
  assert_value 82 q (nabd_full (Some q)) 0;;
  push_loop 87 q 0 4 0;;
  assert_value 90 q (nabd_empty (Some q)) 0;;
  assert_value 91 q (nabd_full (Some q)) 1;;
  assert_push 95 q 999 NABD_FULL;;
  end_test API_QUEUE (ptr, q).

Definition test_peek_release : Test unit :=
  '(ptr, q) ← start_test API_QUEUE 106 16 64 both;
  assert_push 109 q 42 NABD_OK;;
  '(r, data, len) ← on_q q (nabd_peek (Some q) (Some data0) (Some len0));
  assert 114 (r =? NABD_OK);;
  bs ← on_q q (load (default data0 data) 4);
  assert 115 (int_of bs =? 42);;
  '(r, data, len) ← on_q q (nabd_peek (Some q) data len);
  assert 118 (r =? NABD_OK);;
  assert_value 121 q (nabd_release (Some q)) NABD_OK;;
  '(r, _, _) ← on_q q (nabd_peek (Some q) data len);
  assert 124 (r =? NABD_EMPTY);;
  end_test API_QUEUE (ptr, q).

Definition test_reserve_commit : Test unit :=
  '(ptr, q) ← start_test API_QUEUE 135 16 64 both;
  '(r, h, slot) ← on_q q (nabd_reserve (Some q) 10 (Some slot0));
  let q := default q h in
  assert 138 (r =? NABD_OK);;
  on_q q (store (default slot0 slot) (bytes_of "direct" ++ [Byte.x00]));;
  '(r, h) ← on_q q (nabd_commit (Some q) 7);
  let q := default q h in
  assert 142 (r =? NABD_OK);;
  '(r, buf, _) ← on_q q (nabd_pop (Some q) (Some small0) (Some 64));
  assert 147 (r =? NABD_OK);;
  assert_strcmp 148 (default small0 buf) (bytes_of "direct");;
  end_test API_QUEUE (ptr, q).

Definition test_metrics : Test unit :=
  '(ptr, q) ← start_test API_QUEUE 158 32 64 produce;
  push_unchecked q 10 0;;
  '(r, metrics) ← on_q q (nabd_get_metrics (Some q) (Some metrics0));
  let metrics := default metrics0 metrics in
  assert 166 (r =? NABD_OK);;
  assert 167 (m_head metrics =? 10);;
  assert 168 (m_pending metrics =? 10);;
  assert 169 (0 <? m_fill_pct metrics);;
  '(r, buf) ← run (defined (nabd_format_metrics (Some metrics) (Some text0) 512));
  assert 173 (0 <? r);;
  '(r, _) ← run (defined (nabd_format_metrics_json (Some metrics) buf 512));
  assert 174 (0 <? r);;
  end_test API_QUEUE (ptr, q).

Definition test_fill_level : Test unit :=
  '(ptr, q) ← start_test API_QUEUE 184 8 64 produce;
  assert_value 186 q (nabd_fill_level (Some q)) 0;;
  push_unchecked q 4 0;;
  assert_value 192 q (nabd_fill_level (Some q)) 50;;
  assert_value 193 q (nabd_is_pressured (Some q) 40) 1;;
  assert_value 194 q (nabd_is_pressured (Some q) 60) 0;;
  end_test API_QUEUE (ptr, q).

Definition test_diagnose : Test unit :=
  '(ptr, q) ← start_test API_QUEUE 204 16 64 produce;
  on_q q (nabd_push (Some q) (Some (bytes_of "test" ++ [Byte.x00])) 5);;
  lib (nabd_close (Some (ptr, q)));;
  '(r, diag) ← lib (nabd_diagnose (Some API_QUEUE) (Some diagnostic0));
  let diag := default diagnostic0 diag in
  assert 209 (r =? NABD_OK);;
  assert 210 (bool_decide (d_state diag = NABD_STATE_OK));;
  assert 211 (negb (d_magic_ok diag =? 0));;
  assert 212 (negb (d_version_ok diag =? 0));;
  assert 213 (d_pending diag =? 1);;
  cleanup API_QUEUE;;
  mret tt.

Definition test_strerror : Test unit :=
  assert 219 (nabd_strerror NABD_OK =? "Success")%string;;
  assert 220 (nabd_strerror NABD_EMPTY =? "Buffer empty")%string;;
  assert 221 (nabd_strerror NABD_FULL =? "Buffer full")%string;;
  assert 222 (nabd_strerror (-999) =? "Unknown error")%string.

Definition RUN_TEST (name : string) (test : Test unit) (passed : Z) : Test Z :=
  run (printf [Lit "  Testing "; Lit name; Lit "... "]);;
  test;;
  run (printf [Lit "OK"; nl]);;
  run (increment passed).

Definition api_main : Test Z :=
  run (printf [Lit "NABD API Unit Tests"; nl]);;
  run (printf [Lit "==================="; nl; nl]);;
  passed ← RUN_TEST "open_close" test_open_close 0;
  passed ← RUN_TEST "push_pop" test_push_pop passed;
  passed ← RUN_TEST "empty_full" test_empty_full passed;
  passed ← RUN_TEST "peek_release" test_peek_release passed;
  passed ← RUN_TEST "reserve_commit" test_reserve_commit passed;
  passed ← RUN_TEST "metrics" test_metrics passed;
  passed ← RUN_TEST "fill_level" test_fill_level passed;
  passed ← RUN_TEST "diagnose" test_diagnose passed;
  passed ← RUN_TEST "strerror" test_strerror passed;
  run (printf [nl; Dec passed; Lit " tests passed!"; nl]);;
  cleanup API_QUEUE;;
  mret 0.

(** ** test_concurrent.c *)

Definition STRESS_QUEUE : string := "/nabd_stress".

(** The turns [i, i + 1, ...] of the loop of the first test. *)
Fixpoint cycle_loop (q : nabd) (n : nat) (i : Z) : Test unit :=
  match n with
  | O => mret tt
  | S n =>
      assert_push 94 q i NABD_OK;;
      assert_pop 98 99 q out0 i;;
      i ← run (increment i);
      cycle_loop q n i
  end.

Definition test_rapid_cycle : Test unit :=
  run (printf [Lit "  Testing rapid push/pop cycle... "]);;
  '(ptr, q) ← start_test STRESS_QUEUE 90 16 64 both;
  cycle_loop q (Z.to_nat 10000) 0;;
  assert_value 103 q (nabd_empty (Some q)) 1;;
  end_test STRESS_QUEUE (ptr, q);;
  run (printf [Lit "OK"; nl]).

Fixpoint wraparound_loop (q : nabd) (n : nat) (round : Z) : Test unit :=
  match n with
  | O => mret tt
  | S n =>
      push_loop 124 q (round * 100) 4 0;;
      pop_loop 131 132 q out0 (round * 100) 4 0;;
      round ← run (increment round);
      wraparound_loop q n round
  end.

Definition test_wraparound : Test unit :=
  run (printf [Lit "  Testing buffer wraparound... "]);;
  '(ptr, q) ← start_test STRESS_QUEUE 117 8 64 both;
  wraparound_loop q 100 0;;
  assert_value 136 q (nabd_empty (Some q)) 1;;
  end_test STRESS_QUEUE (ptr, q);;
  run (printf [Lit "OK"; nl]).

Definition test_fill_drain : Test unit :=
  run (printf [Lit "  Testing fill and drain... "]);;
  '(ptr, q) ← start_test STRESS_QUEUE 151 64 32 both;
  push_loop 155 q 0 64 0;;
  assert_value 157 q (nabd_full (Some q)) 1;;
  pop_loop 163 164 q out0 0 64 0;;
  assert_value 166 q (nabd_empty (Some q)) 1;;
  end_test STRESS_QUEUE (ptr, q);;
  run (printf [Lit "OK"; nl]).

(** [main] up to [test_spsc_fork]. *)
Definition concurrent_main : Test unit :=
  run (printf [Lit "NABD Concurrency Tests"; nl]);;
  run (printf [Lit "======================"; nl; nl]);;
  test_rapid_cycle;;
  test_wraparound;;
  test_fill_drain.

End Programs.

Arguments run : simpl never.
Arguments assert : simpl never.
