(* ===== verification/TestsCorrect.v ===== *)
(** * The test programs pass

    The theorems about Tests.v: on every operating system that behaves as documented, the
    only assertions of the test programs that can fail are those on [nabd_open] and on the
    code of [nabd_diagnose], and they fail only when the system refused a request. *)

From S2P Require Import Prelude Words Memory Layout Fifo Queue Ring Posix Lifecycle Backpressure BackpressureCorrect Persistence PersistenceCorrect Format Metrics MetricsCorrect Examples ExamplesCorrect Tests.
Local Open Scope string_scope.
Local Open Scope list_scope.
Local Open Scope Z_scope.

(** ** Tests that abort on given lines only, and only after a refusal *)

(** The requests the system has refused the process so far. *)
Abbreviation refused p := (s_refused (p_sys p)).

Section Rules.
Context (lines : list Z) {r0 : nat}.

(** From a state in which [r0] requests have been refused at least: the test is defined,
    and it is aborted only on one of the lines and when more than [r0] have been. *)
Definition succeeds {A} (t : Test A) (p : process) (Q : A -> process -> Prop) : Prop :=
  (r0 <= refused p)%nat ->
  wp t p (fun v p' => match v with
                      | Ran x => (r0 <= refused p')%nat /\ Q x p'
                      | Aborted line => line ∈ lines /\ (r0 < refused p')%nat
                      end).

Lemma s_know {A} (t : Test A) p (Q : A -> process -> Prop) :
  ((r0 <= refused p)%nat -> succeeds t p Q) -> succeeds t p Q.
Proof. intros HH Hr. by apply HH. Qed.

Lemma s_ret {A} (x : A) p (Q : A -> process -> Prop) : Q x p -> succeeds (mret x) p Q.
Proof. intros HQ. by exists (Ran x), p. Qed.

Lemma s_bind {A B} (t : Test A) (k : A -> Test B) p Q :
  succeeds t p (fun x p' => succeeds (k x) p' Q) -> succeeds (t ≫= k) p Q.
Proof.
  intros Hs Hr. destruct (Hs Hr) as ([x|line] & p1 & Ht & HQ).
  - destruct HQ as [Hr1 HQ]. destruct (HQ Hr1) as (v & p2 & Hk & HQ2). exists v, p2. split; [|done].
    unfold mbind, Test_bind. by rewrite Ht.
  - exists (Aborted line), p1. split; [|done]. unfold mbind, Test_bind. by rewrite Ht.
Qed.

Lemma s_mono {A} (t : Test A) p (Q Q' : A -> process -> Prop) :
  succeeds t p Q -> (forall x p', Q x p' -> Q' x p') -> succeeds t p Q'.
Proof.
  intros Hs HH Hr. destruct (Hs Hr) as (v & p1 & Ht & HQ). exists v, p1. split; [done|].
  destruct v; [|done]. destruct HQ. auto.
Qed.

(** Printing and counting leave the system alone. *)
Lemma s_run {A} (c : App A) p (Q : A -> process -> Prop) :
  wp c p (fun x p' => p_sys p' = p_sys p /\ Q x p') -> succeeds (run c) p Q.
Proof.
  intros (x & p1 & Hc & Hp & HQ) Hr. exists (Ran x), p1. unfold run. rewrite Hc, Hp. done.
Qed.

Lemma s_assert line b p (Q : unit -> process -> Prop) :
  b = true -> Q tt p -> succeeds (assert line b) p Q.
Proof. intros -> HQ. by exists (Ran tt), p. Qed.

Lemma s_assert_may line b p (Q : unit -> process -> Prop) :
  line ∈ lines -> (b = false -> (r0 < refused p)%nat) -> (b = true -> Q tt p) ->
  succeeds (assert line b) p Q.
Proof.
  intros Hl Hb HQ Hr. destruct b; [exists (Ran tt), p|exists (Aborted line), p]; split; auto.
Qed.

Lemma s_assert_open line q p (Q : Z * nabd -> process -> Prop) :
  line ∈ lines -> (q = None -> (r0 < refused p)%nat) -> (forall h, q = Some h -> Q h p) ->
  succeeds (assert_open line q) p Q.
Proof.
  intros Hl Hb HQ Hr. destruct q as [h|]; [exists (Ran h), p|exists (Aborted line), p]; split; auto.
Qed.

Lemma s_defined {A} (x : option A) a p (Q : A -> process -> Prop) :
  x = Some a -> Q a p -> succeeds (run (defined x)) p Q.
Proof. intros -> HQ. apply s_run. by exists a, p. Qed.

Lemma s_strcmp line buf text p (Q : unit -> process -> Prop) :
  c_string buf = Some text -> Q tt p -> succeeds (assert_strcmp line buf text) p Q.
Proof.
  intros Hs HQ. apply s_bind. eapply s_defined; [exact Hs|].
  apply s_assert; [by rewrite bool_decide_eq_true|done].
Qed.

Lemma s_increment i p (Q : Z -> process -> Prop) :
  - 2 ^ 31 <= i + 1 < 2 ^ 31 -> Q (i + 1) p -> succeeds (run (increment i)) p Q.
Proof. intros Hi HQ. apply s_run, wp_increment; [done|]. by split. Qed.

Lemma s_printf ds p (Q : unit -> process -> Prop) :
  (forall p', p_stdout p' = p_stdout p ++ render_all ds -> Q tt p') -> succeeds (run (printf ds)) p Q.
Proof. intros HQ. apply s_run, wp_printf. intros p' (_ & Ho & _) Hs. split; [exact Hs|]. by apply HQ. Qed.

Lemma s_lib {A} (c : IO A) p (Q : A -> process -> Prop) :
  grows c ->
  wp c (p_sys p) (fun x s => forall p', p_sys p' = s -> p_stdout p' = p_stdout p -> Q x p') ->
  succeeds (lib c) p Q.
Proof.
  intros Hg (x & s & Hc & HQ) Hr. exists (Ran x), (with_sys s p). unfold lib, run, lift. rewrite Hc.
  split; [done|]. split; [|by apply HQ]. simpl. pose proof (Hg _ _ _ Hc). unfold more_refused in *. simpl in *. lia.
Qed.

Lemma s_cleanup {P : Posix} {L : PosixLaws P} name p (Q : Z -> process -> Prop) :
  (forall r p', p_stdout p' = p_stdout p -> (unlink_works name -> s_shm (p_sys p') !! name = None) -> Q r p') ->
  succeeds (cleanup name) p Q.
Proof.
  intros HQ. apply s_lib; [eauto with keeps|]. unfold nabd_unlink. apply wp_bind, wp_call, wp_ret. intros p' Hp Ho.
  apply HQ; [done|]. intros U. rewrite Hp. by apply unlink_unbinds.
Qed.

(** ** An open queue *)

(** The handle [q] serves the queue of that name for a process that has written [out]. *)
Definition at_queue name o Φ q (out : list byte) (p : process) : Prop :=
  serves name o Φ q (p_sys p) /\ p_stdout p = out.

(** A call on the queue: another handle on the same queue sees its effect. *)
Lemma s_on_q {A} name o (Φ Ψ : mem -> Prop) q out p (c : C A) x (Q : A -> process -> Prop) :
  at_queue name o Φ q out p -> keeps_len c ->
  (forall m, Φ m -> exists m', c m = Some (x, m') /\ Ψ m') ->
  (forall p', at_queue name o Ψ q out p' ->
     (forall q2 k H T ms H' T' ms', serves name o (ring q2 k H T ms) q2 (p_sys p) ->
        (forall m, Ψ m -> ring q2 k H' T' ms' m) -> serves name o (ring q2 k H' T' ms') q2 (p_sys p')) ->
     Q x p') ->
  succeeds (on_q q c) p Q.
Proof.
  intros [(Hn & a & len & b & Hq & Hm & Hb & HP) Ho] Hk Hc HQ. apply s_lib; [eauto with keeps|]. rewrite Hq. simpl.
  destruct (Hc _ HP) as (m' & E & HP'). pose proof (Hk _ _ _ E) as Hl.
  set (b' := m' ++ drop (Z.to_nat len) b).
  assert (take (Z.to_nat len) b' = m') as Ht.
  { unfold b'. unfold zlen in Hl. rewrite length_take in Hl.
    destruct (decide (Z.to_nat len <= length b)%nat).
    - rewrite take_app_length'; [done|lia].
    - rewrite drop_ge, app_nil_r by lia. apply take_ge. lia. }
  eapply wp_on_map; [exact Hm|exact Hb|exact E|]. intros p' Hp Hout. apply HQ.
  - split; [|congruence]. rewrite Hp. split; [done|]. exists a, len, b'. split_and!; try done.
    + simpl. apply lookup_insert_eq.
    + by rewrite Ht.
  - intros q2 k H T ms H' T' ms' (_ & a2 & len2 & b2 & Hq2 & Hm2 & Hb2 & R2) HR. rewrite Hp.
    split; [done|]. exists a2, len2, b'. split_and!; try done; [simpl; apply lookup_insert_eq|].
    apply ring_take; [eapply ring_untake; rewrite Ht; by apply HR|].
    pose proof (r_len _ _ _ _ _ _ R2) as Hlen. unfold zlen in Hlen. rewrite length_take in Hlen.
    pose proof (pow_k _ _ (r_wf _ _ _ _ _ _ R2)). pose proof (wf_slot _ _ (r_wf _ _ _ _ _ _ R2)).
    unfold SIZEOF_CONTROL, SIZEOF_HEADER in *. assert (0 < 2 ^ k * q_slot_size q2) by nia. lia.
Qed.

(** The same for one handle. *)
Lemma s_call {A} name o (Φ Ψ : mem -> Prop) q out p (c : C A) x (Q : A -> process -> Prop) :
  at_queue name o Φ q out p -> keeps_len c ->
  (forall m, Φ m -> exists m', c m = Some (x, m') /\ Ψ m') ->
  (forall p', at_queue name o Ψ q out p' -> Q x p') -> succeeds (on_q q c) p Q.
Proof. intros Ha Hk Hc HQ. eapply s_on_q; [done..|]. auto. Qed.

End Rules.

Arguments succeeds lines r0 {A} t p Q.

(** ** The calls the tests make *)

Section Calls.
Context {P : Posix} {L : PosixLaws P} (lines : list Z) {r0 : nat}.

(** A queue just created. *)
Definition created name o k ss (q : nabd) (s : sys) : Prop :=
  q_capacity q = 2 ^ k /\ q_slot_size q = ss /\ q_reserved q = 0 /\ serves name o (ring q k 0 0 []) q s.

Lemma s_open_create {B} name capacity slot_size flags k ss p (f : option (Z * nabd) -> Test B) Q :
  flags_ok flags -> has_flag flags NABD_CREATE = true -> 0 <= k < 64 ->
  effective_capacity capacity = 2 ^ k -> effective_slot_size slot_size = ss ->
  SIZEOF_HEADER <= ss -> SIZEOF_CONTROL + 2 ^ k * ss < 2 ^ 63 ->
  (forall r p', p_stdout p' = p_stdout p -> (r = None -> (r0 < refused p')%nat) ->
     (unlink_works name -> s_shm (p_sys p) !! name = None -> r = None -> s_shm (p_sys p') !! name = None) ->
     (forall ptr q, r = Some (ptr, q) -> q_capacity q = 2 ^ k /\ q_slot_size q = ss /\ q_reserved q = 0 /\
        exists o, at_queue name o (ring q k 0 0 []) q (p_stdout p) p') ->
     succeeds lines r0 (f r) p' Q) ->
  succeeds lines r0 (r ← lib (nabd_open (Some name) capacity slot_size flags); f r) p Q.
Proof.
  intros Hfl Hc Hk Hcap Hss Hs Hsz HQ. apply s_bind, s_know. intros Hr0. apply s_lib; [eauto with keeps|].
  eapply (wp_mono _ _ (fun r s' => (match r with None => refusal (p_sys p) s' | Some (_, h) => exists o, created name o k ss h s' end) /\
    (unlink_works name -> s_shm (p_sys p) !! name = None -> r = None -> s_shm s' !! name = None))).
  { apply wp_wlp; [|intros r s' E U Hn; exact (failed_create_unbound _ _ _ _ _ U Hc Hn r s' E)].
    apply wp_open; [done|done|congruence|]. intros ptr nm fd s1 _ _ Href (o & Ho & Hn & _). rewrite Hc, Hcap, Hss.
    eapply wp_mono; [apply open_create_ring; try done; by exists o|]. unfold refusal, no_refusal in *.
    intros [[ptr' q]|] s' Hr; [|lia].
    destruct Hr as (a & w & Hq & Hw & R & Hc1 & Hs1 & Hres & _ & Hn' & o' & Ho' & Hm).
    rewrite Ho in Ho'. injection Ho' as <-. exists o. split_and!; try done. split; [congruence|].
    unfold window in Hw. rewrite Hm in Hw. destruct (s_obj s' !! o) as [b|] eqn:Eb; [|done].
    injection Hw as <-. by exists a, (q_size q), b. }
  intros r s' [Hr Hu] p' <- Hout. apply HQ; [done| |done|].
  { intros ->. unfold refusal in Hr. lia. }
  intros ptr' q ->. destruct Hr as (o & ? & ? & ? & Hs'). split_and!; try done. by exists o.
Qed.

Lemma s_start name line capacity slot_size flags k ss p (Q : Z * nabd -> process -> Prop) :
  line ∈ lines -> flags_ok flags -> has_flag flags NABD_CREATE = true -> 0 <= k < 64 ->
  effective_capacity capacity = 2 ^ k -> effective_slot_size slot_size = ss ->
  SIZEOF_HEADER <= ss -> SIZEOF_CONTROL + 2 ^ k * ss < 2 ^ 63 ->
  (forall ptr q o p', q_capacity q = 2 ^ k -> q_slot_size q = ss -> q_reserved q = 0 ->
     at_queue name o (ring q k 0 0 []) q (p_stdout p) p' -> Q (ptr, q) p') ->
  succeeds lines r0 (start_test name line capacity slot_size flags) p Q.
Proof.
  intros Hl Hfl Hc Hk Hcap Hss Hs Hsz HQ. unfold start_test. apply s_bind, (s_cleanup lines). intros _ p1 Ho1 _.
  eapply s_open_create; [done..|]. intros r p2 Ho2 Hnone _ Hr. apply s_assert_open; [done|done|]. intros [ptr q] ->.
  destruct (Hr _ _ eq_refl) as (? & ? & ? & o & Hat). rewrite Ho1 in Hat. by eapply HQ.
Qed.

(** A name nothing is bound to cannot be attached. *)
Lemma wp_open_unbound name capacity slot_size flags s (Q : option (Z * nabd) -> sys -> Prop) :
  flags_ok flags -> has_flag flags NABD_CREATE = false -> s_shm s !! name = None ->
  (forall s', (s_refused s <= s_refused s')%nat -> Q None s') ->
  wp (nabd_open (Some name) capacity slot_size flags) s Q.
Proof.
  intros Hfl Hc Hn HQ. unfold refusal, no_refusal. apply wp_open; [done| | |].
  { intros s' Hr. apply HQ. unfold refusal in Hr. lia. }
  { intros _ _ s' Hr _. apply HQ. unfold no_refusal in Hr. lia. }
  intros q nm fd s1 _ _ _ (o & _ & _ & [[Hn1 _]|(_ & Hc1 & _)]); congruence.
Qed.

(** Attaching to the queue of [q], which stays as it was. *)
Lemma wp_open_attach name o k H T ms q capacity slot_size flags s (Q : option (Z * nabd) -> sys -> Prop) :
  flags_ok flags -> has_flag flags NABD_CREATE = false -> serves name o (ring q k H T ms) q s ->
  (forall r s', (r = None -> refusal s s') -> (forall ptr c, r = Some (ptr, c) -> same_ring q c /\
     serves name o (ring q k H T ms) q s' /\ serves name o (ring c k H T ms) c s') -> Q r s') ->
  wp (nabd_open (Some name) capacity slot_size flags) s Q.
Proof.
  intros Hfl Hc (Hn & a & len & b & Hq & Hm & Hb & R) HQ.
  eapply (wp_mono _ _ (fun r s' => (match r with None => refusal s s' | Some (_, c) => exists a w len,
    q_ctrl c = Some a /\ window s' a = Some w /\ ring c k H T ms w /\ same_ring q c /\
    s_obj s' = s_obj s /\ s_shm s' !! name = Some o /\ s_map s' !! a = Some (o, len) end) /\
    owns (s_fd s) (s_map s) (s_heap s) r s')).
  { apply wp_wlp; [|apply open_holding]. apply wp_open; [done|done|congruence|].
    intros ptr nm fd s1 Hfd Hm1 Href (o1 & Ho1 & Hn1 & [[Hn2 Hobj]|(_ & Hc1 & _)]); [|congruence].
    rewrite Hn in Hn2. injection Hn2 as <-. rewrite Hc. rewrite <- Hobj in Hb.
    eapply wp_mono; [eapply open_attach_ring; [exact Ho1|exact Hb|by eapply ring_untake]|].
    unfold refusal, no_refusal in *. intros [[ptr' c]|] s' Hr; [|lia].
    destruct Hr as (a1 & w & ? & ? & ? & ? & _ & _ & ? & ? & ?). exists a1, w, (q_size c).
    split_and!; try done; congruence. }
  intros r s' [Hr Ho]. apply HQ; [by intros ->|]. intros ptr c ->.
  destruct Hr as (a1 & w & len1 & Hq1 & Hw & R1 & Hs & Hobj & Hn1 & Hm1).
  destruct Ho as (a2 & o2 & x & (_ & Hmap & _) & Hq2 & _ & _ & Hnew & _).
  split; [done|]. split.
  - split; [done|]. exists a, len, b. split_and!; [done| |congruence|done].
    rewrite Hmap, lookup_insert_ne by congruence. done.
  - split; [done|]. unfold window in Hw. rewrite Hm1, Hobj in Hw.
    destruct (s_obj s !! o) as [b1|] eqn:Eb; [|done]. injection Hw as <-.
    exists a1, len1, b1. split_and!; try done. congruence.
Qed.

Lemma s_close q p (Q : Z -> process -> Prop) :
  (forall p', s_shm (p_sys p') = s_shm (p_sys p) -> s_obj (p_sys p') = s_obj (p_sys p) ->
     p_stdout p' = p_stdout p -> Q NABD_OK p') -> succeeds lines r0 (lib (nabd_close (Some q))) p Q.
Proof.
  intros HQ. apply s_lib; [eauto with keeps|]. apply wp_close. intros s' Hs Ho p' <- Hp. by apply HQ.
Qed.

Lemma s_end name q p (Q : unit -> process -> Prop) :
  (forall p', p_stdout p' = p_stdout p -> Q tt p') -> succeeds lines r0 (end_test name q) p Q.
Proof.
  intros HQ. apply s_bind, s_close. intros p1 _ _ H1. apply s_bind, (s_cleanup lines). intros _ p2 H2 _.
  apply s_ret, HQ. congruence.
Qed.

Lemma s_value name o (Φ : mem -> Prop) q out p c line x (Q : unit -> process -> Prop) :
  at_queue name o Φ q out p -> keeps_len c -> (forall m, Φ m -> c m = Some (x, m)) ->
  (forall p', at_queue name o Φ q out p' -> Q tt p') -> succeeds lines r0 (assert_value line q c x) p Q.
Proof.
  intros Ha Hk Hc HQ. apply s_bind. eapply (s_call lines name o Φ Φ); [exact Ha|done|eauto|].
  intros p' Ha'. apply s_assert; [by apply Z.eqb_eq|auto].
Qed.

Lemma int_bytes_len v : zlen (int_bytes v) = 4.
Proof. apply zlen_le_split. Qed.

Lemma int_of_bytes v : - 2 ^ 31 <= v < 2 ^ 31 -> int_of (int_bytes v) = v.
Proof.
  intros Hv. unfold int_of, int_bytes, to_int. rewrite le_combine_split. change (Z.of_nat 4 * 8) with 32.
  rewrite Zplus_mod_idemp_l, Z.mod_small by lia. lia.
Qed.

Lemma take_int_bytes v : take (Z.to_nat (u16 4)) (int_bytes v) = int_bytes v.
Proof. apply take_ge. unfold int_bytes. rewrite length_le_split. by vm_compute. Qed.

Section Ints.
Context (name : string) (o : nat) (q : nabd) (k : Z) (Hss : SIZEOF_HEADER + 4 <= q_slot_size q).

(** The queue holds these [int]s, at positions [T..H-1]. *)
Definition ints (H T : Z) (vs : list Z) : mem -> Prop := ring q k H T (map int_bytes vs).

Lemma s_push_int H T vs out p v (Q : Z -> process -> Prop) :
  at_queue name o (ints H T vs) q out p -> zlen vs < q_capacity q ->
  (forall p', at_queue name o (ints (H + 1) T (vs ++ [v])) q out p' -> Q NABD_OK p') ->
  succeeds lines r0 (on_q q (nabd_push (Some q) (Some (int_bytes v)) 4)) p Q.
Proof.
  intros Ha Hr HQ. eapply s_call; [exact Ha|auto with nabd| |exact HQ]. intros m R.
  destruct (push_ok q k H T _ m R (int_bytes v) 4) as (m' & E & R').
  - rewrite int_bytes_len. lia.
  - unfold SIZEOF_HEADER in *. lia.
  - unfold zlen in *. by rewrite length_map.
  - exists m'. split; [done|]. rewrite take_int_bytes in R'. unfold ints. by rewrite map_app.
Qed.

Lemma s_assert_push line H T vs out p v (Q : unit -> process -> Prop) :
  at_queue name o (ints H T vs) q out p -> zlen vs < q_capacity q ->
  (forall p', at_queue name o (ints (H + 1) T (vs ++ [v])) q out p' -> Q tt p') ->
  succeeds lines r0 (assert_push line q v NABD_OK) p Q.
Proof.
  intros Ha Hr HQ. apply s_bind. eapply s_push_int; [done..|]. intros p' Ha'. apply s_assert; auto.
Qed.

Lemma s_assert_pop line1 line2 out0 H T v vs out p (Q : unit -> process -> Prop) :
  zlen out0 = 4 -> - 2 ^ 31 <= v < 2 ^ 31 -> at_queue name o (ints H T (v :: vs)) q out p ->
  (forall p', at_queue name o (ints H (T + 1) vs) q out p' -> Q tt p') ->
  succeeds lines r0 (assert_pop line1 line2 q out0 v) p Q.
Proof.
  intros H0 Hv Ha HQ. pose proof (int_bytes_len v) as Hl. apply s_bind.
  eapply (s_call lines name o _ (ints H (T + 1) vs)); [exact Ha|auto with nabd|..].
  - intros m R. eexists. split; [eapply (pop_ok _ _ _ _ _ _ R); [done|lia..]|]. by eapply ring_consume.
  - intros p' Ha'. cbn [default]. apply s_bind, s_assert; [done|]. apply s_assert; [|auto].
    rewrite splice_all by congruence. unfold id. rewrite int_of_bytes by done. apply Z.eqb_refl.
Qed.

Lemma s_push_unchecked n H T vs i out p (Q : unit -> process -> Prop) :
  at_queue name o (ints H T vs) q out p -> zlen vs + Z.of_nat n <= q_capacity q ->
  0 <= i -> i + Z.of_nat n < 2 ^ 31 ->
  (forall p', at_queue name o (ints (H + Z.of_nat n) T (vs ++ seqZ i (Z.of_nat n))) q out p' -> Q tt p') ->
  succeeds lines r0 (push_unchecked q n i) p Q.
Proof.
  revert H vs i p. induction n as [|n IH]; intros H vs i p Ha Hr Hi Hn HQ; cbn [push_unchecked].
  - apply s_ret, HQ. by rewrite Z.add_0_r, app_nil_r.
  - apply s_bind. eapply s_push_int; [exact Ha|lia|]. intros p1 Ha1. apply s_bind, s_increment; [lia|].
    eapply IH; [exact Ha1|rewrite zlen_app; change (zlen [i]) with 1; lia|lia..|].
    intros p2 Ha2. apply HQ. rewrite Nat2Z.inj_succ, seqZ_cons by lia. rewrite Z.pred_succ.
    rewrite <- app_assoc in Ha2. by replace (H + Z.succ (Z.of_nat n)) with (H + 1 + Z.of_nat n) by lia.
Qed.

Lemma s_push_loop line base n H T vs i out p (Q : unit -> process -> Prop) :
  at_queue name o (ints H T vs) q out p -> zlen vs + Z.of_nat n <= q_capacity q ->
  0 <= i -> i + Z.of_nat n < 2 ^ 31 ->
  (forall p', at_queue name o (ints (H + Z.of_nat n) T (vs ++ map (Z.add base) (seqZ i (Z.of_nat n)))) q out p' ->
     Q tt p') ->
  succeeds lines r0 (push_loop line q base n i) p Q.
Proof.
  revert H vs i p. induction n as [|n IH]; intros H vs i p Ha Hr Hi Hn HQ; cbn [push_loop].
  - apply s_ret, HQ. by rewrite Z.add_0_r, app_nil_r.
  - apply s_bind. eapply s_assert_push; [exact Ha|lia|]. intros p1 Ha1. apply s_bind, s_increment; [lia|].
    eapply IH; [exact Ha1|rewrite zlen_app; change (zlen [base + i]) with 1; lia|lia..|].
    intros p2 Ha2. apply HQ. rewrite Nat2Z.inj_succ, seqZ_cons by lia. rewrite Z.pred_succ.
    rewrite <- app_assoc in Ha2. by replace (H + Z.succ (Z.of_nat n)) with (H + 1 + Z.of_nat n) by lia.
Qed.

Lemma s_pop_loop line1 line2 out0 base n H T vs i out p (Q : unit -> process -> Prop) :
  zlen out0 = 4 -> at_queue name o (ints H T (map (Z.add base) (seqZ i (Z.of_nat n)) ++ vs)) q out p ->
  0 <= base -> 0 <= i -> base + i + Z.of_nat n < 2 ^ 31 ->
  (forall p', at_queue name o (ints H (T + Z.of_nat n) vs) q out p' -> Q tt p') ->
  succeeds lines r0 (pop_loop line1 line2 q out0 base n i) p Q.
Proof.
  intros H0. revert T i p. induction n as [|n IH]; intros T i p Ha Hb Hi Hn HQ; cbn [pop_loop].
  - apply s_ret, HQ. by rewrite Z.add_0_r.
  - rewrite Nat2Z.inj_succ, seqZ_cons, Z.pred_succ in Ha by lia. cbn [map app] in Ha. apply s_bind.
    eapply s_assert_pop; [done| |exact Ha|]; [lia|]. intros p1 Ha1. apply s_bind, s_increment; [lia|].
    eapply IH; [exact Ha1|lia..|]. intros p2 Ha2. apply HQ.
    by replace (T + Z.of_nat (S n)) with (T + 1 + Z.of_nat n) by lia.
Qed.

(** Questions about the queue. *)
Lemma s_empty line x H T vs out p (Q : unit -> process -> Prop) :
  at_queue name o (ints H T vs) q out p -> (if bool_decide (vs = []) then 1 else 0) = x ->
  (forall p', at_queue name o (ints H T vs) q out p' -> Q tt p') ->
  succeeds lines r0 (assert_value line q (nabd_empty (Some q)) x) p Q.
Proof.
  intros Ha <-. eapply s_value; [exact Ha|unfold nabd_empty; keeps_len|]. intros m R.
  rewrite (empty_run _ _ _ _ _ _ R). by destruct vs.
Qed.

Lemma s_full line x H T vs out p (Q : unit -> process -> Prop) :
  at_queue name o (ints H T vs) q out p -> (if q_capacity q <=? zlen vs then 1 else 0) = x ->
  (forall p', at_queue name o (ints H T vs) q out p' -> Q tt p') ->
  succeeds lines r0 (assert_value line q (nabd_full (Some q)) x) p Q.
Proof.
  intros Ha <-. eapply s_value; [exact Ha|unfold nabd_full; keeps_len|]. intros m R.
  rewrite (full_run _ _ _ _ _ _ R). unfold zlen. by rewrite length_map.
Qed.

End Ints.
End Calls.

(** ** The tests of test_api.c *)

(** The assertions that the system can make fail: those on [nabd_open], and line 209,
    on the code of [nabd_diagnose]. *)
Definition api_lines : list Z := [37; 55; 79; 106; 135; 158; 184; 204; 209].

Definition passes (lines : list Z) (t : Test unit) : Prop :=
  forall r0 p, succeeds lines r0 t p (fun _ p' => p_stdout p' = p_stdout p).

Lemma is_open_line l : bool_decide (l ∈ api_lines) = true -> l ∈ api_lines.
Proof. apply bool_decide_eq_true. Qed.

Ltac begin k ss :=
  let q := fresh "q" in
  apply s_bind; apply (s_start _ _ _ _ _ _ k ss);
  [by apply is_open_line|by left|done|lia|done|done|unfold SIZEOF_HEADER; lia|unfold SIZEOF_CONTROL; lia|];
  intros ? q ? ? Hcap Hss Hres Ha; pose proof Ha as [_ Hout].

Ltac finish := apply s_end; intros ? ->; done.

Section Api.
Context {P : Posix} {L : PosixLaws P}.
Context (stats0 : nabd_stats_t) (buf0 small0 out0 : list byte) (data0 len0 slot0 : Z).
Context (metrics0 : nabd_metrics_t) (text0 : list byte) (diagnostic0 : nabd_diagnostic_t).
Context (Hbuf : zlen buf0 = 128) (Hsmall : zlen small0 = 64) (Hint : zlen out0 = 4) (Htext : zlen text0 = 512).

Lemma open_close_passes : passes api_lines (test_open_close stats0).
Proof.
  intros r0 p. unfold test_open_close. begin 7 256.
  apply s_bind. eapply s_call; [exact Ha|auto with nabd| |].
  { intros m R. eexists. split; [by apply (stats_run _ _ _ _ _ _ R)|exact R]. }
  intros p1 [_ Ho1]. cbn [default]. unfold id. rewrite Hcap.
  repeat (apply s_bind, s_assert; [done|]). apply s_end. intros p2 ->. done.
Qed.

Lemma empty_full_passes : passes api_lines test_empty_full.
Proof.
  intros r0 p. unfold test_empty_full. begin 2 64.
  assert (SIZEOF_HEADER + 4 <= q_slot_size q) as Hs by (rewrite Hss; unfold SIZEOF_HEADER; lia).
  change (ring q 2 0 0 []) with (ints q 2 0 0 []) in Ha.
  apply s_bind. eapply s_empty; [exact Ha|done|]. clear Ha. intros p1 Ha.
  apply s_bind. eapply s_full; [exact Ha|by rewrite Hcap|]. clear Ha. intros p2 Ha.
  apply s_bind. eapply (s_push_loop _ _ _ q 2 Hs); [exact Ha|by rewrite Hcap|lia..|]. clear Ha. intros p3 Ha.
  apply s_bind. eapply s_empty; [exact Ha|done|]. clear Ha. intros p4 Ha.
  apply s_bind. eapply s_full; [exact Ha|by rewrite Hcap|]. clear Ha. intros p5 Ha.
  apply s_bind, s_bind. eapply s_call; [exact Ha|auto with nabd| |].
  { intros m R. exists m. split; [|exact R].
    eapply (push_full _ _ _ _ _ _ R); [unfold SIZEOF_HEADER in *; lia|by rewrite Hcap]. }
  intros p6 [_ Ho]. apply s_assert; [done|]. apply s_end. intros p7 ->. by rewrite Ho.
Qed.

Lemma push_pop_passes : unlink_works API_QUEUE -> passes api_lines (test_push_pop buf0).
Proof.
  intros U r0 p. unfold test_push_pop. apply s_bind, (s_cleanup api_lines). intros _ p1 Ho1 Hn1.
  eapply (s_open_create _ _ _ _ _ 6 128); [by left|done|lia|done|done|unfold SIZEOF_HEADER; lia|unfold SIZEOF_CONTROL; lia|].
  intros r p2 Ho2 Href Hnone Hsome. apply s_bind, s_know. intros Hr0. apply s_lib; [eauto with keeps|].
  destruct r as [[ptr q]|].
  2: { apply wp_open_unbound; [by right|done|auto|]. intros s' Hg p3 <- _.
       apply s_bind, s_assert_open; [by apply is_open_line| |by intros ? [=]].
       intros _. specialize (Href eq_refl). lia. }
  destruct (Hsome _ _ eq_refl) as (Hcap & Hss & _ & o & Hq & _). eapply wp_open_attach; [by right|done|exact Hq|].
  intros r s' Hn2 Hr p3 <- Ho3. apply s_bind, s_assert_open; [by apply is_open_line|done|]. intros ? [= <-].
  apply s_bind, s_assert_open; [by apply is_open_line| |].
  { intros Hnull. specialize (Hn2 Hnull). unfold refusal in Hn2. lia. }
  intros [ptr2 c] ->. cbn [snd].
  destruct (Hr _ _ eq_refl) as (Hsame & Hq3 & Hc3). cbv zeta.
  set (text := bytes_of "Hello NABD!"). set (d := text ++ [Byte.x00]).
  apply s_bind. eapply (s_on_q _ _ _ _ (ring q 6 1 0 [d])); [by split|auto with nabd| |].
  { intros m R. destruct (push_ok _ _ _ _ _ _ R d (zlen text + 1)) as (m' & E & R');
      [done|rewrite Hss; done|rewrite Hcap; done|]. by exists m'. }
  intros p4 [_ Ho4] Hc. specialize (Hc c 6 0 0 [] 1 0 [d] Hc3 (fun m => ring_same q c _ _ _ _ m Hsame)).
  apply s_bind, s_assert; [done|]. apply s_bind.
  eapply (s_call _ _ _ _ (ring c 6 1 1 [])); [by split|auto with nabd| |].
  { intros m R. eexists. split; [apply (pop_ok _ _ _ _ _ _ R d []); [done|done|by rewrite Hbuf]|exact (ring_consume _ _ _ _ _ _ _ R)]. }
  intros p5 Hc5. cbn [default]. unfold id. apply s_bind, s_assert; [done|].
  apply s_bind, s_strcmp; [by apply c_string_splice|]. apply s_bind. eapply s_call; [exact Hc5|auto with nabd| |].
  { intros m R. exists m. split; [by apply (pop_empty _ _ _ _ _ _ R)|exact R]. }
  intros p6 [_ Ho6]. apply s_bind, s_assert; [done|]. apply s_bind, s_close. intros p7 _ _ Ho7. apply s_end.
  intros p8 ->. congruence.
Qed.

Lemma peek_release_passes : passes api_lines (test_peek_release data0 len0).
Proof.
  intros r0 p. unfold test_peek_release. begin 4 64. pose proof (int_bytes_len 42) as Hl.
  assert (SIZEOF_HEADER + 4 <= q_slot_size q) as Hs by (rewrite Hss; unfold SIZEOF_HEADER; lia).
  apply s_bind. eapply (s_assert_push _ _ _ q 4 Hs _ 0 0 []); [exact Ha|by rewrite Hcap|]. clear Ha. intros p1 Ha.
  set (data := Some (slot_off q 4 0 + SIZEOF_HEADER)). set (d := int_bytes 42) in *.
  assert (forall m x n, ints q 4 1 0 [42] m -> nabd_peek (Some q) (Some x) (Some n) m
    = Some (NABD_OK : Z, data, Some 4, m) /\ load (default data0 data) 4 m = Some (d, m)) as Hpeek.
  { intros m x n R. destruct (peek_ok _ _ _ _ _ _ R d [] x n eq_refl) as [E1 E2]. rewrite Hl in E1, E2. done. }
  apply s_bind. eapply s_call; [exact Ha|unfold nabd_peek; keeps_len| |].
  { intros m R. exists m. split; [by apply Hpeek|exact R]. }
  clear Ha. intros p2 Ha. cbn beta iota. apply s_bind, s_assert; [done|].
  apply s_bind. eapply s_call; [exact Ha|auto with nabd| |].
  { intros m R. exists m. split; [by eapply Hpeek|exact R]. }
  clear Ha. intros p3 Ha. apply s_bind, s_assert; [by vm_compute|]. apply s_bind.
  eapply s_call; [exact Ha|unfold nabd_peek; keeps_len| |].
  { intros m R. exists m. split; [by apply Hpeek|exact R]. }
  clear Ha. intros p4 Ha. cbn beta iota. apply s_bind, s_assert; [done|]. apply s_bind, s_bind.
  eapply (s_call _ _ _ _ (ints q 4 1 1 [])); [exact Ha|unfold nabd_release; keeps_len| |].
  { intros m R. eexists. split; [by apply (release_run _ _ _ _ _ _ R)|exact (ring_consume _ _ _ _ _ _ _ R)]. }
  clear Ha. intros p5 Ha. apply s_assert; [done|]. apply s_bind.
  eapply s_call; [exact Ha|unfold nabd_peek; keeps_len| |].
  { intros m R. exists m. split; [by apply (peek_empty _ _ _ _ _ _ R)|exact R]. }
  intros p6 [_ Ho]. cbn beta iota. apply s_bind, s_assert; [done|]. apply s_end. intros p7 ->. by rewrite Ho.
Qed.

Lemma strerror_passes : passes api_lines test_strerror.
Proof. intros r0 p. unfold test_strerror. repeat (apply s_bind, s_assert; [done|]). by apply s_assert. Qed.

Lemma metrics_passes : passes api_lines (test_metrics metrics0 text0).
Proof.
  intros r0 p. unfold test_metrics. begin 5 64.
  assert (SIZEOF_HEADER + 4 <= q_slot_size q) as Hs by (rewrite Hss; unfold SIZEOF_HEADER; lia).
  change (ring q 5 0 0 []) with (ints q 5 0 0 []) in Ha.
  apply s_bind. eapply (s_push_unchecked _ _ _ q 5 Hs); [exact Ha|by rewrite Hcap|lia..|]. clear Ha. intros p1 Ha.
  apply s_bind. eapply s_call; [exact Ha|unfold nabd_get_metrics; keeps_len| |].
  { intros m R. exists m. split; [|exact R].
    assert (is_fifo q (Fifo (2 ^ 5) 56 (map int_bytes (seqZ 0 10))) m) as Hf.
    { exists 5, 10, 0. split; [exact R|]. by rewrite Hcap, Hss. }
    pose proof (r_head _ _ _ _ _ _ R) as Hh. pose proof (r_tail _ _ _ _ _ _ R) as Ht.
    edestruct (get_metrics_reports_fifo q _ m metrics0 Hf) as [E _]; [by rewrite Hh, Ht|done|].
    rewrite Hh, Ht in E. exact E. }
  clear Ha. intros p2 [_ Ho]. cbn [default]. unfold id.
  do 4 (apply s_bind, s_assert; [done|]).
  match goal with |- context [nabd_format_metrics (Some ?x)] => set (metrics := x) end.
  destruct (format_stays_in_buffer false metrics text0 512) as (buf1 & E1 & Hl1 & _); [lia|].
  destruct (format_stays_in_buffer true metrics buf1 512) as (buf2 & E2 & _); [lia|].
  apply s_bind. eapply s_defined; [exact E1|]. cbn beta iota. apply s_bind, s_assert; [by vm_compute|].
  apply s_bind. eapply s_defined; [exact E2|]. cbn beta iota. apply s_bind, s_assert; [by vm_compute|].
  apply s_end. intros p3 ->. by rewrite Ho.
Qed.

Lemma reserve_commit_passes : passes api_lines (test_reserve_commit small0 slot0).
Proof.
  intros r0 p. unfold test_reserve_commit. begin 4 64. set (slot := slot_off q 4 0 + SIZEOF_HEADER).
  set (text := bytes_of "direct" ++ [Byte.x00]).
  apply s_bind. eapply s_call; [exact Ha|unfold nabd_reserve; keeps_len| |].
  { intros m R. exists m. split; [|exact R].
    apply (reserve_ok _ _ _ _ _ _ R); [done|rewrite Hss; done|by rewrite Hcap]. }
  clear Ha. intros p1 Ha. cbn [default]. unfold id. fold slot. set (h := set_reserved q 1 (u64 0)).
  apply s_bind, s_assert; [done|]. apply s_bind.
  eapply (s_call _ _ _ _ (fun m => ring q 4 0 0 [] m /\ slice m slot 7 = text) h); [exact Ha|auto with nabd| |].
  { intros m R. assert (in_mem m slot 7) as Hin
      by (apply (ring_in_slot _ _ _ _ _ _ R 0); rewrite ?Hss; unfold slot, SIZEOF_HEADER; lia).
    eexists. split; [by apply store_in|]. split; [|by apply (slice_splice_same m slot text); apply Hin].
    eapply ring_frame_slot; [exact R|done|]. eapply frame_mono; cycle 2; [by apply frame_splice|..];
      rewrite ?Hss; unfold slot, SIZEOF_HEADER; change (zlen text) with 7; lia. }
  clear Ha. intros p2 Ha. apply s_bind.
  eapply (s_call _ _ _ _ (ring (set_reserved h 0 (u64 0)) 4 1 0 [text])); [exact Ha|unfold nabd_commit; keeps_len| |].
  { intros m [R Htxt]. destruct (commit_ok h 4 0 0 [] m m 7) as (m' & E & R');
      [by apply ring_set_reserved|by change (q_capacity h) with (q_capacity q); rewrite Hcap|done|done|apply frame_refl
      |change (q_slot_size h) with (q_slot_size q); rewrite Hss; done|].
    exists m'. split; [exact E|]. change (u16 7) with 7 in R'. fold slot in R'.
    change (slot_off h 4 0 + SIZEOF_HEADER) with slot in R'. rewrite Htxt in R'. by apply ring_set_reserved. }
  clear Ha. intros p3 Ha. cbn [default]. unfold id. set (h' := set_reserved h 0 (u64 0)) in *.
  apply s_bind, s_assert; [done|]. apply s_bind.
  eapply (s_call _ _ _ _ (ring h' 4 1 1 []) h'); [exact Ha|auto with nabd| |].
  { intros m R. eexists. split; [apply (pop_ok _ _ _ _ _ _ R text []); [done|done|by rewrite Hsmall]|].
    exact (ring_consume _ _ _ _ _ _ _ R). }
  intros p4 [_ Ho]. cbn beta iota. apply s_bind, s_assert; [done|].
  apply s_bind, s_strcmp; [by apply c_string_splice|]. apply s_end. intros p5 ->. by rewrite Ho.
Qed.

Lemma fill_level_passes : passes api_lines test_fill_level.
Proof.
  intros r0 p. unfold test_fill_level. begin 3 64.
  assert (SIZEOF_HEADER + 4 <= q_slot_size q) as Hs by (rewrite Hss; unfold SIZEOF_HEADER; lia).
  assert (forall H T vs m t, ints q 3 H T vs m ->
    nabd_fill_level (Some q) m = Some (zlen vs * 100 / 8, m) /\
    nabd_is_pressured (Some q) t m = Some (if t <=? zlen vs * 100 / 8 then 1 else 0, m)) as Hf.
  { intros H T vs m t R. destruct (fill_level_percentage q (Fifo 8 56 (map int_bytes vs)) m t) as (E1 & _ & E2);
      [|done|unfold zlen in *; simpl in *; rewrite length_map in *; done].
    exists 3, H, T. split; [exact R|]. by rewrite Hcap, Hss. }
  change (ring q 3 0 0 []) with (ints q 3 0 0 []) in Ha.
  apply s_bind. eapply s_value; [exact Ha|unfold nabd_fill_level, nabd_stats; keeps_len| |].
  { intros m R. by apply (Hf _ _ _ _ 0 R). }
  clear Ha. intros p1 Ha. apply s_bind. eapply (s_push_unchecked _ _ _ q 3 Hs); [exact Ha|by rewrite Hcap|lia..|].
  clear Ha. intros p2 Ha.
  apply s_bind. eapply s_value; [exact Ha|unfold nabd_fill_level, nabd_stats; keeps_len| |].
  { intros m R. by apply (Hf _ _ _ _ 0 R). }
  clear Ha. intros p3 Ha.
  apply s_bind. eapply s_value; [exact Ha|unfold nabd_is_pressured, nabd_fill_level, nabd_stats; keeps_len| |].
  { intros m R. apply (Hf _ _ _ _ 40 R). }
  clear Ha. intros p4 Ha.
  apply s_bind. eapply s_value; [exact Ha|unfold nabd_is_pressured, nabd_fill_level, nabd_stats; keeps_len| |].
  { intros m R. apply (Hf _ _ _ _ 60 R). }
  intros p5 [_ Ho]. apply s_end. intros p6 ->. by rewrite Ho.
Qed.

Lemma diagnose_passes : passes api_lines (test_diagnose diagnostic0).
Proof.
  intros r0 p. unfold test_diagnose. begin 4 64. set (d := bytes_of "test" ++ [Byte.x00]).
  apply s_bind. eapply (s_call _ _ _ _ (ring q 4 1 0 [d])); [exact Ha|auto with nabd| |].
  { intros m R. destruct (push_ok _ _ _ _ _ _ R d 5) as (m' & E & R'); [done|rewrite Hss; done|by rewrite Hcap|].
    by exists m'. }
  clear Ha. intros p1 [(Hn & a & len & b & _ & _ & Hb & R) Ho]. apply s_bind, s_close. intros p2 Hshm Hobj Ho2.
  rewrite <- Hshm in Hn. rewrite <- Hobj in Hb. apply ring_untake in R.
  assert (is_fifo q (Fifo 16 56 [d]) b) as Hf by (exists 4, 1, 0; split; [exact R|]; by rewrite Hcap, Hss).
  pose proof (r_head _ _ _ _ _ _ R) as Hh. pose proof (r_tail _ _ _ _ _ _ R) as Ht.
  destruct (diagnosis_fifo b q _ Hf) as [Hlb Hd]; [by rewrite Hh, Ht|].
  apply s_bind, s_know. intros Hr0. apply s_lib; [eauto with keeps|].
  eapply wp_mono; [by eapply diagnose_spec|]. intros [r diag] s' [_ Hr] p3 <- Ho3. cbn beta iota.
  apply s_bind, s_assert_may; [by apply is_open_line| |].
  { intros Hne. destruct Hr as [[= -> _]|[Href _]]; [done|]. unfold refusal in Href. lia. }
  intros Hok. apply Z.eqb_eq in Hok.
  destruct Hr as [[= _ ->]|(_ & [E|E] & _)]; [|simpl in E; by rewrite E in Hok..].
  cbn [default]. unfold id. rewrite Hd. do 4 (apply s_bind, s_assert; [done|]).
  apply s_bind, (s_cleanup api_lines). intros _ p4 Ho4 _. apply s_ret. congruence.
Qed.
End Api.

(** ** The tests of test_concurrent.c *)

Definition concurrent_lines : list Z := [90; 117; 151].

Lemma is_concurrent_line l : bool_decide (l ∈ concurrent_lines) = true -> l ∈ concurrent_lines.
Proof. apply bool_decide_eq_true. Qed.

(** A test that says what it does. *)
Definition says (lines : list Z) (name : string) (t : Test unit) : Prop :=
  forall r0 p, succeeds lines r0 t p (fun _ p' =>
    p_stdout p' = p_stdout p ++ render_all [Lit "  Testing "; Lit name; Lit "... "; Lit "OK"; nl]).

Ltac begin_concurrent k ss :=
  apply s_bind, s_printf; intros ? Hp;
  let q := fresh "q" in
  apply s_bind; apply (s_start _ _ _ _ _ _ k ss);
  [by apply is_concurrent_line|by left|done|lia|done|done|unfold SIZEOF_HEADER; lia|unfold SIZEOF_CONTROL; lia|];
  intros ? q o ? Hcap Hss _ Ha;
  assert (SIZEOF_HEADER + 4 <= q_slot_size q) as Hs by (rewrite Hss; unfold SIZEOF_HEADER; lia);
  change (ring q k 0 0 []) with (ints q k 0 0 []) in Ha.

Section Concurrent.
Context {P : Posix} {L : PosixLaws P} (out0 : list byte) (H0 : zlen out0 = 4).

Lemma s_finish lines r0 name q o Φ h out p :
  at_queue STRESS_QUEUE o Φ h (out ++ render_all [Lit "  Testing "; Lit name; Lit "... "]) p ->
  succeeds lines r0 (end_test STRESS_QUEUE q;; run (printf [Lit "OK"; nl])) p (fun _ p' =>
    p_stdout p' = out ++ render_all [Lit "  Testing "; Lit name; Lit "... "; Lit "OK"; nl]).
Proof.
  intros [_ Ho]. apply s_bind, s_end. intros p1 Ho1. apply s_printf. intros p2 ->.
  by rewrite Ho1, Ho, <- app_assoc, <- render_all_app.
Qed.

Lemma cycle_loop_run r0 name o q k n i out p (Q : unit -> process -> Prop) :
  SIZEOF_HEADER + 4 <= q_slot_size q -> 0 < q_capacity q -> 0 <= i -> i + Z.of_nat n < 2 ^ 31 ->
  at_queue name o (ints q k i i []) q out p ->
  (forall p', at_queue name o (ints q k (i + Z.of_nat n) (i + Z.of_nat n) []) q out p' -> Q tt p') ->
  succeeds concurrent_lines r0 (cycle_loop out0 q n i) p Q.
Proof.
  intros Hs Hc. revert i p. induction n as [|n IH]; intros i p Hi Hn Ha HQ; cbn [cycle_loop].
  - apply s_ret, HQ. by rewrite Z.add_0_r.
  - apply s_bind. eapply (s_assert_push _ _ _ q k Hs); [exact Ha|done|]. intros p1 Ha1.
    apply s_bind. eapply s_assert_pop; [done|lia|exact Ha1|]. intros p2 Ha2.
    apply s_bind, s_increment; [lia|]. apply IH; [lia|lia|exact Ha2|]. intros p3 Ha3. apply HQ.
    by replace (i + Z.of_nat (S n)) with (i + 1 + Z.of_nat n) by lia.
Qed.

Lemma wraparound_loop_run r0 name o q k n r out p (Q : unit -> process -> Prop) :
  SIZEOF_HEADER + 4 <= q_slot_size q -> 4 <= q_capacity q -> 0 <= r -> r + Z.of_nat n <= 1000000 ->
  at_queue name o (ints q k (4 * r) (4 * r) []) q out p ->
  (forall p', at_queue name o (ints q k (4 * (r + Z.of_nat n)) (4 * (r + Z.of_nat n)) []) q out p' -> Q tt p') ->
  succeeds concurrent_lines r0 (wraparound_loop out0 q n r) p Q.
Proof.
  intros Hs Hc. revert r p. induction n as [|n IH]; intros r p Hr Hn Ha HQ; cbn [wraparound_loop].
  - apply s_ret, HQ. by rewrite Z.add_0_r.
  - apply s_bind. eapply (s_push_loop _ _ _ q k Hs); [exact Ha|unfold zlen; simpl; lia|lia|lia|]. intros p1 Ha1.
    apply s_bind. eapply s_pop_loop; [done|rewrite app_nil_r; exact Ha1|lia..|]. intros p2 Ha2.
    apply s_bind, s_increment; [lia|].
    apply IH; [lia|lia|by replace (4 * (r + 1)) with (4 * r + Z.of_nat 4) by lia|].
    intros p3 Ha3. apply HQ. by replace (r + Z.of_nat (S n)) with (r + 1 + Z.of_nat n) by lia.
Qed.

Lemma rapid_cycle_passes : says concurrent_lines "rapid push/pop cycle" (test_rapid_cycle out0).
Proof.
  intros r0 p. unfold test_rapid_cycle. begin_concurrent 4 64. apply s_bind.
  eapply cycle_loop_run; [exact Hs|by rewrite Hcap|lia..|exact Ha|]. clear Ha. intros p1 Ha.
  apply s_bind. eapply s_empty; [exact Ha|done|]. clear Ha. intros p2 Ha. rewrite Hp in Ha.
  by eapply s_finish.
Qed.

Lemma wraparound_passes : says concurrent_lines "buffer wraparound" (test_wraparound out0).
Proof.
  intros r0 p. unfold test_wraparound. begin_concurrent 3 64. apply s_bind.
  eapply wraparound_loop_run; [exact Hs|by rewrite Hcap|lia..|exact Ha|]. clear Ha. intros p1 Ha.
  apply s_bind. eapply s_empty; [exact Ha|done|]. clear Ha. intros p2 Ha. rewrite Hp in Ha.
  by eapply s_finish.
Qed.

Lemma fill_drain_passes : says concurrent_lines "fill and drain" (test_fill_drain out0).
Proof.
  intros r0 p. unfold test_fill_drain. begin_concurrent 6 32. apply s_bind.
  eapply (s_push_loop _ _ _ q 6 Hs); [exact Ha|by rewrite Hcap|lia..|]. clear Ha. intros p1 Ha.
  apply s_bind. eapply s_full; [exact Ha|by rewrite Hcap|]. clear Ha. intros p2 Ha.
  apply s_bind. eapply s_pop_loop; [done|rewrite app_nil_r; exact Ha|lia..|]. clear Ha. intros p3 Ha.
  apply s_bind. eapply s_empty; [exact Ha|done|]. clear Ha. intros p4 Ha. rewrite Hp in Ha.
  by eapply s_finish.
Qed.
End Concurrent.

(** ** The theorems *)

Definition test_names : list string :=
  ["open_close"; "push_pop"; "empty_full"; "peek_release"; "reserve_commit"; "metrics"; "fill_level";
   "diagnose"; "strerror"].

(** What the two programs print when no assertion fails. *)
Definition api_report : list byte :=
  render_all ([Lit "NABD API Unit Tests"; nl; Lit "==================="; nl; nl] ++
    concat (map (fun name => [Lit "  Testing "; Lit name; Lit "... "; Lit "OK"; nl]) test_names) ++
    [nl; Dec 9; Lit " tests passed!"; nl]).

Definition concurrent_report : list byte :=
  render_all ([Lit "NABD Concurrency Tests"; nl; Lit "======================"; nl; nl] ++
    concat (map (fun name => [Lit "  Testing "; Lit name; Lit "... "; Lit "OK"; nl])
      ["rapid push/pop cycle"; "buffer wraparound"; "fill and drain"])).

Lemma s_run_test r0 name t i out p (Q : Z -> process -> Prop) :
  passes api_lines t -> - 2 ^ 31 <= i + 1 < 2 ^ 31 -> p_stdout p = render_all out ->
  (forall p', p_stdout p' = render_all (out ++ [Lit "  Testing "; Lit name; Lit "... "; Lit "OK"; nl]) -> Q (i + 1) p') ->
  succeeds api_lines r0 (RUN_TEST name t i) p Q.
Proof.
  intros Ht Hi Ho HQ. apply s_bind, s_printf. intros p1 Ho1. apply s_bind. eapply s_mono; [apply Ht|].
  intros [] p2 Ho2. apply s_bind, s_printf. intros p3 Ho3. apply s_increment; [done|]. apply HQ.
  by rewrite Ho3, Ho2, Ho1, Ho, <- !render_all_app, <- app_assoc.
Qed.

Section Theorems.
Context {P : Posix} {L : PosixLaws P}.

(** C21: The API tests pass.  On every operating system that behaves as documented and lets the
    program unlink its own name ([unlink_works]: without that a queue left half created
    could be attached), whatever the uninitialised variables contain, [main] of
    test_api.c does nothing undefined, and either returns 0 having printed the success of
    all nine tests, or is aborted by an assertion that [nabd_open] or [nabd_diagnose]
    succeeded, and then the system has refused the program at least one valid request; no
    other assertion ever fails, and none fails on a system that refuses nothing. *)
Theorem api_tests_pass stats0 buf0 small0 data0 len0 slot0 metrics0 text0 diagnostic0 s :
  unlink_works API_QUEUE ->
  zlen buf0 = 128 -> zlen small0 = 64 -> zlen text0 = 512 ->
  wp (api_main stats0 buf0 small0 data0 len0 slot0 metrics0 text0 diagnostic0) (Process s [] [] 0)
    (fun v p => match v with
                | Ran code => code = 0 /\ p_stdout p = api_report
                | Aborted line => line ∈ api_lines /\ refusal s (p_sys p)
                end).
Proof.
  intros U Hbuf Hsmall Htext.
  assert (succeeds api_lines (s_refused s)
    (api_main stats0 buf0 small0 data0 len0 slot0 metrics0 text0 diagnostic0)
    (Process s [] [] 0) (fun code p => code = 0 /\ p_stdout p = api_report)) as Hs.
  2: { eapply wp_mono; [by apply Hs|]. intros [code|line] p; [by intros [_ ?]|done]. }
  unfold api_main. apply s_bind, s_printf. intros p1 Ho. apply s_bind, s_printf. intros p2 Ho2.
  rewrite Ho in Ho2. cbn [p_stdout app] in Ho2. rewrite <- render_all_app in Ho2.
  apply s_bind. eapply s_run_test; [apply open_close_passes|done|exact Ho2|]. intros p3 Ho3.
  apply s_bind. eapply s_run_test; [by apply push_pop_passes|done|exact Ho3|]. intros p4 Ho4.
  apply s_bind. eapply s_run_test; [apply empty_full_passes|done|exact Ho4|]. intros p5 Ho5.
  apply s_bind. eapply s_run_test; [apply peek_release_passes|done|exact Ho5|]. intros p6 Ho6.
  apply s_bind. eapply s_run_test; [by apply reserve_commit_passes|done|exact Ho6|]. intros p7 Ho7.
  apply s_bind. eapply s_run_test; [by apply metrics_passes|done|exact Ho7|]. intros p8 Ho8.
  apply s_bind. eapply s_run_test; [apply fill_level_passes|done|exact Ho8|]. intros p9 Ho9.
  apply s_bind. eapply s_run_test; [apply diagnose_passes|done|exact Ho9|]. intros p10 Ho10.
  apply s_bind. eapply s_run_test; [apply strerror_passes|done|exact Ho10|]. intros p11 Ho11.
  apply s_bind, s_printf. intros p12 Ho12. apply s_bind, (s_cleanup api_lines). intros ? p13 Ho13 _.
  apply s_ret. split; [done|]. rewrite Ho13, Ho12, Ho11. clear. by vm_compute.
Qed.

(** The single-process tests of test_concurrent.c pass: ten thousand pushes and pops in
    turn, a hundred rounds over a ring of eight slots, and a ring filled and drained; only
    an assertion that [nabd_open] succeeded can abort them, after the system refused a
    request. *)
Theorem concurrent_tests_pass out0 s :
  zlen out0 = 4 ->
  wp (concurrent_main out0) (Process s [] [] 0)
    (fun v p => match v with
                | Ran _ => p_stdout p = concurrent_report
                | Aborted line => line ∈ concurrent_lines /\ refusal s (p_sys p)
                end).
Proof.
  intros H0.
  assert (succeeds concurrent_lines (s_refused s) (concurrent_main out0) (Process s [] [] 0)
    (fun _ p => p_stdout p = concurrent_report)) as Hs.
  2: { eapply wp_mono; [by apply Hs|]. intros [x|line] p; [by intros [_ ?]|done]. }
  unfold concurrent_main. apply s_bind, s_printf. intros p1 Ho1. apply s_bind, s_printf. intros p2 Ho2.
  apply s_bind. eapply s_mono; [by apply rapid_cycle_passes|]. intros [] p3 Ho3.
  apply s_bind. eapply s_mono; [by apply wraparound_passes|]. intros [] p4 Ho4.
  eapply s_mono; [by apply fill_drain_passes|]. intros [] p5 ->.
  rewrite Ho4, Ho3, Ho2, Ho1. clear. by vm_compute.
Qed.
End Theorems.

(** ** Witnesses *)

Lemma simple_unlink_works name : @unlink_works (SimplePosix no_faults) name.
Proof. intros s [o Ho]. simpl. by rewrite Ho. Qed.

Definition blank (n : nat) : list byte := replicate n Byte.x00.
Definition no_metrics : nabd_metrics_t := Metrics 0 0 0 0 0 0 0 0 0 0 0 0 0 0 0 0 0.

Lemma api_tests_pass_witness :
  let run := @api_main (SimplePosix no_faults) no_stats (blank 128) (blank 64) 0 0 0 no_metrics (blank 512)
    (diag0 NABD_STATE_OK) in
  match run (Process boot [] [] 0) with Some (Ran code, _) => code = 0 | _ => False end /\
  wp run (Process boot [] [] 0) (fun v p => match v with
                | Ran code => code = 0 /\ p_stdout p = api_report
                | Aborted line => line ∈ api_lines /\ refusal boot (p_sys p)
                end).
Proof.
  intros run. split; [vm_compute; reflexivity|].
  exact (@api_tests_pass (SimplePosix no_faults) (SimplePosix_laws no_faults) no_stats (blank 128) (blank 64) 0 0 0
    no_metrics (blank 512) (diag0 NABD_STATE_OK) boot (simple_unlink_works _) eq_refl eq_refl eq_refl).
Defined.

Lemma concurrent_tests_pass_witness :
  wp (@concurrent_main (SimplePosix no_faults) (blank 4)) (Process boot [] [] 0)
    (fun v p => match v with
                | Ran _ => p_stdout p = concurrent_report
                | Aborted line => line ∈ concurrent_lines /\ refusal boot (p_sys p)
                end).
Proof. exact (@concurrent_tests_pass (SimplePosix no_faults) (SimplePosix_laws no_faults) (blank 4) boot eq_refl). Defined.
