(* ===== verification/Transfer.v ===== *)
(** * A transfer between two processes

    What the stress test of src/tests/test_concurrent.c and the benchmark of
    src/benchmarks/latency_bench.c have in common from the fork on: the parent pushes
    messages one after the other, trying again while the queue is full; the child closes
    the handle it inherited, opens the queue by name, pops until it has received as many,
    closes its handle and exits with 0, or ends earlier in a way of its own.
    Pushes and pops are threads of Spsc.v, one step per memory access, under
    release/acquire memory; the child's calls of [nabd_open] and [nabd_close], which write
    nothing to the queue, are one step each on the system as the child sees it ([x_sys]).
    What the child does with the result of a pop is its program ([child]); what makes a
    transfer succeed is the interface [ChildLaws]. *)

From S2P Require Import Prelude Words Pow2 Memory Layout Fifo Queue Ring Posix Lifecycle Spsc SpscInv SpscCorrect.
From stdpp Require Import relations.
Local Open Scope Z_scope.

(** ** The two processes *)

(** [while (nabd_push(q, ...) == NABD_FULL) { ... }], then [i++] *)
Definition after_push (e : evt) (i : Z) : Z :=
  match e with
  | Ret NABD_FULL _ => i
  | Ret _ _ => i + 1
  | _ => i
  end.

(** How a process ended: with an exit code, or aborted by the assertion on a line. *)
Inductive status := Exited (code : Z) | Killed (line : Z).

(** The program of a child over its variables [L]: the number of messages it has counted,
    the condition of its loop, the buffer it pops into, what it does with the result of a
    pop: it goes on ([inl]), or exits with a code ([inr]); and how it ends when
    [nabd_open] fails. *)
Record child (L : Type) := Child {
  received : L -> Z;
  more : L -> bool;
  buffer : L -> msg;
  after_pop : evt -> L -> L + Z;
  no_queue : status
}.
Arguments Child {L}.
Arguments received {L}.
Arguments more {L}.
Arguments buffer {L}.
Arguments after_pop {L}.
Arguments no_queue {L}.

Record transfer (L : Type) := Transfer {
  x_spsc : state;
  x_i : Z;                      (* the parent: the next message to push *)
  x_child : L;                  (* the variables of the child *)
  x_sys : sys;                  (* the system as the child sees it *)
  x_cq : option (Z * nabd);     (* the queue the child has opened *)
  x_exit : option status        (* its exit status *)
}.
Arguments Transfer {L}.
Arguments x_spsc {L}.
Arguments x_i {L}.
Arguments x_child {L}.
Arguments x_sys {L}.
Arguments x_cq {L}.
Arguments x_exit {L}.

(** What a child must do for a transfer of [count] messages to succeed: wait while the
    queue is empty, and count the messages it expects. *)
Class ChildLaws {L} (C : child L) (count : Z) (payload : Z -> msg) (cap : Z) := {
  child_ok : L -> Prop;
  child_buffer l : child_ok l -> zlen (buffer C l) = cap;
  child_more l : child_ok l -> more C l = (received C l <? count);
  child_waits l e : child_ok l -> e = Tau \/ e = Ret NABD_EMPTY None -> after_pop C e l = inl l;
  child_takes l : child_ok l -> 0 <= received C l < count -> exists l',
    after_pop C (Ret NABD_OK (Some (payload (received C l)))) l = inl l' /\ child_ok l' /\
    received C l' = received C l + 1
}.

(** The system [s] with [m] in the memory mapped at [a]: what was written there since. *)
Definition refresh (a : Z) (m : mem) (s : sys) : sys :=
  match s_map s !! a with
  | Some (o, len) =>
      match s_obj s !! o with
      | Some b => set_obj o (m ++ drop (Z.to_nat len) b) s
      | None => s
      end
  | None => s
  end.

(** [nabd_close(q); cq = nabd_open(QUEUE_NAME, 0, 0, NABD_CONSUMER);] *)
Definition attach {P : Posix} (name : string) (q : Z * nabd) : IO (option (Z * nabd)) :=
  nabd_close (Some q);;
  nabd_open (Some name) 0 0 NABD_CONSUMER.

(** ** Attaching *)

(** A handle with the same geometry pops in the same way. *)
Lemma c_next_same q cq a ts sh pc v : same_ring q cq -> c_next q a ts sh pc v = c_next cq a ts sh pc v.
Proof.
  intros (_ & Hm & Hs & Hb). unfold c_next, cell, get_slot_payload, get_slot. by rewrite Hm, Hs, Hb.
Qed.

Lemma wp_attach {P : Posix} {PL : PosixLaws P} name o (Φ : mem -> Prop) ptr q s0 k H T ms m :
  serves name o Φ q s0 -> ring q k H T ms m ->
  wp (attach name (ptr, q)) (refresh (default 0 (q_ctrl q)) m s0)
    (fun r s' => match r with Some (_, cq) => same_ring q cq | None => refusal s0 s' end).
Proof.
  intros (Hn & a & len & b & Ha & Hm & Hb & _) R. rewrite Ha. simpl. unfold refresh. rewrite Hm, Hb.
  set (b' := m ++ drop (Z.to_nat len) b). apply wp_bind. eapply wp_mono.
  { eapply wp_keeps; [apply (wp_close (ptr, q) _ (fun _ s1 => s_shm s1 = s_shm s0 /\
      s_obj s1 = s_obj (set_obj o b' s0))); intros s1 H1 H2; split; [exact H1|exact H2]|apply nabd_close_grows]. }
  intros _ s1 [[Hs1 Ho1] Hg]. unfold more_refused in Hg. simpl in Hg.
  apply wp_open; [by right|unfold refusal; intros; lia|congruence|].
  intros p' nm fd s2 _ _ Hr (o2 & Hfd & Hn2 & [[Hn1 Ho2]|[Hn1 _]]); [|congruence].
  rewrite Hs1, Hn in Hn1. injection Hn1 as <-. change (has_flag _ NABD_CREATE) with false. cbv iota.
  eapply wp_mono; [eapply (open_attach_ring _ _ _ _ _ o b' q); [done| |]|].
  - rewrite Ho2, Ho1. apply lookup_insert_eq.
  - apply (ring_untake _ _ _ _ _ _ (length m)). unfold b'. by rewrite take_app_length.
  - intros [[p2 cq]|] s3 HQ; [by destruct HQ as (a2 & w & _ & _ & _ & Hsame & _)|].
    unfold refusal, no_refusal in *. lia.
Qed.

Section Transfer.
Context {P : Posix} {L : Type} (C : child L) (name : string) (ptr : Z) (q : nabd).
Context (count : Z) (payload : Z -> msg).

Abbreviation transfer := (transfer L).
Abbreviation x_received s := (received C (x_child s)).

Inductive transfer_step (s : transfer) : transfer -> Prop :=
  | parent_step ts e sh pc v :
      let t := x_spsc s in
      x_i s < count ->
      p_next q (CallPush (payload (x_i s))) ts (st_sh t) (st_pp t) (st_pv t) = Some (e, sh, pc, v) ->
      transfer_step s
        (Transfer (State sh pc v (st_cp t) (st_cv t) (st_pushed t ++ moved e) (st_popped t))
           (after_push e (x_i s)) (x_child s) (x_sys s) (x_cq s) (x_exit s))
  | child_attaches cq s' :
      x_exit s = None -> x_cq s = None ->
      attach name (ptr, q)
        (refresh (default 0 (q_ctrl q)) (sh_mem (st_sh (x_spsc s))) (x_sys s)) = Some (cq, s') ->
      transfer_step s
        (Transfer (x_spsc s) (x_i s) (x_child s) s' cq
           (match cq with Some _ => None | None => Some (no_queue C) end))
  | child_step h cq ts e sh pc v :
      let t := x_spsc s in
      let l := x_child s in
      x_exit s = None -> x_cq s = Some (h, cq) -> more C l = true ->
      c_next cq (CallPop (zlen (buffer C l))) ts (st_sh t) (st_cp t) (st_cv t) = Some (e, sh, pc, v) ->
      let t' := State sh (st_pp t) (st_pv t) pc v (st_pushed t) (st_popped t ++ moved e) in
      transfer_step s
        (match after_pop C e l with
         | inl l => Transfer t' (x_i s) l (x_sys s) (x_cq s) None
         | inr code => Transfer t' (x_i s) l (x_sys s) (x_cq s) (Some (Exited code))
         end)
  | child_exits cq r s' :
      x_exit s = None -> x_cq s = Some cq -> more C (x_child s) = false ->
      nabd_close (Some cq) (x_sys s) = Some (r, s') ->
      transfer_step s
        (Transfer (x_spsc s) (x_i s) (x_child s) s' (x_cq s) (Some (Exited 0))).

(** The queue just created in memory [m] of the system [s0]; [l] has what the child does not
    initialise. *)
Definition transfer_start (m : mem) (s0 : sys) (l : L) : transfer :=
  Transfer (initial m) 0 l s0 None None.

(** The parent has pushed everything and [wait] returns, the child having exited with 0. *)
Definition transfer_done (s : transfer) : Prop := x_i s = count /\ x_exit s = Some (Exited 0).

(** The child has ended because the system refused it something after [s0]. *)
Definition transfer_lost (s0 : sys) (s : transfer) : Prop :=
  x_exit s = Some (no_queue C) /\ x_cq s = None /\ refusal s0 (x_sys s).

(** ** The parent, whatever the child does *)

Context {PL : PosixLaws P}.
Context (k : Z) (m : mem) (s0 : sys) (o : nat) (l0 : L).
Context (R0 : ring q k 0 0 [] m) (Hserves : serves name o (eq m) q s0) (Hcount : 0 <= count).
Context (Hlen : forall i, 0 <= i < count ->
           zlen (payload i) < 2 ^ 16 /\ SIZEOF_HEADER + zlen (payload i) <= q_slot_size q).

Let W : wf_handle q k := r_wf _ _ _ _ _ _ R0.

Definition pushes (i : Z) (pc : ppc) : Prop :=
  match pc with
  | PIdle => True
  | PLoadHead (RPush d) | PLoadTail (RPush d) _ | PPayload d _ | PHeader d _ | PPublish d _ =>
      d = payload i /\ i < count
  | _ => False
  end.

Record parent_ok (s : transfer) : Prop := {
  xo_reach : reachable q m (x_spsc s);
  xo_i : 0 <= x_i s <= count;
  xo_pushed : st_pushed (x_spsc s) = map payload (seqZ 0 (x_i s));
  xo_parent : pushes (x_i s) (st_pp (x_spsc s));
  xo_attached h cq : x_cq s = Some (h, cq) -> same_ring q cq;
  xo_alone : x_cq s = None -> x_child s = l0 /\ st_cp (x_spsc s) = CIdle /\
    st_popped (x_spsc s) = [] /\ (x_exit s = None /\ x_sys s = s0 \/ transfer_lost s0 s)
}.

Lemma start_parent_ok : parent_ok (transfer_start m s0 l0).
Proof. split; simpl; try done; [constructor|]. intros _. split_and!; auto. Qed.

Lemma kept_payloads i : i <= count -> map kept (map payload (seqZ 0 i)) = map payload (seqZ 0 i).
Proof.
  intros Hi. apply map_kept, Forall_forall. intros d (v & -> & Hv)%list_elem_of_fmap.
  apply elem_of_seqZ in Hv. destruct (Hlen v); [lia|done].
Qed.

(** The invariant of the two threads, in a state of the transfer. *)
Lemma parent_inv s : parent_ok s -> exists nH nT,
  inv q k (st_sh (x_spsc s)) (st_pp (x_spsc s)) (st_pv (x_spsc s)) (st_cp (x_spsc s)) (st_cv (x_spsc s))
    (map payload (seqZ 0 (x_i s))) (st_popped (x_spsc s)) nH nT /\
  Z.of_nat nH = x_i s /\ zlen (st_popped (x_spsc s)) = Z.of_nat nT /\ (nT <= nH)%nat.
Proof.
  intros Ok. destruct (reachable_inv q k W m _ R0 (xo_reach _ Ok)) as (nH & nT & I).
  rewrite (xo_pushed _ Ok), kept_payloads in I by apply (xo_i _ Ok). exists nH, nT. split; [done|].
  pose proof (i_nH _ _ _ _ _ _ _ _ _ _ _ I) as HnH. pose proof (inv_order _ _ _ _ _ _ _ _ _ _ _ I).
  rewrite length_map, length_seqZ in HnH. pose proof (xo_i _ Ok). split; [lia|]. split; [|lia].
  rewrite (i_popped _ _ _ _ _ _ _ _ _ _ _ I). unfold zlen.
  rewrite length_take, length_map, length_seqZ. lia.
Qed.

(** A message in the queue is the one of its position. *)
Lemma message_value i n d : map payload (seqZ 0 i) !! n = Some d -> d = payload (Z.of_nat n) /\ Z.of_nat n < i.
Proof.
  rewrite list_lookup_fmap. destruct (seqZ 0 i !! n) as [v|] eqn:E; [|done]. intros [= <-].
  apply lookup_seqZ in E as [-> ?]. split; [f_equal|]; lia.
Qed.

Lemma parent_step_ok s ts e sh pc v :
  let t := x_spsc s in
  parent_ok s -> x_i s < count ->
  p_next q (CallPush (payload (x_i s))) ts (st_sh t) (st_pp t) (st_pv t) = Some (e, sh, pc, v) ->
  (moved e = [] /\ after_push e (x_i s) = x_i s \/
   moved e = [payload (x_i s)] /\ after_push e (x_i s) = x_i s + 1) /\
  pushes (after_push e (x_i s)) pc.
Proof.
  intros t Ok Hi. pose proof (xo_parent _ Ok) as Hp. fold t in Hp. unfold p_next.
  destruct (st_pp t) as [|h|[d|]|[d|] h|d h|d h|d h]; cbn [pushes] in Hp; try done.
  - destruct (Hlen (x_i s)) as [_ Hfit]; [pose proof (xo_i _ Ok); lia|].
    rewrite (max_payload_eq q k W). zb_false (q_slot_size q - SIZEOF_HEADER <? zlen (payload (x_i s))).
    intros [= <- <- <- <-]. by split; [left|].
  - destruct (NABD_LOAD_RELAXED _ _ _ _) as [[x v']|]; [|done]. intros [= <- <- <- <-]. by split; [left|].
  - destruct (NABD_LOAD_ACQUIRE _ _ _ _) as [[x v']|]; [|done]. cbn [mbind option_bind].
    case_zb; intros [= <- <- <- <-]; by split; [left|].
  - destruct (memcpy_in _ _ _ _) as [[[] m']|]; [|done]. intros [= <- <- <- <-]. by split; [left|].
  - destruct (fill_header _ _ _ _) as [[[] m']|]; [|done]. intros [= <- <- <- <-]. by split; [left|].
  - destruct (NABD_STORE_RELEASE _ _ _ _) as [[sh' v']|]; [|done]. intros [= <- <- <- <-].
    destruct Hp as [-> _]. by split; [right|].
Qed.

Lemma payloads_snoc i : 0 <= i -> map payload (seqZ 0 (i + 1)) = map payload (seqZ 0 i) ++ [payload i].
Proof.
  intros Hi. rewrite <- (Z2Nat.id i) by done. replace (Z.of_nat (Z.to_nat i) + 1) with (Z.of_nat (S (Z.to_nat i))) by lia.
  by rewrite seqZ_S, map_app.
Qed.

(** The child attaches to the queue as the parent has left it. *)
Lemma attach_ok s : parent_ok s -> x_sys s = s0 ->
  wp (attach name (ptr, q)) (refresh (default 0 (q_ctrl q)) (sh_mem (st_sh (x_spsc s))) (x_sys s))
    (fun r s' => match r with Some (_, cq) => same_ring q cq | None => refusal s0 s' end).
Proof.
  intros Ok ->. destruct (parent_inv s Ok) as (nH & nT & I & _).
  exact (wp_attach _ _ _ _ _ _ _ _ _ _ _ Hserves (i_ring _ _ _ _ _ _ _ _ _ _ _ I)).
Qed.

Lemma parent_ok_step s s' : parent_ok s -> transfer_step s s' -> parent_ok s'.
Proof.
  intros Ok Hs. destruct Hs as [ts e sh pc v t Hi E|cq s' Hx Hq E|h cq ts e sh pc v t l Hx Hq Hr E t'|cq r s' Hx Hq Hr E].
  - destruct (parent_step_ok s ts e sh pc v Ok Hi E) as [Hm Hp]. destruct Ok. split; cbn; try done.
    + eapply reach_step; [done|]. by eapply step_p.
    + destruct Hm as [[_ ->]|[_ ->]]; lia.
    + fold t in xo_pushed0. rewrite xo_pushed0. destruct Hm as [[-> ->]|[-> ->]]; [apply app_nil_r|].
      symmetry. apply payloads_snoc. lia.
  - destruct (xo_alone _ Ok Hq) as (Hl & Hc & Hp & [[_ Hs]|[Hs _]]); [|congruence].
    destruct (attach_ok s Ok Hs) as (r & s1 & E1 & Hr). rewrite E in E1. injection E1 as <- <-.
    destruct Ok. split; cbn; try done; [intros h cq' ->; exact Hr|]. intros ->. split_and!; auto.
    right. by split.
  - rewrite <- (c_next_same q cq) in E by exact (xo_attached _ Ok _ _ Hq).
    pose proof (reach_step q m _ _ (xo_reach s Ok) (step_c q t _ ts e sh pc v E)) as Hreach.
    destruct Ok, (after_pop C e l); split; cbn; try done; congruence.
  - destruct Ok. split; cbn; try done. congruence.
Qed.

Lemma parent_run_start s : rtc transfer_step (transfer_start m s0 l0) s -> parent_ok s.
Proof.
  intros Hr. remember (transfer_start m s0 l0) as s1 eqn:E1. assert (parent_ok s1) as Ok by (rewrite E1; apply start_parent_ok).
  clear E1. induction Hr; eauto using parent_ok_step.
Qed.

(** Without a child the parent gets no further than the capacity of the queue. *)
Lemma alone_bounded s : parent_ok s -> x_cq s = None -> x_i s <= q_capacity q.
Proof.
  intros Ok Hq. destruct (xo_alone _ Ok Hq) as (_ & _ & Hp & _).
  destruct (parent_inv s Ok) as (nH & nT & I & HnH & HnT & _).
  pose proof (r_count _ _ _ _ _ _ (i_ring _ _ _ _ _ _ _ _ _ _ _ I)) as Hc.
  pose proof (r_bound _ _ _ _ _ _ (i_ring _ _ _ _ _ _ _ _ _ _ _ I)).
  rewrite Hp in HnT. change (zlen (@nil msg)) with 0 in HnT. rewrite (wf_cap _ _ W). lia.
Qed.

(** A child that could not attach never comes back. *)
Lemma lost_stays s s' : transfer_lost s0 s -> transfer_step s s' -> transfer_lost s0 s'.
Proof. intros (Hx & Hq & Hr) Hs. destruct Hs; try congruence. by split. Qed.

(** ** The invariant of a transfer that succeeds *)

Context (cap : Z) `{K : !ChildLaws C count payload cap}.
Context (Hcap : forall i, 0 <= i < count -> zlen (payload i) <= cap).
Context (Hl0 : child_ok l0) (Hr0 : received C l0 = 0).

Definition pops_only (pc : cpc) : Prop :=
  match pc with
  | CIdle | CCopy _ _ | CPublish _ _ => True
  | CLoadTail r | CLoadHead r _ | CLength r _ => r = RPop cap
  | _ => False
  end.

Record transfer_ok (s : transfer) : Prop := {
  xo_p :> parent_ok s;
  xo_child : pops_only (st_cp (x_spsc s));
  xo_received : x_received s = zlen (st_popped (x_spsc s));
  xo_local : child_ok (x_child s);
  xo_exit : x_exit s = None \/ x_exit s = Some (Exited 0) /\ x_received s = count \/
            transfer_lost s0 s
}.

Lemma start_ok : transfer_ok (transfer_start m s0 l0).
Proof. split; try done; simpl; [apply start_parent_ok|by left]. Qed.

Lemma transfer_inv s : transfer_ok s -> exists nH nT,
  inv q k (st_sh (x_spsc s)) (st_pp (x_spsc s)) (st_pv (x_spsc s)) (st_cp (x_spsc s)) (st_cv (x_spsc s))
    (map payload (seqZ 0 (x_i s))) (st_popped (x_spsc s)) nH nT /\
  Z.of_nat nH = x_i s /\ Z.of_nat nT = x_received s /\ (nT <= nH)%nat.
Proof.
  intros Ok. destruct (parent_inv s Ok) as (nH & nT & I & HnH & HnT & Hle). exists nH, nT.
  by rewrite (xo_received _ Ok), HnT.
Qed.

(** The child goes on: with the next message, or without. *)
Lemma child_step_ok s ts e sh pc v :
  let t := x_spsc s in
  transfer_ok s -> x_received s < count ->
  c_next q (CallPop (zlen (buffer C (x_child s)))) ts (st_sh t) (st_cp t) (st_cv t) = Some (e, sh, pc, v) ->
  pops_only pc /\ exists l, child_ok l /\ after_pop C e (x_child s) = inl l /\
  (moved e = [] /\ l = x_child s \/
   moved e = [payload (x_received s)] /\ received C l = x_received s + 1).
Proof.
  intros t Ok Hr. pose proof (xo_child _ Ok) as Hc. destruct (transfer_inv s Ok) as (nH & nT & I & HnH & HnT & _).
  pose proof (i_cp _ _ _ _ _ _ _ _ _ _ _ I) as Hcp. pose proof (xo_local _ Ok) as Hl.
  rewrite (child_buffer _ Hl). fold t in Hc, I, Hcp.
  assert (forall e, e = Tau \/ e = Ret NABD_EMPTY None -> exists l, child_ok l /\ after_pop C e (x_child s) = inl l /\
    (moved e = [] /\ l = x_child s \/ moved e = [payload (x_received s)] /\ received C l = x_received s + 1)) as Hwait.
  { intros e0 He. exists (x_child s). split; [done|]. split; [by apply child_waits|]. by destruct He as [-> | ->]; left. }
  destruct (st_cp t) as [|t0 n|r|r t0|r t0|t0 n|d|t0 d] eqn:Hpc; cbn [pops_only cpc_ok] in Hc, Hcp; try done.
  - simpl. intros [= <- <- <- <-]. split; [done|auto].
  - simpl. destruct (NABD_LOAD_RELAXED _ _ _ _) as [[x v']|]; [|done]. intros [= <- <- <- <-]. split; [done|auto].
  - simpl. destruct (NABD_LOAD_ACQUIRE _ _ _ _) as [[x v']|]; [|done]. cbn [mbind option_bind].
    case_zb; intros [= <- <- <- <-]; (split; [done|auto]).
  - destruct Hcp as [-> Hlt]. destruct (tail_message q k _ _ _ _ _ _ _ _ _ I Hlt) as (d & Hd & Hh).
    apply message_value in Hd as [-> Hi]. simpl. rewrite (get_slot_off q k W).
    rewrite (holds_ld_length q k _ _ _ _ (i_ring _ _ _ _ _ _ _ _ _ _ _ I) _ _ Hh). simpl. subst r.
    pose proof (Hcap (Z.of_nat nT) ltac:(lia)). zb_false (cap <? zlen (payload (Z.of_nat nT))).
    intros [= <- <- <- <-]. split; [done|auto].
  - simpl. destruct (load _ _ _) as [[d m']|]; [|done]. intros [= <- <- <- <-]. split; [done|auto].
  - destruct Hcp as (-> & Hlt & Hd). apply message_value in Hd as [-> Hlti].
    simpl. destruct (NABD_STORE_RELEASE _ _ _ _) as [[sh' v']|]; [|done]. intros [= <- <- <- <-].
    split; [done|]. rewrite HnT. destruct (child_takes (x_child s) Hl) as (l & Ha & Hl' & Hrec); [lia|].
    exists l. split_and!; [done..|by right].
Qed.

Lemma more_iff s : transfer_ok s -> more C (x_child s) = (x_received s <? count).
Proof. intros Ok. apply child_more, (xo_local _ Ok). Qed.

Lemma transfer_step_ok s s' : transfer_ok s -> transfer_step s s' -> transfer_ok s'.
Proof.
  intros Ok Hs. pose proof (parent_ok_step s s' Ok Hs) as Ok'.
  destruct Hs as [ts e sh pc v t Hi E|cq s' Hx Hq E|h cq ts e sh pc v t l Hx Hq Hr E t'|cq r s' Hx Hq Hr E].
  - by destruct Ok.
  - destruct Ok. split; cbn; try done. destruct cq as [cq|]; [by left|]. right. right.
    by destruct (xo_alone _ Ok' eq_refl) as (_ & _ & _ & [[? _]|?]).
  - unfold l in *. rewrite (more_iff _ Ok) in Hr. zbool.
    rewrite <- (c_next_same q cq) in E by exact (xo_attached _ Ok _ _ Hq).
    destruct (child_step_ok s ts e sh pc v Ok Hr E) as (Hp & l' & Hl & Ha & Hm).
    rewrite Ha in *. destruct Ok.
    destruct Hm as [[Hm ->]|[Hm Hrec]]; split; cbn; try done; try (by left); rewrite Hm.
    + by rewrite app_nil_r.
    + by rewrite zlen_app, Hrec, xo_received0.
  - rewrite (more_iff _ Ok) in Hr. zbool.
    destruct (transfer_inv s Ok) as (nH & nT & _ & HnH & HnT & Hle). pose proof (xo_i _ Ok).
    destruct Ok. split; cbn; try done. right. left. split; [done|lia].
Qed.

Lemma transfer_run_ok s s' : transfer_ok s -> rtc transfer_step s s' -> transfer_ok s'.
Proof. intros Ok Hr. induction Hr; eauto using transfer_step_ok. Qed.

(** ** Completion *)

(** The child has opened the queue and not exited. *)
Definition running (s : transfer) : Prop := x_exit s = None /\ is_Some (x_cq s).

(** [s'] is reached from [s] by the child alone, and by the parent alone. *)
Definition child_run (s s' : transfer) : Prop :=
  rtc transfer_step s s' /\ running s' /\ x_i s' = x_i s /\ st_pp (x_spsc s') = st_pp (x_spsc s).

Definition parent_run (s s' : transfer) : Prop :=
  rtc transfer_step s s' /\ (running s -> running s') /\ x_received s' = x_received s /\
  st_cp (x_spsc s') = st_cp (x_spsc s).

Lemma child_run_trans s1 s2 s3 : child_run s1 s2 -> child_run s2 s3 -> child_run s1 s3.
Proof. intros (? & ? & ? & ?) (? & ? & ? & ?). split; [by etrans|]. split_and!; [done|congruence..]. Qed.

Lemma parent_run_trans s1 s2 s3 : parent_run s1 s2 -> parent_run s2 s3 -> parent_run s1 s3.
Proof. intros (? & ? & ? & ?) (? & ? & ? & ?). split; [by etrans|]. split_and!; [auto|congruence..]. Qed.

(** One step of the child, with what it received. *)
Lemma child_one s ts e sh pc v :
  let t := x_spsc s in
  transfer_ok s -> running s -> x_received s < count ->
  c_next q (CallPop cap) ts (st_sh t) (st_cp t) (st_cv t) = Some (e, sh, pc, v) ->
  exists s1, child_run s s1 /\ transfer_ok s1 /\ x_received s1 = x_received s + zlen (moved e) /\
    st_sh (x_spsc s1) = sh /\ st_cp (x_spsc s1) = pc /\ st_cv (x_spsc s1) = v.
Proof.
  intros t Ok [Hx [[h cq] Hq]] Hr E. rewrite <- (child_buffer _ (xo_local _ Ok)) in E.
  pose proof E as Ec. rewrite (c_next_same q cq) in Ec by exact (xo_attached _ Ok _ _ Hq).
  assert (more C (x_child s) = true) as Hmore by (rewrite (more_iff _ Ok); by apply Z.ltb_lt).
  pose proof (child_step s h cq ts e sh pc v Hx Hq Hmore Ec) as Hs.
  pose proof (transfer_step_ok _ _ Ok Hs) as Ok1. cbv zeta in Hs, Ok1.
  destruct (child_step_ok s ts e sh pc v Ok Hr E) as (_ & l' & _ & Ha & Hm). rewrite Ha in *.
  eexists. split; [split; [by apply rtc_once|]; split; [split; [done|by exists (h, cq)]|done]|].
  split; [exact Ok1|]. cbn. split; [|done]. destruct Hm as [[-> ->]|[-> ->]]; unfold zlen; simpl; lia.
Qed.

Lemma parent_one s ts e sh pc v :
  let t := x_spsc s in
  transfer_ok s -> x_i s < count ->
  p_next q (CallPush (payload (x_i s))) ts (st_sh t) (st_pp t) (st_pv t) = Some (e, sh, pc, v) ->
  exists s1, parent_run s s1 /\ transfer_ok s1 /\ x_i s1 = x_i s + zlen (moved e) /\
    st_sh (x_spsc s1) = sh /\ st_pp (x_spsc s1) = pc /\ st_pv (x_spsc s1) = v.
Proof.
  intros t Ok Hi E. pose proof (parent_step s ts e sh pc v Hi E) as Hs.
  pose proof (transfer_step_ok _ _ Ok Hs) as Ok1. cbv zeta in Hs, Ok1.
  destruct (parent_step_ok s ts e sh pc v Ok Hi E) as [[[Hm Ha]|[Hm Ha]] _]; rewrite Ha, Hm in *;
    (eexists; split; [split; [by apply rtc_once|done]|]); (split; [exact Ok1|]); cbn; (split; [unfold zlen; simpl; lia|done]).
Qed.

(** The child finishes the call it is in. *)
Lemma child_rests n s :
  transfer_ok s -> running s -> x_received s < count -> (c_rank (st_cp (x_spsc s)) <= n)%nat ->
  exists s1, child_run s s1 /\ transfer_ok s1 /\ st_cp (x_spsc s1) = CIdle /\ x_received s <= x_received s1.
Proof.
  revert s. induction n as [|n IH]; intros s Ok Hx Hr Hn.
  all: destruct (c_rest (st_cp (x_spsc s))) eqn:Hrest.
  1,3: exists s; split; [split; [constructor|done]|]; split; [done|]; split; [|lia];
    pose proof (xo_child _ Ok); destruct (st_cp _); done.
  { destruct (st_cp _); done || (simpl in Hn; lia). }
  destruct (transfer_inv s Ok) as (nH & nT & I & _).
  destruct (c_progress q k W _ _ _ _ _ _ _ _ _ (CallPop cap) I Hrest) as (ts & [[[e sh] pc] v] & E).
  destruct (c_step_rank _ _ _ _ _ _ _ _ _ _ Hrest E) as [Hrank Hre].
  destruct (child_one s ts e sh pc v Ok Hx Hr E) as (s1 & Hs1 & Ok1 & Hrec & _ & Hpc & _).
  pose proof (zlen_nonneg (moved e)). destruct (c_rest pc) eqn:Hrp.
  - exists s1. split; [done|]. split; [done|]. split; [|lia].
    pose proof (xo_child _ Ok1) as Hch. rewrite Hpc in *. by destruct pc.
  - assert (moved e = []) as Hm by (by destruct e). rewrite Hm in Hrec. change (zlen (@nil msg)) with 0 in Hrec.
    destruct (IH s1 Ok1) as (s2 & Hs2 & Ok2 & Hc2 & Hle); [apply Hs1|lia|rewrite Hpc; lia|].
    exists s2. split; [by eapply child_run_trans|]. split_and!; [done..|lia].
Qed.

(** The parent finishes the call it is in. *)
Lemma parent_rests n s :
  transfer_ok s -> x_i s < count -> (p_rank (st_pp (x_spsc s)) <= n)%nat ->
  exists s1, parent_run s s1 /\ transfer_ok s1 /\ st_pp (x_spsc s1) = PIdle /\ x_i s <= x_i s1.
Proof.
  revert s. induction n as [|n IH]; intros s Ok Hi Hn.
  all: destruct (p_rest (st_pp (x_spsc s))) eqn:Hrest.
  1,3: exists s; split; [split; [constructor|done]|]; split; [done|]; split; [|lia];
    pose proof (xo_parent _ Ok); destruct (st_pp _); done.
  { destruct (st_pp _); done || (simpl in Hn; lia). }
  destruct (transfer_inv s Ok) as (nH & nT & I & _).
  destruct (p_progress q k W _ _ _ _ _ _ _ _ _ (CallPush (payload (x_i s))) I Hrest) as (ts & [[[e sh] pc] v] & E).
  destruct (p_step_rank _ _ _ _ _ _ _ _ _ _ Hrest E) as [Hrank Hre].
  destruct (parent_one s ts e sh pc v Ok Hi E) as (s1 & Hs1 & Ok1 & Hi1 & _ & Hpc & _).
  pose proof (zlen_nonneg (moved e)). destruct (p_rest pc) eqn:Hrp.
  - exists s1. split; [done|]. split; [done|]. split; [|lia].
    pose proof (xo_parent _ Ok1) as Hpa. rewrite Hpc in *. by destruct pc.
  - assert (moved e = []) as Hm by (by destruct e). rewrite Hm in Hi1. change (zlen (@nil msg)) with 0 in Hi1.
    destruct (IH s1 Ok1) as (s2 & Hs2 & Ok2 & Hc2 & Hle); [lia|rewrite Hpc; lia|].
    exists s2. split; [by eapply parent_run_trans|]. split_and!; [done..|lia].
Qed.

(** A call run alone is a run of the test. *)
Lemma child_runs_call n s r x sh pc :
  transfer_ok s -> running s -> x_received s < count ->
  c_run q n (CallPop cap) (st_sh (x_spsc s)) (st_cp (x_spsc s)) (st_cv (x_spsc s)) = Some (r, x, sh, pc) ->
  exists s1, child_run s s1 /\ transfer_ok s1 /\ x_received s1 = x_received s + zlen (moved (Ret r x)).
Proof.
  revert s. induction n as [|n IH]; intros s Ok Hx Hr; [done|]. rewrite c_run_S.
  destruct (c_next _ _ _ _ _ _) as [[[[e sh1] pc1] v1]|] eqn:E; [|done].
  destruct (child_one s _ e sh1 pc1 v1 Ok Hx Hr E) as (s1 & Hs1 & Ok1 & Hrec & Hsh & Hpc & Hv).
  destruct e as [|r1 x1|off bs]; intros Hrun.
  2: { injection Hrun as <- <- _ _. by exists s1. }
  all: rewrite <- Hsh, <- Hpc, <- Hv in Hrun; change (zlen (moved _)) with 0 in Hrec;
    destruct (IH s1 Ok1) as (s2 & Hs2 & Ok2 & Hr2); [apply Hs1|lia|exact Hrun|];
    exists s2; split; [by eapply child_run_trans|]; split; [done|lia].
Qed.

Lemma parent_runs_call n s r x sh pc :
  transfer_ok s -> x_i s < count ->
  p_run q n (CallPush (payload (x_i s))) (st_sh (x_spsc s)) (st_pp (x_spsc s)) (st_pv (x_spsc s)) = Some (r, x, sh, pc) ->
  exists s1, parent_run s s1 /\ transfer_ok s1 /\ x_i s1 = x_i s + zlen (moved (Ret r x)).
Proof.
  revert s. induction n as [|n IH]; intros s Ok Hi; [done|]. rewrite p_run_S.
  destruct (p_next _ _ _ _ _ _) as [[[[e sh1] pc1] v1]|] eqn:E; [|done].
  destruct (parent_one s _ e sh1 pc1 v1 Ok Hi E) as (s1 & Hs1 & Ok1 & Hrec & Hsh & Hpc & Hv).
  destruct e as [|r1 x1|off bs]; intros Hrun.
  2: { injection Hrun as <- <- _ _. by exists s1. }
  all: change (zlen (moved _)) with 0 in Hrec; rewrite Z.add_0_r in Hrec; rewrite <- Hsh, <- Hpc, <- Hv, <- Hrec in Hrun;
    destruct (IH s1 Ok1) as (s2 & Hs2 & Ok2 & Hr2); [lia|exact Hrun|];
    exists s2; split; [by eapply parent_run_trans|]; split; [done|lia].
Qed.

Lemma err_ok r : err r = err NABD_OK -> r = NABD_OK.
Proof. by destruct r. Qed.

(** A child between calls receives the message that is there. *)
Lemma child_pops s :
  transfer_ok s -> running s -> x_received s < x_i s -> st_cp (x_spsc s) = CIdle ->
  exists s1, child_run s s1 /\ transfer_ok s1 /\ x_received s1 = x_received s + 1.
Proof.
  intros Ok Hx Hlt Hc. destruct (transfer_inv s Ok) as (nH & nT & I & HnH & HnT & _).
  pose proof (xo_i _ Ok). pose proof (child_buffer _ (xo_local _ Ok)) as Hb.
  assert (exists d ms, drop nT (map payload (seqZ 0 (x_i s))) = d :: ms /\ zlen d <= cap) as (d & ms & Hd & Hl).
  { destruct (lookup_lt_is_Some_2 (map payload (seqZ 0 (x_i s))) nT) as [d Hd].
    - rewrite length_map, length_seqZ. lia.
    - exists d, (drop (S nT) (map payload (seqZ 0 (x_i s)))). split; [by apply drop_S|].
      apply message_value in Hd as [-> ?]. apply Hcap. lia. }
  destruct (solo_pop q k W _ _ _ _ _ _ _ _ _ I (buffer C (x_child s)) Hc) as (r & x & sh & len & Hrun & Hpop & Hx1).
  rewrite (pop_ok _ _ _ _ _ _ (i_ring _ _ _ _ _ _ _ _ _ _ _ I) d ms) in Hpop by (done || lia).
  injection Hpop as Hr _ _ _. apply eq_sym, err_ok in Hr as ->. rewrite Hb, <- Hc in Hrun.
  destruct (child_runs_call _ s _ _ _ _ Ok Hx ltac:(lia) Hrun) as (s1 & Hs1 & Ok1 & Hrec).
  exists s1. split; [done|]. split; [done|]. by destruct x.
Qed.

(** A parent between calls pushes into a queue with room. *)
Lemma parent_pushes s :
  transfer_ok s -> x_i s < count -> x_i s < x_received s + q_capacity q -> st_pp (x_spsc s) = PIdle ->
  exists s1, parent_run s s1 /\ transfer_ok s1 /\ x_i s1 = x_i s + 1.
Proof.
  intros Ok Hi Hroom Hp. destruct (transfer_inv s Ok) as (nH & nT & I & HnH & HnT & Hle).
  destruct (Hlen (x_i s)) as [? ?]; [pose proof (xo_i _ Ok); lia|]. pose proof (zlen_nonneg (payload (x_i s))).
  destruct (solo_push q k W _ _ _ _ _ _ _ _ _ I (payload (x_i s)) Hp) as (r & x & sh & Hrun & -> & Hpush).
  destruct (push_ok _ _ _ _ _ _ (i_ring _ _ _ _ _ _ _ _ _ _ _ I) (payload (x_i s)) (zlen (payload (x_i s))))
    as (m' & E & _); [lia|unfold SIZEOF_HEADER in *; lia| |].
  { unfold zlen. rewrite length_drop, length_map, length_seqZ. lia. }
  rewrite E in Hpush. injection Hpush as Hr _. apply eq_sym, err_ok in Hr as ->. rewrite <- Hp in Hrun.
  by destruct (parent_runs_call _ s _ _ _ _ Ok Hi Hrun) as (s1 & Hs1 & Ok1 & Hrec); exists s1.
Qed.

(** One more message is received. *)
Lemma one_more s :
  transfer_ok s -> running s -> x_received s < count ->
  exists s1, rtc transfer_step s s1 /\ transfer_ok s1 /\ running s1 /\ x_received s < x_received s1.
Proof.
  intros Ok Hx Hr. pose proof (wf_cap _ _ W). pose proof (pow_k _ _ W).
  destruct (child_rests _ s Ok Hx Hr (le_n _)) as (s1 & (Hs1 & Hx1 & Hi1 & Hp1) & Ok1 & Hc1 & Hle1).
  destruct (decide (x_received s < x_received s1)); [by exists s1|].
  assert (forall s2, parent_run s1 s2 -> transfer_ok s2 -> x_received s2 < x_i s2 ->
    exists s3, rtc transfer_step s s3 /\ transfer_ok s3 /\ running s3 /\ x_received s < x_received s3) as Hpop.
  { intros s2 (Hs2 & Hx2 & Hr2 & Hc2) Ok2 Hlt. destruct (child_pops s2 Ok2) as (s3 & (Hs3 & Hx3 & _) & Ok3 & Hr3);
      [auto|done|congruence|].
    exists s3. split; [by do 2 (etrans; [done|])|]. split_and!; [done..|lia]. }
  destruct (transfer_inv s1 Ok1) as (nH & nT & _ & ? & ? & ?).
  destruct (decide (x_received s1 < x_i s1)).
  { apply (Hpop s1); [split; [constructor|done]|done|done]. }
  destruct (parent_rests _ s1 Ok1 ltac:(lia) (le_n _)) as (s2 & Hs2 & Ok2 & Hp2 & Hle2).
  pose proof Hs2 as (_ & _ & Hr2 & _). destruct (decide (x_received s2 < x_i s2)); [by apply (Hpop s2)|].
  destruct (parent_pushes s2 Ok2) as (s3 & Hs3 & Ok3 & Hi3); [lia|lia|done|].
  pose proof Hs3 as (_ & _ & Hr3 & _). apply (Hpop s3); [by eapply parent_run_trans|done|lia].
Qed.

(** A transfer that has received everything comes to its end. *)
Lemma can_exit s : transfer_ok s -> running s \/ x_exit s = Some (Exited 0) -> count <= x_received s ->
  exists s', rtc transfer_step s s' /\ transfer_done s'.
Proof.
  intros Ok Hx Hr. destruct (transfer_inv s Ok) as (nH & nT & _ & ? & ? & ?). pose proof (xo_i _ Ok).
  destruct Hx as [[Hx [cq Hq]]|Hx]; [|by exists s; split; [constructor|]; split; [lia|]].
  assert (more C (x_child s) = false) as Hmore by (rewrite (more_iff _ Ok); by apply Z.ltb_ge).
  destruct (wp_close cq (x_sys s) (fun _ _ => True)) as (r & s' & E & _); [done|].
  eexists. split; [apply rtc_once, (child_exits s cq r s' Hx Hq Hmore E)|]. split; simpl; [lia|done].
Qed.

Lemma can_receive n s : transfer_ok s -> running s \/ x_exit s = Some (Exited 0) /\ x_received s = count ->
  count - x_received s <= Z.of_nat n -> exists s', rtc transfer_step s s' /\ transfer_done s'.
Proof.
  revert s. induction n as [|n IH]; intros s Ok Hx Hn; [apply can_exit; [done| |lia]; tauto|].
  destruct (decide (count <= x_received s)); [apply can_exit; [done| |done]; tauto|].
  destruct Hx as [Hx|[_ Hx]]; [|lia].
  destruct (one_more s Ok Hx ltac:(lia)) as (s1 & Hs1 & Ok1 & Hx1 & Hlt).
  destruct (IH s1 Ok1 (or_introl Hx1) ltac:(lia)) as (s2 & Hs2 & Hd). exists s2. split; [by etrans|done].
Qed.

(** From every moment the transfer can be completed, unless the child is refused the queue. *)
Lemma can_finish s : transfer_ok s ->
  exists s', rtc transfer_step s s' /\ (transfer_done s' \/ transfer_lost s0 s').
Proof.
  intros Ok. pose proof (fun s1 Ok1 Hx1 => can_receive (Z.to_nat (count - x_received s1)) s1 Ok1 Hx1 ltac:(lia)) as Hrun.
  assert (running s \/ x_exit s = Some (Exited 0) /\ x_received s = count ->
    exists s', rtc transfer_step s s' /\ (transfer_done s' \/ transfer_lost s0 s')) as Hgo.
  { intros Hx. destruct (Hrun s Ok Hx) as (s' & ? & ?). eauto. }
  destruct (xo_exit _ Ok) as [Hx|[Hx|Hx]]; [|by auto|by exists s; split; [constructor|right]].
  destruct (x_cq s) as [cq|] eqn:Hq; [apply Hgo; left; by split; [|exists cq]|].
  destruct (xo_alone _ Ok Hq) as (_ & _ & _ & [[_ Hs]|[? _]]); [|congruence].
  destruct (attach_ok s Ok Hs) as (cq & s1 & E & _). pose proof (child_attaches s cq s1 Hx Hq E) as Hs1.
  pose proof (transfer_step_ok _ _ Ok Hs1) as Ok1. destruct cq as [cq|].
  - destruct (Hrun _ Ok1) as (s2 & Hs2 & Hd); [left; by split; [|exists cq]|].
    exists s2. split; [by eapply rtc_l|by left].
  - eexists. split; [by apply rtc_once|]. right.
    by destruct (xo_alone _ Ok1 eq_refl) as (_ & _ & _ & [[? _]|?]).
Qed.

Lemma received_payloads s :
  transfer_ok s -> st_popped (x_spsc s) = map payload (seqZ 0 (x_received s)).
Proof.
  intros Ok. destruct (transfer_inv s Ok) as (nH & nT & I & HnH & HnT & Hle). pose proof (xo_i _ Ok).
  rewrite (i_popped _ _ _ _ _ _ _ _ _ _ _ I), <- HnT, <- HnH.
  replace (Z.of_nat nH) with (Z.of_nat nT + (Z.of_nat nH - Z.of_nat nT)) by lia.
  rewrite seqZ_app, map_app by lia. apply take_app_length'. rewrite length_map, length_seqZ. lia.
Qed.

(** The transfer from its start: what was received, what the exit status can be, and that
    it can be completed from every moment, unless the child is refused the queue. *)
Lemma transfer_correct s :
  rtc transfer_step (transfer_start m s0 l0) s ->
  st_popped (x_spsc s) = map payload (seqZ 0 (x_received s)) /\
  (x_exit s = None \/ x_exit s = Some (Exited 0) /\ x_received s = count \/ transfer_lost s0 s) /\
  exists s', rtc transfer_step s s' /\ (transfer_done s' \/ transfer_lost s0 s').
Proof.
  intros Hrun. pose proof (transfer_run_ok _ _ start_ok Hrun) as Ok.
  split_and!; [by apply received_payloads|apply Ok|by apply can_finish].
Qed.
End Transfer.

(** ** A transfer of messages that do not fit the child's buffer *)

Section Refusals.
Context {P : Posix} {PL : PosixLaws P} {L : Type} (C : child L) (name : string) (ptr : Z) (q : nabd).
Context (count : Z) (payload : Z -> msg) (l l1 : L) (k : Z) (m : mem) (s0 : sys) (o : nat).
Context (R0 : ring q k 0 0 [] m) (Hserves : serves name o (eq m) q s0) (Hcount : 0 <= count).
Context (Hlen : forall i, 0 <= i < count ->
           zlen (payload i) < 2 ^ 16 /\ SIZEOF_HEADER + zlen (payload i) <= q_slot_size q).
Context (Hbig : forall i, 0 <= i < count -> zlen (buffer C l) < zlen (payload i)).
Context (Hwait : forall e, e = Tau \/ e = Ret NABD_EMPTY None -> after_pop C e l = inl l).
(** Its answer to a refusal: to stay as it is, or to leave its loop. *)
Context (Hrefuse : after_pop C (Ret NABD_TOOBIG None) l = inl l1) (Hleave : l1 = l \/ more C l1 = false).

Let W : wf_handle q k := r_wf _ _ _ _ _ _ R0.
Abbreviation parent_ok := (parent_ok C q count payload m s0 l).
Abbreviation transfer_step := (transfer_step C name ptr q count payload).

Definition refuses (pc : cpc) : Prop :=
  match pc with
  | CIdle => True
  | CLoadTail r | CLoadHead r _ | CLength r _ => r = RPop (zlen (buffer C l))
  | _ => False
  end.

(** Nothing is received; the child leaves only by its answer to a refusal. *)
Record refused (s : transfer L) : Prop := {
  ro_p :> parent_ok s;
  ro_pc : refuses (st_cp (x_spsc s));
  ro_child : x_child s = l \/ x_child s = l1;
  ro_popped : st_popped (x_spsc s) = [];
  ro_exit : x_exit s = None \/ x_exit s = Some (Exited 0) /\ more C (x_child s) = false \/
            transfer_lost C s0 s
}.

Lemma refused_child s ts e sh pc v :
  let t := x_spsc s in
  refused s ->
  c_next q (CallPop (zlen (buffer C l))) ts (st_sh t) (st_cp t) (st_cv t) = Some (e, sh, pc, v) ->
  refuses pc /\ (e = Tau \/ e = Ret NABD_EMPTY None \/ e = Ret NABD_TOOBIG None).
Proof.
  intros t Ok. pose proof (ro_pc _ Ok) as Hc.
  destruct (parent_inv C q count payload k m s0 l R0 Hlen s Ok) as (nH & nT & I & HnH & _ & _).
  pose proof (i_cp _ _ _ _ _ _ _ _ _ _ _ I) as Hcp. fold t in Hc, I, Hcp.
  destruct (st_cp t) as [|t0 n|r|r t0|r t0|t0 n|d|t0 d] eqn:Hpc; cbn [refuses cpc_ok] in Hc, Hcp; try done.
  - simpl. intros [= <- <- <- <-]. split; [done|auto].
  - simpl. destruct (NABD_LOAD_RELAXED _ _ _ _) as [[x v']|]; [|done]. intros [= <- <- <- <-]. split; [done|auto].
  - simpl. destruct (NABD_LOAD_ACQUIRE _ _ _ _) as [[x v']|]; [|done]. cbn [mbind option_bind].
    case_zb; intros [= <- <- <- <-]; (split; [done|auto]).
  - destruct Hcp as [-> Hlt]. destruct (tail_message q k _ _ _ _ _ _ _ _ _ I Hlt) as (d & Hd & Hh).
    apply message_value in Hd as [-> Hi]. simpl. rewrite (get_slot_off q k W).
    rewrite (holds_ld_length q k _ _ _ _ (i_ring _ _ _ _ _ _ _ _ _ _ _ I) _ _ Hh). simpl. subst r.
    pose proof (xo_i _ _ _ _ _ _ _ _ Ok). pose proof (Hbig (Z.of_nat nT) ltac:(lia)).
    zb_true (zlen (buffer C l) <? zlen (payload (Z.of_nat nT))). intros [= <- <- <- <-]. split; [done|auto].
Qed.

Lemma refused_step s s' : refused s -> transfer_step s s' -> refused s'.
Proof.
  intros Ok Hs. pose proof (parent_ok_step C name ptr q count payload k m s0 o l R0 Hserves Hlen s s' Ok Hs) as Ok'.
  destruct Hs as [ts e sh pc v t Hi E|cq s' Hx Hq E|h cq ts e sh pc v t l2 Hx Hq Hr E t'|cq r s' Hx Hq Hr E].
  - by destruct Ok.
  - destruct Ok. split; cbn; try done. destruct cq as [cq|]; [by left|]. right. right.
    by destruct (xo_alone _ _ _ _ _ _ _ _ Ok' eq_refl) as (_ & _ & _ & [[? _]|?]).
  - assert (x_child s = l) as Hl.
    { subst l2. destruct (ro_child _ Ok) as [|Hl1]; [done|]. rewrite Hl1 in *. destruct Hleave; congruence. }
    subst l2 t' t. rewrite Hl in *.
    rewrite <- (c_next_same q cq) in E by exact (xo_attached _ _ _ _ _ _ _ _ Ok _ _ Hq).
    destruct (refused_child s ts e sh pc v Ok E) as [Hpc He].
    assert (moved e = []) as Hm by (by destruct He as [-> | [-> | ->]]).
    assert (exists l', after_pop C e l = inl l' /\ (l' = l \/ l' = l1)) as (l' & Ha & Hl').
    { destruct He as [He|[He|He]]; [exists l; rewrite Hwait by auto; auto..|]. exists l1. rewrite He. auto. }
    rewrite Ha, Hm, app_nil_r in *. destruct Ok. split; cbn; try done. by left.
  - destruct Ok. split; cbn; try done. right. by left.
Qed.

Lemma refused_run s : rtc transfer_step (transfer_start m s0 l) s -> refused s.
Proof.
  intros Hr. remember (transfer_start m s0 l) as s1 eqn:Hs1.
  assert (refused s1) as Ok.
  { rewrite Hs1. split; try done; [by apply start_parent_ok|by left|by left]. }
  clear Hs1. induction Hr; eauto using refused_step.
Qed.
End Refusals.
