(* ===== verification/Stress.v ===== *)
(** * The stress test of two processes (src/tests/test_concurrent.c)

    [test_spsc_fork], whole: the parent creates the queue and, after the fork, pushes ten
    thousand integers; the child closes the handle it inherited, opens the queue by name,
    asserts that it could, pops the integers and checks their order, closes the queue and
    exits with 0.  It exits with 1 on the first value out of order and on the first error.
    The parent asserts that the child exited with 0, closes the queue and unlinks it.
    Between the fork and the wait the two processes are a transfer (Transfer.v). *)

From S2P Require Import Prelude Words Pow2 Memory Layout Fifo Queue Ring Posix Lifecycle Spsc Transfer Examples ExamplesCorrect Format Tests TestsCorrect.
From stdpp Require Import relations.
Local Open Scope string_scope.
Local Open Scope list_scope.
Local Open Scope Z_scope.

(** ** The test *)

(** [NUM_MESSAGES] *)
Definition STRESS_MESSAGES : Z := 10000.

(** The variables of the child. *)
Record stress_vars := StressVars {
  v_received : Z;
  v_expected : Z;
  v_buf : msg
}.

(** What the child does with the result of [nabd_pop(cq, buf, &len)]. *)
Definition stress_pop (e : evt) (v : stress_vars) : stress_vars + Z :=
  match e with
  | Ret NABD_OK d =>
      let buf := splice (v_buf v) 0 (default [] d) in
      if negb (int_of (take 4 buf) =? v_expected v) then inr 1
      else inl (StressVars (v_received v + 1) (v_expected v + 1) buf)
  | Ret NABD_EMPTY _ => inl v
  | Ret _ _ => inr 1
  | _ => inl v
  end.

(** Lines 30-64: [assert(cq)] is on line 35. *)
Definition stress_child : child stress_vars :=
  Child v_received (fun v => v_received v <? STRESS_MESSAGES) v_buf stress_pop (Killed 35).

(** The two processes from the fork on, [ptr] and [q] being the handle of the parent. *)
Definition stress_step {P : Posix} (ptr : Z) (q : nabd) : transfer stress_vars -> transfer stress_vars -> Prop :=
  transfer_step stress_child STRESS_QUEUE ptr q STRESS_MESSAGES int_bytes.

(** At the fork; [char buf[128]] is not initialised. *)
Definition stress_start (m : mem) (s0 : sys) (buf0 : msg) : transfer stress_vars :=
  transfer_start m s0 (StressVars 0 0 buf0).

(** [waitpid] returns and the assertion on the exit status holds. *)
Definition stress_done : transfer stress_vars -> Prop := transfer_done STRESS_MESSAGES.

(** The child has been aborted by [assert(cq)]. *)
Definition stress_lost : sys -> transfer stress_vars -> Prop := transfer_lost stress_child.

(** The test up to the fork. *)
Definition spsc_fork_setup {P : Posix} : Test (Z * nabd) :=
  run (printf [Lit "  Testing SPSC with fork... "]);;
  start_test STRESS_QUEUE 26 1024 128 produce.

(** The test after [waitpid], lines 76-80. *)
Definition spsc_fork_end {P : Posix} (q : Z * nabd) (s : status) : Test unit :=
  assert 76 (match s with Exited code => code =? 0 | Killed _ => false end);;
  end_test STRESS_QUEUE q;;
  run (printf [Lit "OK"; nl]).

(** ** The child of the test *)

Lemma splice_int buf v : zlen buf = 128 ->
  zlen (splice buf 0 (int_bytes v)) = 128 /\ take 4 (splice buf 0 (int_bytes v)) = int_bytes v.
Proof.
  intros Hb. pose proof (int_bytes_len v) as Hl. split; [rewrite zlen_splice; lia|].
  pose proof (slice_splice_same buf 0 (int_bytes v) ltac:(lia) ltac:(lia)) as Hs.
  rewrite Hl in Hs. unfold slice in Hs. by rewrite drop_0 in Hs.
Qed.

#[export] Program Instance stress_child_laws : ChildLaws stress_child STRESS_MESSAGES int_bytes 128 := {
  child_ok v := zlen (v_buf v) = 128 /\ v_expected v = v_received v
}.
Next Obligation. by intros v [Hb _]. Qed.
Next Obligation. done. Qed.
Next Obligation. by intros v e _ [-> | ->]. Qed.
Next Obligation.
  intros v [Hb He] Hv. destruct (splice_int (v_buf v) (v_received v) Hb) as [Hz Ht].
  exists (StressVars (v_received v + 1) (v_expected v + 1) (splice (v_buf v) 0 (int_bytes (v_received v)))).
  simpl in *. unfold id. rewrite Ht. unfold STRESS_MESSAGES in Hv.
  rewrite int_of_bytes, He, Z.eqb_refl by lia. done.
Qed.

Lemma stress_payloads q : SIZEOF_HEADER + 4 <= q_slot_size q ->
  forall i, 0 <= i < STRESS_MESSAGES -> zlen (int_bytes i) < 2 ^ 16 /\ SIZEOF_HEADER + zlen (int_bytes i) <= q_slot_size q.
Proof. intros Hs i _. rewrite int_bytes_len. lia. Qed.

Section Correct.
Context {P : Posix} {L : PosixLaws P}.

(** What the parent does after the child has exited with 0. *)
Lemma spsc_fork_end_run q p : wp (spsc_fork_end q (Exited 0)) p (fun v p' =>
  v = Ran tt /\ p_stdout p' = p_stdout p ++ render_all [Lit "OK"; nl]).
Proof.
  assert (succeeds [] 0 (spsc_fork_end q (Exited 0)) p (fun _ p' =>
    p_stdout p' = p_stdout p ++ render_all [Lit "OK"; nl])) as Hs.
  { apply s_bind, s_assert; [done|]. apply s_bind, (s_end []). intros p1 Ho1. apply s_printf.
    intros p2 ->. by rewrite Ho1. }
  eapply wp_mono; [apply Hs; lia|]. intros [[]|line] p'; [by intros [_ ?]|]. intros [H _].
  by apply not_elem_of_nil in H.
Qed.

(** The queue at the fork. *)
Lemma spsc_fork_setup_run p : wp spsc_fork_setup p (fun v p' => match v with
  | Aborted line => line = 26 /\ refusal (p_sys p) (p_sys p')
  | Ran (ptr, q) => q_slot_size q = 128 /\ q_capacity q = 1024 /\ exists o m,
      serves STRESS_QUEUE o (eq m) q (p_sys p') /\ ring q 10 0 0 [] m /\
      p_stdout p' = p_stdout p ++ render_all [Lit "  Testing SPSC with fork... "]
  end).
Proof.
  assert (succeeds [26] (refused p) spsc_fork_setup p (fun '(_, q) p' => q_slot_size q = 128 /\
      q_capacity q = 1024 /\ exists o, at_queue STRESS_QUEUE o (ring q 10 0 0 []) q
        (p_stdout p ++ render_all [Lit "  Testing SPSC with fork... "]) p')) as Hs.
  { unfold spsc_fork_setup. apply s_bind, s_printf. intros p1 Ho1.
    eapply (s_start [26] STRESS_QUEUE 26 1024 128 produce 10 128); try done; [by left|by left|].
    intros ptr q o p' Hc Hs _ Hat. rewrite Ho1 in Hat. eauto. }
  eapply wp_mono; [by apply Hs|]. clear Hs. intros [[ptr q]|line] p'.
  - intros (_ & Hs & Hc & o & (Hn & a & len & b & Ha & Hm & Hb & R) & Ho). split_and!; [done..|].
    exists o, (take (Z.to_nat len) b). split_and!; [|done..]. split; [done|]. by exists a, len, b.
  - by rewrite list_elem_of_singleton.
Qed.

(** The two processes between the fork and the wait. *)
Lemma stress_transfer_run ptr q o m s0 buf0 s :
  q_slot_size q = 128 -> serves STRESS_QUEUE o (eq m) q s0 -> ring q 10 0 0 [] m ->
  zlen buf0 = 128 -> rtc (stress_step ptr q) (stress_start m s0 buf0) s ->
  st_popped (x_spsc s) = map int_bytes (seqZ 0 (v_received (x_child s))) /\
  (x_exit s = None \/ x_exit s = Some (Exited 0) /\ v_received (x_child s) = STRESS_MESSAGES \/
   stress_lost s0 s) /\
  exists s', rtc (stress_step ptr q) s s' /\ (stress_done s' \/ stress_lost s0 s').
Proof.
  intros Hs Hserves R Hbuf Hr.
  exact (transfer_correct stress_child STRESS_QUEUE ptr q STRESS_MESSAGES int_bytes 10 m s0 o (StressVars 0 0 buf0)
    R Hserves ltac:(done) (stress_payloads q ltac:(rewrite Hs; done)) 128 ltac:(intros i _; by rewrite int_bytes_len)
    (conj Hbuf eq_refl) eq_refl s Hr).
Qed.

(** C20: The stress test passes.  On every operating system that behaves as documented, the
    test reaches the fork with its queue in memory [m], or is aborted by its assertion on
    [nabd_open] (line 26) after the system refused a request.  From the fork on, under
    release/acquire memory, whatever the interleaving of the two processes and however
    stale their loads: at any moment the child has received the integers from 0 on, in
    order and without loss; it has not ended, or it has exited with 0 after all ten
    thousand, or its own assertion on [nabd_open] (line 35) has aborted it after the system
    refused it something: it never exits with an error.  From any moment on the run can
    still end with the parent having pushed everything and the child gone with 0, unless
    the child is refused the queue; and after that end the parent's assertion on the exit
    status (line 76) holds, and the test closes and unlinks its queue and prints "OK". *)
Theorem stress_test_passes p :
  wp spsc_fork_setup p (fun v p' => match v with
    | Aborted line => line = 26 /\ refusal (p_sys p) (p_sys p')
    | Ran (ptr, q) => exists a m, q_ctrl q = Some a /\ window (p_sys p') a = Some m /\
        (forall buf0 s, zlen buf0 = 128 -> rtc (stress_step ptr q) (stress_start m (p_sys p') buf0) s ->
         st_popped (x_spsc s) = map int_bytes (seqZ 0 (v_received (x_child s))) /\
         (x_exit s = None \/ x_exit s = Some (Exited 0) /\ v_received (x_child s) = STRESS_MESSAGES \/
          x_exit s = Some (Killed 35) /\ refusal (p_sys p') (x_sys s)) /\
         exists s', rtc (stress_step ptr q) s s' /\
           (stress_done s' \/ x_exit s' = Some (Killed 35) /\ refusal (p_sys p') (x_sys s'))) /\
        (forall m', wp (spsc_fork_end (ptr, q) (Exited 0)) (with_sys (refresh a m' (p_sys p')) p') (fun v p2 =>
           v = Ran tt /\
           p_stdout p2 = p_stdout p ++ render_all [Lit "  Testing SPSC with fork... "; Lit "OK"; nl]))
    end).
Proof.
  eapply wp_mono; [apply spsc_fork_setup_run|]. intros [[ptr q]|line] p'; [|done].
  intros (Hs & _ & o & m & Hserves & R & Ho). pose proof Hserves as (_ & a & len & b & Ha & Hm & Hb & ->).
  exists a, (take (Z.to_nat len) b). split; [done|]. split; [by unfold window; rewrite Hm, Hb|]. split.
  - intros buf0 s Hbuf Hr.
    destruct (stress_transfer_run ptr q o _ _ buf0 s Hs Hserves R Hbuf Hr) as (Hp & Hx & s' & Hr' & He).
    unfold stress_lost, transfer_lost in *. split; [done|]. split; [|exists s'; split; [done|]].
    + destruct Hx as [?|[?|(? & _ & ?)]]; auto.
    + destruct He as [?|(? & _ & ?)]; auto.
  - intros m'. eapply wp_mono; [apply spsc_fork_end_run|]. intros v p2 [-> Ho2]. split; [done|].
    rewrite Ho2. simpl. by rewrite Ho, <- app_assoc, <- render_all_app.
Qed.

(** A child that is refused the queue hangs the test: the parent never gets beyond the
    1024 messages that fit, so it never reaches its [waitpid]. *)
Theorem stress_test_hangs_without_child p :
  wp spsc_fork_setup p (fun v p' => match v with
    | Aborted _ => True
    | Ran (ptr, q) => exists a m, q_ctrl q = Some a /\ window (p_sys p') a = Some m /\
        forall buf0 s s', zlen buf0 = 128 -> rtc (stress_step ptr q) (stress_start m (p_sys p') buf0) s ->
        x_exit s = Some (Killed 35) -> rtc (stress_step ptr q) s s' ->
        x_i s' <= 1024 /\ ~ stress_done s'
    end).
Proof.
  eapply wp_mono; [apply spsc_fork_setup_run|]. intros [[ptr q]|line] p'; [|done].
  intros (Hs & Hc & o & m & Hserves & R & _). pose proof Hserves as (_ & a & len & b & Ha & Hm & Hb & ->).
  exists a, (take (Z.to_nat len) b). split; [done|]. split; [by unfold window; rewrite Hm, Hb|].
  intros buf0 s s' Hbuf Hr Hx Hr'.
  assert (stress_lost (p_sys p') s) as Hl.
  { destruct (stress_transfer_run ptr q o _ _ buf0 s Hs Hserves R Hbuf Hr) as (_ & [?|[[? _]|?]] & _); [congruence..|done]. }
  assert (stress_lost (p_sys p') s') as (Hx' & Hq' & _).
  { clear Hr Hx. induction Hr' as [|s1 s2 s3 H12 _ IH]; [done|]. by apply IH; eapply lost_stays. }
  pose proof (stress_payloads q ltac:(rewrite Hs; done)) as Hlen.
  pose proof (parent_run_start _ _ _ _ _ _ 10 _ _ o _ R Hserves (ltac:(done) : 0 <= STRESS_MESSAGES) Hlen s' (rtc_trans _ _ _ Hr Hr')) as Ok.
  pose proof (alone_bounded _ _ _ _ _ _ _ _ R Hlen s' Ok Hq') as Hi.
  rewrite Hc in Hi. split; [done|]. intros [Hd _]. unfold STRESS_MESSAGES in Hd. lia.
Qed.
End Correct.

(** ** Witness *)

(** On the simple system nothing is refused, so the test passes. *)
Lemma keeps_run_test I {A} (c : App A) : keeps (on_sys I) c -> keeps (on_sys I) (run c).
Proof. intros Hc p v p'. unfold run. destruct (c p) as [[x p1]|] eqn:E; [|done]. intros [= _ <-]. exact (Hc _ _ _ E). Qed.

Lemma keeps_test_bind I `{!PreOrder I} {A B} (c : Test A) (k : A -> Test B) :
  keeps (on_sys I) c -> (forall x, keeps (on_sys I) (k x)) -> keeps (on_sys I) (c ≫= k).
Proof.
  intros Hc Hk p v p'. unfold mbind, Test_bind. destruct (c p) as [[[x|line] p1]|] eqn:E; [| |done].
  - intros E2. etrans; [exact (Hc _ _ _ E)|exact (Hk x _ _ _ E2)].
  - intros [= _ <-]. exact (Hc _ _ _ E).
Qed.

Lemma setup_calm : keeps (on_sys calm) (spsc_fork_setup (P := simple)).
Proof.
  apply keeps_test_bind; [apply _|apply keeps_run_test, keeps_printf, _|]. intros _.
  apply keeps_test_bind; [apply _|apply keeps_run_test, keeps_lift, simple_unlink_calm|]. intros _.
  apply keeps_test_bind; [apply _|apply keeps_run_test, keeps_lift, simple_open_calm|]. intros x.
  apply keeps_pure; [apply _|]. by intros p v p' [= _ <-].
Qed.

Lemma refresh_calm a m s : calm s (refresh a m s).
Proof.
  unfold refresh. destruct (s_map s !! a) as [[o len]|]; [|done].
  destruct (s_obj s !! o) eqn:Eb; [by eapply set_obj_calm|done].
Qed.

Lemma stress_calm ptr q s s' : rtc (stress_step (P := simple) ptr q) s s' -> calm (x_sys s) (x_sys s').
Proof.
  intros Hr. induction Hr as [|s1 s2 s3 Hs _ IH]; [done|]. etrans; [|exact IH]. clear IH.
  destruct Hs as [| cq s' _ _ E | | cq r s' _ _ _ E]; [done| | |exact (simple_close_queue_calm _ _ _ _ E)].
  - etrans; [apply refresh_calm|]. refine (keeps_bind calm _ _ (simple_close_queue_calm _) _ _ _ _ E).
    intros _. apply simple_open_calm.
  - by destruct (after_pop _ _ _).
Qed.

Lemma stress_test_passes_witness :
  let boot := Process boot [] [] 0 in
  match @spsc_fork_setup simple boot with
  | Some (Ran (ptr, q), p) => exists m s, window (p_sys p) (default 0 (q_ctrl q)) = Some m /\
      rtc (@stress_step simple ptr q) (stress_start m (p_sys p) (blank 128)) s /\ stress_done s /\
      st_popped (x_spsc s) = map int_bytes (seqZ 0 (v_received (x_child s)))
  | _ => False
  end.
Proof.
  intros boot.
  destruct (@stress_test_passes simple (SimplePosix_laws no_faults) boot) as (v & p' & E & H).
  rewrite E. pose proof (setup_calm _ _ _ E) as Hc. destruct v as [[ptr q]|line].
  - destruct H as (a & m & Ha & Hw & H & _).
    destruct (H (blank 128) _ eq_refl (rtc_refl _ _)) as (_ & _ & s & Hr & [Hd|[_ Hn]]).
    + destruct (H (blank 128) s eq_refl Hr) as (Hp & _). exists m, s. rewrite Ha. exact (conj Hw (conj Hr (conj Hd Hp))).
    + exfalso. exact (calm_not_refusal _ _ (proj1 (proj2 Hc boot_sound)) (stress_calm _ _ _ _ Hr) Hn).
  - exfalso. exact (calm_not_refusal _ _ boot_sound Hc (proj2 H)).
Defined.
