(* ===== verification/Bench.v ===== *)
(** * The benchmark (src/benchmarks/latency_bench.c)

    The program up to each of its forks, and its two transfers (Transfer.v): a warm-up of a
    thousand messages, whose child gives up on the first error, and the measured one, whose
    child goes on whatever [nabd_pop] answers.  [msg_count] and [msg_size] are
    what [bench_args] makes of the program's arguments.  The results it prints are computed in
    floating point and not modelled. *)

From S2P Require Import Prelude Words Pow2 Memory Layout Fifo Queue Ring Sample Posix Lifecycle Spsc Transfer Format Examples ExamplesCorrect Tests TestsCorrect.
From stdpp Require Import relations.
Local Open Scope string_scope.
Local Open Scope list_scope.
Local Open Scope Z_scope.

Definition BENCH_QUEUE : string := "/nabd_bench".
Definition WARMUP_MSGS : Z := 1000.
Definition BENCH_MSGS : Z := 5000000.
Definition MSG_SIZE : Z := 64.

(** [msg_count] and [msg_size] from the values [atoi] gives for the arguments there are. *)
Definition bench_args (count size : option Z) : Z * Z := (default BENCH_MSGS count, default MSG_SIZE size).

(** ** Up to the forks *)

Section Program.
Context {P : Posix} {E : Env}.

(** [nabd_unlink(QUEUE_NAME); q = nabd_open(...); if (!q) { perror(what); return 1; }];
    [msg_size + 64] is an [int] converted to [size_t]. *)
Definition bench_open (what : string) (msg_size : Z) : App (option (Z * nabd)) :=
  lift (nabd_unlink (Some BENCH_QUEUE));;
  slot_size ← defined (if int_ok (msg_size + 64) then Some (u64 (msg_size + 64)) else None);
  q ← lift (nabd_open (Some BENCH_QUEUE) 8192 slot_size produce);
  match q with
  | None => perror what;; mret None
  | Some q => mret (Some q)
  end.

(** To the first fork. *)
Definition bench_setup (msg_count msg_size : Z) : App (option (Z * nabd)) :=
  printf [Lit "NABD Latency/Throughput Benchmark"; nl];;
  printf [Lit "=================================="; nl; nl];;
  printf [Lit "Configuration:"; nl];;
  printf [Lit "  Messages:     "; Dec msg_count; nl];;
  printf [Lit "  Message size: "; Dec msg_size; Lit " bytes"; nl];;
  printf [nl];;
  q ← bench_open "nabd_open" msg_size;
  match q with
  | None => mret None
  | Some q => printf [Lit "Queue created."; nl];; mret (Some q)
  end.

(** From the end of the warm-up to the second fork. *)
Definition bench_reset (q : Z * nabd) (msg_size : Z) : App (option (Z * nabd)) :=
  lift (nabd_close (Some q));;
  bench_open "nabd_open (reset)" msg_size.

End Program.

(** ** The transfers *)

(** [char *msg = malloc(msg_size); memset(msg, 'X', msg_size);], for every message; that
    [malloc] succeeds is assumed, as the program does. *)
Definition bench_payload (msg_size : Z) (_ : Z) : msg := replicate (Z.to_nat msg_size) Byte.x58.

(** [received] and [buf] of a child, and whether it has left its loop by [break]. *)
Record bench_vars := BenchVars { b_received : Z; b_buf : msg; b_left : bool }.

Definition count_message (d : option msg) (v : bench_vars) : bench_vars :=
  BenchVars (b_received v + 1) (splice (b_buf v) 0 (default [] d)) (b_left v).

(** [while (received < count)] *)
Definition bench_more (count : Z) (v : bench_vars) : bool := negb (b_left v) && (b_received v <? count).

(** The child of the warm-up leaves its loop on an error. *)
Definition warmup_pop (e : evt) (v : bench_vars) : bench_vars + Z :=
  match e with
  | Ret NABD_OK d => inl (count_message d v)
  | Ret NABD_EMPTY _ => inl v
  | Ret _ _ => inl (BenchVars (b_received v) (b_buf v) true)
  | _ => inl v
  end.

(** [if (nabd_pop(cq, buf, &len) == NABD_OK) { received++; }] *)
Definition bench_pop (e : evt) (v : bench_vars) : bench_vars + Z :=
  match e with
  | Ret NABD_OK d => inl (count_message d v)
  | _ => inl v
  end.

(** A child that cannot open the queue exits with 1. *)
Definition warmup_child : child bench_vars :=
  Child b_received (bench_more WARMUP_MSGS) b_buf warmup_pop (Exited 1).
Definition bench_child (msg_count : Z) : child bench_vars :=
  Child b_received (bench_more msg_count) b_buf bench_pop (Exited 1).

Definition warmup_step {P : Posix} (ptr : Z) (q : nabd) (msg_size : Z) :=
  transfer_step warmup_child BENCH_QUEUE ptr q WARMUP_MSGS (bench_payload msg_size).
Definition bench_step {P : Posix} (ptr : Z) (q : nabd) (msg_count msg_size : Z) :=
  transfer_step (bench_child msg_count) BENCH_QUEUE ptr q msg_count (bench_payload msg_size).

(** At a fork; [char buf[4096]] is not initialised. *)
Definition bench_start (m : mem) (s0 : sys) (buf0 : msg) : transfer bench_vars :=
  transfer_start m s0 (BenchVars 0 buf0 false).

(** ** The queue *)

Lemma bench_payload_len msg_size i : 0 <= msg_size -> zlen (bench_payload msg_size i) = msg_size.
Proof. intros H. unfold zlen, bench_payload. rewrite length_replicate. lia. Qed.

(** What an opening leaves: a new queue with room for the messages, or a refusal. *)
Definition bench_queue (msg_size : Z) (p : process) (r : option (Z * nabd)) (p' : process) : Prop :=
  match r with
  | None => refusal (p_sys p) (p_sys p')
  | Some (_, q) => exists o m, serves BENCH_QUEUE o (eq m) q (p_sys p') /\
                   ring q 13 0 0 [] m /\ msg_size + 64 <= q_slot_size q
  end.

Section Opening.
Context {P : Posix} {L : PosixLaws P} {E : Env}.

Lemma wp_bench_open what msg_size p p0 : 0 <= msg_size -> msg_size + 64 < 2 ^ 31 ->
  more_refused (p_sys p0) (p_sys p) -> wp (bench_open what msg_size) p (bench_queue msg_size p0).
Proof.
  intros H0 H1 Hg. unfold bench_open, nabd_unlink. apply wp_bind, wp_lift, wp_bind, wp_call, wp_ret.
  apply wp_bind. unfold int_ok. zb_true (- 2 ^ 31 <=? msg_size + 64). zb_true (msg_size + 64 <? 2 ^ 31).
  eapply wp_defined; [reflexivity|]. rewrite u64_small by lia. apply wp_bind, wp_lift.
  assert (effective_slot_size (msg_size + 64) = msg_size + 64) as Hss.
  { unfold effective_slot_size, SIZEOF_HEADER. zb_false (msg_size + 64 =? 0). by zb_false (msg_size + 64 <? 8 + 8). }
  pose proof (shm_unlink_grows BENCH_QUEUE (p_sys p)) as Hu. simpl. unfold more_refused in *.
  apply wp_open; [by left| |done|].
  { intros s' Hr. eexists _, _. split; [reflexivity|]. unfold bench_queue, refusal in *. simpl. lia. }
  intros ptr nm fd s1 _ _ Hn (o & Ho & Hname & _).
  change (has_flag produce NABD_CREATE) with true. cbv iota.
  change (effective_capacity 8192) with (2 ^ 13). rewrite Hss.
  eapply wp_mono; [apply open_create_ring; [lia|unfold SIZEOF_HEADER; lia|unfold SIZEOF_CONTROL; lia|by exists o]|].
  intros [[ptr' q]|] s' Hr.
  2: { eexists _, _. split; [reflexivity|]. unfold bench_queue, refusal, no_refusal in *. simpl. lia. }
  apply wp_ret. destruct Hr as (a & w & Ha & Hw & R & _ & Hs & _ & _ & Hshm & o' & Ho' & Hm).
  rewrite Ho in Ho'. injection Ho' as <-. exists o, w. split; [|split; [done|lia]].
  split; [simpl; congruence|]. unfold window in Hw. rewrite Hm in Hw.
  destruct (s_obj s' !! o) as [b|] eqn:Eb; [|done]. injection Hw as <-. by exists a, (q_size q), b.
Qed.

Lemma wp_bench_setup msg_count msg_size p : 0 <= msg_size -> msg_size + 64 < 2 ^ 31 ->
  wp (bench_setup msg_count msg_size) p (bench_queue msg_size p).
Proof.
  intros H0 H1. unfold bench_setup. do 6 (apply wp_bind, wp_printf; intros ? _ ?).
  apply wp_bind. eapply wp_mono; [apply (wp_bench_open _ _ _ p); [done..|]|].
  { repeat match goal with H : p_sys _ = p_sys _ |- _ => rewrite H; clear H end. done. }
  intros [[ptr q]|] p1 Hq; [|by apply wp_ret].
  apply wp_bind, wp_printf. intros p2 _ Hp. apply wp_ret. unfold bench_queue. by rewrite Hp.
Qed.

Lemma wp_bench_reset q msg_size p : 0 <= msg_size -> msg_size + 64 < 2 ^ 31 ->
  wp (bench_reset q msg_size) p (bench_queue msg_size p).
Proof.
  intros H0 H1. apply wp_bind, wp_lift.
  eapply wp_mono; [eapply wp_keeps; [apply nabd_close_defined|apply nabd_close_grows]|]. intros ? ? [_ Hg].
  by apply wp_bench_open.
Qed.

(** A child starts on a new queue, in which every message fits. *)
Lemma wp_bench_child c msg_count msg_size q0 p (Q : option (Z * nabd) -> process -> Prop) :
  0 <= msg_size < 2 ^ 16 -> c = bench_setup msg_count msg_size \/ c = bench_reset q0 msg_size ->
  (forall p', refusal (p_sys p) (p_sys p') -> Q None p') ->
  (forall ptr q o m p', serves BENCH_QUEUE o (eq m) q (p_sys p') -> ring q 13 0 0 [] m ->
     (forall count i, 0 <= i < count -> zlen (bench_payload msg_size i) < 2 ^ 16 /\
        SIZEOF_HEADER + zlen (bench_payload msg_size i) <= q_slot_size q) -> Q (Some (ptr, q)) p') ->
  wp c p Q.
Proof.
  intros Hm Hcase HN HQ. eapply (wp_mono _ _ (bench_queue msg_size p)).
  { destruct Hcase as [-> | ->]; [apply wp_bench_setup|apply wp_bench_reset]; lia. }
  intros [[ptr q]|] p' Hq; [|by apply HN]. destruct Hq as (o & m & Hmem & R & Hs). apply (HQ _ _ o m); [done|done|].
  intros count i _. rewrite bench_payload_len by lia. unfold SIZEOF_HEADER. lia.
Qed.
End Opening.

(** ** The children *)

Lemma splice_payload buf msg_size i : zlen buf = 4096 -> 0 <= msg_size <= 4096 ->
  zlen (splice buf 0 (bench_payload msg_size i)) = 4096.
Proof. intros Hb Hm. pose proof (bench_payload_len msg_size i ltac:(lia)). rewrite zlen_splice; lia. Qed.

Section Laws.
Context (count msg_size : Z) (Hm : 0 <= msg_size <= 4096).

#[program] Definition warmup_laws : ChildLaws warmup_child WARMUP_MSGS (bench_payload msg_size) 4096 := {|
  child_ok v := zlen (b_buf v) = 4096 /\ b_left v = false
|}.
Next Obligation. by intros v [? _]. Qed.
Next Obligation. intros v [_ Hl]. simpl. unfold bench_more. by rewrite Hl. Qed.
Next Obligation. by intros v e _ [-> | ->]. Qed.
Next Obligation. intros v [Hb Hl] _. eexists. split; [reflexivity|]. by split; [split; [apply splice_payload|]|]. Qed.

#[program] Definition bench_laws : ChildLaws (bench_child count) count (bench_payload msg_size) 4096 := {|
  child_ok v := zlen (b_buf v) = 4096 /\ b_left v = false
|}.
Next Obligation. by intros v [? _]. Qed.
Next Obligation. intros v [_ Hl]. simpl. unfold bench_more. by rewrite Hl. Qed.
Next Obligation. by intros v e _ [-> | ->]. Qed.
Next Obligation. intros v [Hb Hl] _. eexists. split; [reflexivity|]. by split; [split; [apply splice_payload|]|]. Qed.
End Laws.

(** What a transfer has achieved at some moment, and how it can end. *)
Definition transfers {L} (C : child L) (step : transfer L -> transfer L -> Prop) (count : Z) (payload : Z -> msg)
    (s0 : sys) (s : transfer L) : Prop :=
  st_popped (x_spsc s) = map payload (seqZ 0 (received C (x_child s))) /\
  exists s', rtc step s s' /\ (transfer_done count s' \/ transfer_lost C s0 s').

Section Correct.
Context {P : Posix} {L : PosixLaws P} {E : Env}.

(** The benchmark transfers its messages.  On every operating system that behaves as
    documented, for messages of at most 4096 bytes, the program reaches each fork with a
    queue of its own, or returns 1 after the system refused a request.  From there, under
    release/acquire memory and whatever the interleaving, the child has at any moment
    received the messages pushed first, whole, and from any moment the transfer can still
    be completed, all messages pushed and the child gone with 0, unless the child is
    refused the queue and exits with 1. *)
Theorem benchmark_transfers msg_count msg_size q0 p c :
  0 <= msg_count -> 0 <= msg_size <= 4096 ->
  c = bench_setup msg_count msg_size \/ c = bench_reset q0 msg_size ->
  wp c p (fun r p' => match r with
    | None => refusal (p_sys p) (p_sys p')
    | Some (ptr, q) => exists o m, serves BENCH_QUEUE o (eq m) q (p_sys p') /\ forall buf0, zlen buf0 = 4096 ->
        (forall s, rtc (warmup_step ptr q msg_size) (bench_start m (p_sys p') buf0) s ->
           transfers warmup_child (warmup_step ptr q msg_size) WARMUP_MSGS (bench_payload msg_size) (p_sys p') s) /\
        (forall s, rtc (bench_step ptr q msg_count msg_size) (bench_start m (p_sys p') buf0) s ->
           transfers (bench_child msg_count) (bench_step ptr q msg_count msg_size) msg_count
             (bench_payload msg_size) (p_sys p') s)
    end).
Proof.
  intros Hc Hm Hcase. eapply wp_bench_child; [|exact Hcase|done|]; [lia|].
  intros ptr q o m p' Hmem R Hlen. exists o, m. split; [done|].
  assert (forall count i, 0 <= i < count -> zlen (bench_payload msg_size i) <= 4096) as Hcap.
  { intros count i _. rewrite bench_payload_len; lia. }
  intros buf0 Hb. split; intros s Hr.
  - by destruct (transfer_correct _ BENCH_QUEUE ptr q WARMUP_MSGS _ 13 m (p_sys p') o (BenchVars 0 buf0 false)
      R Hmem ltac:(done) (Hlen _) 4096 (K := warmup_laws msg_size Hm) (Hcap _) (conj Hb eq_refl) eq_refl s Hr) as (? & _ & ?).
  - by destruct (transfer_correct _ BENCH_QUEUE ptr q msg_count _ 13 m (p_sys p') o (BenchVars 0 buf0 false)
      R Hmem Hc (Hlen _) 4096 (K := bench_laws msg_count msg_size Hm) (Hcap _) (conj Hb eq_refl) eq_refl s Hr) as (? & _ & ?).
Qed.

(** Messages that do not fit the buffer of the child.  For 4096 < [msg_size] < 2^16, the
    child of the warm-up receives nothing, yet exits with 0; the child of the measured
    transfer receives nothing and never exits, so the program does not end (unless the
    child is refused the queue: then it exits with 1). *)
Theorem benchmark_hangs_on_large_messages msg_count msg_size q0 p c :
  0 < msg_count -> 4096 < msg_size < 2 ^ 16 ->
  c = bench_setup msg_count msg_size \/ c = bench_reset q0 msg_size ->
  wp c p (fun r p' => match r with
    | None => refusal (p_sys p) (p_sys p')
    | Some (ptr, q) => exists o m, serves BENCH_QUEUE o (eq m) q (p_sys p') /\ forall buf0, zlen buf0 = 4096 ->
        (forall s, rtc (warmup_step ptr q msg_size) (bench_start m (p_sys p') buf0) s ->
           st_popped (x_spsc s) = [] /\ b_received (x_child s) = 0 /\
           (x_exit s = None \/ x_exit s = Some (Exited 0) \/ transfer_lost warmup_child (p_sys p') s)) /\
        (forall s, rtc (bench_step ptr q msg_count msg_size) (bench_start m (p_sys p') buf0) s ->
           st_popped (x_spsc s) = [] /\ b_received (x_child s) = 0 /\
           (x_exit s = None \/ transfer_lost (bench_child msg_count) (p_sys p') s))
    end).
Proof.
  intros Hc Hm Hcase. eapply wp_bench_child; [|exact Hcase|done|]; [lia|].
  intros ptr q o m p' Hmem R Hlen. exists o, m. split; [done|].
  intros buf0 Hb. assert (forall count i, 0 <= i < count -> zlen buf0 < zlen (bench_payload msg_size i)) as Hbig.
  { intros count i _. rewrite bench_payload_len; lia. }
  split; intros s Hr.
  - pose proof (refused_run warmup_child BENCH_QUEUE ptr q WARMUP_MSGS _ (BenchVars 0 buf0 false) (BenchVars 0 buf0 true)
      13 m (p_sys p') o R Hmem ltac:(done) (Hlen _) (Hbig _) ltac:(by intros e [-> | ->]) eq_refl
      (or_intror eq_refl) s Hr) as Ok.
    split; [exact (ro_popped _ _ _ _ _ _ _ _ _ Ok)|]. split; [by destruct (ro_child _ _ _ _ _ _ _ _ _ Ok) as [-> | ->]|].
    destruct (ro_exit _ _ _ _ _ _ _ _ _ Ok) as [?|[[? _]|?]]; auto.
  - assert (more (bench_child msg_count) (BenchVars 0 buf0 false) = true) as Hmore by (by apply Z.ltb_lt).
    pose proof (refused_run (bench_child msg_count) BENCH_QUEUE ptr q msg_count _ (BenchVars 0 buf0 false) (BenchVars 0 buf0 false)
      13 m (p_sys p') o R Hmem ltac:(lia) (Hlen _) (Hbig _) ltac:(by intros e [-> | ->]) eq_refl
      (or_introl eq_refl) s Hr) as Ok.
    split; [exact (ro_popped _ _ _ _ _ _ _ _ _ Ok)|]. pose proof (ro_child _ _ _ _ _ _ _ _ _ Ok) as Hl.
    assert (x_child s = BenchVars 0 buf0 false) as Hl' by tauto. rewrite Hl'. split; [done|].
    destruct (ro_exit _ _ _ _ _ _ _ _ _ Ok) as [?|[[_ Hx]|?]]; auto. rewrite Hl' in Hx. congruence.
Qed.
End Correct.

(** On the simple system the first fork is reached, with messages of no bytes. *)
Lemma benchmark_transfers_witness :
  let setup := @bench_setup (SimplePosix no_faults) quiet 5 0 (Process boot [] [] 0) in
  match setup with
  | Some (Some (ptr, q), p) => exists o m, serves BENCH_QUEUE o (eq m) q (p_sys p) /\
      exists s', rtc (@bench_step (SimplePosix no_faults) ptr q 5 0) (bench_start m (p_sys p) (blank 4096)) s' /\
        (transfer_done 5 s' \/ transfer_lost (bench_child 5) (p_sys p) s')
  | _ => False
  end.
Proof.
  intros setup.
  destruct (@benchmark_transfers (SimplePosix no_faults) (SimplePosix_laws no_faults) quiet 5 0 (0, sample_q)
    (Process boot [] [] 0) _ ltac:(lia) ltac:(lia) (or_introl eq_refl)) as (r & p & E & H).
  unfold setup. rewrite E. destruct r as [[ptr q]|].
  - destruct H as (o & m & Hm & H). exists o, m. split; [exact Hm|].
    destruct (H (blank 4096) eq_refl) as [_ Hb]. exact (proj2 (Hb _ (rtc_refl _ _))).
  - assert (match setup with Some (None, _) => False | _ => True end) as F by (vm_compute; exact I).
    unfold setup in F. by rewrite E in F.
Defined.

Lemma benchmark_hangs_on_large_messages_witness :
  @wp process (option (Z * nabd)) (@bench_setup (SimplePosix no_faults) quiet 5 5000) (Process boot [] [] 0) (fun r p' =>
    match r with
    | None => refusal boot (p_sys p')
    | Some (ptr, q) => exists o m, serves BENCH_QUEUE o (eq m) q (p_sys p') /\ forall s,
        rtc (@bench_step (SimplePosix no_faults) ptr q 5 5000) (bench_start m (p_sys p') (blank 4096)) s ->
        st_popped (x_spsc s) = []
    end).
Proof.
  destruct (@benchmark_hangs_on_large_messages (SimplePosix no_faults) (SimplePosix_laws no_faults) quiet 5 5000
    (0, sample_q) (Process boot [] [] 0) _ ltac:(lia) ltac:(lia) (or_introl eq_refl)) as (r & p & E & H).
  exists r, p. split; [exact E|]. destruct r as [[ptr q]|]; [|exact H].
  destruct H as (o & m & Hm & H). exists o, m. split; [exact Hm|]. intros s Hs.
  destruct (H (blank 4096) eq_refl) as [_ Hb]. exact (proj1 (Hb s Hs)).
Defined.
